(* ===== verification/_CoqProject ===== *)
-Q . S2P
Prelude.v
FastAscii.v
Record.v
Config.v
FmtBuf.v
FmtTime.v
FmtJson.v
FmtOtel.v
FmtText.v
Redact.v
Rotate.v
FileSink.v
FileBuffer.v
RateLimit.v
Port.v
WeakMem.v
Queue.v
WeakRing.v
QueueWeak.v
QueueDrain.v
SocketRing.v
SocketRingWeak.v
Trace.v
Context.v
ModuleWeak.v
RecordMem.v
Async.v
Dispatcher.v
Logger.v
Plugin.v
Signal.v
SignalWin.v
Prometheus.v
Lifecycle.v
Session.v
Pipeline.v
Api.v
AsyncWorker.v
SocketWriter.v
SocketAsync.v
SocketSink.v
StreamSinks.v
Journald.v
BuiltinSinks.v
IncludeCheck.v
