(* ===== verification/Prelude.v ===== *)
(** * clogx: a verification of the logging library

    clogx (src/) is a C logging library.  A [LOG_*] macro calls the write path
    (core/log.c), which filters by level, formats the message, redacts it, asks
    the rate limiter, and hands a record either to the dispatcher
    (core/dispatcher.c) or, in asynchronous mode, to a lock-free queue
    (core/queue.c) that a worker thread (core/async.c) drains into the
    dispatcher.  The dispatcher renders the record (core/formatter*.c) and
    writes the line to every sink (sinks/), of which the file sink rotates its
    file (core/rotate.c) and the socket sink may hand its lines to a ring and a
    writer thread of its own (core/socket_*.c); plugins (core/plugin_loader.c)
    add sinks.  A YAML file configures all of it (core/config.c); trace and
    thread context (core/log.c) decorate the records; termination signals are
    deferred to the next log call (core/signal_handler.c) and an HTTP server
    exports the counters (core/prometheus_exporter.c).

    ** Files and what they model

    - Prelude.v: bytes, C strings, machine integers, [strstr], [snprintf],
      the tactics [zcases], [clia] and the hint databases [clog], [clen].
    - FastAscii.v: core/fast_ascii.h.  Record.v: include/log_record.h,
      log_limits.h, the error codes of log.h.
    - Config.v: core/config.c; libyaml is a parameter (a list of events).
    - FmtBuf.v, FmtTime.v: core/formatter.c; FmtJson.v: formatter_json.c;
      FmtOtel.v: formatter_otel.c; FmtText.v: formatter_fmt.c.  The class
      [Platform] stands for localtime_r, strftime and printf of doubles.
    - Redact.v, Trace.v, Context.v: the redaction, span and context parts of
      core/log.c.  RateLimit.v: core/rate_limit.c.
    - Rotate.v, FileSink.v: core/rotate.c, sinks/file_sink.c, over a file
      system given as a finite map from names to contents; FileBuffer.v: the
      same sink over the buffer of its C stream, with flush, close and fork.
    - Port.v: include/clog_port.h: the atomics of the three builds, semaphores,
      clocks, thread ids, sleep and the scoped lock.
    - Queue.v: core/queue.c, put, get and close, one shared-memory access per
      step; QueueDrain.v: the batch reader, the wait for an empty queue and
      destruction, on top of it.
    - WeakMem.v: release/acquire memory by views, the orders of the GNU atomics
      of include/clog_port.h; WeakRing.v: a ring of slots published by counters
      over it, and what its threads know; QueueWeak.v, SocketRingWeak.v: the code
      of core/queue.c and core/socket_ring.c over that memory, as clients of
      WeakRing.v; ModuleWeak.v: the sequence lock of the module name.
    - RecordMem.v: [log_record_clone], [log_record_rebase_inline] and
      [log_record_free_owned], with strings as pointers into blocks.
    - Async.v: starting, stopping and forking the worker of core/async.c.
    - Dispatcher.v: core/dispatcher.c; the class [Sink] is the callback table
      of include/log_sink.h.
    - Logger.v: the write paths of core/log.c.
    - Plugin.v: core/plugin_loader.c; Signal.v, SignalWin.v: the POSIX and the
      Windows branch of core/signal_handler.c; Prometheus.v:
      core/prometheus_exporter.c.
    - Lifecycle.v: init, reload and shutdown of core/log.c, composed of the
      above; Session.v: instances, fork and arbitrary sequences of calls;
      Pipeline.v: a whole log call, from the caller to the sinks; Api.v: the
      macros of include/log.h over it.
    - AsyncWorker.v: the asynchronous path, core/async.c over QueueDrain.v, the
      formatter and the dispatcher: callers, worker, flushes and shutdown
      interleaved access by access.
    - SocketRing.v: core/socket_ring.c, one shared-memory access per step, with
      the writer's use of the lines; SocketWriter.v: core/socket_writer.c and
      socket_transport.c; SocketAsync.v: ring, writer thread and network as one
      system; SocketSink.v: sinks/socket_sink.c.
    - StreamSinks.v: the console, OTLP and custom sinks; Journald.v: the
      journald and syslog sinks with the journal's descriptors and the state of
      the C library's syslog; BuiltinSinks.v: all built-in sinks as one instance
      of [Sink], so that the dispatcher's theorems apply to them.
    - IncludeCheck.v: the clang-tidy check of clang-tidy/clogx-unused-includes,
      over the events of the compiler's front end.

    A [char] is a [Z] in 0..255 and a string the list of the bytes before its
    NUL; [size_t], [uint32_t], [int] are [Z] with [u64], [u32], [i32] where the
    code wraps; a pointer that may be NULL is an [option].  State is passed
    explicitly; undefined behaviour of C is [None] of an outer [option], and a
    theorem that a call is defined says so.  Concurrent code is a step function
    on a state with a program counter per thread, and the theorems quantify over
    all interleavings, one shared access at a time.  Where the code synchronises by
    atomics alone there is a second machine over release/acquire memory, in which
    each load may be answered by any store its thread is not ordered after, and
    the theorems quantify over these choices too.  Operations under a mutex are
    single steps.

    ** What is shown

    - Delivery.  The queue is a FIFO without loss or duplication ([mpsc_fifo],
      [mpsc_no_loss]); no wake-up is lost when no compare-and-swap fails spuriously
      and no claim is given up ([mpsc_no_lost_wakeup]); a wait for it to drain ends
      when it has ([wait_empty_correct]); the strings of a record survive it and
      nothing leaks ([async_record_handoff], [async_fallback_safe]).
      [async_exactly_once] puts the asynchronous path together, in every format: at
      rest the worker has dispatched every record whose write returned success
      exactly once, and the sinks hold the bytes of what it dispatched in order; a
      flush waits for the records accepted before it ([async_flush_quiescent]).
      [log_call_delivered] does so for the synchronous path, in every format and
      after any history of calls: call, redaction, rate limiter, formatter with its
      caches, dispatcher, sinks; and [kv_macro_reads_back] for a key-value macro in
      the JSON format, whose line reads back as the arguments of the macro.  The
      file sink rotates exactly at its limit and keeps an unbroken suffix of what was
      written ([file_write_correct], [file_writes_keep_suffix],
      [file_rotate_file_correct]), also through the buffer of its stream
      ([file_buffer_refines]); for every built-in sink but OTLP a line that fits one
      chunk arrives in its output once ([builtin_dispatch]).
    - Weak memory.  With no more than the orders the code asks for, records and
      lines pass through the two rings without a data race, in order and without
      loss ([weak_queue_safe], [weak_ring_safe]), and a module name read under its
      mutex is whole ([locked_read_whole]).  What needs more than release and
      acquire fails: the wake-up of the queue's consumer
      ([store_buffering_loses_wakeup]), the lock-free read of the module name
      ([seqlock_torn_read]) and the lines the socket writer reads after it has
      released their slots ([sent_line_races]).
    - Remote delivery.  As long as nothing is dropped, the socket ring hands lines
      over once and in order without touching freed memory
      ([socket_ring_exactly_once], [socket_ring_destroy_frees],
      [socket_ring_wakeup]); the writer thread ends with everything released whatever
      the network does ([socket_writer_thread_correct], [socket_writer_delivers],
      [backoff_next_bounds]); the two as one system put a prefix of each line's frame
      on the wire, and the whole frames when nothing fails
      ([socket_async_end_to_end]); a synchronous write on a working network sends
      everything ([socket_write_correct]); journal datagrams read back
      ([journald_write_roundtrip]) and leak no descriptor
      ([journald_resources]); one syslog sink tags its lines as configured
      ([syslog_alone_tags]).
    - Rendering.  JSON output of records with finite doubles reads back as the record
      ([format_json_roundtrip]), OTLP output is its object ([format_otel_render]),
      escaping stays in its
      buffer ([append_json_escaped_string_correct]), cut output is never
      broken JSON ([format_json_truncation]), the compiled pattern formatter
      with its caches prints the plain concatenation ([format_impl_correct],
      [fmt_compile_faithful]), the number and date printers are decimal.
    - The write path.  What is handed over for each call
      ([writevprintf_record], [write_kv_record]) and that the rate limiter accounts
      for every call it suppresses ([logger_accounting]); redaction hides every
      pattern when masks and patterns share no byte and memory suffices
      ([redact_hides_every_pattern]) and is memory safe; the rate limiter counts and reports exactly; the module name
      is never torn by interleaving ([module_no_torn_read]); the thread context is
      a bounded map ([mdc_refines_map]); spans nest and traces cross processes.
    - Control.  Sinks are owned in one place and never used after destruction
      ([dispatcher_ownership], which also says which ones an initialisation loses);
      what initialisation, reload and shutdown leave is stated for every outcome
      ([log_init_correct], [log_reload_correct], [log_destroy_correct]), a session leaves nothing behind
      ([log_session_restores]), no sequence of calls breaks a logger
      ([life_safe]) and neither does a fork ([fork_correct]); plugin libraries
      are opened and closed in step with their table ([plugin_table_correct]);
      a signal is deferred, flushed for and raised against the application's own
      disposition, with deliveries between any two accesses ([signal_deferred],
      [signal_flush_before_raise], [win_signal_deferred]); the exporter reports the
      process's counters ([prometheus_reports]); configuration is read as the fold of
      its pairs and, where the load is defined, in range ([config_section_is_fold], [config_load_ok]).
    - Portability and tooling.  The atomics of the GNU, Windows and plain builds
      agree on 64-bit machines, spurious failures of the weak compare-and-swap apart
      ([atomics_agree]); the include check terminates and reports exactly the includes
      of which it has recorded no use ([unused_includes_correct]).
    - Defects met on the way are theorems or examples too, such as
      [plugin_json_overflows], [next_pow2_diverges], [json_cut_text_is_dropped],
      [atfork_replays_parent_record], [no_message_not_rebased],
      [inline_line_overwritten], [lines_stranded], [partial_line_then_next],
      [line_torn], [first_signal_lost], [caught_before_clear_lost],
      [async_fork_hangs], [stop_overtaken], [instance_library_unloaded],
      [weak_cas_loses_wakeup], [close_leaves_producer_blocked],
      [destroy_frees_under_put], [late_put_lost], [fork_duplicates_buffer],
      [two_syslog_sinks], [severity_no_exemption],
      [win_handler_survives_restore].

    ** Bounds and fuel

    Loops that are not structural carry fuel: twenty decimal digits print every
    64-bit value; a scan of a string uses its length plus one, each turn
    consuming a byte; [next_pow2] doubles at most 63 times; the binary search
    uses the table's size plus one; the closure of an include graph uses the
    number of its edges plus one, each turn consuming an edge.  In each case a
    theorem states the result, never only what holds if there is one.  Queue
    positions are 64-bit counters: the theorems hold for runs of up to 2^62
    steps from a queue or ring of up to 2^62 slots.  Send loops have one turn
    per byte, since each turn sends one.  The burst theorem of the rate limiter
    covers buckets of 1 to 128 tokens, decided by computing the doubles.  Memory
    is sequentially consistent except in the files named after weak memory, where
    timestamps are unbounded and the same bound on steps applies.

    ** Not modelled

    Under weak memory: the waits for an empty queue, the destructors, the
    worker's flags and the relaxed statistics counters; relaxed loads that could
    see a store before it is made do not arise, as the code has none that another
    access depends on.  The plain bytes of the module name are relaxed atomics in
    ModuleWeak.v, since the race on them has no defined meaning.  The wrappers of
    include/clog_port.h that are one call of the operating system (mutexes,
    condition variables, sockets, directories) are the primitive steps of the
    models that use them, and the Windows branches other than those of Port.v
    and SignalWin.v are left out (the plugin loader there is a set of functions
    that do nothing).  TLS, name resolution and the dynamic linker are arguments
    by what they answer.  One-line wrappers that pass the default logger to a
    function of another file are that function. *)
From stdpp Require Export base tactics list gmap strings.
From Stdlib Require Export ZArith Lia.

Local Open Scope Z_scope.

(** ** Bytes and C strings

    A [char] is a [Z] in [0, 255]; a NUL-terminated string is the list of the
    bytes before its NUL. *)

Abbreviation cstr := (list Z).

Definition is_byte (c : Z) : Prop := 0 <= c < 256.
Definition is_char (c : Z) : Prop := 0 < c < 256.

(** [B s] is the byte list of a literal; [J s] the same with every apostrophe
    read as a double quote, for the JSON literals of the sources (none of which
    contains an apostrophe). *)
Fixpoint B (s : string) : cstr :=
  match s with
  | EmptyString => []
  | String a s' => Z.of_N (Ascii.N_of_ascii a) :: B s'
  end.

Definition quote_of (c : Z) : Z := if c =? 39 then 34 else c.
Definition J (s : string) : cstr := map quote_of (B s).

(** The character constant of a one-letter literal. *)
Definition ch (s : string) : Z := match B s with c :: _ => c | [] => 0 end.

Definition clen {A} (s : list A) : Z := Z.of_nat (length s).

(** ** Machine integers *)

Definition u8 (z : Z) : Z := z mod 2 ^ 8.
Definition u32 (z : Z) : Z := z mod 2 ^ 32.
Definition u64 (z : Z) : Z := z mod 2 ^ 64.
Definition i32 (z : Z) : Z := (z + 2 ^ 31) mod 2 ^ 32 - 2 ^ 31.
Definition i64 (z : Z) : Z := (z + 2 ^ 63) mod 2 ^ 64 - 2 ^ 63.

Definition is_u32 (z : Z) : Prop := 0 <= z < 2 ^ 32.
Definition is_u64 (z : Z) : Prop := 0 <= z < 2 ^ 64.
Definition is_i32 (z : Z) : Prop := - 2 ^ 31 <= z < 2 ^ 31.
Definition is_i64 (z : Z) : Prop := - 2 ^ 63 <= z < 2 ^ 63.

Lemma u32_id z : is_u32 z → u32 z = z.
Proof. intros [??]. by apply Z.mod_small. Qed.
Lemma u64_id z : is_u64 z → u64 z = z.
Proof. intros [??]. by apply Z.mod_small. Qed.
Lemma i32_id z : is_i32 z → i32 z = z.
Proof. unfold is_i32, i32. intros [??]. rewrite Z.mod_small; lia. Qed.
Lemma u64_range z : is_u64 (u64 z).
Proof. apply Z.mod_pos_bound. lia. Qed.
Lemma u32_range z : is_u32 (u32 z).
Proof. apply Z.mod_pos_bound. lia. Qed.

(** ** Tactics *)

(** Case analysis on every integer comparison of the goal. *)
Ltac zcases :=
  repeat match goal with
  | |- context [?a <=? ?b] => destruct (Z.leb_spec a b)
  | |- context [?a <? ?b] => destruct (Z.ltb_spec a b)
  | |- context [?a =? ?b] => destruct (Z.eqb_spec a b)
  | |- context [?a >=? ?b] => rewrite (Z.geb_leb a b)
  | |- context [?a >? ?b] => rewrite (Z.gtb_ltb a b)
  end.

(** The same in the hypotheses. *)
Ltac zcases_in H :=
  repeat match type of H with
  | context [?a <=? ?b] => destruct (Z.leb_spec a b)
  | context [?a <? ?b] => destruct (Z.ltb_spec a b)
  | context [?a =? ?b] => destruct (Z.eqb_spec a b)
  | context [?a >=? ?b] => rewrite (Z.geb_leb a b) in H
  | context [?a >? ?b] => rewrite (Z.gtb_ltb a b) in H
  end.

Create HintDb clog.
Create HintDb clen.

(** ** Lists *)

Lemma clen_nonneg {A} (s : list A) : 0 <= clen s.
Proof. unfold clen. lia. Qed.
Lemma clen_nil {A} : clen (@nil A) = 0.
Proof. done. Qed.
Lemma clen_cons {A} (x : A) s : clen (x :: s) = 1 + clen s.
Proof. unfold clen. simpl length. lia. Qed.
Lemma clen_app {A} (s t : list A) : clen (s ++ t) = clen s + clen t.
Proof. unfold clen. rewrite length_app. lia. Qed.
Lemma clen_take {A} n (s : list A) : clen (take n s) = Z.min (Z.of_nat n) (clen s).
Proof. unfold clen. rewrite length_take. lia. Qed.
Lemma clen_drop {A} n (s : list A) : clen (drop n s) = Z.max 0 (clen s - Z.of_nat n).
Proof. unfold clen. rewrite length_drop. lia. Qed.

#[export] Hint Rewrite @clen_nil @clen_cons @clen_app @clen_take @clen_drop : clen.
#[export] Hint Resolve clen_nonneg : clog.

(** Normalise lengths, then arithmetic. *)
Ltac clia :=
  autorewrite with clen in *;
  repeat match goal with
  | |- context [clen ?s] => lazymatch goal with
                            | _ : 0 <= clen s |- _ => fail
                            | _ => pose proof (clen_nonneg s) end
  | _ : context [clen ?s] |- _ => lazymatch goal with
                            | _ : 0 <= clen s |- _ => fail
                            | _ => pose proof (clen_nonneg s) end
  end; lia.

(** ** The C string functions the sources use *)

(** [strncmp (s, p, strlen p) == 0]. *)
Fixpoint prefixb (p s : cstr) : bool :=
  match p, s with
  | [], _ => true
  | a :: p', b :: s' => (a =? b) && prefixb p' s'
  | _ :: _, [] => false
  end.

Lemma prefixb_spec p s : prefixb p s = true ↔ p `prefix_of` s.
Proof.
  revert s. induction p as [|a p IH]; intros [|b s]; simpl.
  - split; [intros; apply prefix_nil | done].
  - split; [intros; apply prefix_nil | done].
  - split; [done | intros H; by apply prefix_nil_not in H].
  - rewrite andb_true_iff, IH, Z.eqb_eq. split.
    + intros [-> ?]. by apply prefix_cons.
    + intros H. split; [eapply prefix_cons_inv_1 | eapply prefix_cons_inv_2]; done.
Qed.

Lemma prefixb_drop p s : prefixb p s = true → s = p ++ drop (length p) s.
Proof.
  intros [k ->]%prefixb_spec. by rewrite drop_app_length.
Qed.

(** [strstr]: the offset of the first occurrence. *)
Fixpoint strstr (hay pat : cstr) : option nat :=
  if prefixb pat hay then Some 0%nat
  else match hay with
       | [] => None
       | _ :: hay' => S <$> strstr hay' pat
       end.

(** [p] occurs in [s]. *)
Definition occurs (p s : cstr) : Prop := ∃ a b, s = a ++ p ++ b.

Lemma strstr_Some hay pat i :
  strstr hay pat = Some i →
  hay = take i hay ++ pat ++ drop (i + length pat) hay ∧
  (i + length pat ≤ length hay)%nat.
Proof.
  revert i. induction hay as [|c hay IH]; intros i; simpl;
    destruct (prefixb pat _) eqn:E; intros H; simplify_eq/=.
  - apply prefixb_drop in E. split; [done|].
    apply (f_equal length) in E. rewrite length_app in E. simpl in *. lia.
  - pose proof (prefixb_drop _ _ E) as E'. split; [done|].
    apply (f_equal length) in E'. rewrite length_app in E'. simpl in *. lia.
  - apply fmap_Some in H as (j & H & ->). apply IH in H as [H ?].
    split; [simpl; by f_equal | simpl; lia].
Qed.

Lemma strstr_first hay pat i :
  strstr hay pat = Some i →
  ∀ j, (j < i)%nat → prefixb pat (drop j hay) = false.
Proof.
  revert i. induction hay as [|c hay IH]; intros i; simpl;
    destruct (prefixb pat _) eqn:E; intros H j Hj; simplify_eq/=; try lia.
  apply fmap_Some in H as (k & H & ->).
  destruct j as [|j]; simpl; [done|]. eapply IH; [done|lia].
Qed.

Lemma strstr_None hay pat : strstr hay pat = None ↔ ¬ occurs pat hay.
Proof.
  split.
  - induction hay as [|c hay IH]; simpl; destruct (prefixb pat _) eqn:E;
      intros H (a & b & Hab); simplify_eq/=.
    + destruct a; [|done]. symmetry in Hab. simpl in Hab.
      destruct pat; [done | simpl in Hab; done].
    + apply fmap_None in H. destruct a as [|d a]; simpl in Hab; simplify_eq.
      * rewrite Hab in E. apply not_true_iff_false in E. apply E, prefixb_spec. by exists b.
      * apply IH; [done|]. by exists a, b.
  - induction hay as [|c hay IH]; simpl; destruct (prefixb pat _) eqn:E; intros H; [..|].
    + destruct H. exists [], []. apply prefixb_drop in E.
      destruct pat; done.
    + done.
    + destruct H. exists [], (drop (length pat) (c :: hay)). by apply prefixb_drop.
    + apply fmap_None, IH. intros (a & b & ->). apply H. by exists (c :: a), b.
Qed.

(** [snprintf (dst, n, "%s", s)]: what [dst] holds afterwards, for [n > 0]. *)
Definition snprintf_s (n : Z) (s : cstr) : cstr := take (Z.to_nat (n - 1)) s.

Lemma snprintf_s_len n s : 0 < n → clen (snprintf_s n s) < n.
Proof. intros. unfold snprintf_s. clia. Qed.

Lemma snprintf_s_id n s : clen s < n → snprintf_s n s = s.
Proof. intros H. unfold snprintf_s, clen in *. apply take_ge. lia. Qed.

Lemma snprintf_s_prefix n s : snprintf_s n s `prefix_of` s.
Proof. exists (drop (Z.to_nat (n - 1)) s). symmetry. apply take_drop. Qed.

#[export] Hint Resolve snprintf_s_len snprintf_s_prefix : clog.

(** Equality of C strings, [strcmp (a, b) == 0]. *)
Definition streq (a b : cstr) : bool := bool_decide (a = b).

(** ** Lists updated at an index *)

Lemma lookup_insert_cases {X} (l : list X) i x j y :
  <[i := x]> l !! j = Some y → (j = i ∧ y = x) ∨ (j ≠ i ∧ l !! j = Some y).
Proof.
  rewrite list_lookup_insert. case_decide as Hd; [destruct Hd as [-> _]; intros [= ->]; by left|].
  intros Hj. right. split; [|done]. intros ->. destruct Hd. split; [done|by eapply lookup_lt_Some].
Qed.
