(* ===== verification/FastAscii.v ===== *)
(** * Integer and timestamp rendering (core/fast_ascii.h)

    The two-digit lookup table, the padded and unpadded integer renderers built
    on it and the ISO timestamp renderer, with a proof that each prints what the
    one-digit-at-a-time reference printer prints. *)
From S2P Require Import Prelude.

Local Open Scope Z_scope.

(** ** The code *)

Definition g_clog_digits_lut : cstr :=
  B ("0001020304050607080910111213141516171819" +:+
     "2021222324252627282930313233343536373839" +:+
     "4041424344454647484950515253545556575859" +:+
     "6061626364656667686970717273747576777879" +:+
     "8081828384858687888990919293949596979899").

(** [g_clog_digits_lut[i]]. *)
Definition lut (i : Z) : Z := g_clog_digits_lut !!! Z.to_nat i.

(** [p[0] = lut[idx]; p[1] = lut[idx + 1]] *)
Definition lut2 (idx : Z) : cstr := [lut idx; lut (idx + 1)].

Definition clog_u32toa_pad2 (val : Z) : cstr := lut2 ((val mod 100) * 2).

Definition clog_u32toa_pad4 (val : Z) : cstr :=
  let d1 := (val / 100) * 2 in
  let d2 := (val mod 100) * 2 in
  lut2 d1 ++ lut2 d2.

Definition clog_u32toa_pad6 (val : Z) : cstr :=
  let v1 := val / 100 in
  let d3 := (val mod 100) * 2 in
  let d2 := (v1 mod 100) * 2 in
  let d1 := (v1 / 100) * 2 in
  lut2 d1 ++ lut2 d2 ++ lut2 d3.

(** The shared tail of [clog_u32toa] and [clog_u64toa]: [while (val >= 100)]
    peels two digits, [p] moving down in [tmp]; [acc] is [p .. tmp + sizeof tmp].
    [fuel] is the number of pairs [tmp] has room for. *)
Fixpoint u_toa_loop (fuel : nat) (val : Z) (acc : cstr) : cstr :=
  match fuel with
  | O => acc
  | S fuel' =>
      if val >=? 100 then u_toa_loop fuel' (val / 100) (lut2 ((val mod 100) * 2) ++ acc)
      else if val <? 10 then (48 + val) :: acc
      else lut2 (val * 2) ++ acc
  end.

(** [char tmp[12]]: six pairs. *)
Definition clog_u32toa (val : Z) : cstr :=
  if val <? 10 then [48 + val]
  else if val <? 100 then lut2 (val * 2)
  else u_toa_loop 6 val [].

Definition clog_i32toa (val : Z) : cstr :=
  if val <? 0 then 45 :: clog_u32toa (u32 (- val)) else clog_u32toa (u32 val).

(** [char tmp[24]]: twelve pairs. *)
Definition clog_u64toa (val : Z) : cstr :=
  if val <=? 0xFFFFFFFF then clog_u32toa (u32 val) else u_toa_loop 12 val [].

Definition clog_i64toa (val : Z) : cstr :=
  if val <? 0 then 45 :: clog_u64toa (u64 (u64 (- (val + 1)) + 1))
  else clog_u64toa (u64 val).

(** [struct tm], the fields the renderer reads. *)
Record tm := Tm {
  tm_year : Z; tm_mon : Z; tm_mday : Z; tm_hour : Z; tm_min : Z; tm_sec : Z
}.

Definition clog_format_iso_datetime (t : tm) : cstr :=
  clog_u32toa_pad4 (u32 (tm_year t + 1900)) ++ B "-" ++
  clog_u32toa_pad2 (u32 (tm_mon t + 1)) ++ B "-" ++
  clog_u32toa_pad2 (u32 (tm_mday t)) ++ B " " ++
  clog_u32toa_pad2 (u32 (tm_hour t)) ++ B ":" ++
  clog_u32toa_pad2 (u32 (tm_min t)) ++ B ":" ++
  clog_u32toa_pad2 (u32 (tm_sec t)).

(** ** The reference printer: one digit at a time *)

Fixpoint dec_go (fuel : nat) (v : Z) : cstr :=
  match fuel with
  | O => []
  | S fuel' => if v <? 10 then [48 + v] else dec_go fuel' (v / 10) ++ [48 + v mod 10]
  end.

(** Twenty digits print every 64-bit value. *)
Definition dec (v : Z) : cstr := dec_go 20 v.

Definition sdec (v : Z) : cstr := if v <? 0 then 45 :: dec (- v) else dec v.

(** Exactly [n] digits, with leading zeros ([%0nu]). *)
Fixpoint dec_pad (n : nat) (v : Z) : cstr :=
  match n with
  | O => []
  | S n' => dec_pad n' (v / 10) ++ [48 + v mod 10]
  end.

(** The number a digit string denotes. *)
Definition dec_value (s : cstr) : Z := foldl (λ a c, a * 10 + (c - 48)) 0 s.

(** ** Lemmas *)

Lemma lut2_spec d : 0 <= d < 100 → lut2 (d * 2) = [48 + d / 10; 48 + d mod 10].
Proof.
  intros Hd.
  assert (Forall (λ n : nat, lut2 (Z.of_nat n * 2) =
     [48 + Z.of_nat n / 10; 48 + Z.of_nat n mod 10]) (seq 0 100)) as H.
  { apply (bool_decide_unpack _). vm_compute. done. }
  rewrite Forall_forall in H. rewrite <- (Z2Nat.id d) by lia.
  apply H, elem_of_seq. lia.
Qed.

Lemma pad2_spec v : 0 <= v → clog_u32toa_pad2 v = dec_pad 2 (v mod 100).
Proof.
  intros Hv. unfold clog_u32toa_pad2. rewrite lut2_spec by (apply Z.mod_pos_bound; lia).
  simpl. do 2 f_equal. assert (0 <= v mod 100 < 100) by (apply Z.mod_pos_bound; lia).
  rewrite (Z.mod_small (_ / 10)); [done|]. split; [apply Z.div_pos; lia|].
  apply Z.div_lt_upper_bound; lia.
Qed.

Lemma dec_pad_S_S n v : 0 <= v →
  dec_pad (S (S n)) v = dec_pad n (v / 100) ++ dec_pad 2 (v mod 100).
Proof.
  intros Hv. simpl. rewrite <- app_assoc. simpl.
  rewrite (Z.div_div v 10 10) by lia. change (10 * 10) with 100.
  assert ((v / 10) mod 10 = (v mod 100 / 10) mod 10) as ->.
  { rewrite (Z.div_mod v 100) at 1 by lia.
    replace (100 * (v / 100) + v mod 100) with (v mod 100 + (10 * (v / 100)) * 10) by lia.
    rewrite Z.div_add by lia.
    replace (v mod 100 / 10 + 10 * (v / 100)) with (v mod 100 / 10 + (v / 100) * 10) by lia.
    by rewrite Z.mod_add by lia. }
  assert ((v mod 100) mod 10 = v mod 10) as ->; [|done].
  rewrite (Z.div_mod v 100) at 2 by lia.
  replace (100 * (v / 100) + v mod 100) with (v mod 100 + (10 * (v / 100)) * 10) by lia.
  by rewrite Z.mod_add by lia.
Qed.

Lemma dec_go_S_S f v : 100 <= v →
  dec_go (S (S f)) v = dec_go f (v / 100) ++ dec_pad 2 (v mod 100).
Proof.
  intros Hv.
  pose proof (dec_pad_S_S 0 v ltac:(lia)) as Hp. simpl in Hp.
  cbn [dec_go]. destruct (Z.ltb_spec v 10); [lia|].
  destruct (Z.ltb_spec (v / 10) 10) as [Hlt|].
  { assert (10 <= v / 10) by (apply Z.div_le_lower_bound; lia). lia. }
  rewrite Z.div_div by lia. change (10 * 10) with 100.
  rewrite <- app_assoc. f_equal. exact Hp.
Qed.

Lemma dec_go_S f v :
  dec_go (S f) v = if v <? 10 then [48 + v] else dec_go f (v / 10) ++ [48 + v mod 10].
Proof. done. Qed.

(** Extra fuel changes nothing once the value fits. *)
Lemma dec_go_fuel f g v :
  (1 ≤ f)%nat → 0 <= v < 10 ^ Z.of_nat f → (f ≤ g)%nat → dec_go f v = dec_go g v.
Proof.
  revert g v. induction f as [|f IH]; intros g v Hf Hv Hg; [lia|].
  destruct g as [|g]; [lia|]. simpl. zcases; [done|]. f_equal.
  destruct f as [|f]; [change (10 ^ _) with 10 in Hv; lia|].
  apply IH; [lia| |lia]. split; [apply Z.div_pos; lia|].
  apply Z.div_lt_upper_bound; [lia|].
  rewrite Nat2Z.inj_succ, Z.pow_succ_r in Hv by lia. lia.
Qed.

Lemma u_toa_loop_spec n f v acc :
  (1 ≤ n)%nat → 0 <= v < 10 ^ Z.of_nat (2 * n) → (n ≤ f)%nat →
  u_toa_loop f v acc = dec_go (2 * n) v ++ acc.
Proof.
  revert f v acc. induction n as [|n IH]; intros f v acc Hn Hv Hf; [lia|].
  destruct f as [|f]; [lia|]. cbn [u_toa_loop].
  replace (2 * S n)%nat with (S (S (2 * n))) by lia. rewrite Z.geb_leb.
  destruct (Z.leb_spec 100 v); [|destruct (Z.ltb_spec v 10)].
  - destruct n as [|n]; [change (10 ^ _) with 100 in Hv; lia|].
    rewrite dec_go_S_S by lia. rewrite IH; [|lia|split|lia].
    + rewrite <- app_assoc. f_equal. rewrite lut2_spec by (apply Z.mod_pos_bound; lia).
      pose proof (pad2_spec v ltac:(lia)) as Hp. unfold clog_u32toa_pad2 in Hp.
      rewrite lut2_spec in Hp by (apply Z.mod_pos_bound; lia). by rewrite <- Hp.
    + apply Z.div_pos; lia.
    + apply Z.div_lt_upper_bound; [lia|].
      replace (Z.of_nat (2 * S (S n))) with (2 + Z.of_nat (2 * S n)) in Hv by lia.
      rewrite Z.pow_add_r in Hv by lia. lia.
  - cbn [dec_go]. by zcases; try lia.
  - assert (v / 10 < 10) by (apply Z.div_lt_upper_bound; lia).
    rewrite lut2_spec by lia. cbn [dec_go]. by zcases; try lia.
Qed.

Lemma clog_u32toa_dec v : is_u32 v → clog_u32toa v = dec v.
Proof.
  intros [H0 H1]. unfold clog_u32toa, dec. zcases.
  - rewrite dec_go_S. by zcases; try lia.
  - assert (v / 10 < 10) by (apply Z.div_lt_upper_bound; lia).
    rewrite lut2_spec, (dec_go_S 19), (dec_go_S 18) by lia. by zcases; try lia.
  - rewrite (u_toa_loop_spec 6), app_nil_r; [|lia|split; [lia|]|lia].
    + apply dec_go_fuel; [lia| |lia]. split; [lia|]. by eapply Z.lt_trans.
    + by eapply Z.lt_trans.
Qed.

Lemma clog_u64toa_dec v : is_u64 v → clog_u64toa v = dec v.
Proof.
  intros [H0 H1]. unfold clog_u64toa. zcases.
  - rewrite u32_id by (split; lia). apply clog_u32toa_dec. split; lia.
  - rewrite (u_toa_loop_spec 10), app_nil_r; [done|lia|..|lia].
    split; [lia|]. by eapply Z.lt_trans.
Qed.

Lemma clog_i32toa_sdec v : is_i32 v → clog_i32toa v = sdec v.
Proof.
  intros [H0 H1]. unfold clog_i32toa, sdec. zcases.
  - rewrite u32_id by (split; lia). rewrite clog_u32toa_dec; [done|split; lia].
  - rewrite u32_id by (split; lia). apply clog_u32toa_dec. split; lia.
Qed.

Lemma clog_i64toa_sdec v : is_i64 v → clog_i64toa v = sdec v.
Proof.
  intros [H0 H1]. unfold clog_i64toa, sdec. zcases.
  - rewrite (u64_id (- (v + 1))) by (split; lia).
    replace (- (v + 1) + 1) with (- v) by lia.
    rewrite u64_id by (split; lia). rewrite clog_u64toa_dec; [done|split; lia].
  - rewrite u64_id by (split; lia). apply clog_u64toa_dec. split; lia.
Qed.

Lemma dec_value_snoc s c : dec_value (s ++ [c]) = dec_value s * 10 + (c - 48).
Proof. unfold dec_value. by rewrite foldl_app. Qed.

Lemma dec_value_go f v : 0 <= v < 10 ^ Z.of_nat f → dec_value (dec_go f v) = v.
Proof.
  revert v. induction f as [|f IH]; intros v Hv.
  { change (10 ^ _) with 1 in Hv. change (0 = v). lia. }
  simpl. zcases; [unfold dec_value; simpl; lia|].
  rewrite dec_value_snoc, IH.
  - pose proof (Z.div_mod v 10). lia.
  - split; [apply Z.div_pos; lia|]. apply Z.div_lt_upper_bound; [lia|].
    rewrite Nat2Z.inj_succ, Z.pow_succ_r in Hv by lia. lia.
Qed.

Lemma dec_go_digits f v : 0 <= v → Forall (λ c, 48 <= c <= 57) (dec_go f v).
Proof.
  revert v. induction f as [|f IH]; intros v Hv; simpl; [done|]. zcases.
  - repeat constructor; lia.
  - apply Forall_app. split; [apply IH, Z.div_pos; lia|].
    pose proof (Z.mod_pos_bound v 10). repeat constructor; lia.
Qed.

Lemma dec_go_length f v : (1 ≤ f)%nat → (1 ≤ length (dec_go f v) ≤ f)%nat.
Proof.
  revert v. induction f as [|f IH]; intros v Hf; [lia|].
  simpl. zcases; [simpl; lia|]. rewrite length_app. simpl.
  destruct f as [|f]; [simpl; lia|]. specialize (IH (v / 10) ltac:(lia)). lia.
Qed.

Lemma dec_digits v : 0 <= v → Forall (λ c, 48 <= c <= 57) (dec v).
Proof. apply dec_go_digits. Qed.

#[export] Hint Resolve dec_digits : clog.

Lemma dec_value_dec v : is_u64 v → dec_value (dec v) = v.
Proof. intros [??]. apply dec_value_go. split; [lia|]. by eapply Z.lt_trans. Qed.

Lemma dec_length v : (1 ≤ length (dec v) ≤ 20)%nat.
Proof. apply dec_go_length. lia. Qed.

(** The number a signed decimal string denotes. *)
Definition sdec_value (s : cstr) : Z :=
  match s with
  | c :: s' => if c =? 45 then - dec_value s' else dec_value s
  | [] => 0
  end.

Lemma sdec_value_sdec v : is_i64 v → sdec_value (sdec v) = v.
Proof.
  intros [H0 H1]. unfold sdec. zcases; simpl.
  - rewrite dec_value_dec; [lia|split; lia].
  - assert (is_u64 v) as Hu by (split; lia).
    pose proof (dec_digits v ltac:(lia)) as Hd.
    rewrite <- (dec_value_dec v Hu) at 2.
    destruct (dec v) as [|c s]; [done|]. apply Forall_cons in Hd as [Hc _].
    unfold sdec_value. by zcases; [lia|].
Qed.

Lemma lut2_pad d : 0 <= d < 100 → lut2 (d * 2) = dec_pad 2 d.
Proof.
  intros Hd. rewrite lut2_spec by lia. simpl. do 2 f_equal.
  rewrite (Z.mod_small (d / 10)); [done|].
  split; [apply Z.div_pos; lia | apply Z.div_lt_upper_bound; lia].
Qed.

Lemma pad4_spec v : 0 <= v < 10000 → clog_u32toa_pad4 v = dec_pad 4 v.
Proof.
  intros Hv. unfold clog_u32toa_pad4. rewrite (dec_pad_S_S 2) by lia.
  rewrite !lut2_pad; [done|apply Z.mod_pos_bound; lia|].
  split; [apply Z.div_pos; lia | apply Z.div_lt_upper_bound; lia].
Qed.

Lemma pad6_spec v : 0 <= v < 1000000 → clog_u32toa_pad6 v = dec_pad 6 v.
Proof.
  intros Hv. assert (0 <= v / 100 < 10000).
  { split; [apply Z.div_pos; lia | apply Z.div_lt_upper_bound; lia]. }
  unfold clog_u32toa_pad6.
  rewrite (dec_pad_S_S 4), (dec_pad_S_S 2) by lia. rewrite <- app_assoc.
  rewrite !lut2_pad; [done|apply Z.mod_pos_bound; lia..|].
  split; [apply Z.div_pos; lia | apply Z.div_lt_upper_bound; lia].
Qed.

Lemma length_dec_pad n v : length (dec_pad n v) = n.
Proof. revert v. induction n; intros v; simpl; [done|]. rewrite length_app, IHn. simpl. lia. Qed.

(** A broken-down time in the range the renderer is used on. *)
Definition tm_ok (t : tm) : Prop :=
  0 <= tm_year t + 1900 < 10000 ∧ 0 <= tm_mon t < 12 ∧ 1 <= tm_mday t <= 31 ∧
  0 <= tm_hour t < 24 ∧ 0 <= tm_min t < 60 ∧ 0 <= tm_sec t <= 60.

(** The reference ISO timestamp. *)
Definition iso_ref (t : tm) : cstr :=
  dec_pad 4 (tm_year t + 1900) ++ B "-" ++ dec_pad 2 (tm_mon t + 1) ++ B "-" ++
  dec_pad 2 (tm_mday t) ++ B " " ++ dec_pad 2 (tm_hour t) ++ B ":" ++
  dec_pad 2 (tm_min t) ++ B ":" ++ dec_pad 2 (tm_sec t).

Lemma pad2_small v : 0 <= v < 100 → clog_u32toa_pad2 (u32 v) = dec_pad 2 v.
Proof.
  intros. rewrite u32_id by (split; lia). rewrite pad2_spec by lia.
  by rewrite Z.mod_small by lia.
Qed.

Lemma iso_datetime_ref t : tm_ok t → clog_format_iso_datetime t = iso_ref t.
Proof.
  intros (?&?&?&?&?&?). unfold clog_format_iso_datetime, iso_ref.
  rewrite u32_id by (split; lia). by rewrite pad4_spec, !pad2_small by lia.
Qed.

(** ** Theorems *)

(** The two-digit-table renderers print every unsigned 64-bit value exactly
    as the one-digit-at-a-time printer does, the text denotes the value, and it
    is at most 20 characters, so the caller's 32-byte scratch buffer holds it. *)
Theorem u64toa_correct v :
  is_u64 v →
  clog_u64toa v = dec v ∧ dec_value (clog_u64toa v) = v ∧
  (1 ≤ length (clog_u64toa v) ≤ 20)%nat.
Proof.
  intros Hv. rewrite clog_u64toa_dec by done.
  auto using dec_value_dec, dec_length.
Qed.

Lemma u64toa_correct_witness :
  is_u64 18446744073709551615 ∧ dec_value (clog_u64toa 18446744073709551615) = 18446744073709551615.
Proof.
  split; [split; lia|]. apply (u64toa_correct 18446744073709551615). split; lia.
Defined.

(** The signed renderer is exact on the whole int64 range, INT64_MIN
    included, where negating first would overflow. *)
Theorem i64toa_correct v :
  is_i64 v → clog_i64toa v = sdec v ∧ sdec_value (clog_i64toa v) = v.
Proof. intros Hv. rewrite clog_i64toa_sdec by done. auto using sdec_value_sdec. Qed.

Lemma i64toa_correct_witness :
  is_i64 (- 2 ^ 63) ∧ clog_i64toa (- 2 ^ 63) = B "-9223372036854775808".
Proof.
  split; [split; lia|].
  rewrite (proj1 (i64toa_correct (- 2 ^ 63) ltac:(split; lia))). reflexivity.
Defined.

(** On a broken-down time of the years 0 to 9999 the timestamp renderer
    prints YYYY-MM-DD HH:MM:SS with every field zero-padded, 19 bytes. *)
Theorem iso_datetime_correct t :
  tm_ok t →
  clog_format_iso_datetime t = iso_ref t ∧ length (clog_format_iso_datetime t) = 19%nat.
Proof.
  intros Ht. rewrite iso_datetime_ref by done. split; [done|].
  unfold iso_ref. by rewrite !length_app, !length_dec_pad.
Qed.

Lemma iso_datetime_correct_witness :
  tm_ok (Tm 126 6 31 10 30 45) ∧
  clog_format_iso_datetime (Tm 126 6 31 10 30 45) = B "2026-07-31 10:30:45".
Proof.
  split; [unfold tm_ok; simpl; lia|].
  rewrite (proj1 (iso_datetime_correct (Tm 126 6 31 10 30 45)
                    ltac:(unfold tm_ok; simpl; lia))).
  reflexivity.
Defined.
