(* ===== verification/Record.v ===== *)
(** * Data model (include/log_record.h, include/log_limits.h, include/log.h)

    Levels, key-value attributes, the log record, the error codes and the
    compile-time limits, with the small total functions on them. *)
From S2P Require Import Prelude.
From Stdlib Require Import SpecFloat.

Local Open Scope Z_scope.

(** ** Limits (log_limits.h) *)

Definition CLOG_MAX_MESSAGE_SIZE : Z := 4096.
Definition CLOG_MAX_FORMATTED_SIZE : Z := 8192.
Definition CLOG_MAX_COLORED_SIZE : Z := 16384.
Definition CLOG_MAX_FORMAT_SIZE : Z := 1024.
Definition CLOG_MAX_PATH_SIZE : Z := 512.
Definition CLOG_MAX_PLUGINS : Z := 8.
Definition CLOG_MAX_PLUGIN_CONFIG_SIZE : Z := 4096.
Definition CLOG_MAX_REDACT_RULES : Z := 16.
Definition CLOG_REDACT_MAX_PATTERN : Z := 128.
Definition CLOG_REDACT_MAX_MASK : Z := 64.
Definition CLOG_MAX_KV : Z := 16.
Definition CLOG_MAX_INLINE_SIZE : Z := 256.

(** ** Levels: the enum is its integer, so that the [default:] branches of the
    switches on it stay reachable. *)

Definition log_level_t := Z.
Definition LOG_LEVEL_TRACE : log_level_t := 0.
Definition LOG_LEVEL_DEBUG : log_level_t := 1.
Definition LOG_LEVEL_INFO : log_level_t := 2.
Definition LOG_LEVEL_WARN : log_level_t := 3.
Definition LOG_LEVEL_ERROR : log_level_t := 4.
Definition LOG_LEVEL_FATAL : log_level_t := 5.

Definition level_to_string (level : log_level_t) : cstr :=
  if level =? LOG_LEVEL_TRACE then B "TRACE"
  else if level =? LOG_LEVEL_DEBUG then B "DEBUG"
  else if level =? LOG_LEVEL_INFO then B "INFO"
  else if level =? LOG_LEVEL_WARN then B "WARN"
  else if level =? LOG_LEVEL_ERROR then B "ERROR"
  else if level =? LOG_LEVEL_FATAL then B "FATAL"
  else B "UNKNOWN".

Definition otel_severity_number (level : log_level_t) : Z :=
  if level =? LOG_LEVEL_TRACE then 1
  else if level =? LOG_LEVEL_DEBUG then 5
  else if level =? LOG_LEVEL_INFO then 9
  else if level =? LOG_LEVEL_WARN then 13
  else if level =? LOG_LEVEL_ERROR then 17
  else if level =? LOG_LEVEL_FATAL then 21
  else 0.

Inductive log_color_t :=
  | COLOR_NONE | COLOR_BLACK | COLOR_RED | COLOR_GREEN | COLOR_YELLOW
  | COLOR_BLUE | COLOR_PURPLE | COLOR_CYAN | COLOR_WHITE.

Definition color_int (c : log_color_t) : nat :=
  match c with
  | COLOR_NONE => 0 | COLOR_BLACK => 1 | COLOR_RED => 2 | COLOR_GREEN => 3
  | COLOR_YELLOW => 4 | COLOR_BLUE => 5 | COLOR_PURPLE => 6 | COLOR_CYAN => 7
  | COLOR_WHITE => 8
  end%nat.

Definition get_log_color (level : log_level_t) : log_color_t :=
  if level =? LOG_LEVEL_TRACE then COLOR_BLACK
  else if level =? LOG_LEVEL_DEBUG then COLOR_BLUE
  else if level =? LOG_LEVEL_INFO then COLOR_GREEN
  else if level =? LOG_LEVEL_WARN then COLOR_YELLOW
  else if level =? LOG_LEVEL_ERROR then COLOR_RED
  else if level =? LOG_LEVEL_FATAL then COLOR_PURPLE
  else COLOR_NONE.

(** ** Key-value attributes: the tag and its union as one constructor each.
    A [char *] is [None] when it is NULL. *)

Inductive clog_kv_val :=
  | CLOG_KV_TYPE_INT (i64 : Z)
  | CLOG_KV_TYPE_UINT (u64 : Z)
  | CLOG_KV_TYPE_FLOAT (f64 : spec_float)
  | CLOG_KV_TYPE_STR (str : option cstr)
  | CLOG_KV_TYPE_BOOL (b : bool).

Record clog_kv_t := ClogKv { kv_key : option cstr; kv_val : clog_kv_val }.

(** ** The record. [kv] holds the first [kv_count] entries of the C array. *)

Record log_record_t := LogRecord {
  r_timestamp : Z;
  r_file : option cstr;
  r_func : option cstr;
  r_module : option cstr;
  r_tag : option cstr;
  r_message : option cstr;
  r_level : log_level_t;
  r_tid : Z;
  r_pid : Z;
  r_line : Z;
  r_trace_id : list Z;
  r_span_id : list Z;
  r_kv : list clog_kv_t;
  r_is_tombstone : bool
}.

(** [s ? s : d]. *)
Definition or_default (s : option cstr) (d : cstr) : cstr := default d s.

(** ** Error codes (log.h) *)

Definition CLOG_OK : Z := 0.
Definition CLOG_ERR_INVALID_ARG : Z := -1.
Definition CLOG_ERR_INIT_REENTRANT : Z := -2.
Definition CLOG_ERR_CONFIG_OPEN : Z := -3.
Definition CLOG_ERR_CONFIG_PARSE : Z := -4.
Definition CLOG_ERR_NO_SINKS : Z := -5.
Definition CLOG_ERR_FILE_OPEN : Z := -6.
Definition CLOG_ERR_FILE_WRITE : Z := -7.
Definition CLOG_ERR_QUEUE_FULL : Z := -8.
Definition CLOG_ERR_THREAD_CREATE : Z := -9.
Definition CLOG_ERR_SOCKET_CONNECT : Z := -10.
Definition CLOG_ERR_OOM : Z := -11.
Definition CLOG_ERR_RELOAD : Z := -12.

Definition log_strerror (err : Z) : cstr :=
  if err =? CLOG_OK then B "success"
  else if err =? CLOG_ERR_INVALID_ARG then B "invalid argument"
  else if err =? CLOG_ERR_INIT_REENTRANT then B "reentrant init without destroy"
  else if err =? CLOG_ERR_CONFIG_OPEN then B "failed to open config file"
  else if err =? CLOG_ERR_CONFIG_PARSE then B "config parse error"
  else if err =? CLOG_ERR_NO_SINKS then B "no sinks configured"
  else if err =? CLOG_ERR_FILE_OPEN then B "failed to open log file"
  else if err =? CLOG_ERR_FILE_WRITE then B "file write error"
  else if err =? CLOG_ERR_QUEUE_FULL then B "async queue full or closed"
  else if err =? CLOG_ERR_THREAD_CREATE then B "failed to create worker thread"
  else if err =? CLOG_ERR_SOCKET_CONNECT then B "socket connect failed"
  else if err =? CLOG_ERR_OOM then B "out of memory"
  else if err =? CLOG_ERR_RELOAD then B "reload failed"
  else B "unknown error".

(** [clogx_filename_only]: what follows the last '/', then the last '\'. *)
Fixpoint after_last (c : Z) (s : cstr) : option cstr :=
  match s with
  | [] => None
  | d :: s' =>
      match after_last c s' with
      | Some t => Some t
      | None => if d =? c then Some s' else None
      end
  end.

Definition clogx_filename_only (path : option cstr) : cstr :=
  let base := or_default path [] in
  let base := default base (after_last 47 base) in
  default base (after_last 92 base).

(** ** Identifiers *)

Definition is_zero_id (id : list Z) : bool := forallb (λ b, b =? 0) id.

Definition g_hex_lut : cstr := B "0123456789abcdef".

(** The loop bodies of [trace_id_hex] and [span_id_hex]. *)
Definition hex_byte (byte : Z) : cstr :=
  [g_hex_lut !!! Z.to_nat (Z.shiftr byte 4); g_hex_lut !!! Z.to_nat (Z.land byte 0x0F)].

Definition trace_id_hex (trace_id : list Z) : cstr := mbind hex_byte trace_id.
Definition span_id_hex (span_id : list Z) : cstr := mbind hex_byte span_id.

Lemma length_hex ids : length (mbind hex_byte ids) = (2 * length ids)%nat.
Proof. induction ids as [|x ids IH]; [done|]. rewrite bind_cons, length_app, IH. simpl. lia. Qed.
