(* ===== verification/Config.v ===== *)
(** * Configuration (core/config.c, include/log_config.h)

    The configuration record with its defaults, the YAML front end as a state
    machine over libyaml's events, the accessors of the default logger and
    [apply_config].  libyaml is a parameter: the parser is given the list of
    events it produced; a list that ends before the stream-end event is a
    failed [yaml_parser_parse]. *)
From S2P Require Import Prelude FastAscii Record.
From coqutil Require Import Datatypes.RecordSetters.
Import DoubleBraceUpdate.

Local Open Scope Z_scope.

Inductive log_format_type_t := LOG_FORMAT_TEXT | LOG_FORMAT_JSON.

(** [int] flags keep their integer; a [const char *] is [None] when NULL. *)
Record log_config_t := LogConfig {
  level : log_level_t;
  async : bool;
  queue_size : Z;
  color : bool;
  format_type : log_format_type_t;
  format : option cstr;
  time_format : option cstr;
  console_enable : Z;
  console_stderr : Z;
  file_enable : Z;
  file_path : cstr;
  file_max_size : Z;
  file_backups : Z;
  socket_enable : Z;
  socket_host : cstr;
  socket_port : Z;
  socket_tls : bool;
  socket_tls_ca_file : cstr;
  socket_tls_skip_verify : bool;
  socket_async : bool;
  socket_ring_capacity : Z;
  socket_backoff_min_ms : Z;
  socket_backoff_max_ms : Z;
  socket_connect_timeout_ms : Z;
  rate_limit_enable : bool;
  rate_limit_max_per_sec : Z;
  rate_limit_burst : Z;
  catch_signals : bool;
  prometheus_enable : bool;
  prometheus_port : Z;
  plugin_so_paths : list cstr;
  plugin_params_json : list cstr;
  plugin_count : Z
}.

(** ** Numbers: strtol, strtoul, strtoull with base 10 *)

Definition isspace (c : Z) : bool := (c =? 32) || ((9 <=? c) && (c <=? 13)).
Definition isdigit (c : Z) : bool := (48 <=? c) && (c <=? 57).

Fixpoint skip_space (s : cstr) : cstr :=
  match s with c :: s' => if isspace c then skip_space s' else s | [] => [] end.

(** The value of a string of digits, [None] when another character occurs. *)
Fixpoint digits_value (acc : Z) (s : cstr) : option Z :=
  match s with
  | [] => Some acc
  | c :: s' => if isdigit c then digits_value (10 * acc + (c - 48)) s' else None
  end.

(** Sign and magnitude when the whole string is a number:
    [end != val && *end == '\0']. *)
Definition strto_whole (val : cstr) : option (bool * Z) :=
  let s := skip_space val in
  let '(neg, digits) := match s with
                        | c :: s' => if c =? 45 then (true, s') else if c =? 43 then (false, s') else (false, s)
                        | [] => (false, [])
                        end in
  match digits with
  | [] => None
  | _ => v ← digits_value 0 digits; Some (neg, v)
  end.

(** [strtol]; [None] is a partial parse or [ERANGE]. *)
Definition strtol_ok (val : cstr) : option Z :=
  '(neg, v) ← strto_whole val;
  let z := if (neg : bool) then - v else v in
  if (- 2 ^ 63 <=? z) && (z <? 2 ^ 63) then Some z else None.

(** [strtoul], [strtoull]: the magnitude must fit, a minus sign negates. *)
Definition strtoul_ok (val : cstr) : option Z :=
  '(neg, v) ← strto_whole val;
  if v <? 2 ^ 64 then Some (if (neg : bool) then u64 (- v) else v) else None.

(** ** The key table *)

Inductive config_handler_t :=
  | HANDLER_ASYNC | HANDLER_BACKUP | HANDLER_CATCH_SIGNALS | HANDLER_COLOR
  | HANDLER_CONSOLE_ENABLE | HANDLER_CONSOLE_STDERR | HANDLER_FILE_ENABLE | HANDLER_FILE_PATH
  | HANDLER_FORMAT | HANDLER_HOST | HANDLER_LEVEL | HANDLER_MAX_SIZE | HANDLER_PORT
  | HANDLER_QUEUE_SIZE | HANDLER_RATE_LIMIT_BURST | HANDLER_RATE_LIMIT_ENABLE
  | HANDLER_RATE_LIMIT_MAX_PER_SEC | HANDLER_SOCKET_ENABLE | HANDLER_SOCKET_TLS
  | HANDLER_SOCKET_TLS_CA_FILE | HANDLER_SOCKET_TLS_SKIP_VERIFY | HANDLER_SOCKET_ASYNC
  | HANDLER_SOCKET_RING_CAPACITY | HANDLER_SOCKET_BACKOFF_MIN_MS | HANDLER_SOCKET_BACKOFF_MAX_MS
  | HANDLER_SOCKET_CONNECT_TIMEOUT_MS | HANDLER_TIME_FORMAT | HANDLER_PROMETHEUS_ENABLE
  | HANDLER_PROMETHEUS_PORT.

#[export] Instance config_handler_eq_dec : EqDecision config_handler_t.
Proof. solve_decision. Defined.

Definition g_config_keys : list (cstr * config_handler_t) :=
  [(B "async", HANDLER_ASYNC);
   (B "backup", HANDLER_BACKUP);
   (B "backups", HANDLER_BACKUP);
   (B "catch_signals", HANDLER_CATCH_SIGNALS);
   (B "color", HANDLER_COLOR);
   (B "console_enable", HANDLER_CONSOLE_ENABLE);
   (B "console_stderr", HANDLER_CONSOLE_STDERR);
   (B "file_backups", HANDLER_BACKUP);
   (B "file_enable", HANDLER_FILE_ENABLE);
   (B "file_max_size", HANDLER_MAX_SIZE);
   (B "file_path", HANDLER_FILE_PATH);
   (B "format", HANDLER_FORMAT);
   (B "host", HANDLER_HOST);
   (B "level", HANDLER_LEVEL);
   (B "max_size", HANDLER_MAX_SIZE);
   (B "path", HANDLER_FILE_PATH);
   (B "port", HANDLER_PORT);
   (B "prometheus_enable", HANDLER_PROMETHEUS_ENABLE);
   (B "prometheus_port", HANDLER_PROMETHEUS_PORT);
   (B "queue_size", HANDLER_QUEUE_SIZE);
   (B "rate_limit_burst", HANDLER_RATE_LIMIT_BURST);
   (B "rate_limit_enable", HANDLER_RATE_LIMIT_ENABLE);
   (B "rate_limit_max_per_sec", HANDLER_RATE_LIMIT_MAX_PER_SEC);
   (B "socket_async", HANDLER_SOCKET_ASYNC);
   (B "socket_backoff_max_ms", HANDLER_SOCKET_BACKOFF_MAX_MS);
   (B "socket_backoff_min_ms", HANDLER_SOCKET_BACKOFF_MIN_MS);
   (B "socket_connect_timeout_ms", HANDLER_SOCKET_CONNECT_TIMEOUT_MS);
   (B "socket_enable", HANDLER_SOCKET_ENABLE);
   (B "socket_ring_capacity", HANDLER_SOCKET_RING_CAPACITY);
   (B "socket_tls", HANDLER_SOCKET_TLS);
   (B "socket_tls_ca_file", HANDLER_SOCKET_TLS_CA_FILE);
   (B "socket_tls_skip_verify", HANDLER_SOCKET_TLS_SKIP_VERIFY);
   (B "time_format", HANDLER_TIME_FORMAT);
   (B "tls_ca_file", HANDLER_SOCKET_TLS_CA_FILE);
   (B "tls_enable", HANDLER_SOCKET_TLS);
   (B "tls_skip_verify", HANDLER_SOCKET_TLS_SKIP_VERIFY)].

(** [strcmp]: negative, zero or positive. *)
Fixpoint strcmp (a b : cstr) : Z :=
  match a, b with
  | [], [] => 0
  | [], _ :: _ => -1
  | _ :: _, [] => 1
  | x :: a', y :: b' => if x <? y then -1 else if y <? x then 1 else strcmp a' b'
  end.

(** [bsearch] over [l, u); every turn halves the range. *)
Fixpoint bsearch (fuel : nat) (tbl : list (cstr * config_handler_t)) (l u : nat) (key : cstr)
    : option config_handler_t :=
  match fuel with
  | O => None
  | S fuel' =>
      if (l <? u)%nat then
        let mid := Nat.div2 (l + u) in
        match tbl !! mid with
        | None => None
        | Some (k, h) =>
            let c := strcmp key k in
            if c <? 0 then bsearch fuel' tbl l mid key
            else if 0 <? c then bsearch fuel' tbl (S mid) u key
            else Some h
        end
      else None
  end.

Definition config_find_key (key : cstr) : option config_handler_t :=
  bsearch (S (length g_config_keys)) g_config_keys 0 (length g_config_keys) key.

(** ** Handlers *)

(** The [HANDLER_MAX_SIZE] suffix: multiplier and the characters dropped. *)
Definition unit_mult (u : Z) : option Z :=
  if (u =? ch "K") || (u =? ch "k") then Some 1024
  else if (u =? ch "M") || (u =? ch "m") then Some (1024 * 1024)
  else if (u =? ch "G") || (u =? ch "g") then Some (1024 * 1024 * 1024)
  else None.

Definition is_b (u : Z) : bool := (u =? ch "B") || (u =? ch "b").

Definition split_unit (val : cstr) : cstr * Z :=
  let vlen := length val in
  let two := match val !! (vlen - 2)%nat, val !! (vlen - 1)%nat with
             | Some u0, Some u1 => if (2 <=? vlen)%nat && is_b u1 then unit_mult u0 else None
             | _, _ => None
             end in
  match two with
  | Some mult => (take (vlen - 2) val, mult)
  | None =>
      match val !! (vlen - 1)%nat ≫= unit_mult with
      | Some mult => (take (vlen - 1) val, mult)
      | None => (val, 1)
      end
  end.

(** [None] when the size is rejected. *)
Definition parse_max_size (val : cstr) : option Z :=
  if (clen val =? 0) || (clen val >=? 64) then None
  else
    let '(digits, mult) := split_unit val in
    n ← strtoul_ok digits;
    if (mult >? 1) && (n >? (2 ^ 64 - 1) / mult) then None
    else Some (u64 (n * mult)).

Definition is_true (val : cstr) : bool := streq val (B "true").
Definition flag (val : cstr) : Z := if is_true val then 1 else 0.

Definition parse_level (val : cstr) : option log_level_t :=
  if streq val (B "TRACE") then Some LOG_LEVEL_TRACE
  else if streq val (B "DEBUG") then Some LOG_LEVEL_DEBUG
  else if streq val (B "INFO") then Some LOG_LEVEL_INFO
  else if streq val (B "WARN") then Some LOG_LEVEL_WARN
  else if streq val (B "ERROR") then Some LOG_LEVEL_ERROR
  else if streq val (B "FATAL") then Some LOG_LEVEL_FATAL
  else None.

(** [strtol] with a lower and an upper bound. *)
Definition parse_long (lo : Z) (hi : option Z) (val : cstr) : option Z :=
  v ← strtol_ok val;
  if (v <? lo) || match hi with Some h => h <? v | None => false end then None else Some v.

(** One [case] of the switch: the new configuration, [None] for [has_errors = 1]. *)
Definition apply_handler (h : config_handler_t) (val : cstr) (cfg : log_config_t) : option log_config_t :=
  match h with
  | HANDLER_LEVEL => v ← parse_level val; Some cfg{{ level := v }}
  | HANDLER_ASYNC => Some cfg{{ async := is_true val }}
  | HANDLER_QUEUE_SIZE => v ← parse_long 1 None val; Some cfg{{ queue_size := i32 v }}
  | HANDLER_CATCH_SIGNALS => Some cfg{{ catch_signals := is_true val }}
  | HANDLER_COLOR => Some cfg{{ color := is_true val }}
  | HANDLER_FORMAT =>
      Some cfg{{ format := Some (snprintf_s 512 val);
                 format_type := if streq val (B "json") || streq val (B "JSON")
                                then LOG_FORMAT_JSON else LOG_FORMAT_TEXT }}
  | HANDLER_TIME_FORMAT => Some cfg{{ time_format := Some (snprintf_s 64 val) }}
  | HANDLER_CONSOLE_ENABLE => Some cfg{{ console_enable := flag val }}
  | HANDLER_CONSOLE_STDERR => Some cfg{{ console_stderr := flag val }}
  | HANDLER_FILE_ENABLE => Some cfg{{ file_enable := flag val }}
  | HANDLER_FILE_PATH =>
      Some cfg{{ file_path := snprintf_s CLOG_MAX_PATH_SIZE val; file_enable := 1 }}
  | HANDLER_MAX_SIZE => v ← parse_max_size val; Some cfg{{ file_max_size := v }}
  | HANDLER_BACKUP => v ← parse_long 0 None val; Some cfg{{ file_backups := i32 v }}
  | HANDLER_HOST => Some cfg{{ socket_host := snprintf_s CLOG_MAX_PATH_SIZE val; socket_enable := 1 }}
  | HANDLER_PORT => v ← parse_long 1 (Some 65535) val; Some cfg{{ socket_port := i32 v }}
  | HANDLER_SOCKET_ENABLE => Some cfg{{ socket_enable := flag val }}
  | HANDLER_SOCKET_TLS => Some cfg{{ socket_tls := is_true val }}
  | HANDLER_SOCKET_TLS_CA_FILE => Some cfg{{ socket_tls_ca_file := snprintf_s CLOG_MAX_PATH_SIZE val }}
  | HANDLER_SOCKET_TLS_SKIP_VERIFY => Some cfg{{ socket_tls_skip_verify := is_true val }}
  | HANDLER_SOCKET_ASYNC => Some cfg{{ socket_async := is_true val }}
  | HANDLER_SOCKET_RING_CAPACITY => v ← strtoul_ok val; Some cfg{{ socket_ring_capacity := v }}
  | HANDLER_SOCKET_BACKOFF_MIN_MS => v ← strtoul_ok val; Some cfg{{ socket_backoff_min_ms := u32 v }}
  | HANDLER_SOCKET_BACKOFF_MAX_MS => v ← strtoul_ok val; Some cfg{{ socket_backoff_max_ms := u32 v }}
  | HANDLER_SOCKET_CONNECT_TIMEOUT_MS =>
      v ← strtoul_ok val; Some cfg{{ socket_connect_timeout_ms := u32 v }}
  | HANDLER_RATE_LIMIT_ENABLE => Some cfg{{ rate_limit_enable := is_true val }}
  | HANDLER_RATE_LIMIT_MAX_PER_SEC => v ← parse_long 1 None val; Some cfg{{ rate_limit_max_per_sec := i32 v }}
  | HANDLER_RATE_LIMIT_BURST => v ← parse_long 1 None val; Some cfg{{ rate_limit_burst := i32 v }}
  | HANDLER_PROMETHEUS_ENABLE => Some cfg{{ prometheus_enable := is_true val }}
  | HANDLER_PROMETHEUS_PORT => v ← parse_long 1 (Some 65535) val; Some cfg{{ prometheus_port := i32 v }}
  end.

(** ** The parser's state *)

Inductive yaml_event :=
  | YAML_SEQUENCE_START | YAML_SEQUENCE_END
  | YAML_SCALAR (value : cstr)
  | YAML_MAPPING_START | YAML_MAPPING_END
  | YAML_STREAM_END
  | YAML_OTHER.           (* stream start, document start and end, alias *)

(** [plugin_json]: the text up to its NUL, and [plugin_json_len], which after
    an empty object stays one behind. *)
Record json_buf := JsonBuf { pj_text : cstr; pj_len : Z }.

Record parse_state := ParseState {
  cfg : log_config_t;
  has_errors : bool;
  depth : Z;
  expect_key : bool;
  in_log_section : bool;
  found_log_section : bool;
  current_key : cstr;
  in_plugins : bool;
  in_plugin_entry : bool;
  in_plugin_config : bool;
  plugin_index : Z;
  plugin_path : cstr;
  plugin_json : json_buf;
  plugin_cfg_key : cstr
}.

(** [plugin_json[plugin_json_len++] = c]; [None] is a write past the array. *)
Definition pj_put (b : json_buf) (c : Z) : option json_buf :=
  if pj_len b <? CLOG_MAX_PLUGIN_CONFIG_SIZE
  then Some (JsonBuf (take (Z.to_nat (pj_len b)) (pj_text b) ++ [c]) (pj_len b + 1)) else None.

(** [plugin_json[plugin_json_len] = '\0']. *)
Definition pj_nul (b : json_buf) : option json_buf :=
  if pj_len b <? CLOG_MAX_PLUGIN_CONFIG_SIZE
  then Some (JsonBuf (take (Z.to_nat (pj_len b)) (pj_text b)) (pj_len b)) else None.

(** The escaping loop, with its running [rem]. *)
Fixpoint pj_escape (b : json_buf) (rem : Z) (val : cstr) : option (json_buf * Z) :=
  match val with
  | [] => Some (b, rem)
  | c :: val' =>
      if rem >? 2 then
        x ← (if (c =? 34) || (c =? 92) then b' ← pj_put b 92; Some (b', rem - 1) else Some (b, rem));
        b' ← pj_put (fst (x : json_buf * Z)) c;
        pj_escape b' (snd (x : json_buf * Z) - 1) val'
      else Some (b, rem)
  end.

(** Append ["key":"escaped value"]. *)
Definition plugin_json_append (b : json_buf) (key val : cstr) : option json_buf :=
  let rem := CLOG_MAX_PLUGIN_CONFIG_SIZE - pj_len b in
  if (rem >? 0) && (pj_len b >? 0) then
    let text := (if pj_len b >? 1 then B "," else []) ++ [34] ++ key ++ J "':'" in
    let head := take (Z.to_nat (pj_len b)) (pj_text b) in
    let written := clen text in
    if (written >? 0) && (written <? rem) then
      x ← pj_escape (JsonBuf (head ++ text) (pj_len b + written)) (rem - written) val;
      let '(b', rem) := (x : json_buf * Z) in
      if rem >? 0 then b'' ← pj_put b' 34; pj_nul b'' else Some b'
    else Some (JsonBuf (head ++ snprintf_s rem text) (pj_len b))
  else Some b.

(** [YAML_MAPPING_END] inside a plugin's config. *)
Definition plugin_json_close (b : json_buf) : option json_buf :=
  if (pj_len b >? 0) && bool_decide (pj_text b !! Z.to_nat (pj_len b - 1) = Some 123) then
    b' ← pj_put b 125; b'' ← pj_nul b'; Some (JsonBuf (pj_text b'') (pj_len b))
  else b' ← pj_put b 125; pj_nul b'.

(** ** The events *)

Definition key_buf (val : cstr) : cstr := snprintf_s 128 val.

Definition on_sequence_start (s : parse_state) : parse_state :=
  let s := s{{ depth := depth s + 1 }} in
  let s := if streq (current_key s) (B "plugins") && (in_log_section s || negb (found_log_section s))
           then s{{ in_plugins := true; plugin_index := 0 }} else s in
  s{{ expect_key := true }}.

Definition on_sequence_end (s : parse_state) : parse_state :=
  s{{ depth := depth s - 1; in_plugins := false; in_plugin_entry := false;
      in_plugin_config := false; expect_key := true }}.

Definition on_plugin_scalar (s : parse_state) (val : cstr) : option parse_state :=
  if in_plugin_config s then
    if expect_key s then Some s{{ plugin_cfg_key := key_buf val; expect_key := false }}
    else
      b ← plugin_json_append (plugin_json s) (plugin_cfg_key s) val;
      Some s{{ plugin_json := b; expect_key := true }}
  else if expect_key s then Some s{{ current_key := key_buf val; expect_key := false }}
  else if streq (current_key s) (B "path")
  then Some s{{ plugin_path := snprintf_s CLOG_MAX_PATH_SIZE val; expect_key := true }}
  else Some s{{ expect_key := true }}.

Definition on_config_scalar (s : parse_state) (val : cstr) : parse_state :=
  if expect_key s then s{{ current_key := key_buf val; expect_key := false }}
  else
    let s := s{{ expect_key := true }} in
    match config_find_key (current_key s) with
    | None => s
    | Some h =>
        match apply_handler h val (cfg s) with
        | Some c => s{{ cfg := c }}
        | None => s{{ has_errors := true }}
        end
    end.

Definition on_scalar (s : parse_state) (val : cstr) : option parse_state :=
  if in_plugin_entry s then on_plugin_scalar s val
  else if negb (in_log_section s) && negb (negb (found_log_section s) && (depth s =? 1)) then Some s
  else Some (on_config_scalar s val).

Definition on_mapping_start (s : parse_state) : parse_state :=
  let s := s{{ depth := depth s + 1 }} in
  if in_plugins s && in_plugin_entry s && negb (in_plugin_config s) then
    s{{ in_plugin_config := true; plugin_json := JsonBuf [123] 1; expect_key := true }}
  else if in_plugins s && negb (in_plugin_entry s) then
    s{{ in_plugin_entry := true; plugin_path := []; expect_key := true }}
  else
    let is_log := streq (current_key s) (B "log") in
    let s := if depth s =? 1 then
               if is_log then s{{ in_log_section := true; found_log_section := true }}
               else s{{ in_log_section := false }}
             else if (depth s =? 2) && is_log then s{{ in_log_section := true }}
             else s{{ in_log_section := false }} in
    s{{ expect_key := true }}.

Definition on_mapping_end (s : parse_state) : option parse_state :=
  if in_plugin_config s then
    b ← plugin_json_close (plugin_json s);
    Some s{{ plugin_json := b; in_plugin_config := false; expect_key := true }}
  else if in_plugin_entry s then
    let s := if (plugin_index s <? CLOG_MAX_PLUGINS) && (clen (plugin_path s) >? 0) then
               let i := Z.to_nat (plugin_index s) in
               s{{ cfg := (cfg s){{ plugin_so_paths := <[i := snprintf_s CLOG_MAX_PATH_SIZE (plugin_path s)]>
                                                         (plugin_so_paths (cfg s));
                                    plugin_params_json := <[i := snprintf_s CLOG_MAX_PLUGIN_CONFIG_SIZE
                                                                   (pj_text (plugin_json s))]>
                                                            (plugin_params_json (cfg s));
                                    plugin_count := plugin_index s + 1 }};
                   plugin_index := plugin_index s + 1 }}
             else s in
    Some s{{ in_plugin_entry := false; expect_key := true }}
  else
    let s := if depth s <=? 2 then s{{ in_log_section := false }} else s in
    Some s{{ depth := depth s - 1; expect_key := true }}.

Definition on_event (s : parse_state) (e : yaml_event) : option parse_state :=
  match e with
  | YAML_SEQUENCE_START => Some (on_sequence_start s)
  | YAML_SEQUENCE_END => Some (on_sequence_end s)
  | YAML_SCALAR val => on_scalar s val
  | YAML_MAPPING_START => Some (on_mapping_start s)
  | YAML_MAPPING_END => on_mapping_end s
  | YAML_STREAM_END | YAML_OTHER => Some s
  end.

(** The loop up to the stream's end. *)
Fixpoint parse_events (s : parse_state) (es : list yaml_event) : option parse_state :=
  match es with
  | [] => Some s{{ has_errors := true }}
  | e :: es' =>
      s' ← on_event s e;
      match e with YAML_STREAM_END => Some s' | _ => parse_events s' es' end
  end.

Definition parse_init (c : log_config_t) : parse_state :=
  ParseState c false 0 true false false [] false false false 0 [] (JsonBuf [] 0) [].

(** [parse_config_file] on an open file; [None] is undefined behaviour. *)
Definition parse_config_file (es : list yaml_event) (c : log_config_t) : option (log_config_t * Z) :=
  s ← parse_events (parse_init c) es;
  Some (cfg s, if has_errors s then -1 else 0).

(** ** Loading *)

(** What [log_config_load_into] writes to. *)
Record config_owner := ConfigOwner {
  config : log_config_t;
  config_path : cstr;
  format_str : cstr;
  time_format_str : cstr
}.

(** The defaults: the assignments at the top of [log_config_load_into]. Fields
    it does not mention keep their value. *)
Definition config_defaults (c : log_config_t) : log_config_t :=
  c{{ level := LOG_LEVEL_INFO; async := false; queue_size := 8192; color := true;
      console_enable := 1; console_stderr := 0; file_enable := 0; file_path := [];
      file_max_size := 100 * 1024 * 1024; file_backups := 10; socket_enable := 0;
      socket_host := []; socket_port := 0; socket_tls := false; socket_tls_ca_file := [];
      socket_tls_skip_verify := false; socket_async := false; socket_ring_capacity := 0;
      socket_backoff_min_ms := 0; socket_backoff_max_ms := 0; socket_connect_timeout_ms := 0;
      rate_limit_enable := false; rate_limit_max_per_sec := 0; rate_limit_burst := 0;
      catch_signals := true;
      format := Some (B "[%time] [%level] %msg"); time_format := Some (B "%Y-%m-%d %H:%M:%S") }}.

(** [yaml_path] is [None] for NULL; [same] tells that the argument is
    [logger->config_path] itself; [file] is what the path holds: [None] when it
    cannot be read, otherwise the events of its parse. *)
Definition log_config_load_into (l : config_owner) (yaml_path : option cstr) (same : bool)
    (file : cstr → option (list yaml_event)) : option (config_owner * Z) :=
  let c := config_defaults (config l) in
  let path := match yaml_path with
              | Some (x :: p) => if same then config_path l else snprintf_s 512 (x :: p)
              | _ => []
              end in
  let l := ConfigOwner c path (B "[%time] [%level] %msg") (B "%Y-%m-%d %H:%M:%S") in
  match path, file path with
  | _ :: _, Some es =>
      x ← parse_config_file es c;
      let '(c, ret) := (x : log_config_t * Z) in
      if negb (ret =? 0) then Some (ConfigOwner c path (format_str l) (time_format_str l), ret)
      else
        let fmt := snprintf_s CLOG_MAX_FORMAT_SIZE (or_default (format c) (B "[%time] [%level] %msg")) in
        let tf := snprintf_s 64 (or_default (time_format c) (B "%Y-%m-%d %H:%M:%S")) in
        Some (ConfigOwner c{{ format := Some fmt; time_format := Some tf }} path fmt tf, 0)
  | _, _ => Some (l, 0)
  end.

Definition log_config_init (l : config_owner) (yaml_path : option cstr) file :=
  log_config_load_into l (Some (or_default yaml_path [])) false file.

Definition log_config_reload (l : config_owner) file :=
  log_config_load_into l (Some (config_path l)) true file.

(** ** Applying a caller's configuration *)

Fixpoint copy_strings (n : Z) (count : nat) (src dst : list cstr) : list cstr :=
  match count, src, dst with
  | S count', x :: src', _ :: dst' => snprintf_s n x :: copy_strings n count' src' dst'
  | _, _, _ => dst
  end.

(** [apply_config] on the default logger; [format_type] is not among the fields
    it copies. *)
Definition apply_config (c : log_config_t) (g : config_owner) : config_owner :=
  let n := Z.to_nat (Z.min (plugin_count c) CLOG_MAX_PLUGINS) in
  let fmt := match format c with Some f => snprintf_s CLOG_MAX_FORMAT_SIZE f | None => format_str g end in
  let tf := match time_format c with Some f => snprintf_s 64 f | None => time_format_str g end in
  let d := (config g){{
      level := level c; async := async c; queue_size := queue_size c; color := color c;
      console_enable := console_enable c; console_stderr := console_stderr c;
      file_enable := file_enable c; file_max_size := file_max_size c; file_backups := file_backups c;
      socket_enable := socket_enable c; file_path := snprintf_s CLOG_MAX_PATH_SIZE (file_path c);
      socket_host := snprintf_s CLOG_MAX_PATH_SIZE (socket_host c); socket_port := socket_port c;
      socket_tls := socket_tls c;
      socket_tls_ca_file := snprintf_s CLOG_MAX_PATH_SIZE (socket_tls_ca_file c);
      socket_tls_skip_verify := socket_tls_skip_verify c; socket_async := socket_async c;
      socket_ring_capacity := socket_ring_capacity c; socket_backoff_min_ms := socket_backoff_min_ms c;
      socket_backoff_max_ms := socket_backoff_max_ms c;
      socket_connect_timeout_ms := socket_connect_timeout_ms c;
      rate_limit_enable := rate_limit_enable c; rate_limit_max_per_sec := rate_limit_max_per_sec c;
      rate_limit_burst := rate_limit_burst c; catch_signals := catch_signals c;
      prometheus_enable := prometheus_enable c; prometheus_port := prometheus_port c;
      plugin_count := plugin_count c;
      plugin_so_paths := copy_strings CLOG_MAX_PATH_SIZE n (plugin_so_paths c) (plugin_so_paths (config g));
      plugin_params_json := copy_strings CLOG_MAX_PLUGIN_CONFIG_SIZE n (plugin_params_json c)
                              (plugin_params_json (config g));
      format := match format c with Some _ => Some fmt | None => format (config g) end;
      time_format := match time_format c with Some _ => Some tf | None => time_format (config g) end }} in
  ConfigOwner d (config_path g) fmt tf.

Definition log_config_set (c : option log_config_t) (g : config_owner) : config_owner * Z :=
  match c with None => (g, -1) | Some c => (apply_config c g, 0) end.

Definition log_set_level (lvl : log_level_t) (g : config_owner) : config_owner :=
  ConfigOwner (config g){{ level := lvl }} (config_path g) (format_str g) (time_format_str g).

Definition log_get_level (g : config_owner) : log_level_t := level (config g).
Definition log_config_is_async (g : config_owner) : bool := async (config g).
Definition log_config_color_enabled (g : config_owner) : bool := color (config g).
Definition log_should_emit (lvl : log_level_t) (g : config_owner) : bool := lvl >=? log_get_level g.

(** ** The key table is searched correctly *)

Lemma strcmp_refl a : strcmp a a = 0.
Proof. induction a as [|x a IH]; simpl; [done|]. by rewrite Z.ltb_irrefl. Qed.

Lemma strcmp_eq a b : strcmp a b = 0 → a = b.
Proof.
  revert b. induction a as [|x a IH]; intros [|y b]; simpl; try done.
  destruct (Z.ltb_spec x y), (Z.ltb_spec y x); try done. intros Hc. f_equal; [lia|by apply IH].
Qed.

Lemma bsearch_sound fuel tbl l u key h :
  bsearch fuel tbl l u key = Some h → (key, h) ∈ tbl.
Proof.
  revert l u. induction fuel as [|fuel IH]; intros l u; cbn [bsearch]; [done|].
  destruct (l <? u)%nat; [|done].
  destruct (tbl !! Nat.div2 (l + u)) as [[k h']|] eqn:E; [|done].
  destruct (Z.ltb_spec (strcmp key k) 0) as [_|H1]; [apply IH|].
  destruct (Z.ltb_spec 0 (strcmp key k)) as [_|H2]; [apply IH|].
  intros [= <-]. assert (key = k) as -> by (apply strcmp_eq; lia).
  by eapply list_elem_of_lookup_2.
Qed.

Lemma config_find_key_table :
  forallb (λ '(k, h), bool_decide (config_find_key k = Some h)) g_config_keys = true.
Proof. vm_compute. reflexivity. Qed.

Lemma config_find_key_iff k h : config_find_key k = Some h ↔ (k, h) ∈ g_config_keys.
Proof.
  split; [apply bsearch_sound|]. intros Hin. pose proof config_find_key_table as H.
  rewrite forallb_forall in H. specialize (H (k, h)). apply list_elem_of_In in Hin.
  apply H in Hin. by apply bool_decide_eq_true in Hin.
Qed.

(** ** Decimal numbers *)

Lemma digits_value_spec acc s :
  Forall (λ c, 48 <= c <= 57) s → digits_value acc s = Some (foldl (λ a c, a * 10 + (c - 48)) acc s).
Proof.
  intros H. revert acc. induction H as [|c s Hc _ IH]; intros acc; [done|]. simpl.
  assert (isdigit c = true) as -> by (unfold isdigit; zcases; simpl; lia).
  rewrite IH. by rewrite Z.mul_comm.
Qed.

Lemma dec_head n : 0 <= n → ∃ c s, dec n = c :: s ∧ 48 <= c <= 57.
Proof.
  intros Hn. pose proof (dec_go_digits 20 n Hn) as H. fold (dec n) in H.
  destruct (dec n) as [|c s] eqn:E.
  - unfold dec in E. rewrite dec_go_S in E. destruct (n <? 10); [done|].
    by apply app_eq_nil in E as [_ E].
  - apply Forall_cons in H as [? _]. by exists c, s.
Qed.

Lemma strto_whole_dec n : is_u64 n → strto_whole (dec n) = Some (false, n).
Proof.
  intros Hn. unfold is_u64 in Hn. destruct (dec_head n) as (c & s & E & Hc); [lia|].
  assert (digits_value 0 (dec n) = Some n) as Hd.
  { rewrite digits_value_spec by (apply dec_go_digits; lia). f_equal.
    apply (dec_value_go 20). change (10 ^ Z.of_nat 20) with 100000000000000000000. lia. }
  unfold strto_whole. rewrite E in *. cbn [skip_space].
  assert (isspace c = false) as -> by (unfold isspace; zcases; simpl; lia).
  assert ((c =? 45) = false) as -> by lia. assert ((c =? 43) = false) as -> by lia.
  by rewrite Hd.
Qed.

Lemma strtoul_dec n : is_u64 n → strtoul_ok (dec n) = Some n.
Proof.
  intros Hn. unfold strtoul_ok. rewrite strto_whole_dec by done. simpl.
  unfold is_u64 in Hn. by destruct (Z.ltb_spec n (2 ^ 64)); [|lia].
Qed.

Lemma dec_len n : (length (dec n) ≤ 20)%nat.
Proof.
  unfold dec. generalize 20%nat. intros f. revert n. induction f as [|f IH]; intros n; [simpl; lia|].
  rewrite dec_go_S. destruct (n <? 10); [simpl; lia|]. rewrite length_app. specialize (IH (n / 10)).
  simpl. lia.
Qed.

(** ** Sizes with units *)

Definition size_units : list (cstr * Z) :=
  [([], 1);
   (B "K", 1024); (B "k", 1024); (B "KB", 1024); (B "Kb", 1024); (B "kB", 1024); (B "kb", 1024);
   (B "M", 1048576); (B "m", 1048576); (B "MB", 1048576); (B "Mb", 1048576); (B "mB", 1048576); (B "mb", 1048576);
   (B "G", 1073741824); (B "g", 1073741824); (B "GB", 1073741824); (B "Gb", 1073741824); (B "gB", 1073741824);
   (B "gb", 1073741824)].

Lemma digit_no_unit c : 48 <= c <= 57 → unit_mult c = None ∧ is_b c = false.
Proof.
  intros H. unfold unit_mult, is_b.
  repeat match goal with
         | |- context [c =? ?b] =>
             let v := eval vm_compute in b in
             replace (c =? b) with false by (change b with v; lia)
         end.
  split; reflexivity.
Qed.

(** The last characters of a text with one or two more appended. *)
Lemma tail_one (t : cstr) c x :
  (1 ≤ length t)%nat → t !! (length t - 1)%nat = Some c →
  let v := t ++ [x] in
  v !! (length v - 2)%nat = Some c ∧ v !! (length v - 1)%nat = Some x ∧ take (length v - 1) v = t.
Proof.
  intros Ht Hc v. unfold v. rewrite length_app. cbn [length]. split; [|split].
  - rewrite lookup_app_l by lia. by replace (length t + 1 - 2)%nat with (length t - 1)%nat by lia.
  - rewrite lookup_app_r by lia. by replace (length t + 1 - 1 - length t)%nat with 0%nat by lia.
  - replace (length t + 1 - 1)%nat with (length t) by lia. apply take_app_length.
Qed.

Lemma tail_two (t : cstr) x y :
  let v := t ++ [x; y] in
  v !! (length v - 2)%nat = Some x ∧ v !! (length v - 1)%nat = Some y ∧ take (length v - 2) v = t ∧
  (2 <=? length v)%nat = true.
Proof.
  intros v. unfold v. rewrite length_app. cbn [length]. split; [|split; [|split]].
  - rewrite lookup_app_r by lia. by replace (length t + 2 - 2 - length t)%nat with 0%nat by lia.
  - rewrite lookup_app_r by lia. by replace (length t + 2 - 1 - length t)%nat with 1%nat by lia.
  - replace (length t + 2 - 2)%nat with (length t) by lia. apply take_app_length.
  - apply Nat.leb_le. lia.
Qed.

Lemma digits_last s :
  s ≠ [] → Forall (λ c, 48 <= c <= 57) s →
  (1 ≤ length s)%nat ∧ ∃ c, s !! (length s - 1)%nat = Some c ∧ unit_mult c = None ∧ is_b c = false.
Proof.
  intros Hs Hd. assert (1 ≤ length s)%nat by (destruct s; [done|simpl; lia]). split; [done|].
  destruct (lookup_lt_is_Some_2 s (length s - 1)) as [c Hc]; [lia|].
  exists c. split; [done|]. apply digit_no_unit. exact (Forall_lookup_1 _ _ _ _ Hd Hc).
Qed.

Lemma split_unit_dec s u mult :
  s ≠ [] → Forall (λ c, 48 <= c <= 57) s → (u, mult) ∈ size_units → split_unit (s ++ u) = (s, mult).
Proof.
  intros Hs Hd Hu%list_elem_of_In. destruct (digits_last s Hs Hd) as (Hl & c & Hc & Hu1 & Hb1).
  unfold split_unit. destruct Hu as [Hu|Hu].
  - injection Hu as <- <-. rewrite app_nil_r, Hc, Hb1, andb_false_r. simpl. rewrite Hu1.
    by destruct (s !! (length s - 2)%nat).
  - repeat (destruct Hu as [Hu|Hu]; [injection Hu as <- <-; cbn [B];
      first
        [ match goal with |- context [s ++ [?x; ?y]] => destruct (tail_two s x y) as (E1 & E2 & E3 & E4) end;
          rewrite E1, E2, E4, E3; reflexivity
        | match goal with |- context [s ++ [?x]] => destruct (tail_one s c x Hl Hc) as (E1 & E2 & E3) end;
          rewrite E1, E2, E3; rewrite andb_false_r; reflexivity ]|]).
    done.
Qed.

(** ** Documents *)

(** The effect of one [key: value] pair. *)
Definition set_pair (st : log_config_t * bool) (kv : cstr * cstr) : log_config_t * bool :=
  match config_find_key (key_buf kv.1) with
  | None => st
  | Some h => match apply_handler h kv.2 st.1 with
              | Some c => (c, st.2)
              | None => (st.1, true)
              end
  end.

Definition pair_events (kv : cstr * cstr) : list yaml_event := [YAML_SCALAR kv.1; YAML_SCALAR kv.2].

(** The events of [log:] followed by an indented block of pairs. *)
Definition log_document (pairs : list (cstr * cstr)) : list yaml_event :=
  [YAML_OTHER; YAML_OTHER; YAML_MAPPING_START; YAML_SCALAR (B "log"); YAML_MAPPING_START] ++
  mbind pair_events pairs ++
  [YAML_MAPPING_END; YAML_MAPPING_END; YAML_OTHER; YAML_STREAM_END].

(** The events of a document without sections. *)
Definition flat_document (pairs : list (cstr * cstr)) : list yaml_event :=
  [YAML_OTHER; YAML_OTHER; YAML_MAPPING_START] ++
  mbind pair_events pairs ++
  [YAML_MAPPING_END; YAML_OTHER; YAML_STREAM_END].

#[local] Opaque config_find_key apply_handler.

(** Ready for the next key of a section that is read. *)
Definition reading (s : parse_state) : Prop :=
  expect_key s = true ∧ in_plugin_entry s = false ∧
  (in_log_section s = true ∨ found_log_section s = false ∧ depth s = 1).

Lemma on_scalar_reading s val :
  in_plugin_entry s = false → (in_log_section s = true ∨ found_log_section s = false ∧ depth s = 1) →
  on_scalar s val = Some (on_config_scalar s val).
Proof.
  unfold on_scalar. intros -> [->|[-> ->]]; [done|]. simpl. by rewrite andb_false_r.
Qed.

Lemma parse_pair s k v es :
  reading s →
  ∃ s', parse_events s (pair_events (k, v) ++ es) = parse_events s' es ∧ reading s' ∧
    (cfg s', has_errors s') = set_pair (cfg s, has_errors s) (k, v) ∧
    depth s' = depth s ∧ in_plugins s' = in_plugins s ∧ in_plugin_config s' = in_plugin_config s.
Proof.
  intros (He & Hp & Hr). cbn [pair_events fst snd app parse_events on_event].
  rewrite on_scalar_reading by done. cbn [mbind option_bind].
  unfold on_config_scalar at 1. rewrite He.
  set (s1 := s{{ current_key := key_buf k; expect_key := false }}).
  assert (E1 : on_scalar s1 v = Some (on_config_scalar s1 v)) by (apply on_scalar_reading; by destruct s).
  rewrite E1. cbn [mbind option_bind]. eexists. split; [reflexivity|].
  unfold on_config_scalar, set_pair. clear E1. subst s1. destruct s. unfold reading in *. cbn in *. unfold constant in *.
  destruct (config_find_key (key_buf k)) as [h|]; [|by split_and!].
  destruct (apply_handler h v cfg0); by split_and!.
Qed.

Lemma parse_pairs pairs : ∀ s es,
  reading s →
  ∃ s', parse_events s (mbind pair_events pairs ++ es) = parse_events s' es ∧ reading s' ∧
    (cfg s', has_errors s') = foldl set_pair (cfg s, has_errors s) pairs ∧
    depth s' = depth s ∧ in_plugins s' = in_plugins s ∧ in_plugin_config s' = in_plugin_config s.
Proof.
  induction pairs as [|[k v] pairs IH]; intros s es Hs; [by exists s|].
  rewrite bind_cons, <- app_assoc.
  destruct (parse_pair s k v (mbind pair_events pairs ++ es) Hs) as (s1 & -> & Hs1 & E1 & D1 & P1 & C1).
  destruct (IH s1 es Hs1) as (s2 & -> & Hs2 & E2 & D2 & P2 & C2).
  exists s2. split; [done|]. split; [done|]. split; [|split; [congruence|split; congruence]].
  by rewrite E2, E1.
Qed.

(** Inside the [log] mapping. *)
Definition in_log_state (c : log_config_t) : parse_state :=
  ParseState c false 2 true true false (B "log") false false false 0 [] (JsonBuf [] 0) [].

Lemma parse_close s es :
  in_plugin_config s = false → in_plugin_entry s = false →
  ∃ s', parse_events s (YAML_MAPPING_END :: es) = parse_events s' es ∧
    cfg s' = cfg s ∧ has_errors s' = has_errors s ∧
    in_plugin_config s' = false ∧ in_plugin_entry s' = false.
Proof.
  intros H1 H2. cbn [parse_events on_event]. unfold on_mapping_end. rewrite H1, H2.
  cbn [mbind option_bind]. eexists. split; [reflexivity|]. destruct s. cbn in *.
  by destruct (depth0 <=? 2).
Qed.

Lemma parse_end s : parse_events s [YAML_OTHER; YAML_STREAM_END] = Some s.
Proof. done. Qed.

Lemma parse_log_document pairs c :
  parse_config_file (log_document pairs) c =
  Some ((foldl set_pair (c, false) pairs).1, if (foldl set_pair (c, false) pairs).2 then -1 else 0).
Proof.
  unfold parse_config_file.
  assert (E : parse_events (parse_init c) (log_document pairs) =
              parse_events (in_log_state c) (mbind pair_events pairs ++
                [YAML_MAPPING_END; YAML_MAPPING_END; YAML_OTHER; YAML_STREAM_END])) by reflexivity.
  rewrite E. clear E.
  destruct (parse_pairs pairs (in_log_state c) [YAML_MAPPING_END; YAML_MAPPING_END; YAML_OTHER; YAML_STREAM_END])
    as (s1 & -> & (_ & Hp & _) & E1 & _ & _ & C1); [split_and!; try done; by left|].
  destruct (parse_close s1 [YAML_MAPPING_END; YAML_OTHER; YAML_STREAM_END] C1 Hp) as (s2 & -> & A2 & B2 & C2 & D2).
  destruct (parse_close s2 [YAML_OTHER; YAML_STREAM_END] C2 D2) as (s3 & -> & A3 & B3 & _).
  rewrite parse_end. cbn [mbind option_bind].
  cbn [in_log_state cfg has_errors] in E1. rewrite <- E1. cbn [fst snd].
  by rewrite A3, A2, B3, B2.
Qed.

Lemma parse_flat_document pairs c :
  parse_config_file (flat_document pairs) c =
  Some ((foldl set_pair (c, false) pairs).1, if (foldl set_pair (c, false) pairs).2 then -1 else 0).
Proof.
  unfold parse_config_file.
  set (s0 := ParseState c false 1 true false false [] false false false 0 [] (JsonBuf [] 0) []).
  assert (E : parse_events (parse_init c) (flat_document pairs) =
              parse_events s0 (mbind pair_events pairs ++ [YAML_MAPPING_END; YAML_OTHER; YAML_STREAM_END]))
    by reflexivity.
  rewrite E. clear E.
  destruct (parse_pairs pairs s0 [YAML_MAPPING_END; YAML_OTHER; YAML_STREAM_END])
    as (s1 & -> & (_ & Hp & _) & E1 & _ & _ & C1); [split_and!; try done; by right|].
  destruct (parse_close s1 [YAML_OTHER; YAML_STREAM_END] C1 Hp) as (s2 & -> & A2 & B2 & _).
  rewrite parse_end. cbn [mbind option_bind].
  cbn [s0 cfg has_errors] in E1. rewrite <- E1. cbn [fst snd]. by rewrite A2, B2.
Qed.

(** ** What every configuration satisfies *)

Record config_ok (c : log_config_t) : Prop := {
  ok_level : 0 <= level c <= 5;
  ok_queue : is_i32 (queue_size c);
  ok_format : ∀ f, format c = Some f → clen f < CLOG_MAX_FORMAT_SIZE;
  ok_time : ∀ f, time_format c = Some f → clen f < 64;
  ok_path : clen (file_path c) < CLOG_MAX_PATH_SIZE;
  ok_max : is_u64 (file_max_size c);
  ok_backups : is_i32 (file_backups c);
  ok_host : clen (socket_host c) < CLOG_MAX_PATH_SIZE;
  ok_port : 0 <= socket_port c <= 65535;
  ok_ca : clen (socket_tls_ca_file c) < CLOG_MAX_PATH_SIZE;
  ok_ring : is_u64 (socket_ring_capacity c);
  ok_backoff : is_u32 (socket_backoff_min_ms c) ∧ is_u32 (socket_backoff_max_ms c) ∧
               is_u32 (socket_connect_timeout_ms c);
  ok_rate : is_i32 (rate_limit_max_per_sec c) ∧ is_i32 (rate_limit_burst c);
  ok_prom : 0 <= prometheus_port c <= 65535;
  ok_count : 0 <= plugin_count c <= CLOG_MAX_PLUGINS;
  ok_slots : length (plugin_so_paths c) = 8%nat ∧ length (plugin_params_json c) = 8%nat;
  ok_plugins : Forall (λ p, clen p < CLOG_MAX_PATH_SIZE) (plugin_so_paths c) ∧
               Forall (λ p, clen p < CLOG_MAX_PLUGIN_CONFIG_SIZE) (plugin_params_json c)
}.

Lemma i32_range z : is_i32 (i32 z).
Proof. unfold is_i32, i32. pose proof (Z.mod_pos_bound (z + 2 ^ 31) (2 ^ 32)). lia. Qed.

Lemma parse_level_range val v : parse_level val = Some v → 0 <= v <= 5.
Proof.
  unfold parse_level. repeat (destruct (streq _ _); [intros [= <-]; vm_compute; split; discriminate|]). done.
Qed.

Lemma parse_long_range lo hi val v :
  parse_long lo hi val = Some v → lo <= v ∧ (∀ h, hi = Some h → v <= h).
Proof.
  unfold parse_long. intros (x & _ & H)%bind_Some.
  destruct (Z.ltb_spec x lo); [done|]. simpl in H. destruct hi as [h|].
  - destruct (Z.ltb_spec h x); [done|]. injection H as <-. split; [lia|]. intros ? [= <-]. lia.
  - injection H as <-. split; [lia|done].
Qed.

Lemma strtoul_range val v : strtoul_ok val = Some v → is_u64 v.
Proof.
  unfold strtoul_ok. intros ([neg x] & Hx & H)%bind_Some. simpl in H.
  assert (Hp : 0 <= x).
  { clear H. unfold strto_whole in Hx.
    set (p := match skip_space val with | [] => _ | _ => _ end) in Hx. destruct p as [n ds]. clear val.
    destruct ds as [|d ds]; [done|]. apply bind_Some in Hx as (w & Hw & [= _ <-]).
    assert (∀ s a b, 0 <= a → digits_value a s = Some b → 0 <= b) as HH; [|by eapply HH in Hw].
    clear. induction s as [|c s IH]; intros a b Ha; simpl; [by intros [= <-]|].
    unfold isdigit. destruct (Z.leb_spec 48 c), (Z.leb_spec c 57); simpl; try done. apply IH. lia. }
  destruct (Z.ltb_spec x (2 ^ 64)); [|done]. injection H as <-.
  destruct neg; [apply u64_range | split; lia].
Qed.

Lemma parse_max_size_range val v : parse_max_size val = Some v → is_u64 v.
Proof.
  unfold parse_max_size. destruct (_ || _); [done|]. destruct (split_unit val) as [d m].
  intros (n & _ & H)%bind_Some. destruct (_ && _); [done|]. injection H as <-. apply u64_range.
Qed.

#[local] Transparent apply_handler.

Lemma apply_handler_ok h val c c' : config_ok c → apply_handler h val c = Some c' → config_ok c'.
Proof.
  intros [] H. destruct c, h; cbn in H;
    (first [ apply bind_Some in H as (v & Hv & H) | idtac ]); injection H as <-;
    try (apply parse_long_range in Hv as [Hlo Hhi]); try (apply strtoul_range in Hv);
    try (apply parse_max_size_range in Hv); try (apply parse_level_range in Hv);
    cbn in *; unfold constant in *; split; cbn; try done; try (split_and!); try done;
    try apply i32_range; try apply u32_range; try (apply snprintf_s_len; done); try (by destruct_and?);
    try (intros f [= <-]; eapply Z.lt_le_trans; [apply snprintf_s_len; done | vm_compute; discriminate]);
    specialize (Hhi _ eq_refl); rewrite i32_id by (split; lia); lia.
Qed.

Lemma config_defaults_ok c : config_ok c → config_ok (config_defaults c).
Proof.
  intros []. destruct c. cbn in *. split; cbn; unfold constant; try done; try (by intros f [= <-]).
Qed.

(** The state of the parser: a good configuration, the plugin index in range. *)
Definition parse_ok (s : parse_state) : Prop := config_ok (cfg s) ∧ 0 <= plugin_index s.

Lemma snprintf_s_bounds k n val : 0 < k <= n → clen (snprintf_s k val) < n.
Proof. intros. eapply Z.lt_le_trans; [apply snprintf_s_len; lia|lia]. Qed.

Lemma on_event_ok s e s' : parse_ok s → on_event s e = Some s' → parse_ok s'.
Proof.
  intros [Hc Hi] H. destruct e as [| |val| | | |]; cbn [on_event] in H.
  - injection H as <-. unfold on_sequence_start. destruct s; cbn in *. by destruct (_ && _).
  - injection H as <-. by destruct s.
  - unfold on_scalar in H. destruct (in_plugin_entry s).
    + unfold on_plugin_scalar in H.
      destruct (in_plugin_config s), (expect_key s); try (injection H as <-; by destruct s).
      * apply bind_Some in H as (b & _ & [= <-]). by destruct s.
      * destruct (streq _ _); injection H as <-; by destruct s.
    + destruct (_ && _); injection H as <-; [done|]. unfold on_config_scalar.
      destruct (expect_key s); [by destruct s|].
      destruct (config_find_key _) as [h|]; [|by destruct s].
      destruct (apply_handler h val _) as [c|] eqn:E; [|by destruct s].
      destruct s; cbn in *. split; [by eapply apply_handler_ok|done].
  - injection H as <-. unfold on_mapping_start. destruct s; cbn in *.
    destruct (_ && _); [done|]. destruct (_ && _); [done|]. cbn.
    destruct (_ =? 1); [by destruct (streq _ _)|]. by destruct (_ && _).
  - unfold on_mapping_end in H. destruct (in_plugin_config s).
    { apply bind_Some in H as (b & _ & [= <-]). by destruct s. }
    destruct (in_plugin_entry s).
    + destruct (Z.ltb_spec (plugin_index s) CLOG_MAX_PLUGINS); cbn [andb] in H;
        [destruct (_ >? 0)|]; injection H as <-; [|by destruct s..].
      destruct s as [c]; destruct c; destruct Hc; unfold constant in *; cbn in *. split; [|cbn; lia].
      split; cbn; try done; unfold constant.
      * lia.
      * by rewrite !length_insert.
      * destruct_and?. split; apply Forall_insert; try done; by apply snprintf_s_bounds.
    + injection H as <-. destruct s; cbn in *. by destruct (_ <=? 2).
  - by injection H as <-.
  - by injection H as <-.
Qed.

Lemma parse_events_ok es : ∀ s s', parse_ok s → parse_events s es = Some s' → parse_ok s'.
Proof.
  induction es as [|e es IH]; intros s s' Hs H; cbn [parse_events] in H.
  - injection H as <-. by destruct s.
  - apply bind_Some in H as (s1 & H1 & H). assert (Hs1 : parse_ok s1) by (by eapply on_event_ok).
    destruct e; try (by eapply IH). by injection H as <-.
Qed.

(** Outside sequences there is no plugin text to overflow. *)
Definition no_sequence (e : yaml_event) : Prop := e ≠ YAML_SEQUENCE_START.

Definition no_plugins (s : parse_state) : Prop :=
  in_plugins s = false ∧ in_plugin_entry s = false ∧ in_plugin_config s = false.

Lemma on_event_no_plugins s e :
  no_plugins s → no_sequence e → ∃ s', on_event s e = Some s' ∧ no_plugins s'.
Proof.
  intros (H1 & H2 & H3) He. destruct s; cbn in H1, H2, H3; subst.
  destruct e; [done|..]; cbn [on_event]; try (eexists; split; [reflexivity|done]).
  - unfold on_scalar. cbn [in_plugin_entry]. destruct (_ && _); eexists; (split; [reflexivity|]); [done|].
    unfold on_config_scalar. cbn [expect_key]. destruct expect_key0; [done|].
    destruct (config_find_key _) as [h|]; [|done]. cbn [cfg]. by destruct (apply_handler h value _).
  - eexists. split; [reflexivity|]. unfold on_mapping_start. cbn.
    destruct (_ =? 1); [by destruct (streq _ _)|]. by destruct (_ && _).
  - unfold on_mapping_end. cbn [in_plugin_config in_plugin_entry]. eexists. split; [reflexivity|].
    cbn. by destruct (_ <=? 2).
Qed.

Lemma parse_events_total es : ∀ s,
  no_plugins s → Forall no_sequence es → ∃ s', parse_events s es = Some s'.
Proof.
  induction es as [|e es IH]; intros s Hs He; cbn [parse_events]; [by eexists|].
  apply Forall_cons in He as [He Hes].
  destruct (on_event_no_plugins s e Hs He) as (s1 & -> & Hs1). cbn [mbind option_bind].
  destruct e; try (by apply IH). by eexists.
Qed.

Lemma parse_config_file_ok es c c' ret :
  config_ok c → parse_config_file es c = Some (c', ret) → config_ok c'.
Proof.
  unfold parse_config_file. intros Hc (s & Hs & [= <- _])%bind_Some.
  by apply parse_events_ok in Hs as [? _]; [|split; [done|cbn; lia]].
Qed.

Definition owner_ok (l : config_owner) : Prop :=
  config_ok (config l) ∧ clen (format_str l) < CLOG_MAX_FORMAT_SIZE ∧ clen (time_format_str l) < 64.

(** What a finished load leaves: a configuration in range whose two format
    pointers are the logger's own buffers. *)
Lemma load_into_ok l path same file l' ret :
  owner_ok l → log_config_load_into l path same file = Some (l', ret) →
  owner_ok l' ∧
  (ret = 0 → format (config l') = Some (format_str l') ∧ time_format (config l') = Some (time_format_str l')).
Proof.
  intros (Hc%config_defaults_ok & _ & _). unfold log_config_load_into.
  set (p := match path with Some (_ :: _) => _ | _ => _ end). clearbody p.
  assert (HD : ∀ q, owner_ok (ConfigOwner (config_defaults (config l)) q (B "[%time] [%level] %msg")
                      (B "%Y-%m-%d %H:%M:%S"))) by (intros q; by split_and!).
  destruct p as [|x p]; [intros [= <- <-]; split; [apply HD|by destruct l as [[]]]|].
  destruct (file (x :: p)) as [es|]; [|intros [= <- <-]; split; [apply HD|by destruct l as [[]]]].
  intros ([c ret'] & Hp & H)%bind_Some. apply parse_config_file_ok in Hp; [|done].
  destruct (Z.eqb_spec ret' 0) as [->|Hne]; cbn [negb] in H; injection H as <- <-.
  - split; [|by destruct c]. split_and!; [|by apply snprintf_s_len..].
    destruct c, Hp; cbn in *. split; cbn; unfold constant; try done;
      intros f [= <-]; by apply snprintf_s_len.
  - split; [|done]. split_and!; done.
Qed.

(** ** The plugin parameters *)

(** The escaping loop stops with one or two bytes left when the value is as
    long as the room. *)
Lemma pj_escape_full val : ∀ text len rem,
  clen text = len → len + rem = CLOG_MAX_PLUGIN_CONFIG_SIZE → 1 <= rem → rem <= clen val + 2 →
  ∃ text' rem', pj_escape (JsonBuf text len) rem val = Some (JsonBuf text' (CLOG_MAX_PLUGIN_CONFIG_SIZE - rem'), rem') ∧
    1 <= rem' <= 2 ∧ clen text' = CLOG_MAX_PLUGIN_CONFIG_SIZE - rem' ∧ text `prefix_of` text'.
Proof.
  unfold CLOG_MAX_PLUGIN_CONFIG_SIZE.
  induction val as [|c val IH]; intros text len rem Hl Hsum H1 Hv; cbn [pj_escape].
  - exists text, rem. rewrite clen_nil in Hv. replace (4096 - rem) with len by lia.
    split_and!; try done; lia.
  - rewrite clen_cons in Hv. destruct (Z.gtb_spec rem 2).
    2:{ exists text, rem. replace (4096 - rem) with len by lia. split_and!; try done; lia. }
    assert (Hput : ∀ t n x, clen t = n → n < 4096 → pj_put (JsonBuf t n) x = Some (JsonBuf (t ++ [x]) (n + 1))).
    { intros t n x Ht Hn. unfold pj_put, CLOG_MAX_PLUGIN_CONFIG_SIZE. cbn [pj_len pj_text].
      destruct (Z.ltb_spec n 4096); [|lia]. rewrite take_ge; [done|]. unfold clen in Ht. lia. }
    destruct (_ || _).
    + rewrite Hput by lia. cbn [mbind option_bind fst snd]. rewrite Hput by (rewrite ?clen_app, ?clen_cons, ?clen_nil; lia).
      cbn [mbind option_bind].
      destruct (IH ((text ++ [92]) ++ [c]) (len + 1 + 1) (rem - 1 - 1)) as (t' & r' & -> & ? & ? & Hpre);
        [rewrite !clen_app, !clen_cons, clen_nil; lia|lia|lia|lia|].
      exists t', r'. split_and!; try done; try lia. etrans; [|exact Hpre]. rewrite <- app_assoc. by apply prefix_app_r.
    + cbn [mbind option_bind fst snd]. rewrite Hput by lia. cbn [mbind option_bind].
      destruct (IH (text ++ [c]) (len + 1) (rem - 1)) as (t' & r' & -> & ? & ? & Hpre);
        [rewrite clen_app, clen_cons, clen_nil; lia|lia|lia|lia|].
      exists t', r'. split_and!; try done; try lia. etrans; [|exact Hpre]. by apply prefix_app_r.
Qed.

(** ** Properties *)

(** C36: the YAML front end reads a [log:] section, or a document without
    sections, as the left-to-right application of its [key: value] pairs: each
    pair whose key is in the table sets its field or, when its value is not
    acceptable, leaves the configuration as it was and makes the result -1;
    every other key is ignored. *)
Theorem config_section_is_fold pairs c :
  let '(c', err) := foldl set_pair (c, false) pairs in
  parse_config_file (log_document pairs) c = Some (c', if err then -1 else 0) ∧
  parse_config_file (flat_document pairs) c = Some (c', if err then -1 else 0).
Proof.
  destruct (foldl set_pair (c, false) pairs) as [c' err] eqn:E.
  split; [rewrite parse_log_document | rewrite parse_flat_document]; by rewrite E.
Qed.

(** The binary search over the key table finds exactly the keys of the
    table, with their handlers. *)
Theorem config_key_lookup k h : config_find_key k = Some h ↔ (k, h) ∈ g_config_keys.
Proof. apply config_find_key_iff. Qed.


Definition config_zero : log_config_t :=
  LogConfig 0 false 0 false LOG_FORMAT_TEXT None None 0 0 0 [] 0 0 0 [] 0 false [] false false 0 0 0 0
    false 0 0 false false 0 (replicate 8 []) (replicate 8 []) 0.

Definition test_pairs : list (cstr * cstr) :=
  [(B "level", B "WARN"); (B "max_size", B "10MB"); (B "port", B "70000"); (B "unknown", B "x");
   (B "file_path", B "/var/log/app.log")].


(** Sizes are read with their unit: for every 64-bit count and every
    spelling of K, M, G, with or without B, the value is count times unit when
    that fits 64 bits, and is rejected when it does not. *)
Theorem parse_max_size_correct n u mult :
  is_u64 n → (u, mult) ∈ size_units →
  parse_max_size (dec n ++ u) = if n * mult <? 2 ^ 64 then Some (n * mult) else None.
Proof.
  intros Hn Hu. destruct (dec_head n) as (c & s & E & _); [unfold is_u64 in Hn; lia|].
  assert (Hne : dec n ≠ []) by (by rewrite E).
  assert (Hm : 0 < mult ∧ clen u <= 2).
  { clear -Hu. apply list_elem_of_In in Hu. repeat destruct Hu as [[= <- <-]|Hu]; [..|done]; by vm_compute. }
  unfold parse_max_size. rewrite clen_app. pose proof (dec_len n) as Hl.
  assert (1 <= clen (dec n) <= 20) by (rewrite E in *; unfold clen in *; simpl in *; lia).
  pose proof (clen_nonneg u).
  destruct (Z.eqb_spec (clen (dec n) + clen u) 0); [lia|].
  rewrite Z.geb_leb. destruct (Z.leb_spec 64 (clen (dec n) + clen u)); [lia|]. cbn [orb].
  rewrite (split_unit_dec (dec n) u mult Hne) by (try done; apply dec_go_digits; unfold is_u64 in Hn; lia).
  rewrite strtoul_dec by done. cbn [mbind option_bind]. rewrite !Z.gtb_ltb.
  unfold is_u64 in Hn. pose proof (Z.div_mod (2 ^ 64 - 1) mult ltac:(lia)) as Hdm.
  pose proof (Z.mod_pos_bound (2 ^ 64 - 1) mult ltac:(lia)) as Hmb.
  destruct (Z.ltb_spec (n * mult) (2 ^ 64)) as [Hf|Hf].
  - assert (n <= (2 ^ 64 - 1) / mult) by (apply Z.div_le_lower_bound; lia).
    destruct (Z.ltb_spec ((2 ^ 64 - 1) / mult) n); [lia|]. rewrite andb_false_r.
    rewrite u64_id; [done|]. split; nia.
  - destruct (Z.ltb_spec 1 mult); [|assert (mult = 1) by lia; nia].
    destruct (Z.ltb_spec ((2 ^ 64 - 1) / mult) n); [done|]. nia.
Qed.

Lemma parse_max_size_correct_witness : parse_max_size (B "100MB") = Some 104857600.
Proof.
  apply (parse_max_size_correct 100 (B "MB") 1048576); [vm_compute; split; [discriminate|reflexivity]|].
  apply list_elem_of_In. vm_compute. tauto.
Defined.

(** A plugin parameter that fills the 4096-byte JSON buffer is written past
    its end: for every key that fits and every value of 4096 bytes or more,
    appending the pair to an empty object and closing the object writes
    outside [plugin_json]. *)
Theorem plugin_json_overflows key val :
  clen key < 128 → CLOG_MAX_PLUGIN_CONFIG_SIZE <= clen val →
  (plugin_json_append (JsonBuf [123] 1) key val ≫= plugin_json_close) = None.
Proof.
  intros Hk Hv. unfold plugin_json_append. cbn [pj_len pj_text].
  set (text := (if 1 >? 1 then _ else _) ++ _). change (1 >? 1) with false in text.
  assert (Ht : clen text = 4 + clen key) by (unfold text; rewrite !clen_app; vm_compute (clen [34]); vm_compute (clen (J _)); unfold clen; simpl; lia).
  pose proof (clen_nonneg key). clearbody text.
  unfold CLOG_MAX_PLUGIN_CONFIG_SIZE in *. change ((4096 - 1 >? 0) && (1 >? 0)) with true. cbn [andb].
  rewrite Ht. replace ((4 + clen key >? 0) && (4 + clen key <? 4096 - 1)) with true by lia.
  change (take (Z.to_nat 1) [123]) with [123].
  destruct (pj_escape_full val ([123] ++ text) (1 + (4 + clen key)) (4096 - 1 - (4 + clen key)))
    as (t & r & E & Hr & Hlt & [k Hpre]); unfold CLOG_MAX_PLUGIN_CONFIG_SIZE;
    [rewrite clen_app, Ht; by vm_compute (clen [123])|lia|lia|lia|].
  rewrite E. cbn [mbind option_bind]. unfold CLOG_MAX_PLUGIN_CONFIG_SIZE in *.
  replace (r >? 0) with true by lia.
  assert (Hput : pj_put (JsonBuf t (4096 - r)) 34 = Some (JsonBuf (t ++ [34]) (4096 - r + 1))).
  { unfold pj_put, CLOG_MAX_PLUGIN_CONFIG_SIZE. cbn [pj_len pj_text].
    destruct (Z.ltb_spec (4096 - r) 4096); [|lia]. rewrite take_ge; [done|]. unfold clen in Hlt. lia. }
  rewrite Hput. cbn [mbind option_bind]. unfold pj_nul, CLOG_MAX_PLUGIN_CONFIG_SIZE. cbn [pj_len pj_text].
  destruct (Z.ltb_spec (4096 - r + 1) 4096); [|done]. cbn [mbind option_bind].
  assert (r = 2) as -> by lia.
  unfold plugin_json_close. cbn [pj_len pj_text].
  assert (Hlast : take (Z.to_nat (4096 - 2 + 1)) (t ++ [34]) !! Z.to_nat (4096 - 2 + 1 - 1) = Some 34).
  { rewrite lookup_take_lt by lia. rewrite lookup_app_r by (unfold clen in Hlt; lia).
    replace (Z.to_nat (4096 - 2 + 1 - 1) - length t)%nat with 0%nat by (unfold clen in Hlt; lia). done. }
  rewrite Hlast. rewrite (bool_decide_eq_false_2 (Some 34 = Some 123)) by done. rewrite andb_false_r.
  reflexivity.
Qed.

Lemma plugin_json_overflows_witness :
  (plugin_json_append (JsonBuf [123] 1) (B "k") (replicate 4096 97) ≫= plugin_json_close) = None.
Proof.
  apply (plugin_json_overflows (B "k") (replicate 4096 97)); [done|].
  unfold clen. rewrite length_replicate. unfold CLOG_MAX_PLUGIN_CONFIG_SIZE. lia.
Defined.

(** A plugin entry without a [config:] of its own is recorded with the
    parameters of the entry before it. *)
Example plugin_config_inherited :
  let entry es := [YAML_MAPPING_START; YAML_SCALAR (B "path")] ++ es ++ [YAML_MAPPING_END] in
  let doc := [YAML_MAPPING_START; YAML_SCALAR (B "plugins"); YAML_SEQUENCE_START] ++
             entry [YAML_SCALAR (B "a.so"); YAML_SCALAR (B "config"); YAML_MAPPING_START;
                    YAML_SCALAR (B "k"); YAML_SCALAR (B "v"); YAML_MAPPING_END] ++
             entry [YAML_SCALAR (B "b.so")] ++
             [YAML_SEQUENCE_END; YAML_MAPPING_END; YAML_STREAM_END] in
  match parse_config_file doc config_zero with
  | Some (c, 0) => plugin_count c = 2 ∧ take 2 (plugin_so_paths c) = [B "a.so"; B "b.so"] ∧
                   take 2 (plugin_params_json c) = [J "{'k':'v'}"; J "{'k':'v'}"]
  | _ => False
  end.
Proof. vm_compute. done. Qed.

(** A queue size beyond 32 bits is accepted and truncated, here to zero. *)
Example queue_size_truncated :
  match parse_config_file (log_document [(B "queue_size", B "4294967296")]) config_zero with
  | Some (c, 0) => queue_size c = 0
  | _ => False
  end.
Proof. vm_compute. done. Qed.
