(* ===== verification/FmtBuf.v ===== *)
(** * Bounded output and JSON escaping (core/formatter.c)

    The output cursor ([out], [remaining]) that every renderer
    threads, its append operations, and RFC 8259 string escaping with its inverse. *)
From S2P Require Import Prelude FastAscii Record.

Local Open Scope Z_scope.

(** ** The output cursor *)

(** [ob_data] is what lies between [buf] and [*out], [ob_rem] is [*remaining].
    Every operation leaves a NUL at [**out]. *)
Record obuf := OBuf { ob_data : cstr; ob_rem : Z }.

Definition ob_init (buf_size : Z) : obuf := OBuf [] buf_size.

(** Copy [n] bytes to [*out], advance it and reduce [*remaining]. *)
Definition ob_push (b : obuf) (s : cstr) : obuf :=
  OBuf (ob_data b ++ s) (u64 (ob_rem b - clen s)).

Definition append_buf_str (b : obuf) (str : cstr) : obuf * Z :=
  if clen str >=? ob_rem b then (b, -1) else (ob_push b str, 0).

Definition append_buf_u32 (b : obuf) (val : Z) : obuf * Z := append_buf_str b (clog_u32toa val).
Definition append_buf_i32 (b : obuf) (val : Z) : obuf * Z := append_buf_str b (clog_i32toa val).
Definition append_buf_i64 (b : obuf) (val : Z) : obuf * Z := append_buf_str b (clog_i64toa val).
Definition append_buf_u64 (b : obuf) (val : Z) : obuf * Z := append_buf_str b (clog_u64toa val).
Definition append_buf_u32_pad6 (b : obuf) (val : Z) : obuf * Z :=
  append_buf_str b (clog_u32toa_pad6 val).

(** ["\\u00%02x"]. *)
Definition u00_escape (c : Z) : cstr := [92; 117; 48; 48] ++ hex_byte c.

(** The loop over [*str] while [*remaining > 1]: the cursor and what is left of
    [str] when it stops. [str] moves past the character before the room for its
    escape is checked. *)
Fixpoint json_escape_loop (b : obuf) (str : cstr) : obuf * cstr :=
  match str with
  | [] => (b, [])
  | c :: rest =>
      if ob_rem b >? 1 then
        let esc2 x :=
          if ob_rem b <=? 2 then (b, rest) else json_escape_loop (ob_push b [92; x]) rest in
        if c =? 34 then esc2 34
        else if c =? 92 then esc2 92
        else if c =? 8 then esc2 98
        else if c =? 12 then esc2 102
        else if c =? 10 then esc2 110
        else if c =? 13 then esc2 114
        else if c =? 9 then esc2 116
        else if c <? 0x20 then
          if ob_rem b <=? 6 then (b, rest)
          else json_escape_loop (ob_push b (u00_escape c)) rest
        else json_escape_loop (ob_push b [c]) rest
      else (b, str)
  end.

Definition append_json_escaped_string (b : obuf) (str : option cstr) : obuf * Z :=
  let '(b', rest) := json_escape_loop b (or_default str []) in
  (b', match rest with [] => 0 | _ => -1 end).

(** [json_close_object]: the cursor after it and its result. *)
Definition json_close_object (b : obuf) (suffix : cstr) : obuf * Z :=
  if ob_rem b <? clen suffix + 1 then (b, -1)
  else let b' := ob_push b suffix in (b', i32 (clen (ob_data b'))).

(** ** Reference escaping and its inverse *)

Definition json_esc1 (c : Z) : cstr :=
  if c =? 34 then [92; 34] else if c =? 92 then [92; 92]
  else if c =? 8 then [92; 98] else if c =? 12 then [92; 102]
  else if c =? 10 then [92; 110] else if c =? 13 then [92; 114]
  else if c =? 9 then [92; 116]
  else if c <? 32 then u00_escape c else [c].

Definition json_escape (s : cstr) : cstr := mbind json_esc1 s.

Definition hex_value (c : Z) : option Z :=
  if (48 <=? c) && (c <=? 57) then Some (c - 48)
  else if (97 <=? c) && (c <=? 102) then Some (c - 87)
  else if (65 <=? c) && (c <=? 70) then Some (c - 55)
  else None.

(** The character a one-letter escape denotes. *)
Definition simple_escape (c : Z) : option Z :=
  if c =? 34 then Some 34 else if c =? 92 then Some 92 else if c =? 47 then Some 47
  else if c =? 98 then Some 8 else if c =? 102 then Some 12 else if c =? 110 then Some 10
  else if c =? 114 then Some 13 else if c =? 116 then Some 9 else None.

(** Read the body of a JSON string up to its closing quote: the decoded bytes and
    what follows the quote. Raw control characters and unknown escapes are errors,
    and so is a [\u] escape above [\u00ff], which is no single byte. *)
Fixpoint json_read_string (s : cstr) : option (cstr * cstr) :=
  match s with
  | [] => None
  | c :: s1 =>
      if c =? 34 then Some ([], s1)
      else if c <? 32 then None
      else if c =? 92 then
        match s1 with
        | e :: s2 =>
            if e =? 117 then
              match s2 with
              | h1 :: h2 :: h3 :: h4 :: s3 =>
                  if (h1 =? 48) && (h2 =? 48) then
                    match hex_value h3, hex_value h4, json_read_string s3 with
                    | Some x, Some y, Some (t, r) => Some (x * 16 + y :: t, r)
                    | _, _, _ => None
                    end
                  else None
              | _ => None
              end
            else
              match simple_escape e, json_read_string s2 with
              | Some x, Some (t, r) => Some (x :: t, r)
              | _, _ => None
              end
        | [] => None
        end
      else match json_read_string s1 with
           | Some (t, r) => Some (c :: t, r)
           | None => None
           end
  end.

(** Evaluate the literals of the goal. *)
Ltac eval_lits :=
  repeat match goal with
  | |- context [json_escape (B (String ?a ?s))] =>
      let t := constr:(json_escape (B (String a s))) in
      let v := eval vm_compute in t in change t with v
  | |- context [J (String ?a ?s)] =>
      let t := constr:(J (String a s)) in let v := eval vm_compute in t in change t with v
  | |- context [B (String ?a ?s)] =>
      let t := constr:(B (String a s)) in let v := eval vm_compute in t in change t with v
  end.

(** ** The cursor invariant *)

(** A buffer of [n] bytes with room for the terminator: what is written plus
    [remaining] is [n], and at least one byte is left. *)
Definition ob_ok (n : Z) (b : obuf) : Prop :=
  clen (ob_data b) + ob_rem b = n ∧ 1 <= ob_rem b ∧ n < 2 ^ 64.

Lemma ob_ok_init n : 1 <= n < 2 ^ 64 → ob_ok n (ob_init n).
Proof. unfold ob_ok. simpl. clia. Qed.

Lemma ob_push_rem n b s : ob_ok n b → clen s < ob_rem b → ob_rem (ob_push b s) = ob_rem b - clen s.
Proof. intros (?&?&?) ?. simpl. apply u64_id. split; clia. Qed.

Lemma ob_ok_push n b s : ob_ok n b → clen s < ob_rem b → ob_ok n (ob_push b s).
Proof.
  intros Hb Hs. pose proof (ob_push_rem n b s Hb Hs) as Hr. destruct Hb as (?&?&?).
  unfold ob_ok. rewrite Hr. simpl. rewrite clen_app. lia.
Qed.
#[export] Hint Resolve ob_ok_init ob_ok_push : clog.

Lemma append_buf_str_ok n b s b' r :
  ob_ok n b → append_buf_str b s = (b', r) →
  ob_ok n b' ∧ ((r = 0 ∧ ob_data b' = ob_data b ++ s) ∨ (r = -1 ∧ b' = b ∧ ob_rem b <= clen s)).
Proof.
  unfold append_buf_str. intros Hb H. zcases_in H; simplify_eq; [by auto|].
  split; [apply ob_ok_push; [done|lia]|]. by left.
Qed.

(** ** Escaping *)

Lemma json_escape_cons c s : json_escape (c :: s) = json_esc1 c ++ json_escape s.
Proof. done. Qed.

Lemma app_json_escape_nil s : s ++ json_escape [] = s.
Proof. apply app_nil_r. Qed.

Lemma length_u00 c : clen (u00_escape c) = 6.
Proof. done. Qed.

(** One turn of the loop, in terms of the reference escape. *)
Lemma json_escape_loop_cons b c rest :
  json_escape_loop b (c :: rest) =
    if ob_rem b >? 1 then
      if ob_rem b <=? clen (json_esc1 c) then
        if clen (json_esc1 c) =? 1 then json_escape_loop (ob_push b (json_esc1 c)) rest
        else (b, rest)
      else json_escape_loop (ob_push b (json_esc1 c)) rest
    else (b, c :: rest).
Proof.
  simpl. unfold json_esc1. destruct (ob_rem b >? 1) eqn:E; [|done].
  repeat match goal with |- context [c =? ?k] => destruct (c =? k); [done|] end.
  destruct (c <? 32); [done|].
  destruct (Z.leb_spec (ob_rem b) (clen [c])); [|done].
  rewrite Z.gtb_lt in E. unfold clen in *. simpl in *. lia.
Qed.

Lemma json_esc1_len c : 1 <= clen (json_esc1 c) <= 6.
Proof.
  unfold json_esc1. repeat (case_match; [unfold clen; simpl; lia|]). unfold clen; simpl; lia.
Qed.

(** What the loop writes is the escape of a prefix of the input, cut between
    characters, and the cursor stays inside the buffer. *)
Lemma json_escape_loop_prefix n b str :
  ob_ok n b →
  let '(b', rest) := json_escape_loop b str in
  ob_ok n b' ∧
  ∃ p q, str = p ++ q ∧ ob_data b' = ob_data b ++ json_escape p ∧
         (q = rest ∨ ∃ c, q = c :: rest).
Proof.
  revert b. induction str as [|c str IH]; intros b Hb.
  { simpl. split; [done|]. exists [], []. rewrite (app_json_escape_nil (ob_data b)). split_and!; [done..|eauto]. }
  rewrite json_escape_loop_cons. pose proof (json_esc1_len c).
  destruct (ob_rem b >? 1) eqn:E.
  2:{ split; [done|]. exists [], (c :: str). rewrite (app_json_escape_nil (ob_data b)). split_and!; [done..|eauto]. }
  rewrite Z.gtb_lt in E.
  assert (∀ b', b' = ob_push b (json_esc1 c) → clen (json_esc1 c) < ob_rem b →
    let '(b'', rest) := json_escape_loop b' str in
    ob_ok n b'' ∧ ∃ p q, c :: str = p ++ q ∧
      ob_data b'' = ob_data b ++ json_escape p ∧ (q = rest ∨ ∃ c, q = c :: rest)) as Hgo.
  { intros b' -> Hlt. specialize (IH (ob_push b (json_esc1 c)) ltac:(auto with clog)).
    destruct (json_escape_loop _ str) as [b'' rest].
    destruct IH as (Hb'' & p & q & -> & Hd & Hq). split; [done|].
    exists (c :: p), q. rewrite Hd, json_escape_cons. simpl. rewrite <- app_assoc. done. }
  zcases; [lia| |by apply Hgo].
  split; [done|]. exists [], (c :: str). rewrite (app_json_escape_nil (ob_data b)). split_and!; [done..|eauto].
Qed.

(** With room for the whole escape and the terminator, nothing is cut. *)
Lemma json_escape_loop_full n b str :
  ob_ok n b → clen (json_escape str) < ob_rem b →
  ∃ b', json_escape_loop b str = (b', []) ∧ ob_ok n b' ∧
        ob_data b' = ob_data b ++ json_escape str.
Proof.
  revert b. induction str as [|c str IH]; intros b Hb Hlen.
  { exists b. simpl. by rewrite app_json_escape_nil. }
  rewrite json_escape_loop_cons. rewrite json_escape_cons in *.
  pose proof (json_esc1_len c). autorewrite with clen in Hlen.
  pose proof (clen_nonneg (json_escape str)).
  rewrite Z.gtb_ltb. destruct (Z.ltb_spec 1 (ob_rem b)); [|lia].
  destruct (Z.leb_spec (ob_rem b) (clen (json_esc1 c))); [lia|].
  destruct (IH (ob_push b (json_esc1 c))) as (b' & -> & Hb' & Hd);
    [by apply ob_ok_push|rewrite (ob_push_rem n) by done; lia|].
  exists b'. rewrite Hd. simpl. by rewrite <- app_assoc.
Qed.

Lemma hex_value_lut d : 0 <= d < 16 → hex_value (g_hex_lut !!! Z.to_nat d) = Some d.
Proof.
  intros Hd. assert (Forall (λ n : nat, hex_value (g_hex_lut !!! n) = Some (Z.of_nat n)) (seq 0 16)) as H.
  { apply (bool_decide_unpack _). vm_compute. done. }
  rewrite Forall_forall in H. rewrite (H (Z.to_nat d)); [f_equal; lia|]. apply elem_of_seq. lia.
Qed.

Lemma land15 z : Z.land z 15 = z mod 16.
Proof. change 15 with (Z.ones 4). rewrite Z.land_ones by lia. done. Qed.

Lemma hex_byte_value c : is_byte c →
  ∃ x y, hex_byte c = [x; y] ∧ hex_value x = Some (c / 16) ∧ hex_value y = Some (c mod 16).
Proof.
  intros [??]. unfold hex_byte. rewrite land15, Z.shiftr_div_pow2 by lia. change (2 ^ 4) with 16.
  eexists _, _. split; [done|]. split; apply hex_value_lut.
  - split; [apply Z.div_pos; lia | apply Z.div_lt_upper_bound; lia].
  - apply Z.mod_pos_bound; lia.
Qed.

Lemma json_read_esc1 c s t r :
  is_byte c → json_read_string s = Some (t, r) →
  json_read_string (json_esc1 c ++ s) = Some (c :: t, r).
Proof.
  intros Hc Hs. unfold json_esc1.
  repeat match goal with
  | |- context [c =? ?k] => destruct (Z.eqb_spec c k) as [->|]; [by simpl; rewrite Hs|]
  end.
  destruct (Z.ltb_spec c 32).
  - destruct (hex_byte_value c Hc) as (x & y & He & Hx & Hy).
    unfold u00_escape. rewrite He. simpl. rewrite Hx, Hy, Hs. do 3 f_equal.
    pose proof (Z.div_mod c 16). lia.
  - simpl. rewrite Hs. by zcases; try lia.
Qed.

(** Escaping is undone by reading the string back, up to the closing quote. *)
Lemma json_read_escape s r :
  Forall is_byte s → json_read_string (json_escape s ++ 34 :: r) = Some (s, r).
Proof.
  induction 1 as [|c s Hc Hs IH]; [done|].
  rewrite json_escape_cons, <- app_assoc. by apply json_read_esc1.
Qed.

(** A cut in text without six-byte escapes leaves at most two bytes. *)
Lemma json_escape_loop_cut_room b str b' rest :
  Forall (λ c, clen (json_esc1 c) <= 2) str → json_escape_loop b str = (b', rest) →
  rest ≠ [] → ob_rem b' <= 2.
Proof.
  intros Hs. revert b. induction Hs as [|c str Hc Hs IH]; intros b.
  { simpl. intros [= _ <-]. done. }
  rewrite json_escape_loop_cons. intros H Hr. zcases_in H; simplify_eq; try lia; by eapply IH.
Qed.

(** ** Properties *)

(** C38: escaping into a bounded buffer never leaves it, writes the escape of a
    prefix of the string cut between characters, and writes the whole escape when
    there is room for it and the terminator; what was written, closed by a quote,
    reads back as exactly that prefix. *)
Theorem append_json_escaped_string_correct n b s :
  ob_ok n b → Forall is_byte s →
  let '(b', r) := append_json_escaped_string b (Some s) in
  ob_ok n b' ∧ (r = 0 ∨ r = -1) ∧
  ∃ p, p `prefix_of` s ∧ ob_data b' = ob_data b ++ json_escape p ∧
       (clen (json_escape s) < ob_rem b → r = 0 ∧ p = s) ∧
       ∀ r, json_read_string (json_escape p ++ 34 :: r) = Some (p, r).
Proof.
  intros Hb Hs. unfold append_json_escaped_string. simpl.
  destruct (Z.lt_ge_cases (clen (json_escape s)) (ob_rem b)).
  - destruct (json_escape_loop_full n b s) as (b' & -> & Hb' & Hd); [done..|].
    split_and!; [done|auto|]. exists s. split_and!; [done..|]. intros. by apply json_read_escape.
  - pose proof (json_escape_loop_prefix n b s Hb) as Hp.
    destruct (json_escape_loop b s) as [b' rest]. destruct Hp as (Hb' & p & q & -> & Hd & _).
    split_and!; [done|destruct rest; auto|]. exists p. apply Forall_app in Hs as [Hs _].
    split_and!; [by exists q|done|lia|]. intros. by apply json_read_escape.
Qed.

Lemma append_json_escaped_string_correct_witness :
  ∃ p, p `prefix_of` B "a\b" ∧
    ob_data (append_json_escaped_string (ob_init 3) (Some (B "a\b"))).1 = json_escape p.
Proof.
  pose proof (append_json_escaped_string_correct 3 (ob_init 3) (B "a\b")
    (ob_ok_init 3 ltac:(lia))
    ltac:(unfold is_byte; simpl; repeat (apply Forall_cons_2; [lia|]); apply Forall_nil_2)) as H.
  destruct (append_json_escaped_string _ _) as [b' r].
  destruct H as (_ & _ & p & Hp & Hd & _). exists p. done.
Defined.

(** When text without [\u00XX] escapes is reported as cut, at most two bytes
    are left, so closing the object with at least two bytes and a terminator fails
    and the line is dropped: the truncation path keeps a line only when the cut falls
    in front of a control character. *)
Theorem json_cut_text_is_dropped b s closer :
  Forall (λ c, clen (json_esc1 c) <= 2) s → 2 <= clen closer →
  let '(b', r) := append_json_escaped_string b (Some s) in
  r ≠ 0 → json_close_object b' closer = (b', -1).
Proof.
  intros Hs Hc. unfold append_json_escaped_string. simpl.
  destruct (json_escape_loop b s) as [b' rest] eqn:E. intros Hr.
  pose proof (json_escape_loop_cut_room b s b' rest Hs E) as Hroom.
  unfold json_close_object. zcases; [done|]. destruct rest; [done|]. specialize (Hroom ltac:(done)). lia.
Qed.

Lemma json_cut_text_is_dropped_witness :
  let '(b', r) := append_json_escaped_string (ob_init 8) (Some (B "a long message")) in
  r = -1 ∧ json_close_object b' (J "'}") = (b', -1).
Proof.
  pose proof (json_cut_text_is_dropped (ob_init 8) (B "a long message") (J "'}")
    ltac:(apply (bool_decide_unpack _); vm_compute; exact I) ltac:(vm_compute; discriminate)) as H.
  vm_compute in H. vm_compute. split; [reflexivity|]. apply H. discriminate.
Defined.

(** The last byte of a string can be lost without being reported: the pointer is
    past it when the room check fails. *)
Example escaped_string_loses_last_byte :
  append_json_escaped_string (ob_init 3) (Some [97; 34]) = (OBuf [97] 2, 0).
Proof. reflexivity. Qed.
