(* ===== verification/FmtTime.v ===== *)
(** * Cached timestamp rendering (core/formatter.c: format_sec_cached)

    The C library's calendar and number formatting are a typeclass of operations;
    the per-thread timestamp cache is threaded as a value. *)
From S2P Require Import Prelude FastAscii Record.
From Stdlib Require Import SpecFloat.

Local Open Scope Z_scope.

(** What the renderers call in the C library: [localtime_r]; [strftime] into a
    64-byte buffer, as the string the buffer holds afterwards; and
    [snprintf] of ["%.6g"] into a 32-byte buffer. *)
Class Platform := {
  localtime_r : Z → tm;
  strftime64 : cstr → tm → cstr;
  sprintf_g6 : spec_float → cstr
}.

(** Neither infinite nor NaN. *)
Definition finite (x : spec_float) : bool :=
  match x with S754_zero _ | S754_finite _ _ _ => true | _ => false end.

(** What ["%.6g"] prints of a finite value (C11, 7.21.6.1): a sign if it is negative, an
    integer part without leading zeros, a fraction if one is left after the trailing zeros
    are removed, and in exponential style an exponent with its sign. *)
Definition some_digits (s : cstr) : Prop := Forall (λ c, 48 <= c <= 57) s ∧ s ≠ [].
Definition g_number (t : cstr) : Prop :=
  ∃ sign ip frac ex, t = sign ++ dec ip ++ frac ++ ex ∧ (sign = [] ∨ sign = B "-") ∧ 0 <= ip < 10 ^ 6 ∧
    (frac = [] ∨ ∃ d, frac = 46 :: d ∧ some_digits d) ∧
    (ex = [] ∨ ∃ s d, ex = 101 :: s :: d ∧ (s = 43 ∨ s = 45) ∧ some_digits d).

(** Their documented behaviour: broken-down times of the years 0 to 9999, results
    that fit the buffers they are written to, and the shape of printed numbers. *)
Class PlatformOk (P : Platform) := {
  localtime_ok sec : tm_ok (localtime_r sec);
  strftime64_fits f t : clen (strftime64 f t) < 64;
  sprintf_g6_fits x : clen (sprintf_g6 x) < 32;
  sprintf_g6_number x : finite x = true → g_number (sprintf_g6 x)
}.

Definition default_time_format : cstr := B "%Y-%m-%d %H:%M:%S".

(** [clog_time_cache_t]. *)
Record clog_time_cache_t := TimeCache {
  tc_sec : Z; tc_time_format : cstr; tc_formatted : cstr
}.

Definition time_cache_init : clog_time_cache_t := TimeCache 0 [] [].

Section with_platform.
Context `{P : Platform}.

(** The text of second [sec] in format [fmt], without the cache. *)
Definition render_sec (fmt : cstr) (sec : Z) : cstr :=
  if streq fmt default_time_format then clog_format_iso_datetime (localtime_r sec)
  else strftime64 fmt (localtime_r sec).

Definition format_sec_cached (c : clog_time_cache_t) (sec : Z) (fmt : option cstr)
    (out_str_size : Z) : clog_time_cache_t * cstr :=
  let fmt := or_default fmt default_time_format in
  let c' :=
    if negb (sec =? tc_sec c) || negb (streq fmt (tc_time_format c)) ||
       streq (tc_formatted c) []
    then
      let formatted := render_sec fmt sec in
      let fmt_len := if clen fmt >=? 64 then 63 else clen fmt in
      TimeCache sec (take (Z.to_nat fmt_len) fmt) formatted
    else c in
  let len := clen (tc_formatted c') in
  let len := if len >=? out_str_size then out_str_size - 1 else len in
  (c', take (Z.to_nat len) (tc_formatted c')).

(** The cache is empty or holds the rendering of its own key. *)
Definition time_cache_ok (c : clog_time_cache_t) : Prop :=
  tc_formatted c = [] ∨ tc_formatted c = render_sec (tc_time_format c) (tc_sec c).

Lemma time_cache_init_ok : time_cache_ok time_cache_init.
Proof. by left. Qed.

Lemma render_sec_fits `{!PlatformOk P} fmt sec : clen (render_sec fmt sec) < 64.
Proof.
  unfold render_sec. case_match; [|apply strftime64_fits].
  rewrite iso_datetime_ref by apply localtime_ok. unfold iso_ref, clen.
  rewrite !length_app, !length_dec_pad. simpl. lia.
Qed.

Lemma format_sec_cached_render `{!PlatformOk P} c sec fmt :
  time_cache_ok c → clen (or_default fmt default_time_format) < 64 →
  time_cache_ok (format_sec_cached c sec fmt 64).1 ∧
  (format_sec_cached c sec fmt 64).2 = render_sec (or_default fmt default_time_format) sec.
Proof.
  set (f := or_default fmt default_time_format). intros Hc Hf.
  unfold format_sec_cached. fold f. simpl.
  assert (∀ c', tc_formatted c' = render_sec f sec →
    take (Z.to_nat (if clen (tc_formatted c') >=? 64 then 63 else clen (tc_formatted c')))
         (tc_formatted c') = render_sec f sec) as Hcut.
  { intros c' ->. pose proof (render_sec_fits f sec). zcases; [lia|].
    apply take_ge. unfold clen. lia. }
  destruct (negb _ || _ || _) eqn:E.
  - split; [right|by apply Hcut]. simpl. zcases; [lia|].
    rewrite take_ge; [done|unfold clen; lia].
  - split; [done|]. apply Hcut. unfold streq in E.
    apply orb_false_iff in E as [[E1 E2]%orb_false_iff E3].
    apply negb_false_iff, Z.eqb_eq in E1 as ->. apply negb_false_iff, bool_decide_eq_true in E2 as ->.
    apply bool_decide_eq_false in E3. by destruct Hc.
Qed.

End with_platform.

(** A concrete platform: UTC hours, minutes and seconds of a fixed day, the format
    itself as [strftime]'s output, two numbers. *)
Module TestPlatform.
Definition test_tm (sec : Z) : tm :=
  Tm 126 6 31 ((sec / 3600) mod 24) ((sec / 60) mod 60) (sec mod 60).

#[export] Instance test_platform : Platform := {
  localtime_r := test_tm;
  strftime64 f _ := take 63 f;
  sprintf_g6 x := match x with S754_zero _ => B "0" | S754_finite _ _ _ => B "1.5" | _ => B "nan" end
}.

#[export] Instance test_platform_ok : PlatformOk test_platform.
Proof.
  split.
  - intros sec. unfold tm_ok. simpl.
    pose proof (Z.mod_pos_bound (sec / 3600) 24). pose proof (Z.mod_pos_bound (sec / 60) 60).
    pose proof (Z.mod_pos_bound sec 60). lia.
  - intros f t. simpl. clia.
  - by intros [].
  - intros [| | |sg m e]; try done; intros _.
    + by exists [], 0, [], []; split_and!; auto.
    + exists [], 1, (B ".5"), []. split_and!; [done|by left|done..| |by left]. right. exists (B "5").
      split; [done|]. split; [by apply Forall_singleton|done].
Qed.
End TestPlatform.
Export TestPlatform.

(** Rendering through the per-thread cache is indistinguishable from
    rendering afresh: for every reachable cache and every format that fits the
    cache key, the text is the rendering of the requested second in the requested
    format, and the cache stays coherent. *)
Theorem time_cache_transparent `{P : Platform} `{!PlatformOk P} c sec fmt :
  time_cache_ok c → clen (or_default fmt default_time_format) < 64 →
  time_cache_ok (format_sec_cached c sec fmt 64).1 ∧
  (format_sec_cached c sec fmt 64).2 = render_sec (or_default fmt default_time_format) sec.
Proof. apply format_sec_cached_render. Qed.

Lemma time_cache_transparent_witness :
  let c := (format_sec_cached time_cache_init 5 None 64).1 in
  (format_sec_cached c 3661 None 64).2 = B "2026-07-31 01:01:01".
Proof.
  cbv zeta. rewrite (proj2 (time_cache_transparent _ 3661 None
     (proj1 (time_cache_transparent time_cache_init 5 None time_cache_init_ok
        ltac:(vm_compute; reflexivity))) ltac:(vm_compute; reflexivity))).
  vm_compute. reflexivity.
Defined.
