(* ===== verification/FmtJson.v ===== *)
(** * The single-line JSON renderer (core/formatter_json.c)

    [format_json_ex] and [append_json_kv] over the output cursor, a reference JSON
    printer and reader, and the proof that what the renderer returns reads back as
    the record's fields. *)
From S2P Require Import Prelude FastAscii Record FmtBuf FmtTime.
From Stdlib Require Import SpecFloat.

Local Open Scope Z_scope.

(** ** Straight-line rendering steps

    A step either goes on or makes the renderer return. *)

Inductive flow := Next | Return (ret : Z).

Definition step := obuf → obuf * flow.

(** [if (append_buf_str (...) != 0) return -1;] *)
Definition lit (s : cstr) : step := λ b,
  let '(b', r) := append_buf_str b s in (b', if r =? 0 then Next else Return (-1)).

(** [if (append_json_escaped_string (...) != 0)
       return json_close_object (buf, &out, &remaining, closer);] *)
Definition esc (s : option cstr) (closer : cstr) : step := λ b,
  let '(b', r) := append_json_escaped_string b s in
  if r =? 0 then (b', Next)
  else let '(b'', r') := json_close_object b' closer in (b'', Return r').

Definition skip : step := λ b, (b, Next).

Definition andthen (m k : step) : step := λ b,
  match m b with
  | (b', Next) => k b'
  | (b', Return r) => (b', Return r)
  end.

Declare Scope step_scope.
Delimit Scope step_scope with step.
Notation "m >>; k" := (andthen m k) (at level 60, right associativity) : step_scope.
Local Open Scope step_scope.

Section with_platform.
Context `{P : Platform}.

(** [append_json_kv]: 0, 1 when a quoted string was cut, -1 when the line must be
    dropped. *)
Definition append_json_kv (b : obuf) (kv : clog_kv_t) : obuf * Z :=
  match kv_key kv with
  | None => (b, 0)
  | Some key =>
      let '(b, r) := append_buf_str b (J ",'") in
      if negb (r =? 0) then (b, -1) else
      let '(b, r) := append_json_escaped_string b (Some key) in
      if negb (r =? 0) then (b, 1) else
      let '(b, r) := append_buf_str b (J "':") in
      if negb (r =? 0) then (b, -1) else
      match kv_val kv with
      | CLOG_KV_TYPE_INT i => append_buf_i64 b i
      | CLOG_KV_TYPE_UINT u => append_buf_u64 b u
      | CLOG_KV_TYPE_FLOAT f => append_buf_str b (sprintf_g6 f)
      | CLOG_KV_TYPE_STR s =>
          let '(b, r) := append_buf_str b (J "'") in
          if negb (r =? 0) then (b, -1) else
          let '(b, r) := append_json_escaped_string b (Some (or_default s [])) in
          if negb (r =? 0) then (b, 1) else
          append_buf_str b (J "'")
      | CLOG_KV_TYPE_BOOL v => append_buf_str b (if v then B "true" else B "false")
      end
  end.

(** The loop over [record->kv]. *)
Fixpoint json_kvs (kvs : list clog_kv_t) (closer : cstr) : step :=
  match kvs with
  | [] => skip
  | kv :: kvs' => λ b,
      let '(b', r) := append_json_kv b kv in
      if r =? 1 then let '(b'', r') := json_close_object b' closer in (b'', Return r')
      else if negb (r =? 0) then (b', Return (-1))
      else json_kvs kvs' closer b'
  end.

Definition timestamp_sec (r : log_record_t) : Z := r_timestamp r / 1000000.
Definition timestamp_usec (r : log_record_t) : Z := u32 (r_timestamp r mod 1000000).

(** The body of [format_json_ex] after the timestamp was rendered. *)
Definition json_body (record : log_record_t) (time_buf : cstr) : step :=
  lit (J "{'timestamp':'") >>; lit time_buf >>; lit (B ".") >>;
  lit (clog_u32toa_pad6 (timestamp_usec record)) >>;
  lit (J "','level':'") >>; lit (level_to_string (r_level record)) >>;
  lit (J "','module':'") >>; esc (Some (or_default (r_module record) [])) (J "'}") >>;
  lit (J "','file':'") >>; esc (Some (or_default (r_file record) [])) (J "'}") >>;
  lit (J "','line':") >>; lit (clog_i32toa (r_line record)) >>; lit (J ",'func':'") >>;
  esc (Some (or_default (r_func record) [])) (J "'}") >>;
  lit (J "','thread':") >>; lit (clog_u32toa (r_tid record)) >>;
  lit (J ",'pid':") >>; lit (clog_u32toa (r_pid record)) >>; lit (J ",'tag':'") >>;
  esc (Some (or_default (r_tag record) [])) (J "'}") >>;
  (if is_zero_id (r_trace_id record) then skip
   else lit (J "','trace_id':'") >>; lit (trace_id_hex (r_trace_id record))) >>;
  (if is_zero_id (r_span_id record) then skip
   else lit (J "','span_id':'") >>; lit (span_id_hex (r_span_id record))) >>;
  lit (J "','message':'") >>; esc (Some (or_default (r_message record) [])) (J "'}") >>;
  lit (J "'") >>;
  json_kvs (r_kv record) (J "'}") >>;
  lit (B "}").

(** The renderer's result: the string in [buf] and the returned length or -1. *)
Definition finish (res : obuf * flow) : cstr * Z :=
  match res with
  | (b, Next) => (ob_data b, i32 (clen (ob_data b)))
  | (b, Return r) => (ob_data b, r)
  end.

Definition format_json_ex (c : clog_time_cache_t) (record : log_record_t) (buf_size : Z)
    (time_format : option cstr) : clog_time_cache_t * (cstr * Z) :=
  let '(c', time_buf) := format_sec_cached c (timestamp_sec record) time_format 64 in
  (c', finish (json_body record time_buf (ob_init buf_size))).

End with_platform.

(** ** Reference JSON: flat objects of strings and tokens *)

(** A token is a number, [true] or [false]. *)
Inductive jval := JStr (s : cstr) | JTok (t : cstr).

Definition json_val (v : jval) : cstr :=
  match v with JStr s => 34 :: json_escape s ++ [34] | JTok t => t end.

Definition json_field (kv : cstr * jval) : cstr :=
  34 :: json_escape kv.1 ++ [34; 58] ++ json_val kv.2.

Fixpoint json_fields (fs : list (cstr * jval)) : cstr :=
  match fs with
  | [] => []
  | [f] => json_field f
  | f :: fs' => json_field f ++ 44 :: json_fields fs'
  end.

Definition json_object (fs : list (cstr * jval)) : cstr := 123 :: json_fields fs ++ [125].

Fixpoint span (f : Z → bool) (s : cstr) : cstr * cstr :=
  match s with
  | c :: s' => if f c then let '(a, r) := span f s' in (c :: a, r) else ([], s)
  | [] => ([], [])
  end.

Definition is_digit (c : Z) : bool := (48 <=? c) && (c <=? 57).
Definition token_char (c : Z) : bool :=
  is_digit c || ((97 <=? c) && (c <=? 122)) || ((65 <=? c) && (c <=? 90)) ||
  (c =? 43) || (c =? 45) || (c =? 46).

(** The number grammar of RFC 8259: an integer part without leading zeros, an
    optional fraction, an optional exponent. *)
Definition exp_part_ok (s : cstr) : bool :=
  match s with
  | [] => true
  | e :: s1 =>
      ((e =? 101) || (e =? 69)) &&
      let s2 := match s1 with c :: s' => if (c =? 43) || (c =? 45) then s' else s1 | [] => s1 end in
      let '(d, r) := span is_digit s2 in
      negb (bool_decide (d = [])) && bool_decide (r = [])
  end.

Definition frac_exp_ok (s : cstr) : bool :=
  match s with
  | c :: s1 =>
      if c =? 46 then
        let '(d, r) := span is_digit s1 in negb (bool_decide (d = [])) && exp_part_ok r
      else exp_part_ok s
  | [] => true
  end.

Definition json_number_ok (t : cstr) : bool :=
  let t := match t with c :: t' => if c =? 45 then t' else t | [] => t end in
  let '(d, r) := span is_digit t in
  match d with
  | [] => false
  | [_] => frac_exp_ok r
  | c :: _ => negb (c =? 48) && frac_exp_ok r
  end.

Definition json_token_ok (t : cstr) : bool :=
  json_number_ok t || streq t (B "true") || streq t (B "false").

Definition json_read_value (s : cstr) : option (jval * cstr) :=
  match s with
  | c :: s' =>
      if c =? 34 then
        match json_read_string s' with Some (t, r) => Some (JStr t, r) | None => None end
      else let '(t, r) := span token_char s in
           if json_token_ok t then Some (JTok t, r) else None
  | [] => None
  end.

Fixpoint json_read_fields (fuel : nat) (s : cstr) : option (list (cstr * jval)) :=
  match fuel, s with
  | S fuel', q :: s1 =>
      if negb (q =? 34) then None else
      match json_read_string s1 with
      | Some (k, c :: s2) =>
          if negb (c =? 58) then None else
          match json_read_value s2 with
          | Some (v, d :: s3) =>
              if d =? 44 then
                match json_read_fields fuel' s3 with
                | Some fs => Some ((k, v) :: fs)
                | None => None
                end
              else if (d =? 125) && bool_decide (s3 = []) then Some [(k, v)]
              else None
          | _ => None
          end
      | _ => None
      end
  | _, _ => None
  end.

(** Read one flat JSON object; every field costs at least one byte, so the length
    of the text is fuel enough. *)
Definition json_read (s : cstr) : option (list (cstr * jval)) :=
  match s with
  | c :: s' => if c =? 123 then json_read_fields (length s') s' else None
  | [] => None
  end.

(** ** The renderer as a program of literals and escaped strings *)

Inductive item := Lit (s : cstr) | Esc (s closer : cstr).

Fixpoint run (p : list item) : step :=
  match p with
  | [] => skip
  | Lit s :: p' => lit s >>; run p'
  | Esc s c :: p' => esc (Some s) c >>; run p'
  end.

(** The text a program stands for when nothing is cut. *)
Definition item_out (i : item) : cstr :=
  match i with Lit s => s | Esc s _ => json_escape s end.
Definition out (p : list item) : cstr := mbind item_out p.

(** The same program with some of its strings cut short. *)
Inductive cut_item : item → item → Prop :=
  | cut_lit s : cut_item (Lit s) (Lit s)
  | cut_esc s q c : q `prefix_of` s → cut_item (Esc s c) (Esc q c).

(** Equality of steps is pointwise. *)
Definition steq : relation step := pointwise_relation obuf eq.

#[export] Instance steq_equiv : Equivalence steq.
Proof. unfold steq. apply _. Qed.

#[export] Instance andthen_proper : Proper (steq ==> steq ==> steq) andthen.
Proof.
  intros m1 m2 Hm k1 k2 Hk b. unfold andthen. rewrite (Hm b).
  destruct (m2 b) as [b' [|r]]; [apply Hk|done].
Qed.

Lemma andthen_assoc m1 m2 m3 : steq ((m1 >>; m2) >>; m3) (m1 >>; m2 >>; m3).
Proof. intros b. unfold andthen. by destruct (m1 b) as [b' [|r]]. Qed.

Lemma skip_l m : steq (skip >>; m) m.
Proof. done. Qed.

Lemma run_app p q : steq (run (p ++ q)) (run p >>; run q).
Proof.
  induction p as [|[s|s c] p IH]; simpl.
  - by rewrite skip_l.
  - by rewrite andthen_assoc, IH.
  - by rewrite andthen_assoc, IH.
Qed.

Lemma out_app p q : out (p ++ q) = out p ++ out q.
Proof. apply bind_app. Qed.
Lemma out_cons i p : out (i :: p) = item_out i ++ out p.
Proof. done. Qed.

(** With room for its text, a program runs to its end. *)
Lemma run_full n p b :
  ob_ok n b → clen (out p) < ob_rem b →
  ∃ b', run p b = (b', Next) ∧ ob_ok n b' ∧ ob_data b' = ob_data b ++ out p.
Proof.
  revert b. induction p as [|i p IH]; intros b Hb Hlen.
  { exists b. by rewrite app_nil_r. }
  rewrite out_cons in *. autorewrite with clen in Hlen.
  pose proof (clen_nonneg (out p)).
  assert (∃ b1, run (i :: p) b = run p b1 ∧ ob_ok n b1 ∧
    ob_data b1 = ob_data b ++ item_out i) as (b1 & -> & Hb1 & Hd1).
  { destruct i as [s|s c]; simpl in *.
    - exists (ob_push b s). unfold andthen, lit, append_buf_str. rewrite Z.geb_leb.
      destruct (Z.leb_spec (ob_rem b) (clen s)); [lia|]. simpl.
      split_and!; [done|apply ob_ok_push; [done|lia]|done].
    - destruct (json_escape_loop_full n b s Hb ltac:(lia)) as (b1 & Hl & Hb1 & Hd1).
      exists b1. unfold andthen, esc, append_json_escaped_string. simpl. by rewrite Hl. }
  destruct (IH b1 Hb1) as (b' & Hr & Hb' & Hd').
  { destruct Hb as (?&?&?), Hb1 as (?&?&?). rewrite Hd1 in *. clia. }
  exists b'. rewrite Hd', Hd1, <- app_assoc. done.
Qed.

(** Whatever the buffer, a program that runs to its end has written its text with
    some strings cut, and one that stops has closed the object after a cut string
    or gives up. *)
Definition run_post (p : list item) (d : cstr) (b' : obuf) (f : flow) : Prop :=
  match f with
  | Next => ∃ p', Forall2 cut_item p p' ∧ ob_data b' = d ++ out p'
  | Return r =>
      r = -1 ∨
      ∃ p1 p1' s q c p2, p = p1 ++ Esc s c :: p2 ∧ Forall2 cut_item p1 p1' ∧
        q `prefix_of` s ∧ ob_data b' = d ++ out p1' ++ json_escape q ++ c ∧
        r = i32 (clen (ob_data b'))
  end.

Lemma run_post_cons i i' p d b' f :
  cut_item i i' → run_post p (d ++ item_out i') b' f → run_post (i :: p) d b' f.
Proof.
  intros Hi. destruct f as [|r]; simpl.
  - intros (p' & Hp & Hd). exists (i' :: p'). rewrite Hd, out_cons, <- app_assoc. auto.
  - intros [Hr|(p1 & p1' & s & q & c & p2 & -> & Hp & Hq & Hd & Hr)]; [by left|right].
    exists (i :: p1), (i' :: p1'), s, q, c, p2.
    rewrite Hd, out_cons in *. repeat rewrite <- app_assoc in *. auto 10.
Qed.

Lemma run_general n p b :
  ob_ok n b → let '(b', f) := run p b in ob_ok n b' ∧ run_post p (ob_data b) b' f.
Proof.
  revert b. induction p as [|[s|s c] p IH]; intros b Hb; simpl.
  - split; [done|]. exists []. by rewrite app_nil_r.
  - unfold andthen, lit. destruct (append_buf_str b s) as [b1 r] eqn:E.
    destruct (append_buf_str_ok n b s b1 r Hb E) as [Hb1 [[-> Hd]|[-> _]]]; simpl; [|auto].
    specialize (IH b1 Hb1). destruct (run p b1) as [b' f]. destruct IH as [? IH].
    rewrite Hd in IH. split; [done|]. eapply (run_post_cons _ (Lit s)), IH. constructor.
  - unfold andthen, esc, append_json_escaped_string. simpl.
    pose proof (json_escape_loop_prefix n b s Hb) as H.
    destruct (json_escape_loop b s) as [b1 rest].
    destruct H as (Hb1 & q & q' & -> & Hd & _).
    destruct rest as [|? ?]; simpl.
    + specialize (IH b1 Hb1). destruct (run p b1) as [b' f]. destruct IH as [? IH].
      rewrite Hd in IH. split; [done|]. eapply (run_post_cons _ (Esc q c)), IH.
      constructor. by exists q'.
    + unfold json_close_object. zcases; simpl; [by auto|].
      split; [apply ob_ok_push; [done|lia]|]. right.
      exists [], [], (q ++ q'), q, c, p. rewrite Hd, <- app_assoc.
      split_and!; [done|done|by exists q'|done|done].
Qed.

(** ** Reading printed objects back *)

Lemma span_app f t r :
  Forall (λ c, f c = true) t → (∀ c r', r = c :: r' → f c = false) →
  span f (t ++ r) = (t, r).
Proof.
  intros Ht Hr. induction Ht as [|c t Hc Ht IH]; simpl.
  - destruct r as [|c r]; [done|]. simpl. by rewrite (Hr c r).
  - by rewrite Hc, IH.
Qed.

Definition val_ok (v : jval) : Prop :=
  match v with
  | JStr s => Forall is_byte s
  | JTok t => json_token_ok t = true ∧ Forall (λ c, token_char c = true) t ∧ t ≠ []
  end.
Definition field_ok (kv : cstr * jval) : Prop := Forall is_byte kv.1 ∧ val_ok kv.2.

Lemma json_read_value_print v d r :
  val_ok v → token_char d = false → json_read_value (json_val v ++ d :: r) = Some (v, d :: r).
Proof.
  destruct v as [s|t]; simpl.
  - intros Hs _. rewrite <- app_assoc. simpl. by rewrite json_read_escape.
  - intros (Hok & Ht & Hne) Hd. destruct t as [|c t]; [done|]. unfold json_read_value.
    rewrite (span_app _ (c :: t)); [|done|by intros ?? [= <- _]].
    simpl. rewrite Hok. apply Forall_cons in Ht as [Hc _].
    destruct (Z.eqb_spec c 34) as [->|]; [done|done].
Qed.

Lemma json_read_fields_print fuel fs :
  fs ≠ [] → (length fs ≤ fuel)%nat → Forall field_ok fs →
  json_read_fields fuel (json_fields fs ++ [125]) = Some fs.
Proof.
  revert fuel. induction fs as [|[k v] fs IH]; intros fuel Hne Hfuel Hok; [done|].
  apply Forall_cons in Hok as [[Hk Hv] Hfs]. simpl in Hk, Hv.
  destruct fuel as [|fuel]; [simpl in Hfuel; lia|].
  destruct fs as [|f fs].
  - simpl. rewrite <- !app_assoc. simpl. rewrite json_read_escape by done. simpl.
    by rewrite json_read_value_print by done.
  - assert (json_fields ((k, v) :: f :: fs) ++ [125] =
      34 :: json_escape k ++ 34 :: 58 :: json_val v ++ 44 :: json_fields (f :: fs) ++ [125]) as ->.
    { cbn [json_fields]. unfold json_field. cbn [fst snd app]. by rewrite <- !app_assoc. }
    cbn [json_read_fields]. simpl negb. cbv iota. rewrite json_read_escape by done.
    simpl negb. cbv iota. rewrite json_read_value_print by done.
    simpl (44 =? 44). cbv iota. rewrite IH; [done|done|simpl in *; lia|done].
Qed.

Lemma json_fields_length fs : (length fs ≤ length (json_fields fs) + 1)%nat.
Proof.
  induction fs as [|f [|g fs] IH]; [simpl; lia|simpl; lia|].
  change (json_fields (f :: g :: fs)) with (json_field f ++ 44 :: json_fields (g :: fs)).
  rewrite length_app, !length_cons in *. lia.
Qed.

Lemma json_read_object fs :
  fs ≠ [] → Forall field_ok fs → json_read (json_object fs) = Some fs.
Proof.
  intros Hne Hok. unfold json_read, json_object. simpl (123 =? 123). cbv iota.
  apply json_read_fields_print; [done| |done].
  rewrite length_app. pose proof (json_fields_length fs). simpl. lia.
Qed.

(** ** Plain text escapes to itself; integers are JSON numbers *)

Definition plain (c : Z) : Prop := 32 <= c < 256 ∧ c ≠ 34 ∧ c ≠ 92.

#[export] Instance plain_dec c : Decision (plain c).
Proof. unfold plain. apply _. Defined.

Lemma json_escape_plain s : Forall plain s → json_escape s = s.
Proof.
  induction 1 as [|c s (?&?&?) Hs IH]; [done|]. rewrite json_escape_cons, IH.
  unfold json_esc1. by zcases; try lia.
Qed.

Lemma plain_byte c : plain c → is_byte c.
Proof. unfold plain, is_byte. lia. Qed.

Lemma Forall_plain_byte s : Forall plain s → Forall is_byte s.
Proof. intros. eapply Forall_impl; [done|]. apply plain_byte. Qed.

Lemma dec_pad_digits n v : Forall (λ c, 48 <= c <= 57) (dec_pad n v).
Proof.
  revert v. induction n; intros v; simpl; [done|]. apply Forall_app. split; [done|].
  pose proof (Z.mod_pos_bound v 10). repeat constructor; lia.
Qed.

Lemma digits_plain s : Forall (λ c, 48 <= c <= 57) s → Forall plain s.
Proof. intros H. eapply Forall_impl; [done|]. unfold plain. lia. Qed.

Lemma level_plain l : Forall plain (level_to_string l).
Proof.
  unfold level_to_string. repeat case_match; apply (bool_decide_unpack _); vm_compute; done.
Qed.

Lemma hex_plain ids : Forall is_byte ids → Forall plain (mbind hex_byte ids).
Proof.
  induction 1 as [|c ids Hc Hids IH]; [done|]. rewrite bind_cons. apply Forall_app. split; [|done].
  assert (∀ d, 0 <= d < 16 → plain (g_hex_lut !!! Z.to_nat d)) as H.
  { intros d Hd. assert (Forall (λ n : nat, 48 <= g_hex_lut !!! n <= 57 ∨ 97 <= g_hex_lut !!! n <= 102) (seq 0 16)) as Hall.
    { apply (bool_decide_unpack _). vm_compute. done. }
    rewrite Forall_forall in Hall. specialize (Hall (Z.to_nat d) ltac:(apply elem_of_seq; lia)).
    unfold plain. lia. }
  destruct Hc. unfold hex_byte. rewrite land15, Z.shiftr_div_pow2 by lia.
  rewrite !Forall_cons. split_and!; [apply H..|done].
  - split; [apply Z.div_pos; lia | apply Z.div_lt_upper_bound; lia].
  - apply Z.mod_pos_bound; lia.
Qed.

Lemma dec_go_head f v : 1 <= v < 10 ^ Z.of_nat f → ∃ c s, dec_go f v = c :: s ∧ c ≠ 48.
Proof.
  revert v. induction f as [|f IH]; intros v Hv; [change (10 ^ _) with 1 in Hv; lia|].
  rewrite dec_go_S. zcases; [exists (48 + v), []; split; [done|lia]|].
  destruct (IH (v / 10)) as (c & s & -> & ?); [|by exists c, (s ++ [48 + v mod 10])].
  split; [apply Z.div_le_lower_bound; lia|]. apply Z.div_lt_upper_bound; [lia|].
  rewrite Nat2Z.inj_succ, Z.pow_succ_r in Hv by lia. lia.
Qed.

Lemma is_digit_true c : 48 <= c <= 57 → is_digit c = true.
Proof. intros. apply andb_true_iff. lia. Qed.

Lemma digits_token s : Forall (λ c, 48 <= c <= 57) s → Forall (λ c, token_char c = true) s.
Proof.
  intros H. eapply Forall_impl; [done|]. intros c Hc. unfold token_char.
  by rewrite is_digit_true.
Qed.

Lemma json_number_dec v : is_u64 v → json_number_ok (dec v) = true.
Proof.
  intros [Hv0 Hv1]. unfold json_number_ok.
  pose proof (dec_digits v Hv0) as Hd.
  assert (span is_digit (dec v) = (dec v, [])) as Hspan.
  { rewrite <- (app_nil_r (dec v)) at 1. apply span_app; [|done].
    eapply Forall_impl; [done|]. apply is_digit_true. }
  destruct (decide (v = 0)) as [->|]; [reflexivity|].
  destruct (dec_go_head 20 v) as (c & s & Hc & Hne); [split; [lia|]; by eapply Z.lt_trans|].
  fold (dec v) in Hc. rewrite Hc in *. apply Forall_cons in Hd as [Hc' _].
  destruct (Z.eqb_spec c 45); [lia|]. rewrite Hspan.
  destruct s; [done|]. destruct (Z.eqb_spec c 48); [done|done].
Qed.

Lemma tok_dec v : is_u64 v → val_ok (JTok (dec v)).
Proof.
  intros Hv. simpl. split_and!.
  - unfold json_token_ok. by rewrite json_number_dec.
  - destruct Hv. by apply digits_token, dec_digits.
  - pose proof (dec_length v). by destruct (dec v); [simpl in *; lia|].
Qed.

Lemma tok_sdec v : is_i64 v → val_ok (JTok (sdec v)).
Proof.
  intros [??]. unfold sdec. zcases; [|apply tok_dec; split; lia].
  assert (is_u64 (- v)) as Hu by (split; lia).
  destruct (tok_dec (- v) Hu) as (_ & Ht & Hne). simpl. split_and!; [|by constructor|done].
  unfold json_token_ok. apply orb_true_iff. left. apply orb_true_iff. left.
  pose proof (json_number_dec (- v) Hu) as Hn. unfold json_number_ok in *.
  pose proof (dec_digits (- v) ltac:(lia)) as Hd.
  destruct (dec (- v)) as [|c s]; [done|]. apply Forall_cons in Hd as [Hc _].
  destruct (Z.eqb_spec c 45); [lia|done].
Qed.

(** A number printed by ["%.6g"] is a JSON number. *)
Lemma span_digits d r : some_digits d → (∀ c r', r = c :: r' → is_digit c = false) → span is_digit (d ++ r) = (d, r).
Proof. intros [Hd _] Hr. apply span_app; [|done]. eapply Forall_impl; [done|]. apply is_digit_true. Qed.

Lemma frac_exp_g frac ex :
  (frac = [] ∨ ∃ d, frac = 46 :: d ∧ some_digits d) →
  (ex = [] ∨ ∃ s d, ex = 101 :: s :: d ∧ (s = 43 ∨ s = 45) ∧ some_digits d) → frac_exp_ok (frac ++ ex) = true.
Proof.
  intros Hf He. unfold frac_exp_ok. assert (exp_part_ok ex = true) as Hex.
  { destruct He as [->|(s & d & -> & Hs & Hd)]; [done|]. unfold exp_part_ok.
    assert ((s =? 43) || (s =? 45) = true) as -> by (by destruct Hs as [->| ->]). cbn [orb andb Z.eqb].
    pose proof (span_digits d [] Hd ltac:(done)) as HS. rewrite app_nil_r in HS. rewrite HS. destruct Hd as [_ Hd].
    by rewrite bool_decide_false. }
  destruct Hf as [->|(d & -> & Hd)]; cbn [app].
  - destruct ex as [|c ex']; [done|]. destruct He as [|(s & d & [= -> ->] & _)]; [done|]. exact Hex.
  - cbn [Z.eqb]. change (46 =? 46) with true. cbv iota. rewrite (span_digits d ex Hd).
    + destruct Hd as [_ Hd]. by rewrite bool_decide_false, Hex.
    + intros c r' ->. by destruct He as [|(s & d' & [= -> _] & _)].
Qed.

Lemma g_number_token t : g_number t → val_ok (JTok t).
Proof.
  intros (sign & ip & frac & ex & -> & Hs & Hip & Hf & He). assert (is_u64 ip) as Hu by (split; lia).
  destruct (tok_dec ip Hu) as (_ & Ht & Hne). pose proof (dec_digits ip ltac:(lia)) as Hd.
  pose proof (frac_exp_g frac ex Hf He) as Hfe.
  assert (Forall (λ c, token_char c = true) (frac ++ ex)) as Hfx.
  { apply Forall_app. split.
    - destruct Hf as [->|(d & -> & [? _])]; [done|]. constructor; [done|by apply digits_token].
    - destruct He as [->|(s & d & -> & Hsd & [? _])]; [done|]. constructor; [done|].
      constructor; [by destruct Hsd as [->| ->]|by apply digits_token]. }
  split_and!.
  - unfold json_token_ok. apply orb_true_iff. left. apply orb_true_iff. left. unfold json_number_ok.
    assert (span is_digit (dec ip ++ frac ++ ex) = (dec ip, frac ++ ex)) as Hspan.
    { apply span_digits; [by split|]. intros c r' E. destruct Hf as [->|(d & -> & _)]; [|by injection E as <- _].
      destruct He as [->|(s & d & -> & _)]; [done|by injection E as <- _]. }
    assert (match dec ip ++ frac ++ ex with c :: t' => if c =? 45 then t' else dec ip ++ frac ++ ex | [] => dec ip ++ frac ++ ex end =
      dec ip ++ frac ++ ex) as Hstrip.
    { destruct (dec ip) as [|c s]; [done|]. cbn [app]. apply Forall_cons in Hd as [Hc _]. by destruct (Z.eqb_spec c 45); [lia|]. }
    pose proof (json_number_dec ip Hu) as Hn. unfold json_number_ok in Hn.
    assert (match sign ++ dec ip ++ frac ++ ex with c :: t' => if c =? 45 then t' else sign ++ dec ip ++ frac ++ ex
      | [] => sign ++ dec ip ++ frac ++ ex end = dec ip ++ frac ++ ex) as ->
      by (destruct Hs as [->| ->]; [exact Hstrip|done]).
    rewrite Hspan. destruct (dec ip) as [|c [|c' s]] eqn:Ed; [done|done|]. rewrite Hfe, andb_true_r.
    assert (span is_digit (c :: c' :: s) = (c :: c' :: s, [])) as HS2.
    { rewrite <- (app_nil_r (c :: c' :: s)) at 1. apply span_digits; [by split|done]. }
    apply Forall_cons in Hd as [Hc _]. destruct (Z.eqb_spec c 45); [lia|]. rewrite HS2 in Hn.
    by apply andb_true_iff in Hn as [Hn _].
  - rewrite Forall_app, Forall_app. split_and!; [|done|done]. destruct Hs as [->| ->]; [done|by apply Forall_singleton].
  - destruct Hs as [->| ->]; [|done]. by destruct (dec ip).
Qed.

(** ** The renderer is the program of the record's fields *)

Section renderer.
Context `{P : Platform}.

Definition kv_items (closer : cstr) (kv : clog_kv_t) : list item :=
  match kv_key kv with
  | None => []
  | Some key =>
      [Lit (J ",'"); Esc key closer; Lit (J "':")] ++
      match kv_val kv with
      | CLOG_KV_TYPE_INT i => [Lit (clog_i64toa i)]
      | CLOG_KV_TYPE_UINT u => [Lit (clog_u64toa u)]
      | CLOG_KV_TYPE_FLOAT f => [Lit (sprintf_g6 f)]
      | CLOG_KV_TYPE_STR s => [Lit (J "'"); Esc (or_default s []) closer; Lit (J "'")]
      | CLOG_KV_TYPE_BOOL v => [Lit (if v then B "true" else B "false")]
      end
  end.

Lemma append_buf_str_ret b s : ∃ b' r, append_buf_str b s = (b', r) ∧ (r = 0 ∨ r = -1).
Proof. unfold append_buf_str. zcases; eauto. Qed.

Lemma append_json_escaped_ret b s :
  ∃ b' r, append_json_escaped_string b s = (b', r) ∧ (r = 0 ∨ r = -1).
Proof.
  unfold append_json_escaped_string. destruct (json_escape_loop _ _) as [b' [|]]; eauto.
Qed.

(** Case on the result of the next append, in the order the code makes them. *)
Ltac step_cases :=
  repeat match goal with
  | |- context [append_buf_str ?b ?s] =>
      destruct (append_buf_str_ret b s) as (? & ? & -> & [->| ->]); simpl; try reflexivity
  | |- context [append_json_escaped_string ?b ?s] =>
      destruct (append_json_escaped_ret b s) as (? & ? & -> & [->| ->]); simpl; try reflexivity
  | |- context [json_close_object ?b ?c] =>
      destruct (json_close_object b c); simpl; try reflexivity
  end.

Lemma json_kvs_run kvs closer :
  steq (json_kvs kvs closer) (run (mbind (kv_items closer) kvs)).
Proof.
  induction kvs as [|kv kvs IH]; [done|]. rewrite bind_cons, run_app, <- IH.
  clear IH. intros b. cbn [json_kvs]. unfold append_json_kv, kv_items.
  destruct (kv_key kv) as [key|]; [|done].
  unfold append_buf_i64, append_buf_u64.
  destruct (kv_val kv) as [i|u|f|s|v]; cbn [run app];
    unfold andthen, lit, esc, skip; step_cases.
Qed.

Definition json_items (record : log_record_t) (time_buf : cstr) : list item :=
  [Lit (J "{'timestamp':'"); Lit time_buf; Lit (B ".");
   Lit (clog_u32toa_pad6 (timestamp_usec record));
   Lit (J "','level':'"); Lit (level_to_string (r_level record));
   Lit (J "','module':'"); Esc (or_default (r_module record) []) (J "'}");
   Lit (J "','file':'"); Esc (or_default (r_file record) []) (J "'}");
   Lit (J "','line':"); Lit (clog_i32toa (r_line record)); Lit (J ",'func':'");
   Esc (or_default (r_func record) []) (J "'}");
   Lit (J "','thread':"); Lit (clog_u32toa (r_tid record));
   Lit (J ",'pid':"); Lit (clog_u32toa (r_pid record)); Lit (J ",'tag':'");
   Esc (or_default (r_tag record) []) (J "'}")] ++
  (if is_zero_id (r_trace_id record) then []
   else [Lit (J "','trace_id':'"); Lit (trace_id_hex (r_trace_id record))]) ++
  (if is_zero_id (r_span_id record) then []
   else [Lit (J "','span_id':'"); Lit (span_id_hex (r_span_id record))]) ++
  [Lit (J "','message':'"); Esc (or_default (r_message record) []) (J "'}"); Lit (J "'")] ++
  mbind (kv_items (J "'}")) (r_kv record) ++
  [Lit (B "}")].

Lemma lit_run s m p : steq m (run p) → steq (lit s >>; m) (run (Lit s :: p)).
Proof. intros H. simpl. by rewrite H. Qed.
Lemma esc_run s c m p : steq m (run p) → steq (esc (Some s) c >>; m) (run (Esc s c :: p)).
Proof. intros H. simpl. by rewrite H. Qed.
Lemma seg_run m k p q : steq m (run p) → steq k (run q) → steq (m >>; k) (run (p ++ q)).
Proof. intros Hm Hk. by rewrite run_app, Hm, Hk. Qed.
Lemma lit_run_last s : steq (lit s) (run [Lit s]).
Proof. intros b. simpl. unfold andthen, skip. by destruct (lit s b) as [b' [|r]]. Qed.
Lemma skip_run : steq skip (run []).
Proof. done. Qed.

End renderer.

(** Match a renderer with its program, step by step. *)
Ltac match_steps :=
  repeat first [apply lit_run_last | apply lit_run | apply esc_run | apply json_kvs_run | apply skip_run].

Section renderer.
Context `{P : Platform}.

Lemma json_body_run record time_buf :
  steq (json_body record time_buf) (run (json_items record time_buf)).
Proof.
  unfold json_body, json_items. cbn [app]. match_steps.
  apply seg_run; [case_match; match_steps|]. apply seg_run; [case_match; match_steps|].
  match_steps. apply seg_run; match_steps.
Qed.

(** The fields of a record, as JSON. *)
Definition kv_field (kv : clog_kv_t) : list (cstr * jval) :=
  match kv_key kv with
  | None => []
  | Some key =>
      [(key, match kv_val kv with
             | CLOG_KV_TYPE_INT i => JTok (sdec i)
             | CLOG_KV_TYPE_UINT u => JTok (dec u)
             | CLOG_KV_TYPE_FLOAT f => JTok (sprintf_g6 f)
             | CLOG_KV_TYPE_STR s => JStr (or_default s [])
             | CLOG_KV_TYPE_BOOL v => JTok (if v then B "true" else B "false")
             end)]
  end.

Definition id_field (name : string) (id : list Z) : list (cstr * jval) :=
  if is_zero_id id then [] else [(B name, JStr (mbind hex_byte id))].

Definition record_fields (record : log_record_t) (time : cstr) : list (cstr * jval) :=
  [(B "timestamp", JStr (time ++ B "." ++ dec_pad 6 (r_timestamp record mod 1000000)));
   (B "level", JStr (level_to_string (r_level record)));
   (B "module", JStr (or_default (r_module record) []));
   (B "file", JStr (or_default (r_file record) []));
   (B "line", JTok (sdec (r_line record)));
   (B "func", JStr (or_default (r_func record) []));
   (B "thread", JTok (dec (r_tid record)));
   (B "pid", JTok (dec (r_pid record)));
   (B "tag", JStr (or_default (r_tag record) []))] ++
  id_field "trace_id" (r_trace_id record) ++
  id_field "span_id" (r_span_id record) ++
  [(B "message", JStr (or_default (r_message record) []))] ++
  mbind kv_field (r_kv record).

(** The ranges of the C types and the bytes of the C strings. *)
Definition str_ok (s : option cstr) : Prop := Forall is_byte (or_default s []).

Definition kv_ok (kv : clog_kv_t) : Prop :=
  str_ok (kv_key kv) ∧
  match kv_val kv with
  | CLOG_KV_TYPE_INT i => is_i64 i
  | CLOG_KV_TYPE_UINT u => is_u64 u
  | CLOG_KV_TYPE_FLOAT _ => True
  | CLOG_KV_TYPE_STR s => str_ok s
  | CLOG_KV_TYPE_BOOL _ => True
  end.

Definition record_ok (r : log_record_t) : Prop :=
  0 <= r_timestamp r ∧ str_ok (r_module r) ∧ str_ok (r_file r) ∧ str_ok (r_func r) ∧
  str_ok (r_tag r) ∧ str_ok (r_message r) ∧ is_i32 (r_line r) ∧ is_u32 (r_tid r) ∧
  is_u32 (r_pid r) ∧ Forall is_byte (r_trace_id r) ∧ Forall is_byte (r_span_id r) ∧
  Forall kv_ok (r_kv r).

(** JSON has no infinite numbers and no NaN. *)
Definition finite_floats (r : log_record_t) : Prop :=
  Forall (λ kv, match kv_val kv with CLOG_KV_TYPE_FLOAT f => finite f = true | _ => True end) (r_kv r).

Lemma json_fields_cons f fs :
  json_fields (f :: fs) = json_field f ++ mbind (λ g, 44 :: json_field g) fs.
Proof.
  revert f. induction fs as [|g fs IH]; intros f; [simpl; by rewrite app_nil_r|].
  change (json_fields (f :: g :: fs)) with (json_field f ++ 44 :: json_fields (g :: fs)).
  rewrite IH, bind_cons. done.
Qed.

Lemma out_kv_items closer kv :
  kv_ok kv → out (kv_items closer kv) = mbind (λ g, 44 :: json_field g) (kv_field kv).
Proof.
  intros [_ Hv]. unfold kv_items, kv_field. destruct (kv_key kv) as [key|]; [|done].
  unfold json_field, out. simpl. eval_lits.
  destruct (kv_val kv) as [i|u|f|s|v]; simpl; rewrite <- ?app_assoc; simpl;
    rewrite ?app_nil_r; [rewrite clog_i64toa_sdec by done|rewrite clog_u64toa_dec by done|..];
    rewrite <- ?app_assoc; done.
Qed.

Lemma out_kvs closer kvs :
  Forall kv_ok kvs →
  out (mbind (kv_items closer) kvs) = mbind (λ g, 44 :: json_field g) (mbind kv_field kvs).
Proof.
  induction 1 as [|kv kvs Hkv Hkvs IH]; [done|].
  by rewrite !bind_cons, out_app, bind_app, out_kv_items, IH.
Qed.

Lemma usec_range r : 0 <= r_timestamp r mod 1000000 < 1000000.
Proof. apply Z.mod_pos_bound. lia. Qed.

Lemma usec_text r : clog_u32toa_pad6 (timestamp_usec r) = dec_pad 6 (r_timestamp r mod 1000000).
Proof.
  pose proof (usec_range r). unfold timestamp_usec.
  rewrite u32_id by (split; lia). by apply pad6_spec.
Qed.

Lemma timestamp_plain r time :
  Forall plain time → Forall plain (time ++ B "." ++ dec_pad 6 (r_timestamp r mod 1000000)).
Proof.
  intros Ht. rewrite !Forall_app. split_and!; [done| |apply digits_plain, dec_pad_digits].
  apply (bool_decide_unpack _). vm_compute. done.
Qed.

Lemma out_id name id :
  Forall is_byte id → Forall plain (B name) →
  out (if is_zero_id id then [] else [Lit (J "','" ++ B name ++ J "':'"); Lit (mbind hex_byte id)]) ++ [34] =
  34 :: mbind (λ g, 44 :: json_field g) (id_field name id).
Proof.
  intros Hid Hn. unfold id_field. destruct (is_zero_id id); [done|].
  unfold out, json_field. simpl. eval_lits.
  rewrite (json_escape_plain (B name)), (json_escape_plain (_ ≫= _)) by auto using hex_plain.
  rewrite !app_nil_r. simpl. rewrite <- !app_assoc. done.
Qed.

Lemma out_json_items r time :
  record_ok r → Forall plain time →
  out (json_items r time) = json_object (record_fields r time).
Proof.
  intros (?&?&?&?&?&?&?&?&?&Ht&Hs&Hkv) Htime.
  unfold json_items, json_object, record_fields.
  pose proof (out_id "trace_id" _ Ht ltac:(apply (bool_decide_unpack _); vm_compute; done)) as Htr.
  pose proof (out_id "span_id" _ Hs ltac:(apply (bool_decide_unpack _); vm_compute; done)) as Hsp.
  rewrite !out_app, out_kvs by done. cbn [app]. rewrite json_fields_cons.
  repeat first [rewrite bind_cons | rewrite bind_app].
  rewrite usec_text, clog_i32toa_sdec, !clog_u32toa_dec by done.
  set (kvs := mbind _ (mbind kv_field _)).
  set (tr := out (if is_zero_id (r_trace_id r) then _ else _)) in *.
  set (sp := out (if is_zero_id (r_span_id r) then _ else _)) in *.
  set (tr' := mbind _ (id_field _ (r_trace_id r))) in *.
  set (sp' := mbind _ (id_field _ (r_span_id r))) in *.
  unfold json_field, out. cbn [mbind list_bind item_out fst snd json_val].
  rewrite (json_escape_plain _ (timestamp_plain r time Htime)).
  rewrite (json_escape_plain _ (level_plain _)).
  eval_lits. rewrite ?app_nil_r.
  assert (∀ X, tr ++ sp ++ 34 :: X = 34 :: tr' ++ sp' ++ X) as Hid.
  { intros X. change (34 :: X) with ([34] ++ X).
    rewrite (app_assoc sp [34] X), Hsp. change ((34 :: sp') ++ X) with ([34] ++ (sp' ++ X)).
    by rewrite (app_assoc tr [34]), Htr. }
  clearbody tr sp tr' sp' kvs.
  repeat (progress (cbn [app]; rewrite <- ?app_assoc)). rewrite Hid.
  repeat (progress (cbn [app]; rewrite <- ?app_assoc)). done.
Qed.

Lemma id_field_ok name id :
  Forall is_byte (B name) → Forall is_byte id → Forall field_ok (id_field name id).
Proof.
  intros Hn Hid. unfold id_field. case_match; [done|]. constructor; [|done].
  split; [done|]. by apply Forall_plain_byte, hex_plain.
Qed.

Lemma kv_field_ok `{!PlatformOk P} kv :
  kv_ok kv → match kv_val kv with CLOG_KV_TYPE_FLOAT f => finite f = true | _ => True end → Forall field_ok (kv_field kv).
Proof.
  intros [Hk Hv] Hfin. unfold kv_field. destruct (kv_key kv) as [key|]; [|done].
  constructor; [|done]. split; [done|]. cbn [snd].
  destruct (kv_val kv) as [i|u|f|s|[]]; [by apply tok_sdec|by apply tok_dec|by apply g_number_token, sprintf_g6_number|done|..];
    (split_and!; [done| |done]; apply (bool_decide_unpack _); vm_compute; done).
Qed.

Lemma kv_fields_ok `{!PlatformOk P} r : Forall kv_ok (r_kv r) → finite_floats r → Forall field_ok (mbind kv_field (r_kv r)).
Proof.
  unfold finite_floats. induction (r_kv r) as [|kv kvs IH]; [done|]. rewrite !Forall_cons. intros [Hkv Hkvs] [Hf Hfs].
  rewrite bind_cons. apply Forall_app. split; [by apply kv_field_ok|by apply IH].
Qed.

Lemma lit_bytes (s : cstr) : bool_decide (Forall plain s) = true → Forall is_byte s.
Proof. intros H%bool_decide_eq_true. by apply Forall_plain_byte. Qed.

Lemma str_field_ok (k s : cstr) :
  bool_decide (Forall plain k) = true → Forall is_byte s → field_ok (k, JStr s).
Proof. intros. split; [by apply lit_bytes|done]. Qed.

Lemma tok_field_ok (k t : cstr) :
  bool_decide (Forall plain k) = true → val_ok (JTok t) → field_ok (k, JTok t).
Proof. intros. split; [by apply lit_bytes|done]. Qed.

Lemma record_fields_ok `{!PlatformOk P} r time :
  record_ok r → finite_floats r → Forall plain time → Forall field_ok (record_fields r time).
Proof.
  intros (?&?&?&?&?&?&[]&[]&[]&?&?&?) Hfin Ht. unfold record_fields.
  rewrite !Forall_app. split_and!.
  - rewrite !Forall_cons.
    split_and!; [apply str_field_ok|apply str_field_ok|apply str_field_ok|apply str_field_ok
      |apply tok_field_ok|apply str_field_ok|apply tok_field_ok|apply tok_field_ok
      |apply str_field_ok|apply Forall_nil_2];
      try match goal with |- bool_decide _ = _ => vm_compute; reflexivity end; try assumption;
      [apply Forall_plain_byte, timestamp_plain, Ht|apply Forall_plain_byte, level_plain
      |apply tok_sdec; split; lia|apply tok_dec; split; lia|apply tok_dec; split; lia].
  - apply id_field_ok; [apply lit_bytes; vm_compute; done|done].
  - apply id_field_ok; [apply lit_bytes; vm_compute; done|done].
  - rewrite Forall_singleton. split; [apply lit_bytes; vm_compute; done|done].
  - by apply kv_fields_ok.
Qed.

Lemma i32_len n b : ob_ok n b → n <= 2 ^ 31 → i32 (clen (ob_data b)) = clen (ob_data b).
Proof. intros (?&?&?) ?. apply i32_id. split; clia. Qed.

(** ** Cut records *)

(** [r] with its five escaped strings replaced. *)
Definition with_strings (r : log_record_t) (m f fn t msg : cstr) : log_record_t :=
  LogRecord (r_timestamp r) (Some f) (Some fn) (Some m) (Some t) (Some msg) (r_level r)
    (r_tid r) (r_pid r) (r_line r) (r_trace_id r) (r_span_id r) (r_kv r) (r_is_tombstone r).

(** [q] is a prefix of the string [s] stands for. *)
Definition cut_of (q : cstr) (s : option cstr) : Prop := q `prefix_of` or_default s [].

Definition cut_record (r r' : log_record_t) : Prop :=
  ∃ m f fn t msg, r' = with_strings r m f fn t msg ∧ cut_of m (r_module r) ∧
    cut_of f (r_file r) ∧ cut_of fn (r_func r) ∧ cut_of t (r_tag r) ∧ cut_of msg (r_message r).

Lemma cut_str_ok q s : cut_of q s → str_ok s → Forall is_byte q.
Proof. intros [t Ht]. unfold str_ok. rewrite Ht, Forall_app. tauto. Qed.

Lemma cut_record_ok r r' : cut_record r r' → record_ok r → record_ok r'.
Proof.
  intros (m&f&fn&t&msg&->&?&?&?&?&?) (?&?&?&?&?&?&?&?&?&?&?&?).
  unfold record_ok, str_ok. simpl. split_and!; eauto using cut_str_ok.
Qed.

Lemma cut_lits l p : Forall2 cut_item (map Lit l) p → p = map Lit l.
Proof.
  intros H. remember (map Lit l) as p0 eqn:E. revert l E.
  induction H as [|i i' p0 p' Hi Hp IH]; intros [|s l] [=]; [done|]. subst.
  simpl. rewrite (IH l) by done. by inversion Hi.
Qed.

Lemma cut_items r time p :
  r_kv r = [] → Forall2 cut_item (json_items r time) p →
  ∃ r', cut_record r r' ∧ p = json_items r' time.
Proof.
  intros Hkv H. unfold json_items in H. rewrite Hkv in H.
  apply Forall2_app_inv_l in H as (p1 & p2 & H1 & H2 & ->).
  apply Forall2_app_inv_l in H2 as (ptr & p3 & Htr & H3 & ->).
  apply Forall2_app_inv_l in H3 as (psp & p4 & Hsp & H4 & ->).
  assert (ptr = if is_zero_id (r_trace_id r) then []
   else [Lit (J "','trace_id':'"); Lit (trace_id_hex (r_trace_id r))]) as ->.
  { destruct (is_zero_id (r_trace_id r)); [by apply (cut_lits [])|by apply (cut_lits [_; _])]. }
  assert (psp = if is_zero_id (r_span_id r) then []
   else [Lit (J "','span_id':'"); Lit (span_id_hex (r_span_id r))]) as ->.
  { destruct (is_zero_id (r_span_id r)); [by apply (cut_lits [])|by apply (cut_lits [_; _])]. }
  repeat match goal with
  | H : Forall2 cut_item (_ :: _) _ |- _ =>
      let i := fresh "i" in let p := fresh "p" in let Hi := fresh "Hi" in
      apply Forall2_cons_inv_l in H as (i & p & Hi & H & ->); inversion Hi; subst; clear Hi
  | H : Forall2 cut_item (_ ++ _) _ |- _ => cbn [mbind list_bind app] in H
  | H : Forall2 cut_item [] _ |- _ => apply Forall2_nil_inv_l in H as ->
  end.
  eexists. split.
  - eexists _, _, _, _, _. split; [reflexivity|]. split_and!; eassumption.
  - unfold json_items. simpl. rewrite Hkv. done.
Qed.

(** Walk over the literals of a program. *)
Ltac cut_walk Hp p1 := repeat first
  [ progress cbn [app] in Hp
  | destruct p1 as [|? p1]; cbn [app] in Hp; [discriminate Hp|injection Hp as <- Hp]].

(** Stop at the next escaped string, with [k] fields written. *)
Ltac cut_here r time Ht Hp p1 k :=
  cut_walk Hp p1; destruct p1 as [|? p1]; cbn [app] in Hp;
  [injection Hp as Hq Hc _; subst; exists k; split; [lia|];
   unfold record_fields, json_object, json_field, out; cbn [app take]; rewrite ?take_0;
   unfold json_fields, json_field; cbn [mbind list_bind item_out app fst snd json_val];
   rewrite (json_escape_plain _ (timestamp_plain r time Ht)), (json_escape_plain _ (level_plain _));
   eval_lits; rewrite ?app_nil_r;
   repeat (progress (cbn [app]; rewrite <- ?app_assoc)); reflexivity
  |injection Hp as <- Hp].

(** The text up to an escaped string, closed there, is an object too. *)
Lemma out_json_cut r time p1 q c p2 :
  record_ok r → Forall plain time → r_kv r = [] →
  json_items r time = p1 ++ Esc q c :: p2 →
  ∃ k, (0 < k)%nat ∧ out (p1 ++ [Esc q c]) ++ c = json_object (take k (record_fields r time)).
Proof.
  intros Hr Ht Hkv Hp.
  assert (c = J "'}" ∧ p2 = [Lit (J "'"); Lit (B "}")] →
    ∃ k, (0 < k)%nat ∧ out (p1 ++ [Esc q c]) ++ c = json_object (take k (record_fields r time)))
    as Hmsg.
  { intros [Hc Hp2]. exists (S (length (record_fields r time))). split; [lia|].
    rewrite take_ge, <- out_json_items, Hp by (done || lia).
    change (Esc q c :: p2) with ([Esc q c] ++ p2). rewrite app_assoc, (out_app _ p2).
    by rewrite Hp2, Hc. }
  pose proof Hr as (?&?&?&?&?&?&?&?&?&_).
  unfold json_items in Hp. rewrite Hkv in Hp. cbn [app mbind list_bind] in Hp.
  rewrite usec_text, clog_i32toa_sdec, !clog_u32toa_dec in Hp by done.
  cut_here r time Ht Hp p1 3%nat. cut_here r time Ht Hp p1 4%nat.
  cut_here r time Ht Hp p1 6%nat. cut_here r time Ht Hp p1 9%nat.
  destruct (is_zero_id (r_trace_id r)), (is_zero_id (r_span_id r)); cut_walk Hp p1;
    (destruct p1 as [|? p1]; cbn [app] in Hp; [injection Hp as _ <- <-; by apply Hmsg|injection Hp as <- Hp]);
    cut_walk Hp p1; destruct p1; discriminate Hp.
Qed.

Lemma json_read_fields_ok fs k :
  Forall field_ok fs → fs ≠ [] → (0 < k)%nat → json_read (json_object (take k fs)) = Some (take k fs).
Proof.
  intros Hok Hne Hk. apply json_read_object; [|by apply Forall_take].
  destruct fs, k; [done|done|lia|done].
Qed.

Lemma format_json_full `{!PlatformOk P} c r tf buf_size :
  let time := render_sec (or_default tf default_time_format) (timestamp_sec r) in
  record_ok r → time_cache_ok c → clen (or_default tf default_time_format) < 64 →
  Forall plain time → clen (json_object (record_fields r time)) < buf_size <= 2 ^ 31 →
  let '(c', (s, ret)) := format_json_ex c r buf_size tf in
  time_cache_ok c' ∧ s = json_object (record_fields r time) ∧ ret = clen s.
Proof.
  intros time Hr Hc Hf Ht Hlen. unfold format_json_ex.
  destruct (format_sec_cached_render c (timestamp_sec r) tf Hc Hf) as [Hc' Ht'].
  destruct (format_sec_cached c _ tf 64) as [c' tb]. simpl in Hc', Ht'. subst tb. fold time.
  rewrite (json_body_run r time (ob_init buf_size)).
  pose proof (clen_nonneg (json_object (record_fields r time))).
  destruct (run_full buf_size (json_items r time) (ob_init buf_size)) as (b' & -> & Hb' & Hd);
    [apply ob_ok_init; lia|rewrite out_json_items by done; cbn [ob_rem ob_init]; lia|].
  unfold finish. rewrite (i32_len _ _ Hb') by lia. rewrite Hd, out_json_items by done. done.
Qed.

Lemma format_json_cut `{!PlatformOk P} c r tf buf_size :
  let time := render_sec (or_default tf default_time_format) (timestamp_sec r) in
  record_ok r → r_kv r = [] → time_cache_ok c → clen (or_default tf default_time_format) < 64 →
  Forall plain time → 1 <= buf_size <= 2 ^ 31 →
  let '(_, (s, ret)) := format_json_ex c r buf_size tf in
  clen s < buf_size ∧
  (ret = -1 ∨ ret = clen s ∧ ∃ r' k, cut_record r r' ∧
     json_read s = Some (take k (record_fields r' time))).
Proof.
  intros time Hr Hkv Hc Hf Ht Hlen. unfold format_json_ex.
  destruct (format_sec_cached_render c (timestamp_sec r) tf Hc Hf) as [_ Ht'].
  destruct (format_sec_cached c _ tf 64) as [c' tb]. simpl in Ht'. subst tb. fold time.
  rewrite (json_body_run r time (ob_init buf_size)).
  pose proof (run_general buf_size (json_items r time) (ob_init buf_size)
    (ob_ok_init buf_size ltac:(lia))) as H.
  destruct (run _ _) as [b' f]. destruct H as [Hb' H].
  assert (clen (ob_data b') < buf_size) by (destruct Hb' as (?&?&?); lia).
  pose proof (i32_len _ _ Hb' ltac:(lia)) as Hlen'.
  assert (∀ r' k, cut_record r r' → (0 < k)%nat →
    json_read (json_object (take k (record_fields r' time))) = Some (take k (record_fields r' time))) as Hread.
  { intros r' k Hcut Hk. apply json_read_fields_ok; [|done..].
    apply record_fields_ok; [by eapply cut_record_ok| |done].
    destruct Hcut as (?&?&?&?&?&->&_). unfold finite_floats. cbn. by rewrite Hkv. }
  destruct f as [|ret]; unfold run_post, finish in *; (split; [done|]).
  - right. split; [done|]. destruct H as (p' & Hp & Hd).
    apply cut_items in Hp as (r' & Hcut & ->); [|done].
    exists r', (S (length (record_fields r' time))). split; [done|].
    rewrite Hd, out_json_items by eauto using cut_record_ok.
    rewrite <- (Hread r') by (done || lia). by rewrite take_ge by lia.
  - destruct H as [->|(p1 & p1' & s & q & cl & p2 & Hp & Hp1 & Hq & Hd & ->)]; [by left|right].
    split; [done|].
    assert (Forall2 cut_item (json_items r time) (p1' ++ Esc q cl :: p2)) as Hcut.
    { rewrite Hp. apply Forall2_app; [done|]. constructor; [by constructor|].
      clear. induction p2 as [|[]]; repeat constructor; done. }
    apply cut_items in Hcut as (r' & Hcut & Hitems); [|done].
    destruct (out_json_cut r' time p1' q cl p2) as (k & Hk & Hout);
      [by eapply cut_record_ok|done|by destruct Hcut as (?&?&?&?&?&->&_)|done|].
    exists r', k. split; [done|]. 
    rewrite out_app, <- app_assoc, (out_cons (Esc q cl)), (app_nil_r (item_out _)) in Hout.
    by rewrite <- (Hread r' k), <- Hout, Hd by done.
Qed.

End renderer.

(** ** Properties *)


Definition test_record : log_record_t :=
  LogRecord 3661000042 (Some (B "a.c")) (Some (B "main")) None (Some (B "t")) (Some (34 :: 10 :: B "hi"))
    LOG_LEVEL_WARN 7 9 (-3) (repeat 0 16) (repeat 171 8)
    [ClogKv (Some (B "k")) (CLOG_KV_TYPE_INT (-5)); ClogKv (Some (B "s")) (CLOG_KV_TYPE_STR None);
     ClogKv (Some (B "f")) (CLOG_KV_TYPE_FLOAT (S754_finite false 3 (-1)))] false.

Lemma test_record_ok : record_ok test_record.
Proof.
  unfold record_ok, str_ok, is_i32, is_u32, kv_ok. simpl. unfold is_i64, str_ok, is_byte. simpl.
  split_and!; try lia; repeat (apply Forall_cons_2); try apply Forall_nil_2; try lia;
    (split; [simpl; repeat (apply Forall_cons_2); try apply Forall_nil_2; lia|]); simpl;
    [lia|apply Forall_nil_2|exact I].
Qed.

Lemma test_record_finite : finite_floats test_record.
Proof. unfold finite_floats. cbn. by repeat constructor. Qed.


(** Whatever the buffer size, a record without attributes is never rendered
    as broken JSON: the text stays inside the buffer and either the renderer asks for
    the line to be dropped, or the line is a complete JSON object with the first
    fields of the record, some of whose strings are cut between characters. *)
Theorem format_json_truncation `{P : Platform} `{!PlatformOk P} c r tf buf_size :
  let time := render_sec (or_default tf default_time_format) (timestamp_sec r) in
  record_ok r → r_kv r = [] → time_cache_ok c → clen (or_default tf default_time_format) < 64 →
  Forall plain time → 1 <= buf_size <= 2 ^ 31 →
  let '(_, (s, ret)) := format_json_ex c r buf_size tf in
  clen s < buf_size ∧
  (ret = -1 ∨ ret = clen s ∧ ∃ r' k, cut_record r r' ∧
     json_read s = Some (take k (record_fields r' time))).
Proof. apply format_json_cut. Qed.

(** The test record without its attributes, with a message of control characters. *)
Definition test_record0 : log_record_t :=
  LogRecord 3661000042 (Some (B "a.c")) (Some (B "main")) None (Some (B "t")) (Some (B "hi" ++ repeat 1 20))
    LOG_LEVEL_WARN 7 9 (-3) (repeat 0 16) (repeat 171 8) [] false.

Lemma test_record0_ok : record_ok test_record0.
Proof.
  destruct test_record_ok as (?&?&?&?&?&?&?&?&?&?&?&?).
  unfold record_ok. split_and!; try done; try apply Forall_nil_2.
  unfold str_ok, is_byte. simpl. repeat (apply Forall_cons_2; [lia|]). apply Forall_nil_2.
Qed.

Lemma format_json_truncation_witness :
  ∃ s r' k, (format_json_ex time_cache_init test_record0 200 None).2 = (s, 197) ∧ clen s < 200 ∧
    cut_record test_record0 r' ∧ json_read s = Some (take k (record_fields r' (B "2026-07-31 01:01:01"))).
Proof.
  pose proof (format_json_truncation time_cache_init test_record0 None 200 test_record0_ok eq_refl
    time_cache_init_ok ltac:(vm_compute; reflexivity)
    ltac:(apply (bool_decide_unpack _); vm_compute; exact I)
    ltac:(lia)) as H.
  assert ((format_json_ex time_cache_init test_record0 200 None).2.2 = 197) as E by (vm_compute; reflexivity).
  destruct (format_json_ex _ _ _ _) as [c [s ret]]. simpl in E. subst ret.
  destruct H as [Hl [[=]|(_ & r' & k & Hcut & Hr)]]. exists s, r', k. done.
Defined.

(** With attributes the closing of a cut key (in front of a control character) is
    not JSON: the key is closed as if it were a value. *)
Example format_json_cut_key_invalid :
  let '(_, (s, ret)) := format_json_ex time_cache_init
     (LogRecord 3661000042 None None None None (Some (B "hi")) LOG_LEVEL_WARN 7 9 1
        (repeat 0 16) (repeat 0 8) [ClogKv (Some (repeat 1 10)) (CLOG_KV_TYPE_INT 5)] false) 160 None in
  ret = clen s ∧ json_read s = None.
Proof. vm_compute. done. Qed.
