(* ===== verification/FmtOtel.v ===== *)
(** * The OpenTelemetry JSON renderer and the W3C trace context
    (core/formatter_otel.c)

    [parse_traceparent] reads the TRACEPARENT variable into a record's identifiers;
    [format_otel_json] renders the record with a nested attributes object. *)
From S2P Require Import Prelude FastAscii Record FmtBuf FmtTime FmtJson.

Local Open Scope Z_scope.
Local Open Scope step_scope.

Definition hex_nibble (c : Z) : Z :=
  if (48 <=? c) && (c <=? 57) then c - 48
  else if (97 <=? c) && (c <=? 102) then c - 97 + 10
  else if (65 <=? c) && (c <=? 70) then c - 65 + 10
  else -1.

(** The character at an offset of a NUL-terminated string. *)
Definition char_at (s : cstr) (i : nat) : Z := default 0 (s !! i).

(** Bytes [i .. i + n - 1] of [out], from [hex]: the array and the result. *)
Fixpoint hex_decode_from (hex : cstr) (out : list Z) (i n : nat) : list Z * bool :=
  match n with
  | O => (out, true)
  | S n' =>
      let hi := hex_nibble (char_at hex (i * 2)) in
      let lo := hex_nibble (char_at hex (i * 2 + 1)) in
      if (hi <? 0) || (lo <? 0) then (out, false)
      else hex_decode_from hex (<[i := u8 (Z.lor (Z.shiftl hi 4) lo)]> out) (S i) n'
  end.

Definition hex_decode (hex : cstr) (out : list Z) (n : nat) : list Z * bool :=
  hex_decode_from hex out 0 n.

(** Skip to the first '-'. *)
Fixpoint skip_to_dash (p : cstr) : cstr :=
  match p with
  | c :: p' => if c =? 45 then p else skip_to_dash p'
  | [] => []
  end.

Definition zeros (n : nat) : list Z := repeat 0 n.

(** [tp] is the value of TRACEPARENT, [None] when it is unset; the result is the
    pair of identifiers afterwards. *)
Definition parse_traceparent (tp : option cstr) (ids : list Z * list Z) : list Z * list Z :=
  let '(trace_id, span_id) := ids in
  match tp with
  | None | Some [] => ids
  | Some tp =>
      match skip_to_dash tp with
      | [] => ids
      | _ :: p =>
          if clen p <? 32 then ids else
          let '(trace_id', ok) := hex_decode p trace_id 16 in
          if negb ok then (zeros 16, span_id) else
          let p := drop 32 p in
          if negb (char_at p 0 =? 45) then (zeros 16, span_id) else
          let p := drop 1 p in
          if clen p <? 16 then (zeros 16, span_id) else
          let '(span_id', ok) := hex_decode p span_id 8 in
          if negb ok then (zeros 16, zeros 8) else (trace_id', span_id')
      end
  end.

Section with_platform.
Context `{P : Platform}.

(** The body of [format_otel_json] after the timestamp was rendered and the
    environment was read into [trace_id] and [span_id]. *)
Definition otel_body (record : log_record_t) (trace_id span_id : list Z) (time_buf : cstr) : step :=
  lit (J "{'timestamp':'") >>; lit time_buf >>; lit (B ".") >>;
  lit (clog_u32toa_pad6 (timestamp_usec record)) >>;
  lit (J "','severity':'") >>; lit (level_to_string (r_level record)) >>;
  lit (J "','severity_number':") >>; lit (clog_i32toa (otel_severity_number (r_level record))) >>;
  (if is_zero_id trace_id then skip
   else lit (J ",'trace_id':'") >>; lit (trace_id_hex trace_id) >>; lit (J "'")) >>;
  (if is_zero_id span_id then skip
   else lit (J ",'span_id':'") >>; lit (span_id_hex span_id) >>; lit (J "'")) >>;
  lit (J ",'body':'") >>; esc (Some (or_default (r_message record) [])) (J "'}") >>;
  lit (J "'") >>;
  lit (J ",'attributes':{") >>; lit (J "'module':'") >>;
  esc (Some (or_default (r_module record) [])) (J "'}}") >>;
  lit (J "','file':'") >>; esc (Some (or_default (r_file record) [])) (J "'}}") >>;
  lit (J "','line':") >>; lit (clog_i32toa (r_line record)) >>; lit (J ",'func':'") >>;
  esc (Some (or_default (r_func record) [])) (J "'}}") >>;
  lit (J "','thread':") >>; lit (clog_u32toa (r_tid record)) >>;
  lit (J ",'pid':") >>; lit (clog_u32toa (r_pid record)) >>; lit (J ",'tag':'") >>;
  esc (Some (or_default (r_tag record) [])) (J "'}}") >>;
  lit (J "'") >>;
  json_kvs (r_kv record) (J "'}}") >>;
  lit (B "}}").

(** The identifiers are written back into the record the caller passed. *)
Definition with_ids (r : log_record_t) (ids : list Z * list Z) : log_record_t :=
  LogRecord (r_timestamp r) (r_file r) (r_func r) (r_module r) (r_tag r) (r_message r) (r_level r)
    (r_tid r) (r_pid r) (r_line r) ids.1 ids.2 (r_kv r) (r_is_tombstone r).

(** The renderer returns before the environment is read when the first fields do
    not fit; the identifiers of the record are then unchanged. *)
Definition otel_head_fits (record : log_record_t) (time_buf : cstr) (buf_size : Z) : bool :=
  match (lit (J "{'timestamp':'") >>; lit time_buf >>; lit (B ".") >>;
    lit (clog_u32toa_pad6 (timestamp_usec record)) >>;
    lit (J "','severity':'") >>; lit (level_to_string (r_level record)) >>;
    lit (J "','severity_number':") >>;
    lit (clog_i32toa (otel_severity_number (r_level record)))) (ob_init buf_size) with
  | (_, Next) => true
  | (_, Return _) => false
  end.

Definition format_otel_json (tp : option cstr) (c : clog_time_cache_t) (record : log_record_t)
    (buf_size : Z) : clog_time_cache_t * log_record_t * (cstr * Z) :=
  let '(c', time_buf) := format_sec_cached c (timestamp_sec record) (Some default_time_format) 64 in
  let ids := parse_traceparent tp (r_trace_id record, r_span_id record) in
  let record' := if otel_head_fits record time_buf buf_size then with_ids record ids else record in
  (c', record', finish (otel_body record ids.1 ids.2 time_buf (ob_init buf_size))).

(** [log_formatter_format_otlp] for a record and a buffer that are not NULL. *)
Definition log_formatter_format_otlp (tp : option cstr) (c : clog_time_cache_t)
    (record : log_record_t) (buf_size : Z) : clog_time_cache_t * log_record_t * (cstr * Z) :=
  if buf_size =? 0 then (c, record, ([], -1)) else format_otel_json tp c record buf_size.

End with_platform.

(** ** Hexadecimal round trip *)

Lemma hex_nibble_lut d : 0 <= d < 16 → hex_nibble (g_hex_lut !!! Z.to_nat d) = d.
Proof.
  intros Hd. assert (Forall (λ n : nat, hex_nibble (g_hex_lut !!! n) = Z.of_nat n) (seq 0 16)) as H.
  { apply (bool_decide_unpack _). vm_compute. done. }
  rewrite Forall_forall in H. rewrite (H (Z.to_nat d)); [lia|]. apply elem_of_seq. lia.
Qed.

Lemma lor_nibbles hi lo : 0 <= hi < 16 → 0 <= lo < 16 → u8 (Z.lor (Z.shiftl hi 4) lo) = hi * 16 + lo.
Proof.
  intros Hh Hl.
  assert (Forall (λ n : nat, u8 (Z.lor (Z.shiftl (Z.of_nat n / 16) 4) (Z.of_nat n mod 16)) = Z.of_nat n)
    (seq 0 256)) as H by (apply (bool_decide_unpack _); vm_compute; done).
  rewrite Forall_forall in H.
  specialize (H (Z.to_nat (hi * 16 + lo)) ltac:(apply elem_of_seq; lia)).
  rewrite Z2Nat.id in H by lia. rewrite Z.div_add_l, (Z.div_small lo), Z.add_0_r in H by lia.
  rewrite (Z.add_comm (hi * 16)), Z.mod_add, (Z.mod_small lo) in H by lia.
  rewrite H. lia.
Qed.

(** The [i]-th pair of digits of printed bytes. *)
Lemma char_at_hex ids rest i b :
  Forall is_byte ids → ids !! i = Some b →
  hex_nibble (char_at (mbind hex_byte ids ++ rest) (i * 2)) = b / 16 ∧
  hex_nibble (char_at (mbind hex_byte ids ++ rest) (i * 2 + 1)) = b mod 16 ∧ is_byte b.
Proof.
  intros Hids. revert i. induction Hids as [|x ids Hx Hids IH]; intros [|i]; simpl; try done.
  - intros [= ->]. unfold char_at. simpl. unfold hex_byte. rewrite land15, Z.shiftr_div_pow2 by lia.
    destruct Hx. change (2 ^ 4) with 16. split_and!; [..|done]; apply hex_nibble_lut.
    + split; [apply Z.div_pos; lia|apply Z.div_lt_upper_bound; lia].
    + apply Z.mod_pos_bound. lia.
  - intros Hi. destruct (IH i Hi) as (H1 & H2 & H3). split_and!; [exact H1|exact H2|done].
Qed.

Lemma hex_decode_from_hex ids rest out i n :
  Forall is_byte ids → (i + n = length ids)%nat → length out = length ids →
  hex_decode_from (mbind hex_byte ids ++ rest) out i n = (take i out ++ drop i ids, true).
Proof.
  intros Hids. revert i out. induction n as [|n IH]; intros i out Hn Hout.
  { simpl. rewrite drop_ge, app_nil_r, take_ge by lia. done. }
  destruct (lookup_lt_is_Some_2 ids i ltac:(lia)) as [b Hb].
  destruct (char_at_hex ids rest i b Hids Hb) as (Hhi & Hlo & Hbyte).
  assert (0 <= b / 16 < 16) as Hh.
  { destruct Hbyte. split; [apply Z.div_pos; lia|apply Z.div_lt_upper_bound; lia]. }
  pose proof (Z.mod_pos_bound b 16 ltac:(lia)) as Hl.
  cbn [hex_decode_from]. rewrite Hhi, Hlo.
  destruct (Z.ltb_spec (b / 16) 0), (Z.ltb_spec (b mod 16) 0); simpl; try lia.
  rewrite lor_nibbles by lia. rewrite IH; [|lia|by rewrite length_insert].
  f_equal. rewrite (drop_S ids b i Hb).
  replace (b / 16 * 16 + b mod 16) with b by (pose proof (Z.div_mod b 16); lia).
  rewrite (take_S_r _ _ b) by (apply list_lookup_insert_eq; lia).
  by rewrite take_insert_ge, <- app_assoc by lia.
Qed.

Lemma hex_decode_hex ids rest out :
  Forall is_byte ids → length out = length ids →
  hex_decode (mbind hex_byte ids ++ rest) out (length ids) = (ids, true).
Proof. intros. unfold hex_decode. by rewrite hex_decode_from_hex. Qed.

Lemma skip_to_dash_app v rest :
  Forall (λ c, c ≠ 45) v → skip_to_dash (v ++ 45 :: rest) = 45 :: rest.
Proof.
  induction 1 as [|c v Hc Hv IH]; [done|]. simpl. by destruct (Z.eqb_spec c 45).
Qed.

Lemma hex_decode_length hex out i n : length (hex_decode_from hex out i n).1 = length out.
Proof.
  revert out i. induction n as [|n IH]; intros; simpl; [done|].
  case_match; [done|]. by rewrite IH, length_insert.
Qed.

(** ** The text of the renderer *)

Section otel.
Context `{P : Platform}.

Definition otel_items (record : log_record_t) (trace_id span_id : list Z) (time_buf : cstr) : list item :=
  [Lit (J "{'timestamp':'"); Lit time_buf; Lit (B ".");
   Lit (clog_u32toa_pad6 (timestamp_usec record));
   Lit (J "','severity':'"); Lit (level_to_string (r_level record));
   Lit (J "','severity_number':"); Lit (clog_i32toa (otel_severity_number (r_level record)))] ++
  (if is_zero_id trace_id then []
   else [Lit (J ",'trace_id':'"); Lit (trace_id_hex trace_id); Lit (J "'")]) ++
  (if is_zero_id span_id then []
   else [Lit (J ",'span_id':'"); Lit (span_id_hex span_id); Lit (J "'")]) ++
  [Lit (J ",'body':'"); Esc (or_default (r_message record) []) (J "'}"); Lit (J "'");
   Lit (J ",'attributes':{"); Lit (J "'module':'"); Esc (or_default (r_module record) []) (J "'}}");
   Lit (J "','file':'"); Esc (or_default (r_file record) []) (J "'}}");
   Lit (J "','line':"); Lit (clog_i32toa (r_line record)); Lit (J ",'func':'");
   Esc (or_default (r_func record) []) (J "'}}");
   Lit (J "','thread':"); Lit (clog_u32toa (r_tid record));
   Lit (J ",'pid':"); Lit (clog_u32toa (r_pid record)); Lit (J ",'tag':'");
   Esc (or_default (r_tag record) []) (J "'}}"); Lit (J "'")] ++
  mbind (kv_items (J "'}}")) (r_kv record) ++
  [Lit (B "}}")].

Lemma otel_body_run record tid sid time_buf :
  steq (otel_body record tid sid time_buf) (run (otel_items record tid sid time_buf)).
Proof.
  unfold otel_body, otel_items. cbn [app]. match_steps.
  apply seg_run; [case_match; match_steps|]. apply seg_run; [case_match; match_steps|].
  match_steps. apply seg_run; match_steps.
Qed.

(** The fields of the record and those of its attributes object. *)
Definition otel_fields (r : log_record_t) (tid sid : list Z) (time : cstr) : list (cstr * jval) :=
  [(B "timestamp", JStr (time ++ B "." ++ dec_pad 6 (r_timestamp r mod 1000000)));
   (B "severity", JStr (level_to_string (r_level r)));
   (B "severity_number", JTok (sdec (otel_severity_number (r_level r))))] ++
  id_field "trace_id" tid ++ id_field "span_id" sid ++
  [(B "body", JStr (or_default (r_message r) []))].

Definition otel_attributes (r : log_record_t) : list (cstr * jval) :=
  [(B "module", JStr (or_default (r_module r) []));
   (B "file", JStr (or_default (r_file r) []));
   (B "line", JTok (sdec (r_line r)));
   (B "func", JStr (or_default (r_func r) []));
   (B "thread", JTok (dec (r_tid r)));
   (B "pid", JTok (dec (r_pid r)));
   (B "tag", JStr (or_default (r_tag r) []))] ++ mbind kv_field (r_kv r).

Definition otel_object (r : log_record_t) (tid sid : list Z) (time : cstr) : cstr :=
  123 :: json_fields (otel_fields r tid sid time) ++ J ",'attributes':" ++
  json_object (otel_attributes r) ++ [125].

Lemma otel_severity_range l : is_i32 (otel_severity_number l).
Proof. unfold otel_severity_number, is_i32. zcases; lia. Qed.

Lemma out_otel_id name id :
  Forall is_byte id → Forall plain (B name) →
  out (if is_zero_id id then []
       else [Lit (J ",'" ++ B name ++ J "':'"); Lit (mbind hex_byte id); Lit (J "'")]) =
  mbind (λ g, 44 :: json_field g) (id_field name id).
Proof.
  intros Hid Hn. unfold id_field. destruct (is_zero_id id); [done|].
  unfold out, json_field. simpl. eval_lits.
  rewrite (json_escape_plain (B name)), (json_escape_plain (_ ≫= _)) by auto using hex_plain.
  rewrite !app_nil_r. simpl. rewrite <- !app_assoc. done.
Qed.

Lemma out_otel_items r tid sid time :
  record_ok r → Forall is_byte tid → Forall is_byte sid → Forall plain time →
  out (otel_items r tid sid time) = otel_object r tid sid time.
Proof.
  intros (?&?&?&?&?&?&?&?&?&_&_&Hkv) Ht Hs Htime.
  unfold otel_items, otel_object, json_object, otel_fields, otel_attributes.
  pose proof (out_otel_id "trace_id" _ Ht ltac:(apply (bool_decide_unpack _); vm_compute; done)) as Htr.
  pose proof (out_otel_id "span_id" _ Hs ltac:(apply (bool_decide_unpack _); vm_compute; done)) as Hsp.
  rewrite !out_app, out_kvs by done. cbn [app]. rewrite !json_fields_cons.
  repeat first [rewrite bind_cons | rewrite bind_app].
  rewrite usec_text, !clog_i32toa_sdec, !clog_u32toa_dec by auto using otel_severity_range.
  set (kvs := mbind _ (mbind kv_field _)).
  set (tr := out (if is_zero_id tid then _ else _)) in *.
  set (sp := out (if is_zero_id sid then _ else _)) in *.
  set (tr' := mbind _ (id_field _ tid)) in *.
  set (sp' := mbind _ (id_field _ sid)) in *.
  change (tr = tr') in Htr. change (sp = sp') in Hsp. rewrite Htr, Hsp.
  clearbody tr' sp' kvs. clear tr sp Htr Hsp.
  unfold json_field, out. cbn [mbind list_bind item_out fst snd json_val].
  rewrite (json_escape_plain _ (timestamp_plain r time Htime)).
  rewrite (json_escape_plain _ (level_plain _)).
  eval_lits. rewrite ?app_nil_r.
  repeat (progress (cbn [app]; rewrite <- ?app_assoc)). done.
Qed.

Lemma otel_attributes_ok `{!PlatformOk P} r : record_ok r → finite_floats r → Forall field_ok (otel_attributes r).
Proof.
  intros (?&?&?&?&?&?&[]&[]&[]&?&?&?) Hfin. unfold otel_attributes.
  rewrite Forall_app. split.
  - rewrite !Forall_cons.
    split_and!; [apply str_field_ok|apply str_field_ok|apply tok_field_ok|apply str_field_ok
      |apply tok_field_ok|apply tok_field_ok|apply str_field_ok|apply Forall_nil_2];
      try match goal with |- bool_decide _ = _ => vm_compute; reflexivity end; try assumption;
      [apply tok_sdec; split; lia|apply tok_dec; split; lia|apply tok_dec; split; lia].
  - by apply kv_fields_ok.
Qed.

Lemma otel_head_fits_full r time buf_size :
  1 <= buf_size < 2 ^ 64 →
  clen (out (otel_items r (r_trace_id r) (r_span_id r) time)) < buf_size →
  otel_head_fits r time buf_size = true.
Proof.
  intros Hn Hlen. unfold otel_head_fits.
  match goal with |- context [(?m) (ob_init _)] => assert (steq m (run
    [Lit (J "{'timestamp':'"); Lit time; Lit (B "."); Lit (clog_u32toa_pad6 (timestamp_usec r));
     Lit (J "','severity':'"); Lit (level_to_string (r_level r));
     Lit (J "','severity_number':"); Lit (clog_i32toa (otel_severity_number (r_level r)))]))
    as Hm by match_steps; rewrite (Hm (ob_init buf_size)) end.
  unfold otel_items in Hlen. rewrite out_app in Hlen.
  edestruct run_full as (b' & -> & _); [by apply ob_ok_init| |done].
  cbn [ob_rem ob_init]. clia.
Qed.

End otel.

(** ** Properties *)

(** A well-formed TRACEPARENT, whatever its version field and whatever follows
    the parent identifier, puts exactly the identifiers it spells into the record. *)
Theorem parse_traceparent_roundtrip version tid sid rest old :
  Forall (λ c, c ≠ 45) version → version ≠ [] →
  Forall is_byte tid → Forall is_byte sid → length tid = 16%nat → length sid = 8%nat →
  length old.1 = 16%nat → length old.2 = 8%nat →
  parse_traceparent (Some (version ++ 45 :: trace_id_hex tid ++ 45 :: span_id_hex sid ++ rest)) old
    = (tid, sid).
Proof.
  intros Hv Hne Ht Hs Hlt Hls Ho1 Ho2. destruct old as [ot os]. simpl in Ho1, Ho2.
  unfold parse_traceparent, trace_id_hex, span_id_hex.
  destruct (version ++ _) as [|c s] eqn:E; [by destruct version|]. rewrite <- E.
  rewrite skip_to_dash_app by done. clear E. cbv beta iota zeta.
  pose proof (length_hex tid) as Hht. pose proof (length_hex sid) as Hhs.
  destruct (Z.ltb_spec (clen (mbind hex_byte tid ++ 45 :: mbind hex_byte sid ++ rest)) 32) as [Hl|_].
  { unfold clen in Hl. rewrite length_app in Hl. lia. }
  pose proof (hex_decode_hex tid (45 :: mbind hex_byte sid ++ rest) ot Ht ltac:(lia)) as Hd.
  rewrite Hlt in Hd. rewrite Hd. cbv beta iota zeta. cbn [negb].
  rewrite (drop_app_length' (mbind hex_byte tid)) by lia.
  change (char_at (45 :: mbind hex_byte sid ++ rest) 0) with 45.
  change (drop 1 (45 :: mbind hex_byte sid ++ rest)) with (mbind hex_byte sid ++ rest).
  cbn [Z.eqb Pos.eqb negb].
  destruct (Z.ltb_spec (clen (mbind hex_byte sid ++ rest)) 16) as [Hl|_].
  { unfold clen in Hl. rewrite length_app in Hl. lia. }
  pose proof (hex_decode_hex sid rest os Hs ltac:(lia)) as Hd'.
  rewrite Hls in Hd'. by rewrite Hd'.
Qed.

Lemma parse_traceparent_roundtrip_witness :
  parse_traceparent (Some (B "00" ++ 45 :: trace_id_hex (seqZ 1 16) ++ 45 :: span_id_hex (seqZ 200 8) ++ B "-01"))
    (zeros 16, zeros 8) = (seqZ 1 16, seqZ 200 8).
Proof.
  apply parse_traceparent_roundtrip; try reflexivity; try discriminate;
    (apply (bool_decide_unpack _); vm_compute; exact I) ||
    (unfold is_byte; vm_compute seqZ; repeat (apply Forall_cons_2; [lia|]); apply Forall_nil_2).
Defined.

(** Whatever TRACEPARENT holds, the identifiers keep their sizes; without the
    variable they are untouched. *)
Theorem parse_traceparent_shape tp old :
  length old.1 = 16%nat → length old.2 = 8%nat →
  length (parse_traceparent tp old).1 = 16%nat ∧ length (parse_traceparent tp old).2 = 8%nat ∧
  parse_traceparent None old = old.
Proof.
  destruct old as [ot os]. cbn [fst snd]. intros Ho1 Ho2.
  assert (length (parse_traceparent tp (ot, os)).1 = 16%nat ∧
    length (parse_traceparent tp (ot, os)).2 = 8%nat); [|tauto].
  destruct tp as [[|c tp]|]; cbn [parse_traceparent]; [done| |done].
  destruct (skip_to_dash (c :: tp)) as [|? p]; [done|]. case_match; [done|].
  pose proof (hex_decode_length p ot 0 16) as Hd1. unfold hex_decode.
  destruct (hex_decode_from p ot 0 16) as [t' [|]]; cbn [negb]; [|done].
  do 2 (case_match; [done|]). generalize (drop 1 (drop 32 p)). intros q.
  pose proof (hex_decode_length q os 0 8) as Hd2.
  destruct (hex_decode_from q os 0 8) as [s' [|]]; cbn [negb fst snd] in *; [lia|done].
Qed.

Lemma parse_traceparent_shape_witness :
  length (parse_traceparent (Some (B "junk-with-dashes")) (zeros 16, zeros 8)).1 = 16%nat.
Proof. apply (parse_traceparent_shape (Some (B "junk-with-dashes")) (zeros 16, zeros 8)); reflexivity. Defined.

(** With room for it, the OpenTelemetry renderer returns exactly the object of
    the record's severity, identifiers and body with the nested attributes object,
    whose text reads back as the record's location, thread, tag and attributes; the
    identifiers are those TRACEPARENT imposes, and they are written back. *)
Theorem format_otel_render `{P : Platform} `{!PlatformOk P} tp c r buf_size :
  let time := render_sec default_time_format (timestamp_sec r) in
  let ids := parse_traceparent tp (r_trace_id r, r_span_id r) in
  record_ok r → finite_floats r → Forall is_byte ids.1 → Forall is_byte ids.2 → time_cache_ok c → Forall plain time →
  clen (otel_object r ids.1 ids.2 time) < buf_size <= 2 ^ 31 →
  clen (otel_object r (r_trace_id r) (r_span_id r) time) < buf_size →
  let '(c', r', (s, ret)) := format_otel_json tp c r buf_size in
  time_cache_ok c' ∧ r' = with_ids r ids ∧ s = otel_object r ids.1 ids.2 time ∧ ret = clen s ∧
  json_read (json_object (otel_attributes r)) = Some (otel_attributes r).
Proof.
  intros time ids Hr Hfin Hi1 Hi2 Hc Ht Hlen Hlen'. unfold format_otel_json.
  destruct (format_sec_cached_render c (timestamp_sec r) (Some default_time_format) Hc
    ltac:(vm_compute; done)) as [Hc' Ht'].
  destruct (format_sec_cached c _ _ 64) as [c' tb]. cbn [fst snd or_default default] in Hc', Ht'.
  change (default _ (Some default_time_format)) with default_time_format in Ht'. subst tb. fold time ids.
  pose proof Hr as (_&_&_&_&_&_&_&_&_&Hb1&Hb2&_).
  pose proof (clen_nonneg (otel_object r ids.1 ids.2 time)).
  rewrite otel_head_fits_full; [|lia|by rewrite out_otel_items].
  rewrite (otel_body_run r ids.1 ids.2 time (ob_init buf_size)).
  destruct (run_full buf_size (otel_items r ids.1 ids.2 time) (ob_init buf_size)) as (b' & -> & Hb' & Hd);
    [apply ob_ok_init; lia|rewrite out_otel_items by done; cbn [ob_rem ob_init]; lia|].
  unfold finish. rewrite (i32_len _ _ Hb') by lia. rewrite Hd, out_otel_items by done.
  split_and!; [done..|]. apply json_read_object; [done|by apply otel_attributes_ok].
Qed.

Lemma format_otel_render_witness :
  (format_otel_json None time_cache_init test_record 1024).2.1 =
    otel_object test_record (repeat 0 16) (repeat 171 8) (B "2026-07-31 01:01:01").
Proof.
  pose proof (format_otel_render None time_cache_init test_record 1024 test_record_ok test_record_finite) as H.
  destruct test_record_ok as (_&_&_&_&_&_&_&_&_&Hb1&Hb2&_).
  specialize (H Hb1 Hb2 time_cache_init_ok ltac:(apply (bool_decide_unpack _); vm_compute; exact I)
    ltac:(vm_compute; split; [reflexivity|discriminate]) ltac:(vm_compute; reflexivity)).
  destruct (format_otel_json _ _ _ _) as [[c r] [s ret]].
  destruct H as (_ & _ & H & _). exact H.
Defined.
