(* ===== verification/FmtText.v ===== *)
(** * The pattern compiler and interpreter (core/formatter_fmt.c) and the formatter
    entry points (core/formatter.c)

    [fmt_compile] turns a format string into opcodes once; [format_impl] interprets
    them through a per-thread cache. The compiler is shown to lose nothing of the
    format, the interpreter to be the plain concatenation cut to the buffer, the
    cache to be invisible. *)
From S2P Require Import Prelude FastAscii Record FmtBuf FmtTime FmtJson FmtOtel.

Local Open Scope Z_scope.

Definition FMT_MAX_OPS : nat := 64.

(** [fmt_op_t]: only the literal opcode carries text. *)
Inductive fmt_op_t :=
  | FMT_OP_LITERAL (literal : cstr)
  | FMT_OP_TIME | FMT_OP_LEVEL | FMT_OP_MSG | FMT_OP_THREAD | FMT_OP_PID | FMT_OP_FILE
  | FMT_OP_LINE | FMT_OP_FUNC | FMT_OP_MODULE | FMT_OP_TAG | FMT_OP_NEWLINE
  | FMT_OP_TRACE_ID | FMT_OP_SPAN_ID.

#[export] Instance fmt_op_eq_dec : EqDecision fmt_op_t.
Proof. solve_decision. Defined.

Definition isalpha (c : Z) : bool :=
  ((65 <=? c) && (c <=? 90)) || ((97 <=? c) && (c <=? 122)).

(** The rest of the format when the token matches. *)
Definition token_match (fmt token : cstr) : option cstr :=
  if prefixb token fmt then
    let rest := drop (length token) fmt in
    match rest with
    | [] => Some rest
    | c :: _ => if negb (isalpha c) then Some rest else None
    end
  else None.

(** The tokens in the order the compiler tries them. *)
Definition fmt_tokens : list (cstr * fmt_op_t) :=
  [(B "time", FMT_OP_TIME); (B "level", FMT_OP_LEVEL); (B "msg", FMT_OP_MSG);
   (B "thread", FMT_OP_THREAD); (B "pid", FMT_OP_PID); (B "file", FMT_OP_FILE);
   (B "line", FMT_OP_LINE); (B "func", FMT_OP_FUNC); (B "module", FMT_OP_MODULE);
   (B "tag", FMT_OP_TAG); (B "newline", FMT_OP_NEWLINE);
   (B "trace_id", FMT_OP_TRACE_ID); (B "span_id", FMT_OP_SPAN_ID)].

(** The if-else chain of the compiler. *)
Fixpoint match_tokens (tokens : list (cstr * fmt_op_t)) (fmt : cstr) : option (fmt_op_t * cstr) :=
  match tokens with
  | [] => None
  | (t, op) :: tokens' =>
      match token_match fmt t with
      | Some rest => Some (op, rest)
      | None => match_tokens tokens' fmt
      end
  end.

(** The inner loop: the literal segment up to the next '%'. *)
Definition scan_literal : cstr → cstr * cstr := span (λ c, negb (c =? 37)).

(** The compiler's loop with [room] opcodes left (the guard [n < max_ops - 1]);
    each turn emits one opcode. *)
Fixpoint fmt_compile_loop (room : nat) (fmt_str : cstr) : list fmt_op_t :=
  match room, fmt_str with
  | O, _ | _, [] => []
  | S room', c :: rest =>
      if negb (c =? 37) then
        let '(l, rest') := scan_literal fmt_str in
        FMT_OP_LITERAL l :: fmt_compile_loop room' rest'
      else
        match match_tokens fmt_tokens rest with
        | Some (op, rest') => op :: fmt_compile_loop room' rest'
        | None => FMT_OP_LITERAL [37] :: fmt_compile_loop room' rest
        end
  end.

Definition fmt_compile (fmt_str : cstr) (max_ops : nat) : list fmt_op_t :=
  fmt_compile_loop (max_ops - 1) fmt_str.

(** [clog_fmt_cache_t]; [ops] holds the first [op_count] opcodes. *)
Record clog_fmt_cache_t := FmtCache { fc_fmt : cstr; fc_ops : list fmt_op_t }.

Definition fmt_cache_init : clog_fmt_cache_t := FmtCache [] [].

(** [append_token]: the cursor and the number of bytes taken. *)
Definition append_token (b : obuf) (token : cstr) : obuf * Z :=
  let token_len := if clen token >=? ob_rem b then u64 (ob_rem b - 1) else clen token in
  if token_len >? 0 then (ob_push b (take (Z.to_nat token_len) token), i32 token_len)
  else (b, i32 token_len).

Section with_platform.
Context `{P : Platform}.

(** The interpreter's state: the cursor, [total] and the timestamp cache. *)
Record fstate := FState { fs_buf : obuf; fs_total : Z; fs_time : clog_time_cache_t }.

Definition fs_token (st : fstate) (token : cstr) : fstate :=
  let '(b, n) := append_token (fs_buf st) token in
  FState b (i32 (fs_total st + n)) (fs_time st).

(** One turn of the opcode switch. *)
Definition exec_op (record : log_record_t) (tf : cstr) (st : fstate) (op : fmt_op_t) : fstate :=
  match op with
  | FMT_OP_LITERAL l => fs_token st l
  | FMT_OP_TIME =>
      let '(c, time_buf) := format_sec_cached (fs_time st) (timestamp_sec record) (Some tf) 64 in
      fs_token (FState (fs_buf st) (fs_total st) c) time_buf
  | FMT_OP_LEVEL => fs_token st (level_to_string (r_level record))
  | FMT_OP_MSG => fs_token st (or_default (r_message record) (B "(no message)"))
  | FMT_OP_THREAD => fs_token st (clog_u32toa (r_tid record))
  | FMT_OP_PID => fs_token st (clog_u32toa (r_pid record))
  | FMT_OP_FILE => fs_token st (or_default (r_file record) (B "(unknown)"))
  | FMT_OP_LINE => fs_token st (clog_i32toa (r_line record))
  | FMT_OP_FUNC => fs_token st (or_default (r_func record) (B "(unknown)"))
  | FMT_OP_MODULE => fs_token st (or_default (r_module record) (B "(unknown)"))
  | FMT_OP_TAG => fs_token st (or_default (r_tag record) [])
  | FMT_OP_NEWLINE =>
      if ob_rem (fs_buf st) >? 1
      then FState (ob_push (fs_buf st) [10]) (i32 (fs_total st + 1)) (fs_time st)
      else st
  | FMT_OP_TRACE_ID =>
      fs_token st (if is_zero_id (r_trace_id record) then [] else trace_id_hex (r_trace_id record))
  | FMT_OP_SPAN_ID =>
      fs_token st (if is_zero_id (r_span_id record) then [] else span_id_hex (r_span_id record))
  end.

(** One attribute: [" key=value"]; an entry without a key is skipped. *)
Definition exec_kv (st : fstate) (kv : clog_kv_t) : fstate :=
  match kv_key kv with
  | None => st
  | Some key =>
      let st := fs_token st (B " ") in
      let st := fs_token st key in
      let st := fs_token st (B "=") in
      match kv_val kv with
      | CLOG_KV_TYPE_INT i => fs_token st (clog_i64toa i)
      | CLOG_KV_TYPE_UINT u => fs_token st (clog_u64toa u)
      | CLOG_KV_TYPE_FLOAT f => fs_token st (sprintf_g6 f)
      | CLOG_KV_TYPE_STR s => fs_token st (or_default s [])
      | CLOG_KV_TYPE_BOOL v => fs_token st (if v then B "true" else B "false")
      end
  end.

(** The per-thread state of the formatter and the environment it reads. *)
Record fmt_thread := FmtThread { ft_time : clog_time_cache_t; ft_fmt : clog_fmt_cache_t }.

Definition is_json_format (fmt : cstr) : bool := streq fmt (B "json") || streq fmt (B "JSON").
Definition is_otel_format (fmt : cstr) : bool :=
  streq fmt (B "otlp") || streq fmt (B "OTLP") || streq fmt (B "otel") || streq fmt (B "OTEL").

(** The cache lookup of [format_impl]. *)
Definition fmt_cache_lookup (fc : clog_fmt_cache_t) (fmt : cstr) : clog_fmt_cache_t :=
  if negb (streq fmt (fc_fmt fc)) then
    let copy := snprintf_s CLOG_MAX_FORMAT_SIZE fmt in
    FmtCache copy (fmt_compile copy FMT_MAX_OPS)
  else fc.

Definition format_impl (tp : option cstr) (th : fmt_thread) (record : log_record_t) (buf_size : Z)
    (fmt : cstr) (time_format : option cstr) : fmt_thread * log_record_t * (cstr * Z) :=
  if is_json_format fmt then
    let '(c, res) := format_json_ex (ft_time th) record buf_size time_format in
    (FmtThread c (ft_fmt th), record, res)
  else if is_otel_format fmt then
    let '(c, record', res) := format_otel_json tp (ft_time th) record buf_size in
    (FmtThread c (ft_fmt th), record', res)
  else
    let fc := fmt_cache_lookup (ft_fmt th) fmt in
    let tf := match time_format with Some (c :: t) => c :: t | _ => default_time_format end in
    let st := FState (ob_init buf_size) 0 (ft_time th) in
    let st := foldl (exec_op record tf) st (fc_ops fc) in
    let st := foldl exec_kv st (r_kv record) in
    (FmtThread (fs_time st) fc, record, (ob_data (fs_buf st), fs_total st)).

(** The two format buffers of a logger. *)
Record fmt_config := FmtConfig { format_str : cstr; time_format_str : cstr }.

Definition g_default_format : cstr := B "[%time] [%level] %msg".

(** [log_formatter_format_for] for pointers that are not NULL. *)
Definition log_formatter_format_for (tp : option cstr) (th : fmt_thread) (logger : fmt_config)
    (record : log_record_t) (buf_size : Z) : fmt_thread * log_record_t * (cstr * Z) :=
  if buf_size =? 0 then (th, record, ([], -1)) else
  let fmt := match format_str logger with [] => g_default_format | s => s end in
  let tf := match time_format_str logger with [] => default_time_format | s => s end in
  format_impl tp th record buf_size fmt (Some tf).

Definition log_formatter_init_for (format time_format : option cstr) : fmt_config :=
  FmtConfig
    (match format with
     | Some (c :: s) => snprintf_s CLOG_MAX_FORMAT_SIZE (c :: s)
     | _ => snprintf_s CLOG_MAX_FORMAT_SIZE g_default_format
     end)
    (match time_format with
     | Some (c :: s) => snprintf_s 64 (c :: s)
     | _ => snprintf_s 64 default_time_format
     end).

End with_platform.

(** ** The compiler loses nothing *)

(** The piece of format an opcode was compiled from. *)
Definition op_src (op : fmt_op_t) : cstr :=
  match op with
  | FMT_OP_LITERAL l => l
  | FMT_OP_TIME => B "%time" | FMT_OP_LEVEL => B "%level" | FMT_OP_MSG => B "%msg"
  | FMT_OP_THREAD => B "%thread" | FMT_OP_PID => B "%pid" | FMT_OP_FILE => B "%file"
  | FMT_OP_LINE => B "%line" | FMT_OP_FUNC => B "%func" | FMT_OP_MODULE => B "%module"
  | FMT_OP_TAG => B "%tag" | FMT_OP_NEWLINE => B "%newline"
  | FMT_OP_TRACE_ID => B "%trace_id" | FMT_OP_SPAN_ID => B "%span_id"
  end.

Definition fmt_src (ops : list fmt_op_t) : cstr := mbind op_src ops.

Lemma span_split f s a r : span f s = (a, r) → s = a ++ r.
Proof.
  revert a r. induction s as [|c s IH]; intros a r; simpl; [by intros [= <- <-]|].
  destruct (f c); [|by intros [= <- <-]]. destruct (span f s) as [a' r'].
  intros [= <- <-]. simpl. f_equal. by apply IH.
Qed.

Lemma token_match_Some fmt token rest : token_match fmt token = Some rest → fmt = token ++ rest.
Proof.
  unfold token_match. destruct (prefixb token fmt) eqn:E; [|done].
  apply prefixb_drop in E. destruct (drop (length token) fmt) eqn:Hd; simpl;
    [|case_match; [|done]]; intros [= <-]; congruence.
Qed.

Lemma match_tokens_src fmt op rest :
  match_tokens fmt_tokens fmt = Some (op, rest) → 37 :: fmt = op_src op ++ rest.
Proof.
  assert (Forall (λ p, op_src p.2 = 37 :: p.1) fmt_tokens) as Htok
    by (apply (bool_decide_unpack _); vm_compute; done).
  induction Htok as [|[t o] tokens Ht Htok IH]; simpl; [done|].
  destruct (token_match fmt t) as [r|] eqn:E; [|done].
  intros [= <- <-]. simpl in Ht. rewrite Ht. simpl. f_equal. by apply token_match_Some.
Qed.

(** One opcode is the next piece of the format. *)
Lemma fmt_compile_loop_S room c rest :
  ∃ op rest', fmt_compile_loop (S room) (c :: rest) = op :: fmt_compile_loop room rest' ∧
    c :: rest = op_src op ++ rest'.
Proof.
  cbn [fmt_compile_loop]. destruct (Z.eqb_spec c 37) as [->|]; cbn [negb].
  - destruct (match_tokens fmt_tokens rest) as [[op rest']|] eqn:E.
    + exists op, rest'. split; [done|]. by apply match_tokens_src.
    + by exists (FMT_OP_LITERAL [37]), rest.
  - destruct (scan_literal (c :: rest)) as [l rest'] eqn:E.
    exists (FMT_OP_LITERAL l), rest'. split; [done|]. by eapply span_split.
Qed.

Lemma fmt_compile_loop_src room fmt :
  ∃ lost, fmt = fmt_src (fmt_compile_loop room fmt) ++ lost ∧
    (length (fmt_compile_loop room fmt) ≤ room)%nat ∧
    ((length (fmt_compile_loop room fmt) < room)%nat → lost = []).
Proof.
  revert fmt. induction room as [|room IH]; intros [|c rest].
  - by exists [].
  - exists (c :: rest). split_and!; [done|simpl; lia..].
  - exists []. split_and!; [done|simpl; lia|done].
  - destruct (fmt_compile_loop_S room c rest) as (op & rest' & -> & Hsrc).
    destruct (IH rest') as (lost & Hl & Hle & Hlt). exists lost.
    split_and!; [|simpl; lia|simpl; intros; apply Hlt; lia].
    unfold fmt_src in *. by rewrite Hsrc, bind_cons, <- app_assoc, <- Hl.
Qed.

(** ** The interpreter is a cut concatenation *)

Section rendering.
Context `{P : Platform}.

Definition op_text (r : log_record_t) (time : cstr) (op : fmt_op_t) : cstr :=
  match op with
  | FMT_OP_LITERAL l => l
  | FMT_OP_TIME => time
  | FMT_OP_LEVEL => level_to_string (r_level r)
  | FMT_OP_MSG => or_default (r_message r) (B "(no message)")
  | FMT_OP_THREAD => dec (r_tid r)
  | FMT_OP_PID => dec (r_pid r)
  | FMT_OP_FILE => or_default (r_file r) (B "(unknown)")
  | FMT_OP_LINE => sdec (r_line r)
  | FMT_OP_FUNC => or_default (r_func r) (B "(unknown)")
  | FMT_OP_MODULE => or_default (r_module r) (B "(unknown)")
  | FMT_OP_TAG => or_default (r_tag r) []
  | FMT_OP_NEWLINE => [10]
  | FMT_OP_TRACE_ID => if is_zero_id (r_trace_id r) then [] else mbind hex_byte (r_trace_id r)
  | FMT_OP_SPAN_ID => if is_zero_id (r_span_id r) then [] else mbind hex_byte (r_span_id r)
  end.

Definition kv_text (kv : clog_kv_t) : cstr :=
  match kv_key kv with
  | None => []
  | Some key =>
      B " " ++ key ++ B "=" ++
      match kv_val kv with
      | CLOG_KV_TYPE_INT i => sdec i
      | CLOG_KV_TYPE_UINT u => dec u
      | CLOG_KV_TYPE_FLOAT f => sprintf_g6 f
      | CLOG_KV_TYPE_STR s => or_default s []
      | CLOG_KV_TYPE_BOOL v => if v then B "true" else B "false"
      end
  end.

Definition text_line (r : log_record_t) (time : cstr) (ops : list fmt_op_t) : cstr :=
  mbind (op_text r time) ops ++ mbind kv_text (r_kv r).

(** [st] has written the first [n - 1] bytes of [acc]. *)
Definition fs_inv (n : Z) (st : fstate) (acc : cstr) : Prop :=
  ob_ok n (fs_buf st) ∧ ob_data (fs_buf st) = take (Z.to_nat (n - 1)) acc ∧
  fs_total st = clen (ob_data (fs_buf st)) ∧ n <= 2 ^ 31 ∧ time_cache_ok (fs_time st).

Lemma append_token_inv n b acc t :
  ob_ok n b → n <= 2 ^ 31 → ob_data b = take (Z.to_nat (n - 1)) acc →
  let '(b', k) := append_token b t in
  ob_ok n b' ∧ ob_data b' = take (Z.to_nat (n - 1)) (acc ++ t) ∧
  k = clen (ob_data b') - clen (ob_data b).
Proof.
  intros Hb Hn Hd. pose proof Hb as (Hlen & Hrem & Hn64). unfold append_token.
  pose proof (clen_nonneg t). pose proof (clen_nonneg (ob_data b)).
  set (k := if clen t >=? ob_rem b then u64 (ob_rem b - 1) else clen t).
  assert (k = Z.min (clen t) (ob_rem b - 1)) as Hk.
  { unfold k. rewrite Z.geb_leb. destruct (Z.leb_spec (ob_rem b) (clen t)); [|lia].
    rewrite u64_id; [lia|split; lia]. }
  clearbody k. rewrite (i32_id k) by (split; lia).
  assert (ob_data b ++ take (Z.to_nat k) t = take (Z.to_nat (n - 1)) (acc ++ t)) as Ht.
  { rewrite take_app, <- Hd. f_equal.
    destruct (Z.le_gt_cases (clen acc) (n - 1)) as [Hle|Hgt].
    - rewrite take_ge in Hd by (unfold clen in *; lia). rewrite Hd in *.
      destruct (Z.le_gt_cases (clen t) (ob_rem b - 1)).
      + rewrite !take_ge; [done|unfold clen in *; lia..].
      + f_equal. unfold clen in *. lia.
    - assert (clen (ob_data b) = n - 1) by (rewrite Hd; clia).
      replace (Z.to_nat k) with 0%nat by lia.
      replace (Z.to_nat (n - 1) - length acc)%nat with 0%nat by (unfold clen in *; lia).
      by rewrite !take_0. }
  rewrite Z.gtb_ltb. destruct (Z.ltb_spec 0 k).
  - split_and!.
    + apply ob_ok_push; [done|]. clia.
    + simpl. by rewrite Ht.
    + simpl. clia.
  - split_and!; [done| |lia]. rewrite <- Ht. replace (Z.to_nat k) with 0%nat by lia.
    by rewrite take_0, app_nil_r.
Qed.

Lemma fs_token_inv n st acc t : fs_inv n st acc → fs_inv n (fs_token st t) (acc ++ t).
Proof.
  intros (Hb & Hd & Ht & Hn & Hc). unfold fs_token.
  pose proof (append_token_inv n (fs_buf st) acc t Hb Hn Hd) as H.
  destruct (append_token (fs_buf st) t) as [b k]. destruct H as (Hb' & Hd' & Hk).
  split_and!; simpl; try done. rewrite Ht, Hk, i32_id; [lia|].
  destruct Hb' as (?&?&?). pose proof (clen_nonneg (ob_data b)). split; lia.
Qed.

(** The newline opcode is a one-byte token. *)
Lemma newline_token n st acc r tf :
  fs_inv n st acc → exec_op r tf st FMT_OP_NEWLINE = fs_token st [10].
Proof.
  intros ((?&?&?) & _ & Ht & ? & _). simpl. unfold fs_token, append_token.
  change (clen [10]) with 1. rewrite Z.geb_leb, Z.gtb_ltb.
  destruct (Z.ltb_spec 1 (ob_rem (fs_buf st))), (Z.leb_spec (ob_rem (fs_buf st)) 1); try lia.
  - done.
  - replace (ob_rem (fs_buf st)) with 1 by lia. simpl. destruct st as [b t c]. simpl in *.
    f_equal. rewrite Z.add_0_r, i32_id; [done|]. pose proof (clen_nonneg (ob_data b)). split; lia.
Qed.

Lemma exec_op_inv `{!PlatformOk P} n st acc r tf op :
  record_ok r → clen tf < 64 → fs_inv n st acc →
  fs_inv n (exec_op r tf st op) (acc ++ op_text r (render_sec tf (timestamp_sec r)) op).
Proof.
  intros (?&?&?&?&?&?&?&?&?&_) Htf Hst.
  destruct op; try (rewrite (newline_token n _ acc) by done); cbn [exec_op op_text];
    rewrite ?clog_i32toa_sdec, ?clog_u32toa_dec by done;
    unfold trace_id_hex, span_id_hex; try (by apply fs_token_inv).
  destruct Hst as (Hb & Hd & Ht & Hn & Hc).
  destruct (format_sec_cached_render (fs_time st) (timestamp_sec r) (Some tf) Hc Htf) as [Hc' Ht'].
  destruct (format_sec_cached _ _ _ 64) as [c tb]. simpl in Hc', Ht'. subst tb.
  apply fs_token_inv. done.
Qed.

Lemma exec_kv_inv n st acc kv :
  kv_ok kv → fs_inv n st acc → fs_inv n (exec_kv st kv) (acc ++ kv_text kv).
Proof.
  intros [_ Hv] Hst. unfold exec_kv, kv_text. destruct (kv_key kv) as [key|];
    [|by rewrite app_nil_r]. rewrite !app_assoc.
  destruct (kv_val kv); rewrite ?clog_i64toa_sdec, ?clog_u64toa_dec by done;
    by repeat apply fs_token_inv.
Qed.

Lemma exec_ops_inv `{!PlatformOk P} n r tf ops st acc :
  record_ok r → clen tf < 64 → fs_inv n st acc →
  fs_inv n (foldl (exec_op r tf) st ops) (acc ++ mbind (op_text r (render_sec tf (timestamp_sec r))) ops).
Proof.
  intros Hr Htf. revert st acc. induction ops as [|op ops IH]; intros st acc Hst.
  { cbn [mbind list_bind foldl]. by rewrite app_nil_r. }
  rewrite bind_cons, app_assoc. apply IH. by apply exec_op_inv.
Qed.

Lemma exec_kvs_inv n kvs st acc :
  Forall kv_ok kvs → fs_inv n st acc → fs_inv n (foldl exec_kv st kvs) (acc ++ mbind kv_text kvs).
Proof.
  intros Hk. revert st acc. induction Hk as [|kv kvs Hkv Hk IH]; intros st acc Hst.
  { cbn [mbind list_bind foldl]. by rewrite app_nil_r. }
  rewrite bind_cons, app_assoc. apply IH. by apply exec_kv_inv.
Qed.

(** The cache holds the compilation of its own key. *)
Definition fmt_cache_ok (fc : clog_fmt_cache_t) : Prop := fc_ops fc = fmt_compile (fc_fmt fc) FMT_MAX_OPS.

Lemma fmt_cache_lookup_ok fc fmt :
  fmt_cache_ok fc → clen fmt < CLOG_MAX_FORMAT_SIZE →
  fmt_cache_ok (fmt_cache_lookup fc fmt) ∧ fc_ops (fmt_cache_lookup fc fmt) = fmt_compile fmt FMT_MAX_OPS.
Proof.
  intros Hc Hf. unfold fmt_cache_lookup. destruct (negb (streq _ _)) eqn:E.
  - simpl. by rewrite snprintf_s_id.
  - apply negb_false_iff, bool_decide_eq_true in E. subst fmt. done.
Qed.

Definition time_format_of (time_format : option cstr) : cstr :=
  match time_format with Some (c :: t) => c :: t | _ => default_time_format end.

Lemma format_impl_text `{!PlatformOk P} tp th r n fmt tfo :
  record_ok r → time_cache_ok (ft_time th) → fmt_cache_ok (ft_fmt th) →
  is_json_format fmt = false → is_otel_format fmt = false → clen fmt < CLOG_MAX_FORMAT_SIZE →
  clen (time_format_of tfo) < 64 → 1 <= n <= 2 ^ 31 →
  let line := take (Z.to_nat (n - 1)) (text_line r (render_sec (time_format_of tfo) (timestamp_sec r))
                (fmt_compile fmt FMT_MAX_OPS)) in
  let '(th', r', res) := format_impl tp th r n fmt tfo in
  time_cache_ok (ft_time th') ∧ fmt_cache_ok (ft_fmt th') ∧ r' = r ∧ res = (line, clen line).
Proof.
  intros Hr Htc Hfc Hj Ho Hf Htf Hn. unfold format_impl. rewrite Hj, Ho.
  destruct (fmt_cache_lookup_ok (ft_fmt th) fmt Hfc Hf) as [Hfc' ->].
  fold (time_format_of tfo). cbv zeta. generalize (fmt_compile fmt FMT_MAX_OPS). intros ops.
  assert (fs_inv n (FState (ob_init n) 0 (ft_time th)) []) as H0.
  { split_and!; [apply ob_ok_init; lia|by rewrite take_nil|done|lia|done]. }
  apply (exec_ops_inv n r (time_format_of tfo) ops) in H0; [|done..].
  apply (exec_kvs_inv n (r_kv r)) in H0; [|by destruct Hr as (?&?&?&?&?&?&?&?&?&?&?&?)].
  destruct H0 as (_ & Hd & Ht & _ & Hc). rewrite app_nil_l in Hd.
  cbv beta iota zeta. cbn [ft_time ft_fmt]. split_and!; [done..|]. by rewrite Ht, Hd.
Qed.

(** ** Every format: the caches do not show *)

Definition caches_ok (th : fmt_thread) : Prop := time_cache_ok (ft_time th) ∧ fmt_cache_ok (ft_fmt th).
Definition fresh_thread : fmt_thread := FmtThread time_cache_init fmt_cache_init.

Lemma fresh_thread_ok : caches_ok fresh_thread.
Proof. split; [apply time_cache_init_ok|done]. Qed.

Definition pattern_of (fc : fmt_config) : cstr := match format_str fc with [] => g_default_format | f => f end.

(** The buffers hold terminated strings. *)
Definition format_fits (fc : fmt_config) : Prop :=
  clen (format_str fc) < CLOG_MAX_FORMAT_SIZE ∧ clen (time_format_str fc) < 64.

(** What is returned is -1 or the length of the text. *)
Definition length_or_fail (res : cstr * Z) : Prop := res.2 = -1 ∨ res.2 = clen res.1.

Lemma finish_run n p : 1 <= n <= 2 ^ 31 → length_or_fail (finish (run p (ob_init n))).
Proof.
  intros Hn. pose proof (run_general n p (ob_init n) (ob_ok_init n ltac:(lia))) as H. destruct (run p _) as [b f].
  destruct H as [Hb H]. pose proof (i32_len _ _ Hb ltac:(lia)) as El. unfold length_or_fail. destruct f as [|ret]; cbn.
  - right. done.
  - destruct H as [->|(? & ? & ? & ? & ? & ? & _ & _ & _ & _ & ->)]; [by left|by right].
Qed.

Lemma format_json_caches `{!PlatformOk P} tp th r n fmt tf :
  is_json_format fmt = true → caches_ok th → clen tf < 64 →
  ∃ th', caches_ok th' ∧
    format_impl tp th r n fmt (Some tf) = (th', r, finish (json_body r (render_sec tf (timestamp_sec r)) (ob_init n))).
Proof.
  intros Ej [T1 T2] Htf. unfold format_impl, format_json_ex. rewrite Ej.
  destruct (format_sec_cached_render (ft_time th) (timestamp_sec r) (Some tf) T1 Htf) as [Hc' Hr'].
  destruct (format_sec_cached _ _ _ 64) as [c' tb]. cbn in Hc', Hr'. subst tb. eexists. split; [|reflexivity]. done.
Qed.

Lemma format_otel_caches `{!PlatformOk P} tp th r n fmt tfo :
  is_json_format fmt = false → is_otel_format fmt = true → caches_ok th →
  let time := render_sec default_time_format (timestamp_sec r) in
  let ids := parse_traceparent tp (r_trace_id r, r_span_id r) in
  ∃ th', caches_ok th' ∧
    format_impl tp th r n fmt tfo =
      (th', (if otel_head_fits r time n then with_ids r ids else r), finish (otel_body r ids.1 ids.2 time (ob_init n))).
Proof.
  intros Ej Eo [T1 T2]. unfold format_impl, format_otel_json. rewrite Ej, Eo.
  destruct (format_sec_cached_render (ft_time th) (timestamp_sec r) (Some default_time_format) T1 ltac:(done)) as [Hc' Hr'].
  destruct (format_sec_cached _ _ _ 64) as [c' tb]. cbn in Hc', Hr'. subst tb. eexists. split; [|reflexivity]. done.
Qed.

(** With any coherent caches the formatter returns what it returns with empty ones. *)
Lemma format_for_caches `{!PlatformOk P} tp th fc r n :
  record_ok r → caches_ok th → format_fits fc → 1 <= n <= 2 ^ 31 →
  ∃ th0 th' r' res, log_formatter_format_for tp fresh_thread fc r n = (th0, r', res) ∧
    log_formatter_format_for tp th fc r n = (th', r', res) ∧ caches_ok th' ∧ r_level r' = r_level r ∧ length_or_fail res.
Proof.
  intros Hr Hth [Hf Ht] Hn. unfold log_formatter_format_for. destruct (Z.eqb_spec n 0); [lia|].
  fold (pattern_of fc). set (tf := match time_format_str fc with [] => default_time_format | s => s end).
  assert (clen tf < 64) as Htf by (unfold tf; by destruct (time_format_str fc)).
  assert (clen (pattern_of fc) < CLOG_MAX_FORMAT_SIZE) as Hpf by (unfold pattern_of; by destruct (format_str fc)).
  assert (time_format_of (Some tf) = tf) as Etf by (unfold tf; by destruct (time_format_str fc)).
  destruct (is_json_format (pattern_of fc)) eqn:Ej.
  { destruct (format_json_caches tp fresh_thread r n _ tf Ej fresh_thread_ok Htf) as (th0 & _ & ->).
    destruct (format_json_caches tp th r n _ tf Ej Hth Htf) as (th' & Hth' & ->).
    do 4 eexists. split; [reflexivity|]. split; [reflexivity|]. split; [done|]. split; [done|].
    rewrite (json_body_run r _ (ob_init n)). by apply finish_run. }
  destruct (is_otel_format (pattern_of fc)) eqn:Eo.
  { destruct (format_otel_caches tp fresh_thread r n _ (Some tf) Ej Eo fresh_thread_ok) as (th0 & _ & ->).
    destruct (format_otel_caches tp th r n _ (Some tf) Ej Eo Hth) as (th' & Hth' & ->).
    do 4 eexists. split; [reflexivity|]. split; [reflexivity|]. split; [done|]. split; [by destruct (otel_head_fits _ _ _)|].
    rewrite (otel_body_run r _ _ _ (ob_init n)). by apply finish_run. }
  rewrite <- Etf in Htf. destruct Hth as [T1 T2].
  pose proof (format_impl_text tp fresh_thread r n (pattern_of fc) (Some tf) Hr (proj1 fresh_thread_ok) (proj2 fresh_thread_ok) Ej Eo Hpf Htf Hn) as F0.
  pose proof (format_impl_text tp th r n (pattern_of fc) (Some tf) Hr T1 T2 Ej Eo Hpf Htf Hn) as F1. cbv zeta in F0, F1.
  destruct (format_impl _ fresh_thread _ _ _ _) as [[th0 r0] res0]. destruct (format_impl _ th _ _ _ _) as [[th1 r1] res1].
  destruct F0 as (_ & _ & -> & ->). destruct F1 as (F1 & F2 & -> & ->).
  do 4 eexists. split; [reflexivity|]. split; [reflexivity|]. split; [by split|]. split; [done|by right].
Qed.

End rendering.

(** ** Properties *)

Lemma compile_whole fmt : (length (fmt_compile fmt FMT_MAX_OPS) < 63)%nat → fmt_src (fmt_compile fmt FMT_MAX_OPS) = fmt.
Proof.
  unfold fmt_compile, FMT_MAX_OPS. cbn [Nat.sub]. intros H. destruct (fmt_compile_loop_src 63 fmt) as (lost & Hf & _ & Hlt).
  rewrite (Hlt H), app_nil_r in Hf. done.
Qed.

(** Compiling a format loses nothing: the opcodes spell a prefix of the format,
    at most 63 of them are emitted, and when fewer were they spell the whole format. *)
Theorem fmt_compile_faithful fmt :
  let ops := fmt_compile fmt FMT_MAX_OPS in
  fmt_src ops `prefix_of` fmt ∧ (length ops ≤ 63)%nat ∧ ((length ops < 63)%nat → fmt_src ops = fmt).
Proof.
  cbv zeta. unfold fmt_compile, FMT_MAX_OPS. cbn [Nat.sub].
  destruct (fmt_compile_loop_src 63 fmt) as (lost & Hf & Hle & Hlt).
  split_and!; [by exists lost|done|]. intros H. rewrite (Hlt H), app_nil_r in Hf. done.
Qed.

(** The tokens whose text the header documents and the code prints: not %time, whose
    documented microseconds are missing, and the identifiers when there is one. *)
Definition op_documented (r : log_record_t) (op : fmt_op_t) : Prop :=
  match op with
  | FMT_OP_TIME => False
  | FMT_OP_TRACE_ID => is_zero_id (r_trace_id r) = false
  | FMT_OP_SPAN_ID => is_zero_id (r_span_id r) = false
  | _ => True
  end.

Lemma documented_time `{P : Platform} r t t' ops :
  Forall (op_documented r) ops → mbind (op_text r t) ops = mbind (op_text r t') ops.
Proof. induction 1 as [|op ops Ho _ IH]; [done|]. rewrite !bind_cons, IH. by destruct op. Qed.

Lemma format_impl_whole `{P : Platform} `{!PlatformOk P} tp th r n fmt tfo ops :
  record_ok r → time_cache_ok (ft_time th) → fmt_cache_ok (ft_fmt th) →
  is_json_format fmt = false → is_otel_format fmt = false → clen fmt < CLOG_MAX_FORMAT_SIZE →
  clen (time_format_of tfo) < 64 → ops = fmt_compile fmt FMT_MAX_OPS → Forall (op_documented r) ops →
  clen (mbind (op_text r []) ops ++ mbind kv_text (r_kv r)) < n <= 2 ^ 31 →
  ∃ th', format_impl tp th r n fmt tfo = (th', r, (mbind (op_text r []) ops ++ mbind kv_text (r_kv r),
      clen (mbind (op_text r []) ops ++ mbind kv_text (r_kv r)))) ∧ caches_ok th'.
Proof.
  intros Hr H1 H2 H3 H4 H5 H6 Eops Hdoc Hn. set (line := mbind (op_text r []) ops ++ _) in *. pose proof (clen_nonneg line).
  pose proof (format_impl_text tp th r n fmt tfo Hr H1 H2 H3 H4 H5 H6 ltac:(lia)) as HF. cbv zeta in HF. rewrite <- Eops in HF.
  destruct (format_impl _ _ _ _ _ _) as [[th' r'] res]. destruct HF as (F1 & F2 & -> & ->). exists th'.
  unfold text_line. rewrite (documented_time r _ [] ops Hdoc). fold line.
  rewrite take_ge by (unfold clen in *; lia). by repeat split.
Qed.



(** The formats a logger can hold always satisfy the size conditions of the
    renderers, whatever strings configured it. *)
Theorem log_formatter_init_for_fits format time_format :
  let l := log_formatter_init_for format time_format in
  clen (format_str l) < CLOG_MAX_FORMAT_SIZE ∧ clen (time_format_str l) < 64 ∧
  format_str l ≠ [] ∧ time_format_str l ≠ [].
Proof.
  unfold log_formatter_init_for. cbn [format_str time_format_str].
  split_and!.
  - destruct format as [[|c s]|]; apply snprintf_s_len; done.
  - destruct time_format as [[|c s]|]; apply snprintf_s_len; done.
  - by destruct format as [[|c s]|].
  - by destruct time_format as [[|c s]|].
Qed.
