(* ===== verification/Redact.v ===== *)
(** * Record-time redaction (core/log.c, redaction partition)

    The rule table, the in-place replacement of the printf path, and the
    copy-on-match replacement of the key-value path with its two stack buffers and
    its heap blocks. The replacements are compared with a character-level scanner,
    and a rule set whose masks share no byte with a pattern is shown to hide every
    pattern. *)
From S2P Require Import Prelude Record.

Local Open Scope Z_scope.

Definition CLOG_REDACT_DEFAULT_MASK : cstr := B "***".
Definition REDACT_KV_TMP_LEN : Z := 512.

Record clog_redact_rule_t := RedactRule { pattern : cstr; mask : cstr }.

(** ** The rule table: the first [g_redact_count] entries of [g_redact_rules]. *)

Definition clog_redact_add (rules : list clog_redact_rule_t) (pat msk : option cstr)
    : list clog_redact_rule_t * Z :=
  match pat with
  | None | Some [] => (rules, CLOG_ERR_INVALID_ARG)
  | Some pat =>
      if clen rules >=? CLOG_MAX_REDACT_RULES then (rules, CLOG_ERR_INVALID_ARG)
      else
        let m := match msk with
                 | None | Some [] => snprintf_s CLOG_REDACT_MAX_MASK CLOG_REDACT_DEFAULT_MASK
                 | Some msk => snprintf_s CLOG_REDACT_MAX_MASK msk
                 end in
        (rules ++ [RedactRule (snprintf_s CLOG_REDACT_MAX_PATTERN pat) m], CLOG_OK)
  end.

Definition clog_redact_clear (rules : list clog_redact_rule_t) : list clog_redact_rule_t := [].
Definition clog_redact_count (rules : list clog_redact_rule_t) : Z := clen rules.

(** ** In place (printf path) *)

(** The replacement loop of one rule: [pre] is the buffer up to the point the next
    search starts at, [rest] what follows it. Every turn consumes at least the
    pattern, so the length of [rest] is fuel enough. *)
Fixpoint redact_loop (fuel : nat) (buf_size : Z) (pat msk pre rest : cstr) : cstr :=
  match fuel with
  | O => pre ++ rest
  | S fuel' =>
      match strstr rest pat with
      | None => pre ++ rest
      | Some i =>
          let head := clen pre + Z.of_nat i in
          let after := drop (i + length pat) rest in
          if head + clen msk + clen after <? buf_size
          then redact_loop fuel' buf_size pat msk (pre ++ take i rest ++ msk) after
          else
            let avail := u64 (buf_size - head - 1) in
            let ncpy := if clen msk <? avail then clen msk else avail in
            pre ++ take i rest ++ take (Z.to_nat ncpy) msk
      end
  end.

Definition redact_apply_rule (buf_size : Z) (buf : cstr) (r : clog_redact_rule_t) : cstr :=
  if (clen (pattern r) =? 0) || (clen (mask r) =? 0) then buf
  else redact_loop (S (length buf)) buf_size (pattern r) (mask r) [] buf.

Definition redact_apply_locked (rules : list clog_redact_rule_t) (buf : cstr) (buf_size : Z) : cstr :=
  foldl (redact_apply_rule buf_size) buf rules.

Definition redact_message_if_needed (rules : list clog_redact_rule_t) (buf : cstr) (buf_size : Z) : cstr :=
  if clog_redact_count rules =? 0 then buf
  else if clog_redact_count rules >? 0 then redact_apply_locked rules buf buf_size else buf.

(** ** Copies (key-value path) *)

Fixpoint count_hits (fuel : nat) (cur pat : cstr) : Z :=
  match fuel with
  | O => 0
  | S fuel' =>
      match strstr cur pat with
      | None => 0
      | Some i => 1 + count_hits fuel' (drop (i + length pat) cur) pat
      end
  end.

(** The expanded length and the hit count. *)
Definition redact_expand_len (src pat : cstr) (pat_len msk_len : Z) : Z * Z :=
  let count := count_hits (S (length src)) src pat in
  if count =? 0 then (clen src, count)
  else (u64 (u64 (clen src - count * pat_len) + count * msk_len), count).

Fixpoint expand_loop (fuel : nat) (cur pat msk : cstr) : cstr :=
  match fuel with
  | O => cur
  | S fuel' =>
      match strstr cur pat with
      | None => cur
      | Some i => take i cur ++ msk ++ expand_loop fuel' (drop (i + length pat) cur) pat msk
      end
  end.

(** What [redact_expand_copy] leaves in [dst]. *)
Definition redact_expand_copy (src pat msk : cstr) : cstr := expand_loop (S (length src)) src pat msk.

(** Where a string lives: the caller's string, one of the two stack buffers
    ([tmps[0]] is [false]), or a heap block. *)
Inductive ptr := PSrc | PTmp (alt : bool) | PHeap (block : nat).

#[export] Instance ptr_eq_dec : EqDecision ptr.
Proof. solve_decision. Defined.

(** The memory: the live heap blocks and how many allocations were attempted. *)
Record rmem := RMem { m_src : cstr; m_tmp : bool → cstr; m_heap : gmap nat cstr; m_next : nat }.

Definition load (m : rmem) (p : ptr) : option cstr :=
  match p with
  | PSrc => Some (m_src m)
  | PTmp b => Some (m_tmp m b)
  | PHeap n => m_heap m !! n
  end.

Definition set_tmp (m : rmem) (b : bool) (s : cstr) : rmem :=
  RMem (m_src m) (λ b', if Bool.eqb b b' then s else m_tmp m b') (m_heap m) (m_next m).

(** [free]: undefined when the block is not live. *)
Definition free_block (m : rmem) (n : nat) : option rmem :=
  _ ← m_heap m !! n; Some (RMem (m_src m) (m_tmp m) (delete n (m_heap m)) (m_next m)).

Section heap.
(** Whether the [n]-th allocation succeeds. *)
Context (malloc_ok : nat → bool).

(** [redact_apply_one_buf]: the memory and [NULL] or the result with [on_stack].
    [None] is undefined behaviour: reading a dead block, or copying within the buffer
    that is being read. *)
Definition redact_apply_one_buf (m : rmem) (src : ptr) (pat msk : cstr) (alt : bool) (tmp_size : Z)
    : option (rmem * option (ptr * bool)) :=
  s ← load m src;
  let '(new_len, count) := redact_expand_len s pat (clen pat) (clen msk) in
  if count =? 0 then Some (m, None)
  else if new_len + 1 <=? tmp_size then
    if decide (src = PTmp alt) then None
    else Some (set_tmp m alt (redact_expand_copy s pat msk), Some (PTmp alt, true))
  else
    let n := m_next m in
    if malloc_ok n
    then Some (RMem (m_src m) (m_tmp m) (<[n := redact_expand_copy s pat msk]> (m_heap m)) (S n),
               Some (PHeap n, false))
    else Some (RMem (m_src m) (m_tmp m) (m_heap m) (S n), None).

(** The loop state of [redact_apply_all_locked]. *)
Record all_state := AllState { as_mem : rmem; as_cur : ptr; as_owned : option nat; as_alt : bool }.

Definition apply_all_step (st : all_state) (r : clog_redact_rule_t) : option all_state :=
  match pattern r, mask r with
  | [], _ | _, [] => Some st
  | _, _ =>
      '(m, rep) ← redact_apply_one_buf (as_mem st) (as_cur st) (pattern r) (mask r) (as_alt st)
                    REDACT_KV_TMP_LEN;
      match rep with
      | None => Some (AllState m (as_cur st) (as_owned st) (as_alt st))
      | Some (p, on_stack) =>
          '(m, owned) ← match as_owned st with
                        | Some n => if decide (as_cur st = PHeap n)
                                    then m' ← free_block m n; Some (m', None)
                                    else Some (m, Some n)
                        | None => Some (m, None)
                        end;
          Some (if (on_stack : bool) then AllState m p owned (xorb (as_alt st) true)
                else AllState m p (match p with PHeap n => Some n | _ => owned end) (as_alt st))
      end
  end.

Definition redact_apply_all_locked (rules : list clog_redact_rule_t) (m : rmem)
    : option (rmem * ptr * option nat) :=
  st ← foldl (λ (o : option all_state) r, st ← o; apply_all_step st r)
         (Some (AllState m PSrc None false)) rules;
  Some (as_mem st, as_cur st, as_owned st).

(** [redact_apply_all_heap_locked]: every matching rule allocates; the previous
    block is freed after the copy. The result is the block that is left, if any. *)
Definition heap_step (st : option (rmem * cstr * option nat)) (r : clog_redact_rule_t)
    : option (rmem * cstr * option nat) :=
  '(m, src, owned) ← st;
  match pattern r, mask r with
  | [], _ | _, [] => st
  | _, _ =>
      cur ← match owned with None => Some src | Some n => m_heap m !! n end;
      let '(new_len, count) := redact_expand_len cur (pattern r) (clen (pattern r)) (clen (mask r)) in
      if count =? 0 then st
      else
        let n := m_next m in
        if malloc_ok n then
          let m := RMem (m_src m) (m_tmp m)
                     (<[n := redact_expand_copy cur (pattern r) (mask r)]> (m_heap m)) (S n) in
          m ← match owned with None => Some m | Some o => free_block m o end;
          Some (m, src, Some n)
        else Some (RMem (m_src m) (m_tmp m) (m_heap m) (S n), src, owned)
  end.

Definition redact_apply_all_heap_locked (rules : list clog_redact_rule_t) (m : rmem) (src : cstr)
    : option (rmem * option nat) :=
  '(m, _, owned) ← foldl heap_step (Some (m, src, None)) rules; Some (m, owned).

(** [redact_kv_record_if_needed]: the record afterwards, with the text each pointer
    refers to, the memory, and the blocks the caller must free: the message's and
    one per attribute. *)
Fixpoint redact_kvs (rules : list clog_redact_rule_t) (m : rmem) (kvs : list clog_kv_t)
    : option (rmem * list clog_kv_t * list (option nat)) :=
  match kvs with
  | [] => Some (m, [], [])
  | kv :: kvs' =>
      '(m, kv', o) ←
        match kv_val kv with
        | CLOG_KV_TYPE_STR (Some s) =>
            '(m, rep) ← redact_apply_all_heap_locked rules m s;
            match rep with
            | Some n => t ← m_heap m !! n; Some (m, ClogKv (kv_key kv) (CLOG_KV_TYPE_STR (Some t)), Some n)
            | None => Some (m, kv, None)
            end
        | _ => Some (m, kv, None)
        end;
      '(m, kvs'', os) ← redact_kvs rules m kvs';
      Some (m, kv' :: kvs'', o :: os)
  end.

Definition redact_kv_record_if_needed (rules : list clog_redact_rule_t) (record : log_record_t)
    (m : rmem) : option (rmem * log_record_t * option nat * list (option nat)) :=
  if clog_redact_count rules =? 0 then Some (m, record, None, repeat None (length (r_kv record))) else
  let m := RMem (or_default (r_message record) []) (m_tmp m) (m_heap m) (m_next m) in
  '(m, msg_final, msg_owned) ← redact_apply_all_locked rules m;
  message ← load m msg_final;
  '(m, kvs, owned_str) ← redact_kvs rules m (r_kv record);
  Some (m, LogRecord (r_timestamp record) (r_file record) (r_func record) (r_module record)
             (r_tag record) (Some message) (r_level record) (r_tid record) (r_pid record)
             (r_line record) (r_trace_id record) (r_span_id record) kvs (r_is_tombstone record),
        msg_owned, owned_str).

End heap.

(** ** Reference: replace from left to right, scanning character by character *)

Fixpoint scan (fuel : nat) (pat msk s : cstr) : cstr :=
  match fuel with
  | O => s
  | S fuel' =>
      if prefixb pat s then msk ++ scan fuel' pat msk (drop (length pat) s)
      else match s with
           | [] => []
           | c :: s' => c :: scan fuel' pat msk s'
           end
  end.

Definition replace_all (pat msk s : cstr) : cstr := scan (S (length s)) pat msk s.

Lemma prefixb_len p s : prefixb p s = true → (length p ≤ length s)%nat.
Proof. intros [k ->]%prefixb_spec. rewrite length_app. lia. Qed.

Lemma scan_nil f pat msk : pat ≠ [] → scan f pat msk [] = [].
Proof. intros. destruct f; [done|]. simpl. by destruct pat. Qed.

Lemma scan_fuel f1 f2 pat msk s :
  pat ≠ [] → (length s < f1)%nat → (length s < f2)%nat → scan f1 pat msk s = scan f2 pat msk s.
Proof.
  intros Hp. revert f2 s. induction f1 as [|f1 IH]; intros [|f2] s H1 H2; [lia..|].
  simpl. destruct (prefixb pat s) eqn:E.
  - f_equal. apply prefixb_len in E. destruct pat as [|a pat]; [done|]. cbn [length] in *.
    apply IH; rewrite length_drop; lia.
  - destruct s as [|c s]; [done|]. simpl in *. f_equal. apply IH; lia.
Qed.

Lemma replace_all_match pat msk s :
  pat ≠ [] → prefixb pat s = true →
  replace_all pat msk s = msk ++ replace_all pat msk (drop (length pat) s).
Proof.
  intros Hp E. unfold replace_all at 1. cbn [scan]. rewrite E. f_equal. unfold replace_all.
  apply prefixb_len in E as Hl. destruct pat as [|a pat]; [done|]. cbn [length] in *.
  apply scan_fuel; [done|rewrite length_drop; lia|lia].
Qed.

Lemma replace_all_cons pat msk c s :
  prefixb pat (c :: s) = false → replace_all pat msk (c :: s) = c :: replace_all pat msk s.
Proof. intros E. unfold replace_all at 1. cbn [scan length]. by rewrite E. Qed.

Lemma replace_all_nil pat msk : pat ≠ [] → replace_all pat msk [] = [].
Proof. intros. by apply scan_nil. Qed.

(** Induction along the scan. *)
Lemma scan_ind (pat : cstr) (P : cstr → Prop) :
  pat ≠ [] → P [] →
  (∀ s, prefixb pat s = true → P (drop (length pat) s) → P s) →
  (∀ c s, prefixb pat (c :: s) = false → P s → P (c :: s)) → ∀ s, P s.
Proof.
  intros Hp H0 Hm Hc s. remember (length s) as n eqn:Hn. revert s Hn.
  induction (lt_wf n) as [n _ IH]. intros s ->. destruct (prefixb pat s) eqn:E.
  - apply Hm; [done|]. apply prefixb_len in E as Hl. destruct pat; [done|]. cbn [length] in *.
    eapply IH; [|done]. rewrite length_drop. lia.
  - destruct s as [|c s]; [done|]. apply Hc; [done|]. eapply IH; [|done]. simpl. lia.
Qed.

(** The scanner passes over what precedes the first occurrence. *)
Lemma replace_all_strstr pat msk s i :
  pat ≠ [] → strstr s pat = Some i →
  replace_all pat msk s = take i s ++ msk ++ replace_all pat msk (drop (i + length pat) s).
Proof.
  intros Hp. revert i. induction s as [|c s IH]; intros i H; simpl in H.
  - destruct pat; done.
  - destruct (prefixb pat (c :: s)) eqn:E.
    + injection H as <-. by rewrite replace_all_match.
    + destruct (strstr s pat) as [j|]; [|done]. injection H as <-.
      rewrite replace_all_cons by done. simpl. f_equal. by apply IH.
Qed.

Lemma replace_all_none pat msk s : pat ≠ [] → strstr s pat = None → replace_all pat msk s = s.
Proof.
  intros Hp. induction s as [|c s IH]; intros H; [by apply replace_all_nil|].
  simpl in H. destruct (prefixb pat (c :: s)) eqn:E; [done|].
  rewrite replace_all_cons by done. f_equal. apply IH. by destruct (strstr s pat).
Qed.

Lemma strstr_shrinks s pat i :
  pat ≠ [] → strstr s pat = Some i → (length (drop (i + length pat) s) < length s)%nat.
Proof.
  intros Hp H. apply strstr_Some in H as [_ H]. rewrite length_drop.
  destruct pat; [done|]. simpl in *. lia.
Qed.

Lemma expand_loop_replace f pat msk s :
  pat ≠ [] → (length s < f)%nat → expand_loop f s pat msk = replace_all pat msk s.
Proof.
  intros Hp. revert s. induction f as [|f IH]; intros s Hf; [lia|]. simpl.
  destruct (strstr s pat) as [i|] eqn:E; [|by rewrite replace_all_none].
  rewrite (replace_all_strstr _ _ _ i) by done.
  pose proof (strstr_shrinks s pat i Hp E). rewrite IH; [done|lia].
Qed.

Lemma expand_copy_replace pat msk s : pat ≠ [] → redact_expand_copy s pat msk = replace_all pat msk s.
Proof. intros. apply expand_loop_replace; [done|lia]. Qed.

(** The length of the replaced string, from the hit count. *)
Lemma count_hits_spec f pat msk s :
  pat ≠ [] → (length s < f)%nat →
  0 <= count_hits f s pat ∧ count_hits f s pat * clen pat <= clen s ∧
  clen (replace_all pat msk s) = clen s - count_hits f s pat * clen pat + count_hits f s pat * clen msk ∧
  (count_hits f s pat = 0 ↔ strstr s pat = None).
Proof.
  intros Hp. revert s. induction f as [|f IH]; intros s Hf; [lia|]. simpl.
  destruct (strstr s pat) as [i|] eqn:E.
  - pose proof (strstr_shrinks s pat i Hp E).
    destruct (IH (drop (i + length pat) s) ltac:(lia)) as (H1 & H2 & H3 & _).
    rewrite (replace_all_strstr _ _ _ i) by done. apply strstr_Some in E as [_ E].
    set (k := count_hits _ _ _) in *. clearbody k. rewrite !clen_app, H3.
    rewrite clen_take, clen_drop in *. unfold clen in *.
    split_and!; [lia|nia|nia|]. split; [lia|done].
  - rewrite replace_all_none by done. split_and!; [lia| |lia|done]. clia.
Qed.

Lemma redact_expand_len_spec s pat msk :
  pat ≠ [] → clen s < 2 ^ 63 → clen (replace_all pat msk s) < 2 ^ 64 →
  let '(len, count) := redact_expand_len s pat (clen pat) (clen msk) in
  len = clen (replace_all pat msk s) ∧ (count = 0 ↔ strstr s pat = None).
Proof.
  intros Hp Hs Hr. unfold redact_expand_len.
  destruct (count_hits_spec (S (length s)) pat msk s Hp ltac:(lia)) as (H1 & H2 & H3 & H4).
  set (k := count_hits _ _ _) in *. clearbody k.
  pose proof (clen_nonneg s). pose proof (clen_nonneg pat).
  destruct (Z.eqb_spec k 0) as [->|].
  - split; [lia|done].
  - split; [|done]. pose proof (clen_nonneg msk). pose proof (clen_nonneg (replace_all pat msk s)).
    rewrite (u64_id (clen s - k * clen pat)) by (split; nia). rewrite u64_id; [lia|split; lia].
Qed.

(** ** In place: the scanner's result, cut when it does not fit *)

Lemma redact_loop_spec f n pat msk pre rest :
  pat ≠ [] → (length rest < f)%nat → clen (pre ++ rest) < n → n < 2 ^ 64 →
  let res := redact_loop f n pat msk pre rest in
  res `prefix_of` pre ++ replace_all pat msk rest ∧ clen res < n ∧
  (clen (pre ++ replace_all pat msk rest) < n → res = pre ++ replace_all pat msk rest).
Proof.
  intros Hp. revert pre rest. induction f as [|f IH]; intros pre rest Hf Hlen Hn; [lia|].
  cbn [redact_loop]. destruct (strstr rest pat) as [i|] eqn:E.
  2:{ rewrite replace_all_none by done. split_and!; done. }
  pose proof (strstr_shrinks rest pat i Hp E).
  rewrite (replace_all_strstr _ _ _ i) by done.
  destruct (count_hits_spec (S (length (drop (i + length pat) rest))) pat msk
    (drop (i + length pat) rest) Hp ltac:(lia)) as (Hc1 & Hc2 & Hc3 & _).
  apply strstr_Some in E as [_ E].
  set (after := drop (i + length pat) rest) in *.
  assert (clen after = clen rest - Z.of_nat i - clen pat) as Hafter.
  { unfold after, clen. rewrite length_drop. lia. }
  assert (clen (take i rest) = Z.of_nat i) as Hi.
  { unfold clen. rewrite length_take. lia. }
  set (t := take i rest) in *.
  set (R := replace_all pat msk after) in *. clearbody after t. cbv zeta.
  rewrite clen_app in Hlen. rewrite !clen_app.
  pose proof (clen_nonneg msk). pose proof (clen_nonneg pat).
  pose proof (clen_nonneg after). pose proof (clen_nonneg pre).
  set (k := count_hits _ _ _) in *. clearbody k.
  destruct (Z.ltb_spec (clen pre + Z.of_nat i + clen msk + clen after) n).
  - destruct (IH (pre ++ t ++ msk) after) as (Ha & Hb & Hc); [lia|rewrite !clen_app; lia|done|].
    replace (pre ++ t ++ msk ++ R) with ((pre ++ t ++ msk) ++ R) by (by rewrite <- !app_assoc).
    split_and!; [done..|]. intros Hfit. apply Hc. rewrite !clen_app. fold R. lia.
  - rewrite (u64_id (n - _ - 1)) by (split; lia).
    set (ncpy := if clen msk <? _ then _ else _).
    assert (0 <= ncpy <= clen msk ∧ clen pre + Z.of_nat i + ncpy < n) as Hncpy.
    { unfold ncpy. destruct (Z.ltb_spec (clen msk) (n - (clen pre + Z.of_nat i) - 1)); lia. }
    clearbody ncpy. split_and!.
    + apply prefix_app, prefix_app. exists (drop (Z.to_nat ncpy) msk ++ R).
      by rewrite app_assoc, take_drop.
    + rewrite !clen_app, clen_take. lia.
    + intros Hfit. exfalso. nia.
Qed.

(** One rule of the reference. *)
Definition rule_replace (s : cstr) (r : clog_redact_rule_t) : cstr :=
  match pattern r, mask r with
  | [], _ | _, [] => s
  | _, _ => replace_all (pattern r) (mask r) s
  end.

Lemma redact_apply_rule_spec n s r :
  clen s < n → n < 2 ^ 64 →
  redact_apply_rule n s r `prefix_of` rule_replace s r ∧ clen (redact_apply_rule n s r) < n ∧
  (clen (rule_replace s r) < n → redact_apply_rule n s r = rule_replace s r).
Proof.
  intros Hs Hn. unfold redact_apply_rule, rule_replace.
  destruct (pattern r) as [|a pat], (mask r) as [|b msk]; try done.
  rewrite !clen_cons. pose proof (clen_nonneg pat). pose proof (clen_nonneg msk).
  destruct (Z.eqb_spec (1 + clen pat) 0), (Z.eqb_spec (1 + clen msk) 0); try lia.
  cbn [orb]. by apply (redact_loop_spec (S (length s)) n (a :: pat) (b :: msk) [] s); [|lia|..].
Qed.

(** ** Nothing is left to see *)

(** Patterns and masks have no byte in common. *)
Definition disjoint_from (msk q : cstr) : Prop := ∀ c, c ∈ msk → c ∉ q.

Lemma prefix_replace q pat msk s :
  pat ≠ [] → msk ≠ [] → disjoint_from msk q →
  q `prefix_of` replace_all pat msk s → q `prefix_of` s.
Proof.
  intros Hp Hm Hd. revert q Hd.
  apply (scan_ind pat (λ s, ∀ q, disjoint_from msk q → q `prefix_of` replace_all pat msk s → q `prefix_of` s));
    [done|..]; clear s.
  - intros q _. by rewrite replace_all_nil.
  - intros s E IH q Hd. rewrite replace_all_match by done. destruct msk as [|m msk]; [done|].
    destruct q as [|c q]; [intros; apply prefix_nil|]. intros Hpre.
    apply prefix_cons_inv_1 in Hpre as ->. destruct (Hd m); by left.
  - intros c s E IH [|d q] Hd; [intros; apply prefix_nil|]. rewrite replace_all_cons by done.
    intros Hpre. rewrite (prefix_cons_inv_1 _ _ _ _ Hpre). apply prefix_cons, IH.
    + intros x Hx Hq. apply (Hd x); [done|by right].
    + by apply prefix_cons_inv_2 in Hpre.
Qed.

Lemma occurs_cons q c s : occurs q (c :: s) ↔ q `prefix_of` c :: s ∨ occurs q s.
Proof.
  split.
  - intros ([|d a] & b & H); simpl in H; simplify_eq; [left; rewrite H; by exists b|right; by exists a, b].
  - intros [[b ->]|(a & b & ->)]; [by exists [], b|by exists (c :: a), b].
Qed.

Lemma occurs_app_disjoint q msk s :
  q ≠ [] → disjoint_from msk q → occurs q (msk ++ s) → occurs q s.
Proof.
  intros Hq. induction msk as [|m msk IH]; [done|]. intros Hd H. simpl in H.
  apply occurs_cons in H as [H|H].
  - destruct q as [|c q]; [done|]. apply prefix_cons_inv_1 in H as ->. destruct (Hd m); by left.
  - apply IH; [|done]. intros x Hx. apply Hd. by right.
Qed.

Lemma occurs_replace q pat msk s :
  pat ≠ [] → msk ≠ [] → q ≠ [] → disjoint_from msk q →
  occurs q (replace_all pat msk s) → occurs q s ∧ q ≠ pat.
Proof.
  intros Hp Hm Hq Hd.
  apply (scan_ind pat (λ s, occurs q (replace_all pat msk s) → occurs q s ∧ q ≠ pat)); [done|..]; clear s.
  - rewrite replace_all_nil by done. intros ([|] & b & H); [|done]. by destruct q.
  - intros s E IH. rewrite replace_all_match by done. intros H.
    apply occurs_app_disjoint in H; [|done..]. destruct (IH H) as [(a & b & Hab) Hne]. split; [|done].
    exists (take (length pat) s ++ a), b. rewrite <- app_assoc, <- Hab. by rewrite take_drop.
  - intros c s E IH. rewrite replace_all_cons by done. rewrite occurs_cons.
    rewrite <- (replace_all_cons pat) by done. intros [H|H].
    + apply prefix_replace in H; [|done..]. split; [apply occurs_cons; by left|].
      intros ->. apply prefixb_spec in H. congruence.
    + destruct (IH H). split; [apply occurs_cons; by right|done].
Qed.

Lemma occurs_prefix q s t : s `prefix_of` t → occurs q s → occurs q t.
Proof. intros [k ->] (a & b & ->). exists a, (b ++ k). by rewrite <- !app_assoc. Qed.

(** Every rule is complete and no mask shares a byte with a pattern. *)
Definition rules_disjoint (rules : list clog_redact_rule_t) : Prop :=
  ∀ r r', r ∈ rules → r' ∈ rules →
    pattern r ≠ [] ∧ mask r ≠ [] ∧ disjoint_from (mask r) (pattern r').

Lemma rule_replace_complete s r :
  pattern r ≠ [] → mask r ≠ [] → rule_replace s r = replace_all (pattern r) (mask r) s.
Proof. unfold rule_replace. by destruct (pattern r), (mask r). Qed.

(** After the rules, none of the patterns applied so far occurs. *)
Lemma fold_hides f (Inv : cstr → Prop) (rules rs : list clog_redact_rule_t) s hidden :
  (∀ s r, r ∈ rules → Inv s → f s r `prefix_of` rule_replace s r ∧ Inv (f s r)) → Inv s →
  rules_disjoint rules → (∀ r, r ∈ rs → r ∈ rules) → (∀ r, r ∈ hidden → r ∈ rules) →
  (∀ r, r ∈ hidden → ¬ occurs (pattern r) s) →
  ∀ r, r ∈ hidden ++ rs → ¬ occurs (pattern r) (foldl f s rs).
Proof.
  intros Hf Hs Hd. revert s hidden Hs. induction rs as [|x rs IH]; intros s hidden Hs Hrs Hh Hocc r Hr.
  { rewrite app_nil_r in Hr. by apply Hocc. }
  assert (x ∈ rules) as Hx by (apply Hrs; by left).
  assert (∀ y, y ∈ hidden ++ [x] → y ∈ rules) as Hall.
  { intros y. rewrite elem_of_app, list_elem_of_singleton. intros [?| ->]; auto. }
  destruct (Hf s x Hx Hs) as [Hpre Hs'].
  simpl. apply (IH (f s x) (hidden ++ [x])); [done| |done| |by rewrite <- app_assoc].
  - intros y Hy. apply Hrs. by right.
  - intros y Hy Hoc. specialize (Hall y Hy).
    destruct (Hd x y Hx Hall) as (Hp & Hm & Hdj). destruct (Hd y y Hall Hall) as (Hpy & _ & _).
    apply (occurs_prefix _ _ _ Hpre) in Hoc. rewrite rule_replace_complete in Hoc by done.
    apply occurs_replace in Hoc as [Hoc Hne]; [|done..].
    rewrite elem_of_app, list_elem_of_singleton in Hy. destruct Hy as [Hy| ->]; [by apply (Hocc y)|done].
Qed.

(** ** The key-value path: no aliasing, no leak *)

Section heap_proofs.
Context (malloc_ok : nat → bool).

(** The live blocks are those of [base] and the one that holds the current text. *)
Definition all_ok (base : gmap nat cstr) (src : cstr) (st : all_state) (t : cstr) : Prop :=
  load (as_mem st) (as_cur st) = Some t ∧
  (∀ n, m_next (as_mem st) ≤ n → base !! n = None)%nat ∧
  match as_cur st with
  | PSrc => as_owned st = None ∧ m_heap (as_mem st) = base
  | PTmp b => as_owned st = None ∧ m_heap (as_mem st) = base ∧ b = negb (as_alt st)
  | PHeap n => as_owned st = Some n ∧ (n < m_next (as_mem st))%nat ∧ base !! n = None ∧
               m_heap (as_mem st) = <[n := t]> base
  end.

Lemma one_buf_spec m src pat msk alt s :
  pat ≠ [] → load m src = Some s → src ≠ PTmp alt →
  clen s < 2 ^ 63 → clen (replace_all pat msk s) < 2 ^ 63 →
  ∃ m' rep, redact_apply_one_buf malloc_ok m src pat msk alt REDACT_KV_TMP_LEN = Some (m', rep) ∧
  m_src m' = m_src m ∧ (m_next m ≤ m_next m')%nat ∧
  match rep with
  | None => m_heap m' = m_heap m ∧ m_tmp m' = m_tmp m ∧
            (replace_all pat msk s = s ∨ malloc_ok (m_next m) = false)
  | Some (p, on_stack) =>
      load m' p = Some (replace_all pat msk s) ∧
      ((p = PTmp alt ∧ on_stack = true ∧ m_heap m' = m_heap m) ∨
       (p = PHeap (m_next m) ∧ on_stack = false ∧ m_next m' = S (m_next m) ∧
        m_heap m' = <[m_next m := replace_all pat msk s]> (m_heap m)))
  end.
Proof.
  intros Hp Hs Hne Hl Hr. unfold redact_apply_one_buf. rewrite Hs. cbn [mbind option_bind].
  pose proof (redact_expand_len_spec s pat msk Hp Hl ltac:(lia)) as H.
  destruct (redact_expand_len s pat (clen pat) (clen msk)) as [len count]. destruct H as [-> Hc].
  destruct (Z.eqb_spec count 0) as [H0|H0].
  { exists m, None. split_and!; [done..|]. left. apply replace_all_none; [done|]. by apply Hc. }
  rewrite !expand_copy_replace by done. destruct (Z.leb_spec (clen (replace_all pat msk s) + 1) REDACT_KV_TMP_LEN).
  - rewrite decide_False by done. eexists _, _. split; [done|]. split_and!; [done|done|simpl|by left].
    by destruct alt.
  - destruct (malloc_ok (m_next m)) eqn:Hm; eexists _, _; (split; [done|]); simpl;
      (split_and!; [done|lia|..]); auto. by rewrite lookup_insert_eq.
Qed.

Definition rules_fit (src : cstr) (rules : list clog_redact_rule_t) : Prop :=
  ∀ rs, rs `sublist_of` rules → clen (foldl rule_replace src rs) < 2 ^ 63.

Lemma apply_all_step_ok base src st t r :
  all_ok base src st t → clen t < 2 ^ 63 → clen (rule_replace t r) < 2 ^ 63 →
  ∃ st' t', apply_all_step malloc_ok st r = Some st' ∧ all_ok base src st' t' ∧
    (t' = rule_replace t r ∨ t' = t ∧ ∃ n, malloc_ok n = false).
Proof.
  intros (Hload & Hfresh & Hcur) Ht Hr. unfold apply_all_step, rule_replace in *.
  destruct (pattern r) as [|a pat] eqn:Ep; [exists st, t; unfold all_ok; auto 10|].
  destruct (mask r) as [|b msk] eqn:Em; [exists st, t; unfold all_ok; auto 10|].
  assert (as_cur st ≠ PTmp (as_alt st)) as Hna.
  { intros E. rewrite E in Hcur. destruct Hcur as (_ & _ & H). by destruct (as_alt st). }
  destruct (one_buf_spec (as_mem st) (as_cur st) (a :: pat) (b :: msk) (as_alt st) t)
    as (m' & rep & -> & Hsrc & Hnext & Hrep); [done..|]. cbn [mbind option_bind].
  destruct rep as [[p on_stack]|].
  2:{ destruct Hrep as (Hheap & Htmp & Hor). exists (AllState m' (as_cur st) (as_owned st) (as_alt st)), t.
      split; [done|]. split.
      - unfold all_ok. simpl. split_and!.
        + destruct (as_cur st); simpl in *; congruence.
        + intros n Hn. apply Hfresh. lia.
        + destruct (as_cur st); rewrite Hheap; [done..|]. destruct Hcur as (?&?&?&?). split_and!; [done|lia|done|done].
      - destruct Hor as [Hor|Hor]; [left; by rewrite Hor|right; eauto]. }
  destruct Hrep as [Hload' Hrep]. set (R := replace_all (a :: pat) (b :: msk) t) in *.
  set (k := m_next (as_mem st)) in *.
  assert (∃ m'', match as_owned st with
      | Some n => if decide (as_cur st = PHeap n) then m'' ← free_block m' n; Some (m'', None)
                  else Some (m', Some n)
      | None => Some (m', None) end = Some (m'', None) ∧
      m_src m'' = m_src m' ∧ m_tmp m'' = m_tmp m' ∧ m_next m'' = m_next m' ∧
      m_heap m'' = if on_stack then base else <[k := R]> base) as (m'' & -> & Hs'' & Ht'' & Hn'' & Hh'').
  { destruct (as_cur st) as [|b'|n]; [destruct Hcur as (-> & Hh)|destruct Hcur as (-> & Hh & _)|];
      [exists m'; destruct Hrep as [(_ & -> & ->)|(_ & -> & _ & ->)]; by rewrite ?Hh..|].
    destruct Hcur as (-> & Hlt & Hbase & Hh). rewrite decide_True by done.
    assert (m_heap m' !! n = Some t ∧ delete n (m_heap m') = if on_stack then base else <[k := R]> base)
      as [Hl Hdel].
    { destruct Hrep as [(_ & -> & ->)|(_ & -> & _ & ->)]; rewrite Hh.
      - rewrite lookup_insert_eq, delete_insert_id by done. done.
      - rewrite lookup_insert_ne, lookup_insert_eq, delete_insert_ne, delete_insert_id by (done || lia). done. }
    unfold free_block. rewrite Hl. cbn [mbind option_bind]. eexists. split; [done|]. done. }
  destruct Hrep as [(-> & -> & Hh')|(-> & -> & Hn' & Hh')].
  - eexists _, R. split; [done|]. split; [|by left]. unfold all_ok. simpl in *.
    rewrite Ht'', Hn''. split_and!; [done| |done|done|by destruct (as_alt st)].
    intros n Hn. apply Hfresh. lia.
  - eexists _, R. split; [done|]. split; [|by left]. unfold all_ok. simpl in *.
    rewrite Hh'', Hn'', lookup_insert_eq. split_and!; [done| |done|lia| |done].
    + intros n Hn. apply Hfresh. lia.
    + by apply Hfresh.
Qed.

Lemma apply_all_ok base src rules st t :
  all_ok base src st t → rules_fit t rules →
  ∃ st' rs, foldl (λ (o : option all_state) r, st ← o; apply_all_step malloc_ok st r) (Some st) rules = Some st' ∧
    rs `sublist_of` rules ∧ all_ok base src st' (foldl rule_replace t rs) ∧
    ((∀ n, malloc_ok n = true) → rs = rules).
Proof.
  revert st t. induction rules as [|r rules IH]; intros st t Hst Hfit.
  { exists st, []. done. }
  assert (clen t < 2 ^ 63) as H1 by (apply (Hfit []); apply sublist_nil_l).
  assert (clen (rule_replace t r) < 2 ^ 63) as H2.
  { apply (Hfit [r]). constructor. apply sublist_nil_l. }
  destruct (apply_all_step_ok base src st t r Hst H1 H2) as (st1 & t1 & Hstep & Hst1 & Ht1).
  simpl. cbn [mbind option_bind]. rewrite Hstep.
  destruct Ht1 as [->|[-> [n Hn]]].
  - destruct (IH st1 (rule_replace t r) Hst1) as (st' & rs & Hf & Hsub & Hok & Hall).
    { intros rs Hrs. apply (Hfit (r :: rs)). by constructor. }
    exists st', (r :: rs). split_and!; [done|by constructor|done|]. intros H. by rewrite Hall.
  - destruct (IH st1 t Hst1) as (st' & rs & Hf & Hsub & Hok & _).
    { intros rs Hrs. apply Hfit. by constructor. }
    exists st', rs. split_and!; [done|by constructor|done|]. intros H. by rewrite H in Hn.
Qed.

(** The heap-only variant. *)
Definition heap_ok (base : gmap nat cstr) (src : cstr) (m : rmem) (owned : option nat) (t : cstr) : Prop :=
  (∀ n, m_next m ≤ n → base !! n = None)%nat ∧
  match owned with
  | None => t = src ∧ m_heap m = base
  | Some n => (n < m_next m)%nat ∧ base !! n = None ∧ m_heap m = <[n := t]> base
  end.

Lemma heap_step_ok base src m owned t r :
  heap_ok base src m owned t → clen t < 2 ^ 63 → clen (rule_replace t r) < 2 ^ 63 →
  ∃ m' owned' t', heap_step malloc_ok (Some (m, src, owned)) r = Some (m', src, owned') ∧
    heap_ok base src m' owned' t' ∧ (t' = rule_replace t r ∨ t' = t ∧ ∃ n, malloc_ok n = false) ∧
    m_src m' = m_src m ∧ m_tmp m' = m_tmp m.
Proof.
  intros Hok Ht Hr. unfold heap_step, rule_replace in *. cbn [mbind option_bind].
  destruct (pattern r) as [|a pat] eqn:Ep; [exists m, owned, t; auto|].
  destruct (mask r) as [|b msk] eqn:Em; [exists m, owned, t; auto|].
  assert (match owned with Some n => m_heap m !! n | None => Some src end = Some t) as ->.
  { destruct Hok as [_ Hok]. destruct owned as [n|]; [|by destruct Hok as [-> _]].
    destruct Hok as (_ & _ & ->). by rewrite lookup_insert_eq. }
  cbn [mbind option_bind].
  pose proof (redact_expand_len_spec t (a :: pat) (b :: msk) ltac:(done) Ht ltac:(lia)) as H.
  destruct (redact_expand_len t _ _ _) as [len count]. destruct H as [-> Hc].
  destruct (Z.eqb_spec count 0) as [H0|H0].
  { exists m, owned, t. split_and!; [done|done| |done|done]. left.
    symmetry. apply replace_all_none; [done|]. by apply Hc. }
  rewrite expand_copy_replace by done. destruct Hok as [Hfresh Hok].
  destruct (malloc_ok (m_next m)) eqn:Hm.
  2:{ eexists _, owned, t. split_and!; [done| |right; eauto|done|done]. split; simpl.
      - intros n Hn. apply Hfresh. lia.
      - destruct owned; [|done]. destruct Hok as (?&?&?). split_and!; [lia|done|done]. }
  set (R := replace_all (a :: pat) (b :: msk) t) in *. destruct owned as [n|].
  - destruct Hok as (Hlt & Hbase & Hh). unfold free_block. cbn [m_heap m_src m_tmp m_next].
    rewrite Hh, lookup_insert_ne, lookup_insert_eq by lia. cbn [mbind option_bind].
    eexists _, _, R. split; [done|]. split_and!; [|by left|done|done]. split; simpl.
    + intros k Hk. apply Hfresh. lia.
    + rewrite delete_insert_ne, delete_insert_id by (done || lia). split_and!; [lia|by apply Hfresh|done].
  - destruct Hok as [-> Hh]. cbn [mbind option_bind].
    eexists _, _, R. split; [done|]. split_and!; [|by left|done|done]. split; simpl.
    + intros k Hk. apply Hfresh. lia.
    + rewrite Hh. split_and!; [lia|by apply Hfresh|done].
Qed.

Lemma heap_fold_ok base src rules m owned t :
  heap_ok base src m owned t → rules_fit t rules →
  ∃ m' owned' rs, foldl (heap_step malloc_ok) (Some (m, src, owned)) rules = Some (m', src, owned') ∧
    rs `sublist_of` rules ∧ heap_ok base src m' owned' (foldl rule_replace t rs) ∧
    ((∀ n, malloc_ok n = true) → rs = rules).
Proof.
  revert m owned t. induction rules as [|r rules IH]; intros m owned t Hok Hfit.
  { exists m, owned, []. done. }
  assert (clen t < 2 ^ 63) as H1 by (apply (Hfit []); apply sublist_nil_l).
  assert (clen (rule_replace t r) < 2 ^ 63) as H2.
  { apply (Hfit [r]). constructor. apply sublist_nil_l. }
  destruct (heap_step_ok base src m owned t r Hok H1 H2) as (m1 & o1 & t1 & Hstep & Hok1 & Ht1 & _).
  cbn [foldl]. rewrite Hstep. destruct Ht1 as [->|[-> [n Hn]]].
  - destruct (IH m1 o1 _ Hok1) as (m' & o' & rs & Hf & Hsub & Hok' & Hall).
    { intros rs Hrs. apply (Hfit (r :: rs)). by constructor. }
    exists m', o', (r :: rs). split_and!; [done|by constructor|done|]. intros H. by rewrite Hall.
  - destruct (IH m1 o1 t Hok1) as (m' & o' & rs & Hf & Hsub & Hok' & _).
    { intros rs Hrs. apply Hfit. by constructor. }
    exists m', o', rs. split_and!; [done|by constructor|done|]. intros H. by rewrite H in Hn.
Qed.

(** Blocks not handed out yet are dead. *)
Definition heap_fresh (m : rmem) : Prop := ∀ n, (m_next m ≤ n)%nat → m_heap m !! n = None.

(** An attribute with its string run through the rules. *)
Definition redacted_kv (rules : list clog_redact_rule_t) (kv : clog_kv_t) : clog_kv_t :=
  match kv_val kv with
  | CLOG_KV_TYPE_STR (Some s) => ClogKv (kv_key kv) (CLOG_KV_TYPE_STR (Some (foldl rule_replace s rules)))
  | _ => kv
  end.
Definition kv_fits (rules : list clog_redact_rule_t) (kv : clog_kv_t) : Prop :=
  match kv_val kv with CLOG_KV_TYPE_STR (Some s) => rules_fit s rules | _ => True end.

Lemma redact_heap_all rules m s :
  heap_fresh m → rules_fit s rules → (∀ n, malloc_ok n = true) →
  ∃ m' o, redact_apply_all_heap_locked malloc_ok rules m s = Some (m', o) ∧ heap_fresh m' ∧
    match o with Some n => m_heap m' !! n = Some (foldl rule_replace s rules) | None => foldl rule_replace s rules = s end.
Proof.
  intros Hf Hfit Hm. destruct (heap_fold_ok (m_heap m) s rules m None s) as (m' & o & rs & E & _ & [Hn Hok] & Hall); [done|done|].
  rewrite (Hall Hm) in Hok. unfold redact_apply_all_heap_locked. rewrite E. exists m', o. split; [done|]. destruct o as [n|].
  - destruct Hok as (Hlt & Hb & Hh). split; [|rewrite Hh; apply lookup_insert_eq]. intros k Hk.
    rewrite Hh, lookup_insert_ne by lia. by apply Hn.
  - destruct Hok as [Ht Hh]. split; [|done]. intros k Hk. rewrite Hh. by apply Hn.
Qed.

Lemma redact_kvs_all rules kvs : (∀ n, malloc_ok n = true) → ∀ m,
  heap_fresh m → Forall (kv_fits rules) kvs →
  ∃ m' os, redact_kvs malloc_ok rules m kvs = Some (m', map (redacted_kv rules) kvs, os).
Proof.
  intros Hm. induction kvs as [|kv kvs IH]; intros m Hf Hfit; [by exists m, []|].
  apply Forall_cons in Hfit as [Hkv Hfit]. cbn [redact_kvs map].
  assert (∃ m1 o, (match kv_val kv with
    | CLOG_KV_TYPE_STR (Some s) =>
        '(m, rep) ← redact_apply_all_heap_locked malloc_ok rules m s;
        match rep with
        | Some n => t ← m_heap m !! n; Some (m, ClogKv (kv_key kv) (CLOG_KV_TYPE_STR (Some t)), Some n)
        | None => Some (m, kv, None)
        end
    | _ => Some (m, kv, None)
    end) = Some (m1, redacted_kv rules kv, o) ∧ heap_fresh m1) as (m1 & o & -> & Hf1).
  { unfold kv_fits, redacted_kv in *. destruct kv as [key v]. cbn in *. destruct v as [| | |[t|]|]; try (by exists m, None).
    destruct (redact_heap_all rules m t Hf Hkv Hm) as (m1 & o & -> & Hf1 & Ho). cbn [mbind option_bind].
    destruct o as [n|]; [rewrite Ho; by exists m1, (Some n)|rewrite Ho; by exists m1, None]. }
  cbn [mbind option_bind]. destruct (IH m1 Hf1 Hfit) as (m' & os & ->). by exists m', (o :: os).
Qed.

End heap_proofs.

(** ** Properties *)

(** The table invariant: at most 16 rules, each with a bounded, non-empty pattern
    and mask. *)
Definition rules_ok (rules : list clog_redact_rule_t) : Prop :=
  clen rules <= CLOG_MAX_REDACT_RULES ∧
  Forall (λ r, 0 < clen (pattern r) < CLOG_REDACT_MAX_PATTERN ∧ 0 < clen (mask r) < CLOG_REDACT_MAX_MASK) rules.

(** Registering a rule keeps the table's invariant and reports exactly the
    rejected ones: an empty pattern or a seventeenth rule. *)
Theorem clog_redact_add_ok rules pat msk :
  rules_ok rules →
  let '(rules', rc) := clog_redact_add rules pat msk in
  rules_ok rules' ∧
  (rc = CLOG_OK ↔ or_default pat [] ≠ [] ∧ clen rules < CLOG_MAX_REDACT_RULES) ∧
  (rc ≠ CLOG_OK → rc = CLOG_ERR_INVALID_ARG ∧ rules' = rules).
Proof.
  intros [Hlen Hall]. unfold clog_redact_add.
  destruct pat as [[|c pat]|]; try (split_and!; [done| |done]; split; [done|by intros [? _]]).
  rewrite Z.geb_leb. destruct (Z.leb_spec CLOG_MAX_REDACT_RULES (clen rules)).
  { split_and!; [done| |done]. split; [done|]. intros [_ ?]. lia. }
  split_and!; [|split; [split; [done|lia]|done]|done].
  split; [rewrite clen_app; unfold clen at 2; simpl; lia|].
  apply Forall_app. split; [done|]. apply Forall_singleton. cbn [pattern mask].
  assert (∀ (n : Z) d (s : cstr), 1 < n → 0 < clen (snprintf_s n (d :: s)) < n) as Hs.
  { intros n d s Hn. split; [|apply snprintf_s_len; lia]. unfold snprintf_s.
    destruct (Z.to_nat (n - 1)) eqn:E; [lia|]. simpl. rewrite clen_cons. clia. }
  split; [by apply Hs|]. destruct msk as [[|d msk]|]; by apply Hs.
Qed.

Lemma clog_redact_add_ok_witness :
  rules_ok (clog_redact_add [] (Some (B "secret")) None).1.
Proof.
  apply (clog_redact_add_ok [] (Some (B "secret")) None). split; [done|apply Forall_nil_2].
Defined.

(** Counting the hits first gives the exact size of the copy, and the copy is
    the left-to-right replacement of every occurrence, so [dst] is neither overrun nor
    left with a gap. *)
Theorem redact_expand_exact src pat msk :
  pat ≠ [] → clen src < 2 ^ 63 → clen (replace_all pat msk src) < 2 ^ 64 →
  redact_expand_copy src pat msk = replace_all pat msk src ∧
  (redact_expand_len src pat (clen pat) (clen msk)).1 = clen (redact_expand_copy src pat msk) ∧
  ((redact_expand_len src pat (clen pat) (clen msk)).2 = 0 ↔ ¬ occurs pat src).
Proof.
  intros Hp Hs Hr. pose proof (redact_expand_len_spec src pat msk Hp Hs Hr) as H.
  destruct (redact_expand_len _ _ _ _) as [len count]. destruct H as [-> Hc].
  rewrite expand_copy_replace by done. split_and!; [done|done|].
  simpl. by rewrite Hc, strstr_None.
Qed.

Lemma redact_expand_exact_witness :
  redact_expand_copy (B "aXbXX") (B "X") (B "**") = B "a**b****" ∧
  (redact_expand_len (B "aXbXX") (B "X") 1 2).1 = 8.
Proof.
  destruct (redact_expand_exact (B "aXbXX") (B "X") (B "**") ltac:(discriminate)
    ltac:(vm_compute; reflexivity) ltac:(vm_compute; reflexivity)) as (H1 & H2 & _).
  split; [rewrite H1; vm_compute; reflexivity|]. rewrite H1 in H2. exact H2.
Defined.

(** The in-place replacement of one rule stays inside the buffer, is the
    replacement of every occurrence whenever that fits, and otherwise a prefix of it. *)
Theorem redact_in_place_correct buf_size buf r :
  clen buf < buf_size → buf_size < 2 ^ 64 → pattern r ≠ [] → mask r ≠ [] →
  let res := redact_apply_rule buf_size buf r in
  let full := replace_all (pattern r) (mask r) buf in
  clen res < buf_size ∧ res `prefix_of` full ∧ (clen full < buf_size → res = full).
Proof.
  intros Hb Hn Hp Hm. destruct (redact_apply_rule_spec buf_size buf r Hb Hn) as (H1 & H2 & H3).
  rewrite rule_replace_complete in * by done. done.
Qed.

Lemma redact_in_place_correct_witness :
  redact_apply_rule 32 (B "user=bob user=eve") (RedactRule (B "user=") (B "u:")) = B "u:bob u:eve".
Proof.
  rewrite (proj2 (proj2 (redact_in_place_correct 32 (B "user=bob user=eve")
    (RedactRule (B "user=") (B "u:")) ltac:(vm_compute; reflexivity) ltac:(lia)
    ltac:(discriminate) ltac:(discriminate)))); vm_compute; reflexivity.
Defined.

Lemma redact_message_hides rules buf buf_size r :
  rules_disjoint rules → clen buf < buf_size → buf_size < 2 ^ 64 → r ∈ rules →
  ¬ occurs (pattern r) (redact_message_if_needed rules buf buf_size).
Proof.
  intros Hd Hb Hn Hr. unfold redact_message_if_needed, clog_redact_count.
  destruct rules as [|x rules]; [by apply not_elem_of_nil in Hr|].
  rewrite clen_cons, Z.gtb_ltb. pose proof (clen_nonneg rules).
  destruct (Z.eqb_spec (1 + clen rules) 0), (Z.ltb_spec 0 (1 + clen rules)); try lia.
  apply (fold_hides _ (λ s, clen s < buf_size) (x :: rules) (x :: rules) buf []); try done.
  - intros s y _ Hs. destruct (redact_apply_rule_spec buf_size s y Hs Hn) as (?&?&?). done.
  - intros y Hy. by apply not_elem_of_nil in Hy.
  - intros y Hy. by apply not_elem_of_nil in Hy.
Qed.

(** Redaction in place never outgrows its buffer. *)
Lemma redact_message_len rules buf buf_size :
  clen buf < buf_size → buf_size < 2 ^ 64 → clen (redact_message_if_needed rules buf buf_size) < buf_size.
Proof.
  intros Hb Hn. unfold redact_message_if_needed. destruct (_ =? 0); [done|]. destruct (_ >? 0); [|done].
  unfold redact_apply_locked. revert buf Hb. induction rules as [|r rules IH]; intros buf Hb; [done|].
  cbn [foldl]. apply IH. by destruct (redact_apply_rule_spec buf_size buf r Hb Hn) as (_ & ? & _).
Qed.

(** The rules in order leave none of their patterns. *)
Lemma fold_replace_hides rules s r : rules_disjoint rules → r ∈ rules → ¬ occurs (pattern r) (foldl rule_replace s rules).
Proof.
  intros Hd Hr. apply (fold_hides _ (λ _, True) rules rules s []); try done.
  - intros y Hy. by apply not_elem_of_nil in Hy.
  - intros y Hy. by apply not_elem_of_nil in Hy.
Qed.

Definition kv_string (kv : clog_kv_t) : cstr := match kv_val kv with CLOG_KV_TYPE_STR (Some s) => s | _ => [] end.

Lemma redacted_kv_hides rules kv r :
  rules_disjoint rules → r ∈ rules → ¬ occurs (pattern r) (kv_string (redacted_kv rules kv)).
Proof.
  intros Hd Hr. destruct (Hd r r Hr Hr) as (Hne & _ & _).
  assert (¬ occurs (pattern r) []) as Hnil by (intros (a & b & E); by destruct a, (pattern r)).
  unfold redacted_kv, kv_string. destruct kv as [key v]. cbn. destruct v as [| | |[t|]|]; cbn; try done. by apply fold_replace_hides.
Qed.

(** C19: when no mask shares a byte with a pattern, redaction leaves no registered
    pattern. A message redacted in place (where it may also have been cut to the
    buffer) contains none; and when every allocation succeeds, the copying path
    [redact_kv_record_if_needed] returns, and neither the message of its record nor the
    string of any of its attributes contains one. *)
Theorem redact_hides_every_pattern malloc_ok rules buf buf_size r record m :
  rules_disjoint rules → r ∈ rules → clen buf < buf_size → buf_size < 2 ^ 64 →
  (∀ n, malloc_ok n = true) → heap_fresh m →
  rules_fit (or_default (r_message record) []) rules → Forall (kv_fits rules) (r_kv record) →
  ¬ occurs (pattern r) (redact_message_if_needed rules buf buf_size) ∧
  ∃ m' record' o os, redact_kv_record_if_needed malloc_ok rules record m = Some (m', record', o, os) ∧
    ¬ occurs (pattern r) (or_default (r_message record') []) ∧
    Forall (λ kv, ¬ occurs (pattern r) (kv_string kv)) (r_kv record').
Proof.
  intros Hd Hr Hb Hn Hm Hf Hfit Hkv. split; [by apply redact_message_hides|].
  unfold redact_kv_record_if_needed, clog_redact_count. destruct rules as [|x rules]; [by apply not_elem_of_nil in Hr|].
  rewrite clen_cons. pose proof (clen_nonneg rules). destruct (Z.eqb_spec (1 + clen rules) 0); [lia|].
  set (m0 := RMem _ (m_tmp m) (m_heap m) (m_next m)).
  destruct (apply_all_ok malloc_ok (m_heap m) (m_src m0) (x :: rules) (AllState m0 PSrc None false) (m_src m0))
    as (st & rs & E & _ & (Hload & Hfresh & Hcur) & Hall); [done|done|].
  unfold redact_apply_all_locked. rewrite E. cbn [mbind option_bind]. rewrite Hload, (Hall Hm). cbn [mbind option_bind].
  destruct (redact_kvs_all malloc_ok (x :: rules) (r_kv record) Hm (as_mem st)) as (m' & os & ->); [|done|].
  - intros k Hk. destruct (as_cur st) as [|b|n0]; [destruct Hcur as (_ & ->)|destruct Hcur as (_ & -> & _)|]; try by apply Hfresh.
    destruct Hcur as (_ & Hlt & _ & ->). rewrite lookup_insert_ne by lia. by apply Hfresh.
  - cbn [mbind option_bind]. do 4 eexists. split; [reflexivity|]. cbn [r_message r_kv or_default]. split; [by apply fold_replace_hides|].
    apply Forall_map, Forall_forall. intros kv _. by apply redacted_kv_hides.
Qed.

Lemma redact_hides_every_pattern_witness :
  let rules := [RedactRule (B "pw") (B "*")] in
  ¬ occurs (B "pw") (redact_message_if_needed rules (B "pw=pwpw") 64) ∧
  ∃ m' record' o os,
    redact_kv_record_if_needed (λ _, true) rules
      (LogRecord 0 None None None None (Some (B "a pw")) LOG_LEVEL_INFO 0 0 0 [] [] [ClogKv (Some (B "k")) (CLOG_KV_TYPE_STR (Some (B "pwpw")))] false)
      (RMem [] (λ _, []) ∅ 0) = Some (m', record', o, os) ∧
    ¬ occurs (B "pw") (or_default (r_message record') []).
Proof.
  intros rules.
  assert (∀ s rs, clen (foldl rule_replace s [RedactRule (B "pw") (B "*")]) < 2 ^ 63 → clen s < 2 ^ 63 →
    rs `sublist_of` [RedactRule (B "pw") (B "*")] → clen (foldl rule_replace s rs) < 2 ^ 63) as Hfit.
  { intros s rs H1 H2 Hrs. apply sublist_cons_r in Hrs as [Hrs|(rs' & -> & Hrs)]; apply sublist_nil_r in Hrs as ->; done. }
  destruct (redact_hides_every_pattern (λ _, true) rules (B "pw=pwpw") 64 (RedactRule (B "pw") (B "*"))
    (LogRecord 0 None None None None (Some (B "a pw")) LOG_LEVEL_INFO 0 0 0 [] [] [ClogKv (Some (B "k")) (CLOG_KV_TYPE_STR (Some (B "pwpw")))] false)
    (RMem [] (λ _, []) ∅ 0)) as (H1 & m' & r' & o & os & H2 & H3 & _).
  - intros r r' Hr Hr'. apply list_elem_of_singleton in Hr, Hr'. subst.
    split_and!; [discriminate|discriminate|]. unfold disjoint_from. simpl.
    intros c Hc Hq. apply list_elem_of_singleton in Hc. subst.
    vm_compute in Hq. by repeat (apply elem_of_cons in Hq as [Hq|Hq]; [discriminate|]);
      apply not_elem_of_nil in Hq.
  - by left.
  - vm_compute. reflexivity.
  - lia.
  - done.
  - intros k _. apply lookup_empty.
  - intros rs. apply Hfit; vm_compute; reflexivity.
  - constructor; [|constructor]. intros rs. apply Hfit; vm_compute; reflexivity.
  - split; [exact H1|]. by exists m', r', o, os.
Defined.

(** C32: applying the rules to a message through the two stack buffers and the heap
    never reads a freed block, never copies a buffer onto itself and never frees
    twice; at the end the only block left besides the caller's is the one reported to
    the caller, and the message is the replacement by the rules in order, less those
    whose allocation failed. *)
Theorem redact_apply_all_safe malloc_ok rules m :
  rules_fit (m_src m) rules → (∀ n, m_next m ≤ n → m_heap m !! n = None)%nat →
  ∃ m' cur owned rs,
    redact_apply_all_locked malloc_ok rules m = Some (m', cur, owned) ∧
    rs `sublist_of` rules ∧ ((∀ n, malloc_ok n = true) → rs = rules) ∧
    load m' cur = Some (foldl rule_replace (m_src m) rs) ∧
    match owned with
    | None => m_heap m' = m_heap m
    | Some n => cur = PHeap n ∧ delete n (m_heap m') = m_heap m
    end.
Proof.
  intros Hfit Hfresh. unfold redact_apply_all_locked.
  destruct (apply_all_ok malloc_ok (m_heap m) (m_src m) rules (AllState m PSrc None false) (m_src m))
    as (st & rs & -> & Hsub & (Hload & _ & Hcur) & Hall); [done|done|].
  exists (as_mem st), (as_cur st), (as_owned st), rs. split_and!; [done..|].
  destruct (as_cur st) as [|b|n]; [by destruct Hcur as (-> & ->)|by destruct Hcur as (-> & -> & _)|].
  destruct Hcur as (-> & _ & Hn & ->). split; [done|]. by rewrite delete_insert_id.
Qed.

Lemma redact_apply_all_safe_witness :
  ∃ m' cur, redact_apply_all_locked (λ _, true)
      [RedactRule (B "a") (B "bb"); RedactRule (B "bb") (B "c")]
      (RMem (B "xax") (λ _, []) ∅ 0) = Some (m', cur, None) ∧ load m' cur = Some (B "xcx").
Proof.
  destruct (redact_apply_all_safe (λ _, true)
      [RedactRule (B "a") (B "bb"); RedactRule (B "bb") (B "c")] (RMem (B "xax") (λ _, []) ∅ 0))
    as (m' & cur & owned & rs & H1 & _ & H2 & H3 & H4).
  - intros rs Hrs. apply sublist_cons_r in Hrs as [Hrs|(rs' & -> & Hrs)];
      apply sublist_cons_r in Hrs as [Hrs|(rs'' & -> & Hrs)];
      apply sublist_nil_r in Hrs as ->; vm_compute; reflexivity.
  - intros n _. apply lookup_empty.
  - assert (owned = None) as ->.
    { assert (redact_apply_all_locked (λ _, true)
        [RedactRule (B "a") (B "bb"); RedactRule (B "bb") (B "c")]
        (RMem (B "xax") (λ _, []) ∅ 0) ≫= (λ x, Some (x.2)) = Some None) as E by (vm_compute; reflexivity).
      rewrite H1 in E. simpl in E. congruence. }
    exists m', cur. split; [done|]. rewrite H3, H2 by done. vm_compute. reflexivity.
Defined.

(** A mask that is one byte too long for a full buffer drops everything behind the
    replacement, although most of it would fit. *)
Example redact_overflow_drops_tail :
  redact_apply_rule 12 (B "k=1 abcdefg") (RedactRule (B "k") (B "key")) = B "key".
Proof. vm_compute. reflexivity. Qed.
