(* ===== verification/Rotate.v ===== *)
(** * Log rotation (core/rotate.c)

    A file system as a map from paths to contents, with the paths the process may
    not touch; the numbered backup chain of [file_rotate_file], and the proof that it
    shifts the chain by exactly one. *)
From S2P Require Import Prelude FastAscii Record.

Local Open Scope Z_scope.

Definition EACCES : Z := 13.
Definition ENOENT : Z := 2.

(** Regular files by path. *)
Abbreviation filesys := (gmap cstr cstr).

Section rotate.
(** [deny p]: unlinking or renaming [p] is refused. *)
Context (deny : cstr → bool).

(** [unlink]: the file system, and 0 or the [errno]. *)
Definition clog_unlink (fs : filesys) (p : cstr) : filesys * Z :=
  match fs !! p with
  | None => (fs, ENOENT)
  | Some _ => if deny p then (fs, EACCES) else (delete p fs, 0)
  end.

(** [access (p, F_OK) == 0]. *)
Definition clog_access (fs : filesys) (p : cstr) : bool := bool_decide (is_Some (fs !! p)).

(** [rename]: replaces the destination; [None] when it fails. *)
Definition rename (fs : filesys) (src dst : cstr) : option filesys :=
  match fs !! src with
  | None => None
  | Some data =>
      if deny src || deny dst then None
      else if streq src dst then Some fs else Some (<[dst := data]> (delete src fs))
  end.

(** [snprintf (path, 512, "%s.%d", base_path, i)]. *)
Definition backup_path (base_path : cstr) (i : Z) : cstr := snprintf_s 512 (base_path ++ B "." ++ sdec i).

(** The loop from [i] down to 1: [None] when a rename failed. *)
Fixpoint shift_backups (fs : filesys) (base_path : cstr) (i : nat) : filesys * bool :=
  match i with
  | O => (fs, true)
  | S i' =>
      let src := backup_path base_path (Z.of_nat i) in
      let dst := backup_path base_path (Z.of_nat i + 1) in
      if clog_access fs src then
        match rename fs src dst with
        | None => (fs, false)
        | Some fs' => shift_backups fs' base_path i'
        end
      else shift_backups fs base_path i'
  end.

Definition file_rotate_file (fs : filesys) (base_path : option cstr) (max_backups : Z) : filesys * Z :=
  match base_path with
  | None => (fs, -1)
  | Some base_path =>
      if max_backups <=? 0 then (fs, -1) else
      let '(fs, err) := clog_unlink fs (backup_path base_path max_backups) in
      if negb (err =? 0) && negb (err =? ENOENT) then (fs, - EACCES) else
      let '(fs, ok) := shift_backups fs base_path (Z.to_nat (max_backups - 1)) in
      if negb ok then (fs, - EACCES) else
      if clog_access fs base_path then
        match rename fs base_path (backup_path base_path 1) with
        | None => (fs, - EACCES)
        | Some fs => (fs, 0)
        end
      else (fs, - ENOENT)
  end.

End rotate.

(** ** Distinct backups have distinct names *)

(** Every name of the chain fits the 512-byte path buffers. *)
Definition base_fits (base : cstr) : Prop := clen base <= 490.

Lemma backup_path_full base i :
  base_fits base → 0 <= i → backup_path base i = base ++ B "." ++ dec i.
Proof.
  intros Hb Hi. unfold backup_path, sdec. destruct (Z.ltb_spec i 0); [lia|].
  apply snprintf_s_id. unfold base_fits in Hb. rewrite !clen_app. change (clen (B ".")) with 1.
  pose proof (dec_length i). unfold clen in *. lia.
Qed.

Lemma backup_path_inj base i j :
  base_fits base → is_u32 i → is_u32 j → backup_path base i = backup_path base j → i = j.
Proof.
  intros Hb [Hi0 Hi] [Hj0 Hj]. rewrite !backup_path_full by done. intros H.
  apply app_inv_head, app_inv_head in H. apply (f_equal dec_value) in H.
  rewrite !dec_value_dec in H by (split; lia). done.
Qed.

Lemma backup_path_base base i : base_fits base → 0 <= i → backup_path base i ≠ base.
Proof.
  intros Hb Hi. rewrite backup_path_full by done. intros H. apply (f_equal length) in H.
  rewrite !length_app in H. simpl in H. lia.
Qed.

(** ** Rotation shifts the chain *)

(** One turn of the loop moves [src] to [dst], whether or not it exists, when [dst]
    is free. *)
Lemma shift_step fs src dst :
  src ≠ dst → fs !! dst = None →
  ∃ fs', (if clog_access fs src then rename (λ _, false) fs src dst else Some fs) = Some fs' ∧
    fs' !! dst = fs !! src ∧ fs' !! src = None ∧ ∀ p, p ≠ src → p ≠ dst → fs' !! p = fs !! p.
Proof.
  intros Hne Hdst. unfold clog_access, rename. destruct (fs !! src) as [data|] eqn:E.
  - rewrite bool_decide_eq_true_2 by eauto. cbn [orb]. unfold streq. rewrite bool_decide_eq_false_2 by done.
    eexists. split; [done|]. rewrite lookup_insert_eq, lookup_insert_ne, lookup_delete_eq by done.
    split_and!; [done..|]. intros p H1 H2. by rewrite lookup_insert_ne, lookup_delete_ne.
  - rewrite bool_decide_eq_false_2 by (intros [? ?]; done). exists fs. split_and!; [done|congruence|done|done].
Qed.

(** The loop moves every backup up to [i] one place further, when the place behind
    [i] is free. *)
Lemma shift_backups_spec base i fs :
  base_fits base → Z.of_nat i + 1 < 2 ^ 32 → fs !! backup_path base (Z.of_nat i + 1) = None →
  let '(fs', ok) := shift_backups (λ _, false) fs base i in
  ok = true ∧ fs' !! backup_path base 1 = None ∧
  (∀ k, 1 <= k <= Z.of_nat i → fs' !! backup_path base (k + 1) = fs !! backup_path base k) ∧
  (∀ p, (∀ k, 1 <= k <= Z.of_nat i + 1 → p ≠ backup_path base k) → fs' !! p = fs !! p).
Proof.
  intros Hb. revert fs. induction i as [|i IH]; intros fs Hi Hfree.
  { simpl. split_and!; [done|exact Hfree|lia|done]. }
  cbn [shift_backups]. set (src := backup_path base (Z.of_nat (S i))).
  set (dst := backup_path base (Z.of_nat (S i) + 1)).
  assert (src ≠ dst) as Hne.
  { intros H. apply backup_path_inj in H; [lia|done|split; lia..]. }
  destruct (shift_step fs src dst Hne Hfree) as (fs1 & H1 & Hd & Hs & Hother).
  assert ((if clog_access fs src then
      match rename (λ _, false) fs src dst with
      | Some fs' => shift_backups (λ _, false) fs' base i | None => (fs, false) end
    else shift_backups (λ _, false) fs base i) = shift_backups (λ _, false) fs1 base i) as ->.
  { destruct (clog_access fs src); [by rewrite H1|by injection H1 as ->]. }
  assert (Z.of_nat i + 1 = Z.of_nat (S i)) as Hsi by lia.
  specialize (IH fs1 ltac:(lia) ltac:(by rewrite Hsi)).
  destruct (shift_backups (λ _, false) fs1 base i) as [fs' ok].
  destruct IH as (-> & Hone & Hshift & Hrest). split_and!; [done|done|..].
  - intros k Hk. destruct (decide (k = Z.of_nat (S i))) as [->|].
    + rewrite Hrest; [exact Hd|]. intros k Hk' E. apply backup_path_inj in E; [lia|done|split; lia..].
    + rewrite Hshift by lia. apply Hother; intros E; apply backup_path_inj in E; try lia; try done; split; lia.
  - intros p Hp. rewrite Hrest by (intros k Hk; apply Hp; lia). apply Hother; apply Hp; lia.
Qed.

Lemma file_rotate_file_spec fs base n data :
  base_fits base → 0 < n < 2 ^ 31 → fs !! base = Some data →
  let '(fs', rc) := file_rotate_file (λ _, false) fs (Some base) n in
  rc = 0 ∧ fs' !! base = None ∧ fs' !! backup_path base 1 = Some data ∧
  (∀ k, 1 <= k < n → fs' !! backup_path base (k + 1) = fs !! backup_path base k) ∧
  (∀ p, p ≠ base → (∀ k, 1 <= k <= n → p ≠ backup_path base k) → fs' !! p = fs !! p).
Proof.
  intros Hb Hn Hdata. unfold file_rotate_file. destruct (Z.leb_spec n 0); [lia|].
  set (last := backup_path base n).
  assert (∃ fs1 err, clog_unlink (λ _, false) fs last = (fs1, err) ∧ (err = 0 ∨ err = ENOENT) ∧
    fs1 !! last = None ∧ ∀ p, p ≠ last → fs1 !! p = fs !! p) as (fs1 & err & -> & Herr & Hlast & H1).
  { unfold clog_unlink. destruct (fs !! last) eqn:E.
    - eexists _, _. split; [done|]. rewrite lookup_delete_eq. split_and!; [by left|done|].
      intros. by apply lookup_delete_ne.
    - eexists _, _. split; [done|]. auto. }
  assert (negb (err =? 0) && negb (err =? ENOENT) = false) as -> by (by destruct Herr; subst).
  assert (Z.of_nat (Z.to_nat (n - 1)) + 1 = n) as Hn1 by lia.
  pose proof (shift_backups_spec base (Z.to_nat (n - 1)) fs1 Hb ltac:(lia) ltac:(by rewrite Hn1)) as H2.
  destruct (shift_backups _ fs1 base _) as [fs2 ok]. destruct H2 as (-> & Hone & Hshift & Hrest).
  assert (fs2 !! base = Some data) as Hbase.
  { rewrite Hrest, H1; [done|..]; intros; apply not_eq_sym, backup_path_base; done || lia. }
  assert (∀ k, 0 <= k → backup_path base k ≠ base) as Hnb by (intros; by apply backup_path_base).
  unfold clog_access. rewrite bool_decide_eq_true_2 by eauto. unfold rename. rewrite Hbase.
  cbn [negb orb]. unfold streq. rewrite bool_decide_eq_false_2 by (apply not_eq_sym, Hnb; lia).
  split_and!; [done|..].
  - rewrite lookup_insert_ne by (apply Hnb; lia). apply lookup_delete_eq.
  - apply lookup_insert_eq.
  - intros k Hk. rewrite lookup_insert_ne, lookup_delete_ne, Hshift.
    + apply H1. intros E. apply backup_path_inj in E; [lia|done|split; lia..].
    + lia.
    + apply not_eq_sym, Hnb. lia.
    + intros E. apply backup_path_inj in E; [lia|done|split; lia..].
  - intros p Hp Hk. rewrite lookup_insert_ne, lookup_delete_ne by (done || apply not_eq_sym, Hk; lia).
    rewrite Hrest by (intros; apply Hk; lia). apply H1, Hk. lia.
Qed.

(** The texts of the chain, oldest first, then the active file. *)
Definition file_text (fs : filesys) (p : cstr) : cstr := default [] (fs !! p).

Fixpoint backups_text (fs : filesys) (base : cstr) (n : nat) : cstr :=
  match n with
  | O => []
  | S n' => file_text fs (backup_path base (Z.of_nat n)) ++ backups_text fs base n'
  end.

Definition archive (fs : filesys) (base : cstr) (n : Z) : cstr :=
  backups_text fs base (Z.to_nat n) ++ file_text fs base.

Lemma backups_text_ext fs fs' base n :
  (∀ k, 1 <= k <= Z.of_nat n → fs' !! backup_path base k = fs !! backup_path base k) →
  backups_text fs' base n = backups_text fs base n.
Proof.
  induction n as [|n IH]; intros H; [done|]. cbn [backups_text]. unfold file_text.
  rewrite H by lia. f_equal. apply IH. intros. apply H. lia.
Qed.

Lemma backups_text_shift fs fs' base n data :
  fs' !! backup_path base 1 = Some data →
  (∀ k, 1 <= k <= Z.of_nat n → fs' !! backup_path base (k + 1) = fs !! backup_path base k) →
  backups_text fs' base (S n) = backups_text fs base n ++ data.
Proof.
  intros H1. induction n as [|n IH]; intros H.
  { simpl. unfold file_text. change (Z.of_nat 1) with 1. rewrite H1. simpl. apply app_nil_r. }
  change (backups_text fs' base (S (S n))) with
    (file_text fs' (backup_path base (Z.of_nat (S (S n)))) ++ backups_text fs' base (S n)).
  rewrite IH by (intros; apply H; lia). cbn [backups_text]. rewrite <- app_assoc. f_equal.
  unfold file_text. replace (Z.of_nat (S (S n))) with (Z.of_nat (S n) + 1) by lia. by rewrite H by lia.
Qed.

(** Rotation drops the oldest backup and nothing else. *)
Lemma rotate_archive fs base n data :
  base_fits base → 0 < n < 2 ^ 31 → fs !! base = Some data →
  let fs' := (file_rotate_file (λ _, false) fs (Some base) n).1 in
  archive fs base n = file_text fs (backup_path base n) ++ archive fs' base n.
Proof.
  intros Hb Hn Hd. pose proof (file_rotate_file_spec fs base n data Hb Hn Hd) as H.
  destruct (file_rotate_file _ fs _ n) as [fs' rc]. destruct H as (_ & Hbase & H1 & Hsh & _).
  cbv zeta. cbn [fst]. unfold archive. destruct (Z.to_nat n) as [|m] eqn:Em; [lia|].
  rewrite (backups_text_shift fs fs' base m data H1) by (intros; apply Hsh; lia).
  cbn [backups_text]. replace (Z.of_nat (S m)) with n by lia.
  assert (file_text fs base = data) as -> by (unfold file_text; by rewrite Hd).
  assert (file_text fs' base = []) as -> by (unfold file_text; by rewrite Hbase).
  by rewrite app_nil_r, <- app_assoc.
Qed.

(** ** Properties *)

(** C18: rotating a log of [n] backups turns the active file into backup 1, backup
    [k] into backup [k + 1] (a missing one stays missing), drops backup [n], frees the
    active name, and touches no other file. *)
Theorem file_rotate_file_correct fs base n data :
  base_fits base → 0 < n < 2 ^ 31 → fs !! base = Some data →
  let '(fs', rc) := file_rotate_file (λ _, false) fs (Some base) n in
  rc = 0 ∧ fs' !! base = None ∧ fs' !! backup_path base 1 = Some data ∧
  (∀ k, 1 <= k < n → fs' !! backup_path base (k + 1) = fs !! backup_path base k) ∧
  (∀ p, p ≠ base → (∀ k, 1 <= k <= n → p ≠ backup_path base k) → fs' !! p = fs !! p).
Proof. apply file_rotate_file_spec. Qed.

Lemma file_rotate_file_correct_witness :
  let fs : filesys := <[B "a.log" := B "new"]> {[ B "a.log.1" := B "old"; B "a.log.2" := B "older" ]} in
  (file_rotate_file (λ _, false) fs (Some (B "a.log")) 2).1 !! backup_path (B "a.log") 2 = Some (B "old").
Proof.
  set (fs := <[B "a.log" := B "new"]> _).
  assert (fs !! B "a.log" = Some (B "new")) as Hd by (vm_compute; reflexivity).
  pose proof (file_rotate_file_correct fs (B "a.log") 2 (B "new")
    ltac:(vm_compute; discriminate) ltac:(lia) Hd) as H.
  cbv zeta. destruct (file_rotate_file _ fs _ 2) as [fs' rc]. destruct H as (_ & _ & _ & H & _).
  cbn [fst]. change 2 with (1 + 1). rewrite (H 1) by lia. vm_compute. reflexivity.
Defined.

(** A base path of 511 bytes is truncated to itself: rotation unlinks the active
    file. *)
Example rotate_long_path_unlinks_active :
  let base := repeat 97 511 in
  (file_rotate_file (λ _, false) {[ base := B "data" ]} (Some base) 3) = (∅, - ENOENT).
Proof. vm_compute. reflexivity. Qed.
