(* ===== verification/FileSink.v ===== *)
(** * The file sink (sinks/file_sink.c)

    [file_write] with its partial writes, its size accounting and its rotation,
    creation with the parent directories, the fork handler and destruction, over the
    file system of the rotation model. *)
From S2P Require Import Prelude FastAscii Record Rotate.

Local Open Scope Z_scope.

(** What the C library answers during one call: how many bytes the [k]-th [fwrite]
    takes out of the bytes offered, whether the stream error flag is set when one takes
    none, and whether [fflush], [fopen] and [fstat] succeed. *)
Record file_io := FileIo {
  io_fwrite : nat → Z → Z;
  io_ferror : bool;
  io_fflush_ok : bool;
  io_fopen_ok : bool;
  io_fstat_ok : bool;
  io_deny : cstr → bool
}.

(** [fwrite] never takes more than it is offered. *)
Definition file_io_ok (io : file_io) : Prop := ∀ k n, 0 <= n → 0 <= io_fwrite io k n <= n.

(** [file_sink_data_t]; [fd_open] is [data->file != NULL]. *)
Record file_sink_data_t := FileSinkData {
  fd_open : bool; fd_path : cstr; fd_max_size : Z; fd_current_size : Z; fd_backups : Z
}.

(** Append to an open file. *)
Definition file_append (fs : filesys) (p s : cstr) : filesys := <[p := file_text fs p ++ s]> fs.

(** [fopen (p, "ab")]: creates the file when it is missing. *)
Definition fopen_ab (io : file_io) (fs : filesys) (p : cstr) : filesys * bool :=
  if io_fopen_ok io then (file_append fs p [], true) else (fs, false).

(** The write loop: the file system, [written], and whether it ended without a
    stream error. Every [fwrite] that takes something shortens what is left. *)
Fixpoint fwrite_loop (fuel : nat) (io : file_io) (k : nat) (fs : filesys) (p buf : cstr) (written : Z)
    : filesys * Z * bool :=
  match fuel with
  | O => (fs, written, true)
  | S fuel' =>
      if written <? clen buf then
        let n := io_fwrite io k (clen buf - written) in
        if n =? 0 then (fs, written, negb (io_ferror io))
        else fwrite_loop fuel' io (S k)
               (file_append fs p (take (Z.to_nat n) (drop (Z.to_nat written) buf))) p buf (written + n)
      else (fs, written, true)
  end.

Definition file_write (io : file_io) (fs : filesys) (data : file_sink_data_t) (buf : cstr)
    : filesys * file_sink_data_t * Z :=
  if negb (fd_open data) then (fs, data, -1) else
  let '(fs, written, ok) := fwrite_loop (S (length buf)) io 0 fs (fd_path data) buf 0 in
  if negb ok then (fs, data, -1) else
  let size := u64 (fd_current_size data + written) in
  let data := FileSinkData true (fd_path data) (fd_max_size data) size (fd_backups data) in
  if (fd_max_size data >? 0) && (size >=? fd_max_size data) then
    if negb (io_fflush_ok io) then (fs, data, -1) else
    let '(fs, _) := file_rotate_file (io_deny io) fs (Some (fd_path data)) (fd_backups data) in
    let '(fs, opened) := fopen_ab io fs (fd_path data) in
    if negb opened
    then (fs, FileSinkData false (fd_path data) (fd_max_size data) size (fd_backups data), -1)
    else (fs, FileSinkData true (fd_path data) (fd_max_size data) 0 (fd_backups data), i32 written)
  else (fs, data, i32 written).

(** The size [fstat] reports, when it is positive. *)
Definition stat_size (io : file_io) (fs : filesys) (p : cstr) (size : Z) : Z :=
  if io_fstat_ok io && (clen (file_text fs p) >? 0) then u64 (clen (file_text fs p)) else size.

Definition file_atfork_child (io : file_io) (fs : filesys) (data : file_sink_data_t)
    : filesys * file_sink_data_t :=
  let '(fs, opened) := fopen_ab io fs (fd_path data) in
  let size := if (opened : bool) then stat_size io fs (fd_path data) (fd_current_size data)
              else fd_current_size data in
  (fs, FileSinkData opened (fd_path data) (fd_max_size data) size (fd_backups data)).

(** ** Parent directories *)

Fixpoint last_index (c : Z) (s : cstr) : option nat :=
  match s with
  | [] => None
  | d :: s' => match last_index c s' with
               | Some i => Some (S i)
               | None => if d =? c then Some 0%nat else None
               end
  end.

(** The later of the two separators, [slash1 > slash2] with NULL below everything. *)
Definition last_slash (dir : cstr) : option nat :=
  match last_index 47 dir, last_index 92 dir with
  | Some a, Some b => Some (Nat.max a b)
  | Some a, None => Some a
  | None, o => o
  end.

Section dirs.
(** [mkdir p]: succeeds, or fails with [EEXIST]. *)
Context (mkdir_ok : cstr → bool).

(** The loop over [dir + 1]: every proper prefix that ends at a separator is made;
    the result lists the directories made, in order, and whether all succeeded. *)
Fixpoint mkdir_prefixes (done rest : cstr) : list cstr * bool :=
  match rest with
  | [] => ([], true)
  | c :: rest' =>
      if (c =? 47) || (c =? 92) then
        if mkdir_ok done then
          let '(ds, ok) := mkdir_prefixes (done ++ [c]) rest' in (done :: ds, ok)
        else ([done], false)
      else mkdir_prefixes (done ++ [c]) rest'
  end.

Definition ensure_parent_dirs (path : option cstr) : list cstr * Z :=
  match path with
  | None | Some [] => ([], -1)
  | Some path =>
      if clen path >=? 1024 then ([], -1) else
      match last_slash path with
      | None | Some O => ([], 0)
      | Some i =>
          let dir := take i path in
          let '(ds, ok) := mkdir_prefixes (take 1 dir) (drop 1 dir) in
          if negb ok then (ds, -1)
          else (ds ++ [dir], if mkdir_ok dir then 0 else -1)
      end
  end.

(** [file_sink_create] when the allocations succeed. *)
Definition file_sink_create (io : file_io) (fs : filesys) (path : option cstr) (max_size backups : Z)
    : filesys * option file_sink_data_t :=
  match path with
  | None | Some [] => (fs, None)
  | Some p =>
      let '(_, rc) := ensure_parent_dirs path in
      if negb (rc =? 0) then (fs, None) else
      let '(fs, opened) := fopen_ab io fs p in
      if negb opened then (fs, None)
      else (fs, Some (FileSinkData true p max_size (stat_size io fs p 0) backups))
  end.
End dirs.

(** ** The sink's invariant *)

(** The sink is open, its size is its file's, and the file is below the limit. *)
Definition file_sink_ok (fs : filesys) (d : file_sink_data_t) : Prop :=
  fd_open d = true ∧ base_fits (fd_path d) ∧ 0 < fd_backups d < 2 ^ 31 ∧
  (∃ s, fs !! fd_path d = Some s) ∧
  fd_current_size d = clen (file_text fs (fd_path d)) ∧
  (0 < fd_max_size d → fd_current_size d < fd_max_size d).

(** All calls succeed, in as many pieces as [fwrite] likes. *)
Definition file_io_good (io : file_io) : Prop :=
  (∀ k n, 0 < n → 0 < io_fwrite io k n <= n) ∧ io_fflush_ok io = true ∧
  io_fopen_ok io = true ∧ io_fstat_ok io = true ∧ io_deny io = λ _, false.

Lemma file_text_append fs p s : file_text (file_append fs p s) p = file_text fs p ++ s.
Proof. unfold file_text at 1, file_append. by rewrite lookup_insert_eq. Qed.

Lemma file_append_append fs p s t : file_append (file_append fs p s) p t = file_append fs p (s ++ t).
Proof.
  unfold file_append at 1. rewrite file_text_append. unfold file_append.
  rewrite insert_insert_eq, app_assoc. done.
Qed.

(** The loop writes the whole buffer, in order, whatever the pieces. *)
Lemma fwrite_loop_all fuel io k fs p buf written :
  file_io_good io → 0 <= written <= clen buf → (Z.to_nat (clen buf - written) < fuel)%nat →
  is_Some (fs !! p) →
  fwrite_loop fuel io k fs p buf written
    = (file_append fs p (drop (Z.to_nat written) buf), clen buf, true).
Proof.
  intros Hio. revert k fs written. induction fuel as [|fuel IH]; intros k fs written Hw Hf [s Hs]; [lia|].
  cbn [fwrite_loop]. destruct (Z.ltb_spec written (clen buf)).
  - destruct Hio as [Hfw Hrest]. destruct (Hfw k (clen buf - written) ltac:(lia)) as [H1 H2].
    set (n := io_fwrite io k (clen buf - written)) in *. destruct (Z.eqb_spec n 0); [lia|].
    rewrite IH; [|lia|lia|unfold file_append; rewrite lookup_insert_eq; eauto].
    rewrite file_append_append. do 3 f_equal.
    rewrite Z2Nat.inj_add, <- drop_drop by lia. apply take_drop.
  - assert (written = clen buf) as -> by lia. rewrite drop_ge by (unfold clen; lia).
    unfold file_append, file_text. rewrite Hs. simpl. rewrite app_nil_r, insert_id by done. done.
Qed.

Lemma archive_append fs p n s :
  base_fits p → 0 <= n < 2 ^ 31 → archive (file_append fs p s) p n = archive fs p n ++ s.
Proof.
  intros Hb Hn. unfold archive. rewrite file_text_append, app_assoc. f_equal. f_equal.
  apply backups_text_ext. intros k Hk. apply lookup_insert_ne, not_eq_sym, backup_path_base; [done|lia].
Qed.

Lemma file_append_other fs p s q : q ≠ p → file_append fs p s !! q = fs !! q.
Proof. intros. by apply lookup_insert_ne. Qed.

Lemma file_write_spec io fs d buf :
  file_io_good io → file_sink_ok fs d → clen buf < 2 ^ 31 →
  clen (file_text fs (fd_path d)) + clen buf < 2 ^ 64 →
  let '(fs', d', rc) := file_write io fs d buf in
  rc = clen buf ∧ file_sink_ok fs' d' ∧ fd_path d' = fd_path d ∧ fd_backups d' = fd_backups d ∧
  clen (file_text fs' (fd_path d)) <= clen (file_text fs (fd_path d)) + clen buf ∧
  ∃ dropped, (dropped = [] ∨ dropped = file_text fs (backup_path (fd_path d) (fd_backups d))) ∧
    archive fs (fd_path d) (fd_backups d) ++ buf = dropped ++ archive fs' (fd_path d) (fd_backups d).
Proof.
  intros Hio (Hopen & Hfit & Hbk & [s Hs] & Hsize & Hmax) Hbuf Htot.
  pose proof (clen_nonneg buf). pose proof (clen_nonneg (file_text fs (fd_path d))).
  unfold file_write. rewrite Hopen. cbn [negb].
  rewrite fwrite_loop_all by (done || (unfold clen in *; lia) || eauto). cbn [negb].
  change (drop (Z.to_nat 0) buf) with buf.
  set (p := fd_path d) in *. set (fs1 := file_append fs p buf).
  assert (file_text fs1 p = file_text fs p ++ buf) as Htext by apply file_text_append.
  assert (fs1 !! p = Some (file_text fs p ++ buf)) as Hlook by apply lookup_insert_eq.
  assert (archive fs1 p (fd_backups d) = archive fs p (fd_backups d) ++ buf) as Harch
    by (apply archive_append; [done|lia]).
  rewrite u64_id by (split; lia). rewrite (i32_id (clen buf)) by (split; lia).
  cbn [fd_max_size fd_path fd_backups]. rewrite Z.gtb_ltb, Z.geb_leb.
  destruct (Z.ltb_spec 0 (fd_max_size d)), (Z.leb_spec (fd_max_size d) (fd_current_size d + clen buf));
    cbn [andb];
    try (split_and!; [done| |done|done|rewrite Htext; clia|
           exists []; split; [by left|by rewrite Harch]];
         unfold file_sink_ok; cbn [fd_open fd_path fd_backups fd_current_size fd_max_size];
         rewrite Htext, clen_app; split_and!; eauto; lia).
  destruct Hio as (_ & -> & Hfopen & _ & ->). cbn [negb].
  pose proof (file_rotate_file_spec fs1 p (fd_backups d) _ Hfit Hbk Hlook) as Hrot.
  pose proof (rotate_archive fs1 p (fd_backups d) _ Hfit Hbk Hlook) as Harch2.
  destruct (file_rotate_file _ fs1 (Some p) (fd_backups d)) as [fs2 rc].
  destruct Hrot as (_ & Hbase & _). cbv zeta in Harch2. cbn [fst] in Harch2.
  unfold fopen_ab. rewrite Hfopen. cbn [negb].
  assert (file_text fs2 p = []) as Hempty by (unfold file_text; by rewrite Hbase).
  assert (file_text (file_append fs2 p []) p = []) as Hempty' by (by rewrite file_text_append, Hempty).
  split_and!; [done| |done|done|rewrite Hempty'; unfold clen; simpl; lia|].
  - unfold file_sink_ok; cbn [fd_open fd_path fd_backups fd_current_size fd_max_size].
    fold p. rewrite Hempty'. split_and!; [done|done|lia|lia| |done|done].
    exists (file_text fs2 p ++ []). apply lookup_insert_eq.
  - exists (file_text fs (backup_path p (fd_backups d))). split; [by right|].
    rewrite <- Harch, Harch2, archive_append, app_nil_r by (done || lia). f_equal.
    unfold file_text. f_equal. apply file_append_other, backup_path_base; [done|lia].
Qed.

(** Which files change, and how. *)
Lemma file_write_exact io fs d buf :
  file_io_good io → file_sink_ok fs d → clen buf < 2 ^ 31 →
  clen (file_text fs (fd_path d)) + clen buf < 2 ^ 64 →
  let path := fd_path d in
  let text := file_text fs path ++ buf in
  let '(fs', _, _) := file_write io fs d buf in
  if (0 <? fd_max_size d) && (fd_max_size d <=? clen text)
  then fs' !! path = Some [] ∧ fs' !! backup_path path 1 = Some text ∧
       (∀ k, 1 <= k < fd_backups d → fs' !! backup_path path (k + 1) = fs !! backup_path path k) ∧
       (∀ q, q ≠ path → (∀ k, 1 <= k <= fd_backups d → q ≠ backup_path path k) → fs' !! q = fs !! q)
  else fs' !! path = Some text ∧ ∀ q, q ≠ path → fs' !! q = fs !! q.
Proof.
  intros Hio (Hopen & Hfit & Hbk & [s Hs] & Hsize & Hmax) Hbuf Htot path text.
  pose proof (clen_nonneg buf). pose proof (clen_nonneg (file_text fs (fd_path d))).
  unfold file_write. rewrite Hopen. cbn [negb].
  rewrite fwrite_loop_all by (done || (unfold clen in *; lia) || eauto). cbn [negb].
  change (drop (Z.to_nat 0) buf) with buf. fold path in Hfit, Hsize, Hs, Htot, H0 |- *.
  assert (clen text = fd_current_size d + clen buf) as Hlen by (unfold text; rewrite clen_app; lia).
  rewrite u64_id by (split; lia). cbn [fd_max_size fd_path fd_backups]. rewrite Z.gtb_ltb, Z.geb_leb, Hlen.
  set (fs1 := file_append fs path buf).
  assert (fs1 !! path = Some text) as Hlook by apply lookup_insert_eq.
  assert (∀ q, q ≠ path → fs1 !! q = fs !! q) as Hother by (intros q Hq; by apply file_append_other).
  destruct (_ && _); [|done].
  destruct Hio as (_ & -> & Hfopen & _ & ->). cbn [negb].
  pose proof (file_rotate_file_spec fs1 path (fd_backups d) _ Hfit Hbk Hlook) as Hrot.
  destruct (file_rotate_file _ fs1 (Some path) (fd_backups d)) as [fs2 rc]. destruct Hrot as (_ & R1 & R2 & R3 & R4).
  unfold fopen_ab. rewrite Hfopen. cbn [negb].
  assert (∀ k, 0 <= k → backup_path path k ≠ path) as Hnb by (intros; by apply backup_path_base).
  split_and!.
  - unfold file_append, file_text. rewrite lookup_insert_eq, R1. done.
  - by rewrite file_append_other by (apply Hnb; lia).
  - intros k Hk. rewrite file_append_other by (apply Hnb; lia). rewrite R3 by done. apply Hother, Hnb. lia.
  - intros q Hq Hb. rewrite file_append_other by done. rewrite R4 by done. by apply Hother.
Qed.

(** A run of writes. *)
Fixpoint file_writes (io : file_io) (fs : filesys) (d : file_sink_data_t) (bufs : list cstr)
    : filesys * file_sink_data_t :=
  match bufs with
  | [] => (fs, d)
  | buf :: bufs' => let '(fs, d, _) := file_write io fs d buf in file_writes io fs d bufs'
  end.

Lemma file_writes_spec io bufs fs d :
  file_io_good io → file_sink_ok fs d → Forall (λ b, clen b < 2 ^ 31) bufs →
  clen (file_text fs (fd_path d)) + clen (mjoin bufs) < 2 ^ 64 →
  let '(fs', d') := file_writes io fs d bufs in
  file_sink_ok fs' d' ∧ fd_path d' = fd_path d ∧
  ∃ dropped, archive fs (fd_path d) (fd_backups d) ++ mjoin bufs
               = dropped ++ archive fs' (fd_path d) (fd_backups d).
Proof.
  intros Hio. revert fs d. induction bufs as [|buf bufs IH]; intros fs d Hok Hb Hlen.
  { cbn [file_writes]. split_and!; [done|done|]. exists []. apply app_nil_r. }
  apply Forall_cons in Hb as [Hbuf Hb]. cbn [file_writes mjoin list_join] in *.
  rewrite clen_app in Hlen. pose proof (clen_nonneg (mjoin bufs)).
  pose proof (file_write_spec io fs d buf Hio Hok Hbuf ltac:(unfold mjoin in *; lia)) as H1.
  destruct (file_write io fs d buf) as [[fs1 d1] rc].
  destruct H1 as (_ & Hok1 & Hp & Hbk & Hle & dr & _ & Hdr).
  specialize (IH fs1 d1 Hok1 Hb). rewrite Hp in IH. unfold mjoin in *. specialize (IH ltac:(lia)).
  destruct (file_writes io fs1 d1 bufs) as [fs' d']. destruct IH as (Hok' & Hp' & dr' & Hdr').
  split_and!; [done|congruence|]. exists (dr ++ dr'). rewrite Hbk in Hdr'.
  rewrite app_assoc, Hdr, <- !app_assoc. by f_equal.
Qed.

(** ** Properties *)

(** C16: one write on an open sink, with a C library that works ([fwrite] may take any
    part of what it is offered), a base path of at most 490 bytes and at least one backup:
    it returns the buffer's length and keeps the recorded size equal to the file's and below
    the limit.  When the file with the buffer stays below the limit, or there is none, the
    active file is the old text followed by the buffer and no other file changed.  When it
    reaches the limit the file is rotated, and only then: the active file is empty, backup 1
    is the old text followed by the buffer, every other backup moved up by one, the oldest
    is gone and no other file changed. *)
Theorem file_write_correct io fs d buf :
  file_io_good io → file_sink_ok fs d → clen buf < 2 ^ 31 →
  clen (file_text fs (fd_path d)) + clen buf < 2 ^ 64 →
  let path := fd_path d in
  let text := file_text fs path ++ buf in
  let '(fs', d', rc) := file_write io fs d buf in
  rc = clen buf ∧ file_sink_ok fs' d' ∧
  if (0 <? fd_max_size d) && (fd_max_size d <=? clen text)
  then fs' !! path = Some [] ∧ fs' !! backup_path path 1 = Some text ∧
       (∀ k, 1 <= k < fd_backups d → fs' !! backup_path path (k + 1) = fs !! backup_path path k) ∧
       (∀ q, q ≠ path → (∀ k, 1 <= k <= fd_backups d → q ≠ backup_path path k) → fs' !! q = fs !! q)
  else fs' !! path = Some text ∧ ∀ q, q ≠ path → fs' !! q = fs !! q.
Proof.
  intros Hio Hok Hb Ht path text. pose proof (file_write_spec io fs d buf Hio Hok Hb Ht) as H.
  pose proof (file_write_exact io fs d buf Hio Hok Hb Ht) as H'. cbv zeta in H'. fold path text in H'.
  destruct (file_write io fs d buf) as [[fs' d'] rc]. destruct H as (?&?&_). by split_and!.
Qed.

Definition test_io : file_io := FileIo (λ _ n, if n >? 2 then 2 else n) false true true true (λ _, false).

Lemma test_io_good : file_io_good test_io.
Proof. split; [|done]. intros k n Hn. simpl. zcases; lia. Qed.

Definition test_sink : file_sink_data_t := FileSinkData true (B "a.log") 8 5 2.
Definition test_fs : filesys := {[ B "a.log" := B "hello"; B "a.log.2" := B "old" ]}.

Lemma test_sink_ok : file_sink_ok test_fs test_sink.
Proof.
  unfold file_sink_ok, base_fits. split_and!; try (vm_compute; done).
  exists (B "hello"). vm_compute. done.
Qed.

Lemma file_write_correct_witness :
  let '(fs', _, rc) := file_write test_io test_fs test_sink (B "world") in
  rc = 5 ∧ fs' !! B "a.log" = Some [] ∧ fs' !! backup_path (B "a.log") 1 = Some (B "helloworld").
Proof.
  pose proof (file_write_correct test_io test_fs test_sink (B "world") test_io_good test_sink_ok
    ltac:(vm_compute; reflexivity) ltac:(vm_compute; reflexivity)) as H. cbv zeta in H.
  destruct (file_write test_io test_fs test_sink (B "world")) as [[fs' d'] rc].
  destruct H as (Hrc & _ & H). split; [exact Hrc|].
  change ((0 <? fd_max_size test_sink) && (fd_max_size test_sink <=? clen (file_text test_fs (fd_path test_sink) ++ B "world")))
    with true in H. destruct H as (H1 & H2 & _). split; [exact H1|exact H2].
Defined.

(** Over any run of writes, the archive is always a suffix of everything that
    was ever written, in order and without gaps, and the sink's invariant holds
    throughout. *)
Theorem file_writes_keep_suffix io bufs fs d :
  file_io_good io → file_sink_ok fs d → Forall (λ b, clen b < 2 ^ 31) bufs →
  clen (file_text fs (fd_path d)) + clen (mjoin bufs) < 2 ^ 64 →
  let '(fs', d') := file_writes io fs d bufs in
  file_sink_ok fs' d' ∧
  ∃ dropped, archive fs (fd_path d) (fd_backups d) ++ mjoin bufs
               = dropped ++ archive fs' (fd_path d) (fd_backups d).
Proof.
  intros Hio Hok Hb Ht. pose proof (file_writes_spec io bufs fs d Hio Hok Hb Ht) as H.
  destruct (file_writes io fs d bufs) as [fs' d']. destruct H as (?&_&?). done.
Qed.

Lemma file_writes_keep_suffix_witness :
  let '(fs', _) := file_writes test_io test_fs test_sink [B "world"; B "foo"; B "barbaz"] in
  ∃ dropped, B "oldhelloworldfoobarbaz" = dropped ++ archive fs' (B "a.log") 2.
Proof.
  pose proof (file_writes_keep_suffix test_io [B "world"; B "foo"; B "barbaz"] test_fs test_sink
    test_io_good test_sink_ok ltac:(repeat (apply Forall_cons_2; [vm_compute; reflexivity|]); apply Forall_nil_2)
    ltac:(vm_compute; reflexivity)) as H.
  destruct (file_writes test_io test_fs test_sink _) as [fs' d'].
  destruct H as (_ & dropped & Hd). exists dropped. exact Hd.
Defined.

(** Without backups the rotation is refused, yet the size is reset: the file grows
    past its limit. *)
Example no_backups_grows :
  let d := FileSinkData true (B "a.log") 4 0 0 in
  let '(fs, d) := file_writes test_io {[ B "a.log" := [] ]} d [B "12345"; B "67890"] in
  fs !! B "a.log" = Some (B "1234567890") ∧ fd_current_size d = 0.
Proof. vm_compute. done. Qed.
