(* ===== verification/FileBuffer.v ===== *)
(** * The file sink over a buffered stream (sinks/file_sink.c)

    FileSink.v appends to the file what [fwrite] takes. The C library holds it back in
    the buffer of the stream until it likes, until [fflush], or until [fclose]. Here the
    sink keeps that buffer: writing, flushing, the fork handler and destruction, and
    the refinement that makes the model of FileSink.v the view of it. *)
From S2P Require Import Prelude FastAscii Record Rotate FileSink.

Local Open Scope Z_scope.

(** ** The sink with its stream *)

(** What is on disk, what is in the buffer of the open stream, and the sink's data. *)
Record bsink := BSink { b_disk : filesys; b_buf : cstr; b_data : file_sink_data_t }.

(** The library writes out the first [k] bytes of the buffer. *)
Definition spill (p : cstr) (k : nat) (disk : filesys) (buf : cstr) : filesys * cstr :=
  (file_append disk p (take k buf), drop k buf).

(** The write loop of [file_write]: like [fwrite_loop], into the buffer; [sp k] is how
    much the library writes out during the [k]-th call. *)
Fixpoint fwrite_buffered (fuel : nat) (io : file_io) (sp : nat → nat) (k : nat) (disk : filesys) (held p buf : cstr)
    (written : Z) : filesys * cstr * Z * bool :=
  match fuel with
  | O => (disk, held, written, true)
  | S fuel' =>
      if written <? clen buf then
        let n := io_fwrite io k (clen buf - written) in
        if n =? 0 then (disk, held, written, negb (io_ferror io))
        else
          let '(disk, held) := spill p (sp k) disk (held ++ take (Z.to_nat n) (drop (Z.to_nat written) buf)) in
          fwrite_buffered fuel' io sp (S k) disk held p buf (written + n)
      else (disk, held, written, true)
  end.

(** [fflush]: everything, or some of it when it fails. *)
Definition fflush (ok : bool) (sp : nat) (p : cstr) (disk : filesys) (held : cstr) : filesys * cstr :=
  if ok then (file_append disk p held, []) else spill p sp disk held.

Definition bfile_write (io : file_io) (sp : nat → nat) (s : bsink) (buf : cstr) : bsink * Z :=
  let data := b_data s in
  if negb (fd_open data) then (s, -1) else
  let p := fd_path data in
  let '(disk, held, written, ok) := fwrite_buffered (S (length buf)) io sp 0 (b_disk s) (b_buf s) p buf 0 in
  if negb ok then (BSink disk held data, -1) else
  let size := u64 (fd_current_size data + written) in
  let data := FileSinkData true p (fd_max_size data) size (fd_backups data) in
  if (fd_max_size data >? 0) && (size >=? fd_max_size data) then
    let '(disk, held) := fflush (io_fflush_ok io) (sp 0%nat) p disk held in
    if negb (io_fflush_ok io) then (BSink disk held data, -1) else
    let '(disk, _) := file_rotate_file (io_deny io) disk (Some p) (fd_backups data) in
    let '(disk, opened) := fopen_ab io disk p in
    if negb opened
    then (BSink disk [] (FileSinkData false p (fd_max_size data) size (fd_backups data)), -1)
    else (BSink disk [] (FileSinkData true p (fd_max_size data) 0 (fd_backups data)), i32 written)
  else (BSink disk held data, i32 written).

(** [file_flush], whose result nobody looks at. *)
Definition file_flush (ok : bool) (sp : nat) (s : bsink) : bsink :=
  if fd_open (b_data s) then
    let '(disk, held) := fflush ok sp (fd_path (b_data s)) (b_disk s) (b_buf s) in BSink disk held (b_data s)
  else s.

(** [fclose] writes out what is left. *)
Definition fclose (s : bsink) : filesys := file_append (b_disk s) (fd_path (b_data s)) (b_buf s).

(** [file_destroy]: what it leaves on disk. *)
Definition file_destroy (s : bsink) : filesys := if fd_open (b_data s) then fclose s else b_disk s.

(** [file_atfork_child], in a process that has its own copy of the buffer. *)
Definition bfile_atfork_child (io : file_io) (s : bsink) : bsink :=
  let disk := if fd_open (b_data s) then fclose s else b_disk s in
  let '(disk, data) := file_atfork_child io disk (b_data s) in
  BSink disk [] data.

(** ** The view *)

(** The file as the sink has written it, with what is still in the buffer. *)
Definition view (s : bsink) : filesys := if fd_open (b_data s) then fclose s else b_disk s.

(** An open stream has its file; a closed one has no buffer. *)
Definition bsink_ok (s : bsink) : Prop :=
  if fd_open (b_data s) then is_Some (b_disk s !! fd_path (b_data s)) else b_buf s = [].

Lemma file_append_nil fs p : is_Some (fs !! p) → file_append fs p [] = fs.
Proof. intros [t H]. unfold file_append, file_text. rewrite H. cbn. rewrite app_nil_r. by apply insert_id. Qed.

Lemma file_append_exists fs p s q : is_Some (fs !! q) → is_Some (file_append fs p s !! q).
Proof. intros H. unfold file_append. destruct (decide (p = q)) as [->|]; [rewrite lookup_insert_eq; eauto|by rewrite lookup_insert_ne]. Qed.

Lemma spill_view p k disk held : let '(d, h) := spill p k disk held in file_append d p h = file_append disk p held.
Proof. unfold spill. by rewrite file_append_append, take_drop. Qed.

(** The buffered loop writes to the view what the loop of FileSink.v writes. *)
Lemma fwrite_buffered_view fuel io sp p buf : ∀ k disk held written,
  is_Some (disk !! p) →
  let '(d, h, n, ok) := fwrite_buffered fuel io sp k disk held p buf written in
  fwrite_loop fuel io k (file_append disk p held) p buf written = (file_append d p h, n, ok) ∧ is_Some (d !! p).
Proof.
  induction fuel as [|fuel IH]; intros k disk held written Hp; [done|]. cbn [fwrite_buffered fwrite_loop].
  destruct (written <? clen buf); [|done]. destruct (_ =? 0); [done|].
  set (chunk := take _ _). unfold spill.
  specialize (IH (S k) (file_append disk p (take (sp k) (held ++ chunk))) (drop (sp k) (held ++ chunk))
    (written + io_fwrite io k (clen buf - written)) (file_append_exists _ _ _ _ Hp)).
  destruct (fwrite_buffered _ _ _ _ _ _ _ _ _) as [[[d h] n] ok]. destruct IH as [IH Hd]. split; [|done].
  rewrite <- IH. f_equal. by rewrite !file_append_append, take_drop.
Qed.

(** One write refines the write of FileSink.v. *)
Lemma bfile_write_refines io sp s buf :
  bsink_ok s →
  let '(s', ret) := bfile_write io sp s buf in
  file_write io (view s) (b_data s) buf = (view s', b_data s', ret) ∧ bsink_ok s'.
Proof.
  intros Hok. unfold bfile_write, file_write, view, bsink_ok, fclose in *.
  destruct (fd_open (b_data s)) eqn:Ho; cbn [negb]; [|rewrite Ho; by split].
  pose proof (fwrite_buffered_view (S (length buf)) io sp (fd_path (b_data s)) buf 0 (b_disk s) (b_buf s) 0 Hok) as H.
  destruct (fwrite_buffered _ _ _ _ _ _ _ _ _) as [[[d h] n] ok]. destruct H as [-> Hd].
  destruct ok; cbn [negb]; [|by cbn; rewrite Ho].
  cbn [fd_max_size fd_backups fd_path]. destruct (_ && _); [|by cbn].
  unfold fflush. destruct (io_fflush_ok io); cbn [negb].
  2:{ pose proof (spill_view (fd_path (b_data s)) (sp 0%nat) d h) as Hs. unfold spill in *. cbn [b_disk b_buf b_data fd_open fd_path]. rewrite Hs.
      split; [done|]. by apply file_append_exists. }
  destruct (file_rotate_file _ _ _ _) as [fs2 rc]. unfold fopen_ab. destruct (io_fopen_ok io); cbn [negb b_disk b_buf b_data fd_open fd_path]; [|done]. 
  rewrite file_append_append. split; [done|]. unfold file_append. rewrite lookup_insert_eq. eauto.
Qed.

Lemma file_flush_view ok sp s : bsink_ok s → view (file_flush ok sp s) = view s ∧ bsink_ok (file_flush ok sp s) ∧
  b_data (file_flush ok sp s) = b_data s.
Proof.
  intros H. unfold file_flush, view, bsink_ok, fclose, fflush in *. destruct (fd_open (b_data s)) eqn:Ho; [|by rewrite Ho].
  destruct ok; cbn; rewrite Ho; cbn.
  - rewrite file_append_append, app_nil_r. split_and!; [done| |done]. by apply file_append_exists.
  - rewrite file_append_append, take_drop. split_and!; [done| |done]. by apply file_append_exists.
Qed.

(** ** Runs *)

Inductive bop := B_write (io : file_io) (sp : nat → nat) (buf : cstr) | B_flush (ok : bool) (sp : nat).

Definition bexec (s : bsink) (o : bop) : bsink :=
  match o with B_write io sp buf => (bfile_write io sp s buf).1 | B_flush ok sp => file_flush ok sp s end.
Definition brun (s : bsink) (ops : list bop) : bsink := foldl bexec s ops.

(** The same run without a buffer. *)
Definition fexec (x : filesys * file_sink_data_t) (o : bop) : filesys * file_sink_data_t :=
  match o with B_write io _ buf => (file_write io x.1 x.2 buf).1 | B_flush _ _ => x end.
Definition frun (x : filesys * file_sink_data_t) (ops : list bop) : filesys * file_sink_data_t := foldl fexec x ops.

Lemma brun_refines ops : ∀ s, bsink_ok s →
  frun (view s, b_data s) ops = (view (brun s ops), b_data (brun s ops)) ∧ bsink_ok (brun s ops).
Proof.
  induction ops as [|o ops IH]; intros s Hok; [done|]. unfold frun, brun in *. cbn [foldl].
  assert (fexec (view s, b_data s) o = (view (bexec s o), b_data (bexec s o)) ∧ bsink_ok (bexec s o)) as [-> H]; [|by apply IH].
  destruct o as [io sp buf|ok sp]; cbn [fexec bexec].
  - pose proof (bfile_write_refines io sp s buf Hok) as H. destruct (bfile_write io sp s buf) as [s' ret].
    destruct H as [H1 H2]. cbn [fst snd]. by rewrite H1.
  - destruct (file_flush_view ok sp s Hok) as (H1 & H2 & H3). by rewrite H1, H3.
Qed.

(** ** Properties *)

(** C17: buffering is invisible except to a crash. Any run of writes (with rotations,
    partial writes and errors) and flushes, with whatever the library chooses to
    hold back, leaves the data and the view that the unbuffered model leaves; what is
    on disk in the active file is a prefix of that view, all other files are the
    view's; and after a successful flush, or destruction, the disk is the view. *)
Theorem file_buffer_refines s ops sp :
  bsink_ok s →
  let s' := brun s ops in
  frun (view s, b_data s) ops = (view s', b_data s') ∧
  (∀ q, q ≠ fd_path (b_data s') → b_disk s' !! q = view s' !! q) ∧
  file_text (b_disk s') (fd_path (b_data s')) `prefix_of` file_text (view s') (fd_path (b_data s')) ∧
  b_disk (file_flush true sp s') = view s' ∧ file_destroy s' = view s'.
Proof.
  intros Hok s'. destruct (brun_refines ops s Hok) as [H1 H2]. fold s' in H1, H2. split; [done|].
  unfold view, file_destroy, file_flush, fflush, fclose. destruct (fd_open (b_data s')); split_and!; try done.
  - intros q Hq. symmetry. by apply file_append_other.
  - rewrite file_text_append. by apply prefix_app_r.
Qed.

Definition lazy_io : file_io := FileIo (λ _ n, n) false true true true (λ _, false).
Definition lazy_sink : bsink := BSink test_fs [] (FileSinkData true (B "a.log") 12 5 2).
Definition lazy_ops : list bop := [B_write lazy_io (λ _, 1%nat) (B "abc"); B_write lazy_io (λ _, 0%nat) (B "de")].

Lemma file_buffer_refines_witness :
  file_text (b_disk (brun lazy_sink lazy_ops)) (B "a.log") = B "helloa" ∧
  file_text (view (brun lazy_sink lazy_ops)) (B "a.log") = B "helloabcde" ∧
  b_disk (file_flush true 0 (brun lazy_sink lazy_ops)) = view (brun lazy_sink lazy_ops).
Proof.
  split; [vm_compute; reflexivity|]. split; [vm_compute; reflexivity|].
  apply (file_buffer_refines lazy_sink lazy_ops 0). vm_compute. eauto.
Defined.

(** The fork handlers do not flush: the child's [file_atfork_child] closes its copy of
    the stream, which writes out the lines the parent has buffered, and the parent
    writes them again. After the child's handler and the parent's next flush the file
    has the parent's buffer twice. *)
Theorem fork_duplicates_buffer io s sp :
  fd_open (b_data s) = true → io_fopen_ok io = true →
  let p := fd_path (b_data s) in
  let child := bfile_atfork_child io s in
  let parent := BSink (b_disk child) (b_buf s) (b_data s) in
  file_text (b_disk (file_flush true sp parent)) p = file_text (b_disk s) p ++ b_buf s ++ b_buf s.
Proof.
  intros Ho Hio. unfold file_flush, bfile_atfork_child, file_atfork_child, fopen_ab, fclose, fflush. cbn. rewrite Ho, Hio. cbn.
  rewrite !file_append_append, file_text_append. cbn [app]. by rewrite ?app_nil_r, ?app_assoc, ?app_nil_r.
Qed.

Lemma fork_duplicates_buffer_witness :
  file_text (b_disk (file_flush true 0 (BSink (b_disk (bfile_atfork_child lazy_io (brun lazy_sink lazy_ops)))
    (b_buf (brun lazy_sink lazy_ops)) (b_data (brun lazy_sink lazy_ops))))) (B "a.log") = B "helloabcdebcde".
Proof.
  etransitivity; [exact (fork_duplicates_buffer lazy_io (brun lazy_sink lazy_ops) 0 eq_refl eq_refl)|]. vm_compute. reflexivity.
Defined.

(** With nothing buffered the handler leaves the files alone and takes the size from
    the file. *)
Lemma atfork_child_flushed io s :
  bsink_ok s → fd_open (b_data s) = true → b_buf s = [] → io_fopen_ok io = true →
  b_disk (bfile_atfork_child io s) = b_disk s.
Proof.
  intros Hok Ho Hb Hio. unfold bsink_ok in Hok. rewrite Ho in Hok.
  unfold bfile_atfork_child, file_atfork_child, fopen_ab, fclose. rewrite Ho, Hb, Hio. cbn.
  by rewrite !file_append_nil by (try apply file_append_exists; done).
Qed.
