(* ===== verification/RateLimit.v ===== *)
(** * The token-bucket rate limiter (core/rate_limit.c)

    The limiter's state under its mutex, with C doubles as IEEE binary64 values
    computed bit by bit, the clock as an argument of each call. *)
From S2P Require Import Prelude Record.
From Stdlib Require Import SpecFloat.

Local Open Scope Z_scope.

(** ** Doubles *)

Definition dbl := spec_float.
Definition dbl_of_Z (z : Z) : dbl := binary_normalize 53 1024 z 0 false.
Definition dadd : dbl → dbl → dbl := SFadd 53 1024.
Definition dsub : dbl → dbl → dbl := SFsub 53 1024.
Definition dmul : dbl → dbl → dbl := SFmul 53 1024.
Definition ddiv : dbl → dbl → dbl := SFdiv 53 1024.
Definition dgt (x y : dbl) : bool := SFltb y x.
Definition dge (x y : dbl) : bool := SFleb y x.
Definition d0 : dbl := dbl_of_Z 0.
Definition d1 : dbl := dbl_of_Z 1.

(** ** The limiter *)

Record rl_state := RlState {
  rl_enabled : bool;
  rl_tokens : dbl;
  rl_max_tokens : dbl;
  rl_fill_rate : dbl;
  rl_last_update_ms : Z;
  rl_suppressed_count : Z;
  rl_total_suppressed : Z
}.

Definition log_rate_limit_init_for (l : rl_state) (enable : bool) (max_per_sec burst now_ms : Z) : rl_state :=
  if enable && (max_per_sec >? 0) && (burst >? 0) then
    RlState true (dbl_of_Z burst) (dbl_of_Z burst) (ddiv (dbl_of_Z max_per_sec) (dbl_of_Z 1000))
      now_ms 0 (rl_total_suppressed l)
  else
    RlState false (rl_tokens l) (rl_max_tokens l) (rl_fill_rate l) (rl_last_update_ms l)
      (rl_suppressed_count l) (rl_total_suppressed l).

(** The refill at time [now_ms]. *)
Definition rl_refill (l : rl_state) (now_ms : Z) : rl_state :=
  if now_ms >? rl_last_update_ms l then
    let elapsed_ms := dbl_of_Z (u64 (now_ms - rl_last_update_ms l)) in
    let tokens := dadd (rl_tokens l) (dmul elapsed_ms (rl_fill_rate l)) in
    let tokens := if dgt tokens (rl_max_tokens l) then rl_max_tokens l else tokens in
    RlState (rl_enabled l) tokens (rl_max_tokens l) (rl_fill_rate l) now_ms
      (rl_suppressed_count l) (rl_total_suppressed l)
  else l.

(** [log_rate_limit_allow_for]: the state, [*out_suppressed_count] and the result. *)
Definition log_rate_limit_allow_for (l : rl_state) (now_ms : Z) : rl_state * Z * bool :=
  if negb (rl_enabled l) then (l, 0, true) else
  let l := rl_refill l now_ms in
  if dge (rl_tokens l) d1 then
    let tokens := dsub (rl_tokens l) d1 in
    let out := if rl_suppressed_count l >? 0 then rl_suppressed_count l else 0 in
    let count := if rl_suppressed_count l >? 0 then 0 else rl_suppressed_count l in
    (RlState (rl_enabled l) tokens (rl_max_tokens l) (rl_fill_rate l) (rl_last_update_ms l)
       count (rl_total_suppressed l), out, true)
  else
    (RlState (rl_enabled l) (rl_tokens l) (rl_max_tokens l) (rl_fill_rate l) (rl_last_update_ms l)
       (u64 (rl_suppressed_count l + 1)) (u64 (rl_total_suppressed l + 1)), 0, false).

Definition log_rate_limit_reset_for (l : rl_state) : rl_state := RlState false d0 d0 d0 0 0 0.

Definition log_rate_limit_get_total_suppressed_for (l : rl_state) : Z := rl_total_suppressed l.

(** A run of calls, serialised by the mutex, at the given times: the final state and
    what each call reported and answered. *)
Fixpoint rl_run (l : rl_state) (times : list Z) : rl_state * list (Z * bool) :=
  match times with
  | [] => (l, [])
  | t :: ts =>
      let '(l, out, ok) := log_rate_limit_allow_for l t in
      let '(l, res) := rl_run l ts in (l, (out, ok) :: res)
  end.

Definition reported (res : list (Z * bool)) : Z := foldr (λ p a, p.1 + a) 0 res.
Definition suppressed (res : list (Z * bool)) : Z := clen (filter (λ p, p.2 = false) res).

(** ** Accounting *)

Definition rl_ok (l : rl_state) : Prop := 0 <= rl_suppressed_count l ∧ 0 <= rl_total_suppressed l.

Lemma refill_counts l t :
  rl_suppressed_count (rl_refill l t) = rl_suppressed_count l ∧
  rl_total_suppressed (rl_refill l t) = rl_total_suppressed l ∧
  rl_enabled (rl_refill l t) = rl_enabled l ∧ rl_max_tokens (rl_refill l t) = rl_max_tokens l.
Proof. unfold rl_refill. by destruct (t >? rl_last_update_ms l). Qed.

Lemma allow_counts l t :
  rl_ok l → rl_suppressed_count l < 2 ^ 64 - 1 → rl_total_suppressed l < 2 ^ 64 - 1 →
  let '(l', out, ok) := log_rate_limit_allow_for l t in
  rl_ok l' ∧ rl_enabled l' = rl_enabled l ∧
  rl_total_suppressed l' = rl_total_suppressed l + (if ok then 0 else 1) ∧
  rl_suppressed_count l' + out = rl_suppressed_count l + (if ok then 0 else 1) ∧
  (ok = true → rl_enabled l = true → rl_suppressed_count l' = 0) ∧ 0 <= out.
Proof.
  intros [H1 H2] H3 H4. unfold log_rate_limit_allow_for.
  destruct (rl_enabled l) eqn:E; cbn [negb].
  2:{ unfold rl_ok. split_and!; try done; lia. }
  destruct (refill_counts l t) as (Hc & Ht & He & _). rewrite He, Hc, Ht.
  destruct (dge _ _); unfold rl_ok; cbn [rl_suppressed_count rl_total_suppressed rl_enabled].
  - rewrite Z.gtb_ltb. destruct (Z.ltb_spec 0 (rl_suppressed_count l)); split_and!; try done; lia.
  - rewrite !u64_id by (split; lia). split_and!; try done; lia.
Qed.

Lemma allow_refused l t l' out : log_rate_limit_allow_for l t = (l', out, false) → out = 0.
Proof. unfold log_rate_limit_allow_for. destruct (negb _); [done|]. destruct (dge _ _); [done|]. by intros [= _ <-]. Qed.

Lemma suppressed_cons p res : suppressed (p :: res) = (if p.2 then 0 else 1) + suppressed res.
Proof.
  unfold suppressed. rewrite filter_cons. destruct p as [out [|]]; simpl.
  - done.
  - by rewrite clen_cons.
Qed.

Lemma rl_run_counts times l :
  rl_ok l → rl_suppressed_count l + clen times < 2 ^ 64 - 1 →
  rl_total_suppressed l + clen times < 2 ^ 64 - 1 →
  let '(l', res) := rl_run l times in
  length res = length times ∧ rl_total_suppressed l' = rl_total_suppressed l + suppressed res ∧
  rl_suppressed_count l' + reported res = rl_suppressed_count l + suppressed res.
Proof.
  revert l. induction times as [|t ts IH]; intros l Hok H1 H2; [cbn; change (suppressed []) with 0; lia|].
  rewrite clen_cons in *. pose proof (clen_nonneg ts). cbn [rl_run].
  pose proof (allow_counts l t Hok ltac:(lia) ltac:(lia)) as H3.
  destruct (log_rate_limit_allow_for l t) as [[l1 out] ok]. destruct H3 as (Hok1 & _ & Ht & Hc & _ & Ho).
  specialize (IH l1 Hok1 ltac:(destruct ok; lia) ltac:(destruct ok; lia)).
  destruct (rl_run l1 ts) as [l' res]. destruct IH as (Hlen & Ht' & Hc').
  rewrite suppressed_cons. cbn [reported foldr fst snd length]. fold (reported res).
  destruct ok; lia.
Qed.

(** ** The burst *)

(** The tokens after [n] accepted calls without refill. *)
Fixpoint spend (n : nat) (tokens : dbl) : option dbl :=
  match n with
  | O => Some tokens
  | S n' => if dge tokens d1 then spend n' (dsub tokens d1) else None
  end.

Definition burst_exact (burst : nat) : bool :=
  match spend burst (dbl_of_Z (Z.of_nat burst)) with
  | Some tokens => negb (dge tokens d1)
  | None => false
  end.

Lemma rl_run_spend n l t tokens k :
  rl_enabled l = true → t <= rl_last_update_ms l → spend n (rl_tokens l) = Some tokens →
  dge tokens d1 = false →
  map snd (rl_run l (repeat t (n + k))).2 = repeat true n ++ repeat false k.
Proof.
  revert l. induction n as [|n IH]; intros l He Ht Hs Hd.
  - simpl in Hs. injection Hs as <-. simpl. clear - He Ht Hd. revert l He Ht Hd.
    induction k as [|k IH]; intros l He Ht Hd; [done|]. cbn [repeat rl_run].
    unfold log_rate_limit_allow_for. rewrite He. cbn [negb].
    unfold rl_refill. rewrite Z.gtb_ltb. destruct (Z.ltb_spec (rl_last_update_ms l) t); [lia|].
    rewrite Hd. match goal with |- context [rl_run ?s _] => specialize (IH s) end.
    destruct (rl_run _ _) as [l' res]. cbn [snd map]. f_equal. by apply IH.
  - cbn [Nat.add repeat rl_run]. cbn [spend] in Hs.
    destruct (dge (rl_tokens l) d1) eqn:E; [|done].
    unfold log_rate_limit_allow_for. rewrite He. cbn [negb].
    unfold rl_refill. rewrite Z.gtb_ltb. destruct (Z.ltb_spec (rl_last_update_ms l) t); [lia|].
    rewrite E. match goal with |- context [rl_run ?s _] => specialize (IH s) end.
    destruct (rl_run _ _) as [l' res]. cbn [snd map app]. f_equal. apply IH; done.
Qed.

(** ** Properties *)

(** Every refused message is accounted for exactly once: over any run of calls
    at any times, the refusals reported by the accepted calls plus those still pending
    are the refusals pending at the start plus those of the run, and the lifetime
    counter grows by exactly the refusals of the run. *)
Theorem rate_limit_accounting times l :
  rl_ok l → rl_suppressed_count l + clen times < 2 ^ 64 - 1 →
  rl_total_suppressed l + clen times < 2 ^ 64 - 1 →
  let '(l', res) := rl_run l times in
  length res = length times ∧ rl_total_suppressed l' = rl_total_suppressed l + suppressed res ∧
  rl_suppressed_count l' + reported res = rl_suppressed_count l + suppressed res.
Proof. apply rl_run_counts. Qed.

Definition rl_zero : rl_state := RlState false d0 d0 d0 0 0 0.
Definition rl_test : rl_state := log_rate_limit_init_for rl_zero true 1000 2 5.

Lemma rate_limit_accounting_witness :
  let '(l', res) := rl_run rl_test [5; 5; 5; 5; 6; 9] in
  map snd res = [true; true; false; false; true; true] ∧ rl_total_suppressed l' = 2 ∧ reported res = 2.
Proof.
  pose proof (rate_limit_accounting [5; 5; 5; 5; 6; 9] rl_test ltac:(split; vm_compute; discriminate)
    ltac:(vm_compute; reflexivity) ltac:(vm_compute; reflexivity)) as H.
  destruct (rl_run rl_test _) as [l' res] eqn:E. vm_compute in E. injection E as <- <-.
  destruct H as (_ & H1 & H2). split; [reflexivity|]. split; [exact H1|exact H2].
Defined.

(** Refilling never leaves more tokens than the bucket holds, and the state
    between two calls keeps the configured capacity and rate. *)
Theorem rate_limit_refill_capped l t :
  rl_last_update_ms l < t →
  dgt (rl_tokens (rl_refill l t)) (rl_max_tokens l) = false ∨ rl_tokens (rl_refill l t) = rl_max_tokens l.
Proof.
  intros Ht. unfold rl_refill. rewrite Z.gtb_ltb. destruct (Z.ltb_spec (rl_last_update_ms l) t); [|lia].
  cbn [rl_tokens]. destruct (dgt (dadd _ _) (rl_max_tokens l)) eqn:E; auto.
Qed.

Lemma rate_limit_refill_capped_witness : rl_tokens (rl_refill rl_test 5000) = dbl_of_Z 2.
Proof.
  destruct (rate_limit_refill_capped rl_test 5000 ltac:(vm_compute; reflexivity)) as [H|H].
  - vm_compute. reflexivity.
  - rewrite H. vm_compute. reflexivity.
Defined.

(** After initialisation with a burst of up to 128, and as long as the clock
    does not advance, exactly the burst is accepted and every later call is refused:
    the binary64 arithmetic of the bucket loses no token. *)
Theorem rate_limit_burst_exact l max_per_sec burst now k :
  0 < max_per_sec → 1 <= burst <= 128 →
  map snd (rl_run (log_rate_limit_init_for l true max_per_sec burst now)
             (repeat now (Z.to_nat burst + k))).2
    = repeat true (Z.to_nat burst) ++ repeat false k.
Proof.
  intros Hm Hb. unfold log_rate_limit_init_for. rewrite !Z.gtb_ltb.
  destruct (Z.ltb_spec 0 max_per_sec), (Z.ltb_spec 0 burst); try lia. cbn [andb].
  assert (Forall (λ n, burst_exact n = true) (seq 1 128)) as Hall
    by (apply (bool_decide_unpack _); vm_compute; exact I).
  rewrite Forall_forall in Hall.
  specialize (Hall (Z.to_nat burst) ltac:(apply elem_of_seq; lia)). unfold burst_exact in Hall.
  rewrite Z2Nat.id in Hall by lia.
  destruct (spend (Z.to_nat burst) (dbl_of_Z burst)) as [tokens|] eqn:E; [|done].
  apply negb_true_iff in Hall. by apply (rl_run_spend _ _ _ tokens); [|simpl; lia|..].
Qed.

Lemma rate_limit_burst_exact_witness :
  map snd (rl_run (log_rate_limit_init_for rl_zero true 10 3 77) (repeat 77 5)).2
    = [true; true; true; false; false].
Proof. exact (rate_limit_burst_exact rl_zero 10 3 77 2 ltac:(lia) ltac:(lia)). Defined.
