(* ===== verification/Port.v ===== *)
(** * The portability layer (include/clog_port.h)

    The parts of the layer that compute: the three builds of the atomic operations
    (GNU builtins, Windows interlocked functions, plain C), the semaphores, the clocks,
    the thread identity, the scoped lock and the start of a Windows thread. What the
    operating systems do is a parameter with its documented behaviour as laws. *)
From S2P Require Import Prelude FastAscii.

Local Open Scope Z_scope.

(** ** Conversions between the widths *)

Lemma u64_i64 z : u64 (i64 z) = u64 z.
Proof.
  unfold u64, i64. rewrite Zminus_mod_idemp_l. f_equal. lia.
Qed.
Lemma i64_range z : is_i64 (i64 z).
Proof. unfold is_i64, i64. pose proof (Z.mod_pos_bound (z + 2 ^ 63) (2 ^ 64)). lia. Qed.
Lemma i64_id z : is_i64 z → i64 z = z.
Proof. unfold is_i64, i64. intros [??]. rewrite Z.mod_small; lia. Qed.
Lemma u64_add_l a b : u64 (u64 a + b) = u64 (a + b).
Proof. apply Zplus_mod_idemp_l. Qed.
Lemma u64_add_r a b : u64 (a + u64 b) = u64 (a + b).
Proof. apply Zplus_mod_idemp_r. Qed.
Lemma u64_i64_id v : is_u64 v → u64 (i64 v) = v.
Proof. intros. by rewrite u64_i64, u64_id. Qed.
Lemma i64_inj a b : is_u64 a → is_u64 b → i64 a = i64 b → a = b.
Proof. intros Ha Hb H. rewrite <- (u64_i64_id a Ha), <- (u64_i64_id b Hb). by rewrite H. Qed.

Lemma u64_opp_i64 z : u64 (- i64 z) = u64 (- z).
Proof.
  unfold u64, i64. pose proof (Z.div_mod (z + 2 ^ 63) (2 ^ 64)) as Hd.
  set (q := (z + 2 ^ 63) / 2 ^ 64) in *. set (r := (z + 2 ^ 63) mod 2 ^ 64) in *.
  replace (- (r - 2 ^ 63)) with (- z + q * 2 ^ 64) by lia. apply Z_mod_plus_full.
Qed.

(** ** Atomic operations *)

(** Which branch of the conditional compilation is taken. *)
Inductive build := GNU | WIN | PLAIN.

#[export] Instance build_eq_dec : EqDecision build.
Proof. solve_decision. Defined.

(** The interlocked functions of Windows on a 64-bit cell: the new cell and the result. *)
Class Interlocked := {
  InterlockedIncrement64 : Z → Z * Z;
  InterlockedExchangeAdd64 : Z → Z → Z * Z;
  InterlockedExchange64 : Z → Z → Z * Z;
  InterlockedCompareExchange64 : Z → Z → Z → Z * Z  (* cell, exchange, comparand *)
}.

(** As they are documented: two's complement, the old value returned, except that
    the increment returns the new one. *)
Class InterlockedLaws `{Interlocked} : Prop := {
  increment64_law c : is_i64 c → InterlockedIncrement64 c = (i64 (c + 1), i64 (c + 1));
  exchange_add64_law c v : is_i64 c → is_i64 v → InterlockedExchangeAdd64 c v = (i64 (c + v), c);
  exchange64_law c v : is_i64 c → is_i64 v → InterlockedExchange64 c v = (v, c);
  compare_exchange64_law c e x : is_i64 c → is_i64 e → is_i64 x →
    InterlockedCompareExchange64 c e x = (if c =? x then e else c, c)
}.

(** What the function call leaves in the cell and returns, both as [uint64_t]. *)
Definition as_u64 (r : Z * Z) : Z * Z := (u64 r.1, u64 r.2).

Section atomics.
Context `{Interlocked}.

Definition clog_atomic_inc64 (b : build) (v : Z) : Z * Z :=
  match b with
  | GNU => let old := v in (u64 (v + 1), u64 (old + 1))
  | WIN => as_u64 (InterlockedIncrement64 (i64 v))
  | PLAIN => let val := u64 (v + 1) in (val, val)
  end.

Definition clog_atomic_load_u64 (b : build) (v : Z) : Z * Z :=
  match b with
  | GNU | PLAIN => (v, v)
  | WIN => as_u64 (InterlockedCompareExchange64 (i64 v) 0 0)
  end.

Definition clog_atomic_store_u64 (b : build) (v val : Z) : Z :=
  match b with
  | GNU | PLAIN => val
  | WIN => (as_u64 (InterlockedExchange64 (i64 v) (i64 val))).1
  end.

(** The relaxed load and the operations on [size_t] differ in the memory order and in
    the name of the type only, where a [size_t] has eight bytes. *)
Definition clog_atomic_get64 : build → Z → Z * Z := clog_atomic_load_u64.
Definition clog_atomic_load_sz : build → Z → Z * Z := clog_atomic_load_u64.
Definition clog_atomic_store_sz : build → Z → Z → Z := clog_atomic_store_u64.

(** Where it has four, the Windows branch still works on eight bytes: the cell and
    the word behind it. *)
Definition store_sz_win32 (v next val : Z) : Z * Z :=
  let c := (as_u64 (InterlockedExchange64 (i64 (v + 2 ^ 32 * next)) (i64 val))).1 in (c mod 2 ^ 32, c / 2 ^ 32).

Definition clog_atomic_fetch_add_sz (b : build) (v n : Z) : Z * Z :=
  match b with
  | GNU | PLAIN => (u64 (v + n), v)
  | WIN => as_u64 (InterlockedExchangeAdd64 (i64 v) (i64 n))
  end.

(** The acquire-release twin. *)
Definition clog_atomic_fetch_add_sz_ar : build → Z → Z → Z * Z := clog_atomic_fetch_add_sz.

(** [None] where the Windows branch negates the least [LONG64], which C leaves
    undefined. *)
Definition clog_atomic_fetch_sub_sz (b : build) (v n : Z) : option (Z * Z) :=
  match b with
  | GNU | PLAIN => Some (u64 (v - n), v)
  | WIN => if i64 n =? - 2 ^ 63 then None else Some (as_u64 (InterlockedExchangeAdd64 (i64 v) (- i64 n)))
  end.

(** The cell, [*expected] and the result. The GNU branch asks for the weak form:
    [spurious] says that it fails without comparing. *)
Definition clog_atomic_cas_sz (b : build) (spurious : bool) (v expected desired : Z) : Z * Z * Z :=
  match b with
  | GNU => if negb spurious && (v =? expected) then (desired, expected, 1) else (v, v, 0)
  | WIN =>
      let '(cell, old) := as_u64 (InterlockedCompareExchange64 (i64 v) (i64 desired) (i64 expected)) in
      if old =? expected then (cell, expected, 1) else (cell, old, 0)
  | PLAIN => if v =? expected then (desired, expected, 1) else (v, v, 0)
  end.

End atomics.

(** The [int] twin of the compare-and-swap, GNU branch. *)
Definition clog_atomic_cas_int (spurious : bool) (v expected desired : Z) : Z * Z * Z :=
  if negb spurious && (v =? expected) then (desired, expected, 1) else (v, v, 0).

(** ** Semaphores *)

(** POSIX: the loop of [clog_sem_wait] retries while [sem_wait] fails. [answers] says
    of each call whether a signal interrupts it; [None] while it blocks. *)
Fixpoint clog_sem_wait (answers : list bool) (count : Z) : option (list bool * Z) :=
  match answers with
  | true :: rest => clog_sem_wait rest count
  | false :: rest => if count >? 0 then Some (rest, count - 1) else None
  | [] => None
  end.

Definition clog_sem_trywait (count : Z) : Z * Z := if count >? 0 then (count - 1, 0) else (count, -1).
Definition clog_sem_post (count : Z) : Z := count + 1.

(** macOS: named semaphores of the kernel. *)
Record mac_sem := MacSem { ms_ptr : option nat; ms_name : cstr }.

(** Lower-case hexadecimal digits without leading zeros. *)
Definition hex_digit (d : Z) : Z := if d <? 10 then 48 + d else 87 + d.
Fixpoint hex_go (fuel : nat) (v : Z) : cstr :=
  match fuel with
  | O => []
  | S f => if v <? 16 then [hex_digit v] else hex_go f (v / 16) ++ [hex_digit (v mod 16)]
  end.

Definition sem_name (pid addr : Z) : cstr :=
  snprintf_s 32 (B "/clogx" ++ sdec pid ++ hex_go 16 (Z.land addr 4294967295)).

(** The names the kernel knows, with the semaphore behind each, and the counts. *)
Record sem_kernel := SemKernel { sk_names : gmap cstr nat; sk_counts : gmap nat Z }.

Definition sem_unlink (k : sem_kernel) (name : cstr) : sem_kernel :=
  SemKernel (delete name (sk_names k)) (sk_counts k).

(** [sem_open] with [O_CREAT | O_EXCL]: an existing name is refused; [ok] is whether
    the kernel has room. *)
Definition sem_open (k : sem_kernel) (name : cstr) (initial : Z) (ok : bool) : sem_kernel * option nat :=
  match sk_names k !! name with
  | Some _ => (k, None)
  | None =>
      if ok then
        let id := fresh (dom (sk_counts k)) in
        (SemKernel (<[name := id]> (sk_names k)) (<[id := initial]> (sk_counts k)), Some id)
      else (k, None)
  end.

Definition mac_sem_init (k : sem_kernel) (pid addr initial : Z) (ok : bool) : sem_kernel * mac_sem * Z :=
  let name := sem_name pid addr in
  match sem_open (sem_unlink k name) name initial ok with
  | (k', Some id) => (k', MacSem (Some id) name, 0)
  | (k', None) => (k', MacSem None name, -1)
  end.

Definition mac_sem_destroy (k : sem_kernel) (s : mac_sem) : sem_kernel * mac_sem :=
  match ms_ptr s with
  | Some _ => (sem_unlink k (ms_name s), MacSem None (ms_name s))
  | None => (k, s)
  end.

Definition mac_sem_post (k : sem_kernel) (s : mac_sem) : sem_kernel :=
  match ms_ptr s with
  | Some id => SemKernel (sk_names k) (alter (λ c, c + 1) id (sk_counts k))
  | None => k
  end.

Definition mac_sem_trywait (k : sem_kernel) (s : mac_sem) : sem_kernel * Z :=
  match ms_ptr s with
  | Some id =>
      match sk_counts k !! id with
      | Some c => let '(c', r) := clog_sem_trywait c in (SemKernel (sk_names k) (<[id := c']> (sk_counts k)), r)
      | None => (k, -1)
      end
  | None => (k, -1)
  end.

(** ** Clocks, sleeping and thread identity *)

Record timespec := Timespec { tv_sec : Z; tv_nsec : Z }.

Definition clog_get_timestamp_us (ts : timespec) : Z :=
  u64 (u64 (u64 (tv_sec ts) * 1000000) + u64 (tv_nsec ts) / 1000).

(** The Windows branch, from the two halves of a FILETIME. *)
Definition clog_get_timestamp_us_win (hi lo : Z) : Z :=
  let t := Z.lor (u64 (Z.shiftl hi 32)) lo in
  u64 (t - 116444736000000000) / 10.

Definition clog_get_now_ms (ts : timespec) : Z :=
  u64 (u64 (u64 (tv_sec ts) * 1000) + u64 (tv_nsec ts) / 1000000).

(** The Windows branch, from the performance counter. *)
Definition clog_get_now_ms_win (count freq : Z) : Z := u64 (u64 count * 1000) / u64 freq.

(** The argument of [usleep]; the product is of type [useconds_t], 32 bits. *)
Definition clog_sleep_ms (ms : Z) : Z := u32 (u32 ms * 1000).

Definition clog_get_thread_id (self : Z) : Z :=
  let h := u32 (Z.shiftr self 32) in
  let l := u32 self in
  u32 (Z.lxor (Z.lxor h l) 2654435769 + 1).

(** ** The scoped lock *)

(** How the guarded code is left: past its end, by [break] or [continue] (which ends
    the macro's own [do]-loop), or by [return]. *)
Inductive outcome (V : Type) := Fall | Break | Return (v : V).
Arguments Fall {V}.
Arguments Break {V}.
Arguments Return {V} v.

(** The three definitions of [CLOG_MUTEXGUARDED]: cleanup attribute, [__finally],
    and lock and unlock around the code. *)
Inductive guard := Cleanup | Finally | Manual.

(** [locked] is the state of the mutex, [None] a thread that waits for itself. *)
Definition CLOG_MUTEXGUARDED {S V} (g : guard) (code : S → S * outcome V) (locked : bool) (s : S)
    : option (bool * S * outcome V) :=
  if locked then None
  else
    let '(s', o) := code s in
    let after := match o with Break => Fall | _ => o end in
    match g, o with
    | Manual, Fall | Cleanup, _ | Finally, _ => Some (false, s', after)
    | Manual, _ => Some (true, s', after)
    end.

(** ** Windows threads *)

(** The argument blocks alive, and the calls [func(arg)] made so far. *)
Record threads := Threads { th_blocks : gmap nat (nat * nat); th_calls : list (nat * nat) }.

(** [CreateThread] starts [clog_thread_proc] on the block: the result is the block
    handed over, [None] on failure. *)
Definition clog_thread_create (t : threads) (func arg : nat) (alloc_ok create_ok : bool) : threads * option nat * Z :=
  if negb alloc_ok then (t, None, -1)
  else
    let id := fresh (dom (th_blocks t)) in
    let blocks := <[id := (func, arg)]> (th_blocks t) in
    if create_ok then (Threads blocks (th_calls t), Some id, 0)
    else (Threads (delete id blocks) (th_calls t), None, -1).

(** The new thread: [None] if the block it was given is gone. *)
Definition clog_thread_proc (t : threads) (id : nat) : option threads :=
  '(func, arg) ← th_blocks t !! id;
  Some (Threads (delete id (th_blocks t)) (th_calls t ++ [(func, arg)])).

(** [clog_console_enable_vt_mode]: [mode] is what [GetConsoleMode] answers for a valid
    handle; the result is the mode that is set. *)
Definition clog_console_enable_vt_mode (handle_ok : bool) (mode : option Z) : option Z :=
  if handle_ok then (λ m, Z.lor m 4) <$> mode else None.

(** ** Lemmas *)

Lemma lor_halves hi lo : is_u32 hi → is_u32 lo → Z.lor (u64 (Z.shiftl hi 32)) lo = hi * 2 ^ 32 + lo.
Proof.
  unfold is_u32. intros Hh Hl. rewrite Z.shiftl_mul_pow2 by lia. rewrite u64_id by (unfold is_u64; lia).
  rewrite <- Z.add_lor_land. assert (Z.land (hi * 2 ^ 32) lo = 0) as ->; [|lia].
  apply Z.bits_inj'. intros n Hn. rewrite Z.land_spec, Z.bits_0. destruct (Z.lt_ge_cases n 32).
  - by rewrite Z.mul_pow2_bits_low by lia.
  - rewrite (Z.bits_above_log2 lo n); [apply andb_false_r|lia|].
    destruct (decide (lo = 0)) as [->|]; [cbn; lia|]. assert (Z.log2 lo < 32); [|lia].
    apply Z.log2_lt_pow2; lia.
Qed.

Lemma lxor_cancel k x : Z.lxor k (Z.lxor k x) = x.
Proof. by rewrite <- Z.lxor_assoc, Z.lxor_nilpotent, Z.lxor_0_l. Qed.
Lemma log2_u32 x : is_u32 x → Z.log2 x < 32.
Proof. intros [? ?]. destruct (decide (x = 0)) as [->|]; [cbn; lia|]. apply Z.log2_lt_pow2; lia. Qed.
Lemma lxor_u32 x y : is_u32 x → is_u32 y → is_u32 (Z.lxor x y).
Proof.
  intros Hx Hy. pose proof (log2_u32 x Hx). pose proof (log2_u32 y Hy). unfold is_u32 in *.
  assert (0 <= Z.lxor x y) by (apply Z.lxor_nonneg; lia). split; [done|].
  destruct (decide (Z.lxor x y = 0)) as [->|]; [lia|]. apply Z.log2_lt_pow2; [lia|].
  pose proof (Z.log2_lxor x y). lia.
Qed.

(** The four interlocked functions, on cells read as [uint64_t]. *)
Section laws.
Context `{InterlockedLaws}.

Lemma increment64_u v : is_u64 v → as_u64 (InterlockedIncrement64 (i64 v)) = (u64 (v + 1), u64 (v + 1)).
Proof.
  intros Hv. rewrite increment64_law by apply i64_range. unfold as_u64. cbn.
  by rewrite u64_i64, <- u64_add_l, u64_i64_id.
Qed.
Lemma exchange_add64_u v n : is_u64 v → is_i64 n → as_u64 (InterlockedExchangeAdd64 (i64 v) n) = (u64 (v + n), v).
Proof.
  intros Hv Hn. rewrite exchange_add64_law by auto using i64_range. unfold as_u64. cbn.
  by rewrite u64_i64, <- u64_add_l, u64_i64_id.
Qed.
Lemma compare_exchange64_u v e x : is_u64 v → is_u64 e → is_u64 x →
  as_u64 (InterlockedCompareExchange64 (i64 v) (i64 e) (i64 x)) = (if v =? x then e else v, v).
Proof.
  intros Hv He Hx. rewrite compare_exchange64_law by apply i64_range. unfold as_u64. cbn. rewrite (u64_i64_id v) by done.
  destruct (Z.eqb_spec (i64 v) (i64 x)) as [E|E], (Z.eqb_spec v x) as [E'|E']; rewrite ?u64_i64_id; try done.
  - by apply i64_inj in E.
  - by subst.
Qed.
End laws.

(** ** Properties *)

(** C28: the three builds of the atomic operations are one: on every 64-bit cell the
    GNU, the Windows and the plain branch leave the same value and return the same,
    with the wrap-around of [size_t] (a subtraction of 2^63 apart, where the Windows
    branch is undefined), and a compare-and-swap stores the new value and succeeds
    exactly on the expected value, unless it is the weak one of the GNU branch failing
    spuriously; when it fails it stores nothing and reports the value found. *)
Theorem atomics_agree `{InterlockedLaws} b v n :
  is_u64 v → is_u64 n →
  clog_atomic_inc64 b v = (u64 (v + 1), u64 (v + 1)) ∧
  clog_atomic_load_u64 b v = (v, v) ∧
  clog_atomic_store_u64 b v n = n ∧
  clog_atomic_fetch_add_sz b v n = (u64 (v + n), v) ∧
  (n ≠ 2 ^ 63 → clog_atomic_fetch_sub_sz b v n = Some (u64 (v - n), v)) ∧
  (∀ sp e, is_u64 e → clog_atomic_cas_sz b sp v e n =
     if (v =? e) && negb (sp && bool_decide (b = GNU)) then (n, e, 1) else (v, v, 0)).
Proof.
  intros Hv Hn. destruct b; cbn [clog_atomic_inc64 clog_atomic_load_u64 clog_atomic_store_u64 clog_atomic_fetch_add_sz
    clog_atomic_fetch_sub_sz clog_atomic_cas_sz negb andb]; split_and!; auto.
  - intros sp e He. rewrite bool_decide_true, andb_true_r by done. by destruct sp, (v =? e).
  - by apply increment64_u.
  - change 0 with (i64 0) at 1 2. rewrite compare_exchange64_u by (unfold is_u64 in *; lia).
    by destruct (Z.eqb_spec v 0); subst.
  - rewrite exchange64_law by auto using i64_range. cbn. by apply u64_i64_id.
  - rewrite exchange_add64_u by auto using i64_range.
    by rewrite <- (u64_add_r v (i64 n)), u64_i64, u64_add_r.
  - intros Hne. destruct (Z.eqb_spec (i64 n) (- 2 ^ 63)) as [E|E].
    + destruct Hne. apply (f_equal u64) in E. rewrite u64_i64, u64_id in E by done. by rewrite E.
    + assert (is_i64 (- i64 n)) by (pose proof (i64_range n); unfold is_i64 in *; lia).
      rewrite exchange_add64_u by done. do 2 f_equal.
      rewrite <- (u64_add_r v (- i64 n)). rewrite u64_opp_i64.
      by rewrite u64_add_r, Z.add_opp_r.
  - intros sp e He. rewrite bool_decide_false, andb_false_r, andb_true_r by done. rewrite compare_exchange64_u by done. by destruct (Z.eqb_spec v e).
  - intros sp e He. rewrite bool_decide_false, andb_false_r, andb_true_r by done. by destruct (Z.eqb_spec v e).
Qed.

(** Windows, as documented. *)
#[export] Instance documented : Interlocked := {
  InterlockedIncrement64 c := (i64 (c + 1), i64 (c + 1));
  InterlockedExchangeAdd64 c v := (i64 (c + v), c);
  InterlockedExchange64 c v := (v, c);
  InterlockedCompareExchange64 c e x := (if c =? x then e else c, c)
}.
#[export] Instance documented_laws : InterlockedLaws.
Proof. by constructor. Qed.

Lemma atomics_agree_witness :
  clog_atomic_fetch_sub_sz WIN 3 5 = Some (2 ^ 64 - 2, 3) ∧ clog_atomic_cas_sz WIN false 7 (2 ^ 64 - 1) 0 = (7, 7, 0).
Proof.
  split.
  - destruct (atomics_agree WIN 3 5) as (_ & _ & _ & _ & Hs & _); [unfold is_u64; lia..|]. rewrite Hs by lia. reflexivity.
  - destruct (atomics_agree WIN 7 0) as (_ & _ & _ & _ & _ & Hc); [unfold is_u64; lia..|]. rewrite Hc by (unfold is_u64; lia).
    reflexivity.
Defined.

(** With four-byte [size_t], storing to one variable clears the next. *)
Example store_sz_clears_neighbour : store_sz_win32 5 7 9 = (9, 0).
Proof. reflexivity. Qed.

(** Spurious failures included, a compare-and-swap that reports success has found the
    expected value and stored the new one, and one that reports failure has stored
    nothing and left the value found in [*expected]. *)
Theorem cas_sound `{InterlockedLaws} b sp v e d :
  is_u64 v → is_u64 e → is_u64 d →
  let '(cell, expected, ok) := clog_atomic_cas_sz b sp v e d in
  (ok = 1 ∧ v = e ∧ cell = d) ∨ (ok = 0 ∧ cell = v ∧ expected = v).
Proof.
  intros Hv He Hd. destruct b; cbn [clog_atomic_cas_sz].
  - destruct sp; cbn [negb andb]; [by right|]. destruct (Z.eqb_spec v e); [by left|by right].
  - rewrite compare_exchange64_u by done. destruct (Z.eqb_spec v e); [by left|by right].
  - destruct (Z.eqb_spec v e); [by left|by right].
Qed.

Lemma cas_sound_witness : clog_atomic_cas_sz GNU true 1 1 0 = (1, 1, 0).
Proof. destruct (cas_sound GNU true 1 1 0) as [(? & ? & ?)|_]; [unfold is_u64; lia..|lia|reflexivity]. Defined.

(** However often signals interrupt it, [clog_sem_wait] takes exactly one unit. *)
Theorem sem_wait_takes_one n rest count :
  0 < count → clog_sem_wait (repeat true n ++ false :: rest) count = Some (rest, count - 1).
Proof. intros Hc. induction n as [|n IH]; cbn; [|done]. rewrite Z.gtb_ltb. by destruct (Z.ltb_spec 0 count); [|lia]. Qed.

Lemma sem_wait_takes_one_witness : clog_sem_wait [true; true; false] 2 = Some ([], 1).
Proof. exact (sem_wait_takes_one 2 [] 2 ltac:(lia)). Defined.

(** Two named semaphores are different objects of the kernel, also when their names
    are equal: what is posted to one is not seen through the other. *)
Theorem mac_sems_isolated k pid1 addr1 init1 ok1 pid2 addr2 init2 ok2 k1 s1 k2 s2 :
  mac_sem_init k pid1 addr1 init1 ok1 = (k1, s1, 0) → mac_sem_init k1 pid2 addr2 init2 ok2 = (k2, s2, 0) →
  ∃ id, ms_ptr s1 = Some id ∧ sk_counts k2 !! id = Some init1 ∧
    sk_counts (mac_sem_post k2 s2) !! id = Some init1 ∧
    sk_counts (mac_sem_post k2 s1) !! id = Some (init1 + 1).
Proof.
  unfold mac_sem_init, sem_open. intros H1 H2. repeat case_match; simplify_eq.
  set (i1 := fresh (dom (sk_counts k))). cbn in *. set (i2 := fresh (dom (<[i1 := init1]> (sk_counts k)))).
  assert (i2 ≠ i1) as Hne.
  { intros E. assert (i2 ∉ dom (<[i1 := init1]> (sk_counts k))) as Hf by apply is_fresh.
    apply Hf. rewrite E. set_solver. }
  assert (<[i2 := init2]> (<[i1 := init1]> (sk_counts k)) !! i1 = Some init1) as Hi.
  { rewrite (lookup_insert_ne _ i2 i1) by done. apply lookup_insert_eq. }
  exists i1. split_and!; [done|done| |].
  - unfold mac_sem_post. cbn. by rewrite lookup_alter_ne.
  - unfold mac_sem_post. cbn. rewrite lookup_alter_eq. exact (f_equal (fmap (λ c, c + 1)) Hi).
Qed.

(** The name does not separate its two numbers: the semaphore at address 0x23 of
    process 1 and the one at address 0x3 of process 12 have the same name. *)
Example sem_names_collide : sem_name 1 35 = sem_name 12 3.
Proof. vm_compute. reflexivity. Qed.

Lemma mac_sems_isolated_witness :
  ∃ k2 s1, sk_counts k2 !! 0%nat = Some 5 ∧ ms_ptr s1 = Some 0%nat ∧ ms_name s1 = sem_name 12 3.
Proof.
  destruct (mac_sem_init (SemKernel ∅ ∅) 1 35 5 true) as [[k1 s1] r1] eqn:E1.
  destruct (mac_sem_init k1 12 3 7 true) as [[k2 s2] r2] eqn:E2.
  assert (r1 = 0) as -> by (by injection E1). assert (r2 = 0) as ->.
  { clear - E1 E2. vm_compute in E1. injection E1 as <- <-. vm_compute in E2. by injection E2. }
  destruct (mac_sems_isolated _ _ _ _ _ _ _ _ _ _ _ _ _ E1 E2) as (id & H1 & H2 & _).
  exists k2, s1. vm_compute in E1. injection E1 as <- <-. cbn in *. injection H1 as <-. done.
Defined.

(** The clocks of the two systems agree: for an instant [t] nanoseconds after the
    epoch both branches give [t / 1000] microseconds. *)
Theorem timestamps_agree t :
  0 <= t < 2 ^ 63 →
  let ft := t / 100 + 116444736000000000 in
  clog_get_timestamp_us (Timespec (t / 10 ^ 9) (t mod 10 ^ 9)) = t / 1000 ∧
  clog_get_timestamp_us_win (ft / 2 ^ 32) (ft mod 2 ^ 32) = t / 1000.
Proof.
  intros Ht ft. assert (0 <= ft < 2 ^ 64) as Hft.
  { unfold ft. pose proof (Z.div_pos t 100). assert (t / 100 < 2 ^ 63) by (apply Z.div_lt_upper_bound; lia). lia. }
  split.
  - unfold clog_get_timestamp_us. cbn [tv_sec tv_nsec].
    pose proof (Z.mod_pos_bound t (10 ^ 9)). pose proof (Z.div_pos t (10 ^ 9)).
    assert (t / 10 ^ 9 < 2 ^ 34) by (apply Z.div_lt_upper_bound; lia).
    rewrite (u64_id (t / 10 ^ 9)) by (unfold is_u64; lia). rewrite (u64_id (_ * _)) by (unfold is_u64; lia).
    rewrite (u64_id (t mod 10 ^ 9)) by (unfold is_u64; lia).
    assert (t mod 10 ^ 9 / 1000 < 1000000) by (apply Z.div_lt_upper_bound; lia).
    pose proof (Z.div_pos (t mod 10 ^ 9) 1000). rewrite u64_id by (unfold is_u64; lia).
    rewrite (Z.div_mod t (10 ^ 9)) at 3 by lia.
    replace (10 ^ 9 * (t / 10 ^ 9)) with (t / 10 ^ 9 * 1000000 * 1000) by lia.
    by rewrite Z.div_add_l by lia.
  - unfold clog_get_timestamp_us_win. rewrite lor_halves.
    + rewrite (Z.mul_comm (_ / _)), <- Z.div_mod by lia. unfold ft at 1. rewrite Z.add_simpl_r.
      rewrite u64_id by (unfold is_u64; unfold ft in Hft; pose proof (Z.div_pos t 100); lia).
      by rewrite Z.div_div by lia.
    + split; [apply Z.div_pos; lia|apply Z.div_lt_upper_bound; lia].
    + apply Z.mod_pos_bound. lia.
Qed.

Lemma timestamps_agree_witness : clog_get_timestamp_us_win (116444736000000015 / 2 ^ 32) (116444736000000015 mod 2 ^ 32) = 1.
Proof. exact (proj2 (timestamps_agree 1500 ltac:(lia))). Defined.

(** Sleeping is exact up to 4294967 ms; one more and the product wraps to 0.7 ms. *)
Theorem sleep_exact ms : 0 <= ms <= 4294967 → clog_sleep_ms ms = ms * 1000.
Proof. intros H. unfold clog_sleep_ms. rewrite (u32_id ms), u32_id by (unfold is_u32; lia). lia. Qed.
Lemma sleep_exact_witness : clog_sleep_ms 50 = 50000.
Proof. exact (sleep_exact 50 ltac:(lia)). Defined.
Example sleep_wraps : clog_sleep_ms 4294968 = 704.
Proof. reflexivity. Qed.

(** Thread identities are 32-bit and distinguish threads whose handles share their
    upper half. *)
Theorem thread_id_injective a b :
  is_u64 a → is_u64 b → Z.shiftr a 32 = Z.shiftr b 32 → clog_get_thread_id a = clog_get_thread_id b → a = b.
Proof.
  unfold is_u64, clog_get_thread_id. intros Ha Hb Hh E. rewrite Hh in E. rewrite !Z.shiftr_div_pow2 in Hh by lia.
  set (h := u32 (Z.shiftr b 32)) in *.
  assert (∀ x, is_u32 (Z.lxor (Z.lxor h (u32 x)) 2654435769)) as Hx.
  { intros x. apply lxor_u32; [|by unfold is_u32]. apply lxor_u32; apply u32_range. }
  assert (u32 (Z.lxor (Z.lxor h (u32 a)) 2654435769) = u32 (Z.lxor (Z.lxor h (u32 b)) 2654435769)) as E'.
  { unfold u32 in E |- *. set (x := Z.lxor _ _) in *. set (y := Z.lxor (Z.lxor h (b mod 2 ^ 32)) _) in *.
    apply (f_equal (λ z, (z - 1) mod 2 ^ 32)) in E. rewrite !Zminus_mod_idemp_l in E.
    by replace (x + 1 - 1) with x in E by lia; replace (y + 1 - 1) with y in E by lia. }
  rewrite (u32_id _ (Hx a)), (u32_id _ (Hx b)) in E'. rewrite !(Z.lxor_comm _ 2654435769) in E'.
  apply (f_equal (Z.lxor 2654435769)) in E'. rewrite !lxor_cancel in E'.
  apply (f_equal (Z.lxor h)) in E'. rewrite !lxor_cancel in E'. unfold u32 in E'.
  pose proof (Z.div_mod a (2 ^ 32)). pose proof (Z.div_mod b (2 ^ 32)). lia.
Qed.

Lemma thread_id_injective_witness : clog_get_thread_id 140737353971264 ≠ clog_get_thread_id 140737345578560.
Proof.
  intros E. assert (140737353971264 = 140737345578560) as H; [|lia].
  apply (thread_id_injective _ _); [unfold is_u64; lia..|reflexivity|exact E].
Defined.

(** Handles that differ in their upper half too may share an identity, and it may
    be 0. *)
Example thread_ids_collide :
  clog_get_thread_id (2 ^ 32 + 2) = clog_get_thread_id (2 ^ 33 + 1) ∧ clog_get_thread_id 1640531526 = 0.
Proof. split; reflexivity. Qed.

(** The scoped lock of GNU and Microsoft compilers is released however the code is
    left; the third definition releases it only past the end of the code, and agrees
    with the others there. *)
Theorem guard_releases {S V} g (code : S → S * outcome V) s s' o :
  code s = (s', o) →
  CLOG_MUTEXGUARDED Cleanup code false s = Some (false, s', match o with Break => Fall | _ => o end) ∧
  CLOG_MUTEXGUARDED Finally code false s = CLOG_MUTEXGUARDED Cleanup code false s ∧
  (∃ after, CLOG_MUTEXGUARDED g code false s = Some (match g, o with Manual, Break | Manual, Return _ => true | _, _ => false end, s', after)) ∧
  (o = Fall → CLOG_MUTEXGUARDED g code false s = CLOG_MUTEXGUARDED Cleanup code false s).
Proof.
  intros E. unfold CLOG_MUTEXGUARDED. rewrite E. split_and!; [by destruct o|by destruct o| |by intros ->; destruct g].
  destruct g, o; by eexists.
Qed.

Lemma guard_releases_witness :
  CLOG_MUTEXGUARDED Cleanup (λ s, (s + 1, Return true)) false 4 = Some (false, 5, Return true).
Proof. exact (proj1 (guard_releases Manual (λ s, (s + 1, Return true)) 4 5 (Return true) eq_refl)). Defined.

(** On Windows the block that carries the start of a thread is freed exactly once, by
    the thread, which makes exactly its call; a thread that could not be created
    leaves nothing. *)
Theorem thread_start_once t func arg alloc_ok create_ok t' h ret :
  clog_thread_create t func arg alloc_ok create_ok = (t', h, ret) →
  (ret = 0 ∧ ∃ id, h = Some id ∧ id ∉ dom (th_blocks t) ∧
     clog_thread_proc t' id = Some (Threads (th_blocks t) (th_calls t ++ [(func, arg)]))) ∨
  (ret = -1 ∧ h = None ∧ t' = t).
Proof.
  unfold clog_thread_create. set (id := fresh (dom (th_blocks t))).
  assert (id ∉ dom (th_blocks t)) as Hf by apply is_fresh. clearbody id.
  assert (th_blocks t !! id = None) as Hn by (by apply not_elem_of_dom).
  assert (delete id (<[id := (func, arg)]> (th_blocks t)) = th_blocks t) as Hd by (by apply delete_insert_id).
  destruct alloc_ok, create_ok; intros [= <- <- <-]; [left|right|right|right].
  - split; [done|]. exists id. split_and!; [done|done|]. unfold clog_thread_proc. cbn [th_blocks th_calls].
    rewrite lookup_insert_eq. cbn [mbind option_bind]. by rewrite Hd.
  - split_and!; [done|done|]. rewrite Hd. by destruct t.
  - by destruct t.
  - by destruct t.
Qed.

Lemma thread_start_once_witness :
  ∃ id, clog_thread_proc (Threads {[id := (7, 9)%nat]} []) id = Some (Threads ∅ [(7, 9)%nat]).
Proof.
  destruct (clog_thread_create (Threads ∅ []) 7 9 true true) as [[t' h] r] eqn:E.
  destruct (thread_start_once _ _ _ _ _ _ _ _ E) as [(_ & id & -> & _ & H)|(Hr & _)];
    injection E as <- Eh Er; [|by subst]. exists id. subst. exact H.
Defined.
