(* ===== verification/WeakMem.v ===== *)
(** * Release/acquire memory (the memory orders of include/clog_port.h)

    The memory of the C11 atomics the GNU branches ask for, by views: a location is a
    finite map from timestamps to messages, a message carries what its writer had seen if
    the store releases, and a thread may load any message its own view does not forbid.
    A store takes any free timestamp after the thread's view, a read-modify-write the one
    next to the message it reads.  A location accessed without atomics counts its accesses;
    an access by a thread that has not seen all earlier ones is a race.  Semaphores and
    mutexes hand the views of the threads that post on to those that wait. *)
From S2P Require Import Prelude.

Local Open Scope Z_scope.

(** ** Views *)

Section views.
Context {loc : Type} `{EqDecision loc}.

Definition view := loc → Z.
Definition vbot : view := λ _, 0.
Definition vle (V W : view) : Prop := ∀ l, V l <= W l.
Definition vjoin (V W : view) : view := λ l, Z.max (V l) (W l).
Definition vset (V : view) (l : loc) (t : Z) : view := λ k, if decide (k = l) then Z.max (V k) t else V k.

#[export] Instance vle_preorder : PreOrder vle.
Proof. split; [intros V l; lia|]. intros V W X H1 H2 l. specialize (H1 l). specialize (H2 l). lia. Qed.

Lemma vle_join_l V W : vle V (vjoin V W).
Proof. intros l. unfold vjoin. lia. Qed.
Lemma vle_join_r V W : vle W (vjoin V W).
Proof. intros l. unfold vjoin. lia. Qed.
Lemma vle_set V l t : vle V (vset V l t).
Proof. intros k. unfold vset. case_decide; lia. Qed.
Lemma vset_ne V l t k : k ≠ l → vset V l t k = V k.
Proof. intros H. unfold vset. by rewrite decide_False. Qed.
Lemma vset_eq V l t : vset V l t l = Z.max (V l) t.
Proof. unfold vset. by rewrite decide_True. Qed.
End views.
Arguments view : clear implicits.

#[export] Hint Resolve vle_join_l vle_join_r vle_set : clog.

(** ** Memory *)

(** The memory orders the library uses. *)
Inductive order := Relaxed | Acquire | Release | AcqRel.
Definition acquires (o : order) : bool := match o with Acquire | AcqRel => true | _ => false end.
Definition releases (o : order) : bool := match o with Release | AcqRel => true | _ => false end.

Section memory.
Context {loc : Type} `{EqDecision loc} {A : Type}.
Implicit Types (V W : view loc) (l : loc) (t v : Z) (o : order).

Record msg := Msg { m_val : Z; m_view : view loc }.

(** [cells] are the atomic locations, [plain] and [count] the contents of the others and
    how often they were accessed, [sems] the semaphores. *)
Record mem := Mem {
  cells : loc → gmap Z msg;
  plain : loc → A;
  count : loc → Z;
  sems : loc → Z * view loc;
  raced : bool
}.
Implicit Types (M : mem) (a : A).

Definition add_msg M l t (m : msg) : mem :=
  Mem (λ k, if decide (k = l) then <[t := m]> (cells M l) else cells M k) (plain M) (count M) (sems M) (raced M).
Definition set_sem M l (s : Z * view loc) : mem :=
  Mem (cells M) (plain M) (count M) (λ k, if decide (k = l) then s else sems M k) (raced M).

(** A load of the message at [t]. *)
Definition load o M V l t : option (Z * view loc) :=
  m ← cells M l !! t;
  if V l <=? t then Some (m_val m, if acquires o then vjoin (vset V l t) (m_view m) else vset V l t) else None.

(** A store at [t]. *)
Definition store o M V l v t : option (mem * view loc) :=
  if (V l <? t) && bool_decide (cells M l !! t = None)
  then Some (add_msg M l t (Msg v (if releases o then vset V l t else vset vbot l t)), vset V l t)
  else None.

(** A read-modify-write of the message at [t]; the new one carries the old one's view. *)
Definition update o M V l (f : Z → Z) t : option (mem * view loc * Z) :=
  m ← cells M l !! t;
  x ← load o M V l t;
  if bool_decide (cells M l !! (t + 1) = None) then
    let V2 := vset (snd x) l (t + 1) in
    Some (add_msg M l (t + 1) (Msg (f (m_val m)) (vjoin (m_view m) (if releases o then V2 else vset vbot l (t + 1)))),
          V2, m_val m)
  else None.

(** A compare-and-swap: an update when it finds [e] (and, in the weak form, does not fail
    without reason), a load otherwise. *)
Definition cas M V l (e d t : Z) (spurious : bool) : option (mem * view loc * bool) :=
  m ← cells M l !! t;
  if (m_val m =? e) && negb spurious
  then x ← update AcqRel M V l (λ _, d) t; Some (fst (fst x), snd (fst x), true)
  else x ← load Acquire M V l t; Some (M, snd x, false).

(** An access without atomics: the content before it, [a] after it. *)
Definition touch M V l a : mem * view loc * A :=
  (Mem (cells M) (λ k, if decide (k = l) then a else plain M k)
     (λ k, if decide (k = l) then count M l + 1 else count M k) (sems M) (raced M || negb (V l =? count M l)),
   vset V l (count M l + 1), plain M l).

Definition post M V l : mem := set_sem M l (fst (sems M l) + 1, vjoin (snd (sems M l)) V).
Definition wait M V l : option (mem * view loc) :=
  if fst (sems M l) >? 0
  then Some (set_sem M l (fst (sems M l) - 1, snd (sems M l)), vjoin V (snd (sems M l))) else None.

(** ** Programs: what a thread does next, and the answer it gets *)

Inductive access :=
  | ALoad (o : order) (l : loc)
  | AStore (o : order) (l : loc) (v : Z)
  | AUpdate (o : order) (l : loc) (f : Z → Z)
  | ACas (l : loc) (e d : Z)
  | ATouch (l : loc) (f : A → A)
  | APost (l : loc)
  | AWait (l : loc)
  | ANone.

Inductive answer := Val (v : Z) | Content (a : A) | Done.

(** One access of a thread with view [V]; [t] and [spurious] are the choices of the memory. *)
Definition perform (x : access) M V t (spurious : bool) : option (mem * view loc * answer) :=
  match x with
  | ALoad o l => y ← load o M V l t; Some (M, snd y, Val (fst y))
  | AStore o l v => y ← store o M V l v t; Some (y, Done)
  | AUpdate o l f => y ← update o M V l f t; Some (fst y, Val (snd y))
  | ACas l e d => y ← cas M V l e d t spurious; Some (fst y, Val (if snd y : bool then 1 else 0))
  | ATouch l f => let y := touch M V l (f (plain M l)) in Some (fst y, Content (snd y))
  | APost l => Some (post M V l, V, Done)
  | AWait l => y ← wait M V l; Some (y, Done)
  | ANone => Some (M, V, Done)
  end.

Lemma perform_load o l M V t sp M' V' r :
  perform (ALoad o l) M V t sp = Some (M', V', r) → ∃ y, load o M V l t = Some y ∧ M' = M ∧ V' = snd y ∧ r = Val (fst y).
Proof. cbn. destruct (load o M V l t) as [y|]; [|done]. intros [= <- <- <-]. by exists y. Qed.

Lemma perform_store o l v M V t sp M' V' r :
  perform (AStore o l v) M V t sp = Some (M', V', r) → ∃ y, store o M V l v t = Some y ∧ M' = fst y ∧ V' = snd y ∧ r = Done.
Proof. cbn. destruct (store o M V l v t) as [[M1 V1]|]; [|done]. intros [= <- <- <-]. by exists (M1, V1). Qed.

(** ** What every access keeps *)

(** Nobody has seen more accesses of a plain location than there were. *)
Definition bounded (is_plain : loc → bool) M V : Prop :=
  (∀ l, 0 <= V l) ∧ ∀ l, is_plain l = true → V l <= count M l.

Record mem_ok (is_plain : loc → bool) M : Prop := {
  ok_msg l t m : cells M l !! t = Some m → 0 <= t ∧ bounded is_plain M (m_view m);
  ok_sem l : bounded is_plain M (snd (sems M l));
  ok_count l : 0 <= count M l
}.

(** Atomics and plain accesses are of different locations. *)
Definition access_ok (is_plain : loc → bool) (x : access) : bool :=
  match x with
  | ALoad _ l | AStore _ l _ | AUpdate _ l _ | ACas l _ _ => negb (is_plain l)
  | ATouch l _ => is_plain l
  | _ => true
  end.

Context (is_plain : loc → bool).

Lemma bounded_join M V W : bounded is_plain M V → bounded is_plain M W → bounded is_plain M (vjoin V W).
Proof. intros [H1 H2] [H3 H4]. split; intros l; unfold vjoin; [specialize (H1 l); lia|]. intros Hl. specialize (H2 l Hl). specialize (H4 l Hl). lia. Qed.

Lemma bounded_set M V l t : bounded is_plain M V → is_plain l = false → 0 <= t → bounded is_plain M (vset V l t).
Proof.
  intros [H1 H2] Hl Ht. split; intros k.
  - pose proof (vle_set V l t k). specialize (H1 k). lia.
  - intros Hk. rewrite vset_ne by (intros ->; congruence). by apply H2.
Qed.

Lemma bounded_bot M : mem_ok is_plain M → bounded is_plain M vbot.
Proof. intros H. split; intros l; [done|]. intros _. apply (ok_count _ M H). Qed.

Lemma bounded_mono M M' V : (∀ l, count M l <= count M' l) → bounded is_plain M V → bounded is_plain M' V.
Proof. intros Hc [H1 H2]. split; [done|]. intros l Hl. specialize (Hc l). specialize (H2 l Hl). lia. Qed.

Lemma bounded_ext M M' V : count M' = count M → bounded is_plain M V → bounded is_plain M' V.
Proof. intros E. apply bounded_mono. rewrite E. intros; lia. Qed.

Lemma load_ok o M V l t y :
  mem_ok is_plain M → bounded is_plain M V → is_plain l = false → load o M V l t = Some y →
  vle V (snd y) ∧ bounded is_plain M (snd y) ∧
  ∃ m, cells M l !! t = Some m ∧ fst y = m_val m ∧ V l <= t ∧ (acquires o = true → vle (m_view m) (snd y)).
Proof.
  intros HM HV Hl. unfold load. destruct (cells M l !! t) as [m|] eqn:E; [|done]. cbn.
  destruct (Z.leb_spec (V l) t); [|done]. intros [= <-]. cbn. destruct (ok_msg _ M HM l t m E) as [Ht Hm].
  destruct (acquires o).
  - split; [etrans; [apply (vle_set V l t)|apply vle_join_l]|].
    split; [by apply bounded_join; [apply bounded_set|]|]. exists m. split_and!; try done. intros _. apply vle_join_r.
  - split; [apply vle_set|]. split; [by apply bounded_set|]. by exists m.
Qed.

Lemma add_msg_ok M l t m :
  mem_ok is_plain M → 0 <= t → bounded is_plain M (m_view m) → mem_ok is_plain (add_msg M l t m).
Proof.
  intros [H1 H2 H3] Ht Hm. split; try done. intros k t' m'. cbn. case_decide; [|apply H1]. subst k.
  rewrite lookup_insert_Some. intros [[<- <-]|[_ H]]; [by split|by eapply H1].
Qed.

Lemma store_ok o M V l v t y :
  mem_ok is_plain M → bounded is_plain M V → is_plain l = false → store o M V l v t = Some y →
  mem_ok is_plain (fst y) ∧ bounded is_plain (fst y) (snd y) ∧ vle V (snd y) ∧ snd y = vset V l t ∧ V l < t ∧
  fst y = add_msg M l t (Msg v (if releases o then vset V l t else vset vbot l t)).
Proof.
  intros HM HV Hl. unfold store. destruct (Z.ltb_spec (V l) t); cbn; [|done]. case_bool_decide; [|done].
  intros [= <-]. cbn. assert (0 <= t) by (destruct HV as [H1 _]; specialize (H1 l); lia).
  assert (bounded is_plain M (vset V l t)) by (by apply bounded_set).
  split_and!; try done; [|apply vle_set].
  apply add_msg_ok; [done..|]. destruct (releases o); [done|]. by apply bounded_set; [apply bounded_bot|..].
Qed.

Lemma update_ok o M V l f t y :
  mem_ok is_plain M → bounded is_plain M V → is_plain l = false → update o M V l f t = Some y →
  let '(M', V', v) := y in
  mem_ok is_plain M' ∧ bounded is_plain M' V' ∧ vle V V' ∧
  ∃ m W, cells M l !! t = Some m ∧ v = m_val m ∧ cells M l !! (t + 1) = None ∧ V l <= t ∧ vle W V' ∧
    (releases o = true → W = V') ∧ M' = add_msg M l (t + 1) (Msg (f v) (vjoin (m_view m) W)) ∧ t + 1 <= V' l.
Proof.
  intros HM HV Hl. unfold update. destruct (cells M l !! t) as [m|] eqn:E; [|done]. cbn.
  destruct (load o M V l t) as [x|] eqn:EL; [|done]. cbn. case_bool_decide as Hf; [|done]. intros [= <-].
  destruct (load_ok _ _ _ _ _ _ HM HV Hl EL) as (L1 & L2 & m' & Em & _ & Ht & _).
  assert (m' = m) as -> by congruence. destruct (ok_msg _ M HM l t m E) as [Ht0 Hm].
  assert (bounded is_plain M (vset (snd x) l (t + 1))) as HB by (apply bounded_set; [done|done|lia]).
  set (W := if releases o then vset (snd x) l (t + 1) else vset vbot l (t + 1)).
  assert (bounded is_plain M W ∧ vle W (vset (snd x) l (t + 1))) as [HW1 HW2].
  { unfold W. destruct (releases o); [by split|]. split; [apply bounded_set; [by apply bounded_bot|done|lia]|].
    intros k. destruct L2 as [L2 _]. specialize (L2 k). unfold vset, vbot. case_decide; lia. }
  split; [apply add_msg_ok; [done|lia|by apply bounded_join]|]. split; [done|].
  split; [etrans; [exact L1|apply vle_set]|].
  exists m, W. split_and!; try done; [|rewrite vset_eq; lia]. unfold W. by intros ->.
Qed.

Lemma touch_ok M V l a :
  mem_ok is_plain M → bounded is_plain M V → is_plain l = true →
  let '(M', V', _) := touch M V l a in
  mem_ok is_plain M' ∧ bounded is_plain M' V' ∧ vle V V' ∧ (∀ k, count M k <= count M' k).
Proof.
  intros HM HV Hl. unfold touch.
  set (M' := Mem _ _ _ _ _). assert (∀ k, count M k <= count M' k) as Hc by (intros k; cbn; case_decide; [subst; lia|lia]).
  destruct HM as [H1 H2 H3]. split.
  - split.
    + intros k t m Hk. destruct (H1 k t m Hk) as [Ht Hm]. split; [done|exact (bounded_mono M M' _ Hc Hm)].
    + intros k. exact (bounded_mono M M' _ Hc (H2 k)).
    + intros k. specialize (Hc k). specialize (H3 k). lia.
  - split; [|split; [apply vle_set|done]]. destruct HV as [H4 H5]. split; intros k.
    + pose proof (vle_set V l (count M l + 1) k). specialize (H4 k). lia.
    + intros Hk. unfold vset. cbn. case_decide; [subst; specialize (H5 l Hl); lia|by apply H5].
Qed.

Lemma post_ok M V l : mem_ok is_plain M → bounded is_plain M V → mem_ok is_plain (post M V l).
Proof.
  intros [H1 H2 H3] HV. split; try done. intros k. cbn. case_decide; [|apply H2]. cbn. apply bounded_join; [apply H2|done].
Qed.

Lemma wait_ok M V l y :
  mem_ok is_plain M → bounded is_plain M V → wait M V l = Some y →
  mem_ok is_plain (fst y) ∧ bounded is_plain (fst y) (snd y) ∧ vle V (snd y) ∧
  cells (fst y) = cells M ∧ plain (fst y) = plain M ∧ count (fst y) = count M ∧ raced (fst y) = raced M.
Proof.
  intros [H1 H2 H3] HV. unfold wait. destruct (_ >? 0); [|done]. intros [= <-]. cbn. split_and!; try done.
  - split; try done. intros k. cbn. case_decide; [apply H2|apply H2].
  - apply bounded_join; [done|apply H2].
  - apply vle_join_l.
Qed.
End memory.

Arguments msg : clear implicits.
Arguments mem : clear implicits.
Arguments access : clear implicits.
Arguments answer : clear implicits.
