(* ===== verification/Queue.v ===== *)
(** * The lock-free multi-producer single-consumer ring (core/queue.c)

    Every access to a shared variable is one step of a state machine whose threads
    are any number of producers, the consumer and a closing thread; interleavings are
    the runs of [exec]. The machine is sequentially consistent; QueueWeak.v runs the same
    code over release/acquire memory. Positions are 64-bit,
    with the wrap-around of their arithmetic written out; the theorems speak of runs
    of fewer than 2^62 steps, so that no position wraps. *)
From S2P Require Import Prelude.

Local Open Scope Z_scope.

(** ** Capacity *)

(** The loop of [next_pow2]: [None] while it has not ended. *)
Fixpoint next_pow2_loop (fuel : nat) (p n : Z) : option Z :=
  if p <? n then
    match fuel with
    | O => None
    | S fuel' => next_pow2_loop fuel' (u64 (p * 2)) n
    end
  else Some p.

Definition next_pow2 (fuel : nat) (n : Z) : option Z :=
  if n <=? 1 then Some 1 else next_pow2_loop fuel 2 n.

(** ** The machine *)

Section queue.
Context {A : Type}.

(** A slot: the record, [None] for a tombstone, and the publish counter. *)
Record mpsc_slot_t := Slot { slot_rec : option A; slot_seq : Z }.

(** One call of [try_put] ([op_blocking = false]) or [put]. *)
Record op := Op { op_rec : A; op_blocking : bool }.

(** Where a producer is in [mpsc_queue_try_put], named after its next access. *)
Inductive ppc :=
  | P_idle
  | P_closed (o : op)                                    (* load closed *)
  | P_tail (o : op)                                      (* load tail, pre-check *)
  | P_head (o : op) (tail_snap : Z)                      (* load head, pre-check *)
  | P_claim (o : op)                                     (* fetch_add head *)
  | P_recheck (o : op) (pos : Z)                         (* load tail, post-claim *)
  | P_spin (o : op) (pos last_tail : Z) (stalls : Z)     (* load tail, waiting *)
  | P_tomb (o : op) (pos : Z)                            (* write the tombstone *)
  | P_write (o : op) (pos : Z)                           (* write the record *)
  | P_publish (o : op) (pos : Z) (c : option A)          (* store seq *)
  | P_signal (o : op) (ret : Z)                          (* CAS consumer_parked *)
  | P_post (o : op) (ret : Z)                            (* post items_sem *)
  | P_ret (o : op) (ret : Z)                             (* return *)
  | P_put_closed (o : op)                                (* put: load closed *)
  | P_put_wait (o : op).                                 (* put: wait slots_sem *)

(** The consumer, in [mpsc_queue_wait_for_items] and [mpsc_queue_get_batch_try]. *)
Inductive cpc :=
  | C_idle
  | C_head1 | C_tail1 (head : Z) | C_closed1
  | C_park
  | C_head2 | C_tail2 (head : Z) | C_closed2
  | C_sem
  | C_unpark_loop | C_unpark_ok | C_unpark_closed
  | C_finished
  | C_batch_head | C_batch_tail (head : Z)
  | C_seq (tail available : Z) (got : list (option A))
  | C_copy (tail available : Z) (got : list (option A))
  | C_store (tail : Z) (got : list (option A))
  | C_slots (n : nat)
  | C_rem_head | C_rem_tail (head : Z)
  | C_drain.

(** [mpsc_queue_close]. *)
Inductive kpc := K_idle | K_closed | K_items | K_slots (n : nat) | K_drain | K_done.

(** [q_log], [q_out], [q_rets], [q_abandoned] and [q_missed] are ghost: what was
    published at each position, what the consumer received in order, what the finished
    calls returned, whether a producer gave up on a claimed position, and whether a
    weak compare-and-swap failed spuriously on a parked consumer. *)
Record qstate := QState {
  q_cap : Z;
  q_slots : Z → mpsc_slot_t;
  q_head : Z;
  q_tail : Z;
  q_closed : bool;
  q_parked : bool;
  q_items_sem : Z;
  q_slots_sem : Z;
  q_drained : Z;
  q_prods : list ppc;
  q_cons : cpc;
  q_closer : kpc;
  q_log : gmap Z (option A);
  q_out : list (option A);
  q_rets : list (A * Z);
  q_abandoned : bool;
  q_missed : bool
}.

(** [mpsc_queue_create] with a capacity that is already a power of two. *)
Definition q_init (cap : Z) (n : nat) : qstate :=
  QState cap (λ i, Slot None i) 0 0 false false 0 cap 0 (replicate n P_idle) C_idle K_idle ∅ [] [] false false.

Definition usub (a b : Z) : Z := u64 (a - b).
Definition slot_index (s : qstate) (pos : Z) : Z := Z.land pos (q_cap s - 1).

(** Field updates. *)
Definition set_prod (s : qstate) (i : nat) (p : ppc) : qstate :=
  QState (q_cap s) (q_slots s) (q_head s) (q_tail s) (q_closed s) (q_parked s) (q_items_sem s)
    (q_slots_sem s) (q_drained s) (<[i := p]> (q_prods s)) (q_cons s) (q_closer s) (q_log s) (q_out s)
    (q_rets s) (q_abandoned s) (q_missed s).
Definition set_cons (s : qstate) (c : cpc) : qstate :=
  QState (q_cap s) (q_slots s) (q_head s) (q_tail s) (q_closed s) (q_parked s) (q_items_sem s)
    (q_slots_sem s) (q_drained s) (q_prods s) c (q_closer s) (q_log s) (q_out s) (q_rets s) (q_abandoned s) (q_missed s).
Definition set_closer (s : qstate) (k : kpc) : qstate :=
  QState (q_cap s) (q_slots s) (q_head s) (q_tail s) (q_closed s) (q_parked s) (q_items_sem s)
    (q_slots_sem s) (q_drained s) (q_prods s) (q_cons s) k (q_log s) (q_out s) (q_rets s) (q_abandoned s) (q_missed s).
Definition set_head (s : qstate) (h : Z) : qstate :=
  QState (q_cap s) (q_slots s) h (q_tail s) (q_closed s) (q_parked s) (q_items_sem s)
    (q_slots_sem s) (q_drained s) (q_prods s) (q_cons s) (q_closer s) (q_log s) (q_out s) (q_rets s) (q_abandoned s) (q_missed s).
Definition set_slot (s : qstate) (i : Z) (c : mpsc_slot_t) : qstate :=
  QState (q_cap s) (λ j, if j =? i then c else q_slots s j) (q_head s) (q_tail s) (q_closed s) (q_parked s)
    (q_items_sem s) (q_slots_sem s) (q_drained s) (q_prods s) (q_cons s) (q_closer s) (q_log s) (q_out s)
    (q_rets s) (q_abandoned s) (q_missed s).
Definition set_closed (s : qstate) : qstate :=
  QState (q_cap s) (q_slots s) (q_head s) (q_tail s) true (q_parked s) (q_items_sem s)
    (q_slots_sem s) (q_drained s) (q_prods s) (q_cons s) (q_closer s) (q_log s) (q_out s) (q_rets s) (q_abandoned s) (q_missed s).
Definition set_parked (s : qstate) (b : bool) : qstate :=
  QState (q_cap s) (q_slots s) (q_head s) (q_tail s) (q_closed s) b (q_items_sem s)
    (q_slots_sem s) (q_drained s) (q_prods s) (q_cons s) (q_closer s) (q_log s) (q_out s) (q_rets s) (q_abandoned s) (q_missed s).
Definition set_sems (s : qstate) (items slots drained : Z) : qstate :=
  QState (q_cap s) (q_slots s) (q_head s) (q_tail s) (q_closed s) (q_parked s) items
    slots drained (q_prods s) (q_cons s) (q_closer s) (q_log s) (q_out s) (q_rets s) (q_abandoned s) (q_missed s).
(** The consumer advances its position past what it copied. *)
Definition deliver (s : qstate) (t : Z) (got : list (option A)) : qstate :=
  QState (q_cap s) (q_slots s) (q_head s) t (q_closed s) (q_parked s) (q_items_sem s)
    (q_slots_sem s) (q_drained s) (q_prods s) (q_cons s) (q_closer s) (q_log s) (q_out s ++ got) (q_rets s)
    (q_abandoned s) (q_missed s).
(** Ghost updates. *)
Definition log_publish (s : qstate) (pos : Z) (c : option A) : qstate :=
  QState (q_cap s) (q_slots s) (q_head s) (q_tail s) (q_closed s) (q_parked s) (q_items_sem s)
    (q_slots_sem s) (q_drained s) (q_prods s) (q_cons s) (q_closer s) (<[pos := c]> (q_log s)) (q_out s)
    (q_rets s) (q_abandoned s) (q_missed s).
Definition log_return (s : qstate) (r : A) (ret : Z) : qstate :=
  QState (q_cap s) (q_slots s) (q_head s) (q_tail s) (q_closed s) (q_parked s) (q_items_sem s)
    (q_slots_sem s) (q_drained s) (q_prods s) (q_cons s) (q_closer s) (q_log s) (q_out s)
    (q_rets s ++ [(r, ret)]) (q_abandoned s) (q_missed s).
Definition log_abandon (s : qstate) : qstate :=
  QState (q_cap s) (q_slots s) (q_head s) (q_tail s) (q_closed s) (q_parked s) (q_items_sem s)
    (q_slots_sem s) (q_drained s) (q_prods s) (q_cons s) (q_closer s) (q_log s) (q_out s) (q_rets s) true (q_missed s).

(** A compare-and-swap that fails without comparing: [clog_atomic_cas_int] asks for
    the weak form, which may. Remembered if the consumer was parked. *)
Definition log_missed (s : qstate) : qstate :=
  QState (q_cap s) (q_slots s) (q_head s) (q_tail s) (q_closed s) (q_parked s) (q_items_sem s)
    (q_slots_sem s) (q_drained s) (q_prods s) (q_cons s) (q_closer s) (q_log s) (q_out s) (q_rets s)
    (q_abandoned s) (q_missed s || q_parked s).

(** One access of producer [i], from [mpsc_queue_try_put], [queue_signal_consumer]
    and [mpsc_queue_put]. *)
Definition prod_step (s : qstate) (i : nat) (p : ppc) : option qstate :=
  match p with
  | P_idle => None
  | P_closed o => Some (set_prod s i (if q_closed s then P_ret o (-1) else P_tail o))
  | P_tail o => Some (set_prod s i (P_head o (q_tail s)))
  | P_head o tail_snap =>
      Some (set_prod s i (if usub (q_head s) tail_snap >=? q_cap s then P_ret o (-1) else P_claim o))
  | P_claim o => Some (set_prod (set_head s (u64 (q_head s + 1))) i (P_recheck o (q_head s)))
  | P_recheck o pos =>
      let tail_snap := q_tail s in
      Some (set_prod s i
        (if usub pos tail_snap >=? q_cap s then
           if pos >=? q_cap s then P_spin o pos tail_snap 0 else P_tomb o pos
         else P_write o pos))
  | P_spin o pos last_tail stalls =>
      let tail_snap := q_tail s in
      if tail_snap >? usub pos (q_cap s) then Some (set_prod s i (P_tomb o pos))
      else if negb (tail_snap =? last_tail) then Some (set_prod s i (P_spin o pos tail_snap 0))
      else if stalls + 1 >? 1000000 then Some (log_abandon (set_prod s i (P_ret o (-1))))
      else Some (set_prod s i (P_spin o pos last_tail (stalls + 1)))
  | P_tomb o pos =>
      let ix := slot_index s pos in
      Some (set_prod (set_slot s ix (Slot None (slot_seq (q_slots s ix)))) i (P_publish o pos None))
  | P_write o pos =>
      let ix := slot_index s pos in
      Some (set_prod (set_slot s ix (Slot (Some (op_rec o)) (slot_seq (q_slots s ix)))) i
        (P_publish o pos (Some (op_rec o))))
  | P_publish o pos c =>
      let ix := slot_index s pos in
      Some (set_prod (log_publish (set_slot s ix (Slot (slot_rec (q_slots s ix)) (u64 (pos + 1)))) pos c) i
        (P_signal o (match c with Some _ => 0 | None => -1 end)))
  | P_signal o ret =>
      Some (if q_parked s then set_prod (set_parked s false) i (P_post o ret) else set_prod s i (P_ret o ret))
  | P_post o ret =>
      Some (set_prod (set_sems s (q_items_sem s + 1) (q_slots_sem s) (q_drained s)) i (P_ret o ret))
  | P_ret o ret =>
      Some (if negb (ret =? 0) && op_blocking o then set_prod s i (P_put_closed o)
            else log_return (set_prod s i P_idle) (op_rec o) ret)
  | P_put_closed o =>
      Some (if q_closed s then log_return (set_prod s i P_idle) (op_rec o) (-1)
            else set_prod s i (P_put_wait o))
  | P_put_wait o =>
      if q_slots_sem s >? 0
      then Some (set_prod (set_sems s (q_items_sem s) (q_slots_sem s - 1) (q_drained s)) i (P_closed o))
      else None
  end.

(** One access of the consumer; a batch holds at most [max_records]. *)
Definition cons_step (max_records : Z) (s : qstate) : option qstate :=
  match q_cons s with
  | C_idle | C_finished => None
  | C_head1 => Some (set_cons s (C_tail1 (q_head s)))
  | C_tail1 head => Some (set_cons s (if usub head (q_tail s) >? 0 then C_batch_head else C_closed1))
  | C_closed1 => Some (set_cons s (if q_closed s then C_finished else C_park))
  | C_park => Some (set_cons (set_parked s true) C_head2)
  | C_head2 => Some (set_cons s (C_tail2 (q_head s)))
  | C_tail2 head => Some (set_cons s (if usub head (q_tail s) >? 0 then C_unpark_ok else C_closed2))
  | C_closed2 => Some (set_cons s (if q_closed s then C_unpark_closed else C_sem))
  | C_sem =>
      if q_items_sem s >? 0
      then Some (set_cons (set_sems s (q_items_sem s - 1) (q_slots_sem s) (q_drained s)) C_unpark_loop)
      else None
  | C_unpark_loop => Some (set_cons (set_parked s false) C_head1)
  | C_unpark_ok => Some (set_cons (set_parked s false) C_batch_head)
  | C_unpark_closed => Some (set_cons (set_parked s false) C_finished)
  | C_batch_head => Some (set_cons s (C_batch_tail (q_head s)))
  | C_batch_tail head =>
      let available := usub head (q_tail s) in
      Some (set_cons s (if available =? 0 then C_idle else C_seq (q_tail s) available []))
  | C_seq tail available got =>
      let n := clen got in
      if (n <? available) && (n <? max_records) then
        let pos := u64 (tail + n) in
        if negb (slot_seq (q_slots s (slot_index s pos)) =? u64 (pos + 1))
        then Some (set_cons s (if n =? 0 then C_idle else C_store tail got))
        else Some (set_cons s (C_copy tail available got))
      else Some (set_cons s (if n =? 0 then C_idle else C_store tail got))
  | C_copy tail available got =>
      let pos := u64 (tail + clen got) in
      Some (set_cons s (C_seq tail available (got ++ [slot_rec (q_slots s (slot_index s pos))])))
  | C_store tail got =>
      Some (set_cons (deliver s (u64 (tail + clen got)) got) (C_slots (length got)))
  | C_slots n =>
      match n with
      | O => Some (set_cons s C_rem_head)
      | S n' => Some (set_cons (set_sems s (q_items_sem s) (q_slots_sem s + 1) (q_drained s)) (C_slots n'))
      end
  | C_rem_head => Some (set_cons s (C_rem_tail (q_head s)))
  | C_rem_tail head => Some (set_cons s (if usub head (q_tail s) =? 0 then C_drain else C_idle))
  | C_drain => Some (set_cons (set_sems s (q_items_sem s) (q_slots_sem s) (q_drained s + 1)) C_idle)
  end.

(** One access of [mpsc_queue_close]. *)
Definition close_step (s : qstate) : option qstate :=
  match q_closer s with
  | K_idle | K_done => None
  | K_closed => Some (set_closer (set_closed s) K_items)
  | K_items => Some (set_closer (set_sems s (q_items_sem s + 1) (q_slots_sem s) (q_drained s))
                       (K_slots (Z.to_nat (q_cap s))))
  | K_slots n =>
      match n with
      | O => Some (set_closer s K_drain)
      | S n' => Some (set_closer (set_sems s (q_items_sem s) (q_slots_sem s + 1) (q_drained s)) (K_slots n'))
      end
  | K_drain => Some (set_closer (set_sems s (q_items_sem s) (q_slots_sem s) (q_drained s + 1)) K_done)
  end.

(** What can happen next: a producer, the consumer or the closer makes its next
    access, the weak compare-and-swap of a producer fails spuriously, a producer starts a call, the consumer starts one of its two calls, or
    the closing starts. *)
Inductive action :=
  | Prod (i : nat) | Weak (i : nat) | Cons (max_records : Z) | Close
  | StartPut (i : nat) (o : op) | StartWait | StartBatch | StartClose.

Definition exec (s : qstate) (a : action) : option qstate :=
  match a with
  | Prod i => p ← q_prods s !! i; prod_step s i p
  | Weak i =>
      match q_prods s !! i with
      | Some (P_signal o ret) => Some (log_missed (set_prod s i (P_ret o ret)))
      | _ => None
      end
  | Cons m => cons_step m s
  | Close => close_step s
  | StartPut i o =>
      match q_prods s !! i with Some P_idle => Some (set_prod s i (P_closed o)) | _ => None end
  | StartWait => match q_cons s with C_idle => Some (set_cons s C_head1) | _ => None end
  | StartBatch => match q_cons s with C_idle => Some (set_cons s C_batch_head) | _ => None end
  | StartClose => match q_closer s with K_idle => Some (set_closer s K_closed) | _ => None end
  end.

(** Runs of [n] steps. *)
Inductive steps : nat → qstate → qstate → Prop :=
  | steps_O s : steps O s s
  | steps_S n s s1 s2 a : steps n s s1 → exec s1 a = Some s2 → steps (S n) s s2.

(** A schedule; actions that are not enabled are skipped. *)
Definition run_schedule (s : qstate) (l : list action) : qstate :=
  foldl (λ s a, default s (exec s a)) s l.

End queue.

Arguments qstate : clear implicits.
Arguments ppc : clear implicits.
Arguments cpc : clear implicits.
Arguments op : clear implicits.
Arguments action : clear implicits.
Arguments mpsc_slot_t : clear implicits.

(** ** Ring positions *)

Lemma slot_index_mod {A} (s : qstate A) k pos :
  q_cap s = 2 ^ k → 0 <= k → slot_index s pos = pos mod q_cap s.
Proof.
  intros Hc Hk. unfold slot_index. rewrite Hc.
  replace (2 ^ k - 1) with (Z.ones k) by (rewrite Z.ones_equiv; lia). by rewrite Z.land_ones.
Qed.

(** Two positions of one window of the ring have different slots. *)
Lemma mod_window c lo a b :
  0 < c → lo <= a < lo + c → lo <= b < lo + c → a mod c = b mod c → a = b.
Proof.
  intros Hc Ha Hb H. pose proof (Z.div_mod a c). pose proof (Z.div_mod b c).
  assert (c * (a / c - b / c) = a - b) as E by lia.
  assert (a / c - b / c = 0) by nia. lia.
Qed.

(** ** The safety invariant *)

Section invariant.
Context {A : Type}.
Implicit Types (s : qstate A) (p : ppc A).

(** The claimed position a producer has not published yet. *)
Definition ppos p : option Z :=
  match p with
  | P_recheck _ pos | P_spin _ pos _ _ | P_tomb _ pos | P_write _ pos | P_publish _ pos _ => Some pos
  | _ => None
  end.

(** The position whose slot it is about to write or to publish. *)
Definition pwrites p : option Z :=
  match p with
  | P_tomb _ pos | P_write _ pos | P_publish _ pos _ => Some pos
  | _ => None
  end.

Definition published p : option (Z * option A) :=
  match p with P_publish _ pos c => Some (pos, c) | _ => None end.

Definition got_ok s (t : Z) (got : list (option A)) : Prop :=
  ∀ j c, got !! j = Some c → q_log s !! (t + Z.of_nat j) = Some c.

Definition cons_ok s : Prop :=
  match q_cons s with
  | C_tail1 h | C_tail2 h | C_batch_tail h | C_rem_tail h => q_tail s <= h <= q_head s
  | C_seq t av got =>
      t = q_tail s ∧ t + av <= q_head s ∧ clen got <= av ∧ got_ok s t got
  | C_copy t av got =>
      t = q_tail s ∧ t + av <= q_head s ∧ clen got < av ∧ got_ok s t got ∧
      is_Some (q_log s !! (t + clen got))
  | C_store t got => t = q_tail s ∧ t + clen got <= q_head s ∧ got_ok s t got
  | _ => True
  end.

Record inv (n : Z) s : Prop := {
  i_cap : ∃ k, 0 <= k <= 62 ∧ q_cap s = 2 ^ k;
  i_pos : 0 <= q_tail s ∧ q_tail s <= q_head s ∧ q_head s <= n;
  i_own i p pos : q_prods s !! i = Some p → ppos p = Some pos →
    q_tail s <= pos < q_head s ∧ q_log s !! pos = None;
  i_uniq i j p p' pos : q_prods s !! i = Some p → q_prods s !! j = Some p' →
    ppos p = Some pos → ppos p' = Some pos → i = j;
  i_room i p pos : q_prods s !! i = Some p → pwrites p = Some pos → pos < q_tail s + q_cap s;
  i_pub i p pos c : q_prods s !! i = Some p → published p = Some (pos, c) →
    slot_rec (q_slots s (pos mod q_cap s)) = c;
  i_log pos c : q_log s !! pos = Some c →
    0 <= pos < q_head s ∧ pos < q_tail s + q_cap s ∧
    (q_tail s <= pos → q_slots s (pos mod q_cap s) = Slot c (pos + 1));
  i_seq ix : 0 <= ix < q_cap s → slot_seq (q_slots s ix) = ix ∨
    ∃ q, is_Some (q_log s !! q) ∧ q mod q_cap s = ix ∧ slot_seq (q_slots s ix) = q + 1;
  i_out : clen (q_out s) = q_tail s ∧ ∀ j c, q_out s !! j = Some c → q_log s !! Z.of_nat j = Some c;
  i_cons : cons_ok s
}.

Lemma cap_pos n s : inv n s → 0 < q_cap s <= 2 ^ 62.
Proof.
  intros [[k [Hk ->]] _ _ _ _ _ _ _ _ _]. split; [lia|]. apply Z.pow_le_mono_r; lia.
Qed.

Lemma index_mod n s pos : inv n s → slot_index s pos = pos mod q_cap s.
Proof. intros [[k [Hk Hc]] _ _ _ _ _ _ _ _ _]. eapply slot_index_mod; [done|lia]. Qed.

Lemma pwrites_ppos p pos : pwrites p = Some pos → ppos p = Some pos.
Proof. by destruct p. Qed.
Lemma published_pwrites p pos c : published p = Some (pos, c) → pwrites p = Some pos.
Proof. destruct p; try done. by intros [= -> ->]. Qed.

Lemma inv_weaken n n' s : inv n s → n <= n' → inv n' s.
Proof. intros [] ?. constructor; try done. lia. Qed.

(** Changes the invariant does not read. *)
Lemma inv_sems n s a b c : inv n s → inv n (set_sems s a b c).
Proof. intros []. by constructor. Qed.
Lemma inv_parked n s b : inv n s → inv n (set_parked s b).
Proof. intros []. by constructor. Qed.
Lemma inv_closed n s : inv n s → inv n (set_closed s).
Proof. intros []. by constructor. Qed.
Lemma inv_closer n s k : inv n s → inv n (set_closer s k).
Proof. intros []. by constructor. Qed.
Lemma inv_return n s r ret : inv n s → inv n (log_return s r ret).
Proof. intros []. by constructor. Qed.
Lemma inv_abandon n s : inv n s → inv n (log_abandon s).
Proof. intros []. by constructor. Qed.
Lemma inv_missed n s : inv n s → inv n (log_missed s).
Proof. intros []. by constructor. Qed.
Lemma inv_set_cons n s c : inv n s → cons_ok (set_cons s c) → inv n (set_cons s c).
Proof. intros [] ?. by constructor. Qed.

(** A producer moves on without claiming or publishing. *)
Lemma inv_set_prod n s i p p' :
  inv n s → q_prods s !! i = Some p →
  (ppos p' = ppos p ∨ ppos p' = None) →
  (∀ pos, pwrites p' = Some pos → pos < q_tail s + q_cap s) →
  (∀ pos c, published p' = Some (pos, c) → slot_rec (q_slots s (pos mod q_cap s)) = c) →
  inv n (set_prod s i p').
Proof.
  intros [] Hi Hpos Hw Hpub.
  assert (∀ pos, ppos p' = Some pos → ppos p = Some pos) as Hp by (destruct Hpos; congruence).
  constructor; cbn; try done.
  - intros j q pos. rewrite list_lookup_insert. case_decide as Hd; [|eauto].
    intros [= <-] Hq. eauto.
  - intros j k q q' pos. rewrite !list_lookup_insert.
    case_decide as H1; case_decide as H2; intros Ha Hb Hq Hq'; simplify_eq.
    + destruct H1, H2. congruence.
    + destruct H1. subst. eauto.
    + destruct H2. subst. eauto.
    + eauto.
  - intros j q pos. rewrite list_lookup_insert. case_decide as Hd; [|eauto].
    intros [= <-] Hq. eauto.
  - intros j q pos c. rewrite list_lookup_insert. case_decide as Hd; [|eauto].
    intros [= <-] Hq. eauto.
Qed.

(** Claiming a position. *)
Lemma inv_claim n s i o :
  inv n s → n < 2 ^ 62 → q_prods s !! i = Some (P_claim o) →
  inv (n + 1) (set_prod (set_head s (u64 (q_head s + 1))) i (P_recheck o (q_head s))).
Proof.
  intros Hinv Hn Hi. pose proof Hinv as [Hcap [Ht0 [Hth Hhn]] Hown Huniq Hroom Hpub Hlog Hseq Hout Hcons].
  rewrite u64_id by (split; lia).
  constructor; cbn; try done.
  - lia.
  - intros j q pos. rewrite list_lookup_insert. case_decide as Hd.
    + intros [= <-] [= <-]. split; [lia|]. destruct (q_log s !! q_head s) eqn:E; [|done].
      apply Hlog in E. lia.
    + intros H1 H2. destruct (Hown j q pos H1 H2). split; [lia|done].
  - intros j k q q' pos. rewrite !list_lookup_insert.
    case_decide as H1; case_decide as H2; intros Ha Hb Hq Hq'; simplify_eq/=; try (destruct H1, H2; congruence).
    + destruct (Hown k q' (q_head s) Hb Hq'). lia.
    + destruct (Hown j q (q_head s) Ha Hq). lia.
    + eauto.
  - intros j q pos. rewrite list_lookup_insert. case_decide as Hd; [|eauto]. by intros [= <-].
  - intros j q pos c. rewrite list_lookup_insert. case_decide as Hd; [|eauto]. by intros [= <-].
  - intros pos c H. destruct (Hlog pos c H) as (H1 & H2). split; [lia|done].
  - unfold cons_ok in *. cbn. destruct (q_cons s); try done; try lia.
    + destruct Hcons as (?&?&?&?). split_and!; [done|lia|done|done].
    + destruct Hcons as (?&?&?&?&?). split_and!; [done|lia|done|done|done].
    + destruct Hcons as (?&?&?). split_and!; [done|lia|done].
Qed.

(** Writing the record or the tombstone into the claimed slot. *)
Lemma inv_write n s i p o pos c :
  inv n s → q_prods s !! i = Some p → pwrites p = Some pos →
  inv n (set_prod (set_slot s (pos mod q_cap s) (Slot c (slot_seq (q_slots s (pos mod q_cap s))))) i
           (P_publish o pos c)).
Proof.
  intros Hinv Hi Hw. pose proof (cap_pos n s Hinv) as Hc0.
  pose proof Hinv as [Hcap Hpos Hown Huniq Hroom Hpub Hlog Hseq Hout Hcons].
  pose proof (pwrites_ppos _ _ Hw) as Hp. destruct (Hown i p pos Hi Hp) as [Hrange Hnone].
  pose proof (Hroom i p pos Hi Hw) as Hr.
  assert (∀ q, q_tail s <= q → q < q_tail s + q_cap s → q ≠ pos →
    (q mod q_cap s =? pos mod q_cap s) = false) as Hdiff.
  { intros q H1 H2 H3. apply Z.eqb_neq. intros E. apply H3.
    eapply (mod_window (q_cap s) (q_tail s)); [lia|lia|lia|done]. }
  constructor; cbn; try done.
  - intros j q pos'. rewrite list_lookup_insert. case_decide as Hd; [|eauto]. intros [= <-] [= <-]. eauto.
  - intros j k q q' pos'. rewrite !list_lookup_insert.
    case_decide as H1; case_decide as H2; intros Ha Hb Hq Hq'; simplify_eq/=; try (destruct H1, H2; congruence).
    + destruct H1. subst. eauto.
    + destruct H2. subst. eauto.
    + eauto.
  - intros j q pos'. rewrite list_lookup_insert. case_decide as Hd; [|eauto]. intros [= <-] [= <-]. eauto.
  - intros j q pos' c'. rewrite list_lookup_insert. case_decide as Hd.
    + intros [= <-] [= <- <-]. by rewrite Z.eqb_refl.
    + intros H1 H2. assert (pos' ≠ pos).
      { intros ->. apply published_pwrites, pwrites_ppos in H2.
        assert (i = j) as -> by eauto. apply Hd. split; [done|]. by eapply lookup_lt_Some. }
      rewrite Hdiff; [eauto|..]; [|by eapply Hroom, published_pwrites|done].
      destruct (Hown j q pos' H1) as [? _]; [by eapply pwrites_ppos, published_pwrites|lia].
  - intros pos' c' H. destruct (Hlog pos' c' H) as (H1 & H2 & H3). split_and!; [lia|lia|lia|].
    intros Htl. rewrite Hdiff; [auto|lia|lia|]. intros ->. congruence.
  - intros ix Hix. destruct (Z.eqb_spec ix (pos mod q_cap s)) as [->|]; [apply (Hseq _ Hix)|auto].
Qed.

Lemma log_insert_keep s pos c x y :
  q_log s !! pos = None → q_log s !! x = Some y → <[pos := c]> (q_log s) !! x = Some y.
Proof. intros H1 H2. rewrite lookup_insert_ne; [done|]. intros ->. congruence. Qed.

(** Publishing. *)
Lemma inv_publish n s i o pos c p' :
  inv n s → q_prods s !! i = Some (P_publish o pos c) → ppos p' = None →
  inv n (set_prod (log_publish (set_slot s (pos mod q_cap s)
           (Slot (slot_rec (q_slots s (pos mod q_cap s))) (pos + 1))) pos c) i p').
Proof.
  intros Hinv Hi Hp'. pose proof (cap_pos n s Hinv) as Hc0.
  pose proof Hinv as [Hcap Hpos Hown Huniq Hroom Hpub Hlog Hseq Hout Hcons].
  destruct (Hown i _ pos Hi eq_refl) as [Hrange Hnone].
  pose proof (Hroom i _ pos Hi eq_refl) as Hr. pose proof (Hpub i _ pos c Hi eq_refl) as Hrec.
  assert (∀ q, q_tail s <= q → q < q_tail s + q_cap s → q ≠ pos →
    (q mod q_cap s =? pos mod q_cap s) = false) as Hdiff.
  { intros q H1 H2 H3. apply Z.eqb_neq. intros E. apply H3.
    eapply (mod_window (q_cap s) (q_tail s)); [lia|lia|lia|done]. }
  assert (∀ j q pos', <[i := p']> (q_prods s) !! j = Some q → ppos q = Some pos' →
    q_prods s !! j = Some q ∧ pos' ≠ pos) as Hother.
  { intros j q pos'. rewrite list_lookup_insert. case_decide as Hd; [intros [= <-]; congruence|].
    intros H1 H2. split; [done|]. intros ->. apply Hd.
    assert (i = j) as -> by eauto. split; [done|]. by eapply lookup_lt_Some. }
  constructor; cbn; try done.
  - intros j q pos' H1 H2. destruct (Hother j q pos' H1 H2) as [H3 H4].
    rewrite lookup_insert_ne by done. eauto.
  - intros j k q q' pos' H1 H2 H3 H4. destruct (Hother j q pos' H1 H3), (Hother k q' pos' H2 H4). eauto.
  - intros j q pos' H1 H2. destruct (Hother j q pos' H1 (pwrites_ppos _ _ H2)). eauto.
  - intros j q pos' c' H1 H2. pose proof (published_pwrites _ _ _ H2) as H3.
    destruct (Hother j q pos' H1 (pwrites_ppos _ _ H3)) as [H4 H5].
    rewrite Hdiff; [eauto|..]; [|by eapply Hroom|done].
    destruct (Hown j q pos' H4) as [? _]; [by apply pwrites_ppos|lia].
  - intros pos' c'. rewrite lookup_insert. case_decide as Hd.
    + intros [= <-]. subst pos'. split_and!; [lia|lia|done|]. intros _. by rewrite Z.eqb_refl, Hrec.
    + intros H. destruct (Hlog pos' c' H) as (H1 & H2 & H3). split_and!; [lia|lia|done|].
      intros Htl. rewrite Hdiff by (done || lia). auto.
  - intros ix Hix. destruct (Z.eqb_spec ix (pos mod q_cap s)) as [->|Hne]; simpl.
    + right. exists pos. rewrite lookup_insert_eq. eauto.
    + destruct (Hseq ix Hix) as [H|(q & [y Hq] & Hm & Hs)]; [by left|right].
      exists q. split_and!; [|done|done]. exists y. by apply log_insert_keep.
  - destruct Hout as [H1 H2]. split; [done|]. intros j y Hj. apply log_insert_keep; auto.
  - assert (∀ t got, got_ok s t got → ∀ j y, got !! j = Some y →
      <[pos := c]> (q_log s) !! (t + Z.of_nat j) = Some y) as Hg.
    { intros t got Hok j y Hj. apply log_insert_keep; auto. }
    unfold cons_ok, got_ok in *. cbn. destruct (q_cons s); try done.
    + destruct Hcons as (?&?&?&?). split_and!; eauto.
    + destruct Hcons as (?&?&?&?&[y Hy]). split_and!; eauto. exists y. by apply log_insert_keep.
    + destruct Hcons as (?&?&?). split_and!; eauto.
Qed.

(** The consumer advances its position. *)
Lemma inv_deliver n s t got c :
  inv n s → n < 2 ^ 62 → q_cons s = C_store t got →
  cons_ok (set_cons (deliver s (t + clen got) got) c) →
  inv n (set_cons (deliver s (t + clen got) got) c).
Proof.
  intros Hinv Hn Hc Hc'.
  pose proof Hinv as [Hcap [H0 [Hth Hhn]] Hown Huniq Hroom Hpub Hlog Hseq [Hout1 Hout2] Hcons].
  unfold cons_ok in Hcons. rewrite Hc in Hcons. destruct Hcons as (-> & Hle & Hgot).
  pose proof (clen_nonneg got).
  constructor; cbn; try done.
  - lia.
  - intros i p pos Hi Hp. destruct (Hown i p pos Hi Hp) as [Hr Hnone]. split; [|done].
    split; [|lia]. destruct (Z.lt_ge_cases pos (q_tail s + clen got)); [|done].
    destruct (lookup_lt_is_Some_2 got (Z.to_nat (pos - q_tail s))) as [y Hy]; [unfold clen in *; lia|].
    apply Hgot in Hy. replace (q_tail s + Z.of_nat (Z.to_nat (pos - q_tail s))) with pos in Hy by lia.
    congruence.
  - intros i p pos Hi Hw. pose proof (Hroom i p pos Hi Hw). lia.
  - intros pos y H1. destruct (Hlog pos y H1) as (Ha & Hb & Hd). split_and!; [lia|lia|lia|].
    intros. apply Hd. lia.
  - split; [rewrite clen_app; lia|]. intros j y. rewrite lookup_app_Some.
    intros [Hj|[Hlt Hj]]; [auto|]. apply Hgot in Hj. rewrite <- Hj. f_equal. unfold clen in *. lia.
Qed.

(** A published counter means a logged position. *)
Lemma seq_logged n s pos :
  inv n s → n < 2 ^ 62 → 0 <= pos → slot_seq (q_slots s (pos mod q_cap s)) = pos + 1 → is_Some (q_log s !! pos).
Proof.
  intros Hinv Hn Hpos H. pose proof (cap_pos n s Hinv). destruct Hinv as [_ _ _ _ _ _ _ Hseq _ _].
  destruct (Hseq (pos mod q_cap s)) as [E|(q & Hq & _ & E)].
  - apply Z.mod_pos_bound. lia.
  - pose proof (Z.mod_le pos (q_cap s)). lia.
  - by assert (q = pos) as -> by lia.
Qed.

Lemma inv_prod_step n s i p s' :
  inv n s → n < 2 ^ 62 → q_prods s !! i = Some p → prod_step s i p = Some s' → inv (n + 1) s'.
Proof.
  intros Hinv Hn Hi Hstep. pose proof (cap_pos n s Hinv) as Hc0.
  pose proof Hinv as [_ [H0 [Hth Hhn]] Hown _ Hroom Hpub _ _ _ _].
  assert (∀ s'', inv n s'' → inv (n + 1) s'') as Hw by (intros; eapply inv_weaken; [done|lia]).
  destruct p; cbn in Hstep; rewrite ?(index_mod n s) in Hstep by done; simplify_eq.
  - (* P_closed *) apply Hw, (inv_set_prod _ _ _ _ _ Hinv Hi); destruct (q_closed s); auto; done.
  - (* P_tail *) by apply Hw, (inv_set_prod _ _ _ _ _ Hinv Hi); auto.
  - (* P_head *) apply Hw, (inv_set_prod _ _ _ _ _ Hinv Hi); case_match; auto; done.
  - (* P_claim *) by apply inv_claim.
  - (* P_recheck *) destruct (Hown i _ pos Hi eq_refl) as [Hr _].
    apply Hw, (inv_set_prod _ _ _ _ _ Hinv Hi).
    + left. repeat case_match; done.
    + unfold usub. rewrite u64_id by (split; lia). rewrite !Z.geb_leb.
      intros pos'. zcases; intros [= <-]; lia.
    + intros pos' c. repeat case_match; done.
  - (* P_spin *) destruct (Hown i _ pos Hi eq_refl) as [Hr _].
    repeat case_match; simplify_eq.
    + apply Hw, (inv_set_prod _ _ _ _ _ Hinv Hi); [by left| |done]. intros pos' [= <-].
      unfold usub in *. match goal with H : (_ >? _) = true |- _ => rewrite Z.gtb_lt in H end.
      destruct (Z.lt_ge_cases pos (q_cap s)); [lia|]. rewrite u64_id in *; [lia|split; lia].
    + by apply Hw, (inv_set_prod _ _ _ _ _ Hinv Hi); auto.
    + by apply Hw, inv_abandon, (inv_set_prod _ _ _ _ _ Hinv Hi); auto.
    + by apply Hw, (inv_set_prod _ _ _ _ _ Hinv Hi); auto.
  - (* P_tomb *) apply Hw. eapply inv_write; eauto.
  - (* P_write *) apply Hw. eapply inv_write; eauto.
  - (* P_publish *) destruct (Hown i _ pos Hi eq_refl) as [Hr _].
    rewrite (u64_id (pos + 1)) by (split; lia). apply Hw. eapply inv_publish; eauto.
  - (* P_signal *) destruct (q_parked s).
    + by apply Hw, (inv_set_prod _ (set_parked s false) _ (P_signal o ret)); auto using inv_parked.
    + by apply Hw, (inv_set_prod _ _ _ _ _ Hinv Hi); auto.
  - (* P_post *)
    by apply Hw, (inv_set_prod _ (set_sems s _ _ _) _ (P_post o ret)); auto using inv_sems.
  - (* P_ret *) case_match; [by apply Hw, (inv_set_prod _ _ _ _ _ Hinv Hi); auto|].
    by apply Hw, inv_return, (inv_set_prod _ _ _ _ _ Hinv Hi); auto.
  - (* P_put_closed *) case_match; [|by apply Hw, (inv_set_prod _ _ _ _ _ Hinv Hi); auto].
    by apply Hw, inv_return, (inv_set_prod _ _ _ _ _ Hinv Hi); auto.
  - (* P_put_wait *) case_match; [|done]. simplify_eq.
    by apply Hw, (inv_set_prod _ (set_sems s _ _ _) _ (P_put_wait o)); auto using inv_sems.
Qed.

Lemma inv_cons_step n s m s' :
  inv n s → n < 2 ^ 62 → cons_step m s = Some s' → inv n s'.
Proof.
  intros Hinv Hn Hstep. pose proof (cap_pos n s Hinv) as Hc0.
  pose proof Hinv as [_ [H0 [Hth Hhn]] _ _ _ _ Hlog _ _ Hcons]. unfold cons_ok in Hcons.
  unfold cons_step in Hstep. destruct (q_cons s) eqn:Hc; simplify_eq;
    try (by apply inv_set_cons; [auto using inv_parked|]; cbn; repeat case_match; cbn; auto; lia).
  - (* C_sem *) case_match; simplify_eq. apply inv_set_cons; [by apply inv_sems|done].
  - (* C_batch_tail *) apply inv_set_cons; [done|]. unfold usub. rewrite u64_id by (split; lia).
    unfold cons_ok. cbn. destruct (Z.eqb_spec (head - q_tail s) 0); cbn; [done|]. rewrite clen_nil.
    unfold got_ok. split_and!; [done|lia|lia|done].
  - (* C_seq *) destruct Hcons as (-> & Hav & Hle & Hgot). pose proof (clen_nonneg got).
    assert (cons_ok (set_cons s (if clen got =? 0 then C_idle else C_store (q_tail s) got))) as Hstop.
    { unfold cons_ok. cbn. destruct (clen got =? 0); cbn; [done|]. split_and!; [done|lia|done]. }
    destruct ((clen got <? available) && (clen got <? m)) eqn:E; [|simplify_eq; by apply inv_set_cons].
    apply andb_true_iff in E as [E%Z.ltb_lt _].
    rewrite (u64_id (q_tail s + clen got)) in Hstep by (split; lia). rewrite (index_mod n s) in Hstep by done.
    rewrite (u64_id (_ + 1)) in Hstep by (split; lia).
    destruct (negb _) eqn:E2; simplify_eq; [by apply inv_set_cons|].
    apply negb_false_iff, Z.eqb_eq in E2. apply inv_set_cons; [done|]. unfold cons_ok. cbn.
    split_and!; [done|lia|lia|done|]. apply (seq_logged n); [done|done|lia|done].
  - (* C_copy *) destruct Hcons as (-> & Hav & Hle & Hgot & [y Hy]). pose proof (clen_nonneg got).
    apply inv_set_cons; [done|]. rewrite (u64_id (_ + clen got)) by (split; lia).
    rewrite (index_mod n s) by done. unfold cons_ok, got_ok. cbn.
    rewrite clen_app. split_and!; [done|lia|unfold clen at 2; simpl; lia|].
    intros j c. rewrite lookup_app_Some. intros [Hj|[Hlt Hj]]; [by apply Hgot|].
    destruct (j - length got)%nat eqn:Ej; [|done]. simpl in Hj. injection Hj as <-.
    replace (Z.of_nat j) with (clen got) by (unfold clen; lia). rewrite Hy.
    destruct (Hlog _ _ Hy) as (_ & _ & Hs). by rewrite Hs by lia.
  - (* C_store *) pose proof (clen_nonneg got). destruct Hcons as (-> & Hle & Hgot).
    rewrite u64_id by (split; lia). by apply (inv_deliver n s (q_tail s)).
  - (* C_slots *) destruct n0; simplify_eq; apply inv_set_cons; auto using inv_sems; done.
  - (* C_drain *) apply inv_set_cons; [by apply inv_sems|done].
Qed.

Lemma inv_exec n s a s' : inv n s → n < 2 ^ 62 → exec s a = Some s' → inv (n + 1) s'.
Proof.
  intros Hinv Hn Hexec.
  assert (∀ s'', inv n s'' → inv (n + 1) s'') as Hw by (intros; eapply inv_weaken; [done|lia]).
  destruct a; cbn in Hexec.
  - apply bind_Some in Hexec as (p & Hi & Hstep). by eapply inv_prod_step.
  - repeat case_match; simplify_eq. apply Hw, inv_missed. by eapply inv_set_prod; eauto.
  - by apply Hw, (inv_cons_step _ s max_records).
  - unfold close_step in Hexec. apply Hw. repeat case_match; simplify_eq;
      auto using inv_closer, inv_closed, inv_sems.
  - repeat case_match; simplify_eq. apply Hw. by eapply inv_set_prod; eauto.
  - repeat case_match; simplify_eq. apply Hw, inv_set_cons; done.
  - repeat case_match; simplify_eq. apply Hw, inv_set_cons; done.
  - repeat case_match; simplify_eq. apply Hw. auto using inv_closer.
Qed.

Lemma inv_init k (m : nat) : 0 <= k <= 62 → inv 0 (q_init (A := A) (2 ^ k) m).
Proof.
  intros Hk. assert (∀ i (p : ppc A), replicate m P_idle !! i = Some p → p = P_idle) as Hidle.
  { intros i p [-> _]%lookup_replicate_1. done. }
  constructor; cbn; try done.
  - eauto.
  - intros i p pos ->%Hidle. done.
  - intros i j p p' pos ->%Hidle. done.
  - intros i p pos ->%Hidle. done.
  - intros i p pos c ->%Hidle. done.
  - auto.
Qed.

Lemma inv_steps n k m (s : qstate A) :
  0 <= k <= 62 → steps n (q_init (2 ^ k) m) s → Z.of_nat n <= 2 ^ 62 → inv (Z.of_nat n) s.
Proof.
  intros Hk H Hn. remember (q_init (2 ^ k) m) as s0 eqn:E. induction H as [s|n s s1 s2 a H IH Hex].
  - subst. by apply inv_init.
  - rewrite Nat2Z.inj_succ, <- Z.add_1_r. eapply inv_exec; [apply IH; [done|lia]|lia|done].
Qed.

(** ** Conservation: what is published is what was accepted *)

(** The records among the published contents. *)
Definition log_records s : list A := omap snd (map_to_list (q_log s)).

Definition accepted_ret (x : A * Z) : option A := if x.2 =? 0 then Some x.1 else None.

(** A call that has published its record and has not returned yet. *)
Definition inflight p : option A :=
  match p with
  | P_signal o ret | P_post o ret | P_ret o ret => accepted_ret (op_rec o, ret)
  | _ => None
  end.

Definition pub_ok p : Prop :=
  match p with P_publish o _ c => c = Some (op_rec o) ∨ c = None | _ => True end.

Record inv2 s : Prop := {
  j_pub i p : q_prods s !! i = Some p → pub_ok p;
  j_perm : log_records s ≡ₚ omap accepted_ret (q_rets s) ++ omap inflight (q_prods s);
  j_all pos : q_abandoned s = false → 0 <= pos < q_head s →
    is_Some (q_log s !! pos) ∨ ∃ i p, q_prods s !! i = Some p ∧ ppos p = Some pos
}.

Lemma omap_insert {X Y} (f : X → option Y) l i x y :
  l !! i = Some x → omap f (<[i := y]> l) ++ option_list (f x) ≡ₚ omap f l ++ option_list (f y).
Proof.
  intros H. rewrite <- (take_drop_middle l i x H) at 2.
  rewrite insert_take_drop by (by eapply lookup_lt_Some). rewrite !omap_app. simpl.
  destruct (f x), (f y); simpl; rewrite ?app_nil_r; solve_Permutation.
Qed.

Lemma omap_insert_same {X Y} (f : X → option Y) l i x y :
  l !! i = Some x → f y = f x → omap f (<[i := y]> l) ≡ₚ omap f l.
Proof.
  intros H Hf. pose proof (omap_insert f l i x y H) as Hp. rewrite Hf in Hp.
  by apply Permutation_app_inv_r in Hp.
Qed.

(** A step of producer [i] that publishes, returns and abandons nothing. *)
Lemma inv2_set_prod s i p p' :
  inv2 s → q_prods s !! i = Some p → pub_ok p' → inflight p' = inflight p →
  (ppos p' = ppos p ∨ q_abandoned s = true) → inv2 (set_prod s i p').
Proof.
  intros [Hpub Hperm Hall] Hi Hok Hin Hpos. constructor; cbn.
  - intros j q. rewrite list_lookup_insert. case_decide; [by intros [= <-]|eauto].
  - rewrite (omap_insert_same _ _ _ _ _ Hi Hin). done.
  - intros pos Ha Hr. destruct Hpos as [Hpos|]; [|congruence].
    destruct (Hall pos Ha Hr) as [?|(j & q & Hj & Hq)]; [by left|right].
    destruct (decide (j = i)) as [->|].
    + exists i, p'. simplify_eq. rewrite list_lookup_insert_eq by (by eapply lookup_lt_Some). by rewrite Hpos.
    + exists j, q. by rewrite list_lookup_insert_ne.
Qed.

(** Changes it does not read. *)
Lemma inv2_ext s s' :
  q_prods s' = q_prods s → q_log s' = q_log s → q_rets s' = q_rets s → q_head s' = q_head s →
  (q_abandoned s' = false → q_abandoned s = false) → inv2 s → inv2 s'.
Proof.
  intros H1 H2 H3 H4 H5 []. constructor; unfold log_records; rewrite ?H1, ?H2, ?H3, ?H4; auto.
Qed.

Lemma inv2_return s i p o ret :
  inv2 s → q_prods s !! i = Some p → inflight p = accepted_ret (op_rec o, ret) → ppos p = None →
  inv2 (log_return (set_prod s i P_idle) (op_rec o) ret).
Proof.
  intros [Hpub Hperm Hall] Hi Hin Hpos. constructor; cbn.
  - intros j q. rewrite list_lookup_insert. case_decide; [by intros [= <-]|eauto].
  - unfold log_records in *. cbn. rewrite Hperm, omap_app.
    pose proof (omap_insert inflight _ _ _ P_idle Hi) as Hp. simpl in Hp. rewrite app_nil_r, Hin in Hp.
    rewrite <- Hp, <- app_assoc. f_equiv. cbn.
    destruct (accepted_ret (op_rec o, ret)); simpl; solve_Permutation.
  - intros pos Ha Hr. destruct (Hall pos Ha Hr) as [?|(j & q & Hj & Hq)]; [by left|right].
    exists j, q. rewrite list_lookup_insert_ne; [done|]. intros ->. congruence.
Qed.

Lemma inv2_prod_step n s i p s' :
  inv n s → n < 2 ^ 62 → inv2 s → q_prods s !! i = Some p → prod_step s i p = Some s' → inv2 s'.
Proof.
  intros Hinv Hn H2 Hi Hstep. pose proof Hinv as [_ [H0 [Hth Hhn]] Hown _ _ _ _ _ _ _].
  destruct p; cbn in Hstep; simplify_eq.
  - (* P_closed *) by apply (inv2_set_prod _ _ _ _ H2 Hi); destruct (q_closed s); auto.
  - (* P_tail *) by apply (inv2_set_prod _ _ _ _ H2 Hi); auto.
  - (* P_head *) by apply (inv2_set_prod _ _ _ _ H2 Hi); case_match; auto.
  - (* P_claim *) destruct H2 as [Hpub Hperm Hall]. rewrite u64_id by (split; lia). constructor; cbn.
    + intros j q. rewrite list_lookup_insert. case_decide; [by intros [= <-]|eauto].
    + by rewrite (omap_insert_same _ _ _ _ (P_recheck o (q_head s)) Hi).
    + intros pos Ha Hr. destruct (decide (pos = q_head s)) as [->|].
      * right. exists i, (P_recheck o (q_head s)). by rewrite list_lookup_insert_eq by (by eapply lookup_lt_Some).
      * destruct (Hall pos Ha ltac:(lia)) as [?|(j & q & Hj & Hq)]; [by left|right].
        exists j, q. rewrite list_lookup_insert_ne; [done|]. intros ->. by simplify_eq.
  - (* P_recheck *) by apply (inv2_set_prod _ _ _ _ H2 Hi); repeat case_match; auto.
  - (* P_spin *) repeat case_match; simplify_eq; try (by apply (inv2_set_prod _ _ _ _ H2 Hi); auto).
    assert (inv2 (log_abandon s)) as Hab by (by eapply (inv2_ext s); [..|done]).
    apply (inv2_ext (set_prod (log_abandon s) i (P_ret o (-1)))); [done..|].
    by apply (inv2_set_prod (log_abandon s) _ _ _ Hab Hi); auto.
  - (* P_tomb *) apply (inv2_ext (set_prod s i (P_publish o pos None))); [done..|].
    by apply (inv2_set_prod _ _ _ _ H2 Hi); cbn; auto.
  - (* P_write *) apply (inv2_ext (set_prod s i (P_publish o pos (Some (op_rec o))))); [done..|].
    by apply (inv2_set_prod _ _ _ _ H2 Hi); cbn; auto.
  - (* P_publish *) destruct (Hown i _ pos Hi eq_refl) as [Hr Hnone].
    destruct H2 as [Hpub Hperm Hall]. constructor; cbn.
    + intros j q. rewrite list_lookup_insert. case_decide; [by intros [= <-]|eauto].
    + unfold log_records in *. cbn. rewrite map_to_list_insert by done. cbn.
      pose proof (omap_insert inflight _ _ _ (P_signal o (match c with Some _ => 0 | None => -1 end)) Hi) as Hp.
      cbn in Hp. rewrite app_nil_r in Hp. rewrite Hp.
      destruct (Hpub i _ Hi) as [->| ->]; cbn; rewrite Hperm; [|by rewrite app_nil_r].
      rewrite app_assoc. apply Permutation_cons_append.
    + intros pos' Ha Hr'. rewrite lookup_insert. case_decide; [by left; eauto|].
      destruct (Hall pos' Ha Hr') as [?|(j & q & Hj & Hq)]; [by left|right].
      exists j, q. rewrite list_lookup_insert_ne; [done|]. intros ->. by simplify_eq/=.
  - (* P_signal *) destruct (q_parked s); [|by apply (inv2_set_prod _ _ _ _ H2 Hi); auto].
    apply (inv2_ext (set_prod s i (P_post o ret))); [done..|]. by apply (inv2_set_prod _ _ _ _ H2 Hi); auto.
  - (* P_post *) apply (inv2_ext (set_prod s i (P_ret o ret))); [done..|].
    by apply (inv2_set_prod _ _ _ _ H2 Hi); auto.
  - (* P_ret *) destruct (negb (ret =? 0) && op_blocking o) eqn:E; [|by eapply inv2_return].
    apply andb_true_iff in E as [E _]. apply (inv2_set_prod _ _ _ _ H2 Hi); [done| |by left].
    cbn. unfold accepted_ret. cbn. by destruct (ret =? 0).
  - (* P_put_closed *) case_match; [by eapply inv2_return|by apply (inv2_set_prod _ _ _ _ H2 Hi); auto].
  - (* P_put_wait *) case_match; [|done]. simplify_eq.
    apply (inv2_ext (set_prod s i (P_closed o))); [done..|]. by apply (inv2_set_prod _ _ _ _ H2 Hi); auto.
Qed.

Lemma cons_step_frame m s s' :
  cons_step m s = Some s' →
  q_prods s' = q_prods s ∧ q_log s' = q_log s ∧ q_rets s' = q_rets s ∧ q_head s' = q_head s ∧
  q_abandoned s' = q_abandoned s ∧ q_missed s' = q_missed s.
Proof. unfold cons_step. intros H. repeat case_match; simplify_eq; done. Qed.

Lemma close_step_frame s s' :
  close_step s = Some s' →
  q_prods s' = q_prods s ∧ q_log s' = q_log s ∧ q_rets s' = q_rets s ∧ q_head s' = q_head s ∧
  q_abandoned s' = q_abandoned s ∧ q_cons s' = q_cons s ∧ q_tail s' = q_tail s ∧ q_parked s' = q_parked s ∧
  q_items_sem s <= q_items_sem s' ∧ q_missed s' = q_missed s.
Proof. unfold close_step. intros H. repeat case_match; simplify_eq; cbn; split_and!; done || lia. Qed.

Lemma inv2_exec n s a s' : inv n s → n < 2 ^ 62 → inv2 s → exec s a = Some s' → inv2 s'.
Proof.
  intros Hinv Hn H2 Hexec. destruct a; cbn in Hexec.
  - apply bind_Some in Hexec as (p & Hi & Hstep). by eapply inv2_prod_step.
  - repeat case_match; simplify_eq. by eapply (inv2_ext (set_prod s i (P_ret o ret))), inv2_set_prod; eauto.
  - destruct (cons_step_frame _ _ _ Hexec) as (?&?&?&?&E&_). apply (inv2_ext s); congruence.
  - destruct (close_step_frame _ _ Hexec) as (?&?&?&?&E&_). apply (inv2_ext s); congruence.
  - repeat case_match; simplify_eq. by eapply inv2_set_prod; eauto.
  - repeat case_match; simplify_eq. by eapply (inv2_ext s).
  - repeat case_match; simplify_eq. by eapply (inv2_ext s).
  - repeat case_match; simplify_eq. by eapply (inv2_ext s).
Qed.

Lemma inv2_init k (m : nat) : inv2 (q_init (A := A) (2 ^ k) m).
Proof.
  constructor; cbn.
  - intros i p [-> _]%lookup_replicate_1. done.
  - unfold log_records. cbn. rewrite map_to_list_empty. induction m as [|m IH]; [done|]. exact IH.
  - intros. lia.
Qed.

Lemma inv2_steps n k m s :
  0 <= k <= 62 → steps n (q_init (2 ^ k) m) s → Z.of_nat n <= 2 ^ 62 → inv2 s.
Proof.
  intros Hk H. remember (q_init (2 ^ k) m) as s0 eqn:E.
  induction H as [s|n s s1 s2 a H IH Hex]; intros Hn; subst; [apply inv2_init|].
  eapply inv2_exec; [eapply inv_steps; [done|done|lia]|lia|apply IH; [done|lia]|done].
Qed.

(** A list as the map from its positions. *)
Definition by_position (l : list (option A)) : gmap Z (option A) := list_to_map (zip (seqZ 0 (clen l)) l).

Lemma by_position_nodup (l : list (option A)) : NoDup (zip (seqZ 0 (clen l)) l).*1.
Proof. rewrite fst_zip by (rewrite length_seqZ; unfold clen; lia). apply NoDup_seqZ. Qed.

Lemma lookup_by_position (l : list (option A)) pos c :
  by_position l !! pos = Some c ↔ 0 <= pos ∧ l !! Z.to_nat pos = Some c.
Proof.
  unfold by_position. rewrite <- elem_of_list_to_map by apply by_position_nodup. rewrite list_elem_of_lookup. split.
  - intros (i & H). apply lookup_zip_Some in H as [H1 H2]. apply lookup_seqZ in H1 as [-> _].
    split; [lia|]. by rewrite Z.add_0_l, Nat2Z.id.
  - intros [Hp H]. exists (Z.to_nat pos). apply lookup_zip_Some. split; [|done]. apply lookup_lt_Some in H.
    rewrite lookup_seqZ_lt by (unfold clen; lia). f_equal. lia.
Qed.

Lemma by_position_records (l : list (option A)) : omap snd (map_to_list (by_position l)) ≡ₚ omap id l.
Proof.
  unfold by_position. rewrite map_to_list_to_map by apply by_position_nodup.
  assert (length (seqZ 0 (clen l)) = length l) as Hlen by (rewrite length_seqZ; unfold clen; lia).
  revert Hlen. generalize (seqZ 0 (clen l)) as zs.
  induction l as [|[x|] l IH]; intros [|z zs] [=]; cbn; [done|by rewrite IH|by rewrite IH].
Qed.

(** When everything claimed is published and consumed, the deliveries are the
    published records. *)
Lemma published_all (L : gmap Z (option A)) (out : list (option A)) :
  (∀ j c, out !! j = Some c → L !! Z.of_nat j = Some c) →
  (∀ pos, is_Some (L !! pos) → 0 <= pos < clen out) →
  omap snd (map_to_list L) ≡ₚ omap id out.
Proof.
  intros Hout Hdom. rewrite <- by_position_records. assert (L = by_position out) as ->; [|done].
  apply map_eq. intros pos. apply option_eq. intros c. rewrite lookup_by_position. split.
  - intros Hc. destruct (Hdom pos ltac:(eauto)) as [Hp0 Hp1]. split; [done|].
    destruct (lookup_lt_is_Some_2 out (Z.to_nat pos)) as [c' Hc']; [unfold clen in *; lia|].
    pose proof (Hout _ _ Hc') as Hl. rewrite Z2Nat.id in Hl by lia. congruence.
  - intros [Hp Hc]. apply Hout in Hc. by rewrite Z2Nat.id in Hc.
Qed.

Lemma delivered_all s :
  (∀ j c, q_out s !! j = Some c → q_log s !! Z.of_nat j = Some c) →
  (∀ pos, is_Some (q_log s !! pos) → 0 <= pos < clen (q_out s)) →
  log_records s ≡ₚ omap id (q_out s).
Proof. apply published_all. Qed.

(** Published records at the first [m] positions are among the first [m] handed out. *)
Lemma published_prefix (M : gmap Z (option A)) (out : list (option A)) (m : nat) :
  (∀ pos c, M !! pos = Some c → 0 <= pos < Z.of_nat m ∧ out !! Z.to_nat pos = Some c) →
  omap snd (map_to_list M) ⊆+ omap id (take m out).
Proof.
  intros H. rewrite <- by_position_records.
  assert (M ⊆ by_position (take m out)) as Hsub.
  { apply map_subseteq_spec. intros pos c Hc. destruct (H _ _ Hc) as [Hp Ho]. apply lookup_by_position.
    split; [lia|]. rewrite lookup_take_lt by lia. done. }
  destruct (submseteq_Permutation _ _ (map_to_list_submseteq _ _ Hsub)) as [l ->].
  rewrite omap_app. apply submseteq_inserts_r. done.
Qed.

(** Once every call has returned and the consumer has caught up, the records handed out
    are the records accepted. *)
Lemma accepted_delivered n s :
  inv n s → inv2 s → (∀ i p, q_prods s !! i = Some p → p = P_idle) → q_tail s = q_head s →
  omap id (q_out s) ≡ₚ omap accepted_ret (q_rets s).
Proof.
  intros Hinv [_ Hperm _] Hidle Heq. destruct (i_out _ _ Hinv) as [Hlen Hout]. rewrite <- delivered_all.
  - rewrite Hperm. assert (omap inflight (q_prods s) = []) as ->; [|by rewrite app_nil_r].
    clear - Hidle. induction (q_prods s) as [|p l IH]; [done|].
    rewrite (Hidle 0%nat p eq_refl). apply IH. intros i q Hi. apply (Hidle (S i) q Hi).
  - done.
  - intros pos [c Hc]. destruct (i_log _ _ Hinv pos c Hc) as (? & _). lia.
Qed.

(** What was published stays published. *)
Lemma exec_log n s a s' : inv n s → exec s a = Some s' → q_log s ⊆ q_log s'.
Proof.
  intros Hinv Hex. destruct a; cbn in Hex.
  - apply bind_Some in Hex as (p & Hi & Hs). destruct p; cbn in Hs; repeat case_match; simplify_eq; try done.
    all: cbn; apply insert_subseteq; eapply (i_own _ _ Hinv); done.
  - repeat case_match; simplify_eq; done.
  - by destruct (cons_step_frame _ _ _ Hex) as (_ & -> & _).
  - by destruct (close_step_frame _ _ Hex) as (_ & -> & _).
  - repeat case_match; simplify_eq; done.
  - repeat case_match; simplify_eq; done.
  - repeat case_match; simplify_eq; done.
  - repeat case_match; simplify_eq; done.
Qed.

(** ** Wake-ups *)

(** A producer that has claimed a position and not yet tried to wake the consumer. *)
Definition unsignalled p : Prop :=
  match p with
  | P_recheck _ _ | P_spin _ _ _ _ | P_tomb _ _ | P_write _ _ | P_publish _ _ _ | P_signal _ _ => True
  | _ => False
  end.
Definition posting p : Prop := match p with P_post _ _ => True | _ => False end.

(** The consumer has declared itself parked and not yet been woken. *)
Definition parking (c : cpc A) : Prop :=
  match c with C_head2 | C_tail2 _ | C_closed2 | C_sem => True | _ => False end.

Definition post_due s : Prop :=
  0 < q_items_sem s ∨ ∃ i p, q_prods s !! i = Some p ∧ posting p.
Definition wake_due s : Prop :=
  post_due s ∨ ∃ i p, q_prods s !! i = Some p ∧ unsignalled p.

Record inv3 s : Prop := {
  w_parked : parking (q_cons s) → q_parked s = false → post_due s;
  w_wake : match q_cons s with
           | C_tail2 h => h < q_head s → wake_due s
           | C_closed2 | C_sem => q_tail s < q_head s → wake_due s
           | _ => True
           end;
  w_sem : 0 <= q_items_sem s
}.

Definition inv3_if s : Prop := q_abandoned s = false → q_missed s = false → inv3 s.

(** Changes it does not read. *)
Lemma inv3_ext s s' :
  q_prods s' = q_prods s → q_cons s' = q_cons s → q_parked s' = q_parked s →
  q_items_sem s' = q_items_sem s → q_head s' = q_head s → q_tail s' = q_tail s → inv3 s → inv3 s'.
Proof.
  intros E1 E2 E3 E4 E5 E6 []. unfold post_due, wake_due in *.
  constructor; unfold wake_due, post_due; rewrite ?E1, ?E2, ?E3, ?E4, ?E5, ?E6; auto.
Qed.

(** A producer's step keeps what is due, when its own part of it is kept. *)
Lemma due_set_prod (P : ppc A → Prop) s i p p' :
  q_prods s !! i = Some p → (P p → P p') →
  (∃ j q, q_prods s !! j = Some q ∧ P q) → ∃ j q, <[i := p']> (q_prods s) !! j = Some q ∧ P q.
Proof.
  intros Hi HP (j & q & Hj & Hq). destruct (decide (j = i)) as [->|].
  - simplify_eq. exists i, p'. rewrite list_lookup_insert_eq by (by eapply lookup_lt_Some). auto.
  - exists j, q. by rewrite list_lookup_insert_ne.
Qed.

Lemma inv3_set_prod s i p p' :
  inv3 s → q_prods s !! i = Some p → (posting p → posting p') → (unsignalled p → unsignalled p') →
  inv3 (set_prod s i p').
Proof.
  intros [Hpk Hwk Hsem] Hi H1 H2.
  assert (post_due s → post_due (set_prod s i p')) as Hpost.
  { intros [?|H]; [by left|right]. by eapply (due_set_prod posting). }
  assert (wake_due s → wake_due (set_prod s i p')) as Hwake.
  { intros [?|H]; [by left; auto|right]. by eapply (due_set_prod unsignalled). }
  constructor; cbn; [auto| |done]. destruct (q_cons s); auto.
Qed.

Lemma wake_self s i p : (i < length (q_prods s))%nat → unsignalled p → wake_due (set_prod s i p).
Proof. intros. right. exists i, p. cbn. by rewrite list_lookup_insert_eq. Qed.
Lemma post_self s i p : (i < length (q_prods s))%nat → posting p → post_due (set_prod s i p).
Proof. intros. right. exists i, p. cbn. by rewrite list_lookup_insert_eq. Qed.

(** The wake-up compare-and-swap finds nobody parked. *)
Lemma inv3_no_signal s i o ret :
  inv3 s → q_prods s !! i = Some (P_signal o ret) → q_parked s = false → inv3 (set_prod s i (P_ret o ret)).
Proof.
  intros [Hpk Hwk Hsem] Hi Epk.
  assert (parking (q_cons s) → post_due (set_prod s i (P_ret o ret))) as Hpost.
  { intros Hp. destruct (Hpk Hp Epk) as [?|H]; [by left|right].
    by eapply (due_set_prod posting). }
  constructor; cbn; [auto| |done]. destruct (q_cons s); auto; intros _; left; by apply Hpost.
Qed.

Lemma inv3_prod_step n s i p s' :
  inv n s → n < 2 ^ 62 → inv3 s → q_prods s !! i = Some p → prod_step s i p = Some s' → inv3_if s'.
Proof.
  intros Hinv Hn H3 Hi Hstep Hab _. pose proof Hinv as [_ [H0 [Hth Hhn]] _ _ _ _ _ _ _ _].
  pose proof (lookup_lt_Some _ _ _ Hi) as Hlt.
  destruct p; cbn in Hstep; simplify_eq.
  - by apply (inv3_set_prod _ _ _ _ H3 Hi).
  - by apply (inv3_set_prod _ _ _ _ H3 Hi).
  - by apply (inv3_set_prod _ _ _ _ H3 Hi).
  - (* P_claim *) pose proof (inv3_set_prod s i _ (P_recheck o (q_head s)) H3 Hi) as [Hpk _ Hsem]; [done..|].
    constructor; cbn; [exact Hpk| |exact Hsem].
    destruct (q_cons s); auto; intros _; by apply (wake_self s).
  - by apply (inv3_set_prod _ _ _ _ H3 Hi); repeat case_match.
  - (* P_spin *) repeat case_match; simplify_eq; try done; by apply (inv3_set_prod _ _ _ _ H3 Hi).
  - by apply (inv3_ext (set_prod s i (P_publish o pos None))), (inv3_set_prod _ _ _ _ H3 Hi).
  - by apply (inv3_ext (set_prod s i (P_publish o pos (Some (op_rec o))))), (inv3_set_prod _ _ _ _ H3 Hi).
  - by apply (inv3_ext (set_prod s i (P_signal o (match c with Some _ => 0 | None => -1 end)))), (inv3_set_prod _ _ _ _ H3 Hi).
  - (* P_signal *) destruct (q_parked s) eqn:Epk.
    + destruct H3 as [Hpk Hwk Hsem]. assert (post_due (set_prod (set_parked s false) i (P_post o ret))) as Hpost
        by (by apply (post_self (set_parked s false))).
      constructor; cbn; [auto| |done]. destruct (q_cons s); auto; intros _; by left.
    + by apply inv3_no_signal.
  - (* P_post *) destruct H3 as [Hpk Hwk Hsem].
    assert (post_due (set_prod (set_sems s (q_items_sem s + 1) (q_slots_sem s) (q_drained s)) i (P_ret o ret)))
      as Hpost by (left; cbn; lia).
    constructor; cbn; [auto| |lia]. destruct (q_cons s); auto; intros _; by left.
  - case_match; [by apply (inv3_set_prod _ _ _ _ H3 Hi)|].
    by apply (inv3_ext (set_prod s i P_idle)), (inv3_set_prod _ _ _ _ H3 Hi).
  - case_match; [by apply (inv3_ext (set_prod s i P_idle)), (inv3_set_prod _ _ _ _ H3 Hi)|by apply (inv3_set_prod _ _ _ _ H3 Hi)].
  - case_match; [|done]. simplify_eq. by apply (inv3_ext (set_prod s i (P_closed o))), (inv3_set_prod _ _ _ _ H3 Hi).
Qed.

Lemma inv3_cons_step n s m s' :
  inv n s → n < 2 ^ 62 → inv3 s → cons_step m s = Some s' → inv3 s'.
Proof.
  intros Hinv Hn [Hpk Hwk Hsem] Hstep. pose proof Hinv as [_ [H0 [Hth Hhn]] _ _ _ _ _ _ _ Hcons].
  unfold cons_ok in Hcons. unfold cons_step in Hstep. destruct (q_cons s) eqn:Hc; simplify_eq;
    try (by constructor; cbn; repeat case_match; done).
  - (* C_head2 *) constructor; cbn; [|lia|done]. intros _. by apply Hpk.
  - (* C_tail2 *) unfold usub. rewrite u64_id by (split; lia). rewrite Z.gtb_ltb.
    destruct (Z.ltb_spec 0 (head - q_tail s)); [by constructor; cbn|].
    constructor; cbn; [intros _; by apply Hpk| |done]. intros. apply Hwk. lia.
  - (* C_sem *) case_match eqn:E; simplify_eq. rewrite Z.gtb_lt in E. constructor; cbn; [done|done|lia].
  - (* C_seq *) constructor; cbn; repeat case_match; simplify_eq; done.
  - (* C_slots *) by destruct n0; simplify_eq; constructor.
Qed.

Lemma inv3_exec n s a s' :
  inv n s → n < 2 ^ 62 → inv3_if s → exec s a = Some s' → inv3_if s'.
Proof.
  intros Hinv Hn H3 Hexec Hab Hms. destruct a; cbn in Hexec.
  - apply bind_Some in Hexec as (p & Hi & Hstep). eapply inv3_prod_step; try done.
    apply H3; [destruct (q_abandoned s) eqn:E|destruct (q_missed s) eqn:E]; try done;
      destruct p; cbn in Hstep; repeat case_match; simplify_eq; cbn in Hab, Hms; congruence.
  - repeat case_match; simplify_eq. cbn in Hab, Hms. apply orb_false_iff in Hms as [Hms Epk].
    by apply (inv3_ext (set_prod s i (P_ret o ret))), inv3_no_signal; [done..|apply H3|done|done].
  - destruct (cons_step_frame _ _ _ Hexec) as (_&_&_&_&E&E'). eapply inv3_cons_step; [done..| |done].
    apply H3; congruence.
  - destruct (close_step_frame _ _ Hexec) as (E1&_&_&E2&E&E3&E4&E5&E6&E7).
    destruct (H3 ltac:(congruence) ltac:(congruence)) as [Hpk Hwk Hsem].
    assert (post_due s → post_due s') as Hpost.
    { intros [?|?]; [left; lia|right; by rewrite E1]. }
    assert (wake_due s → wake_due s') as Hwake.
    { intros [?|?]; [left; auto|right; by rewrite E1]. }
    constructor; rewrite ?E2, ?E3, ?E4, ?E5; [auto| |lia]. destruct (q_cons s); auto.
  - repeat case_match; simplify_eq. by eapply inv3_set_prod; [apply H3|..].
  - repeat case_match; simplify_eq. destruct (H3 Hab Hms). by constructor.
  - repeat case_match; simplify_eq. destruct (H3 Hab Hms). by constructor.
  - repeat case_match; simplify_eq. destruct (H3 Hab Hms). by constructor.
Qed.

Lemma inv3_steps n k m s :
  0 <= k <= 62 → steps n (q_init (2 ^ k) m) s → Z.of_nat n <= 2 ^ 62 → inv3_if s.
Proof.
  intros Hk H. remember (q_init (2 ^ k) m) as s0 eqn:E.
  induction H as [s|n s s1 s2 a H IH Hex]; intros Hn; subst; [by intros _ _; constructor|].
  eapply inv3_exec; [eapply inv_steps; [done|done|lia]|lia|apply IH; [done|lia]|done].
Qed.

End invariant.

(** ** Capacity rounding *)

Lemma next_pow2_loop_spec fuel k n :
  1 <= k <= 63 → 63 - k < Z.of_nat fuel → 2 ^ (k - 1) < n <= 2 ^ 63 →
  ∃ j, k <= j <= 63 ∧ next_pow2_loop fuel (2 ^ k) n = Some (2 ^ j) ∧ 2 ^ (j - 1) < n <= 2 ^ j.
Proof.
  revert k. induction fuel as [|fuel IH]; intros k Hk Hf Hn; [lia|]. cbn [next_pow2_loop].
  destruct (Z.ltb_spec (2 ^ k) n) as [Hlt|Hge].
  - assert (k < 63) by (apply (Z.pow_lt_mono_r_iff 2); lia).
    assert (2 ^ k * 2 = 2 ^ (k + 1)) as E by (rewrite Z.pow_add_r by lia; lia).
    rewrite E, u64_id.
    + destruct (IH (k + 1)) as (j & Hj & H1 & H2); [lia|lia|replace (k + 1 - 1) with k by lia; lia|].
      exists j. split; [lia|done].
    + split; [lia|]. apply Z.pow_lt_mono_r; lia.
  - exists k. split; [lia|]. split; [done|lia].
Qed.

(** Past 2^63 the loop doubles to zero and never ends. *)
Lemma next_pow2_loop_diverges fuel p n :
  2 ^ 63 < n → p = 0 ∨ (∃ k, 1 <= k <= 63 ∧ p = 2 ^ k) → next_pow2_loop fuel p n = None.
Proof.
  intros Hn. revert p. induction fuel as [|fuel IH]; intros p Hp; cbn [next_pow2_loop].
  - destruct (Z.ltb_spec p n) as [|Hge]; [done|]. destruct Hp as [->|(k & Hk & ->)]; [lia|].
    pose proof (Z.pow_le_mono_r 2 k 63). lia.
  - destruct (Z.ltb_spec p n) as [_|Hge].
    + apply IH. destruct Hp as [->|(k & Hk & ->)]; [by left|].
      destruct (decide (k = 63)) as [->|]; [by left|right]. exists (k + 1). split; [lia|].
      rewrite u64_id; [rewrite Z.pow_add_r by lia; lia|].
      split; [lia|]. replace (2 ^ k * 2) with (2 ^ (k + 1)) by (rewrite Z.pow_add_r by lia; lia).
      apply Z.pow_lt_mono_r; lia.
    + destruct Hp as [->|(k & Hk & ->)]; [lia|]. pose proof (Z.pow_le_mono_r 2 k 63). lia.
Qed.

(** ** Schedules *)

Fixpoint exec_all {A} (s : qstate A) (l : list (action A)) : option (qstate A) :=
  match l with
  | [] => Some s
  | a :: l' => s' ← exec s a; exec_all s' l'
  end.

Lemma exec_all_steps {A} n (s0 s s' : qstate A) l :
  steps n s0 s → exec_all s l = Some s' → steps (n + length l) s0 s'.
Proof.
  revert n s. induction l as [|a l IH]; intros n s H E; cbn in E.
  - injection E as <-. cbn. by rewrite Nat.add_0_r.
  - apply bind_Some in E as (s1 & E1 & E2). cbn. rewrite Nat.add_succ_r, <- Nat.add_succ_l.
    eapply IH; [|done]. by econstructor.
Qed.

(** ** Properties *)

(** The requested capacity is rounded up to the least power of two that holds
    it, for every request up to 2^63; the loop takes at most 63 turns. *)
Theorem next_pow2_correct n :
  0 <= n <= 2 ^ 63 →
  ∃ k, 0 <= k <= 63 ∧ next_pow2 63 n = Some (2 ^ k) ∧ n <= 2 ^ k ∧ (0 < k → 2 ^ (k - 1) < n).
Proof.
  intros Hn. unfold next_pow2. destruct (Z.leb_spec n 1).
  - exists 0. split_and!; [lia|lia|done|lia|lia].
  - destruct (next_pow2_loop_spec 63 1 n) as (j & Hj & H1 & H2); [lia|lia|simpl; lia|].
    exists j. split_and!; [lia|lia|done|lia|lia].
Qed.

Lemma next_pow2_correct_witness : next_pow2 63 1000 = Some 1024.
Proof.
  destruct (next_pow2_correct 1000 ltac:(lia)) as (k & Hk & H & H1 & H2). rewrite H. f_equal.
  assert (k = 10) as ->; [|reflexivity].
  destruct (Z.lt_trichotomy k 10) as [Hl|[E|Hl]]; [|done|].
  - pose proof (Z.pow_le_mono_r 2 k 9). lia.
  - specialize (H2 ltac:(lia)). pose proof (Z.pow_le_mono_r 2 10 (k - 1)). lia.
Defined.

(** A request above 2^63 is never rounded: the doubling wraps to zero and the
    loop does not end, whatever fuel it is given. *)
Theorem next_pow2_diverges n fuel : 2 ^ 63 < n < 2 ^ 64 → next_pow2 fuel n = None.
Proof.
  intros Hn. unfold next_pow2. destruct (Z.leb_spec n 1); [lia|].
  apply next_pow2_loop_diverges; [lia|]. right. by exists 1.
Qed.

Lemma next_pow2_diverges_witness : next_pow2 1000 (2 ^ 64 - 1) = None.
Proof. exact (next_pow2_diverges (2 ^ 64 - 1) 1000 ltac:(lia)). Defined.

(** C1: in every interleaving of any number of producers, the consumer and the
    closer, the consumer receives positions 0, 1, 2, ... in order, each with exactly
    what was published at that position; a published record that was not received yet
    is intact in its slot, and no more than [capacity] positions separate it from the
    consumer. *)
Theorem mpsc_fifo {A} n k m (s : qstate A) :
  0 <= k <= 62 → steps n (q_init (2 ^ k) m) s → Z.of_nat n <= 2 ^ 62 →
  clen (q_out s) = q_tail s ∧
  (∀ j c, q_out s !! j = Some c → q_log s !! Z.of_nat j = Some c) ∧
  (∀ pos c, q_log s !! pos = Some c → q_tail s <= pos →
     q_slots s (slot_index s pos) = Slot c (pos + 1) ∧ pos < q_tail s + q_cap s).
Proof.
  intros Hk Hs Hn. pose proof (inv_steps n k m s Hk Hs Hn) as Hinv.
  split_and!; [apply (i_out _ _ Hinv)..|].
  intros pos c Hp Ht. rewrite (index_mod _ _ _ Hinv).
  destruct (i_log _ _ Hinv pos c Hp) as (_ & Hw & Hslot). auto.
Qed.

(** Two producers and the consumer, interleaved. *)
Definition test_schedule : list (action Z) :=
  let o1 := Op 11 false in let o2 := Op 22 false in
  [StartPut 0 o1; StartPut 1 o2] ++ concat (repeat [Prod 0; Prod 1] 9) ++
  [StartBatch] ++ repeat (Cons 8) 7 ++ repeat (Cons 8) 6.

Lemma mpsc_fifo_witness :
  ∃ s : qstate Z, exec_all (q_init (2 ^ 1) 2) test_schedule = Some s ∧ q_out s = [Some 11; Some 22] ∧ clen (q_out s) = q_tail s.
Proof.
  assert (q_out <$> exec_all (q_init (2 ^ 1) 2) test_schedule = Some [Some 11; Some 22]) as E by (vm_compute; reflexivity).
  destruct (exec_all (q_init (2 ^ 1) 2) test_schedule) as [s|] eqn:Es; [|discriminate]. exists s. injection E as E. split_and!; [done..|].
  pose proof (exec_all_steps 0 (q_init (2 ^ 1) 2) (q_init (2 ^ 1) 2) s test_schedule (steps_O _) Es) as H.
  apply (mpsc_fifo (0 + length test_schedule) 1 2 s ltac:(lia) H). vm_compute. discriminate.
Defined.

(** C2: nothing is lost, duplicated or invented: once every call has returned
    and the consumer has caught up, the records it received are exactly the records whose put returned 0, each once; a put that failed left at most
    a tombstone. *)
Theorem mpsc_no_loss {A} n k m (s : qstate A) :
  0 <= k <= 62 → steps n (q_init (2 ^ k) m) s → Z.of_nat n <= 2 ^ 62 →
  (∀ i p, q_prods s !! i = Some p → p = P_idle) → q_tail s = q_head s →
  omap id (q_out s) ≡ₚ omap accepted_ret (q_rets s).
Proof.
  intros Hk Hs Hn Hidle. exact (accepted_delivered _ s (inv_steps n k m s Hk Hs Hn) (inv2_steps n k m s Hk Hs Hn) Hidle).
Qed.

Lemma mpsc_no_loss_witness :
  ∃ s : qstate Z, exec_all (q_init (2 ^ 1) 2) test_schedule = Some s ∧ omap id (q_out s) ≡ₚ omap accepted_ret (q_rets s) ∧
    q_rets s = [(11, 0); (22, 0)].
Proof.
  assert ((λ s, (q_rets s, q_prods s, q_abandoned s, q_tail s =? q_head s)) <$> exec_all (q_init (2 ^ 1) 2) test_schedule =
    Some ([(11, 0); (22, 0)], [P_idle; P_idle], false, true)) as E by (vm_compute; reflexivity).
  destruct (exec_all (q_init (2 ^ 1) 2) test_schedule) as [s|] eqn:Es; [|discriminate]. exists s. injection E as E1 E2 E3 E4.
  split_and!; [done| |done].
  pose proof (exec_all_steps 0 (q_init (2 ^ 1) 2) (q_init (2 ^ 1) 2) s test_schedule (steps_O _) Es) as H.
  apply (mpsc_no_loss (0 + length test_schedule) 1 2 s ltac:(lia) H);
    [vm_compute; discriminate| |by apply Z.eqb_eq].
  intros i p Hp. rewrite E2 in Hp. destruct i as [|[|i]]; by inversion Hp.
Defined.

(** C27: no wake-up is lost under sequentially consistent memory in runs in which no
    compare-and-swap on the parked consumer failed spuriously and no producer gave up a
    claimed position: if the consumer sleeps on its semaphore with no post left in it, no
    producer is posting and none that claimed a position has yet to try to wake it, then
    every claimed position has been consumed. *)
Theorem mpsc_no_lost_wakeup {A} n k m (s : qstate A) :
  0 <= k <= 62 → steps n (q_init (2 ^ k) m) s → Z.of_nat n <= 2 ^ 62 →
  q_cons s = C_sem → q_items_sem s = 0 → q_abandoned s = false → q_missed s = false →
  (∀ i p, q_prods s !! i = Some p → ¬ posting p ∧ ¬ unsignalled p) →
  q_head s = q_tail s.
Proof.
  intros Hk Hs Hn Hc Hsem Hab Hms Hno. pose proof (inv_steps n k m s Hk Hs Hn) as [_ [H0 [Hth _]] _ _ _ _ _ _ _ _].
  destruct (inv3_steps n k m s Hk Hs Hn Hab Hms) as [_ Hw _]. rewrite Hc in Hw.
  destruct (Z.lt_ge_cases (q_tail s) (q_head s)) as [Hlt|]; [|lia].
  destruct (Hw Hlt) as [[?|(i & p & Hi & Hp)]|(i & p & Hi & Hp)]; [lia|destruct (Hno i p Hi); done..].
Qed.

Definition sleep_schedule : list (action Z) :=
  [StartPut 0 (Op 7 false)] ++ repeat (Prod 0) 9 ++ [StartBatch] ++ repeat (Cons 8) 11 ++
  [StartWait] ++ repeat (Cons 8) 7.

Lemma mpsc_no_lost_wakeup_witness :
  ∃ s : qstate Z, exec_all (q_init (2 ^ 1) 1) sleep_schedule = Some s ∧ q_cons s = C_sem ∧ q_head s = q_tail s.
Proof.
  assert ((λ s, (q_cons s, q_items_sem s, q_abandoned s, q_missed s, q_prods s)) <$> exec_all (q_init (2 ^ 1) 1) sleep_schedule =
    Some (C_sem, 0, false, false, [P_idle])) as E by (vm_compute; reflexivity).
  destruct (exec_all (q_init (2 ^ 1) 1) sleep_schedule) as [s|] eqn:Es; [|discriminate].
  injection E as E1 E2 E3 E3' E4. exists s. split_and!; [done..|].
  pose proof (exec_all_steps 0 (q_init (2 ^ 1) 1) (q_init (2 ^ 1) 1) s sleep_schedule (steps_O _) Es) as H.
  apply (mpsc_no_lost_wakeup (0 + length sleep_schedule) 1 1 s ltac:(lia) H); [vm_compute; discriminate|done..|].
  intros i p Hp. rewrite E4 in Hp. destruct i; [|done]. injection Hp as <-. split; intros [].
Defined.

(** The hypothesis on spurious failures is needed: the consumer sleeps, the producer
    publishes record 7, its weak compare-and-swap fails although the consumer is
    parked, the put returns 0, and nobody is left to wake the consumer. *)
Definition weak_schedule : list (action Z) :=
  [StartWait] ++ repeat (Cons 8) 7 ++ [StartPut 0 (Op 7 false)] ++ repeat (Prod 0) 7 ++ [Weak 0; Prod 0].

Example weak_cas_loses_wakeup :
  (λ s, (q_cons s, q_items_sem s, q_parked s, q_prods s, q_rets s, q_head s - q_tail s)) <$>
    exec_all (q_init 2 1) weak_schedule = Some (C_sem, 0, true, [P_idle], [(7, 0)], 1).
Proof. vm_compute. reflexivity. Qed.

(** [mpsc_queue_close] posts [slots_sem] once per slot, which is not enough for every
    blocked producer: of two producers blocked in [put] on a full queue of capacity 1,
    the second sleeps for ever. *)
Definition closed_out_schedule : list (action Z) :=
  [StartPut 0 (Op 1 false)] ++ repeat (Prod 0) 9 ++
  [StartPut 1 (Op 2 true)] ++ repeat (Prod 1) 11 ++
  [StartPut 2 (Op 3 true)] ++ repeat (Prod 2) 5 ++
  [StartClose] ++ repeat Close 5 ++ repeat (Prod 1) 4.

Example close_leaves_producer_blocked :
  (λ s, (q_closer s, q_slots_sem s, q_prods s)) <$> exec_all (q_init 1 3) closed_out_schedule =
    Some (K_done, 0, [P_idle; P_idle; P_put_wait (Op 3 true)]).
Proof. vm_compute. reflexivity. Qed.
