(* ===== verification/WeakRing.v ===== *)
(** * The ring protocol under release/acquire memory (core/queue.c, core/socket_ring.c)

    What the two rings share: positions are claimed by a read-modify-write of [head], a
    producer writes a slot after it has acquired a tail that frees it and releases the
    slot's counter, the one consumer acquires the counter, takes the slot and releases
    the tail.  Each access keeps [ring_ok]: the accesses of a slot are ordered, write
    and take in turn, and a take finds what was written at its position.  [threads_ok] adds
    what each thread knows, with one lemma per kind of step; the machines of the two rings
    map their program counters to these roles. *)
From S2P Require Import Prelude WeakMem Queue.

Local Open Scope Z_scope.

(** The shared variables of a ring: [L_slot] is what a slot holds besides its counter. *)
Inductive ring_loc :=
  | L_head | L_tail | L_closed | L_parked | L_count | L_dropped
  | L_seq (i : Z) | L_slot (i : Z) | L_items | L_slots.

#[export] Instance ring_loc_eq_dec : EqDecision ring_loc.
Proof. solve_decision. Defined.

Definition ring_plain (l : ring_loc) : bool := match l with L_slot _ => true | _ => false end.

(** What a view knows of the slots: all positions below [v] were taken, [pos] was
    written, [pos] is free to be written. *)
Definition taken (cap v : Z) (V : view ring_loc) : Prop :=
  ∀ pos, 0 <= pos < v → 2 * (pos / cap) + 2 <= V (L_slot (pos mod cap)).
Definition wrote (cap pos : Z) (V : view ring_loc) : Prop := 2 * (pos / cap) + 1 <= V (L_slot (pos mod cap)).
Definition freed (cap pos : Z) (V : view ring_loc) : Prop := 2 * (pos / cap) <= V (L_slot (pos mod cap)).

#[export] Instance taken_proper cap v : Proper (vle ==> impl) (taken cap v).
Proof. intros V W HV H pos Hp. specialize (H pos Hp). specialize (HV (L_slot (pos mod cap))). lia. Qed.
#[export] Instance wrote_proper cap pos : Proper (vle ==> impl) (wrote cap pos).
Proof. intros V W HV H. unfold wrote in *. specialize (HV (L_slot (pos mod cap))). lia. Qed.
#[export] Instance freed_proper cap pos : Proper (vle ==> impl) (freed cap pos).
Proof. intros V W HV H. unfold freed in *. specialize (HV (L_slot (pos mod cap))). lia. Qed.

Section ring.
Context {A : Type}.
Implicit Types (M : mem ring_loc A) (V : view ring_loc) (log : gmap Z A).

(** [N] positions are claimed, [C] taken; [log] is what was written at each position. *)
Record ring_ok (cap N C : Z) M log : Prop := {
  r_cap : 0 < cap;
  r_mem : mem_ok ring_plain M;
  r_race : raced M = false;
  r_pos : 0 <= C <= N;
  r_head t m : cells M L_head !! t = Some m → 0 <= t <= N ∧ m_val m = t;
  r_heads t : 0 <= t <= N → is_Some (cells M L_head !! t);
  r_tail t m : cells M L_tail !! t = Some m → 0 <= m_val m <= C ∧ taken cap (m_val m) (m_view m);
  r_seq i t m : 0 <= i < cap → cells M (L_seq i) !! t = Some m →
    m_val m = i ∨ ∃ pos, 0 <= pos ∧ pos mod cap = i ∧ m_val m = pos + 1 ∧ is_Some (log !! pos) ∧ wrote cap pos (m_view m);
  r_log pos : is_Some (log !! pos) → 0 <= pos < N ∧ pos < C + cap;
  r_done pos : 0 <= pos < C → is_Some (log !! pos);
  r_slot pos : C <= pos < C + cap →
    count M (L_slot (pos mod cap)) = 2 * (pos / cap) + (if log !! pos then 1 else 0) ∧
    ∀ a, log !! pos = Some a → plain M (L_slot (pos mod cap)) = a
}.

End ring.

Arguments r_cap {A cap N C M log} _.
Arguments r_mem {A cap N C M log} _.
Arguments r_race {A cap N C M log} _.
Arguments r_pos {A cap N C M log} _.
Arguments r_head {A cap N C M log} _ t m _.
Arguments r_heads {A cap N C M log} _ t _.
Arguments r_tail {A cap N C M log} _ t m _.
Arguments r_seq {A cap N C M log} _ i t m _ _.
Arguments r_log {A cap N C M log} _ pos _.
Arguments r_done {A cap N C M log} _ pos _.
Arguments r_slot {A cap N C M log} _ pos _.

Section ring_lemmas.
Context {A : Type}.
Context (cap N C : Z) (M : mem ring_loc A) (log : gmap Z A) (HR : ring_ok cap N C M log).

(** Memories that agree on what the invariant reads. *)
Lemma ring_frame M' :
  mem_ok ring_plain M' → raced M' = raced M → plain M' = plain M → count M' = count M →
  cells M' L_head = cells M L_head → cells M' L_tail = cells M L_tail →
  (∀ i, cells M' (L_seq i) = cells M (L_seq i)) → ring_ok cap N C M' log.
Proof.
  intros H1 H2 H3 H4 H5 H6 H7. destruct HR. split; try done.
  - by rewrite H2.
  - intros t m. rewrite H5. eauto.
  - intros t. rewrite H5. eauto.
  - intros t m. rewrite H6. eauto.
  - intros i t m. rewrite H7. eauto.
  - intros pos. rewrite H3, H4. eauto.
Qed.

(** Another atomic variable. *)
Lemma ring_other_msg l t m :
  l ≠ L_head → l ≠ L_tail → (∀ i, l ≠ L_seq i) → mem_ok ring_plain (add_msg M l t m) →
  ring_ok cap N C (add_msg M l t m) log.
Proof.
  intros H1 H2 H3 H. apply ring_frame; try done; [..|intros i]; cbn; rewrite decide_False; try done.
Qed.

Lemma ring_sem l p : mem_ok ring_plain (set_sem M l p) → ring_ok cap N C (set_sem M l p) log.
Proof. intros H. by apply ring_frame. Qed.

(** ** Claiming *)

(** An update of [head] finds the number of claims, so no two claims are equal. *)
Lemma ring_claim f V t M' V' v :
  bounded ring_plain M V → (v = N → f v = N + 1) → update AcqRel M V L_head f t = Some (M', V', v) →
  v = N ∧ ring_ok cap (N + 1) C M' log ∧ bounded ring_plain M' V' ∧ vle V V' ∧ count M' = count M.
Proof.
  intros HV Hf HU. pose proof (r_mem HR) as Hmem.
  destruct (update_ok _ _ _ _ L_head _ _ _ Hmem HV eq_refl HU) as (H1 & H2 & H3 & m & W & Em & -> & Ef & _ & _ & _ & -> & _).
  destruct (r_head HR t m Em) as [Ht Ev]. pose proof (r_pos HR).
  assert (t = N) as ->.
  { destruct (Z.lt_ge_cases t N); [|lia]. destruct (r_heads HR (t + 1)) as [x Hx]; [lia|]. congruence. }
  split; [done|]. split; [|done]. destruct HR. split; try done.
  - lia.
  - intros t m'. cbn [cells add_msg]. rewrite decide_True by done. rewrite lookup_insert_Some. intros [[<- <-]|[_ H']].
    + split; [lia|]. cbn. by apply Hf.
    + destruct (r_head0 t m' H'). split; [lia|done].
  - intros t Ht'. cbn [cells add_msg]. rewrite decide_True by done. destruct (decide (t = N + 1)) as [->|].
    + rewrite lookup_insert_eq. by eexists.
    + rewrite lookup_insert_ne by done. apply r_heads0. lia.
  - intros pos Hp. destruct (r_log0 pos Hp). split; lia.
Qed.

(** ** What loads tell *)

Lemma tail_loaded V t y :
  bounded ring_plain M V → load Acquire M V L_tail t = Some y →
  0 <= fst y <= C ∧ taken cap (fst y) (snd y) ∧ bounded ring_plain M (snd y) ∧ vle V (snd y).
Proof.
  intros HV HL. destruct (load_ok _ _ _ _ L_tail _ _ (r_mem HR) HV eq_refl HL) as (H1 & H2 & m & Em & -> & _ & Ha).
  destruct (r_tail HR t m Em) as [H3 H4]. split; [done|]. split; [|done]. by rewrite (Ha eq_refl) in H4.
Qed.

Lemma head_loaded V t y : bounded ring_plain M V → load Acquire M V L_head t = Some y → 0 <= fst y <= N.
Proof.
  intros HV HL. destruct (load_ok _ _ _ _ L_head _ _ (r_mem HR) HV eq_refl HL) as (_ & _ & m & Em & -> & _).
  destruct (r_head HR t m Em). lia.
Qed.

(** A tail beyond [pos - cap] frees the slot of [pos]. *)
Lemma freed_by_tail V pos v :
  (∀ l, 0 <= V l) → 0 <= pos → pos - v < cap → v <= C → taken cap v V → pos < C + cap ∧ freed cap pos V.
Proof.
  intros HV Hp Hv HC HT. pose proof (r_cap HR). split; [lia|]. unfold freed.
  destruct (Z.lt_ge_cases pos cap).
  - rewrite Z.div_small by lia. specialize (HV (L_slot (pos mod cap))). lia.
  - specialize (HT (pos - cap) ltac:(lia)).
    replace (pos - cap) with (pos + -1 * cap) in HT by lia. rewrite Z.div_add, Z.mod_add in HT by lia. lia.
Qed.

Lemma seq_loaded V t pos y :
  bounded ring_plain M V → 0 <= pos → load Acquire M V (L_seq (pos mod cap)) t = Some y →
  bounded ring_plain M (snd y) ∧ vle V (snd y) ∧
  (fst y = pos + 1 → is_Some (log !! pos) ∧ wrote cap pos (snd y)).
Proof.
  intros HV Hp HL. destruct (load_ok _ _ _ _ (L_seq (pos mod cap)) _ _ (r_mem HR) HV eq_refl HL) as (H1 & H2 & m & Em & -> & _ & Ha).
  split; [done|]. split; [done|]. pose proof (r_cap HR).
  destruct (r_seq HR _ t m ltac:(by apply Z.mod_pos_bound) Em) as [->|(q & Hq & Eq & -> & Hs & Hw)].
  - intros E. pose proof (Z.mod_le pos cap). lia.
  - intros E. assert (q = pos) as -> by lia. split; [done|]. by rewrite (Ha eq_refl) in Hw.
Qed.

(** ** Writing and publishing *)

Lemma ring_write V pos a M' V' b :
  bounded ring_plain M V → log !! pos = None → 0 <= pos < N → pos < C + cap → freed cap pos V →
  touch M V (L_slot (pos mod cap)) a = (M', V', b) →
  ring_ok cap N C M' (<[pos := a]> log) ∧ bounded ring_plain M' V' ∧ vle V V' ∧ wrote cap pos V' ∧
  (∀ l, count M l <= count M' l).
Proof.
  intros HV Hn Hp Hw Hf HT. pose proof (touch_ok ring_plain M V (L_slot (pos mod cap)) a (r_mem HR) HV eq_refl) as HO.
  rewrite HT in HO. destruct HO as (O1 & O2 & O3 & O4). split; [|split; [done|split; [done|split; [|done]]]].
  2:{ unfold wrote. unfold touch in HT. injection HT as <- <- _. rewrite vset_eq. unfold freed in Hf.
      destruct HV as [_ HV]. specialize (HV (L_slot (pos mod cap)) eq_refl). lia. }
  unfold touch in HT. injection HT as <- _ _.
  assert (C <= pos) as HC.
  { destruct (Z.le_gt_cases C pos); [done|]. destruct (r_done HR pos) as [? ?]; [lia|]. congruence. }
  destruct (r_slot HR pos ltac:(lia)) as [Hcnt _]. rewrite Hn in Hcnt.
  pose proof (r_cap HR) as Hcap. destruct HR. split; try done.
  - cbn. rewrite r_race0. destruct HV as [_ HV]. specialize (HV (L_slot (pos mod cap)) eq_refl). unfold freed in Hf.
    rewrite (proj2 (Z.eqb_eq _ _)) by lia. done.
  - intros i t m Hi Hm. destruct (r_seq0 i t m Hi Hm) as [?|(q & ? & ? & ? & Hs & ?)]; [by left|right].
    exists q. split_and!; try done. rewrite lookup_insert_is_Some. destruct (decide (pos = q)); [by left|by right].
  - intros q. rewrite lookup_insert_is_Some. intros [<-|[_ Hq]]; [lia|by apply r_log0].
  - intros q Hq. rewrite lookup_insert_is_Some. right. split; [lia|by apply r_done0].
  - intros q Hq. cbn [plain count]. destruct (decide (q = pos)) as [->|Hne].
    + rewrite !decide_True by done. rewrite lookup_insert_eq. split; [lia|]. by intros ? [= ->].
    + assert (q mod cap ≠ pos mod cap) by (intros E; apply Hne, (mod_window cap C); lia || done).
      rewrite !decide_False by congruence. rewrite lookup_insert_ne by done. by apply r_slot0.
Qed.

Lemma ring_publish V pos t y :
  bounded ring_plain M V → 0 <= pos → pos + 1 < 2 ^ 64 → is_Some (log !! pos) → wrote cap pos V →
  store Release M V (L_seq (pos mod cap)) (u64 (pos + 1)) t = Some y →
  ring_ok cap N C (fst y) log ∧ bounded ring_plain (fst y) (snd y) ∧ vle V (snd y) ∧ count (fst y) = count M.
Proof.
  intros HV Hp Hb Hs Hw HS. destruct (store_ok _ _ _ _ (L_seq (pos mod cap)) _ _ _ (r_mem HR) HV eq_refl HS) as (H1 & H2 & H3 & E & _ & EM).
  split; [|split; [done|split; [done|by rewrite EM]]]. rewrite EM in *. cbn [releases] in *. destruct HR. split; try done.
  intros i t' m Hi. cbn [cells add_msg]. case_decide as Hd; [|by apply r_seq0]. injection Hd as ->.
  rewrite lookup_insert_Some. intros [[<- <-]|[_ H']]; [|by apply (r_seq0 _ t')]. right. exists pos. cbn [m_val m_view].
  split; [done|]. split; [done|]. split; [apply u64_id; split; lia|]. split; [done|].
  exact (wrote_proper cap pos _ _ (vle_set V (L_seq (pos mod cap)) t) Hw).
Qed.

(** ** Taking *)

Lemma ring_take V (f : A → A) M' V' b :
  bounded ring_plain M V → is_Some (log !! C) → wrote cap C V → taken cap C V →
  touch M V (L_slot (C mod cap)) (f (plain M (L_slot (C mod cap)))) = (M', V', b) →
  log !! C = Some b ∧ ring_ok cap N (C + 1) M' log ∧ bounded ring_plain M' V' ∧ vle V V' ∧ taken cap (C + 1) V' ∧
  (∀ l, count M l <= count M' l).
Proof.
  intros HV [a Ha] Hw HTk HT. set (a' := f _) in HT.
  pose proof (touch_ok ring_plain M V (L_slot (C mod cap)) a' (r_mem HR) HV eq_refl) as HO.
  rewrite HT in HO. destruct HO as (O1 & O2 & O3 & O4). unfold touch in HT. injection HT as <- <- <-.
  pose proof (r_cap HR) as Hcap. pose proof (r_pos HR) as HCN.
  destruct (r_slot HR C ltac:(lia)) as [Hcnt Hval]. rewrite Ha in Hcnt. rewrite (Hval a Ha).
  destruct (r_log HR C ltac:(by eexists)) as [HlN _].
  assert ((C + cap) mod cap = C mod cap ∧ (C + cap) / cap = C / cap + 1) as [Em Ed].
  { replace (C + cap) with (C + 1 * cap) by lia. rewrite Z.mod_add, Z.div_add by lia. lia. }
  assert (log !! (C + cap) = None) as Hnew.
  { destruct (log !! (C + cap)) eqn:E; [|done]. destruct (r_log HR (C + cap)); [by eexists|lia]. }
  split; [done|]. split.
  - destruct HR. split; try done; [|lia| | | |].
    + cbn. rewrite r_race0. destruct HV as [_ HV]. specialize (HV (L_slot (C mod cap)) eq_refl). unfold wrote in Hw.
      rewrite (proj2 (Z.eqb_eq _ _)) by lia. done.
    + intros t m Hm. destruct (r_tail0 t m Hm). split; [lia|done].
    + intros pos Hp. destruct (r_log0 pos Hp). lia.
    + intros pos Hp. destruct (decide (pos = C)) as [->|]; [by eexists|]. apply r_done0. lia.
    + intros pos Hp. cbn [plain count]. destruct (decide (pos = C + cap)) as [->|Hne].
      * rewrite Em, Ed, !decide_True by done. rewrite Hnew. split; [lia|done].
      * assert (pos mod cap ≠ C mod cap) by (intros E; assert (pos = C) by (apply (mod_window cap C); lia || done); lia).
        rewrite !decide_False by congruence. apply r_slot0. lia.
  - split; [done|]. split; [done|]. split; [|done]. intros pos Hp. destruct (decide (pos = C)) as [->|].
    + rewrite vset_eq. lia.
    + specialize (HTk pos ltac:(lia)). specialize (O3 (L_slot (pos mod cap))). lia.
Qed.

(** The consumer releases its position. *)
Lemma ring_release_tail V t v y :
  bounded ring_plain M V → 0 <= v <= C → taken cap v V → store Release M V L_tail v t = Some y →
  ring_ok cap N C (fst y) log ∧ bounded ring_plain (fst y) (snd y) ∧ vle V (snd y) ∧ count (fst y) = count M ∧
  V L_tail < t ∧ snd y = vset V L_tail t ∧ fst y = add_msg M L_tail t (Msg v (vset V L_tail t)).
Proof.
  intros HV Hv HT HS. destruct (store_ok _ _ _ _ L_tail _ _ _ (r_mem HR) HV eq_refl HS) as (H1 & H2 & H3 & E & Hlt & EM).
  cbn [releases] in EM. split; [|split_and!; try done; by rewrite EM].
  rewrite EM in *. destruct HR. split; try done. intros t' m. cbn [cells add_msg]. rewrite decide_True by done.
  rewrite lookup_insert_Some. intros [[<- <-]|[_ H']]; [|by eapply r_tail0]. cbn. split; [done|].
  exact (taken_proper cap v _ _ (vle_set V L_tail t) HT).
Qed.

(** ** Accesses the protocol does not depend on *)

(** Loads, and everything on the flags, the counters and the semaphores. *)
Definition ring_other (x : access ring_loc A) : bool :=
  let flag l := match l with L_closed | L_parked | L_count | L_dropped => true | _ => false end in
  match x with
  | ALoad _ l => negb (ring_plain l)
  | AStore _ l _ | AUpdate _ l _ | ACas l _ _ => flag l
  | APost _ | AWait _ | ANone => true
  | ATouch _ _ => false
  end.

Lemma ring_update_other o l f V t M' V' v :
  bounded ring_plain M V → ring_other (AUpdate o l f) = true → update o M V l f t = Some (M', V', v) →
  ring_ok cap N C M' log ∧ bounded ring_plain M' V' ∧ vle V V' ∧ count M' = count M ∧ cells M' L_tail = cells M L_tail.
Proof.
  intros HV Ho HU. assert (ring_plain l = false) as Hl by (by destruct l).
  destruct (update_ok _ _ _ _ l _ _ _ (r_mem HR) HV Hl HU) as (H1 & H2 & H3 & m & W & _ & _ & _ & _ & _ & _ & -> & _).
  split_and!; try done; [apply ring_other_msg; try done; by destruct l|]. cbn. destruct l; try done; by rewrite decide_False.
Qed.

Lemma perform_other x V t sp M' V' r :
  bounded ring_plain M V → ring_other x = true → perform x M V t sp = Some (M', V', r) →
  ring_ok cap N C M' log ∧ bounded ring_plain M' V' ∧ vle V V' ∧ count M' = count M ∧ cells M' L_tail = cells M L_tail.
Proof.
  intros HV Ho HP. pose proof (r_mem HR) as HM. destruct x; try done; cbn [perform] in HP.
  - apply bind_Some in HP as (y & HL & [= <- <- _]). assert (ring_plain l = false) as Hl by (by destruct l).
    by destruct (load_ok _ _ _ _ l _ _ HM HV Hl HL) as (H1 & H2 & _).
  - apply bind_Some in HP as ([M1 V1] & HS & [= <- <- _]). assert (ring_plain l = false) as Hl by (by destruct l).
    destruct (store_ok _ _ _ _ l _ _ _ HM HV Hl HS) as (H1 & H2 & H3 & _ & _ & EM). cbn [fst snd] in *. rewrite EM in *.
    split_and!; try done; [apply ring_other_msg; try done; by destruct l|]. cbn. destruct l; try done; by rewrite decide_False.
  - apply bind_Some in HP as ([[M1 V1] v] & HU & [= <- <- _]). by eapply (ring_update_other o l f).
  - apply bind_Some in HP as ([[M1 V1] b] & HC & [= <- <- _]). unfold cas in HC. apply bind_Some in HC as (m & _ & HC).
    destruct (_ && _); apply bind_Some in HC as (y & HU & [= <- <- _]).
    + destruct y as [[M2 V2] v]. by eapply (ring_update_other AcqRel l (λ _, d)).
    + assert (ring_plain l = false) as Hl by (by destruct l). by destruct (load_ok _ _ _ _ l _ _ HM HV Hl HU) as (H1 & H2 & _).
  - injection HP as <- <- _. split_and!; try done. apply ring_sem. by apply post_ok.
  - apply bind_Some in HP as ([M1 V1] & HS & [= <- <- _]).
    destruct (wait_ok _ _ _ _ _ HM HV HS) as (W1 & W2 & W3 & W4 & W5 & W6 & W7). cbn [fst snd] in *.
    split_and!; try done; [|by rewrite W4]. apply ring_frame; try done; intros; by rewrite W4.
  - by injection HP as <- <- _.
Qed.
End ring_lemmas.

(** ** The threads of a ring

    What a producer, the consumer and a closing thread know, apart from the code they run:
    a producer saw a head, wants to claim a position it saw free, has claimed one, owns one that is
    free, or has written one; the consumer has read some positions beyond the tail it
    stored, and may be about to read another. *)
Inductive role := Outside | Saw (head : Z) | Wants (head : Z) | Claimed (pos : Z) | Owner (pos : Z) | Writer (pos : Z).
Inductive reader (A : Type) := Caught | Reading (got : list A) | Copying (got : list A).
Arguments Caught {A}.
Arguments Reading {A} got.
Arguments Copying {A} got.

Section threads.
Context {A : Type}.
Implicit Types (M : mem ring_loc A) (V W : view ring_loc) (log : gmap Z A) (r : role) (ps : list (view ring_loc * role)).

(** The position a producer has claimed and not written. *)
Definition claim_of r : option Z := match r with Claimed pos | Owner pos => Some pos | _ => None end.

Definition knows (cap N C : Z) log V r : Prop :=
  match r with
  | Outside => True
  | Saw head => 0 <= head <= N
  | Wants head => 0 <= head <= N ∧ head < C + cap ∧ freed cap head V
  | Claimed pos => 0 <= pos < N ∧ log !! pos = None
  | Owner pos => 0 <= pos < N ∧ log !! pos = None ∧ pos < C + cap ∧ freed cap pos V
  | Writer pos => 0 <= pos < N ∧ is_Some (log !! pos) ∧ wrote cap pos V
  end.

(** [T] is the tail the consumer has stored, [C] how far it has read. *)
Definition reads (T C cap : Z) log V (c : reader A) : Prop :=
  let read got := C = T + clen got ∧ ∀ j x, got !! j = Some x → log !! (T + Z.of_nat j) = Some x in
  match c with
  | Caught => C = T
  | Reading got => read got
  | Copying got => read got ∧ is_Some (log !! C) ∧ wrote cap C V
  end.

(** [out] is what the consumer has taken off, [K] the view of the closing thread. *)
Record threads_ok (cap N C : Z) M log ps V (c : reader A) (out : list A) (K : view ring_loc) : Prop := {
  u_ring : ring_ok cap N C M log;
  u_view i W r : ps !! i = Some (W, r) → bounded ring_plain M W;
  u_knows i W r : ps !! i = Some (W, r) → knows cap N C log W r;
  u_uniq i j W W' r r' pos : ps !! i = Some (W, r) → ps !! j = Some (W', r') →
    claim_of r = Some pos → claim_of r' = Some pos → i = j;
  u_cview : bounded ring_plain M V ∧ taken cap C V;
  u_top t m : cells M L_tail !! t = Some m → t <= V L_tail ∧ (V L_tail <= t → m_val m = clen out);
  u_reads : reads (clen out) C cap log V c;
  u_out j x : out !! j = Some x → log !! Z.of_nat j = Some x;
  u_other : bounded ring_plain M K
}.

End threads.

Arguments u_ring {A cap N C M log ps V c out K} _.
Arguments u_view {A cap N C M log ps V c out K} _ i W r _.
Arguments u_knows {A cap N C M log ps V c out K} _ i W r _.
Arguments u_uniq {A cap N C M log ps V c out K} _ i j W W' r r' pos _ _ _ _.
Arguments u_cview {A cap N C M log ps V c out K} _.
Arguments u_top {A cap N C M log ps V c out K} _ t m _.
Arguments u_reads {A cap N C M log ps V c out K} _.
Arguments u_out {A cap N C M log ps V c out K} _ j x _.
Arguments u_other {A cap N C M log ps V c out K} _.

Section thread_lemmas.
Context {A : Type}.
Implicit Types (M : mem ring_loc A) (V W : view ring_loc) (log : gmap Z A) (r : role) (ps : list (view ring_loc * role)).

Lemma claim_none cap N C log V r pos : knows cap N C log V r → claim_of r = Some pos → 0 <= pos < N ∧ log !! pos = None.
Proof. destruct r; cbn; try done; intros Hp [= <-]; naive_solver. Qed.

(** A thread's knowledge survives the steps of the others. *)
Lemma knows_mono cap N N' C C' log log' V V' r :
  N <= N' → C <= C' → vle V V' → log ⊆ log' → (∀ pos, claim_of r = Some pos → log' !! pos = None) →
  knows cap N C log V r → knows cap N' C' log' V' r.
Proof.
  intros HN HC HV HL Hcl. destruct r; cbn in *; try done.
  - lia.
  - intros (? & ? & ?). split_and!; [lia..|by eapply freed_proper].
  - intros (? & ?). split_and!; [lia..|by apply Hcl].
  - intros (? & ? & ? & ?). split_and!; [lia..|by apply Hcl|lia|by eapply freed_proper].
  - intros (? & [x ?] & ?). split_and!; [lia..|exists x; by eapply lookup_weaken|by eapply wrote_proper].
Qed.

Lemma reads_mono T C cap log log' V V' c : log ⊆ log' → vle V V' → reads T C cap log V c → reads T C cap log' V' c.
Proof.
  intros HL HV. assert (∀ got : list A, (∀ j x, got !! j = Some x → log !! (T + Z.of_nat j) = Some x) →
    ∀ j x, got !! j = Some x → log' !! (T + Z.of_nat j) = Some x) as Hg by (intros got H j x Hj; eapply lookup_weaken; [by apply H|done]).
  destruct c; cbn; [done|intros [? ?]; split; [done|by apply Hg]|].
  intros ([? ?] & [x Hx] & ?). split_and!; [done|by apply Hg|exists x; by eapply lookup_weaken|by eapply wrote_proper].
Qed.

(** ** A step of a producer *)

Section users.
Context (cap N C : Z) (M : mem ring_loc A) (log : gmap Z A) (ps : list (view ring_loc * role)) (V : view ring_loc)
  (c : reader A) (out : list A) (K : view ring_loc) (HU : threads_ok cap N C M log ps V c out K).

Lemma threads_prod N' i W r W' r' M' log' :
  ps !! i = Some (W, r) → ring_ok cap N' C M' log' → N <= N' → (∀ l, count M l <= count M' l) →
  cells M' L_tail = cells M L_tail → bounded ring_plain M' W' → log ⊆ log' → knows cap N' C log' W' r' →
  (∀ j X q pos, j ≠ i → ps !! j = Some (X, q) → claim_of q = Some pos → log' !! pos = None ∧ claim_of r' ≠ Some pos) →
  threads_ok cap N' C M' log' (<[i := (W', r')]> ps) V c out K.
Proof.
  intros Hi HR HN Hc Ht HW HL Hk Ho. destruct HU.
  assert (∀ X, bounded ring_plain M X → bounded ring_plain M' X) as Hb by (intros X; by apply bounded_mono).
  split; try done.
  - intros j X q [[-> [= -> ->]]|[_ Hj]]%lookup_insert_cases; [done|]. eapply Hb, u_view0, Hj.
  - intros j X q [[-> [= -> ->]]|[Hne Hj]]%lookup_insert_cases; [done|].
    eapply (knows_mono _ N _ C C log); [lia|lia|reflexivity|done| |by eapply u_knows0]. intros pos Hq. by eapply Ho.
  - intros j1 j2 X1 X2 q1 q2 pos [[-> [= -> ->]]|[Hn1 H1]]%lookup_insert_cases
      [[-> [= -> ->]]|[Hn2 H2]]%lookup_insert_cases C1 C2; [done|..].
    + by destruct (Ho j2 X2 q2 pos Hn2 H2 C2).
    + by destruct (Ho j1 X1 q1 pos Hn1 H1 C1).
    + by eapply u_uniq0.
  - split; [apply Hb|]; apply u_cview0.
  - by rewrite Ht.
  - by eapply reads_mono; [exact HL|reflexivity|].
  - intros j x Hj. eapply lookup_weaken; [by apply u_out0|done].
  - by apply Hb.
Qed.

(** Nobody else holds a claim, unless it is not written. *)
Lemma others_unwritten i W r j X q pos :
  ps !! i = Some (W, r) → j ≠ i → ps !! j = Some (X, q) → claim_of q = Some pos → log !! pos = None ∧ claim_of r ≠ Some pos.
Proof.
  intros Hi Hne Hj Hq. split; [by eapply claim_none; [eapply (u_knows HU)|]|].
  intros Hr. apply Hne. by eapply (u_uniq HU j i).
Qed.

(** Accesses that claim and write nothing. *)
Lemma threads_quiet i W r W' r' M' :
  ps !! i = Some (W, r) → ring_ok cap N C M' log → count M' = count M → cells M' L_tail = cells M L_tail →
  bounded ring_plain M' W' → knows cap N C log W' r' → (claim_of r' = None ∨ claim_of r' = claim_of r) →
  threads_ok cap N C M' log (<[i := (W', r')]> ps) V c out K.
Proof.
  intros Hi HR Hc Ht HW Hk Hcl. eapply threads_prod; try done.
  - rewrite Hc. intros; lia.
  - intros j X q pos Hne Hj Hq. destruct (others_unwritten i W r j X q pos Hi Hne Hj Hq). split; [done|].
    destruct Hcl as [->| ->]; [done|done].
Qed.

(** A load: the memory stays, the view grows. *)
Lemma threads_load i W r l t y r' :
  ps !! i = Some (W, r) → ring_plain l = false → load Acquire M W l t = Some y →
  (vle W (snd y) → knows cap N C log W r → knows cap N C log (snd y) r') →
  (claim_of r' = None ∨ claim_of r' = claim_of r) →
  threads_ok cap N C M log (<[i := (snd y, r')]> ps) V c out K.
Proof.
  intros Hi Hl HL Hok Hcl. pose proof (u_ring HU) as HR.
  destruct (load_ok _ _ _ _ l _ _ (r_mem HR) (u_view HU i W r Hi) Hl HL) as (L1 & L2 & _).
  eapply threads_quiet; try done. apply Hok; [done|by eapply (u_knows HU)].
Qed.

(** Accesses outside the protocol. *)
Lemma threads_other i W r x t sp M' W' a :
  ps !! i = Some (W, r) → perform x M W t sp = Some (M', W', a) → ring_other x = true →
  threads_ok cap N C M' log (<[i := (W', Outside)]> ps) V c out K.
Proof.
  intros Hi HP Hx. pose proof (u_ring HU) as HR.
  destruct (perform_other _ _ _ _ _ HR x W t sp M' W' a (u_view HU i W r Hi) Hx HP) as (H1 & H2 & _ & H4 & H5).
  eapply threads_quiet; try done. by left.
Qed.

(** A producer that reads [head] before [tail]. *)
Lemma threads_head i W r t y :
  ps !! i = Some (W, r) → claim_of r = None → load Acquire M W L_head t = Some y →
  threads_ok cap N C M log (<[i := (snd y, Saw (fst y))]> ps) V c out K.
Proof.
  intros Hi Hr HL. eapply (threads_load i W r L_head); try done; [|by left].
  intros _ _. by eapply (head_loaded _ _ _ _ _ (u_ring HU)); [eapply (u_view HU i W r Hi)|].
Qed.

Lemma threads_tail i W head t y :
  ps !! i = Some (W, Saw head) → N < 2 ^ 64 → load Acquire M W L_tail t = Some y → usub head (fst y) < cap →
  threads_ok cap N C M log (<[i := (snd y, Wants head)]> ps) V c out K.
Proof.
  intros Hi HN HL Hlt. pose proof (u_ring HU) as HR.
  destruct (tail_loaded _ _ _ _ _ HR W t y (u_view HU i W _ Hi) HL) as (H1 & H2 & H3 & _).
  pose proof (r_pos HR). pose proof (r_cap HR). pose proof (u_knows HU i W _ Hi) as Hs. cbn in Hs.
  assert (head - fst y < cap) as Hd.
  { destruct (Z.le_gt_cases (fst y) head); [unfold usub in Hlt; rewrite u64_id in Hlt by (split; lia); lia|]. lia. }
  eapply (threads_load i W _ L_tail); try done; [|by left]. intros _ _. split; [done|].
  eapply (freed_by_tail _ _ _ _ _ HR _ head (fst y)); [apply H3|lia|lia|lia|done].
Qed.

(** A claim of the next position; the claimant owns it if it knew it to be free. *)
Lemma threads_claim i W r f t M' W' v r' :
  ps !! i = Some (W, r) → (v = N → f v = N + 1) → update AcqRel M W L_head f t = Some (M', W', v) →
  claim_of r' = Some v → (vle W W' → knows cap N C log W r → v = N → log !! N = None → knows cap (N + 1) C log W' r') →
  v = N ∧ threads_ok cap (N + 1) C M' log (<[i := (W', r')]> ps) V c out K.
Proof.
  intros Hi Hf HUp Hr' Hk. pose proof (u_ring HU) as HR. pose proof (u_view HU i W r Hi) as HW.
  destruct (ring_claim _ _ _ _ _ HR f W t M' W' v HW Hf HUp) as (-> & HR' & HW' & Hle & Ec). split; [done|].
  assert (cells M' L_tail = cells M L_tail) as Et.
  { by destruct (update_ok _ _ _ _ L_head _ _ _ (r_mem HR) HW eq_refl HUp) as (_ & _ & _ & m & X & _ & _ & _ & _ & _ & _ & -> & _). }
  pose proof (r_pos HR). assert (log !! N = None) as Hnone.
  { destruct (log !! N) eqn:E; [|done]. destruct (r_log HR N); [by eexists|lia]. }
  eapply threads_prod; try done.
  - lia.
  - rewrite Ec. intros; lia.
  - apply Hk; try done. by eapply (u_knows HU).
  - intros j X q pos Hne Hj Hq. destruct (claim_none _ _ _ _ _ _ _ (u_knows HU j X q Hj) Hq).
    split; [done|]. rewrite Hr'. intros [= <-]. lia.
Qed.

(** What a load of the tail tells a claimant. *)
Lemma claimed_tail i W r pos t y :
  ps !! i = Some (W, r) → claim_of r = Some pos → N < 2 ^ 64 → load Acquire M W L_tail t = Some y →
  0 <= fst y <= pos ∧ usub pos (fst y) = pos - fst y ∧ (pos - fst y < cap → pos < C + cap ∧ freed cap pos (snd y)).
Proof.
  intros Hi Hcl HN HL. pose proof (u_ring HU) as HR.
  destruct (tail_loaded _ _ _ _ _ HR W t y (u_view HU i W r Hi) HL) as (H1 & H2 & H3 & _).
  destruct (claim_none _ _ _ _ _ _ _ (u_knows HU i W r Hi) Hcl) as [Hp Hnone].
  assert (C <= pos) as HC.
  { destruct (Z.le_gt_cases C pos); [done|]. destruct (r_done HR pos) as [? ?]; [lia|]. congruence. }
  split; [lia|]. split; [unfold usub; apply u64_id; split; lia|]. intros Hlt.
  eapply (freed_by_tail _ _ _ _ _ HR _ pos (fst y)); [apply H3|lia|lia|lia|done].
Qed.

Lemma threads_write i W pos a M' W' b :
  ps !! i = Some (W, Owner pos) → touch M W (L_slot (pos mod cap)) a = (M', W', b) →
  log !! pos = None ∧ threads_ok cap N C M' (<[pos := a]> log) (<[i := (W', Writer pos)]> ps) V c out K.
Proof.
  intros Hi HT. pose proof (u_ring HU) as HR.
  destruct (u_knows HU i W _ Hi) as (Hp & Hnone & Hroom & Hf). split; [done|].
  destruct (ring_write _ _ _ _ _ HR W pos a M' W' b (u_view HU i W _ Hi) Hnone Hp Hroom Hf HT) as (HR' & HW' & _ & Hw & Hc).
  eapply threads_prod; try done.
  - unfold touch in HT. by injection HT as <- _ _.
  - by apply insert_subseteq.
  - cbn. split_and!; try lia; [by rewrite lookup_insert_eq; eexists|done].
  - intros j X q pos' Hne Hj Hq. split; [|done]. destruct (others_unwritten i W _ j X q pos' Hi Hne Hj Hq) as [H1 H2].
    rewrite lookup_insert_ne; [done|]. cbn in H2. congruence.
Qed.

Lemma threads_publish i W pos t y :
  ps !! i = Some (W, Writer pos) → N < 2 ^ 64 → store Release M W (L_seq (pos mod cap)) (u64 (pos + 1)) t = Some y →
  threads_ok cap N C (fst y) log (<[i := (snd y, Outside)]> ps) V c out K.
Proof.
  intros Hi HN HS. pose proof (u_ring HU) as HR. pose proof (u_view HU i W _ Hi) as HW.
  destruct (u_knows HU i W _ Hi) as (Hp & Hlog & Hw).
  destruct (ring_publish _ _ _ _ _ HR W pos t y HW ltac:(lia) ltac:(lia) Hlog Hw HS) as (HR' & HV' & _ & Ec).
  eapply threads_quiet; try done; [|by left].
  by destruct (store_ok _ _ _ _ (L_seq (pos mod cap)) _ _ _ (r_mem HR) HW eq_refl HS) as (_ & _ & _ & _ & _ & ->).
Qed.

(** ** A step of the consumer *)

Lemma threads_cons C' M' V' c' out' :
  ring_ok cap N C' M' log → C <= C' → (∀ l, count M l <= count M' l) → bounded ring_plain M' V' → taken cap C' V' →
  (∀ t m, cells M' L_tail !! t = Some m → t <= V' L_tail ∧ (V' L_tail <= t → m_val m = clen out')) →
  reads (clen out') C' cap log V' c' → (∀ j x, out' !! j = Some x → log !! Z.of_nat j = Some x) →
  threads_ok cap N C' M' log ps V' c' out' K.
Proof.
  intros HR HC Hc HV HT Htop Hok Hout. destruct HU.
  assert (∀ W, bounded ring_plain M W → bounded ring_plain M' W) as Hb by (intros W; by apply bounded_mono).
  split; try done.
  - intros i W r Hi. eapply Hb, u_view0, Hi.
  - intros i W r Hi. eapply (knows_mono _ N _ C _ log); [lia|lia|reflexivity|done| |by eapply u_knows0].
    intros pos Hp. by eapply claim_none; [eapply u_knows0|].
  - by apply Hb.
Qed.

(** A view that grew knows at least as much of the tail. *)
Lemma top_mono V' :
  vle V V' → ∀ t m, cells M L_tail !! t = Some m → t <= V' L_tail ∧ (V' L_tail <= t → m_val m = clen out).
Proof. intros HV t m Hm. destruct (u_top HU t m Hm) as [H1 H2]. specialize (HV L_tail). split; [lia|]. intros. apply H2. lia. Qed.

(** A step that leaves the memory of the ring alone. *)
Lemma threads_cons_other x t sp M' V' a c' :
  perform x M V t sp = Some (M', V', a) → ring_other x = true → (vle V V' → reads (clen out) C cap log V' c') →
  threads_ok cap N C M' log ps V' c' out K.
Proof.
  intros HP Hx Hok. pose proof (u_ring HU) as HR. destruct (u_cview HU) as [HV HT].
  destruct (perform_other _ _ _ _ _ HR x V t sp M' V' a HV Hx HP) as (H1 & H2 & Hle & H4 & H5).
  eapply threads_cons; try done.
  - rewrite H4. intros; lia.
  - by eapply taken_proper.
  - rewrite H5. by apply top_mono.
  - by apply Hok.
  - apply HU.
Qed.

(** The consumer, the only writer of the tail, finds the tail it stored. *)
Lemma own_tail t y : load Acquire M V L_tail t = Some y → fst y = clen out.
Proof.
  intros HL. destruct (u_cview HU) as [HV _]. pose proof (u_ring HU) as HR.
  destruct (load_ok _ _ _ _ L_tail _ _ (r_mem HR) HV eq_refl HL) as (_ & _ & m & Em & -> & Ht & _).
  by apply (u_top HU t m Em).
Qed.

(** The position of the batch, without wrap-around. *)
Lemma batch_pos (got : list A) : C = clen out + clen got → N < 2 ^ 64 - 1 → u64 (clen out + clen got) = C ∧ u64 (C + 1) = C + 1.
Proof.
  intros E HN. pose proof (r_pos (u_ring HU)). rewrite <- E. split; apply u64_id; split; lia.
Qed.

(** The counter of the next slot: published, or not seen to be. *)
Lemma threads_seq got t y :
  c = Reading got → load Acquire M V (L_seq (C mod cap)) t = Some y →
  (fst y = C + 1 → threads_ok cap N C M log ps (snd y) (Copying got) out K) ∧
  threads_ok cap N C M log ps (snd y) (Reading got) out K ∧
  (got = [] → threads_ok cap N C M log ps (snd y) Caught out K).
Proof.
  intros Er HL. pose proof (u_reads HU) as Hr. rewrite Er in Hr. destruct (u_cview HU) as [HV _]. pose proof (u_ring HU) as HR.
  destruct (seq_loaded _ _ _ _ _ HR V t C y HV ltac:(apply HR) HL) as (_ & _ & Hseq).
  assert (perform (ALoad Acquire (L_seq (C mod cap))) M V t false = Some (M, snd y, Val (fst y))) as HP by (cbn; by rewrite HL).
  destruct Hr as [E Hgot].
  split_and!; intros; eapply threads_cons_other; try done.
  - intros _. by destruct (Hseq ltac:(done)).
  - intros _. subst got. change (clen []) with 0 in E. cbn. lia.
Qed.

(** The next slot is read, and cleared or not by [f]. *)
Lemma threads_take got (f : A → A) M' V' b :
  c = Copying got → touch M V (L_slot (C mod cap)) (f (plain M (L_slot (C mod cap)))) = (M', V', b) →
  log !! C = Some b ∧ threads_ok cap N (C + 1) M' log ps V' (Reading (got ++ [b])) out K.
Proof.
  intros Er HT. pose proof (u_reads HU) as Hr. rewrite Er in Hr. destruct (u_cview HU) as [HV Htk]. pose proof (u_ring HU) as HR.
  destruct Hr as ([E Hgot] & Hs & Hw).
  destruct (ring_take _ _ _ _ _ HR V f M' V' b HV Hs Hw Htk HT) as (Hb & HR' & HV' & Hle & HT' & Hc). split; [done|].
  eapply threads_cons; try done; [lia| | |apply HU].
  - unfold touch in HT. injection HT as <- _ _. cbn [cells]. by apply top_mono.
  - cbn. rewrite clen_app. change (clen [b]) with 1. split; [lia|].
    intros j x [Hj|[Hj Hx]]%lookup_app_Some; [by apply Hgot|]. apply list_lookup_singleton_Some in Hx as [Hj0 <-].
    replace (clen out + Z.of_nat j) with C by (unfold clen in E |- *; lia). done.
Qed.

(** The batch is delivered. *)
Lemma threads_deliver got t y :
  c = Reading got → store Release M V L_tail C t = Some y →
  threads_ok cap N C (fst y) log ps (snd y) Caught (out ++ got) K.
Proof.
  intros Er HS. pose proof (u_reads HU) as Hr. rewrite Er in Hr. destruct (u_cview HU) as [HV Htk]. pose proof (u_ring HU) as HR.
  pose proof (r_pos HR). destruct Hr as [E Hgot].
  destruct (ring_release_tail _ _ _ _ _ HR V t C y HV ltac:(lia) Htk HS) as (HR' & HV' & Hle & Ec & Hlt & EV & EM).
  assert (clen (out ++ got) = C) as Hout by (rewrite clen_app; lia).
  eapply threads_cons; try done; rewrite ?Hout; try done.
  - rewrite Ec. intros; lia.
  - by eapply taken_proper.
  - intros t' m. rewrite EM, EV. cbn [cells add_msg]. rewrite decide_True, vset_eq by done.
    rewrite lookup_insert_Some. intros [[<- <-]|[Hne Hm]]; [split; [lia|done]|].
    destruct (u_top HU t' m Hm). split; lia.
  - intros j x [Hj|[Hj Hx]]%lookup_app_Some; [by eapply (u_out HU)|].
    rewrite <- (Hgot _ _ Hx). f_equal. unfold clen. lia.
Qed.

(** ** A step of a thread outside *)

Lemma threads_closer x t sp M' K' a :
  perform x M K t sp = Some (M', K', a) → ring_other x = true → threads_ok cap N C M' log ps V c out K'.
Proof.
  intros HP Hx. pose proof (u_ring HU) as HR.
  destruct (perform_other _ _ _ _ _ HR x K t sp M' K' a (u_other HU) Hx HP) as (H1 & H4 & _ & H2 & H3).
  assert (∀ W, bounded ring_plain M W → bounded ring_plain M' W) as Hb by (intros W; by apply bounded_ext).
  destruct HU. split; try done.
  - intros i W r Hi. eapply Hb, u_view0, Hi.
  - split; [apply Hb|]; apply u_cview0.
  - by rewrite H3.
Qed.
End users.

(** ** The start *)

Definition first_msg (v : Z) : gmap Z (msg ring_loc) := {[0 := Msg v vbot]}.

Lemma first_msg_Some v t m : first_msg v !! t = Some m → t = 0 ∧ m = Msg v vbot.
Proof. unfold first_msg. rewrite lookup_singleton_Some. by intros [<- <-]. Qed.

(** Every variable of the ring has its first value, and the counter of slot [i] is [i]. *)
Definition fresh_ring M : Prop :=
  (∀ l, cells M l = ∅ ∨ ∃ v, cells M l = first_msg v) ∧ cells M L_head = first_msg 0 ∧ cells M L_tail = first_msg 0 ∧
  (∀ i, cells M (L_seq i) = first_msg i) ∧ (∀ l, count M l = 0 ∧ snd (sems M l) = vbot) ∧ raced M = false.

Lemma threads_init cap M n :
  0 < cap → fresh_ring M → threads_ok cap 0 0 M ∅ (replicate n (vbot, Outside)) vbot Caught [] vbot.
Proof.
  intros Hc (F0 & F1 & F2 & F3 & F4 & F5).
  assert (bounded ring_plain M vbot) as Hb by (split; intros l; [done|intros _; by rewrite (proj1 (F4 l))]).
  assert (∀ i W r, replicate n (@vbot ring_loc, Outside) !! i = Some (W, r) → W = vbot ∧ r = Outside) as Hr.
  { intros i W r [[= -> ->] _]%lookup_replicate. done. }
  split; try done.
  - split; try done.
    + split; [|intros l; by rewrite (proj2 (F4 l))|intros l; by rewrite (proj1 (F4 l))].
      intros l t m. destruct (F0 l) as [->|[v ->]]; [by rewrite lookup_empty|]. intros [-> ->]%first_msg_Some. done.
    + rewrite F1. intros t x [-> ->]%first_msg_Some. done.
    + intros t Ht. assert (t = 0) as -> by lia. rewrite F1. exists (Msg 0 vbot). apply lookup_singleton_eq.
    + rewrite F2. intros t x [-> ->]%first_msg_Some. cbn. split; [done|]. intros pos Hp. lia.
    + intros i t x Hi. rewrite F3. intros [-> ->]%first_msg_Some. by left.
    + intros pos [x Hx]. by rewrite lookup_empty in Hx.
    + intros pos Hp. lia.
    + intros pos Hp. rewrite Z.div_small by lia. rewrite (proj1 (F4 _)). by rewrite lookup_empty.
  - intros i W r Hi. by destruct (Hr _ _ _ Hi) as [-> ->].
  - intros i W r Hi. by destruct (Hr _ _ _ Hi) as [-> ->].
  - intros i j W W' r r' pos Hi. by destruct (Hr _ _ _ Hi) as [-> ->].
  - split; [done|]. intros pos Hp. lia.
  - rewrite F2. intros t x [-> ->]%first_msg_Some. by split.
Qed.
End thread_lemmas.
