(* ===== verification/QueueWeak.v ===== *)
(** * The queue under release/acquire memory (core/queue.c with include/clog_port.h)

    The same code as Queue.v, one shared access per step, over the memory of WeakMem.v
    with the orders the GNU branches of the atomics ask for: loads acquire, stores
    release, [fetch_add] and compare-and-swap do both, and the records are accessed
    without atomics.  The theorems quantify over every choice of the memory. *)
From S2P Require Import Prelude WeakMem Queue WeakRing.

Local Open Scope Z_scope.

Section machine.
Context {A : Type}.

(** [pos & q->mask]. *)
Definition slot_at (cap pos : Z) : Z := Z.land pos (cap - 1).

(** ** The next access of each thread; [None] stands for a tombstone *)

Definition prod_access (cap : Z) (p : ppc A) : access ring_loc (option A) :=
  match p with
  | P_idle => ANone
  | P_closed _ => ALoad Acquire L_closed
  | P_tail _ => ALoad Acquire L_tail
  | P_head _ _ => ALoad Acquire L_head
  | P_claim _ => AUpdate AcqRel L_head (λ v, u64 (v + 1))
  | P_recheck _ _ => ALoad Acquire L_tail
  | P_spin _ _ _ _ => ALoad Acquire L_tail
  | P_tomb _ pos => ATouch (L_slot (slot_at cap pos)) (λ _, None)
  | P_write o pos => ATouch (L_slot (slot_at cap pos)) (λ _, Some (op_rec o))
  | P_publish _ pos _ => AStore Release (L_seq (slot_at cap pos)) (u64 (pos + 1))
  | P_signal _ _ => ACas L_parked 1 0
  | P_post _ _ => APost L_items
  | P_ret _ _ => ANone
  | P_put_closed _ => ALoad Acquire L_closed
  | P_put_wait _ => AWait L_slots
  end.

Definition cons_access (cap max_records : Z) (c : cpc A) : access ring_loc (option A) :=
  match c with
  | C_idle | C_finished => ANone
  | C_head1 | C_head2 | C_batch_head | C_rem_head => ALoad Acquire L_head
  | C_tail1 _ | C_tail2 _ | C_batch_tail _ | C_rem_tail _ => ALoad Acquire L_tail
  | C_closed1 | C_closed2 => ALoad Acquire L_closed
  | C_park => AStore Release L_parked 1
  | C_sem => AWait L_items
  | C_unpark_loop | C_unpark_ok | C_unpark_closed => AStore Release L_parked 0
  | C_seq tail available got =>
      if (clen got <? available) && (clen got <? max_records)
      then ALoad Acquire (L_seq (slot_at cap (u64 (tail + clen got)))) else ANone
  | C_copy tail _ got => ATouch (L_slot (slot_at cap (u64 (tail + clen got)))) id
  | C_store tail got => AStore Release L_tail (u64 (tail + clen got))
  | C_slots n => match n with O => ANone | S _ => APost L_slots end
  | C_drain => ANone
  end.

Definition close_access (k : kpc) : access ring_loc (option A) :=
  match k with
  | K_idle | K_done | K_drain => ANone
  | K_closed => AStore Release L_closed 1
  | K_items => APost L_items
  | K_slots n => match n with O => ANone | S _ => APost L_slots end
  end.

(** ** Where it goes from there, given the value it was answered *)

Definition prod_after (cap : Z) (p : ppc A) (v : Z) : ppc A :=
  match p with
  | P_idle => P_idle
  | P_closed o => if v =? 0 then P_tail o else P_ret o (-1)
  | P_tail o => P_head o v
  | P_head o tail_snap => if usub v tail_snap >=? cap then P_ret o (-1) else P_claim o
  | P_claim o => P_recheck o v
  | P_recheck o pos =>
      if usub pos v >=? cap then if pos >=? cap then P_spin o pos v 0 else P_tomb o pos else P_write o pos
  | P_spin o pos last_tail stalls =>
      if v >? usub pos cap then P_tomb o pos
      else if negb (v =? last_tail) then P_spin o pos v 0
      else if stalls + 1 >? 1000000 then P_ret o (-1)
      else P_spin o pos last_tail (stalls + 1)
  | P_tomb o pos => P_publish o pos None
  | P_write o pos => P_publish o pos (Some (op_rec o))
  | P_publish o pos c => P_signal o (match c with Some _ => 0 | None => -1 end)
  | P_signal o ret => if v =? 0 then P_ret o ret else P_post o ret
  | P_post o ret => P_ret o ret
  | P_ret o ret => if negb (ret =? 0) && op_blocking o then P_put_closed o else P_idle
  | P_put_closed o => if v =? 0 then P_put_wait o else P_idle
  | P_put_wait o => P_closed o
  end.

Definition cons_after (max_records : Z) (c : cpc A) (v : Z) (r : option A) : cpc A :=
  match c with
  | C_idle => C_idle
  | C_finished => C_finished
  | C_head1 => C_tail1 v
  | C_tail1 head => if usub head v >? 0 then C_batch_head else C_closed1
  | C_closed1 => if v =? 0 then C_park else C_finished
  | C_park => C_head2
  | C_head2 => C_tail2 v
  | C_tail2 head => if usub head v >? 0 then C_unpark_ok else C_closed2
  | C_closed2 => if v =? 0 then C_sem else C_unpark_closed
  | C_sem => C_unpark_loop
  | C_unpark_loop => C_head1
  | C_unpark_ok => C_batch_head
  | C_unpark_closed => C_finished
  | C_batch_head => C_batch_tail v
  | C_batch_tail head => if usub head v =? 0 then C_idle else C_seq v (usub head v) []
  | C_seq tail available got =>
      let stop := if clen got =? 0 then C_idle else C_store tail got in
      if (clen got <? available) && (clen got <? max_records) then
        if negb (v =? u64 (u64 (tail + clen got) + 1)) then stop else C_copy tail available got
      else stop
  | C_copy tail available got => C_seq tail available (got ++ [r])
  | C_store tail got => C_slots (length got)
  | C_slots n => match n with O => C_rem_head | S n' => C_slots n' end
  | C_rem_head => C_rem_tail v
  | C_rem_tail head => if usub head v =? 0 then C_drain else C_idle
  | C_drain => C_idle
  end.

Definition close_after (cap : Z) (k : kpc) : kpc :=
  match k with
  | K_idle => K_idle
  | K_closed => K_items
  | K_items => K_slots (Z.to_nat cap)
  | K_slots n => match n with O => K_drain | S n' => K_slots n' end
  | K_drain => K_done
  | K_done => K_done
  end.

(** ** The machine *)

(** [w_log], [w_out] and [w_rets] are ghost: what was written at each position, what the
    consumer has taken off the queue, in order, and what the finished calls returned. *)
Record wstate := WState {
  w_cap : Z;
  w_mem : mem ring_loc (option A);
  w_prods : list (view ring_loc * ppc A);
  w_cons : view ring_loc * cpc A;
  w_closer : view ring_loc * kpc;
  w_log : gmap Z (option A);
  w_out : list (option A);
  w_rets : list (A * Z)
}.

(** [mpsc_queue_create], before the queue is shared. *)
Definition weak_mem (cap : Z) : mem ring_loc (option A) :=
  Mem (λ l, match l with L_seq i => first_msg i | L_head | L_tail | L_closed | L_parked => first_msg 0 | _ => ∅ end)
    (λ _, None) (λ _, 0) (λ l, match l with L_slots => (cap, vbot) | _ => (0, vbot) end) false.

Definition w_init (cap : Z) (n : nat) : wstate :=
  WState cap (weak_mem cap) (replicate n (vbot, P_idle)) (vbot, C_idle) (vbot, K_idle) ∅ [] [].

Definition answer_val (r : answer (option A)) : Z := match r with Val v => v | _ => 0 end.
Definition answer_rec (r : answer (option A)) : option A := match r with Content c => c | _ => None end.

(** Ghost: a write enters the log, a return the list of returns. *)
Definition log_after (p : ppc A) (log : gmap Z (option A)) : gmap Z (option A) :=
  match p with
  | P_tomb _ pos => <[pos := None]> log
  | P_write o pos => <[pos := Some (op_rec o)]> log
  | _ => log
  end.
Definition rets_after (p p' : ppc A) (rets : list (A * Z)) : list (A * Z) :=
  match p, p' with
  | P_ret o ret, P_idle => rets ++ [(op_rec o, ret)]
  | P_put_closed o, P_idle => rets ++ [(op_rec o, -1)]
  | _, _ => rets
  end.

Definition prod_idle (p : ppc A) : bool := match p with P_idle => true | _ => false end.

(** One access of producer [i], of the consumer, of the closer; [t] and [spurious] are the
    choices of the memory. *)
Definition wprod_step (s : wstate) (i : nat) (t : Z) (spurious : bool) : option wstate :=
  '(V, p) ← w_prods s !! i;
  if prod_idle p then None else
  '(M, V', r) ← perform (prod_access (w_cap s) p) (w_mem s) V t spurious;
  let p' := prod_after (w_cap s) p (answer_val r) in
  Some (WState (w_cap s) M (<[i := (V', p')]> (w_prods s)) (w_cons s) (w_closer s)
          (log_after p (w_log s)) (w_out s) (rets_after p p' (w_rets s))).

Definition wcons_step (s : wstate) (max_records t : Z) : option wstate :=
  '(M, V', r) ← perform (cons_access (w_cap s) max_records (snd (w_cons s))) (w_mem s) (fst (w_cons s)) t false;
  Some (WState (w_cap s) M (w_prods s)
          (V', cons_after max_records (snd (w_cons s)) (answer_val r) (answer_rec r)) (w_closer s) (w_log s)
          (match snd (w_cons s) with C_store _ got => w_out s ++ got | _ => w_out s end) (w_rets s)).

Definition wclose_step (s : wstate) (t : Z) : option wstate :=
  '(M, V', _) ← perform (A := option A) (close_access (snd (w_closer s))) (w_mem s) (fst (w_closer s)) t false;
  Some (WState (w_cap s) M (w_prods s) (w_cons s) (V', close_after (w_cap s) (snd (w_closer s)))
          (w_log s) (w_out s) (w_rets s)).

Inductive waction :=
  | WProd (i : nat) (t : Z) (spurious : bool) | WCons (max_records t : Z) | WClose (t : Z)
  | WStartPut (i : nat) (o : op A) | WStartWait | WStartBatch | WStartClose.

Definition set_wcons (s : wstate) (c : cpc A) : wstate :=
  WState (w_cap s) (w_mem s) (w_prods s) (fst (w_cons s), c) (w_closer s) (w_log s) (w_out s) (w_rets s).

Definition wqexec (s : wstate) (a : waction) : option wstate :=
  match a with
  | WProd i t sp => wprod_step s i t sp
  | WCons m t => wcons_step s m t
  | WClose t => wclose_step s t
  | WStartPut i o =>
      match w_prods s !! i with
      | Some (V, P_idle) =>
          Some (WState (w_cap s) (w_mem s) (<[i := (V, P_closed o)]> (w_prods s)) (w_cons s) (w_closer s)
                  (w_log s) (w_out s) (w_rets s))
      | _ => None
      end
  | WStartWait => match snd (w_cons s) with C_idle => Some (set_wcons s C_head1) | _ => None end
  | WStartBatch => match snd (w_cons s) with C_idle => Some (set_wcons s C_batch_head) | _ => None end
  | WStartClose =>
      match snd (w_closer s) with
      | K_idle => Some (WState (w_cap s) (w_mem s) (w_prods s) (w_cons s) (fst (w_closer s), K_closed)
                          (w_log s) (w_out s) (w_rets s))
      | _ => None
      end
  end.

Inductive wsteps : nat → wstate → wstate → Prop :=
  | wsteps_O s : wsteps O s s
  | wsteps_S n s s1 s2 a : wsteps n s s1 → wqexec s1 a = Some s2 → wsteps (S n) s s2.

Fixpoint wqexec_all (s : wstate) (l : list waction) : option wstate :=
  match l with [] => Some s | a :: l' => s1 ← wqexec s a; wqexec_all s1 l' end.

Lemma wqexec_all_steps n s s1 s2 l :
  wsteps n s s1 → wqexec_all s1 l = Some s2 → wsteps (length l + n) s s2.
Proof.
  revert n s1. induction l as [|a l IH]; intros n s1 H; cbn; [by intros [= <-]|].
  destruct (wqexec s1 a) as [s'|] eqn:E; [|done]. cbn. intros HL.
  replace (S (length l + n))%nat with (length l + S n)%nat by lia. eapply IH; [by econstructor|done].
Qed.
End machine.

Arguments wstate : clear implicits.
Arguments waction : clear implicits.

(** ** The invariant *)

Section invariant.
Context {A : Type}.
Implicit Types (s : wstate A) (p : ppc A) (c : cpc A) (V : view ring_loc).

Definition role_of p : role :=
  match p with
  | P_recheck _ pos | P_spin _ pos _ _ => Claimed pos
  | P_tomb _ pos | P_write _ pos => Owner pos
  | P_publish _ pos _ => Writer pos
  | _ => Outside
  end.
Definition with_role (x : view ring_loc * ppc A) : view ring_loc * role := (fst x, role_of (snd x)).

Definition reader_of c : reader (option A) :=
  match c with
  | C_seq _ _ got | C_store _ got => Reading got
  | C_copy _ _ got => Copying got
  | _ => Caught
  end.

(** What the program counters say without the memory. *)
Definition ppc_ok (cap : Z) p : Prop :=
  match p with
  | P_spin _ pos _ _ => cap <= pos
  | P_publish o _ c => c = None ∨ c = Some (op_rec o)
  | _ => True
  end.
Definition cpc_ok (T : Z) c : Prop :=
  match c with C_seq t _ _ | C_copy t _ _ | C_store t _ => t = T | _ => True end.

(** Whose record is in the log: of the calls that returned 0 and of those past their write. *)
Definition w_inflight (x : view ring_loc * ppc A) : option A :=
  match snd x with P_publish _ _ c => c | p => inflight p end.

Record wqinv (n N C : Z) s : Prop := {
  x_cap : ∃ k, 0 <= k <= 62 ∧ w_cap s = 2 ^ k;
  x_n : N <= n;
  x_threads : threads_ok (w_cap s) N C (w_mem s) (w_log s) (with_role <$> w_prods s)
    (fst (w_cons s)) (reader_of (snd (w_cons s))) (w_out s) (fst (w_closer s));
  x_pc i V p : w_prods s !! i = Some (V, p) → ppc_ok (w_cap s) p;
  x_tail : cpc_ok (clen (w_out s)) (snd (w_cons s));
  x_perm : omap snd (map_to_list (w_log s)) ≡ₚ omap accepted_ret (w_rets s) ++ omap w_inflight (w_prods s)
}.

Lemma slot_at_mod k cap pos : cap = 2 ^ k → 0 <= k → slot_at cap pos = pos mod cap.
Proof.
  intros -> Hk. unfold slot_at. replace (2 ^ k - 1) with (Z.ones k) by (rewrite Z.ones_equiv; lia).
  by rewrite Z.land_ones.
Qed.

Lemma wqinv_slot n N C s pos : wqinv n N C s → slot_at (w_cap s) pos = pos mod w_cap s.
Proof. intros H. destruct (x_cap _ _ _ _ H) as (k & Hk & E). eapply slot_at_mod; [exact E|lia]. Qed.

Lemma wqinv_weaken n n' N C s : wqinv n N C s → n <= n' → wqinv n' N C s.
Proof. intros [] ?. split; try done. lia. Qed.

(** ** A step of a producer *)

Section producer.
Context (n N C : Z) (s : wstate A) (i : nat) (V : view ring_loc) (p : ppc A) (HI : wqinv n N C s)
  (Hn : n < 2 ^ 62) (Hi : w_prods s !! i = Some (V, p)).

Abbreviation moved M' V' p' log' rets' :=
  (WState (w_cap s) M' (<[i := (V', p')]> (w_prods s)) (w_cons s) (w_closer s) log' (w_out s) rets').
Abbreviation threads N' M' log' V' r' :=
  (threads_ok (w_cap s) N' C M' log' (<[i := (V', r')]> (with_role <$> w_prods s))
    (fst (w_cons s)) (reader_of (snd (w_cons s))) (w_out s) (fst (w_closer s))).

Lemma role_at : (with_role <$> w_prods s) !! i = Some (V, role_of p).
Proof. by rewrite list_lookup_fmap, Hi. Qed.

Lemma wqinv_prod n' N' M' V' p' log' rets' :
  threads N' M' log' V' (role_of p') → N' <= n' → ppc_ok (w_cap s) p' →
  omap snd (map_to_list log') ≡ₚ omap accepted_ret rets' ++ omap w_inflight (<[i := (V', p')]> (w_prods s)) →
  wqinv n' N' C (moved M' V' p' log' rets').
Proof.
  intros HT HN Hp Hperm. destruct HI. split; cbn; try done.
  - rewrite list_fmap_insert. exact HT.
  - intros j W q [[-> [= -> ->]]|[_ Hj]]%lookup_insert_cases; [done|by eapply x_pc0].
Qed.

(** Accesses that neither write nor return. *)
Lemma wqinv_quiet n' N' M' V' p' :
  threads N' M' (w_log s) V' (role_of p') → N' <= n' → ppc_ok (w_cap s) p' → w_inflight (V', p') = w_inflight (V, p) →
  wqinv n' N' C (moved M' V' p' (w_log s) (w_rets s)).
Proof.
  intros HT HN Hp Hf. apply wqinv_prod; try done. rewrite (omap_insert_same w_inflight _ _ _ _ Hi Hf). apply HI.
Qed.

Lemma wqinv_other x t sp M' V' a p' :
  perform x (w_mem s) V t sp = Some (M', V', a) → ring_other x = true → role_of p' = Outside → ppc_ok (w_cap s) p' →
  w_inflight (V', p') = w_inflight (V, p) → wqinv n N C (moved M' V' p' (w_log s) (w_rets s)).
Proof.
  intros HP Hx Hr Hp Hf. apply wqinv_quiet; [|apply HI|done|done]. rewrite Hr.
  by eapply (threads_other _ _ _ _ _ _ _ _ _ _ (x_threads _ _ _ _ HI)); [exact role_at|..].
Qed.

(** A call returns. *)
Lemma perm_return (o : op A) ret V' :
  w_inflight (V, p) = accepted_ret (op_rec o, ret) →
  omap accepted_ret (w_rets s ++ [(op_rec o, ret)]) ++ omap w_inflight (<[i := (V', P_idle)]> (w_prods s)) ≡ₚ
  omap accepted_ret (w_rets s) ++ omap w_inflight (w_prods s).
Proof.
  intros Hf. rewrite omap_app, <- app_assoc. f_equiv.
  pose proof (omap_insert w_inflight _ _ _ (V', P_idle) Hi) as Hp. cbn in Hp. rewrite app_nil_r, Hf in Hp.
  rewrite <- Hp. cbn. destruct (accepted_ret _); cbn; [|by rewrite app_nil_r]. apply Permutation_cons_append.
Qed.

Lemma wqinv_return x t sp M' V' a (o : op A) ret :
  perform x (w_mem s) V t sp = Some (M', V', a) → ring_other x = true →
  w_inflight (V, p) = accepted_ret (op_rec o, ret) →
  wqinv n N C (moved M' V' P_idle (w_log s) (w_rets s ++ [(op_rec o, ret)])).
Proof.
  intros HP Hx Hf. apply wqinv_prod; [|apply HI|done|].
  - by eapply (threads_other _ _ _ _ _ _ _ _ _ _ (x_threads _ _ _ _ HI)); [exact role_at|..].
  - rewrite (perm_return o ret V' Hf). apply HI.
Qed.

(** The claim. *)
Lemma wqinv_claim o t M' V' v :
  p = P_claim o → update AcqRel (w_mem s) V L_head (λ v, u64 (v + 1)) t = Some (M', V', v) →
  wqinv (n + 1) (N + 1) C (moved M' V' (P_recheck o v) (w_log s) (w_rets s)).
Proof.
  intros Ep HU. pose proof (x_n _ _ _ _ HI) as HN. pose proof (r_pos (u_ring (x_threads _ _ _ _ HI))).
  assert (v = N → u64 (v + 1) = N + 1) as Hf by (intros ->; apply u64_id; split; lia).
  destruct (threads_claim _ _ _ _ _ _ _ _ _ _ (x_threads _ _ _ _ HI) _ _ _ _ _ _ _ _ (Claimed v) role_at Hf HU eq_refl) as [_ HT].
  { intros _ _ -> Hnone. cbn. split; [lia|done]. }
  apply wqinv_quiet; [done|lia|done|]. by rewrite Ep.
Qed.

(** The tail a claimant loads. *)
Lemma wqinv_claimed pos t y p' :
  role_of p = Claimed pos → load Acquire (w_mem s) V L_tail t = Some y →
  (role_of p' = Outside ∨ role_of p' = Claimed pos ∨ role_of p' = Owner pos ∧ pos - fst y < w_cap s) →
  ppc_ok (w_cap s) p' → w_inflight (snd y, p') = w_inflight (V, p) →
  wqinv n N C (moved (w_mem s) (snd y) p' (w_log s) (w_rets s)).
Proof.
  intros Hr HL Hr' Hp Hf. pose proof (x_n _ _ _ _ HI) as HN. pose proof role_at as Hat. rewrite Hr in Hat.
  destruct (claimed_tail _ _ _ _ _ _ _ _ _ _ (x_threads _ _ _ _ HI) _ _ _ pos _ _ Hat eq_refl ltac:(lia) HL) as (_ & _ & H3).
  apply wqinv_quiet; [|apply HI|done|done].
  destruct Hr' as [-> |[-> |[-> Hlt]]]; (eapply (threads_load _ _ _ _ _ _ _ _ _ _ (x_threads _ _ _ _ HI) _ _ _ L_tail);
    [exact Hat|done|exact HL| |by (left + right)]); cbn; try done.
  intros _ [? ?]. destruct (H3 Hlt). by split_and!; try lia.
Qed.

Lemma claimed_sub pos t y :
  role_of p = Claimed pos → load Acquire (w_mem s) V L_tail t = Some y → 0 <= fst y <= pos ∧ pos < N ∧ usub pos (fst y) = pos - fst y.
Proof.
  intros Hr HL. pose proof (x_n _ _ _ _ HI) as HN. pose proof role_at as Hat. rewrite Hr in Hat.
  destruct (claimed_tail _ _ _ _ _ _ _ _ _ _ (x_threads _ _ _ _ HI) _ _ _ pos _ _ Hat eq_refl ltac:(lia) HL) as (H1 & H2 & _).
  pose proof (u_knows (x_threads _ _ _ _ HI) _ _ _ Hat) as Hk. cbn in Hk. split_and!; try done; lia.
Qed.

Lemma wqinv_recheck o pos t y :
  p = P_recheck o pos → load Acquire (w_mem s) V L_tail t = Some y →
  wqinv n N C (moved (w_mem s) (snd y) (prod_after (w_cap s) (P_recheck o pos) (fst y)) (w_log s) (w_rets s)).
Proof.
  intros Ep HL. assert (role_of p = Claimed pos) as Hr by (by rewrite Ep). destruct (claimed_sub pos t y Hr HL) as (H1 & _ & H2).
  cbn [prod_after]. rewrite H2, !Z.geb_leb. destruct (Z.leb_spec (w_cap s) (pos - fst y)) as [Hle|Hlt].
  - assert ((w_cap s <=? pos) = true) as -> by lia. eapply wqinv_claimed; try done; [by right; left|cbn; lia|by rewrite Ep].
  - eapply wqinv_claimed; try done; [by right; right|by rewrite Ep].
Qed.

Lemma wqinv_spin o pos last stalls t y :
  p = P_spin o pos last stalls → load Acquire (w_mem s) V L_tail t = Some y →
  wqinv n N C (moved (w_mem s) (snd y) (prod_after (w_cap s) (P_spin o pos last stalls) (fst y)) (w_log s) (w_rets s)).
Proof.
  intros Ep HL. assert (role_of p = Claimed pos) as Hr by (by rewrite Ep). destruct (claimed_sub pos t y Hr HL) as (H1 & HN & H2).
  pose proof (x_n _ _ _ _ HI). pose proof (x_pc _ _ _ _ HI i V p Hi) as Hp. rewrite Ep in Hp. cbn in Hp.
  pose proof (r_cap (u_ring (x_threads _ _ _ _ HI))).
  assert (usub pos (w_cap s) = pos - w_cap s) as E by (unfold usub; apply u64_id; split; lia).
  cbn [prod_after]. rewrite E, Z.gtb_ltb. destruct (Z.ltb_spec (pos - w_cap s) (fst y)) as [Hlt|Hge].
  - eapply wqinv_claimed; try done; [right; right; split; [done|lia]|by rewrite Ep].
  - destruct (negb (fst y =? last)); [eapply wqinv_claimed; try done; [by right; left|by rewrite Ep]|].
    destruct (_ >? _); (eapply wqinv_claimed; try done; [by auto|by rewrite Ep]).
Qed.

Lemma wqinv_write o pos a M' V' b :
  role_of p = Owner pos → w_inflight (V, p) = None → (a = None ∨ a = Some (op_rec o)) →
  touch (w_mem s) V (L_slot (pos mod w_cap s)) a = (M', V', b) →
  wqinv n N C (moved M' V' (P_publish o pos a) (<[pos := a]> (w_log s)) (w_rets s)).
Proof.
  intros Hr Hin Ha HT. pose proof role_at as Hat. rewrite Hr in Hat.
  destruct (threads_write _ _ _ _ _ _ _ _ _ _ (x_threads _ _ _ _ HI) _ _ pos a _ _ _ Hat HT) as [Hnone HT'].
  apply wqinv_prod; [done|apply HI|done|]. rewrite map_to_list_insert by done.
  pose proof (omap_insert w_inflight _ _ _ (V', P_publish o pos a) Hi) as Hperm.
  rewrite Hin in Hperm. cbn in Hperm. rewrite app_nil_r in Hperm. rewrite Hperm.
  cbn. destruct a; cbn; rewrite (x_perm _ _ _ _ HI), ?app_nil_r; [|done].
  rewrite app_assoc. apply Permutation_cons_append.
Qed.

Lemma wqinv_publish o pos (c : option A) t y :
  p = P_publish o pos c → store Release (w_mem s) V (L_seq (pos mod w_cap s)) (u64 (pos + 1)) t = Some y →
  wqinv n N C (moved (fst y) (snd y) (P_signal o (match c with Some _ => 0 | None => -1 end)) (w_log s) (w_rets s)).
Proof.
  intros Ep HS. pose proof (x_n _ _ _ _ HI). pose proof role_at as Hat. rewrite Ep in Hat.
  pose proof (x_pc _ _ _ _ HI i V p Hi) as Hc. rewrite Ep in Hc. cbn in Hc.
  apply wqinv_quiet; [|apply HI|done|rewrite Ep; by destruct Hc as [->| ->]].
  by eapply (threads_publish _ _ _ _ _ _ _ _ _ _ (x_threads _ _ _ _ HI)); [exact Hat|lia|].
Qed.
End producer.

Lemma wprod_step_inv n N C s i t sp s' :
  wqinv n N C s → n < 2 ^ 62 → wprod_step s i t sp = Some s' → ∃ N', wqinv (n + 1) N' C s'.
Proof.
  intros HI Hn. unfold wprod_step. destruct (w_prods s !! i) as [[V p]|] eqn:Hi; [|done]. cbn [mbind option_bind].
  destruct (prod_idle p) eqn:Hidle; [done|]. destruct (perform _ _ _ _ _) as [[[M' V'] r]|] eqn:HP; [|done].
  cbn [mbind option_bind]. intros [= <-].
  assert (∀ pos, slot_at (w_cap s) pos = pos mod w_cap s) as Hsl by (intros pos; by eapply wqinv_slot).
  assert (∀ s', wqinv n N C s' → ∃ N', wqinv (n + 1) N' C s') as Hw by (intros s' H; exists N; eapply wqinv_weaken; [exact H|lia]).
  destruct p; try discriminate Hidle; cbn [prod_access] in HP; rewrite ?Hsl in HP; cbn [log_after].
  - apply Hw. cbn [prod_after]. destruct (_ =? 0); by eapply wqinv_other.
  - apply Hw. by eapply wqinv_other.
  - apply Hw. cbn [prod_after]. destruct (_ >=? _); by eapply wqinv_other.
  - cbn in HP. destruct (update _ _ _ _ _ _) as [[[M1 V1] v]|] eqn:HU; [|done]. injection HP as <- <- <-.
    exists (N + 1). by eapply wqinv_claim.
  - apply Hw. apply perform_load in HP as (y & HL & -> & -> & ->). by eapply wqinv_recheck.
  - apply Hw. apply perform_load in HP as (y & HL & -> & -> & ->). by eapply wqinv_spin.
  - apply Hw. cbn in HP. injection HP as HM HV' _.
    eapply wqinv_write; [exact HI|exact Hi|done|done|by left|]. unfold touch. by rewrite <- HM, <- HV'.
  - apply Hw. cbn in HP. injection HP as HM HV' _.
    eapply wqinv_write; [exact HI|exact Hi|done|done|by right|]. unfold touch. by rewrite <- HM, <- HV'.
  - apply Hw. apply perform_store in HP as (y & HS & -> & -> & ->). by eapply wqinv_publish.
  - apply Hw. cbn [prod_after]. destruct (_ =? 0); by eapply wqinv_other.
  - apply Hw. by eapply wqinv_other.
  - apply Hw. cbn [prod_after]. destruct (negb (ret =? 0) && op_blocking o) eqn:E; [|by eapply wqinv_return].
    apply andb_true_iff in E as [E _]. eapply wqinv_other; try done. cbn. unfold accepted_ret. cbn. by destruct (ret =? 0).
  - apply Hw. cbn [prod_after]. destruct (_ =? 0); [by eapply wqinv_other|by eapply wqinv_return].
  - apply Hw. by eapply wqinv_other.
Qed.

(** ** A step of the consumer *)

Section consumer.
Context (n N C : Z) (s : wstate A) (HI : wqinv n N C s) (Hn : n < 2 ^ 62).
Abbreviation V := (fst (w_cons s)).
Abbreviation T := (clen (w_out s)).
Abbreviation moved M' V' c' out' :=
  (WState (w_cap s) M' (w_prods s) (V', c') (w_closer s) (w_log s) out' (w_rets s)).
Abbreviation threads C' M' V' c' out' :=
  (threads_ok (w_cap s) N C' M' (w_log s) (with_role <$> w_prods s) V' (reader_of c') out' (fst (w_closer s))).

Lemma wqinv_cons C' M' V' c' out' :
  threads C' M' V' c' out' → cpc_ok (clen out') c' → wqinv n N C' (moved M' V' c' out').
Proof. intros HT Hok. destruct HI. split; cbn; try done. Qed.

Lemma cons_other x t sp M' V' a c' :
  perform x (w_mem s) V t sp = Some (M', V', a) → ring_other x = true → cpc_ok T c' →
  (reader_of c' = reader_of (snd (w_cons s)) ∨ reader_of c' = Caught ∧ C = T ∨ reader_of c' = Reading [] ∧ C = T) →
  wqinv n N C (moved M' V' c' (w_out s)).
Proof.
  intros HP Hx Hok Hr. pose proof (x_threads _ _ _ _ HI) as HT. apply wqinv_cons; [|done].
  eapply (threads_cons_other _ _ _ _ _ _ _ _ _ _ HT); [exact HP|exact Hx|]. intros Hle.
  destruct Hr as [->|[[-> ->]|[-> ->]]]; [by eapply reads_mono; [| |apply HT]|done|]. cbn. change (clen []) with 0. split; [lia|done].
Qed.

Lemma wqinv_seq av got t y :
  snd (w_cons s) = C_seq T av got → load Acquire (w_mem s) V (L_seq (C mod w_cap s)) t = Some y →
  wqinv n N C (moved (w_mem s) (snd y)
    (if negb (fst y =? C + 1) then if clen got =? 0 then C_idle else C_store T got else C_copy T av got) (w_out s)).
Proof.
  intros Ec HL. pose proof (x_threads _ _ _ _ HI) as HT. rewrite Ec in HT. cbn in HT.
  destruct (threads_seq _ _ _ _ _ _ _ _ _ _ HT got t y eq_refl HL) as (H1 & H2 & H3).
  destruct (Z.eqb_spec (fst y) (C + 1)); cbn [negb]; [by apply wqinv_cons; [apply H1|]|].
  destruct (Z.eqb_spec (clen got) 0) as [E|]; [|by apply wqinv_cons]. apply wqinv_cons; [|done].
  apply H3. unfold clen in E. destruct got; [done|cbn in E; lia].
Qed.
End consumer.

Lemma wcons_step_inv n N C s m t s' :
  wqinv n N C s → n < 2 ^ 62 → wcons_step s m t = Some s' → ∃ C', wqinv n N C' s'.
Proof.
  intros HI Hn. unfold wcons_step. destruct (perform _ _ _ _ _) as [[[M' V'] r]|] eqn:HP; [|done].
  cbn [mbind option_bind]. intros [= <-]. pose proof (x_threads _ _ _ _ HI) as HT. pose proof (x_tail _ _ _ _ HI) as Htl.
  pose proof (x_n _ _ _ _ HI) as HN. pose proof (u_reads HT) as Hr.
  assert (∀ pos, slot_at (w_cap s) pos = pos mod w_cap s) as Hsl by (intros pos; by eapply wqinv_slot).
  destruct (snd (w_cons s)) eqn:Ec; cbn [cons_access] in HP; rewrite ?Hsl in HP; cbn [reader_of reads cpc_ok] in *;
    try match type of HP with
    | perform ?x _ _ _ _ = _ =>
        let b := eval cbn in (ring_other x) in
        match b with true =>
        exists C; eapply (cons_other _ _ _ _ HI); [exact HP|done|..]; cbn [cons_after]; repeat case_match; cbn [cpc_ok reader_of];
        try done; (by auto)
        end
    end.
  - (* C_batch_tail *) apply perform_load in HP as (y & HL & -> & -> & ->). pose proof (own_tail _ _ _ _ _ _ _ _ _ _ HT t y HL) as Ey.
    exists C. cbn [cons_after answer_val]. rewrite Ey.
    assert (perform (ALoad Acquire L_tail) (w_mem s) (fst (w_cons s)) t false = Some (w_mem s, snd y, Val (fst y))) as HP by (cbn; by rewrite HL).
    destruct (_ =? 0); (eapply (cons_other _ _ _ _ HI); [exact HP|done|done|]); cbn; auto.
  - (* C_seq *) destruct Hr as [E Hgot]. subst tail. destruct (batch_pos _ _ _ _ _ _ _ _ _ _ HT got E ltac:(lia)) as [E1 E2].
    rewrite E1 in HP. exists C. cbn [cons_after]. destruct (_ && _).
    + apply perform_load in HP as (y & HL & -> & -> & ->). cbn [answer_val]. rewrite E1, E2. by eapply wqinv_seq.
    + eapply (cons_other _ _ _ _ HI); [exact HP|done|by destruct (_ =? 0)|]. rewrite Ec.
      destruct (Z.eqb_spec (clen got) 0); [|by left]. right. left. split; [done|lia].
  - (* C_copy *) destruct Hr as ([E Hgot] & _). subst tail. destruct (batch_pos _ _ _ _ _ _ _ _ _ _ HT got E ltac:(lia)) as [E1 E2].
    rewrite E1 in HP. exists (C + 1). cbn in HP. injection HP as HM HV' <-. cbn [cons_after answer_rec].
    destruct (threads_take _ _ _ _ _ _ _ _ _ _ HT got id M' V' (plain (w_mem s) (L_slot (C mod w_cap s))) eq_refl) as [_ HT'].
    { unfold touch. cbn. by rewrite <- HM, <- HV'. }
    by apply (wqinv_cons _ _ _ _ HI).
  - (* C_store *) destruct Hr as [E Hgot]. subst tail. destruct (batch_pos _ _ _ _ _ _ _ _ _ _ HT got E ltac:(lia)) as [E1 E2].
    rewrite E1 in HP. exists C. apply perform_store in HP as (y & HS & -> & -> & ->). apply (wqinv_cons _ _ _ _ HI); [|done].
    exact (threads_deliver _ _ _ _ _ _ _ _ _ _ HT got t y eq_refl HS).
  - (* C_slots *) exists C. destruct n0; (eapply (cons_other _ _ _ _ HI); [exact HP|done|done|]; rewrite Ec; by left).
Qed.

(** ** Every step *)

Lemma wclose_step_inv n N C s t s' :
  wqinv n N C s → wclose_step s t = Some s' → wqinv n N C s'.
Proof.
  intros HI. unfold wclose_step. destruct (perform _ _ _ _ _) as [[[M' V'] r]|] eqn:HP; [|done].
  cbn [mbind option_bind]. intros [= <-]. pose proof (x_threads _ _ _ _ HI) as HT. destruct HI. split; cbn; try done.
  eapply (threads_closer _ _ _ _ _ _ _ _ _ _ HT); [exact HP|]. by destruct (snd (w_closer s)) as [| | |[]| |].
Qed.

Lemma wqinv_exec n N C s a s' :
  wqinv n N C s → n < 2 ^ 62 → wqexec s a = Some s' → ∃ N' C', wqinv (n + 1) N' C' s'.
Proof.
  intros HI Hn. assert (∀ s', wqinv n N C s' → ∃ N' C', wqinv (n + 1) N' C' s') as Hw
    by (intros s1 H; exists N, C; eapply wqinv_weaken; [exact H|lia]).
  destruct a; cbn [wqexec].
  - intros H. destruct (wprod_step_inv _ _ _ _ _ _ _ _ HI Hn H) as [N' H']. by exists N', C.
  - intros H. destruct (wcons_step_inv _ _ _ _ _ _ _ HI Hn H) as [C' H']. exists N, C'. eapply wqinv_weaken; [exact H'|lia].
  - intros H. eapply Hw, wclose_step_inv; [exact HI|exact H].
  - destruct (w_prods s !! i) as [[V []]|] eqn:Hi; try done. intros [= <-]. apply Hw.
    by eapply (wqinv_other _ _ _ _ _ _ _ HI Hi ANone 0 false).
  - destruct (snd (w_cons s)) eqn:Ec; try done. intros [= <-]. apply Hw.
    eapply (cons_other _ _ _ _ HI ANone 0 false); try done. rewrite Ec. by left.
  - destruct (snd (w_cons s)) eqn:Ec; try done. intros [= <-]. apply Hw.
    eapply (cons_other _ _ _ _ HI ANone 0 false); try done. rewrite Ec. by left.
  - destruct (snd (w_closer s)); try done. intros [= <-]. apply Hw. by destruct HI.
Qed.

Lemma wqinv_init k m : 0 <= k <= 62 → wqinv 0 0 0 (w_init (A := A) (2 ^ k) m).
Proof.
  intros Hk. assert (0 < 2 ^ k) as Hc by (apply Z.pow_pos_nonneg; lia).
  split; cbn [w_init w_cap w_mem w_prods w_cons w_closer w_log w_out w_rets fst snd]; try done.
  - by exists k.
  - rewrite fmap_replicate. apply threads_init; [done|]. split_and!; try done.
    + intros []; cbn; eauto.
    + by intros [].
  - by intros i V p [[= -> ->] _]%lookup_replicate.
  - rewrite map_to_list_empty. clear. induction m as [|m IH]; [done|]. exact IH.
Qed.

Lemma wqinv_steps n k m s :
  0 <= k <= 62 → wsteps n (w_init (2 ^ k) m) s → Z.of_nat n <= 2 ^ 62 → ∃ N C, wqinv (Z.of_nat n) N C s.
Proof.
  intros Hk H. remember (w_init (2 ^ k) m) as s0 eqn:E0. induction H as [s|n s s1 s2 a Hs IH He]; intros Hn.
  - subst. exists 0, 0. by apply wqinv_init.
  - destruct (IH E0 ltac:(lia)) as (N & C & HI). rewrite Nat2Z.inj_succ, <- Z.add_1_r.
    by eapply wqinv_exec; [exact HI|lia|].
Qed.
End invariant.

(** ** Properties *)

(** C3: the queue is safe under release/acquire memory.  For any number of producers, the
    consumer and the closer, whatever messages the loads are given and whatever timestamps
    the stores take: no two accesses of a slot's record race; the consumer receives
    positions 0, 1, 2, ... in order, each with exactly what was written there; what was
    written are the records of the calls that returned 0 and of those past their write,
    each once; so once the calls have returned and everything written was received, the
    records received are exactly those whose call returned 0. *)
Theorem weak_queue_safe {A} n k m (s : wstate A) :
  0 <= k <= 62 → wsteps n (w_init (2 ^ k) m) s → Z.of_nat n <= 2 ^ 62 →
  raced (w_mem s) = false ∧
  (∀ j c, w_out s !! j = Some c → w_log s !! Z.of_nat j = Some c) ∧
  omap snd (map_to_list (w_log s)) ≡ₚ omap accepted_ret (w_rets s) ++ omap w_inflight (w_prods s) ∧
  ((∀ i V p, w_prods s !! i = Some (V, p) → p = P_idle) → (∀ pos, is_Some (w_log s !! pos) → pos < clen (w_out s)) →
   omap id (w_out s) ≡ₚ omap accepted_ret (w_rets s)).
Proof.
  intros Hk Hs Hn. destruct (wqinv_steps n k m s Hk Hs Hn) as (N & C & HI). pose proof (x_threads _ _ _ _ HI) as HT.
  split; [apply HT|]. split; [apply HT|]. split; [apply HI|]. intros Hidle Hall.
  rewrite <- (published_all (w_log s)), (x_perm _ _ _ _ HI).
  - replace (omap w_inflight (w_prods s)) with (@nil A); [by rewrite app_nil_r|].
    clear - Hidle. induction (w_prods s) as [|[V p] l IH]; [done|]. cbn. rewrite (Hidle 0%nat V p eq_refl). cbn.
    apply IH. intros i W q Hi. exact (Hidle (S i) W q Hi).
  - apply HT.
  - intros pos Hp. split; [apply (r_log (u_ring HT) pos Hp)|by apply Hall].
Qed.

(** A put and a batch that finds it; the consumer's first look at the counter is too early
    for its view of the memory. *)
Definition weak_put_get : list (waction Z) :=
  [WStartPut 0 (Op 11 false); WProd 0 0 false; WProd 0 0 false; WProd 0 0 false; WProd 0 0 false; WProd 0 0 false;
   WProd 0 0 false; WProd 0 1 false; WProd 0 0 false; WProd 0 0 false;
   WStartBatch; WCons 8 1; WCons 8 0; WCons 8 0;
   WStartBatch; WCons 8 1; WCons 8 0; WCons 8 1; WCons 8 0; WCons 8 0; WCons 8 1].

Lemma weak_queue_safe_witness :
  ∃ s : wstate Z, wqexec_all (w_init (2 ^ 1) 1) weak_put_get = Some s ∧ w_out s = [Some 11] ∧ raced (w_mem s) = false ∧
    omap id (w_out s) ≡ₚ omap accepted_ret (w_rets s).
Proof.
  assert ((λ s, (w_out s, map snd (w_prods s), map_to_list (w_log s))) <$> wqexec_all (w_init (2 ^ 1) 1) weak_put_get =
    Some ([Some 11], [P_idle], [(0, Some 11)])) as E by (vm_compute; reflexivity).
  destruct (wqexec_all (w_init (2 ^ 1) 1) weak_put_get) as [s|] eqn:Es; [|discriminate]. injection E as E1 E2 E3. exists s.
  pose proof (wqexec_all_steps 0 (w_init (2 ^ 1) 1) (w_init (2 ^ 1) 1) s weak_put_get (wsteps_O _) Es) as H.
  destruct (weak_queue_safe (length weak_put_get + 0) 1 1 s ltac:(lia) H ltac:(vm_compute; discriminate)) as (H1 & _ & _ & H4).
  split; [reflexivity|]. split; [exact E1|]. split; [exact H1|]. apply H4.
  - intros i V p Hi. apply (f_equal (λ l, l !! i)) in E2. rewrite list_lookup_fmap, Hi in E2. cbn in E2.
    destruct i; cbn in E2; [by injection E2|discriminate E2].
  - intros pos [x Hx%elem_of_map_to_list]. rewrite E3 in Hx. apply list_elem_of_singleton in Hx as [= -> _]. by rewrite E1.
Defined.

(** ** Store buffering

    The consumer stores [consumer_parked] and then loads [head]; the producer updates
    [head] and then compares [consumer_parked].  Release and acquire do not order a store
    before a later load, so both may miss the other's store: the consumer sleeps on a
    queue that holds a record, its producer has returned success without a post, and
    nothing but a later call wakes it. *)
Definition store_buffering : list (waction Z) :=
  [WStartWait; WCons 8 0; WCons 8 0; WCons 8 0; WCons 8 1;
   WStartPut 0 (Op 11 false); WProd 0 0 false; WProd 0 0 false; WProd 0 0 false; WProd 0 0 false; WProd 0 0 false;
   WProd 0 0 false; WProd 0 1 false; WProd 0 0 false; WProd 0 0 false;
   WCons 8 0; WCons 8 0; WCons 8 0].

Example store_buffering_loses_wakeup :
  ∃ s, wqexec_all (w_init (2 ^ 1) 1) store_buffering = Some s ∧
    w_rets s = [(11, 0)] ∧ map snd (w_prods s) = [P_idle] ∧ w_log s !! 0 = Some (Some 11) ∧ w_out s = [] ∧
    snd (w_cons s) = C_sem ∧ ∀ m t, wqexec s (WCons m t) = None.
Proof.
  assert ((λ s, (w_rets s, map snd (w_prods s), w_log s !! 0, w_out s, snd (w_cons s), fst (sems (w_mem s) L_items)))
    <$> wqexec_all (w_init (2 ^ 1) 1) store_buffering =
    Some ([(11, 0)], [P_idle], Some (Some 11), [], C_sem, 0)) as E by (vm_compute; reflexivity).
  destruct (wqexec_all (w_init (2 ^ 1) 1) store_buffering) as [s|]; [|discriminate]. exists s.
  cbn [fmap option_fmap option_map] in E. apply (inj Some) in E. rewrite !pair_equal_spec in E.
  destruct E as (((((E1 & E2) & E3) & E4) & E5) & E6). split_and!; try done. intros m t.
  cbn [wqexec]. unfold wcons_step. rewrite E5. cbn [cons_access perform]. unfold wait. by rewrite E6.
Qed.
