(* ===== verification/QueueDrain.v ===== *)
(** * Waiting for the queue to drain, blocking gets and destruction (core/queue.c)

    A layer over the machine of Queue.v: the threads inside [mpsc_queue_wait_empty]
    with the drain mutex and its condition variable, the loop of
    [mpsc_queue_get_batch] around the consumer's two calls, and
    [mpsc_queue_destroy]. Every step of the layer is a step of that machine or leaves
    its state alone, so the theorems of Queue.v hold of it. *)
From S2P Require Import Prelude Port Queue.

Local Open Scope Z_scope.

(** ** The machine *)

Section drain.
Context {A : Type}.

(** A thread in [mpsc_queue_wait_empty], named after its next access; [mark] is ghost,
    the value of [head] when the call began. *)
Inductive wpc :=
  | E_idle
  | E_lock (mark : Z)            (* lock drain_mutex *)
  | E_head (mark : Z)            (* load head, mutex held *)
  | E_tail (mark head : Z)       (* load tail, mutex held *)
  | E_sleep (mark : Z)           (* in cond_wait *)
  | E_wake (mark : Z)            (* woken, takes the mutex again *)
  | E_unlock (mark : Z)          (* leaves the loop *)
  | E_done (mark : Z).

(** [mpsc_queue_destroy]. *)
Inductive dpc :=
  | X_idle | X_closed
  | X_items (n : nat) | X_slots (n : nat)  (* the two posts of one turn of its loop *)
  | X_drain | X_free | X_done.

(** [d_call] is the running [get_batch]: its bound and, ghost, how many records had
    been delivered when it began; [d_rets] the bounds of
    the finished calls and what they returned. [d_dead]
    says that the memory of the queue is gone, [d_ub] that a thread used it after. *)
Record dsys := DSys {
  d_q : qstate A;
  d_mutex : option nat;
  d_waiters : list wpc;
  d_call : option (nat * Z);
  d_rets : list (Z * Z);
  d_destroy : dpc;
  d_dead : bool;
  d_ub : bool
}.

Definition d_init (cap : Z) (n m : nat) : dsys :=
  DSys (q_init cap n) None (replicate m E_idle) None [] X_idle false false.

Definition put_q (s : dsys) (q : qstate A) : dsys :=
  DSys q (d_mutex s) (d_waiters s) (d_call s) (d_rets s) (d_destroy s) (d_dead s) (d_ub s).
Definition put_waiter (s : dsys) (i : nat) (w : wpc) : dsys :=
  DSys (d_q s) (d_mutex s) (<[i := w]> (d_waiters s)) (d_call s) (d_rets s) (d_destroy s) (d_dead s) (d_ub s).
Definition put_mutex (s : dsys) (m : option nat) : dsys :=
  DSys (d_q s) m (d_waiters s) (d_call s) (d_rets s) (d_destroy s) (d_dead s) (d_ub s).
Definition put_call (s : dsys) (c : option (nat * Z)) (rets : list (Z * Z)) : dsys :=
  DSys (d_q s) (d_mutex s) (d_waiters s) c rets (d_destroy s) (d_dead s) (d_ub s).
Definition put_destroy (s : dsys) (x : dpc) (dead : bool) : dsys :=
  DSys (d_q s) (d_mutex s) (d_waiters s) (d_call s) (d_rets s) x dead (d_ub s).
Definition put_ub (s : dsys) : dsys :=
  DSys (d_q s) (d_mutex s) (d_waiters s) (d_call s) (d_rets s) (d_destroy s) (d_dead s) true.

(** [clog_cond_broadcast(&q->drain_cond)]. *)
Definition wake (w : wpc) : wpc := match w with E_sleep m => E_wake m | _ => w end.
Definition broadcast (s : dsys) : dsys :=
  DSys (d_q s) (d_mutex s) (wake <$> d_waiters s) (d_call s) (d_rets s) (d_destroy s) (d_dead s) (d_ub s).

(** The next access of a thread in [mpsc_queue_wait_empty]. *)
Definition mpsc_queue_wait_empty (s : dsys) (i : nat) (w : wpc) : option dsys :=
  match w with
  | E_idle | E_done _ | E_sleep _ => None
  | E_lock m | E_wake m =>
      match d_mutex s with None => Some (put_waiter (put_mutex s (Some i)) i (E_head m)) | Some _ => None end
  | E_head m => Some (put_waiter s i (E_tail m (q_head (d_q s))))
  | E_tail m head =>
      if usub head (q_tail (d_q s)) =? 0 then Some (put_waiter s i (E_unlock m))
      else Some (put_waiter (put_mutex s None) i (E_sleep m))
  | E_unlock m => Some (put_waiter (put_mutex s None) i (E_done m))
  end.

(** Whether an access of the machine below is the broadcast, made under the mutex. *)
Definition broadcasts (q : qstate A) (a : action A) : bool :=
  match a with
  | Cons _ => match q_cons q with C_drain => true | _ => false end
  | Close => match q_closer q with K_drain => true | _ => false end
  | _ => false
  end.

(** The consumer inside [get_batch] keeps to the bound of the call, and starts no call
    of its own. *)
Definition allowed (s : dsys) (a : action A) : bool :=
  match a, d_call s with
  | Cons m, Some (_, max) => m =? max
  | StartWait, Some _ | StartBatch, Some _ => false
  | _, _ => true
  end.

(** An access of a producer, the consumer or the closer. *)
Definition queue_access (s : dsys) (a : action A) : option dsys :=
  if negb (allowed s a) then None
  else if broadcasts (d_q s) a then
    match d_mutex s with None => q ← exec (d_q s) a; Some (broadcast (put_q s q)) | Some _ => None end
  else q ← exec (d_q s) a; Some (put_q s q).

(** [mpsc_queue_get_batch]: wait and try, again while nothing was published, until
    records came or the queue is closed. *)
Definition get_batch_call (s : dsys) (max_records : N) : option dsys :=
  match d_call s with
  | Some _ => None
  | None =>
      let max := Z.of_N max_records in
      if max =? 0 then Some (put_call s None (d_rets s ++ [(max, -1)]))
      else q ← exec (d_q s) StartWait;
           Some (put_call (put_q s q) (Some (length (q_out (d_q s)), max)) (d_rets s))
  end.

Definition mpsc_queue_get_batch (s : dsys) : option dsys :=
  '(mark, max) ← d_call s;
  match q_cons (d_q s) with
  | C_idle =>
      let n := (length (q_out (d_q s)) - mark)%nat in
      if Nat.eqb n 0 then q ← exec (d_q s) StartWait; Some (put_q s q)
      else Some (put_call s None (d_rets s ++ [(max, Z.of_nat n)]))
  | C_finished => Some (put_call s None (d_rets s ++ [(max, -1)]))
  | _ => None
  end.

(** What [mpsc_queue_get] makes of what [get_batch] with a bound of 1 returned. *)
Definition mpsc_queue_get (n : Z) : Z := if n =? 1 then 0 else -1.

(** One access of [mpsc_queue_destroy]; its loop turns [capacity + 2] times. *)
Definition mpsc_queue_destroy (s : dsys) : option dsys :=
  let q := d_q s in
  match d_destroy s with
  | X_idle | X_done => None
  | X_closed => Some (put_destroy (put_q s (set_closed q)) (X_items (Z.to_nat (q_cap q + 2))) false)
  | X_items O => Some (put_destroy s X_drain false)
  | X_items (S n) =>
      Some (put_destroy (put_q s (set_sems q (q_items_sem q + 1) (q_slots_sem q) (q_drained q))) (X_slots n) false)
  | X_slots n =>
      Some (put_destroy (put_q s (set_sems q (q_items_sem q) (q_slots_sem q + 1) (q_drained q))) (X_items n) false)
  | X_drain => match d_mutex s with None => Some (put_destroy (broadcast s) X_free false) | Some _ => None end
  | X_free => Some (put_destroy s X_done true)
  end.

(** What can happen: an access below, a thread calls [wait_empty] or makes its next
    access, a sleeping one wakes by itself, the consumer calls or goes on with
    [get_batch], destruction. *)
Inductive daction :=
  | Q (a : action A) | WaitEmpty (i : nat) | Waiter (i : nat) | Spurious (i : nat)
  | GetBatch (max_records : N) | GetNext | StartDestroy | Destroy.

(** Once the memory is gone any access of another thread is undefined. *)
Definition dexec (s : dsys) (a : daction) : option dsys :=
  match a with
  | Q a => if d_dead s then s' ← queue_access s a; Some (put_ub s) else queue_access s a
  | WaitEmpty i =>
      match d_waiters s !! i with
      | Some E_idle | Some (E_done _) => Some (put_waiter s i (E_lock (q_head (d_q s))))
      | _ => None
      end
  | Waiter i =>
      w ← d_waiters s !! i; s' ← mpsc_queue_wait_empty s i w; Some (if d_dead s then put_ub s else s')
  | Spurious i =>
      match d_waiters s !! i with Some (E_sleep m) => Some (put_waiter s i (E_wake m)) | _ => None end
  | GetBatch m => s' ← get_batch_call s m; Some (if d_dead s then put_ub s else s')
  | GetNext => s' ← mpsc_queue_get_batch s; Some (if d_dead s then put_ub s else s')
  | StartDestroy => match d_destroy s with X_idle => Some (put_destroy s X_closed false) | _ => None end
  | Destroy => mpsc_queue_destroy s
  end.

Inductive dsteps : nat → dsys → dsys → Prop :=
  | dsteps_O s : dsteps O s s
  | dsteps_S n s s1 s2 a : dsteps n s s1 → dexec s1 a = Some s2 → dsteps (S n) s s2.

End drain.

Arguments dsys : clear implicits.
Arguments daction : clear implicits.

(** ** Invariant *)

Lemma u64_sub_0 a b : is_u64 a → is_u64 b → u64 (a - b) = 0 → a = b.
Proof.
  unfold is_u64, u64. intros Ha Hb H. apply Z.mod_divide in H as [k Hk]; [|lia].
  assert (k = 0) by nia. lia.
Qed.

Section waiting.
Context {A : Type}.
Implicit Types (q : qstate A) (s : dsys A).

(** The consumer has taken a batch and not yet looked whether the queue is empty, or
    is about to broadcast that it is. *)
Definition draining (c : cpc A) : Prop :=
  match c with C_slots _ | C_rem_head | C_rem_tail _ | C_drain => True | _ => False end.

(** An empty queue has its broadcast due. *)
Definition drain_due q : Prop := q_head q = q_tail q → draining (q_cons q).

Definition holds_mutex (w : wpc) : Prop :=
  match w with E_head _ | E_tail _ _ | E_unlock _ => True | _ => False end.

Definition waiter_ok q (w : wpc) : Prop :=
  match w with
  | E_idle => True
  | E_lock m | E_head m | E_wake m => m <= q_head q
  | E_tail m h => (m <= h <= q_head q ∧ 0 <= h) ∧ (h ≠ q_tail q → drain_due q)
  | E_sleep m => m <= q_head q ∧ drain_due q
  | E_unlock m | E_done m => m <= q_tail q
  end.

Record dinv s : Prop := {
  e_mutex i w : d_waiters s !! i = Some w → holds_mutex w → d_mutex s = Some i;
  e_ok i w : d_waiters s !! i = Some w → waiter_ok (d_q s) w
}.

(** What a step of the machine below does to what the waiters rely on. *)
Lemma exec_drain n q a q' :
  inv n q → n < 2 ^ 62 → exec q a = Some q' →
  q_head q <= q_head q' ∧ q_tail q <= q_tail q' ∧
  (broadcasts q a = false → (drain_due q → drain_due q') ∧ (q_tail q' = q_tail q ∨ drain_due q')).
Proof.
  intros Hinv Hn Hex. pose proof Hinv as [_ [H0 [Hth Hhn]] _ _ _ _ _ _ _ Hc].
  unfold drain_due. destruct a; cbn in Hex.
  - apply bind_Some in Hex as (p & Hi & Hs).
    destruct p; cbn in Hs; repeat case_match; simplify_eq; cbn; try (split_and!; auto; lia).
    rewrite u64_id by (split; lia). split_and!; [lia..|]. intros _. split; [lia|auto].
  - repeat case_match; simplify_eq; cbn. split_and!; auto; lia.
  - unfold cons_step in Hex. unfold cons_ok in Hc.
    destruct (q_cons q) eqn:Eq; simplify_eq; cbn; rewrite ?Eq; cbn;
      try (split_and!; auto; try lia; intros _; split; [|auto]; intros H E; destruct (H E); fail);
      repeat case_match; simplify_eq; cbn; try (split_and!; auto; try lia; intros _; split; auto; tauto).
    + pose proof (clen_nonneg got). destruct Hc as (-> & Hle & _). rewrite u64_id by (split; lia).
      split_and!; auto; lia.
    + split_and!; try lia. intros _. split; [|auto]. intros _ E. unfold usub in H.
      rewrite u64_id in H by (split; lia). apply Z.eqb_neq in H. lia.
  - unfold close_step in Hex. repeat case_match; simplify_eq; cbn; split_and!; auto; lia.
  - repeat case_match; simplify_eq; cbn. split_and!; auto; lia.
  - repeat case_match; simplify_eq; cbn. split_and!; auto; lia.
  - repeat case_match; simplify_eq; cbn. split_and!; auto; lia.
  - repeat case_match; simplify_eq; cbn. split_and!; auto; lia.
Qed.

Lemma waiter_ok_mono q q' w :
  q_head q <= q_head q' → q_tail q <= q_tail q' → (drain_due q → drain_due q') →
  q_tail q' = q_tail q ∨ drain_due q' → waiter_ok q w → waiter_ok q' w.
Proof.
  intros H1 H2 H3 H4. destruct w; cbn; try lia.
  - intros [? H]. split; [lia|]. destruct H4 as [->|?]; auto.
  - intros [? ?]. split; [lia|auto].
Qed.

Lemma dinv_access n s a s' :
  inv n (d_q s) → n < 2 ^ 62 → dinv s → queue_access s a = Some s' → dinv s'.
Proof.
  intros Hinv Hn [Hm Hok] H. unfold queue_access in H. destruct (negb (allowed s a)); [done|].
  destruct (broadcasts (d_q s) a) eqn:Eb.
  - destruct (d_mutex s) eqn:Em; [done|]. apply bind_Some in H as (q & Hex & [= <-]).
    destruct (exec_drain n _ _ _ Hinv Hn Hex) as (Hh & Ht & _). constructor; cbn.
    + intros i w. rewrite list_lookup_fmap. destruct (d_waiters s !! i) as [w'|] eqn:Ei; [|done].
      intros [= <-] Hw. destruct w'; cbn in Hw; try done; discriminate (Hm _ _ Ei I).
    + intros i w. rewrite list_lookup_fmap. destruct (d_waiters s !! i) as [w'|] eqn:Ei; [|done].
      intros [= <-]. pose proof (Hok _ _ Ei) as Hw. destruct w'; cbn in *; try lia.
      discriminate (Hm _ _ Ei I).
  - apply bind_Some in H as (q & Hex & [= <-]).
    destruct (exec_drain n _ _ _ Hinv Hn Hex) as (Hh & Ht & H). destruct (H Eb) as [H1 H2].
    constructor; cbn; [done|]. intros i w Hi. eapply waiter_ok_mono; eauto.
Qed.

(** One waiter moves. *)
Lemma dinv_waiter s i w w' m :
  dinv s → d_waiters s !! i = Some w → waiter_ok (d_q s) w' →
  (holds_mutex w' → m = Some i) → (m = d_mutex s ∨ holds_mutex w ∨ d_mutex s = None) →
  dinv (put_waiter (put_mutex s m) i w').
Proof.
  intros [Hm Hok] Hi Hw' Hh Hd. constructor; cbn.
  - intros j v. rewrite list_lookup_insert. case_decide as E; [intros [= <-] Hv; destruct E as [-> _]; auto|].
    intros Hj Hv. pose proof (Hm _ _ Hj Hv) as Ej. destruct Hd as [->|[Hd|Hd]]; [done| |congruence].
    pose proof (Hm _ _ Hi Hd). simplify_eq. destruct E. split; [done|]. by eapply lookup_lt_Some.
  - intros j v. rewrite list_lookup_insert. case_decide; [by intros [= <-]|eauto].
Qed.

Lemma dinv_wait_empty n s i w s' :
  inv n (d_q s) → n < 2 ^ 62 → dinv s → d_waiters s !! i = Some w →
  mpsc_queue_wait_empty s i w = Some s' → dinv s'.
Proof.
  intros Hinv Hn Hd Hi H. pose proof Hinv as [_ [H0 [Hth Hhn]] _ _ _ _ _ _ _ _].
  pose proof (e_ok _ Hd _ _ Hi) as Hw. destruct w; cbn in H, Hw; try done.
  - destruct (d_mutex s) eqn:Em; [done|]. injection H as <-. eapply dinv_waiter; eauto.
  - injection H as <-. apply (dinv_waiter _ _ _ (E_tail mark (q_head (d_q s))) (d_mutex s) Hd Hi); auto.
    + cbn. split; [lia|]. intros Hne E. congruence.
    + intros _. by apply (e_mutex _ Hd _ _ Hi).
  - destruct Hw as [[[H1 H2] Hh0] H3]. unfold usub in H. destruct (Z.eqb_spec (u64 (head - q_tail (d_q s))) 0) as [E|E];
      injection H as <-.
    + assert (head = q_tail (d_q s)) as -> by (apply u64_sub_0; [unfold is_u64; lia..|done]).
      apply (dinv_waiter _ _ _ (E_unlock mark) (d_mutex s) Hd Hi); auto. intros _. by apply (e_mutex _ Hd _ _ Hi).
    + eapply dinv_waiter; eauto; [|by cbn|by right; left]. cbn. split; [lia|]. apply H3.
      intros ->. by rewrite Z.sub_diag in E.
  - destruct (d_mutex s) eqn:Em; [done|]. injection H as <-. eapply dinv_waiter; eauto.
  - injection H as <-. eapply dinv_waiter; eauto; [by cbn|by right; left].
Qed.

(** Takes a successful step apart. *)
Ltac crack :=
  repeat match goal with
  | H : _ ≫= _ = Some _ |- _ => apply bind_Some in H as (? & ? & ?)
  | H : context [match _ with _ => _ end] |- _ => case_match
  end; simplify_eq.

(** Until destruction begins, the layer runs the machine below. *)
Lemma dexec_alive s a s' :
  dexec s a = Some s' → d_destroy s' = X_idle → d_destroy s = X_idle.
Proof.
  destruct a; cbn; unfold queue_access, get_batch_call, mpsc_queue_get_batch, mpsc_queue_wait_empty, mpsc_queue_destroy;
    intros H E; crack; cbn in *; congruence.
Qed.

Lemma dexec_below s a s' :
  dexec s a = Some s' → d_destroy s' = X_idle → d_dead s = false →
  d_dead s' = false ∧ (d_q s' = d_q s ∨ ∃ b, exec (d_q s) b = Some (d_q s')).
Proof.
  intros H E Hd. destruct a; cbn in H; rewrite ?Hd in H.
  - unfold queue_access in H. crack; cbn; eauto.
  - repeat case_match; simplify_eq; auto.
  - apply bind_Some in H as (w & _ & H). apply bind_Some in H as (s1 & H & [= <-]).
    unfold mpsc_queue_wait_empty in H. repeat case_match; simplify_eq; auto.
  - repeat case_match; simplify_eq; auto.
  - apply bind_Some in H as (s1 & H & [= <-]). unfold get_batch_call in H.
    crack; cbn; eauto.
  - apply bind_Some in H as (s1 & H & [= <-]). unfold mpsc_queue_get_batch in H.
    crack; cbn; eauto.
  - repeat case_match; simplify_eq; auto.
  - unfold mpsc_queue_destroy in H. repeat case_match; simplify_eq; done.
Qed.

Lemma dsteps_below n k p m s :
  dsteps n (d_init (2 ^ k) p m) s → d_destroy s = X_idle →
  d_dead s = false ∧ ∃ n', (n' <= n)%nat ∧ steps n' (q_init (2 ^ k) p) (d_q s).
Proof.
  intros H. remember (d_init (2 ^ k) p m) as s0 eqn:E. induction H as [s|n s s1 s2 a H IH Hex]; intros Ed.
  - subst. split; [done|]. exists O. split; [lia|constructor].
  - destruct (IH E (dexec_alive _ _ _ Hex Ed)) as (Hd & n' & Hn' & Hs).
    destruct (dexec_below _ _ _ Hex Ed Hd) as (Hd' & [->|[b Hb]]); (split; [done|]).
    + exists n'. split; [lia|done].
    + exists (S n'). split; [lia|]. by econstructor.
Qed.

Lemma dinv_exec n s a s' :
  inv n (d_q s) → n < 2 ^ 62 → d_dead s = false → d_destroy s' = X_idle →
  dinv s → dexec s a = Some s' → dinv s'.
Proof.
  intros Hinv Hn Hdead Hx Hd H. destruct a; cbn in H; rewrite ?Hdead in H.
  - by eapply dinv_access.
  - destruct (d_waiters s !! i) as [w|] eqn:Hi; [|done].
    assert (s' = put_waiter (put_mutex s (d_mutex s)) i (E_lock (q_head (d_q s)))) as ->
      by (by destruct w; simplify_eq).
    eapply dinv_waiter; eauto; by cbn.
  - apply bind_Some in H as (w & Hi & H). apply bind_Some in H as (s1 & H & [= <-]). by eapply dinv_wait_empty.
  - destruct (d_waiters s !! i) as [[]|] eqn:Hi; try done. injection H as <-.
    apply (dinv_waiter s i _ (E_wake mark) (d_mutex s) Hd Hi); [|done|auto]. apply (e_ok _ Hd _ _ Hi).
  - apply bind_Some in H as (s1 & H & [= <-]). unfold get_batch_call in H. destruct (d_call s) eqn:Ec; [done|].
    destruct (_ =? _); [injection H as <-; by destruct Hd|]. apply bind_Some in H as (q & Hq & [= <-]).
    assert (queue_access s StartWait = Some (put_q s q)) as Ha by (unfold queue_access; cbn -[exec]; by rewrite Ec, Hq).
    destruct (dinv_access _ _ _ _ Hinv Hn Hd Ha). by constructor.
  - apply bind_Some in H as (s1 & H & [= <-]). unfold mpsc_queue_get_batch in H.
    apply bind_Some in H as ([mark max] & _ & H). destruct (q_cons (d_q s)) eqn:Eq; try done.
    + destruct (Nat.eqb _ _); [|injection H as <-; by destruct Hd].
      apply bind_Some in H as (q & Hq & [= <-]).
      assert (queue_access (put_call s None []) StartWait = Some (put_q (put_call s None []) q)) as Ha
        by (unfold queue_access; cbn -[exec]; by rewrite Hq).
      assert (dinv (put_call s None [])) as Hd' by (by destruct Hd).
      destruct (dinv_access n (put_call s None []) _ _ Hinv Hn Hd' Ha). by constructor.
    + injection H as <-. by destruct Hd.
  - by destruct (d_destroy s); simplify_eq.
  - unfold mpsc_queue_destroy in H. repeat case_match; simplify_eq; done.
Qed.

Lemma dinv_steps n k p m s :
  0 <= k <= 62 → dsteps n (d_init (2 ^ k) p m) s → Z.of_nat n <= 2 ^ 62 → d_destroy s = X_idle → dinv s.
Proof.
  intros Hk H. remember (d_init (2 ^ k) p m) as s0 eqn:E. induction H as [s|n s s1 s2 a H IH Hex]; intros Hn Ed; subst.
  - constructor; cbn; intros i w [-> _]%lookup_replicate_1; done.
  - pose proof (dexec_alive _ _ _ Hex Ed) as Ed1.
    destruct (dsteps_below _ _ _ _ _ H Ed1) as (Hd & n' & Hn' & Hs).
    eapply dinv_exec; [eapply inv_steps; [done|done|lia]|lia|done|done|apply IH; [done|lia|done]|done].
Qed.

(** ** Progress *)

Fixpoint dexec_all s (l : list (daction A)) : option (dsys A) :=
  match l with [] => Some s | a :: l' => s' ← dexec s a; dexec_all s' l' end.

Lemma dexec_all_app s l1 l2 s1 :
  dexec_all s l1 = Some s1 → dexec_all s (l1 ++ l2) = dexec_all s1 l2.
Proof.
  revert s. induction l1 as [|a l1 IH]; cbn; intros s H; [by injection H as ->|].
  apply bind_Some in H as (s2 & -> & H). cbn. by apply IH.
Qed.

Lemma dexec_all_steps n s0 s s' l :
  dsteps n s0 s → dexec_all s l = Some s' → dsteps (n + length l) s0 s'.
Proof.
  revert n s. induction l as [|a l IH]; intros n s H E; cbn in E.
  - injection E as <-. cbn. by rewrite Nat.add_0_r.
  - apply bind_Some in E as (s1 & E1 & E2). cbn. rewrite Nat.add_succ_r, <- Nat.add_succ_l.
    eapply IH; [|done]. by econstructor.
Qed.

(** The bound the consumer works with. *)
Definition bound s : Z := match d_call s with Some (_, max) => max | None => 1 end.

Lemma cons_access s q :
  d_dead s = false → d_mutex s = None → cons_step (bound s) (d_q s) = Some q →
  dexec s (Q (Cons (bound s))) =
    Some (if broadcasts (d_q s) (Cons (bound s)) then broadcast (put_q s q) else put_q s q).
Proof.
  intros Hd Hm H. unfold dexec, queue_access, allowed. rewrite Hd, Hm. unfold bound in *.
  destruct (d_call s) as [[mark max]|]; rewrite ?Z.eqb_refl; cbn -[cons_step broadcasts]; rewrite H; by case_match.
Qed.

(** A sleeper and an empty queue, no thread in the critical section. *)
Definition asleep s (i : nat) (mark : Z) : Prop :=
  d_dead s = false ∧ d_mutex s = None ∧ q_head (d_q s) = q_tail (d_q s) ∧ d_waiters s !! i = Some (E_sleep mark).

(** The consumer's next accesses, alone, wake the sleeper, with the queue still empty. *)
Definition wakes s (i : nat) (mark : Z) : Prop :=
  ∃ j s', dexec_all s (repeat (Q (Cons (bound s))) j) = Some s' ∧ d_dead s' = false ∧ d_mutex s' = None ∧
    q_head (d_q s') = q_tail (d_q s') ∧ d_waiters s' !! i = Some (E_wake mark).

Lemma wakes_broadcast s i mark : asleep s i mark → q_cons (d_q s) = C_drain → wakes s i mark.
Proof.
  intros (Hd & Hm & He & Hw) Hc. eexists 1%nat, _. split.
  - unfold repeat, dexec_all. rewrite (cons_access s _ Hd Hm) by (unfold cons_step; by rewrite Hc).
    unfold broadcasts. rewrite Hc. reflexivity.
  - cbn. rewrite list_lookup_fmap, Hw. done.
Qed.

(** The consumer's other accesses on the way keep the sleeper asleep. *)
Lemma wakes_move s i mark q :
  asleep s i mark → q_cons (d_q s) ≠ C_drain → cons_step (bound s) (d_q s) = Some q →
  q_head q = q_tail q → (asleep (put_q s q) i mark → wakes (put_q s q) i mark) → wakes s i mark.
Proof.
  intros (Hd & Hm & He & Hw) Hn Hs Hq H. destruct H as (j & s' & E & H); [done|].
  exists (Datatypes.S j), s'. split; [|done]. cbn [repeat dexec_all].
  rewrite (cons_access s _ Hd Hm Hs). unfold broadcasts. by destruct (q_cons (d_q s)).
Qed.

Lemma wakes_rem_tail s i mark :
  asleep s i mark → q_cons (d_q s) = C_rem_tail (q_tail (d_q s)) → wakes s i mark.
Proof.
  intros Ha Hc. apply (wakes_move s i mark (set_cons (d_q s) C_drain)); [done|congruence| |apply Ha|].
  - unfold cons_step. rewrite Hc. unfold usub. by rewrite Z.sub_diag.
  - intros Ha'. by apply wakes_broadcast.
Qed.

Lemma wakes_rem_head s i mark : asleep s i mark → q_cons (d_q s) = C_rem_head → wakes s i mark.
Proof.
  intros Ha Hc. apply (wakes_move s i mark (set_cons (d_q s) (C_rem_tail (q_head (d_q s)))));
    [done|congruence|unfold cons_step; by rewrite Hc|apply Ha|].
  intros Ha'. apply wakes_rem_tail; [done|]. cbn. f_equal. apply Ha.
Qed.

Lemma wakes_slots s i mark n : asleep s i mark → q_cons (d_q s) = C_slots n → wakes s i mark.
Proof.
  revert s. induction n as [|n IH]; intros s Ha Hc.
  - apply (wakes_move s i mark (set_cons (d_q s) C_rem_head)); [done|congruence|unfold cons_step; by rewrite Hc|apply Ha|].
    intros Ha'. by apply wakes_rem_head.
  - eapply wakes_move; [done|congruence|unfold cons_step; by rewrite Hc|apply Ha|]. intros Ha'. by apply IH.
Qed.

Lemma drain_wakes n s i mark :
  inv n (d_q s) → asleep s i mark → draining (q_cons (d_q s)) → wakes s i mark.
Proof.
  intros Hinv Ha Hd. pose proof (i_cons _ _ Hinv) as Hc. unfold cons_ok in Hc.
  destruct (q_cons (d_q s)) eqn:Eq; try done.
  - by eapply wakes_slots.
  - by apply wakes_rem_head.
  - apply wakes_rem_tail; [done|]. rewrite Eq. f_equal. destruct Ha as (_ & _ & He & _). lia.
  - by apply wakes_broadcast.
Qed.

(** A woken thread that finds the queue empty returns. *)
Lemma woken_returns s i mark :
  d_dead s = false → d_mutex s = None → q_head (d_q s) = q_tail (d_q s) → d_waiters s !! i = Some (E_wake mark) →
  ∃ s', dexec_all s (repeat (Waiter i) 4) = Some s' ∧ d_waiters s' !! i = Some (E_done mark).
Proof.
  intros Hd Hm He Hw. pose proof (lookup_lt_Some _ _ _ Hw) as Hl. eexists. split.
  - cbn [repeat dexec_all]. unfold dexec. rewrite Hw. cbn [mbind option_bind]. unfold mpsc_queue_wait_empty.
    rewrite Hm. cbn [mbind option_bind]. rewrite Hd. cbn [d_waiters put_waiter put_mutex d_dead d_q].
    rewrite list_lookup_insert_eq by done. cbn [mbind option_bind]. rewrite Hd. cbn [d_waiters put_waiter put_mutex d_dead d_q].
    rewrite list_lookup_insert_eq by (rewrite length_insert; done). cbn [mbind option_bind].
    unfold usub. rewrite He, Z.sub_diag. change (u64 0 =? 0) with true. cbn [mbind option_bind]. rewrite Hd.
    cbn [d_waiters put_waiter put_mutex d_dead d_q].
    rewrite list_lookup_insert_eq by (rewrite !length_insert; done). cbn [mbind option_bind]. rewrite Hd. reflexivity.
  - cbn. rewrite list_lookup_insert_eq; [done|]. by rewrite !length_insert.
Qed.

(** ** Blocking gets *)

(** Where the running call stands: what it has delivered fits its bound, and is not
    empty once the consumer has stored its new position. *)
Definition call_ok q (mark : nat) (max : Z) : Prop :=
  let out := clen (q_out q) - Z.of_nat mark in
  0 < max ∧
  match q_cons q with
  | C_seq _ _ got => out = 0 ∧ clen got <= max
  | C_copy _ _ got => out = 0 ∧ clen got < max
  | C_store _ got => out = 0 ∧ 0 < clen got <= max
  | C_slots _ | C_rem_head | C_rem_tail _ | C_drain => 0 < out <= max
  | C_idle => 0 <= out <= max
  | _ => out = 0
  end.

Record ginv s : Prop := {
  g_call mark max : d_call s = Some (mark, max) → call_ok (d_q s) mark max;
  g_rets max r : (max, r) ∈ d_rets s → r = -1 ∨ 1 <= r <= max
}.

Lemma call_ok_cons q mark max q' :
  call_ok q mark max → cons_step max q = Some q' → call_ok q' mark max.
Proof.
  unfold call_ok, cons_step. intros [Hmax H] Hs. split; [done|].
  destruct (q_cons q) eqn:Eq; simplify_eq; cbn in *; try done; try lia.
  all: pose proof (@clen_nonneg (option A)) as Hl.
  all: rewrite ?clen_app; repeat case_match; simplify_eq; cbn in *;
    rewrite ?andb_true_iff, ?Z.ltb_lt, ?Z.eqb_neq, ?Z.eqb_eq in *; try done; try lia.
  - change (clen (@nil (option A))) with 0. lia.
  - simplify_eq. pose proof (Hl got0). lia.
  - simplify_eq. lia.
  - simplify_eq. pose proof (Hl got0). lia.
  - unfold clen in *. cbn. lia.
Qed.

Lemma exec_cons_out q a q' :
  exec q a = Some q' → (∀ m, a ≠ Cons m) → a ≠ StartWait → a ≠ StartBatch → q_cons q' = q_cons q ∧ q_out q' = q_out q.
Proof.
  destruct a; cbn; intros H Hc Hw Hb; try done; try by destruct (Hc max_records).
  - apply bind_Some in H as (p & Hi & H). destruct p; cbn in H; repeat case_match; simplify_eq; done.
  - repeat case_match; simplify_eq; done.
  - unfold close_step in H. repeat case_match; simplify_eq; done.
  - repeat case_match; simplify_eq; done.
  - repeat case_match; simplify_eq; done.
Qed.

Lemma ginv_access s a s' : ginv s → queue_access s a = Some s' → ginv s'.
Proof.
  intros [Hc Hr] H. unfold queue_access in H. destruct (allowed s a) eqn:Ea; [|done]. cbn in H.
  assert (∃ q, exec (d_q s) a = Some q ∧ d_call s' = d_call s ∧ d_rets s' = d_rets s ∧ d_q s' = q) as (q & Hq & E1 & E2 & <-).
  { crack; cbn; eauto. }
  constructor; rewrite ?E1, ?E2; [|done]. intros mark max Ec. specialize (Hc _ _ Ec). unfold allowed in Ea. rewrite Ec in Ea.
  assert ((∀ m, a ≠ Cons m) ∧ a ≠ StartWait ∧ a ≠ StartBatch ∨ a = Cons max) as [(H1 & H2 & H3)| ->].
  { destruct a; auto; try done. apply Z.eqb_eq in Ea as ->. auto. }
  - destruct (exec_cons_out _ _ _ Hq H1 H2 H3) as [E3 E4]. unfold call_ok in *. by rewrite E3, E4.
  - by eapply call_ok_cons.
Qed.

Lemma ginv_ext s s' :
  ginv s → d_call s' = d_call s → d_rets s' = d_rets s → q_cons (d_q s') = q_cons (d_q s) → q_out (d_q s') = q_out (d_q s) → ginv s'.
Proof.
  intros [H1 H2] E1 E2 E3 E4. constructor; rewrite ?E1, ?E2; [|done]. intros mark max E. specialize (H1 _ _ E).
  unfold call_ok in *. by rewrite E3, E4.
Qed.

Lemma ginv_ret s r max : ginv s → r = -1 ∨ 1 <= r <= max → ginv (put_call s None (d_rets s ++ [(max, r)])).
Proof.
  intros [_ Hr] H. constructor; cbn; [done|]. intros m r'. rewrite elem_of_app, list_elem_of_singleton.
  intros [?|[= -> ->]]; eauto.
Qed.

Lemma ginv_exec s a s' : d_dead s = false → ginv s → dexec s a = Some s' → ginv s'.
Proof.
  intros Hd Hg H. destruct a; cbn in H; rewrite ?Hd in H.
  - by eapply ginv_access.
  - crack; by eapply ginv_ext.
  - apply bind_Some in H as (w & Hi & H). apply bind_Some in H as (s1 & H & [= <-]).
    unfold mpsc_queue_wait_empty in H. crack; by eapply ginv_ext.
  - crack; by eapply ginv_ext.
  - apply bind_Some in H as (s1 & H & [= <-]). unfold get_batch_call in H. destruct (d_call s) eqn:Ec; [done|].
    destruct (Z.eqb_spec (Z.of_N max_records) 0); [injection H as <-; by apply ginv_ret; [|left]|].
    apply bind_Some in H as (q & Hq & [= <-]). cbn in Hq. destruct (q_cons (d_q s)) eqn:Eq; try done. injection Hq as <-.
    constructor; cbn; [|by destruct Hg]. intros mark max [= <- <-]. unfold call_ok. cbn. unfold clen. lia.
  - apply bind_Some in H as (s1 & H & [= <-]). unfold mpsc_queue_get_batch in H.
    apply bind_Some in H as ([mark max] & Ec & H). pose proof (g_call _ Hg _ _ Ec) as [Hmax Hok].
    destruct (q_cons (d_q s)) eqn:Eq; try done.
    + destruct (Nat.eqb_spec (length (q_out (d_q s)) - mark) 0) as [E|E].
      * apply bind_Some in H as (q & Hq & [= <-]). cbn in Hq. rewrite Eq in Hq. injection Hq as <-.
        constructor; cbn; [|by destruct Hg]. intros mark' max'. rewrite Ec. intros [= <- <-]. unfold call_ok, clen in *. cbn. lia.
      * injection H as <-. apply ginv_ret; [done|right]. unfold clen in Hok. lia.
    + injection H as <-. by apply ginv_ret; [|left].
  - crack; by eapply ginv_ext.
  - unfold mpsc_queue_destroy in H. crack; by eapply ginv_ext.
Qed.

End waiting.

(** ** Properties *)

(** C7: [mpsc_queue_wait_empty], called by any number of threads beside producers,
    consumer and closer, is a barrier that does not hang. When it returns, every
    position claimed before it was called has been consumed; a thread asleep on the
    condition variable while the queue is empty has a broadcast of the consumer
    coming, and when no other thread is in the critical section the consumer's next
    accesses alone bring it: after them four accesses of the sleeper make it return (no
    spurious wake-up, producer or other thread is needed). At most one thread is in the
    critical section. *)
Theorem wait_empty_correct {A} n k p m (s : dsys A) :
  0 <= k <= 62 → dsteps n (d_init (2 ^ k) p m) s → Z.of_nat n <= 2 ^ 62 → d_destroy s = X_idle →
  (∀ i mark, d_waiters s !! i = Some (E_done mark) → mark <= q_tail (d_q s)) ∧
  (∀ i mark, d_waiters s !! i = Some (E_sleep mark) → q_head (d_q s) = q_tail (d_q s) →
     draining (q_cons (d_q s)) ∧
     (d_mutex s = None → ∃ j s',
        dexec_all s (repeat (Q (Cons (bound s))) j ++ repeat (Waiter i) 4) = Some s' ∧ d_waiters s' !! i = Some (E_done mark))) ∧
  (∀ i j v w, d_waiters s !! i = Some v → d_waiters s !! j = Some w → holds_mutex v → holds_mutex w → i = j).
Proof.
  intros Hk Hs Hn Hd. pose proof (dinv_steps n k p m s Hk Hs Hn Hd) as [Hm Hok].
  destruct (dsteps_below _ _ _ _ _ Hs Hd) as (Halive & n' & Hn' & Hq).
  pose proof (inv_steps n' k p (d_q s) Hk Hq ltac:(lia)) as Hinv. split_and!.
  - intros i mark Hi. exact (Hok _ _ Hi).
  - intros i mark Hi He. pose proof (proj2 (Hok _ _ Hi) He) as Hdr. split; [done|]. intros Hmx.
    destruct (drain_wakes _ s i mark Hinv ltac:(done) Hdr) as (j & s1 & E1 & H1 & H2 & H3 & H4).
    destruct (woken_returns s1 i mark H1 H2 H3 H4) as (s2 & E2 & H5).
    exists j, s2. by rewrite (dexec_all_app _ _ _ _ E1).
  - intros i j v w Hi Hj Hv Hw. pose proof (Hm _ _ Hi Hv). pose proof (Hm _ _ Hj Hw). congruence.
Qed.

(** A flush that arrives while record 7 is queued, and the consumer that takes it. *)
Definition flush_schedule : list (daction Z) :=
  [Q (StartPut 0 (Op 7 false))] ++ repeat (Q (Prod 0)) 9 ++
  [WaitEmpty 0; Waiter 0; Waiter 0; Waiter 0; Q StartBatch] ++ repeat (Q (Cons 8)) 6.

Lemma wait_empty_correct_witness :
  ∃ s : dsys Z, dexec_all (d_init (2 ^ 1) 1 1) flush_schedule = Some s ∧ d_waiters s = [E_sleep 1] ∧
    ∃ j s', dexec_all s (repeat (Q (Cons (bound s))) j ++ repeat (Waiter 0) 4) = Some s' ∧ d_waiters s' !! 0%nat = Some (E_done 1).
Proof.
  assert ((λ s, (d_waiters s, d_destroy s, d_mutex s, q_head (d_q s) - q_tail (d_q s))) <$>
    dexec_all (d_init (2 ^ 1) 1 1) flush_schedule = Some ([E_sleep 1], X_idle, None, 0)) as E by (vm_compute; reflexivity).
  destruct (dexec_all (d_init (2 ^ 1) 1 1) flush_schedule) as [s|] eqn:Es; [|discriminate].
  injection E as E1 E2 E3 E4. exists s. split_and!; [done..|].
  pose proof (dexec_all_steps 0 (d_init (2 ^ 1) 1 1) _ s flush_schedule (dsteps_O _) Es) as H.
  destruct (wait_empty_correct (0 + length flush_schedule) 1 1 1 s ltac:(lia) H) as (_ & Hw & _);
    [vm_compute; discriminate|done|]. apply (Hw 0%nat 1); [by rewrite E1|lia|done].
Defined.

(** A blocking [get_batch] never returns 0: it returns -1, or between 1 and the bound
    it was given. *)
Theorem get_batch_returns {A} n k p m (s : dsys A) max r :
  dsteps n (d_init (2 ^ k) p m) s → d_destroy s = X_idle → (max, r) ∈ d_rets s → r = -1 ∨ 1 <= r <= max.
Proof.
  intros Hs Hd. assert (ginv s) as Hg; [|by apply (g_rets _ Hg)].
  remember (d_init (2 ^ k) p m) as s0 eqn:E. induction Hs as [s|n s s1 s2 a H IH Hex]; subst.
  - constructor; cbn; [done|]. intros ? ? Hin%elem_of_nil. done.
  - pose proof (dexec_alive _ _ _ Hex Hd) as Hd1.
    destruct (dsteps_below _ _ _ _ _ H Hd1) as [Ha _]. eapply ginv_exec; eauto.
Qed.

(** The producer's wake-up is the weak compare-and-swap of the portability layer: the
    [Prod] and the [Weak] step are its two answers. *)
Lemma queue_signal_consumer_cas {A} (s : qstate A) i o ret sp :
  q_prods s !! i = Some (P_signal o ret) →
  let '(parked, _, ok) := clog_atomic_cas_int sp (Z.b2z (q_parked s)) 1 0 in
  ∃ s', exec s (if sp then Weak i else Prod i) = Some s' ∧ Z.b2z (q_parked s') = parked ∧
    q_prods s' = <[i := if ok =? 1 then P_post o ret else P_ret o ret]> (q_prods s).
Proof.
  intros Hi. unfold clog_atomic_cas_int. destruct sp; cbn [negb andb].
  - eexists. split; [cbn; by rewrite Hi|]. done.
  - destruct (q_parked s) eqn:E; cbn [Z.b2z Z.eqb]; (eexists; split; [cbn; rewrite Hi; cbn; by rewrite E|]); cbn; by rewrite ?E.
Qed.

(** [mpsc_queue_destroy] wakes the blocked threads and frees at once, without waiting
    for them to leave: a [put] blocked on the full queue then uses freed memory. *)
Definition destroy_schedule : list (daction Z) :=
  [Q (StartPut 0 (Op 1 false))] ++ repeat (Q (Prod 0)) 9 ++
  [Q (StartPut 1 (Op 2 true))] ++ repeat (Q (Prod 1)) 11 ++
  [StartDestroy] ++ repeat Destroy 10.

Example destroy_frees_under_put :
  (λ s, (q_prods (d_q s), d_dead s, d_ub s)) <$> dexec_all (d_init 1 2 0) destroy_schedule =
    Some ([P_idle; P_put_wait (Op 2 true)], true, false) ∧
  d_ub <$> dexec_all (d_init 1 2 0) (destroy_schedule ++ [Q (Prod 1)]) = Some true.
Proof. split; vm_compute; reflexivity. Qed.
