(* ===== verification/SocketRing.v ===== *)
(** * The lossy ring between a socket sink and its writer thread (core/socket_ring.c)

    As in the record queue, each access to a shared variable is one step and a run is
    an interleaving of any number of producers in [socket_ring_put], the writer thread
    in [socket_ring_get_batch] and the loop over the lines it returned, and a closing
    thread. Slots carry their [inline_buf]: the batch holds pointers, which the writer
    follows when it sends, after [tail] has been advanced.  Memory is sequentially
    consistent here; SocketRingWeak.v runs the same code over release/acquire memory. *)
From S2P Require Import Prelude Queue.

Local Open Scope Z_scope.

Definition SOCKET_RING_INLINE_LEN : Z := 256.

(** [sk_next_pow2]. *)
Definition sk_next_pow2 (fuel : nat) (n : Z) : option Z :=
  if n <? 2 then Some 2 else next_pow2_loop fuel 1 n.

(** [slot->line]: null, the slot's own buffer, or a heap block. *)
Inductive line_ptr := L_null | L_inline | L_heap (id : nat).

#[export] Instance line_ptr_eq_dec : EqDecision line_ptr.
Proof. solve_decision. Defined.

Record socket_ring_slot_t := RSlot {
  sl_inline : cstr;
  sl_line : line_ptr;
  sl_len : Z;
  sl_heap : bool;
  sl_seq : Z
}.

(** A call of [socket_ring_put]; [o_alloc] is what its [malloc] would return. *)
Record put_op := PutOp { o_line : cstr; o_alloc : bool }.

(** Where a producer is, named after its next access. *)
Inductive rpc :=
  | S_idle
  | S_closed (o : put_op)                                (* load closed *)
  | S_head (o : put_op)                                  (* load head *)
  | S_tail (o : put_op) (head : Z)                       (* load tail, full? *)
  | S_drop (o : put_op)                                  (* full: inc dropped *)
  | S_cas (o : put_op) (head : Z)                        (* CAS head *)
  | S_write (o : put_op) (pos : Z)                       (* fill the slot *)
  | S_pub (o : put_op) (pos : Z) (c : option cstr)       (* store seq *)
  | S_count (o : put_op) (c : option cstr)               (* count += 1 *)
  | S_post (o : put_op) (c : option cstr)                (* post items_sem *)
  | S_lost (o : put_op)                                  (* no memory: inc dropped *)
  | S_ret (o : put_op) (ret : Z).

(** A line of the batch: [lines[n]], [lengths[n]], [heaps[n]], with the ring
    position it came from. *)
Record gline := GLine { g_pos : Z; g_ptr : line_ptr; g_len : Z; g_heap : bool }.

(** The writer thread: in [socket_ring_get_batch], or using the lines it got. *)
Inductive gpc :=
  | G_idle
  | G_closed | G_chk_head | G_chk_tail (head : Z)
  | G_sem
  | G_head | G_tail (head : Z) | G_closed2
  | G_seq (tail available : Z) (got : list gline)
  | G_copy (tail available : Z) (got : list gline)
  | G_store (tail : Z) (got : list gline)
  | G_count (got : list gline)
  | G_batch (lines : list gline)
  | G_done.

Inductive rcpc := Z_idle | Z_closed | Z_post | Z_done.

(** What became of a line of a batch: sent, with the bytes read, whether the last of
    them was a newline when the writer tested it, and whether the bytes were still the
    line's own; skipped as null or empty; or given up with the rest of its batch. *)
Inductive outcome :=
  | U_sent (c : cstr) (nl clean : bool)
  | U_empty
  | U_dropped.

(** [k_heap] holds the live line copies with the position each was made for;
    [k_pub] what was published where, [k_used] the lines the writer is through with
    and what became of each, [k_wasted] the wake-ups that found the first slot claimed
    but not published; [k_ub] records a read or free of a dead block. The position,
    [k_pub], [k_used], [k_wasted] and [k_ub] are ghost. *)
Record ring := Ring {
  k_cap : Z;
  k_slots : Z → socket_ring_slot_t;
  k_head : Z;
  k_tail : Z;
  k_count : Z;
  k_dropped : Z;
  k_closed : bool;
  k_sem : Z;
  k_heap : gmap nat (Z * cstr);
  k_prods : list rpc;
  k_cons : gpc;
  k_closer : rcpc;
  k_pub : gmap Z (option cstr);
  k_used : list (Z * outcome);
  k_wasted : Z;
  k_ub : bool
}.

(** [socket_ring_create] once its capacity is rounded up. *)
Definition ring_init (cap : Z) (n : nat) : ring :=
  Ring cap (λ i, RSlot (replicate 256 0) L_null 0 false i) 0 0 0 0 false 0 ∅ (replicate n S_idle) G_idle
    Z_idle ∅ [] 0 false.

Definition socket_ring_create (fuel : nat) (capacity : Z) (alloc_ok : bool) (n : nat) : option ring :=
  if (capacity =? 0) || negb alloc_ok then None
  else cap ← sk_next_pow2 fuel capacity; Some (ring_init cap n).

Definition ring_ix (s : ring) (pos : Z) : Z := Z.land pos (k_cap s - 1).

(** Field updates. *)
Definition with_prod (s : ring) (i : nat) (p : rpc) : ring :=
  Ring (k_cap s) (k_slots s) (k_head s) (k_tail s) (k_count s) (k_dropped s) (k_closed s) (k_sem s) (k_heap s)
    (<[i := p]> (k_prods s)) (k_cons s) (k_closer s) (k_pub s) (k_used s) (k_wasted s) (k_ub s).
Definition with_cons (s : ring) (c : gpc) : ring :=
  Ring (k_cap s) (k_slots s) (k_head s) (k_tail s) (k_count s) (k_dropped s) (k_closed s) (k_sem s) (k_heap s)
    (k_prods s) c (k_closer s) (k_pub s) (k_used s) (k_wasted s) (k_ub s).
Definition with_closer (s : ring) (closed : bool) (c : rcpc) : ring :=
  Ring (k_cap s) (k_slots s) (k_head s) (k_tail s) (k_count s) (k_dropped s) closed (k_sem s) (k_heap s)
    (k_prods s) (k_cons s) c (k_pub s) (k_used s) (k_wasted s) (k_ub s).
Definition with_head (s : ring) (h : Z) : ring :=
  Ring (k_cap s) (k_slots s) h (k_tail s) (k_count s) (k_dropped s) (k_closed s) (k_sem s) (k_heap s)
    (k_prods s) (k_cons s) (k_closer s) (k_pub s) (k_used s) (k_wasted s) (k_ub s).
Definition with_tail (s : ring) (t : Z) : ring :=
  Ring (k_cap s) (k_slots s) (k_head s) t (k_count s) (k_dropped s) (k_closed s) (k_sem s) (k_heap s)
    (k_prods s) (k_cons s) (k_closer s) (k_pub s) (k_used s) (k_wasted s) (k_ub s).
Definition with_counters (s : ring) (count dropped sem wasted : Z) : ring :=
  Ring (k_cap s) (k_slots s) (k_head s) (k_tail s) count dropped (k_closed s) sem (k_heap s)
    (k_prods s) (k_cons s) (k_closer s) (k_pub s) (k_used s) wasted (k_ub s).
Definition with_slot (s : ring) (ix : Z) (c : socket_ring_slot_t) (h : gmap nat (Z * cstr)) : ring :=
  Ring (k_cap s) (λ j, if j =? ix then c else k_slots s j) (k_head s) (k_tail s) (k_count s) (k_dropped s)
    (k_closed s) (k_sem s) h (k_prods s) (k_cons s) (k_closer s) (k_pub s) (k_used s) (k_wasted s) (k_ub s).
Definition with_pub (s : ring) (pos : Z) (c : option cstr) : ring :=
  Ring (k_cap s) (k_slots s) (k_head s) (k_tail s) (k_count s) (k_dropped s) (k_closed s) (k_sem s) (k_heap s)
    (k_prods s) (k_cons s) (k_closer s) (<[pos := c]> (k_pub s)) (k_used s) (k_wasted s) (k_ub s).
Definition with_used (s : ring) (u : Z * outcome) (h : gmap nat (Z * cstr)) (ub : bool) : ring :=
  Ring (k_cap s) (k_slots s) (k_head s) (k_tail s) (k_count s) (k_dropped s) (k_closed s) (k_sem s) h
    (k_prods s) (k_cons s) (k_closer s) (k_pub s) (k_used s ++ [u]) (k_wasted s) ub.

(** [memcpy(slot->inline_buf, line, len); slot->inline_buf[len] = 0]. *)
Definition inline_store (buf line : cstr) : cstr := line ++ 0 :: drop (S (length line)) buf.

(** A fresh heap block. *)
Definition fresh_id (h : gmap nat (Z * cstr)) : nat := fresh (dom h).

(** The slot's new contents and the heap, for each branch after the claim. *)
Definition fill_slot (s : ring) (o : put_op) (pos : Z) : ring * option cstr :=
  let ix := ring_ix s pos in
  let slot := k_slots s ix in
  let len := clen (o_line o) in
  if len <? SOCKET_RING_INLINE_LEN then
    (with_slot s ix (RSlot (inline_store (sl_inline slot) (o_line o)) L_inline len false (sl_seq slot))
       (k_heap s), Some (o_line o))
  else if o_alloc o then
    let id := fresh_id (k_heap s) in
    (with_slot s ix (RSlot (sl_inline slot) (L_heap id) len true (sl_seq slot))
       (<[id := (pos, o_line o)]> (k_heap s)), Some (o_line o))
  else (with_slot s ix (RSlot (sl_inline slot) L_null 0 false (sl_seq slot)) (k_heap s), None).

(** One access of producer [i] in [socket_ring_put]. *)
Definition put_step (s : ring) (i : nat) (p : rpc) : option ring :=
  match p with
  | S_idle => None
  | S_closed o => Some (with_prod s i (if k_closed s then S_ret o (-1) else S_head o))
  | S_head o => Some (with_prod s i (S_tail o (k_head s)))
  | S_tail o head =>
      Some (with_prod s i (if usub head (k_tail s) >=? k_cap s then S_drop o else S_cas o head))
  | S_drop o =>
      Some (with_prod (with_counters s (k_count s) (u64 (k_dropped s + 1)) (k_sem s) (k_wasted s)) i (S_ret o 0))
  | S_cas o head =>
      if k_head s =? head then Some (with_prod (with_head s (u64 (head + 1))) i (S_write o head))
      else Some (with_prod s i (S_head o))
  | S_write o pos => let '(s', c) := fill_slot s o pos in Some (with_prod s' i (S_pub o pos c))
  | S_pub o pos c =>
      let ix := ring_ix s pos in
      let slot := k_slots s ix in
      Some (with_prod (with_pub (with_slot s ix
              (RSlot (sl_inline slot) (sl_line slot) (sl_len slot) (sl_heap slot) (u64 (pos + 1))) (k_heap s)) pos c)
              i (S_count o c))
  | S_count o c =>
      Some (with_prod (with_counters s (u64 (k_count s + 1)) (k_dropped s) (k_sem s) (k_wasted s)) i (S_post o c))
  | S_post o c =>
      Some (with_prod (with_counters s (k_count s) (k_dropped s) (k_sem s + 1) (k_wasted s)) i
              (match c with Some _ => S_ret o 0 | None => S_lost o end))
  | S_lost o =>
      Some (with_prod (with_counters s (k_count s) (u64 (k_dropped s + 1)) (k_sem s) (k_wasted s)) i (S_ret o (-1)))
  | S_ret o _ => Some (with_prod s i S_idle)
  end.

(** One access of [socket_ring_get_batch]. The two loads of
    [head == tail] are taken in that order. *)
Definition get_step (max_lines : Z) (s : ring) : option ring :=
  match k_cons s with
  | G_idle | G_done | G_batch _ => None
  | G_closed => Some (with_cons s (if k_closed s then G_chk_head else G_sem))
  | G_chk_head => Some (with_cons s (G_chk_tail (k_head s)))
  | G_chk_tail head => Some (with_cons s (if head =? k_tail s then G_done else G_sem))
  | G_sem =>
      if k_sem s >? 0
      then Some (with_cons (with_counters s (k_count s) (k_dropped s) (k_sem s - 1) (k_wasted s)) G_head)
      else None
  | G_head => Some (with_cons s (G_tail (k_head s)))
  | G_tail head =>
      let available := usub head (k_tail s) in
      Some (with_cons s (if available =? 0 then G_closed2 else G_seq (k_tail s) available []))
  | G_closed2 => Some (with_cons s (if k_closed s then G_done else G_closed))
  | G_seq tail available got =>
      let n := clen got in
      let pos := u64 (tail + n) in
      if (n <? available) && (n <? max_lines) &&
         (sl_seq (k_slots s (ring_ix s pos)) =? u64 (pos + 1))
      then Some (with_cons s (G_copy tail available got))
      else if n =? 0
      then Some (with_cons (with_counters s (k_count s) (k_dropped s) (k_sem s) (k_wasted s + 1)) G_closed)
      else Some (with_cons s (G_store tail got))
  | G_copy tail available got =>
      let pos := u64 (tail + clen got) in
      let ix := ring_ix s pos in
      let slot := k_slots s ix in
      Some (with_cons (with_slot s ix (RSlot (sl_inline slot) L_null 0 false (sl_seq slot)) (k_heap s))
              (G_seq tail available (got ++ [GLine pos (sl_line slot) (sl_len slot) (sl_heap slot)])))
  | G_store tail got => Some (with_cons (with_tail s (u64 (tail + clen got))) (G_count got))
  | G_count got =>
      Some (with_cons (with_counters s (u64 (k_count s - clen got)) (k_dropped s) (k_sem s) (k_wasted s))
              (G_batch got))
  end.

(** The bytes of the line are its own until a producer claims its slot again; a heap
    copy belongs to the writer. *)
Definition line_clean (s : ring) (g : gline) : bool := g_heap g || (k_head s <=? g_pos g + k_cap s).

(** The bytes behind a line of the batch once they have all been read; [None] if its
    block is dead. The writer tests and copies an inline line in its slot byte by byte:
    when the slot was claimed again before the last read, what it got is any mixture of
    old and new bytes, [torn]. *)
Definition line_read (torn : cstr) (s : ring) (g : gline) : option cstr :=
  match g_ptr g with
  | L_null => None
  | L_inline =>
      Some (if line_clean s g then take (Z.to_nat (g_len g)) (sl_inline (k_slots s (ring_ix s (g_pos g))))
            else resize (Z.to_nat (g_len g)) 0 torn)
  | L_heap id => (λ b, take (Z.to_nat (g_len g)) b.2) <$> k_heap s !! id
  end.

(** [lines[i][lengths[i] - 1] == '\n'], a read of its own: on a line that was
    overwritten it may answer anything. *)
Definition nl_read (seen : bool) (s : ring) (g : gline) (c : cstr) : bool :=
  if line_clean s g then bool_decide (last c = Some 10) else seen.

(** [if (heap_flags[i]) free(lines[i])]: the heap and whether the free was bad. *)
Definition line_free (s : ring) (g : gline) : gmap nat (Z * cstr) * bool :=
  if g_heap g then
    match g_ptr g with
    | L_heap id => (delete id (k_heap s), negb (bool_decide (is_Some (k_heap s !! id))))
    | L_null => (k_heap s, false)
    | L_inline => (k_heap s, true)
    end
  else (k_heap s, false).

(** The end of the writer's loop body on its next line: skipped if null or empty,
    given up with its batch ([send = false]), or sent, with what the reads since the
    start of the body found; then freed. *)
Definition use_step (send : bool) (torn : cstr) (seen : bool) (s : ring) : option ring :=
  match k_cons s with
  | G_batch [] => Some (with_cons s G_idle)
  | G_batch (g :: l) =>
      let '(h, bad) := line_free s g in
      let '(u, bad_read) :=
        if negb send then (U_dropped, false)
        else if bool_decide (g_ptr g = L_null) || (g_len g =? 0) then (U_empty, false)
        else match line_read torn s g with
             | Some c => (U_sent c (nl_read seen s g c) (line_clean s g), false)
             | None => (U_empty, true)
             end in
      Some (with_cons (with_used s (g_pos g, u) h (k_ub s || bad || bad_read)) (G_batch l))
  | _ => None
  end.

(** [socket_ring_close]. *)
Definition rclose_step (s : ring) : option ring :=
  match k_closer s with
  | Z_closed => Some (with_closer s true Z_post)
  | Z_post => Some (with_closer (with_counters s (k_count s) (k_dropped s) (k_sem s + 1) (k_wasted s)) (k_closed s) Z_done)
  | _ => None
  end.

(** [socket_ring_signal]. *)
Definition socket_ring_signal (s : ring) : ring :=
  with_counters s (k_count s) (k_dropped s) (k_sem s + 1) (k_wasted s).

Inductive raction :=
  | R_put (i : nat) (o : put_op)  (* a producer calls put *)
  | R_prod (i : nat)
  | R_weak (i : nat)              (* the weak compare-and-swap fails spuriously *)
  | R_get | R_cons (max_lines : Z) | R_use (send : bool) (torn : cstr) (seen : bool)
  | R_close | R_closer | R_signal.

(** [len == 0] is refused before any shared access. *)
Definition rexec (s : ring) (a : raction) : option ring :=
  match a with
  | R_put i o =>
      match k_prods s !! i with
      | Some S_idle => Some (with_prod s i (if clen (o_line o) =? 0 then S_ret o (-1) else S_closed o))
      | _ => None
      end
  | R_prod i => p ← k_prods s !! i; put_step s i p
  | R_weak i => match k_prods s !! i with Some (S_cas o _) => Some (with_prod s i (S_head o)) | _ => None end
  | R_get => match k_cons s with G_idle | G_done => Some (with_cons s G_closed) | _ => None end
  | R_cons m => get_step m s
  | R_use b torn seen => use_step b torn seen s
  | R_close => match k_closer s with Z_idle => Some (with_closer s (k_closed s) Z_closed) | _ => None end
  | R_closer => rclose_step s
  | R_signal => Some (socket_ring_signal s)
  end.

Inductive rsteps : nat → ring → ring → Prop :=
  | rsteps_O s : rsteps O s s
  | rsteps_S n s s1 s2 a : rsteps n s s1 → rexec s1 a = Some s2 → rsteps (S n) s s2.

(** A schedule; [None] if one of its actions is not enabled. *)
Fixpoint rrun (s : ring) (l : list raction) : option ring :=
  match l with [] => Some s | a :: l' => s' ← rexec s a; rrun s' l' end.

Lemma rrun_steps s l s' : rrun s l = Some s' → rsteps (length l) s s'.
Proof.
  revert s'. induction l as [|a l IH] using rev_ind; intros s'; [intros [= <-]; constructor|].
  intros H. rewrite length_app, Nat.add_comm. simpl.
  assert (∃ s1, rrun s l = Some s1 ∧ rexec s1 a = Some s') as (s1 & H1 & H2).
  { clear IH. revert s H. induction l as [|b l IH]; simpl; intros s H.
    - apply bind_Some in H as (s1 & H & [= <-]). eauto.
    - apply bind_Some in H as (s1 & H & H'). destruct (IH _ H') as (s2 & ? & ?). exists s2. by rewrite H. }
  econstructor; eauto.
Qed.

(** ** socket_ring_destroy and socket_ring_depth *)

Fixpoint destroy_loop (s : ring) (i : nat) : gmap nat (Z * cstr) * bool :=
  match i with
  | O => (k_heap s, k_ub s)
  | S i' =>
      let '(h, ub) := destroy_loop s i' in
      let slot := k_slots s (ring_ix s (u64 (k_tail s + Z.of_nat i'))) in
      if sl_heap slot then
        match sl_line slot with
        | L_heap id => (delete id h, ub || negb (bool_decide (is_Some (h !! id))))
        | L_null => (h, ub)
        | L_inline => (h, true)
        end
      else (h, ub)
  end.

(** The heap once the ring is destroyed, and whether a free was bad. *)
Definition socket_ring_destroy (s : ring) : gmap nat (Z * cstr) * bool :=
  destroy_loop s (Z.to_nat (Z.min (usub (k_head s) (k_tail s)) (k_cap s))).

Definition socket_ring_depth (s : ring) : Z := usub (k_head s) (k_tail s).

(** ** Safety invariant *)

Lemma ring_ix_mod s k pos : k_cap s = 2 ^ k → 0 <= k → ring_ix s pos = pos mod k_cap s.
Proof.
  intros Hc Hk. unfold ring_ix. rewrite Hc.
  replace (2 ^ k - 1) with (Z.ones k) by (rewrite Z.ones_equiv; lia). by rewrite Z.land_ones.
Qed.

(** The claimed position a producer has not published yet. *)
Definition rpos (p : rpc) : option Z :=
  match p with S_write _ pos | S_pub _ pos _ => Some pos | _ => None end.

(** The lines the writer has copied out of the ring and not finished with. *)
Definition held (s : ring) : list gline :=
  match k_cons s with
  | G_seq _ _ l | G_copy _ _ l | G_store _ l | G_count l | G_batch l => l
  | _ => []
  end.

(** The first position not copied yet. *)
Definition ctail (s : ring) : Z :=
  match k_cons s with
  | G_seq t _ l | G_copy t _ l | G_store t l => t + clen l
  | _ => k_tail s
  end.

(** A line pointer, its length and its flag stand for [c]; [inl] are the bytes
    of the slot's own buffer, trusted only if [fresh]. *)
Definition stands (h : gmap nat (Z * cstr)) (pos : Z) (fresh : Prop) (inl : cstr)
    (ptr : line_ptr) (len : Z) (is_heap : bool) (c : option cstr) : Prop :=
  match ptr, c with
  | L_null, None => len = 0 ∧ is_heap = false
  | L_inline, Some l => len = clen l ∧ is_heap = false ∧ (fresh → take (length l) inl = l)
  | L_heap id, Some l => len = clen l ∧ is_heap = true ∧ h !! id = Some (pos, l)
  | _, _ => False
  end.

Definition slot_stands (s : ring) (pos : Z) (c : option cstr) : Prop :=
  let slot := k_slots s (pos mod k_cap s) in
  stands (k_heap s) pos True (sl_inline slot) (sl_line slot) (sl_len slot) (sl_heap slot) c.

Definition line_stands (s : ring) (g : gline) (c : option cstr) : Prop :=
  stands (k_heap s) (g_pos g) (k_head s <= g_pos g + k_cap s)
    (sl_inline (k_slots s (g_pos g mod k_cap s))) (g_ptr g) (g_len g) (g_heap g) c.

Definition written (s : ring) (pos : Z) : Prop :=
  is_Some (k_pub s !! pos) ∨ ∃ i o c, k_prods s !! i = Some (S_pub o pos c).

(** What became of a line, against what was published at its position. *)
Definition used_ok (c : option (option cstr)) (u : outcome) : Prop :=
  match u with
  | U_sent l nl true => c = Some (Some l) ∧ nl = bool_decide (last l = Some 10)
  | U_sent l _ false => ∃ d, c = Some (Some d) ∧ length l = length d
  | U_empty => c = Some None ∨ c = Some (Some [])
  | U_dropped => is_Some c
  end.

(** Who is responsible for a live heap block. *)
Definition home (s : ring) (id : nat) (pos : Z) : Prop :=
  (ctail s <= pos < k_head s ∧ written s pos ∧ sl_line (k_slots s (pos mod k_cap s)) = L_heap id) ∨
  (∃ g, g ∈ held s ∧ g_pos g = pos ∧ g_ptr g = L_heap id ∧ g_heap g = true).

Definition get_ok (s : ring) : Prop :=
  match k_cons s with
  | G_tail h => k_tail s <= h <= k_head s
  | G_seq t av got => t = k_tail s ∧ t + av <= k_head s ∧ clen got <= av
  | G_copy t av got => t = k_tail s ∧ t + av <= k_head s ∧ clen got < av ∧ is_Some (k_pub s !! (t + clen got))
  | G_store t got => t = k_tail s ∧ t + clen got <= k_head s
  | _ => True
  end.

Record rinv (n : Z) (s : ring) : Prop := {
  r_cap : ∃ k, 1 <= k <= 62 ∧ k_cap s = 2 ^ k;
  r_pos : 0 <= k_tail s ∧ k_tail s <= ctail s <= k_head s ∧ k_head s <= k_tail s + k_cap s ∧ k_head s <= n;
  r_cas i o h : k_prods s !! i = Some (S_cas o h) → 0 <= h <= k_head s ∧ h < k_tail s + k_cap s;
  r_seen i o h : k_prods s !! i = Some (S_tail o h) → 0 <= h <= k_head s;
  r_own i p pos : k_prods s !! i = Some p → rpos p = Some pos →
    ctail s <= pos < k_head s ∧ k_pub s !! pos = None;
  r_uniq i j p p' pos : k_prods s !! i = Some p → k_prods s !! j = Some p' →
    rpos p = Some pos → rpos p' = Some pos → i = j;
  r_filled i o pos c : k_prods s !! i = Some (S_pub o pos c) → slot_stands s pos c;
  r_published pos c : k_pub s !! pos = Some c → 0 <= pos < k_head s ∧
    (k_tail s <= pos → sl_seq (k_slots s (pos mod k_cap s)) = pos + 1) ∧
    (ctail s <= pos → slot_stands s pos c);
  r_seq ix : 0 <= ix < k_cap s → sl_seq (k_slots s ix) = ix ∨
    ∃ q, is_Some (k_pub s !! q) ∧ q mod k_cap s = ix ∧ sl_seq (k_slots s ix) = q + 1;
  r_held g : g ∈ held s → ∃ c, k_pub s !! g_pos g = Some c ∧ line_stands s g c;
  r_order : (k_used s).*1 ++ map g_pos (held s) = seqZ 0 (ctail s);
  r_used pos u : (pos, u) ∈ k_used s → used_ok (k_pub s !! pos) u;
  r_heap id pos c : k_heap s !! id = Some (pos, c) → home s id pos;
  r_cons : get_ok s;
  r_ub : k_ub s = false
}.

Section ring_invariant.
Implicit Types (s : ring) (p : rpc).

Lemma rcap_pos n s : rinv n s → 2 <= k_cap s <= 2 ^ 62.
Proof.
  intros H. destruct (r_cap _ _ H) as (k & Hk & ->). split.
  - change 2 with (2 ^ 1) at 1. apply Z.pow_le_mono_r; lia.
  - apply Z.pow_le_mono_r; lia.
Qed.

Lemma rix_mod n s pos : rinv n s → ring_ix s pos = pos mod k_cap s.
Proof. intros H. destruct (r_cap _ _ H) as (k & Hk & Hc). eapply ring_ix_mod; [done|lia]. Qed.

Lemma rinv_weaken n n' s : rinv n s → n <= n' → rinv n' s.
Proof. intros [] ?. constructor; try done. lia. Qed.

(** Steps that change only the counters, the closer or the semaphore. *)
Lemma rinv_counters n s a b c d : rinv n s → rinv n (with_counters s a b c d).
Proof. intros []. by constructor. Qed.
Lemma rinv_closer n s b c : rinv n s → rinv n (with_closer s b c).
Proof. intros []. by constructor. Qed.

(** The writer moves between places where it holds the same lines. *)
Lemma rinv_with_cons n s c :
  rinv n s → held (with_cons s c) = held s → ctail (with_cons s c) = ctail s → get_ok (with_cons s c) →
  rinv n (with_cons s c).
Proof.
  intros [] Hh Ht Hg. constructor; rewrite ?Hh, ?Ht; try done.
  intros id pos c' H. destruct (r_heap0 id pos c' H) as [(H1 & H2 & H3)|H1]; [left|right]; rewrite ?Hh, ?Ht; done.
Qed.

Lemma insert_prod s i p (j : nat) q :
  <[i := p]> (k_prods s) !! j = Some q → (j = i ∧ q = p) ∨ (j ≠ i ∧ k_prods s !! j = Some q).
Proof.
  intros H. apply list_lookup_insert_Some in H. destruct H as [(-> & -> & _)|[? ?]]; [by left|].
  right. split; [congruence|done].
Qed.

(** A producer moves on without claiming, writing or publishing. *)
Lemma rinv_with_prod n s i p p' :
  rinv n s → k_prods s !! i = Some p → rpos p = None → rpos p' = None →
  (∀ o h, p' = S_cas o h → 0 <= h <= k_head s ∧ h < k_tail s + k_cap s) →
  (∀ o h, p' = S_tail o h → 0 <= h <= k_head s) →
  rinv n (with_prod s i p').
Proof.
  intros [] Hi Hp Hp' Hcas Hseen. constructor; cbn; try done.
  - intros j o h [[-> E]|[_ ?]]%insert_prod; eauto.
  - intros j o h [[-> E]|[_ ?]]%insert_prod; eauto.
  - intros j q pos [[-> ->]|[_ ?]]%insert_prod; [congruence|eauto].
  - intros j k q q' pos [[-> ->]|[_ ?]]%insert_prod [[-> ->]|[_ ?]]%insert_prod; try congruence; eauto.
  - intros j o pos c [[-> E]|[_ ?]]%insert_prod; [by subst|eauto].
  - intros id pos c H. destruct (r_heap0 id pos c H) as [(H1 & [H2|(j & o & c' & H2)] & H3)|H1].
    + left. split; [done|]. split; [by left|done].
    + left. split; [done|]. split; [|done]. right. exists j, o, c'. cbn.
      rewrite list_lookup_insert_ne; [done|]. intros ->. rewrite Hi in H2. injection H2 as ->. done.
    + right. done.
Qed.

Lemma stands_mono h h' pos (P P' : Prop) inl inl' ptr len b c :
  (∀ id v, h !! id = Some v → v.1 = pos → h' !! id = Some v) → (P' → P ∧ inl' = inl) →
  stands h pos P inl ptr len b c → stands h' pos P' inl' ptr len b c.
Proof.
  intros Hh HP. destruct ptr, c; cbn; try done.
  - intros (? & ? & H). split_and!; [done..|]. intros HP'. destruct (HP HP') as [? ->]. auto.
  - intros (? & ? & H). split_and!; [done..|]. by apply Hh.
Qed.

(** The claim. *)
Lemma rinv_claim n s i o h :
  rinv n s → n < 2 ^ 62 → k_prods s !! i = Some (S_cas o h) → k_head s = h →
  rinv (n + 1) (with_prod (with_head s (u64 (h + 1))) i (S_write o h)).
Proof.
  intros [] Hn Hi <-. destruct (r_cas0 _ _ _ Hi) as [Hh Ht]. rewrite u64_id by (split; lia).
  assert (k_pub s !! k_head s = None) as Hnone.
  { destruct (k_pub s !! k_head s) eqn:E; [|done]. apply r_published0 in E. lia. }
  assert (∀ j q pos, k_prods s !! j = Some q → rpos q = Some pos → pos ≠ k_head s) as Hne.
  { intros j q pos H1 H2. destruct (r_own0 j q pos H1 H2). lia. }
  constructor; cbn; try done.
  - unfold ctail in *. cbn. lia.
  - intros j o' h' [[-> E]|[_ H]]%insert_prod; [done|]. pose proof (r_cas0 _ _ _ H). lia.
  - intros j o' h' [[-> E]|[_ H]]%insert_prod; [done|]. pose proof (r_seen0 _ _ _ H). lia.
  - intros j q pos [[-> ->]|[_ H]]%insert_prod Hq; [injection Hq as <-; split; [unfold ctail in *; cbn; lia|done]|].
    destruct (r_own0 j q pos H Hq). split; [unfold ctail in *; cbn; lia|done].
  - intros j k q q' pos [[-> ->]|[_ H]]%insert_prod [[-> ->]|[_ H']]%insert_prod Hq Hq'; try congruence; eauto.
    + injection Hq as <-. by destruct (Hne _ _ _ H' Hq').
    + injection Hq' as <-. by destruct (Hne _ _ _ H Hq).
  - intros j o' pos c [[-> E]|[_ ?]]%insert_prod; [done|]. eapply r_filled0; eauto.
  - intros pos c H. destruct (r_published0 pos c H) as (? & ? & ?). split_and!; [lia|lia|done..].
  - intros g Hg. destruct (r_held0 g Hg) as (c & H1 & H2). exists c. split; [done|].
    eapply stands_mono; [| |exact H2]; [done|]. cbn. intros. split; [lia|done].
  - intros id pos c H. destruct (r_heap0 id pos c H) as [(H1 & [H2|(j & o' & c' & H2)] & H3)|H1].
    + left. split; [unfold ctail in *; cbn; lia|]. split; [by left|done].
    + left. split; [unfold ctail in *; cbn; lia|]. split; [|done]. right. exists j, o', c'. cbn.
      rewrite list_lookup_insert_ne; [done|]. intros ->. congruence.
    + right. done.
  - unfold get_ok in *. cbn. destruct (k_cons s); try done; try lia;
      destruct r_cons0 as (?&?&?); split_and!; try done; try lia; destruct H1; done || lia.
Qed.

(** Positions copied out are before the positions still in the ring. *)
Lemma held_before n s g : rinv n s → g ∈ held s → 0 <= g_pos g < ctail s.
Proof.
  intros H Hg. assert (g_pos g ∈ seqZ 0 (ctail s)) as E%elem_of_seqZ.
  { rewrite <- (r_order _ _ H). apply elem_of_app. right. by apply (list_elem_of_fmap_2 g_pos). }
  lia.
Qed.

(** Two positions in the ring have different slots. *)
Lemma ring_window n s a b :
  rinv n s → k_tail s <= a < k_head s → k_tail s <= b < k_head s → a ≠ b →
  (a mod k_cap s =? b mod k_cap s) = false.
Proof.
  intros H Ha Hb Hne. pose proof (rcap_pos n s H). pose proof (r_pos _ _ H).
  apply Z.eqb_neq. intros E. apply Hne. eapply (mod_window (k_cap s) (k_tail s)); [lia|lia|lia|done].
Qed.

(** Filling a claimed slot. *)
Lemma rinv_fill n s i o pos slot h c :
  rinv n s → k_prods s !! i = Some (S_write o pos) →
  sl_seq slot = sl_seq (k_slots s (pos mod k_cap s)) →
  (∀ id v, k_heap s !! id = Some v → h !! id = Some v) →
  (∀ id q d, h !! id = Some (q, d) → k_heap s !! id = Some (q, d) ∨ (q = pos ∧ sl_line slot = L_heap id)) →
  stands h pos True (sl_inline slot) (sl_line slot) (sl_len slot) (sl_heap slot) c →
  rinv n (with_prod (with_slot s (pos mod k_cap s) slot h) i (S_pub o pos c)).
Proof.
  intros Hinv Hi Hseq Hmono Hnew Hst. pose proof (λ g, held_before n s g Hinv) as Hbefore.
  pose proof (λ a b, ring_window n s a b Hinv) as Hwin. pose proof (rcap_pos n s Hinv) as Hc0.
  destruct Hinv. destruct (r_own0 i _ pos Hi eq_refl) as [Hpos Hnone].
  assert (∀ (j : nat) q (p' : Z), <[i := S_pub o pos c]> (k_prods s) !! j = Some q → rpos q = Some p' → j ≠ i → p' ≠ pos) as Hother.
  { intros j q p' [[-> _]|[_ H]]%insert_prod Hq Hji; [done|]. intros ->. apply Hji. eauto. }
  constructor; cbn; try done.
  - intros j o' h' [[-> E]|[_ H]]%insert_prod; [done|]. exact (r_cas0 _ _ _ H).
  - intros j o' h' [[-> E]|[_ H]]%insert_prod; [done|]. exact (r_seen0 _ _ _ H).
  - intros j q p' [[-> ->]|[_ H]]%insert_prod Hq; [injection Hq as <-; done|]. exact (r_own0 _ _ _ H Hq).
  - intros j k q q' p' H1 H2 Hq Hq'. destruct (decide (j = i)) as [->|Hj], (decide (k = i)) as [->|Hk]; try done.
    + apply insert_prod in H1 as [[_ ->]|[? _]]; [|done]. injection Hq as <-. by destruct (Hother _ _ _ H2 Hq' Hk).
    + apply insert_prod in H2 as [[_ ->]|[? _]]; [|done]. injection Hq' as <-. by destruct (Hother _ _ _ H1 Hq Hj).
    + apply insert_prod in H1 as [[? _]|[_ H1]], H2 as [[? _]|[_ H2]]; eauto; done.
  - intros j o' p' c' H. pose proof H as [[-> E]|[Hj H1]]%insert_prod.
    + injection E as -> -> ->. unfold slot_stands. cbn. by rewrite Z.eqb_refl.
    + unfold slot_stands. cbn. destruct (r_own0 j _ p' H1 eq_refl) as [? _].
      rewrite Hwin by (lia || by eapply (Hother j); eauto).
      eapply stands_mono; [| |exact (r_filled0 _ _ _ _ H1)]; [by eauto|done].
  - intros p' c' H. destruct (r_published0 p' c' H) as (H1 & H2 & H3).
    assert (k_tail s <= p' → (p' mod k_cap s =? pos mod k_cap s) = false) as Hd.
    { intros. apply Hwin; [lia|lia|congruence]. }
    split; [done|]. split.
    + intros Ht. rewrite Hd by done. auto.
    + change (ctail (with_prod _ _ _)) with (ctail s). intros Ht. unfold slot_stands. cbn. rewrite Hd by lia.
      eapply stands_mono; [| |exact (H3 Ht)]; [by eauto|done].
  - intros ix Hix. destruct (Z.eqb_spec ix (pos mod k_cap s)) as [->|]; [rewrite Hseq|]; auto.
  - change (held (with_prod _ _ _)) with (held s). intros g Hg. destruct (r_held0 g Hg) as (d & H1 & H2).
    exists d. split; [done|]. unfold line_stands. cbn.
    eapply stands_mono; [| |exact H2]; [by eauto|]. intros Hf. split; [done|].
    pose proof (Hbefore g Hg). destruct (Z.eqb_spec (g_pos g mod k_cap s) (pos mod k_cap s)) as [E|]; [|done].
    assert (g_pos g = pos); [|lia]. eapply (mod_window (k_cap s) (g_pos g)); [lia|lia|lia|done].
  - intros id p' d H. destruct (Hnew _ _ _ H) as [H0|[-> Hl]].
    + destruct (r_heap0 id p' d H0) as [(H1 & H2 & H3)|H1]; [left|by right].
      split; [done|]. assert (p' ≠ pos) as Hne.
      { intros ->. destruct H2 as [[? ?]|(j & o' & c' & H2)]; [congruence|].
        pose proof (r_uniq0 j i _ _ _ H2 Hi eq_refl eq_refl). congruence. }
      split; [|cbn; by rewrite Hwin by lia]. destruct H2 as [|(j & o' & c' & H2)]; [by left|right].
      exists j, o', c'. cbn. rewrite list_lookup_insert_ne; [done|]. intros ->. congruence.
    + left. split; [done|]. split; [|cbn; by rewrite Z.eqb_refl]. right. exists i, o, c. cbn.
      by rewrite list_lookup_insert_eq by (by eapply lookup_lt_Some).
Qed.

Lemma pub_insert_keep s pos c x y :
  k_pub s !! pos = None → k_pub s !! x = Some y → <[pos := c]> (k_pub s) !! x = Some y.
Proof. intros H1 H2. rewrite lookup_insert_ne; [done|]. intros ->. congruence. Qed.

Lemma used_ok_keep s pos c x u :
  k_pub s !! pos = None → used_ok (k_pub s !! x) u → used_ok (<[pos := c]> (k_pub s) !! x) u.
Proof.
  intros H1 H2. destruct (decide (x = pos)) as [->|]; [|by rewrite lookup_insert_ne].
  rewrite H1 in H2. destruct u as [? ? []| |]; cbn in H2; [by destruct H2|by destruct H2 as (? & ? & _)|by destruct H2|by destruct H2].
Qed.

(** Publishing. *)
Lemma rinv_publish n s i o pos c :
  rinv n s → k_prods s !! i = Some (S_pub o pos c) →
  let slot := k_slots s (pos mod k_cap s) in
  rinv n (with_prod (with_pub (with_slot s (pos mod k_cap s)
    (RSlot (sl_inline slot) (sl_line slot) (sl_len slot) (sl_heap slot) (pos + 1)) (k_heap s)) pos c) i (S_count o c)).
Proof.
  intros Hinv Hi slot. pose proof (λ a b, ring_window n s a b Hinv) as Hwin. pose proof (rcap_pos n s Hinv) as Hc0.
  destruct Hinv. destruct (r_own0 i _ pos Hi eq_refl) as [Hpos Hnone].
  set (slot' := RSlot _ _ _ _ _).
  assert (∀ ix, sl_inline (if ix =? pos mod k_cap s then slot' else k_slots s ix) = sl_inline (k_slots s ix) ∧
    sl_line (if ix =? pos mod k_cap s then slot' else k_slots s ix) = sl_line (k_slots s ix) ∧
    sl_len (if ix =? pos mod k_cap s then slot' else k_slots s ix) = sl_len (k_slots s ix) ∧
    sl_heap (if ix =? pos mod k_cap s then slot' else k_slots s ix) = sl_heap (k_slots s ix)) as Hsame.
  { intros ix. destruct (Z.eqb_spec ix (pos mod k_cap s)) as [->|]; done. }
  assert (∀ (j : nat) q, <[i := S_count o c]> (k_prods s) !! j = Some q → k_prods s !! j = Some q ∧ j ≠ i ∨ q = S_count o c) as Hother.
  { intros j q [[-> ->]|[? H]]%insert_prod; [by right|by left]. }
  constructor; cbn; try done.
  - intros j o' h' [[H _]|H]%Hother; [|done]. exact (r_cas0 _ _ _ H).
  - intros j o' h' [[H _]|H]%Hother; [|done]. exact (r_seen0 _ _ _ H).
  - intros j q p' [[H Hj]| ->]%Hother Hq; [|done]. change (ctail (with_prod _ _ _)) with (ctail s).
    rewrite lookup_insert_ne; [exact (r_own0 _ _ _ H Hq)|]. intros ->. apply Hj. eauto.
  - intros j k q q' p' [[H _]| ->]%Hother [[H' _]| ->]%Hother; try done. eauto.
  - intros j o' p' c' [[H _]|H]%Hother; [|done]. unfold slot_stands. cbn.
    destruct (Hsame (p' mod k_cap s)) as (-> & -> & -> & ->). exact (r_filled0 _ _ _ _ H).
  - intros p' c'. rewrite lookup_insert. change (ctail (with_prod _ _ _)) with (ctail s). unfold slot_stands. cbn.
    destruct (Hsame (p' mod k_cap s)) as (-> & -> & -> & ->). case_decide as Hd.
    + intros [= <-]. subst p'. split; [lia|]. rewrite Z.eqb_refl. split; [done|]. intros _. exact (r_filled0 _ _ _ _ Hi).
    + intros H. destruct (r_published0 p' c' H) as (H1 & H2 & H3). split; [done|]. split; [|done].
      intros Ht. rewrite Hwin; [auto|lia|lia|done].
  - intros ix Hix. destruct (Z.eqb_spec ix (pos mod k_cap s)) as [->|Hne]; simpl.
    + right. exists pos. rewrite lookup_insert_eq. eauto.
    + destruct (r_seq0 ix Hix) as [H|(q & [y Hq] & Hm & Hs)]; [by left|right].
      exists q. split_and!; [|done|done]. exists y. by apply pub_insert_keep.
  - change (held (with_prod _ _ _)) with (held s). intros g Hg. destruct (r_held0 g Hg) as (d & H1 & H2).
    exists d. split; [by apply pub_insert_keep|]. unfold line_stands. cbn. by destruct (Hsame (g_pos g mod k_cap s)) as (-> & _).
  - intros p' d H. apply used_ok_keep; [done|]. exact (r_used0 _ _ H).
  - intros id p' d H. destruct (r_heap0 id p' d H) as [(H1 & H2 & H3)|H1]; [left|by right].
    split; [done|]. split; [|cbn; by destruct (Hsame (p' mod k_cap s)) as (_ & -> & _)].
    destruct H2 as [[y H2]|(j & o' & c' & H2)].
    + left. exists y. by apply pub_insert_keep.
    + destruct (decide (j = i)) as [->|Hj].
      * left. rewrite Hi in H2. injection H2 as -> -> ->. exists c'. apply lookup_insert_eq.
      * right. exists j, o', c'. cbn. by rewrite list_lookup_insert_ne.
  - unfold get_ok in *. cbn. destruct (k_cons s); try done. destruct r_cons0 as (?&?&?&[y Hy]).
    split_and!; [done..|]. exists y. by apply pub_insert_keep.
Qed.

Lemma slot_published n s pos :
  rinv n s → 0 <= pos → sl_seq (k_slots s (pos mod k_cap s)) = pos + 1 → is_Some (k_pub s !! pos).
Proof.
  intros Hinv Hpos H. pose proof (rcap_pos n s Hinv). destruct (r_seq _ _ Hinv (pos mod k_cap s)) as [E|(q & Hq & _ & E)].
  - apply Z.mod_pos_bound. lia.
  - pose proof (Z.mod_le pos (k_cap s)). lia.
  - by assert (q = pos) as -> by lia.
Qed.

(** Copying a line out and clearing its slot. *)
Lemma rinv_copy n s t av got :
  rinv n s → k_cons s = G_copy t av got →
  let pos := t + clen got in
  let slot := k_slots s (pos mod k_cap s) in
  rinv n (with_cons (with_slot s (pos mod k_cap s) (RSlot (sl_inline slot) L_null 0 false (sl_seq slot)) (k_heap s))
            (G_seq t av (got ++ [GLine pos (sl_line slot) (sl_len slot) (sl_heap slot)]))).
Proof.
  intros Hinv Hc pos slot. pose proof (λ a b, ring_window n s a b Hinv) as Hwin. pose proof (rcap_pos n s Hinv) as Hc0.
  destruct Hinv. unfold get_ok in r_cons0. rewrite Hc in r_cons0. destruct r_cons0 as (-> & Hav & Hlen & [c Hpub]).
  pose proof (clen_nonneg got) as Hg0. fold pos in Hpub.
  assert (ctail s = pos) as Hct by (unfold ctail; by rewrite Hc).
  assert (held s = got) as Hheld by (unfold held; by rewrite Hc).
  destruct (r_published0 pos c Hpub) as (Hp1 & Hp2 & Hp3). specialize (Hp3 ltac:(lia)).
  set (g := GLine pos _ _ _). set (slot' := RSlot _ _ _ _ _).
  assert (∀ ix, sl_inline (if ix =? pos mod k_cap s then slot' else k_slots s ix) = sl_inline (k_slots s ix) ∧
    sl_seq (if ix =? pos mod k_cap s then slot' else k_slots s ix) = sl_seq (k_slots s ix)) as Hsame.
  { intros ix. destruct (Z.eqb_spec ix (pos mod k_cap s)) as [->|]; done. }
  set (s' := with_cons _ _).
  assert (ctail s' = pos + 1) as Hct' by (unfold ctail; cbn; rewrite clen_app; change (clen [g]) with 1; lia).
  assert (held s' = got ++ [g]) as Hheld' by done.
  assert (∀ q d, pos + 1 <= q < k_head s → slot_stands s q d → slot_stands s' q d) as Hslots.
  { intros q d Hq H. unfold slot_stands. cbn. by rewrite Hwin by lia. }
  constructor; rewrite ?Hct', ?Hheld'; try done.
  - cbn. lia.
  - intros j q p' H1 H2. destruct (r_own0 j q p' H1 H2) as [? Hn]. split; [|done].
    assert (p' ≠ pos) by congruence. cbn. lia.
  - intros j o p' c' H. pose proof (r_own0 j _ p' H eq_refl) as [? Hn]. assert (p' ≠ pos) by congruence.
    apply Hslots; [lia|]. exact (r_filled0 _ _ _ _ H).
  - intros p' c' H. destruct (r_published0 p' c' H) as (H1 & H2 & H3). split; [done|].
    split; [cbn; destruct (Hsame (p' mod k_cap s)) as [_ ->]; done|]. intros Ht. apply Hslots; [lia|]. apply H3. lia.
  - intros ix Hix. cbn in Hix |- *. destruct (Hsame ix) as [_ ->]. exact (r_seq0 ix Hix).
  - intros g' [Hg|Hg]%elem_of_app.
    + destruct (r_held0 g') as (d & H1 & H2); [by rewrite Hheld|]. exists d. split; [done|].
      unfold line_stands. cbn. by destruct (Hsame (g_pos g' mod k_cap s)) as [-> _].
    + apply list_elem_of_singleton in Hg as ->. exists c. split; [done|]. unfold line_stands. cbn.
      rewrite Z.eqb_refl. cbn. eapply stands_mono; [| |exact Hp3]; done.
  - rewrite map_app, app_assoc. rewrite Hheld, Hct in r_order0. change (k_used s') with (k_used s). rewrite r_order0. cbn.
    rewrite (seqZ_app 0 pos 1) by lia. done.
  - intros id p' d H. destruct (r_heap0 id p' d H) as [(H1 & H2 & H3)|(g' & H1 & H2)].
    + destruct (decide (p' = pos)) as [->|Hne].
      * right. exists g. rewrite Hheld'. split; [apply elem_of_app; right; by apply list_elem_of_singleton|].
        split; [done|]. split; [done|]. unfold slot_stands in Hp3. fold slot in Hp3, H3. rewrite H3 in Hp3. cbn in Hp3.
        destruct c; [|done]. cbn. apply Hp3.
      * left. rewrite Hct'. split; [cbn; lia|]. split; [done|]. cbn. rewrite Hwin; [done|lia|lia|done].
    + right. exists g'. rewrite Hheld in H1. rewrite Hheld'. split; [apply elem_of_app; by left|done].
  - unfold get_ok. cbn. rewrite clen_app. change (clen [g]) with 1. split_and!; [done|lia|lia].
Qed.

(** [tail] is advanced past the copied lines. *)
Lemma rinv_store n s t got :
  rinv n s → k_cons s = G_store t got → rinv n (with_cons (with_tail s (t + clen got)) (G_count got)).
Proof.
  intros Hinv Hc. destruct Hinv. unfold get_ok in r_cons0. rewrite Hc in r_cons0. destruct r_cons0 as (-> & Hle).
  pose proof (clen_nonneg got) as Hg0.
  assert (ctail s = k_tail s + clen got) as Hct by (unfold ctail; by rewrite Hc).
  assert (held s = got) as Hheld by (unfold held; by rewrite Hc).
  set (s' := with_cons _ _). assert (ctail s' = ctail s) as Hct' by (by rewrite Hct).
  assert (held s' = held s) as Hheld' by (by rewrite Hheld).
  constructor; rewrite ?Hct', ?Hheld'; try done.
  - cbn. lia.
  - intros i o h H. destruct (r_cas0 i o h H). cbn. lia.
  - intros pos c H. destruct (r_published0 pos c H) as (H1 & H2 & H3). split; [done|]. split; [|done].
    cbn. intros. apply H2. lia.
  - intros id pos c H. destruct (r_heap0 id pos c H) as [(H1 & H2 & H3)|H1]; [left|right]; rewrite ?Hct', ?Hheld'; done.
Qed.

(** Freeing a held line: it was live, and the rest keeps its blocks. *)
Lemma line_free_ok n s g l :
  rinv n s → k_cons s = G_batch (g :: l) →
  (line_free s g).2 = false ∧
  (∀ id v, k_heap s !! id = Some v → v.1 ≠ g_pos g → (line_free s g).1 !! id = Some v) ∧
  (∀ id v, (line_free s g).1 !! id = Some v → k_heap s !! id = Some v ∧ (g_heap g = true → g_ptr g ≠ L_heap id)).
Proof.
  intros Hinv Hc. destruct (r_held _ _ Hinv g) as (c & _ & Hg); [unfold held; rewrite Hc; left|].
  unfold line_stands, stands, line_free in *. destruct (g_ptr g) as [| |id0], c as [c|]; try done.
  - destruct Hg as [_ ->]. split_and!; [done..|]. intros. by split.
  - destruct Hg as (_ & -> & _). split_and!; [done..|]. intros. by split.
  - destruct Hg as (_ & -> & H). cbn. split; [by rewrite H|]. split.
    + intros id v Hv Hne. rewrite lookup_delete_ne; [done|]. intros ->. rewrite H in Hv. injection Hv as <-. done.
    + intros id v Hv. apply lookup_delete_Some in Hv as [Hne Hv]. split; [done|]. intros _ [= ->]. done.
Qed.

(** What the writer reads of a line in its hands, by what was published there. *)
Lemma line_read_ok n s g l torn seen c :
  rinv n s → k_cons s = G_batch (g :: l) → k_pub s !! g_pos g = Some c → g_ptr g ≠ L_null →
  ∃ d, line_read torn s g = Some d ∧ used_ok (Some c) (U_sent d (nl_read seen s g d) (line_clean s g)).
Proof.
  intros Hinv Hc Hpub Hnn. destruct (r_held _ _ Hinv g) as (c' & Hp & Hg); [unfold held; rewrite Hc; left|].
  rewrite Hpub in Hp. injection Hp as <-.
  unfold line_stands, stands, line_read, nl_read, line_clean in *. rewrite (rix_mod n) by done.
  destruct (g_ptr g) as [| |id0], c as [c|]; try done.
  - destruct Hg as (-> & -> & H). cbn [orb]. replace (Z.to_nat (clen c)) with (length c) by (unfold clen; lia).
    destruct (Z.leb_spec (k_head s) (g_pos g + k_cap s)) as [Hcl|Hcl]; (eexists; split; [reflexivity|]); cbn.
    + by rewrite (H Hcl).
    + exists c. by rewrite length_resize.
  - destruct Hg as (-> & -> & ->). cbn. eexists. split; [reflexivity|]. unfold clen. rewrite Nat2Z.id. by rewrite firstn_all.
Qed.

(** A line the writer skips has nothing published. *)
Lemma line_skip_ok n s g l c :
  rinv n s → k_cons s = G_batch (g :: l) → k_pub s !! g_pos g = Some c →
  bool_decide (g_ptr g = L_null) || (g_len g =? 0) = true → used_ok (Some c) U_empty.
Proof.
  intros Hinv Hc Hpub Hskip. destruct (r_held _ _ Hinv g) as (c' & Hp & Hg); [unfold held; rewrite Hc; left|].
  rewrite Hpub in Hp. injection Hp as <-. unfold line_stands, stands in Hg. cbn.
  destruct (g_ptr g) as [| |id0], c as [c|]; try done; [by left|right..];
    destruct Hg as (E & _); rewrite E in Hskip; apply orb_true_iff in Hskip as [Hskip%bool_decide_eq_true|Hskip%Z.eqb_eq];
    try done; destruct c; done.
Qed.

(** The writer finishes with a line. *)
Lemma rinv_use n s b torn seen s' : rinv n s → use_step b torn seen s = Some s' → rinv n s'.
Proof.
  intros Hinv Hstep. unfold use_step in Hstep. destruct (k_cons s) as [| | | | | | | | | | | |[|g l]|] eqn:Hc; try done.
  { injection Hstep as <-. apply rinv_with_cons; [done|unfold held; by rewrite Hc|unfold ctail; by rewrite Hc|done]. }
  destruct (line_free_ok n s g l Hinv Hc) as (Hbad & Hkeep & Honly).
  assert (Hbefore : ∀ g', g' ∈ held s → 0 <= g_pos g' < ctail s) by (intros g'; by apply (held_before n)).
  assert (held s = g :: l) as Hheld by (unfold held; by rewrite Hc).
  assert (g ∈ held s) as Hin by (rewrite Hheld; left).
  destruct (r_held _ _ Hinv g Hin) as (d & Hd & _).
  destruct (line_free s g) as [h bad] eqn:Hfree. cbn in Hbad, Hkeep, Honly. subst bad.
  assert (∃ u, used_ok (k_pub s !! g_pos g) u ∧
    Some (with_cons (with_used s (g_pos g, u) h (k_ub s)) (G_batch l)) = Some s') as (u & Hu & E).
  { rewrite <- Hstep, Hd. destruct b; cbn [negb]; [|exists U_dropped; rewrite !orb_false_r; split; [by eexists|done]].
    destruct (bool_decide (g_ptr g = L_null) || (g_len g =? 0)) eqn:Hskip.
    - exists U_empty. rewrite !orb_false_r. split; [by eapply line_skip_ok|done].
    - apply orb_false_iff in Hskip as [Hnn%bool_decide_eq_false _].
      destruct (line_read_ok n s g l torn seen d Hinv Hc Hd Hnn) as (x & -> & Hx).
      eexists. rewrite !orb_false_r. split; [exact Hx|done]. }
  injection E as <-. clear Hstep. set (s' := with_cons _ _).
  assert (ctail s' = ctail s) as Hct by (unfold ctail; rewrite Hc; done). assert (held s' = l) as Hheld' by done.
  pose proof Hinv as []. pose proof (Hbefore g Hin) as Hgp.
  assert (∀ g', g' ∈ l → g_pos g' ≠ g_pos g) as Hdist.
  { intros g' Hg' E. assert (NoDup (map g_pos (g :: l))) as Hnd.
    { rewrite Hheld in r_order0. pose proof (NoDup_seqZ 0 (ctail s)) as Hn. rewrite <- r_order0 in Hn.
      by apply NoDup_app in Hn as (_ & _ & Hn). }
    cbn in Hnd. apply NoDup_cons in Hnd as [Hni _]. apply Hni. rewrite <- E. by apply (list_elem_of_fmap_2 g_pos). }
  assert (∀ q P inl ptr len hb d, q ≠ g_pos g → stands (k_heap s) q P inl ptr len hb d → stands h q P inl ptr len hb d) as Hst.
  { intros q P inl ptr len hb d' Hq. apply stands_mono; [|done]. intros id v Hv Hvq. apply Hkeep; [done|congruence]. }
  constructor; rewrite ?Hct, ?Hheld'; try done.
  - intros j o pos c H. destruct (r_own0 j _ pos H eq_refl) as [? _].
    apply Hst; [lia|]. exact (r_filled0 _ _ _ _ H).
  - intros pos c H. destruct (r_published0 pos c H) as (H1 & H2 & H3). split; [done|]. split; [done|].
    intros Hp. apply Hst; [lia|]. exact (H3 Hp).
  - intros g' Hg'. destruct (r_held0 g') as (c & H1 & H2); [rewrite Hheld; by right|]. exists c. split; [done|].
    by apply Hst; [apply Hdist|].
  - cbn. rewrite fmap_app. cbn. rewrite <- app_assoc. rewrite Hheld in r_order0. exact r_order0.
  - intros pos u'. cbn. rewrite elem_of_app, list_elem_of_singleton. intros [H|[= -> ->]]; [by apply r_used0|done].
  - intros id pos c H. destruct (Honly id (pos, c) H) as [H0 Hne].
    destruct (r_heap0 id pos c H0) as [(H1 & H2 & H3)|(g' & H1 & H2 & H3 & H4)]; [left; by rewrite Hct|right].
    rewrite Hheld in H1. apply elem_of_cons in H1 as [->|H1]; [by destruct (Hne H4)|]. exists g'. by rewrite Hheld'.
Qed.

Lemma inline_store_take buf line : take (length line) (inline_store buf line) = line.
Proof. apply take_app_length. Qed.

Lemma rinv_write n s i o pos s' c :
  rinv n s → k_prods s !! i = Some (S_write o pos) → fill_slot s o pos = (s', c) →
  rinv n (with_prod s' i (S_pub o pos c)).
Proof.
  intros Hinv Hi Hf. unfold fill_slot in Hf. rewrite (rix_mod n) in Hf by done.
  destruct (clen (o_line o) <? SOCKET_RING_INLINE_LEN); [|destruct (o_alloc o)]; injection Hf as <- <-.
  - apply rinv_fill; cbn; auto. split_and!; [done..|]. intros _. apply inline_store_take.
  - assert (k_heap s !! fresh_id (k_heap s) = None) as Hfr by (apply not_elem_of_dom; unfold fresh_id; apply is_fresh).
    apply rinv_fill; cbn; auto.
    + intros id v Hv. rewrite lookup_insert_ne; [done|]. intros <-. congruence.
    + intros id q d. rewrite lookup_insert. case_decide as Hd; [|by left]. intros [= <- <-]. subst. by right.
    + by rewrite lookup_insert_eq.
  - apply rinv_fill; cbn; auto.
Qed.

Lemma rinv_put_step n s i p s' :
  rinv n s → n < 2 ^ 62 → k_prods s !! i = Some p → put_step s i p = Some s' → rinv (n + 1) s'.
Proof.
  intros Hinv Hn Hi Hstep. pose proof (rcap_pos n s Hinv) as Hc0. pose proof (r_pos _ _ Hinv) as Hp.
  assert (∀ s'', rinv n s'' → rinv (n + 1) s'') as Hw by (intros; eapply rinv_weaken; [done|lia]).
  assert (∀ p', rpos p = None → rpos p' = None → (∀ o h, p' ≠ S_cas o h) → (∀ o h, p' ≠ S_tail o h) →
    rinv n (with_prod s i p')) as Hmove.
  { intros p' H1 H2 H3 H4. eapply rinv_with_prod; eauto; intros o h ->; [by destruct (H3 o h)|by destruct (H4 o h)]. }
  destruct p; cbn in Hstep.
  - done.
  - injection Hstep as <-. apply Hw, Hmove; destruct (k_closed s); done.
  - injection Hstep as <-. apply Hw. eapply rinv_with_prod; eauto; [done|]. intros o' h [= _ <-]. lia.
  - injection Hstep as <-. pose proof (r_seen _ _ Hinv _ _ _ Hi). apply Hw. rewrite Z.geb_leb.
    destruct (Z.leb_spec (k_cap s) (usub head (k_tail s))) as [Hfull|Hroom]; [by apply Hmove|].
    eapply rinv_with_prod; eauto; [|done]. intros o' h [= _ <-]. split; [lia|]. unfold usub in Hroom.
    destruct (Z.lt_ge_cases head (k_tail s)); [lia|]. rewrite u64_id in Hroom by (split; lia). lia.
  - injection Hstep as <-. apply Hw, rinv_with_prod with (S_drop o); auto using rinv_counters; done.
  - destruct (Z.eqb_spec (k_head s) head); injection Hstep as <-; [by apply rinv_claim|by apply Hw, Hmove].
  - destruct (fill_slot s o pos) as [s1 c] eqn:Hf. injection Hstep as <-. apply Hw. by eapply rinv_write.
  - pose proof (r_own _ _ Hinv _ _ pos Hi eq_refl) as [? _]. rewrite (rix_mod n) in Hstep by done.
    rewrite u64_id in Hstep by (split; lia). injection Hstep as <-. apply Hw. by apply rinv_publish.
  - injection Hstep as <-. apply Hw, rinv_with_prod with (S_count o c); auto using rinv_counters; done.
  - injection Hstep as <-. apply Hw, rinv_with_prod with (S_post o c); auto using rinv_counters; destruct c; done.
  - injection Hstep as <-. apply Hw, rinv_with_prod with (S_lost o); auto using rinv_counters; done.
  - injection Hstep as <-. by apply Hw, Hmove.
Qed.

Lemma rinv_get_step n s m s' : rinv n s → n < 2 ^ 62 → get_step m s = Some s' → rinv n s'.
Proof.
  intros Hinv Hn Hstep. pose proof (rcap_pos n s Hinv) as Hc0. pose proof (r_pos _ _ Hinv) as Hp.
  pose proof (r_cons _ _ Hinv) as Hg. unfold get_ok in Hg.
  assert (∀ s1 c, rinv n s1 → k_cons s1 = k_cons s → k_tail s1 = k_tail s → held (with_cons s1 c) = held s →
    ctail (with_cons s1 c) = ctail s → get_ok (with_cons s1 c) → rinv n (with_cons s1 c)) as Hmove.
  { intros s1 c H1 H2 H3 H4 H5 H6. apply rinv_with_cons; [done| | |done].
    - rewrite H4. unfold held. by rewrite H2.
    - rewrite H5. unfold ctail. by rewrite H2, H3. }
  unfold get_step in Hstep. unfold held, ctail in Hmove. destruct (k_cons s) eqn:Hc; try done.
  - injection Hstep as <-. apply Hmove; try done; cbn; by destruct (k_closed s).
  - injection Hstep as <-. by apply Hmove.
  - injection Hstep as <-. apply Hmove; try done; cbn; by destruct (_ =? _).
  - destruct (k_sem s >? 0); [|done]. injection Hstep as <-. apply Hmove; try done. by apply rinv_counters.
  - injection Hstep as <-. apply Hmove; try done; cbn. unfold get_ok. cbn. unfold ctail in Hp. rewrite Hc in Hp. lia.
  - injection Hstep as <-. unfold usub. rewrite u64_id by (split; lia).
    apply Hmove; try done; cbn; destruct (Z.eqb_spec (head - k_tail s) 0); try done; rewrite ?clen_nil; try lia.
    unfold get_ok. cbn. rewrite clen_nil. split_and!; [done|lia|lia].
  - injection Hstep as <-. apply Hmove; try done; cbn; by destruct (k_closed s).
  - destruct Hg as (-> & Hav & Hle). pose proof (clen_nonneg got) as Hg0.
    destruct ((clen got <? available) && (clen got <? m) && _) eqn:E.
    + injection Hstep as <-. apply Hmove; try done. unfold get_ok. cbn.
      apply andb_true_iff in E as [[E%Z.ltb_lt _]%andb_true_iff E2%Z.eqb_eq].
      rewrite (u64_id (k_tail s + clen got)) in E2 by (split; lia). rewrite (rix_mod n) in E2 by done.
      rewrite u64_id in E2 by (split; lia). split_and!; [done|lia|done|]. apply (slot_published n); [done|lia|done].
    + destruct (Z.eqb_spec (clen got) 0) as [E0|]; injection Hstep as <-.
      * assert (got = []) as -> by (unfold clen in E0; apply length_zero_iff_nil; lia).
        apply Hmove; try done; [by apply rinv_counters|]. cbn. rewrite clen_nil. lia.
      * apply Hmove; try done. unfold get_ok. cbn. split; [done|lia].
  - destruct Hg as (-> & Hav & Hle & _). pose proof (clen_nonneg got).
    rewrite (u64_id (k_tail s + clen got)) in Hstep by (split; lia). rewrite (rix_mod n) in Hstep by done.
    injection Hstep as <-. by apply rinv_copy.
  - destruct Hg as [-> Hle]. pose proof (clen_nonneg got). rewrite u64_id in Hstep by (split; lia).
    injection Hstep as <-. by apply rinv_store.
  - injection Hstep as <-. apply Hmove; try done. by apply rinv_counters.
Qed.

Lemma rinv_exec n s a s' : rinv n s → n < 2 ^ 62 → rexec s a = Some s' → rinv (n + 1) s'.
Proof.
  intros Hinv Hn H. assert (∀ s'', rinv n s'' → rinv (n + 1) s'') as Hw by (intros; eapply rinv_weaken; [done|lia]).
  destruct a; cbn in H.
  - destruct (k_prods s !! i) as [[]|] eqn:Hi; try done. injection H as <-. apply Hw.
    eapply rinv_with_prod; eauto; destruct (_ =? _); done.
  - apply bind_Some in H as (p & Hi & H). by eapply rinv_put_step.
  - destruct (k_prods s !! i) as [[]|] eqn:Hi; try done. injection H as <-. apply Hw.
    by eapply rinv_with_prod; eauto.
  - destruct (k_cons s) eqn:Hc; try done; injection H as <-; apply Hw, rinv_with_cons; try done;
      unfold held, ctail; by rewrite Hc.
  - by eapply Hw, rinv_get_step.
  - by eapply Hw, rinv_use.
  - destruct (k_closer s); try done. injection H as <-. by apply Hw, rinv_closer.
  - unfold rclose_step in H. destruct (k_closer s); try done; injection H as <-; apply Hw, rinv_closer;
      auto using rinv_counters.
  - injection H as <-. by apply Hw, rinv_counters.
Qed.

Lemma rinv_init k m : 1 <= k <= 62 → rinv 0 (ring_init (2 ^ k) m).
Proof.
  intros Hk. assert (∀ i p, replicate m S_idle !! i = Some p → p = S_idle) as Hidle.
  { intros i p [-> _]%lookup_replicate_1. done. }
  constructor; cbn; try done.
  - eauto.
  - unfold ctail. cbn. lia.
  - by intros i o h ?%Hidle.
  - by intros i o h ?%Hidle.
  - by intros i p pos ->%Hidle.
  - by intros i j p p' pos ->%Hidle.
  - by intros i o pos c ?%Hidle.
  - auto.
  - intros g Hg. by apply elem_of_nil in Hg.
  - intros pos c Hg. by apply elem_of_nil in Hg.
Qed.

Lemma rinv_steps n k m s :
  1 <= k <= 62 → rsteps n (ring_init (2 ^ k) m) s → Z.of_nat n <= 2 ^ 62 → rinv (Z.of_nat n) s.
Proof.
  intros Hk H Hn. remember (ring_init (2 ^ k) m) as s0 eqn:E. induction H as [s|n s s1 s2 a H IH Hex].
  - subst. by apply rinv_init.
  - rewrite Nat2Z.inj_succ, <- Z.add_1_r. eapply rinv_exec; [apply IH; [done|lia]|lia|done].
Qed.

(** ** Wake-ups *)

(** Producers that have claimed a position and not yet posted. *)
Definition unposted (p : rpc) : Z :=
  match p with S_write _ _ | S_pub _ _ _ | S_count _ _ | S_post _ _ => 1 | _ => 0 end.
Definition pending (l : list rpc) : Z := foldr (λ p a, unposted p + a) 0 l.

Arguments pending : simpl never.

(** The writer has taken a wake-up and not yet settled it. *)
Definition token (c : gpc) : Z :=
  match c with G_head | G_tail _ | G_seq _ _ _ | G_copy _ _ _ | G_store _ _ => 1 | _ => 0 end.

Lemma pending_cons p l : pending (p :: l) = unposted p + pending l.
Proof. done. Qed.

Lemma pending_insert l (i : nat) p q :
  l !! i = Some p → pending (<[i := q]> l) = pending l - unposted p + unposted q.
Proof.
  revert i. induction l as [|x l IH]; intros [|i]; try done.
  - intros [= ->]. change (pending (q :: l) = pending (p :: l) - unposted p + unposted q). rewrite !pending_cons. lia.
  - intros H. change (pending (x :: <[i := q]> l) = pending (x :: l) - unposted p + unposted q).
    rewrite !pending_cons, (IH i H). lia.
Qed.

Lemma pending_nonneg l : 0 <= pending l.
Proof. unfold pending. induction l as [|x l IH]; cbn; [done|]. destruct x; cbn; lia. Qed.

Record rinv2 (s : ring) : Prop := {
  w_sum : k_head s - k_tail s <= k_sem s + pending (k_prods s) + k_wasted s + token (k_cons s);
  w_sem : 0 <= k_sem s ∧ 0 <= k_wasted s;
  w_seen h : k_cons s = G_tail h → k_head s - h <= k_sem s + pending (k_prods s) + k_wasted s;
  w_some t l : k_cons s = G_store t l → 0 < clen l;
  w_all pos : 0 <= pos < k_head s → is_Some (k_pub s !! pos) ∨ ∃ i p, k_prods s !! i = Some p ∧ rpos p = Some pos
}.

Lemma rinv2_prod s s1 i p p' :
  rinv2 s → k_prods s !! i = Some p → rpos p' = rpos p →
  s1 = with_prod (with_counters s (k_count s1) (k_dropped s1) (k_sem s1) (k_wasted s)) i p' →
  k_sem s1 + unposted p' = k_sem s + unposted p → k_sem s <= k_sem s1 → rinv2 s1.
Proof.
  intros [] Hi Hpos -> Hu Hle. cbn in *. constructor; cbn; rewrite ?(pending_insert _ _ _ _ Hi); try done.
  - lia.
  - lia.
  - intros h H. pose proof (w_seen0 h H). lia.
  - intros pos H. destruct (w_all0 pos H) as [?|(j & q & Hj & Hq)]; [by left|right].
    destruct (decide (j = i)) as [->|].
    + exists i, p'. rewrite list_lookup_insert_eq by (by eapply lookup_lt_Some). split; [done|]. congruence.
    + exists j, q. by rewrite list_lookup_insert_ne.
Qed.

Lemma rinv2_put_step n s i p s' :
  rinv n s → n < 2 ^ 62 → rinv2 s → k_prods s !! i = Some p → put_step s i p = Some s' → rinv2 s'.
Proof.
  intros Hinv Hn H2 Hi Hstep. pose proof (r_pos _ _ Hinv) as Hp.
  destruct p; cbn in Hstep; try injection Hstep as <-; try done.
  all: try (eapply (rinv2_prod s _ i _ _ H2 Hi); [|reflexivity|..]; cbn; repeat case_match; cbn; done || lia).
  - destruct (Z.eqb_spec (k_head s) head) as [<-|]; injection Hstep as <-.
    2:{ eapply (rinv2_prod s _ i _ _ H2 Hi); [|reflexivity|..]; cbn; done || lia. }
    rewrite u64_id by (split; lia). destruct H2. constructor; cbn; rewrite ?(pending_insert _ _ _ _ Hi); cbn; try done.
    + lia.
    + intros h H. pose proof (w_seen0 h H). lia.
    + intros pos H. destruct (decide (pos = k_head s)) as [->|].
      * right. exists i, (S_write o (k_head s)). by rewrite list_lookup_insert_eq by (by eapply lookup_lt_Some).
      * destruct (w_all0 pos ltac:(lia)) as [?|(j & q & Hj & Hq)]; [by left|right].
        exists j, q. rewrite list_lookup_insert_ne; [done|]. intros ->. by simplify_eq.
  - destruct (fill_slot s o pos) as [s1 c] eqn:Hf. injection Hstep as <-.
    assert (k_prods s1 = k_prods s ∧ k_head s1 = k_head s ∧ k_tail s1 = k_tail s ∧ k_sem s1 = k_sem s ∧
      k_wasted s1 = k_wasted s ∧ k_cons s1 = k_cons s ∧ k_pub s1 = k_pub s) as (E1 & E2 & E3 & E4 & E5 & E6 & E7).
    { unfold fill_slot in Hf. repeat case_match; by injection Hf as <- <-. }
    destruct (rinv2_prod s (with_prod s i (S_pub o pos c)) i _ (S_pub o pos c) H2 Hi) as []; [done|reflexivity|done|done|].
    cbn in *. constructor; cbn; rewrite ?E1, ?E2, ?E3, ?E4, ?E5, ?E6, ?E7; done.
  - destruct H2. constructor; cbn; rewrite ?(pending_insert _ _ _ _ Hi); cbn; try done.
    + lia.
    + intros h H. pose proof (w_seen0 h H). lia.
    + intros pos' H. rewrite lookup_insert. case_decide; [by left|].
      destruct (w_all0 pos' H) as [?|(j & q & Hj & Hq)]; [by left|right].
      exists j, q. rewrite list_lookup_insert_ne; [done|]. intros ->. by simplify_eq/=.
Qed.

Lemma rinv2_get_step n s m s' : rinv n s → n < 2 ^ 62 → rinv2 s → get_step m s = Some s' → rinv2 s'.
Proof.
  intros Hinv Hn H2 Hstep. pose proof (r_pos _ _ Hinv) as Hp. pose proof (r_cons _ _ Hinv) as Hg.
  pose proof (rcap_pos n s Hinv) as Hc0. pose proof (pending_nonneg (k_prods s)) as Hp0.
  unfold get_step in Hstep. unfold get_ok in Hg. destruct H2. destruct (k_cons s) eqn:Hc; try done; cbn in w_sum0.
  - injection Hstep as <-. constructor; cbn; destruct (k_closed s); done || lia.
  - injection Hstep as <-. constructor; cbn; done || lia.
  - injection Hstep as <-. constructor; cbn; destruct (head =? k_tail s); done || lia.
  - rewrite Z.gtb_ltb in Hstep. destruct (Z.ltb_spec 0 (k_sem s)); [|done]. injection Hstep as <-. constructor; cbn; done || lia.
  - injection Hstep as <-. constructor; cbn; try done || lia. intros h [= <-]. lia.
  - injection Hstep as <-. unfold usub. rewrite u64_id by (split; lia). pose proof (w_seen0 head eq_refl).
    destruct (Z.eqb_spec (head - k_tail s) 0); constructor; cbn; done || lia.
  - injection Hstep as <-. constructor; cbn; destruct (k_closed s); done || lia.
  - pose proof (clen_nonneg got). destruct (_ && _ && _); [|destruct (Z.eqb_spec (clen got) 0)];
      injection Hstep as <-; constructor; cbn; try done || lia. intros t l [= <- <-]. lia.
  - injection Hstep as <-. constructor; cbn; done || lia.
  - destruct Hg as [-> Hle]. pose proof (w_some0 _ _ eq_refl). rewrite u64_id in Hstep by (split; lia).
    injection Hstep as <-. constructor; cbn; done || lia.
  - injection Hstep as <-. constructor; cbn; done || lia.
Qed.

Lemma rinv2_exec n s a s' : rinv n s → n < 2 ^ 62 → rinv2 s → rexec s a = Some s' → rinv2 s'.
Proof.
  intros Hinv Hn H2 H. destruct a; cbn in H.
  - destruct (k_prods s !! i) as [[]|] eqn:Hi; try done. injection H as <-.
    eapply (rinv2_prod s _ i _ _ H2 Hi); [|destruct s; reflexivity|..]; cbn; destruct (clen (o_line o) =? 0); done || lia.
  - apply bind_Some in H as (p & Hi & H). by eapply rinv2_put_step.
  - destruct (k_prods s !! i) as [[]|] eqn:Hi; try done. injection H as <-.
    eapply (rinv2_prod s _ i _ _ H2 Hi); [|destruct s; reflexivity|..]; cbn; done || lia.
  - destruct H2. destruct (k_cons s) eqn:Hc; try done; injection H as <-; constructor; done.
  - by eapply rinv2_get_step.
  - destruct H2. unfold use_step in H. destruct (k_cons s) as [| | | | | | | | | | | |[|g l]|] eqn:Hc; try done.
    + injection H as <-. constructor; done.
    + destruct (line_free s g), (if negb _ then _ else _). injection H as <-. constructor; done.
  - destruct H2. destruct (k_closer s); try done. injection H as <-. by constructor.
  - destruct H2. unfold rclose_step in H. destruct (k_closer s); try done; injection H as <-; constructor; cbn; try done || lia.
    intros h E. pose proof (w_seen0 h E). lia.
  - destruct H2. injection H as <-. constructor; cbn; try done || lia. intros h E. pose proof (w_seen0 h E). lia.
Qed.

Lemma rinv2_steps n k m s :
  1 <= k <= 62 → rsteps n (ring_init (2 ^ k) m) s → Z.of_nat n <= 2 ^ 62 → rinv2 s.
Proof.
  intros Hk H. remember (ring_init (2 ^ k) m) as s0 eqn:E.
  induction H as [s|n s s1 s2 a H IH Hex]; intros Hn; subst.
  - assert (pending (replicate m S_idle) = 0) as Hz by (induction m; cbn; done).
    constructor; cbn; try done; [rewrite Hz; lia|intros; lia].
  - eapply rinv2_exec; [eapply rinv_steps; [done|done|lia]|lia|apply IH; [done|lia]|done].
Qed.

(** ** Destruction *)

Definition quiet s : Prop := (∀ i p, k_prods s !! i = Some p → p = S_idle) ∧ (k_cons s = G_idle ∨ k_cons s = G_done).

(** The positions the writer is through with are an initial segment. *)
Lemma used_prefix n s : rinv n s → n < 2 ^ 62 → ∃ t, 0 <= t <= k_head s ∧ (k_used s).*1 = seqZ 0 t.
Proof.
  intros Hinv Hn. pose proof (r_pos _ _ Hinv) as Hp. pose proof (r_order _ _ Hinv) as Ho.
  exists (clen (k_used s)). pose proof (f_equal length Ho) as E. rewrite length_app, length_seqZ, length_fmap in E.
  assert (0 <= clen (k_used s) <= ctail s) as Hu by (unfold clen; lia). split; [lia|].
  replace (ctail s) with (clen (k_used s) + (ctail s - clen (k_used s))) in Ho by lia.
  rewrite seqZ_app in Ho by lia. apply app_inj_1 in Ho as [? _]; [done|].
  rewrite length_seqZ, length_fmap. unfold clen. lia.
Qed.

Lemma destroy_loop_ok n s i :
  rinv n s → n < 2 ^ 62 → rinv2 s → quiet s → Z.of_nat i <= k_head s - k_tail s →
  (destroy_loop s i).2 = false ∧
  ∀ id v, (destroy_loop s i).1 !! id = Some v ↔ k_heap s !! id = Some v ∧ k_tail s + Z.of_nat i <= v.1.
Proof.
  intros Hinv Hn Hinv2 [Hq1 Hq2]. pose proof (r_pos _ _ Hinv) as Hp. pose proof (rcap_pos n s Hinv) as Hc0.
  assert (ctail s = k_tail s) as Hct by (unfold ctail; by destruct Hq2 as [-> | ->]).
  assert (held s = []) as Hh by (unfold held; by destruct Hq2 as [-> | ->]).
  assert (∀ id pos c, k_heap s !! id = Some (pos, c) → k_tail s <= pos < k_head s ∧
    sl_line (k_slots s (pos mod k_cap s)) = L_heap id) as Hhome.
  { intros id pos c H. destruct (r_heap _ _ Hinv id pos c H) as [(H1 & _ & H3)|(g & Hg & _)]; [by rewrite Hct in H1|].
    rewrite Hh in Hg. by apply elem_of_nil in Hg. }
  induction i as [|i IH]; intros Hi.
  { cbn. split; [apply (r_ub _ _ Hinv)|]. intros id [pos c]. split; [|by intros []].
    intros H. split; [done|]. destruct (Hhome _ _ _ H). cbn. lia. }
  destruct IH as [IH1 IH2]; [lia|]. cbn [destroy_loop]. destruct (destroy_loop s i) as [h ub]. cbn in IH1, IH2.
  subst ub. rewrite (u64_id (_ + _)) by (split; lia). rewrite (rix_mod n) by done.
  set (pos := k_tail s + Z.of_nat i) in *.
  assert (∃ c, slot_stands s pos c) as [c Hst].
  { destruct (w_all _ Hinv2 pos) as [[c Hc]|(j & p & Hj & Hpos)]; [lia| |by rewrite (Hq1 _ _ Hj) in Hpos].
    exists c. apply (r_published _ _ Hinv pos c Hc). lia. }
  unfold slot_stands, stands in Hst.
  assert (∀ id v, h !! id = Some v → v.1 = pos → sl_line (k_slots s (pos mod k_cap s)) = L_heap id) as Hid.
  { intros id [q d] H E. apply IH2 in H as [H _]. cbn in E. subst q. by apply (Hhome _ _ d). }
  assert (∀ v : Z * cstr, k_tail s + Z.of_nat (S i) <= v.1 ↔ pos <= v.1 ∧ v.1 ≠ pos) as Hlt by (intros; lia).
  destruct (sl_heap (k_slots s (pos mod k_cap s))) eqn:Eh.
  2:{ assert (∀ id, sl_line (k_slots s (pos mod k_cap s)) ≠ L_heap id) as Hno.
      { intros id E. rewrite E in Hst. destruct c; [|done]. by destruct Hst as (_ & ? & _). }
      split; [done|]. intros id v. rewrite IH2, Hlt. split; [|by intros (? & ? & ?)].
      intros [H1 H2]. split_and!; [done..|]. intros E. destruct (Hno id). apply (Hid id v); [|done]. by apply IH2. }
  destruct (sl_line _) as [| |id0] eqn:El, c as [c|]; try done; try (by destruct Hst as (? & ? & ?)); try (by destruct Hst).
  destruct Hst as (_ & _ & Hin). cbn. assert (h !! id0 = Some (pos, c)) as Hh0 by (apply IH2; cbn; split; [done|lia]).
  split; [by rewrite Hh0|]. intros id v. rewrite lookup_delete_Some, IH2, Hlt. split.
  - intros (Hne & H1 & H2). split_and!; [done..|]. intros E.
    specialize (Hid id v (proj2 (IH2 id v) (conj H1 H2)) E). congruence.
  - intros (H1 & H2 & H3). split_and!; [|done..]. intros ->. rewrite Hin in H1. injection H1 as <-. done.
Qed.

End ring_invariant.

(** ** The drop counter *)

(** A put that found no memory, on its way to count the drop. *)
Definition losing (p : rpc) : bool :=
  match p with S_count _ None | S_post _ None | S_lost _ => true | _ => false end.

(** An empty publication is counted, or will be. *)
Record counted (n : Z) (s : ring) : Prop := {
  d_range : 0 <= k_dropped s <= n;
  d_lost pos : k_pub s !! pos = Some None → 0 < k_dropped s ∨ ∃ i p, k_prods s !! i = Some p ∧ losing p = true
}.

Lemma counted_prod n s s' i p p' :
  counted n s → k_prods s !! i = Some p → k_prods s' = <[i := p']> (k_prods s) →
  0 <= k_dropped s' <= n + 1 → k_dropped s <= k_dropped s' →
  (losing p = true → losing p' = true ∨ 0 < k_dropped s') →
  (∀ pos, k_pub s' !! pos = Some None → k_pub s !! pos = Some None ∨ losing p' = true) →
  counted (n + 1) s'.
Proof.
  intros [Hr Hl] Hi Hp Hr' Hge Hlose Hpub. constructor; [done|]. intros pos H.
  assert (losing p' = true → ∃ j q, k_prods s' !! j = Some q ∧ losing q = true) as Hnew.
  { intros E. exists i, p'. rewrite Hp, list_lookup_insert_eq; [done|]. by eapply lookup_lt_Some. }
  destruct (Hpub pos H) as [H0|]; [|by right; apply Hnew].
  destruct (Hl pos H0) as [?|(j & q & Hj & Hq)]; [left; lia|]. destruct (decide (j = i)) as [->|Hne].
  - rewrite Hi in Hj. injection Hj as ->. destruct (Hlose Hq) as [E|E]; [right; by apply Hnew|by left].
  - right. exists j, q. by rewrite Hp, list_lookup_insert_ne.
Qed.

Lemma counted_same n s s' :
  counted n s → k_prods s' = k_prods s → k_dropped s' = k_dropped s → k_pub s' = k_pub s → counted (n + 1) s'.
Proof. intros [] E1 E2 E3. constructor; rewrite ?E1, ?E2, ?E3; [lia|done]. Qed.

Lemma counted_exec n s a s' : counted n s → n < 2 ^ 63 → rexec s a = Some s' → counted (n + 1) s'.
Proof.
  intros Hc Hn H. pose proof (d_range _ _ Hc) as Hr.
  assert (u64 (k_dropped s + 1) = k_dropped s + 1) as Hu by (apply u64_id; split; lia).
  destruct a; cbn in H; try (unfold get_step, rclose_step, use_step, socket_ring_signal in H;
    repeat case_match; simplify_eq; by apply (counted_same n s)).
  - destruct (k_prods s !! i) as [[]|] eqn:Hi; try done. injection H as <-.
    eapply (counted_prod n s _ i); [done|exact Hi|reflexivity|cbn; lia|done|done|by left].
  - apply bind_Some in H as (p & Hi & H). unfold put_step, fill_slot in H. destruct p; try done; repeat case_match; simplify_eq;
      (eapply (counted_prod n s _ i); [done|exact Hi|reflexivity|cbn; rewrite ?Hu; lia|cbn; rewrite ?Hu; lia| |]);
      try done; try (by left); cbn; rewrite ?Hu; try (intros; first [by left | right; lia]).
    intros pos' E. destruct (decide (pos' = pos)) as [->|Hne]; [|rewrite lookup_insert_ne in E by done; by left].
    rewrite lookup_insert_eq in E. injection E as ->. by right.
  - destruct (k_prods s !! i) as [[]|] eqn:Hi; try done. injection H as <-.
    eapply (counted_prod n s _ i); [done|exact Hi|reflexivity|cbn; lia|done|done|by left].
Qed.

Lemma counted_steps n k m s : rsteps n (ring_init (2 ^ k) m) s → Z.of_nat n < 2 ^ 62 → counted (Z.of_nat n) s.
Proof.
  intros H. remember (ring_init (2 ^ k) m) as s0 eqn:E. induction H as [s|n s s1 s2 a H IH Hex]; intros Hn; subst.
  - constructor; [done|]. intros pos Hp. cbn in Hp. by rewrite lookup_empty in Hp.
  - rewrite Nat2Z.inj_succ. eapply counted_exec; [apply IH; [done|lia]|lia|done].
Qed.

(** ** Properties of the ring *)

(** An empty ring at rest that dropped nothing was used up. *)
Lemma all_used n k m s :
  1 <= k <= 62 → rsteps n (ring_init (2 ^ k) m) s → Z.of_nat n < 2 ^ 62 → k_dropped s = 0 → quiet s → socket_ring_depth s = 0 →
  (k_used s).*1 = seqZ 0 (k_head s) ∧ ∀ pos, 0 <= pos < k_head s → ∃ l, k_pub s !! pos = Some (Some l).
Proof.
  intros Hk H Hn Hdrop. pose proof (rinv_steps n k m s Hk H ltac:(lia)) as Hinv.
  pose proof (rinv2_steps n k m s Hk H ltac:(lia)) as Hinv2. pose proof (r_pos _ _ Hinv) as Hp.
  pose proof (r_order _ _ Hinv) as Ho. pose proof (rcap_pos _ s Hinv) as Hc.
  intros [Hq1 Hq2] Hd. unfold socket_ring_depth, usub in Hd. rewrite u64_id in Hd by (split; lia).
  assert (ctail s = k_head s ∧ held s = []) as [Hct Hh] by (unfold ctail, held; destruct Hq2 as [-> | ->]; split; done || lia).
  rewrite Hh, Hct in Ho. cbn in Ho. rewrite app_nil_r in Ho. split; [done|]. intros pos Hpos.
  destruct (w_all _ Hinv2 pos Hpos) as [[[l|] E]|(i & p & Hi & Hr)]; [by exists l| |by rewrite (Hq1 _ _ Hi) in Hr].
  destruct (counted_steps n k m s H Hn) as [_ Hl].
  destruct (Hl pos E) as [?|(i & p & Hi & Hlost)]; [lia|]. by rewrite (Hq1 i p Hi) in Hlost.
Qed.

(** C12: as long as no line was dropped (the drop counter is zero: no put met a full
    ring and every copy found memory), the ring hands every line over once and in
    order. In every such reachable state no dead block was read or freed; the
    positions the writer is through with are an initial segment of those claimed, in
    order; a line it sent from the heap, or from a slot not claimed again before its
    last read, has exactly the bytes published at its position, any other sent line has
    the length of the line published there, and nothing was published where it found an
    empty line; and once the producers and the writer are idle and the ring is empty,
    every claimed position holds a published line and was used exactly once. *)
Theorem socket_ring_exactly_once n k m s :
  1 <= k <= 62 → rsteps n (ring_init (2 ^ k) m) s → Z.of_nat n < 2 ^ 62 → k_dropped s = 0 →
  k_ub s = false ∧
  (∃ t, 0 <= t <= k_head s ∧ (k_used s).*1 = seqZ 0 t) ∧
  (∀ pos u, (pos, u) ∈ k_used s → used_ok (k_pub s !! pos) u) ∧
  (quiet s → socket_ring_depth s = 0 →
   (k_used s).*1 = seqZ 0 (k_head s) ∧ ∀ pos, 0 <= pos < k_head s → ∃ l, k_pub s !! pos = Some (Some l)).
Proof.
  intros Hk H Hn Hdrop. pose proof (rinv_steps n k m s Hk H ltac:(lia)) as Hinv.
  split; [apply (r_ub _ _ Hinv)|]. split; [|split; [apply (r_used _ _ Hinv)|]].
  - by eapply used_prefix.
  - by eapply all_used.
Qed.

Lemma destroy_frees_all n k m s :
  1 <= k <= 62 → rsteps n (ring_init (2 ^ k) m) s → Z.of_nat n < 2 ^ 62 → quiet s →
  socket_ring_destroy s = (∅, false).
Proof.
  intros Hk H Hn Hq. pose proof (rinv_steps n k m s Hk H ltac:(lia)) as Hinv.
  pose proof (rinv2_steps n k m s Hk H ltac:(lia)) as Hinv2. pose proof (r_pos _ _ Hinv) as Hp.
  pose proof (rcap_pos _ s Hinv) as Hc. unfold socket_ring_destroy, usub. rewrite u64_id by (split; lia).
  rewrite Z.min_l by lia.
  destruct (destroy_loop_ok (Z.of_nat n) s (Z.to_nat (k_head s - k_tail s)) Hinv Hn Hinv2 Hq ltac:(lia)) as [H1 H2].
  destruct (destroy_loop _ _) as [h ub]. cbn in H1, H2. subst ub. f_equal. apply map_eq. intros id.
  rewrite lookup_empty. destruct (h !! id) as [v|] eqn:E; [|done]. apply H2 in E as [E1 E2]. destruct v as [pos c].
  destruct (r_heap _ _ Hinv id pos c E1) as [(H3 & _)|(g & Hg & _)].
  - cbn in E2. destruct Hq as [_ Hq]. unfold ctail in H3. destruct Hq as [Hq|Hq]; rewrite Hq in H3; lia.
  - unfold held in Hg. destruct Hq as [_ [Hq|Hq]]; rewrite Hq in Hg; by apply elem_of_nil in Hg.
Qed.

(** Destroying the ring with the producers and the writer stopped frees every
    line that was left in it, each once: no block survives and no free is bad. *)
Theorem socket_ring_destroy_frees n k m s :
  1 <= k <= 62 → rsteps n (ring_init (2 ^ k) m) s → Z.of_nat n < 2 ^ 62 → quiet s →
  socket_ring_destroy s = (∅, false).
Proof. apply destroy_frees_all. Qed.

(** Wake-ups. When the writer is blocked on the semaphore and no producer has a
    post outstanding, the lines left in the ring are at most the wake-ups it spent on
    a slot that was claimed and not yet published; if there were none, the ring is
    empty. The ring never holds more lines than its capacity. *)
Theorem socket_ring_wakeup n k m s :
  1 <= k <= 62 → rsteps n (ring_init (2 ^ k) m) s → Z.of_nat n < 2 ^ 62 →
  0 <= socket_ring_depth s <= k_cap s ∧
  (k_cons s = G_sem → k_sem s = 0 → pending (k_prods s) = 0 → socket_ring_depth s <= k_wasted s).
Proof.
  intros Hk H Hn. pose proof (rinv_steps n k m s Hk H ltac:(lia)) as Hinv.
  pose proof (rinv2_steps n k m s Hk H ltac:(lia)) as Hinv2. pose proof (r_pos _ _ Hinv) as Hp.
  pose proof (rcap_pos _ s Hinv) as Hc. unfold socket_ring_depth, usub. rewrite u64_id by (split; lia).
  split; [lia|]. intros Hs H0 Hpe. pose proof (w_sum _ Hinv2) as Hw. rewrite Hs in Hw. cbn in Hw. lia.
Qed.

(** ** Schedules *)

(** The writer uses a line that stayed its own. *)
Definition use_own : raction := R_use true [] false.

Definition put_all (i : nat) (x : cstr) : list raction := R_put i (PutOp x true) :: replicate 9 (R_prod i).

(** The writer takes the line "a"; before it sends it, producers fill the slot
    again; it then sends "c", twice, and "a" never. *)
Definition overwrite_schedule : list raction :=
  put_all 0 (B "a") ++ R_get :: replicate 9 (R_cons 64) ++ put_all 0 (B "b") ++ put_all 0 (B "c") ++
  [R_use true (B "c") false; use_own; R_get] ++ replicate 11 (R_cons 64) ++ replicate 3 use_own.

Example inline_line_overwritten :
  (λ s, (k_used s, map (λ p, k_pub s !! p) [0; 1; 2])) <$> rrun (ring_init 2 1) overwrite_schedule =
  Some ([(0, U_sent (B "c") false false); (1, U_sent (B "b") false true); (2, U_sent (B "c") false true)],
        [Some (Some (B "a")); Some (Some (B "b")); Some (Some (B "c"))]).
Proof. vm_compute. reflexivity. Qed.

(** A producer loads [head], another line goes through the ring, and the stale
    difference wraps: the put is dropped although the ring is empty. *)
Definition stale_schedule : list raction :=
  [R_put 0 (PutOp (B "x") true); R_prod 0; R_prod 0] ++ put_all 1 (B "a") ++
  R_get :: replicate 9 (R_cons 64) ++ [use_own; use_own] ++ [R_prod 0; R_prod 0; R_prod 0].

Example put_drops_when_empty :
  (λ s, (k_dropped s, socket_ring_depth s, map fst (k_used s), k_prods s)) <$> rrun (ring_init 8 2) stale_schedule =
  Some (1, 0, [0], [S_idle; S_idle]).
Proof. vm_compute. reflexivity. Qed.

(** One producer is preempted after its claim while another puts 65 lines: each of
    their posts is spent on the unpublished slot. When the first line is published
    the writer takes 64 lines and then blocks with two left, no post outstanding and
    every producer idle. *)
Definition stranded_schedule : list raction :=
  R_put 0 (PutOp (B "x") true) :: replicate 4 (R_prod 0) ++ [R_get; R_cons 64] ++
  mjoin (replicate 65 (put_all 1 (B "y") ++ replicate 5 (R_cons 64))) ++ replicate 5 (R_prod 0) ++
  replicate 134 (R_cons 64) ++ replicate 65 use_own ++ [R_get; R_cons 64].

Example lines_stranded :
  (λ s, (k_sem s, socket_ring_depth s, k_prods s, k_cons s)) <$> rrun (ring_init 128 2) stranded_schedule =
  Some (0, 2, [S_idle; S_idle], G_sem).
Proof. vm_compute. reflexivity. Qed.

(** The state a schedule ends in. *)
Definition final (cap : Z) (n : nat) (l : list raction) : ring := default (ring_init cap n) (rrun (ring_init cap n) l).

Lemma final_steps k m l :
  bool_decide (is_Some (rrun (ring_init (2 ^ k) m) l)) = true →
  rsteps (length l) (ring_init (2 ^ k) m) (final (2 ^ k) m l).
Proof. intros [s H]%bool_decide_eq_true. apply rrun_steps. unfold final. by rewrite H. Qed.

Lemma quiet_all_idle s :
  forallb (λ p, match p with S_idle => true | _ => false end) (k_prods s) = true →
  match k_cons s with G_idle | G_done => true | _ => false end = true → quiet s.
Proof.
  intros H1 H2. split.
  - intros i p Hi. rewrite forallb_forall in H1. specialize (H1 p).
    destruct p; try done; by discriminate H1; apply list_elem_of_In, (list_elem_of_lookup_2 _ i).
  - destruct (k_cons s); try done; auto.
Qed.

Lemma socket_ring_exactly_once_witness :
  k_ub (final (2 ^ 1) 1 overwrite_schedule) = false ∧
  (k_used (final (2 ^ 1) 1 overwrite_schedule)).*1 = seqZ 0 (k_head (final (2 ^ 1) 1 overwrite_schedule)).
Proof.
  destruct (socket_ring_exactly_once (length overwrite_schedule) 1 1 (final (2 ^ 1) 1 overwrite_schedule)
              ltac:(lia) (final_steps 1 1 overwrite_schedule ltac:(vm_compute; reflexivity))
              ltac:(vm_compute; reflexivity) ltac:(vm_compute; reflexivity)) as (H1 & _ & _ & H4).
  split; [exact H1|].
  destruct H4 as [H4 _]; [apply quiet_all_idle; vm_compute; reflexivity|vm_compute; reflexivity|exact H4].
Defined.

(** A heap line is left in the ring. *)
Definition left_schedule : list raction := put_all 0 (replicate 300 120).

Lemma socket_ring_destroy_frees_witness :
  size (k_heap (final (2 ^ 2) 1 left_schedule)) = 1%nat ∧
  socket_ring_destroy (final (2 ^ 2) 1 left_schedule) = (∅, false).
Proof.
  split; [vm_compute; reflexivity|].
  apply (socket_ring_destroy_frees (length left_schedule) 2 1 (final (2 ^ 2) 1 left_schedule) ltac:(lia)
           (final_steps 2 1 left_schedule ltac:(vm_compute; reflexivity)) ltac:(vm_compute; reflexivity)).
  apply quiet_all_idle; vm_compute; reflexivity.
Defined.

Definition served_schedule : list raction :=
  put_all 0 (B "a") ++ R_get :: replicate 9 (R_cons 64) ++ [use_own; use_own; R_get; R_cons 64].

Lemma socket_ring_wakeup_witness :
  k_cons (final (2 ^ 2) 1 served_schedule) = G_sem ∧ socket_ring_depth (final (2 ^ 2) 1 served_schedule) <= 0.
Proof.
  destruct (socket_ring_wakeup (length served_schedule) 2 1 (final (2 ^ 2) 1 served_schedule) ltac:(lia)
              (final_steps 2 1 served_schedule ltac:(vm_compute; reflexivity)) ltac:(vm_compute; reflexivity)) as [_ H2].
  split; [vm_compute; reflexivity|].
  etrans; [apply H2; vm_compute; reflexivity|]. vm_compute. discriminate.
Defined.
