(* ===== verification/SocketRingWeak.v ===== *)
(** * The socket ring under release/acquire memory (core/socket_ring.c with include/clog_port.h)

    The code of SocketRing.v, one shared access per step, over the memory of WeakMem.v with
    the orders of the GNU branches: loads acquire, stores release, the compare-and-swap of
    [head] does both, [count] is added to with acquire and subtracted from with release,
    [dropped] is relaxed, and a slot's fields are plain.  A heap copy is reached only through
    the pointer in the slot and goes with it. *)
From S2P Require Import Prelude WeakMem Queue WeakRing QueueWeak SocketRing.

Local Open Scope Z_scope.

(** [slot->line]: null, the slot's own buffer, or a heap block with its bytes. *)
Inductive wline := WL_null | WL_inline | WL_heap (bytes : cstr).

(** The plain fields of a slot; [lc_by] is ghost, the call that filled it. *)
Record line_cell := Cell {
  lc_inline : cstr;
  lc_line : wline;
  lc_len : Z;
  lc_heap : bool;
  lc_by : option put_op
}.

(** The line a call stores: none if its copy could not be allocated. *)
Definition stored (o : put_op) : option cstr :=
  if (clen (o_line o) <? SOCKET_RING_INLINE_LEN) || o_alloc o then Some (o_line o) else None.

(** The branches after the claim, and what the consumer leaves behind. *)
Definition fill_cell (o : put_op) (e : line_cell) : line_cell :=
  let len := clen (o_line o) in
  if len <? SOCKET_RING_INLINE_LEN then Cell (inline_store (lc_inline e) (o_line o)) WL_inline len false (Some o)
  else if o_alloc o then Cell (lc_inline e) (WL_heap (o_line o ++ [0])) len true (Some o)
  else Cell (lc_inline e) WL_null 0 false (Some o).
Definition clear_cell (e : line_cell) : line_cell := Cell (lc_inline e) WL_null 0 false (lc_by e).

(** The bytes [line[0 .. len)] behind the fields of a slot. *)
Definition line_of (e : line_cell) : option cstr :=
  match lc_line e with
  | WL_null => None
  | WL_inline => Some (take (Z.to_nat (lc_len e)) (lc_inline e))
  | WL_heap bytes => Some (take (Z.to_nat (lc_len e)) bytes)
  end.

(** ** The next access of each thread, and where it goes from there *)

Definition put_access (cap : Z) (p : rpc) : access ring_loc line_cell :=
  match p with
  | S_idle | S_ret _ _ => ANone
  | S_closed _ => ALoad Acquire L_closed
  | S_head _ => ALoad Acquire L_head
  | S_tail _ _ => ALoad Acquire L_tail
  | S_drop _ | S_lost _ => AUpdate Relaxed L_dropped (λ v, u64 (v + 1))
  | S_cas _ head => ACas L_head head (u64 (head + 1))
  | S_write o pos => ATouch (L_slot (slot_at cap pos)) (fill_cell o)
  | S_pub _ pos _ => AStore Release (L_seq (slot_at cap pos)) (u64 (pos + 1))
  | S_count _ _ => AUpdate Acquire L_count (λ v, u64 (v + 1))
  | S_post _ _ => APost L_items
  end.

Definition put_after (cap : Z) (p : rpc) (v : Z) : rpc :=
  match p with
  | S_idle => S_idle
  | S_closed o => if v =? 0 then S_head o else S_ret o (-1)
  | S_head o => S_tail o v
  | S_tail o head => if usub head v >=? cap then S_drop o else S_cas o head
  | S_drop o => S_ret o 0
  | S_cas o head => if v =? 0 then S_head o else S_write o head
  | S_write o pos => S_pub o pos (stored o)
  | S_pub o pos c => S_count o c
  | S_count o c => S_post o c
  | S_post o c => match c with Some _ => S_ret o 0 | None => S_lost o end
  | S_lost o => S_ret o (-1)
  | S_ret _ _ => S_idle
  end.

(** The writer thread, in [socket_ring_get_batch] or with the lines of a batch; [H_batch pos]
    comes to the line of position [pos] next. *)
Inductive hpc :=
  | H_idle
  | H_closed | H_chk_head | H_chk_tail (head : Z)
  | H_sem
  | H_head | H_tail (head : Z) | H_closed2
  | H_seq (tail available : Z) (got : list line_cell)
  | H_copy (tail available : Z) (got : list line_cell)
  | H_store (tail : Z) (got : list line_cell)
  | H_count (tail : Z) (got : list line_cell)
  | H_batch (pos : Z) (lines : list line_cell)
  | H_done.

Definition get_access (cap max_lines : Z) (c : hpc) : access ring_loc line_cell :=
  match c with
  | H_idle | H_done | H_batch _ _ => ANone
  | H_closed | H_closed2 => ALoad Acquire L_closed
  | H_chk_head | H_head => ALoad Acquire L_head
  | H_chk_tail _ | H_tail _ => ALoad Acquire L_tail
  | H_sem => AWait L_items
  | H_seq tail available got =>
      if (clen got <? available) && (clen got <? max_lines)
      then ALoad Acquire (L_seq (slot_at cap (u64 (tail + clen got)))) else ANone
  | H_copy tail _ got => ATouch (L_slot (slot_at cap (u64 (tail + clen got)))) clear_cell
  | H_store tail got => AStore Release L_tail (u64 (tail + clen got))
  | H_count _ got => AUpdate Release L_count (λ v, usub v (clen got))
  end.

Definition get_after (max_lines : Z) (c : hpc) (v : Z) (e : option line_cell) : hpc :=
  match c with
  | H_idle => H_idle
  | H_closed => if v =? 0 then H_sem else H_chk_head
  | H_chk_head => H_chk_tail v
  | H_chk_tail head => if head =? v then H_done else H_sem
  | H_sem => H_head
  | H_head => H_tail v
  | H_tail head => if usub head v =? 0 then H_closed2 else H_seq v (usub head v) []
  | H_closed2 => if v =? 0 then H_closed else H_done
  | H_seq tail available got =>
      let stop := if clen got =? 0 then H_closed else H_store tail got in
      if (clen got <? available) && (clen got <? max_lines) then
        if negb (v =? u64 (u64 (tail + clen got) + 1)) then stop else H_copy tail available got
      else stop
  | H_copy tail available got => H_seq tail available (got ++ option_list e)
  | H_store tail got => H_count tail got
  | H_count tail got => H_batch tail got
  | H_batch pos lines => H_batch pos lines
  | H_done => H_done
  end.

Definition rclose_access (k : rcpc) : access ring_loc line_cell :=
  match k with
  | Z_idle | Z_done => ANone
  | Z_closed => AStore Release L_closed 1
  | Z_post => APost L_items
  end.
Definition rclose_after (k : rcpc) : rcpc :=
  match k with Z_idle => Z_idle | Z_closed => Z_post | Z_post | Z_done => Z_done end.

(** ** The machine *)

(** [rw_log], [rw_out] and [rw_done] are ghost: what was written at each position, what the
    writer has taken off, in order, and the calls that are past their post. *)
Record rstate := RState {
  rw_cap : Z;
  rw_mem : mem ring_loc line_cell;
  rw_prods : list (view ring_loc * rpc);
  rw_cons : view ring_loc * hpc;
  rw_closer : view ring_loc * rcpc;
  rw_log : gmap Z line_cell;
  rw_out : list line_cell;
  rw_done : list put_op
}.

(** [socket_ring_create], before the ring is shared. *)
Definition ring_mem : mem ring_loc line_cell :=
  Mem (λ l, match l with L_seq i => first_msg i | L_head | L_tail | L_closed | L_count | L_dropped => first_msg 0 | _ => ∅ end)
    (λ _, Cell (replicate 256 0) WL_null 0 false None) (λ _, 0) (λ _, (0, vbot)) false.

Definition rw_init (cap : Z) (n : nat) : rstate :=
  RState cap ring_mem (replicate n (vbot, S_idle)) (vbot, H_idle) (vbot, Z_idle) ∅ [] [].

Definition cell_val (r : answer line_cell) : Z := match r with Val v => v | _ => 0 end.
Definition cell_of (r : answer line_cell) : option line_cell := match r with Content e => Some e | _ => None end.

Definition put_idle (p : rpc) : bool := match p with S_idle => true | _ => false end.

(** One access of producer [i], of the writer, of the stopping thread; [t] and [spurious] are
    the choices of the memory. *)
Definition wput_step (s : rstate) (i : nat) (t : Z) (spurious : bool) : option rstate :=
  '(V, p) ← rw_prods s !! i;
  if put_idle p then None else
  '(M, V', r) ← perform (put_access (rw_cap s) p) (rw_mem s) V t spurious;
  Some (RState (rw_cap s) M (<[i := (V', put_after (rw_cap s) p (cell_val r))]> (rw_prods s)) (rw_cons s) (rw_closer s)
          (match p with
           | S_write o pos => <[pos := fill_cell o (plain (rw_mem s) (L_slot (slot_at (rw_cap s) pos)))]> (rw_log s)
           | _ => rw_log s
           end)
          (rw_out s) (match p with S_post o _ => rw_done s ++ [o] | _ => rw_done s end)).

Definition wget_step (s : rstate) (max_lines t : Z) : option rstate :=
  match snd (rw_cons s) with
  | H_idle | H_done | H_batch _ _ => None
  | c =>
      '(M, V', r) ← perform (get_access (rw_cap s) max_lines c) (rw_mem s) (fst (rw_cons s)) t false;
      Some (RState (rw_cap s) M (rw_prods s) (V', get_after max_lines c (cell_val r) (cell_of r)) (rw_closer s) (rw_log s)
              (match c with H_store _ got => rw_out s ++ got | _ => rw_out s end) (rw_done s))
  end.

Definition wstop_step (s : rstate) (x : access ring_loc line_cell) (k : rcpc) (t : Z) : option rstate :=
  '(M, V', _) ← perform x (rw_mem s) (fst (rw_closer s)) t false;
  Some (RState (rw_cap s) M (rw_prods s) (rw_cons s) (V', k) (rw_log s) (rw_out s) (rw_done s)).

(** Does the writer follow the pointer of this line into its slot? *)
Definition sends_slot (send : bool) (e : line_cell) : bool :=
  match lc_line e with WL_inline => send && negb (lc_len e =? 0) | _ => false end.

(** The writer's loop body on its next line. *)
Definition wuse_step (s : rstate) (send : bool) : option rstate :=
  let move M V c := RState (rw_cap s) M (rw_prods s) (V, c) (rw_closer s) (rw_log s) (rw_out s) (rw_done s) in
  match snd (rw_cons s) with
  | H_batch _ [] => Some (move (rw_mem s) (fst (rw_cons s)) H_idle)
  | H_batch pos (e :: l) =>
      '(M, V', _) ← perform (if sends_slot send e then ATouch (L_slot (slot_at (rw_cap s) pos)) id else ANone)
                      (rw_mem s) (fst (rw_cons s)) 0 false;
      Some (move M V' (H_batch (u64 (pos + 1)) l))
  | _ => None
  end.

Inductive rwaction :=
  | U_put (i : nat) (o : put_op) | U_prod (i : nat) (t : Z) (spurious : bool)
  | U_get | U_cons (max_lines t : Z) | U_use (send : bool)
  | U_close | U_closer (t : Z) | U_signal.

Definition rwexec (s : rstate) (a : rwaction) : option rstate :=
  match a with
  | U_put i o =>
      match rw_prods s !! i with
      | Some (V, S_idle) =>
          Some (RState (rw_cap s) (rw_mem s)
                  (<[i := (V, if clen (o_line o) =? 0 then S_ret o (-1) else S_closed o)]> (rw_prods s))
                  (rw_cons s) (rw_closer s) (rw_log s) (rw_out s) (rw_done s))
      | _ => None
      end
  | U_prod i t sp => wput_step s i t sp
  | U_get =>
      match snd (rw_cons s) with
      | H_idle | H_done =>
          Some (RState (rw_cap s) (rw_mem s) (rw_prods s) (fst (rw_cons s), H_closed) (rw_closer s) (rw_log s) (rw_out s) (rw_done s))
      | _ => None
      end
  | U_cons m t => wget_step s m t
  | U_use send => wuse_step s send
  | U_close => match snd (rw_closer s) with Z_idle => wstop_step s ANone Z_closed 0 | _ => None end
  | U_closer t => wstop_step s (rclose_access (snd (rw_closer s))) (rclose_after (snd (rw_closer s))) t
  | U_signal => wstop_step s (APost L_items) (snd (rw_closer s)) 0
  end.

Fixpoint rwexec_all (s : rstate) (l : list rwaction) : option rstate :=
  match l with [] => Some s | a :: l' => s1 ← rwexec s a; rwexec_all s1 l' end.

(** Steps in which the writer does not read a slot it has given back. *)
Definition keeps_off (s : rstate) (a : rwaction) : bool :=
  match a, snd (rw_cons s) with
  | U_use send, H_batch _ (e :: _) => negb (sends_slot send e)
  | _, _ => true
  end.

Inductive rwsteps : nat → rstate → rstate → Prop :=
  | rwsteps_O s : rwsteps O s s
  | rwsteps_S n s s1 s2 a : rwsteps n s s1 → keeps_off s1 a = true → rwexec s1 a = Some s2 → rwsteps (S n) s s2.

(** A schedule, and the steps it is. *)
Fixpoint keeps_off_all (s : rstate) (l : list rwaction) : bool :=
  match l with
  | [] => true
  | a :: l' => keeps_off s a && match rwexec s a with Some s1 => keeps_off_all s1 l' | None => true end
  end.

Lemma rwexec_all_steps n s s1 s2 l :
  rwsteps n s s1 → keeps_off_all s1 l = true → rwexec_all s1 l = Some s2 → rwsteps (length l + n) s s2.
Proof.
  revert n s1. induction l as [|a l IH]; intros n s1 H; cbn; [by intros _ [= <-]|].
  rewrite andb_true_iff. destruct (rwexec s1 a) as [s'|] eqn:E; [|done]. cbn. intros [Hk HK] HL.
  replace (S (length l + n))%nat with (length l + S n)%nat by lia. eapply IH; [by econstructor|done|done].
Qed.

(** ** The invariant *)

Definition put_role (p : rpc) : role :=
  match p with
  | S_tail _ head => Saw head
  | S_cas _ head => Wants head
  | S_write _ pos => Owner pos
  | S_pub _ pos _ => Writer pos
  | _ => Outside
  end.
Definition with_put_role (x : view ring_loc * rpc) : view ring_loc * role := (fst x, put_role (snd x)).

Definition get_reader (c : hpc) : reader line_cell :=
  match c with
  | H_seq _ _ got | H_store _ got => Reading got
  | H_copy _ _ got => Copying got
  | _ => Caught
  end.

Definition hpc_ok (T : Z) (c : hpc) : Prop :=
  match c with H_seq t _ _ | H_copy t _ _ | H_store t _ => t = T | _ => True end.

(** The calls past their write that have not posted. *)
Definition put_inflight (x : view ring_loc * rpc) : option put_op :=
  match snd x with S_pub o _ _ | S_count o _ | S_post o _ => Some o | _ => None end.

Definition filled_by (e : line_cell) (o : put_op) : Prop := lc_by e = Some o ∧ line_of e = stored o.

Record rwinv (n N C : Z) (s : rstate) : Prop := {
  z_cap : ∃ k, 0 <= k <= 62 ∧ rw_cap s = 2 ^ k;
  z_n : N <= n;
  z_threads : threads_ok (rw_cap s) N C (rw_mem s) (rw_log s) (with_put_role <$> rw_prods s)
    (fst (rw_cons s)) (get_reader (snd (rw_cons s))) (rw_out s) (fst (rw_closer s));
  z_tail : hpc_ok (clen (rw_out s)) (snd (rw_cons s));
  z_line pos e : rw_log s !! pos = Some e → ∃ o, filled_by e o;
  z_perm : omap (λ x, lc_by (snd x)) (map_to_list (rw_log s)) ≡ₚ rw_done s ++ omap put_inflight (rw_prods s)
}.

Lemma fill_cell_line o e : filled_by (fill_cell o e) o.
Proof.
  unfold filled_by, fill_cell, stored, line_of.
  assert (Z.to_nat (clen (o_line o)) = length (o_line o)) as El by (unfold clen; lia).
  destruct (clen (o_line o) <? SOCKET_RING_INLINE_LEN); cbn [orb lc_by lc_line lc_len lc_inline].
  - unfold inline_store. by rewrite El, take_app_length.
  - destruct (o_alloc o); cbn; [|done]. by rewrite El, take_app_length.
Qed.

Lemma rwinv_slot n N C s pos : rwinv n N C s → slot_at (rw_cap s) pos = pos mod rw_cap s.
Proof. intros H. destruct (z_cap _ _ _ _ H) as (k & Hk & E). eapply slot_at_mod; [exact E|lia]. Qed.

Lemma rwinv_weaken n n' N C s : rwinv n N C s → n <= n' → rwinv n' N C s.
Proof. intros [] ?. split; try done. lia. Qed.

(** ** A step of a producer *)

Section producer.
Context (n N C : Z) (s : rstate) (i : nat) (V : view ring_loc) (p : rpc) (HI : rwinv n N C s)
  (Hn : n < 2 ^ 62) (Hi : rw_prods s !! i = Some (V, p)).

Abbreviation moved M' V' p' log' done' :=
  (RState (rw_cap s) M' (<[i := (V', p')]> (rw_prods s)) (rw_cons s) (rw_closer s) log' (rw_out s) done').
Abbreviation threads N' M' log' V' r' :=
  (threads_ok (rw_cap s) N' C M' log' (<[i := (V', r')]> (with_put_role <$> rw_prods s))
    (fst (rw_cons s)) (get_reader (snd (rw_cons s))) (rw_out s) (fst (rw_closer s))).

Lemma put_role_at : (with_put_role <$> rw_prods s) !! i = Some (V, put_role p).
Proof. by rewrite list_lookup_fmap, Hi. Qed.

Lemma rwinv_prod n' N' M' V' p' log' done' :
  threads N' M' log' V' (put_role p') → N' <= n' → (∀ pos e, log' !! pos = Some e → ∃ o, filled_by e o) →
  omap (λ x, lc_by (snd x)) (map_to_list log') ≡ₚ done' ++ omap put_inflight (<[i := (V', p')]> (rw_prods s)) →
  rwinv n' N' C (moved M' V' p' log' done').
Proof. intros HT HN Hl Hperm. destruct HI. split; cbn; try done. rewrite list_fmap_insert. exact HT. Qed.

(** Accesses that do not write. *)
Lemma rwinv_quiet n' N' M' V' p' done' :
  threads N' M' (rw_log s) V' (put_role p') → N' <= n' →
  done' ++ omap put_inflight (<[i := (V', p')]> (rw_prods s)) ≡ₚ rw_done s ++ omap put_inflight (rw_prods s) →
  rwinv n' N' C (moved M' V' p' (rw_log s) done').
Proof. intros HT HN Hp. apply rwinv_prod; try done; [apply HI|]. rewrite Hp. apply HI. Qed.

Lemma same_inflight V' p' :
  put_inflight (V', p') = put_inflight (V, p) →
  rw_done s ++ omap put_inflight (<[i := (V', p')]> (rw_prods s)) ≡ₚ rw_done s ++ omap put_inflight (rw_prods s).
Proof. intros Hf. by rewrite (omap_insert_same put_inflight _ _ _ _ Hi Hf). Qed.

Lemma posted V' p' (o : put_op) :
  put_inflight (V, p) = Some o → put_inflight (V', p') = None →
  (rw_done s ++ [o]) ++ omap put_inflight (<[i := (V', p')]> (rw_prods s)) ≡ₚ rw_done s ++ omap put_inflight (rw_prods s).
Proof.
  intros H1 H2. rewrite <- app_assoc. f_equiv. pose proof (omap_insert put_inflight _ _ _ (V', p') Hi) as Hp.
  rewrite H1, H2 in Hp. cbn in Hp. rewrite app_nil_r in Hp. rewrite <- Hp. apply Permutation_cons_append.
Qed.

Lemma rwinv_other x t sp M' V' a p' done' :
  perform x (rw_mem s) V t sp = Some (M', V', a) → ring_other x = true → put_role p' = Outside →
  done' ++ omap put_inflight (<[i := (V', p')]> (rw_prods s)) ≡ₚ rw_done s ++ omap put_inflight (rw_prods s) →
  rwinv n N C (moved M' V' p' (rw_log s) done').
Proof.
  intros HP Hx Hr Hf. apply rwinv_quiet; [|apply HI|done]. rewrite Hr.
  by eapply (threads_other _ _ _ _ _ _ _ _ _ _ (z_threads _ _ _ _ HI)); [exact put_role_at|..].
Qed.

Lemma rwinv_tail o head t y :
  p = S_tail o head → load Acquire (rw_mem s) V L_tail t = Some y →
  rwinv n N C (moved (rw_mem s) (snd y) (put_after (rw_cap s) p (fst y)) (rw_log s) (rw_done s)).
Proof.
  intros Ep HL. pose proof put_role_at as Hat. pose proof (z_n _ _ _ _ HI). rewrite Ep in Hat |- *. cbn [put_after].
  rewrite Z.geb_leb. destruct (Z.leb_spec (rw_cap s) (usub head (fst y))).
  - eapply (rwinv_other (ALoad Acquire L_tail) t false); [cbn; by rewrite HL|done|done|]. apply same_inflight. by rewrite Ep.
  - apply rwinv_quiet; [|apply HI|apply same_inflight; by rewrite Ep].
    by eapply (threads_tail _ _ _ _ _ _ _ _ _ _ (z_threads _ _ _ _ HI)); [exact Hat|lia|..].
Qed.

(** The claim: the head it read before the tail, or a retry. *)
Lemma rwinv_cas o head t sp M' V' a :
  p = S_cas o head → perform (ACas L_head head (u64 (head + 1))) (rw_mem s) V t sp = Some (M', V', a) →
  ∃ N', rwinv (n + 1) N' C (moved M' V' (put_after (rw_cap s) p (cell_val a)) (rw_log s) (rw_done s)).
Proof.
  intros Ep HP. pose proof put_role_at as Hat. pose proof (z_n _ _ _ _ HI). pose proof (z_threads _ _ _ _ HI) as HT.
  pose proof (WeakRing.r_pos (u_ring HT)). rewrite Ep in Hat |- *. cbn [put_role] in Hat.
  cbn [perform] in HP. apply bind_Some in HP as ([[M1 V1] b] & HC & [= <- <- <-]).
  unfold cas in HC. apply bind_Some in HC as (m & Em & HC). destruct ((m_val m =? head) && negb sp) eqn:Ev.
  - apply bind_Some in HC as ([[M2 V2] v] & HU & [= <- <- <-]). cbn.
    assert (v = head) as ->.
    { destruct (update_ok _ _ _ _ L_head _ _ _ (r_mem (u_ring HT)) (u_view HT _ _ _ Hat) eq_refl HU) as (_ & _ & _ & m' & W & Em' & -> & _).
      apply andb_true_iff in Ev as [Ev _]. assert (m' = m) as -> by congruence. lia. }
    destruct (threads_claim _ _ _ _ _ _ _ _ _ _ HT i V (Wants head) (λ _, u64 (head + 1)) t M2 V2 head (Owner head) Hat) as [_ HT']; try done.
    { intros ->. apply u64_id. split; lia. }
    { intros Hle (? & ? & Hfr) -> Hnone. cbn. split_and!; [lia|lia|done|done|by eapply freed_proper]. }
    exists (N + 1). apply rwinv_quiet; [done|lia|apply same_inflight; by rewrite Ep].
  - apply bind_Some in HC as (y & HL & [= <- <- <-]). cbn. exists N. eapply rwinv_weaken; [|by apply Z.le_succ_diag_r].
    eapply (rwinv_other (ALoad Acquire L_head) t false); [cbn; by rewrite HL|done|done|]. apply same_inflight. by rewrite Ep.
Qed.

Lemma rwinv_write o pos M' V' b :
  p = S_write o pos →
  touch (rw_mem s) V (L_slot (pos mod rw_cap s)) (fill_cell o (plain (rw_mem s) (L_slot (pos mod rw_cap s)))) = (M', V', b) →
  rwinv n N C (moved M' V' (S_pub o pos (stored o))
    (<[pos := fill_cell o (plain (rw_mem s) (L_slot (pos mod rw_cap s)))]> (rw_log s)) (rw_done s)).
Proof.
  intros Ep HTo. pose proof put_role_at as Hat. rewrite Ep in Hat. set (e := fill_cell _ _) in *.
  destruct (threads_write _ _ _ _ _ _ _ _ _ _ (z_threads _ _ _ _ HI) _ _ pos e _ _ _ Hat HTo) as [Hnone HT'].
  apply rwinv_prod; [done|apply HI|..].
  - intros q x. rewrite lookup_insert_Some. intros [[_ <-]|[_ Hx]]; [|by eapply (z_line _ _ _ _ HI)].
    exists o. apply fill_cell_line.
  - rewrite map_to_list_insert by done. cbn. assert (lc_by e = Some o) as -> by apply fill_cell_line.
    pose proof (omap_insert put_inflight _ _ _ (V', S_pub o pos (stored o)) Hi) as Hperm.
    rewrite Ep in Hperm. cbn in Hperm. rewrite app_nil_r in Hperm. rewrite Hperm, (z_perm _ _ _ _ HI), app_assoc.
    apply Permutation_cons_append.
Qed.

Lemma rwinv_publish o pos c t y :
  p = S_pub o pos c → store Release (rw_mem s) V (L_seq (pos mod rw_cap s)) (u64 (pos + 1)) t = Some y →
  rwinv n N C (moved (fst y) (snd y) (S_count o c) (rw_log s) (rw_done s)).
Proof.
  intros Ep HS. pose proof (z_n _ _ _ _ HI). pose proof put_role_at as Hat. rewrite Ep in Hat.
  apply rwinv_quiet; [|apply HI|apply same_inflight; by rewrite Ep].
  by eapply (threads_publish _ _ _ _ _ _ _ _ _ _ (z_threads _ _ _ _ HI)); [exact Hat|lia|].
Qed.
End producer.

Lemma wput_step_inv n N C s i t sp s' :
  rwinv n N C s → n < 2 ^ 62 → wput_step s i t sp = Some s' → ∃ N', rwinv (n + 1) N' C s'.
Proof.
  intros HI Hn. unfold wput_step. destruct (rw_prods s !! i) as [[V p]|] eqn:Hi; [|done]. cbn [mbind option_bind].
  destruct (put_idle p) eqn:Hidle; [done|]. destruct (perform _ _ _ _ _) as [[[M' V'] r]|] eqn:HP; [|done].
  cbn [mbind option_bind]. intros [= <-].
  assert (∀ pos, slot_at (rw_cap s) pos = pos mod rw_cap s) as Hsl by (intros pos; by eapply rwinv_slot).
  assert (∀ s', rwinv n N C s' → ∃ N', rwinv (n + 1) N' C s') as Hw by (intros s' H; exists N; eapply rwinv_weaken; [exact H|lia]).
  pose proof (same_inflight s i V p Hi) as Hsame.
  destruct p; try discriminate Hidle; cbn [put_access] in HP; rewrite ?Hsl in *.
  - apply Hw. cbn [put_after]. destruct (_ =? 0); (eapply rwinv_other; try done; by apply Hsame).
  - apply Hw. apply perform_load in HP as (y & HL & -> & -> & ->). eapply rwinv_quiet; try done; [|apply HI|by apply Hsame].
    by eapply (threads_head _ _ _ _ _ _ _ _ _ _ (z_threads _ _ _ _ HI)); [by eapply put_role_at|..].
  - apply Hw. apply perform_load in HP as (y & HL & -> & -> & ->). by eapply rwinv_tail.
  - apply Hw. eapply rwinv_other; try done. by apply Hsame.
  - by eapply rwinv_cas.
  - apply Hw. cbn in HP. injection HP as HM HV' _. eapply rwinv_write; try done. unfold touch. by rewrite <- HM, <- HV'.
  - apply Hw. apply perform_store in HP as (y & HS & -> & -> & ->). by eapply rwinv_publish.
  - apply Hw. eapply rwinv_other; try done. by apply Hsame.
  - apply Hw. cbn [put_after]. destruct c; (eapply rwinv_other; try done; by eapply posted).
  - apply Hw. eapply rwinv_other; try done. by apply Hsame.
  - apply Hw. eapply rwinv_other; try done. by apply Hsame.
Qed.

(** ** A step of the writer *)

Section consumer.
Context (n N C : Z) (s : rstate) (HI : rwinv n N C s).
Abbreviation V := (fst (rw_cons s)).
Abbreviation T := (clen (rw_out s)).
Abbreviation moved M' V' c' out' :=
  (RState (rw_cap s) M' (rw_prods s) (V', c') (rw_closer s) (rw_log s) out' (rw_done s)).

Lemma rwinv_cons C' M' V' c' out' :
  threads_ok (rw_cap s) N C' M' (rw_log s) (with_put_role <$> rw_prods s) V' (get_reader c') out' (fst (rw_closer s)) →
  hpc_ok (clen out') c' → rwinv n N C' (moved M' V' c' out').
Proof. intros HT Hok. destruct HI. split; cbn; try done. Qed.

Lemma get_other x t sp M' V' a c' :
  perform x (rw_mem s) V t sp = Some (M', V', a) → ring_other x = true → hpc_ok T c' →
  (get_reader c' = get_reader (snd (rw_cons s)) ∨ get_reader c' = Caught ∧ C = T ∨ get_reader c' = Reading [] ∧ C = T) →
  rwinv n N C (moved M' V' c' (rw_out s)).
Proof.
  intros HP Hx Hok Hr. pose proof (z_threads _ _ _ _ HI) as HT. apply rwinv_cons; [|done].
  eapply (threads_cons_other _ _ _ _ _ _ _ _ _ _ HT); [exact HP|exact Hx|]. intros Hle.
  destruct Hr as [->|[[-> ->]|[-> ->]]]; [by eapply reads_mono; [| |apply HT]|done|]. cbn. change (clen []) with 0. split; [lia|done].
Qed.

Lemma rwinv_seq av got t y :
  snd (rw_cons s) = H_seq T av got → load Acquire (rw_mem s) V (L_seq (C mod rw_cap s)) t = Some y →
  rwinv n N C (moved (rw_mem s) (snd y)
    (if negb (fst y =? C + 1) then if clen got =? 0 then H_closed else H_store T got else H_copy T av got) (rw_out s)).
Proof.
  intros Ec HL. pose proof (z_threads _ _ _ _ HI) as HT. rewrite Ec in HT. cbn in HT.
  destruct (threads_seq _ _ _ _ _ _ _ _ _ _ HT got t y eq_refl HL) as (H1 & H2 & H3).
  destruct (Z.eqb_spec (fst y) (C + 1)); cbn [negb]; [by apply rwinv_cons; [apply H1|]|].
  destruct (Z.eqb_spec (clen got) 0) as [E|]; [|by apply rwinv_cons]. apply rwinv_cons; [|done].
  apply H3. unfold clen in E. destruct got; [done|cbn in E; lia].
Qed.
End consumer.

Lemma wget_step_inv n N C s m t s' :
  rwinv n N C s → n < 2 ^ 62 → wget_step s m t = Some s' → ∃ C', rwinv n N C' s'.
Proof.
  intros HI Hn. pose proof (z_threads _ _ _ _ HI) as HT. pose proof (z_tail _ _ _ _ HI) as Htl.
  pose proof (z_n _ _ _ _ HI) as HN. pose proof (u_reads HT) as Hr.
  assert (∀ pos, slot_at (rw_cap s) pos = pos mod rw_cap s) as Hsl by (intros pos; by eapply rwinv_slot).
  unfold wget_step. destruct (snd (rw_cons s)) eqn:Ec; try done; cbn [get_access]; rewrite ?Hsl;
    cbn [get_reader reads hpc_ok] in *; intros ([[M' V'] r] & HP & [= <-])%bind_Some;
    try match type of HP with
    | perform ?x _ _ _ _ = _ =>
        let b := eval cbn in (ring_other x) in
        match b with true =>
        exists C; eapply (get_other _ _ _ _ HI); [exact HP|done|..]; cbn [get_after]; repeat case_match; cbn [hpc_ok get_reader];
        try done; (by auto)
        end
    end.
  - (* H_tail *) apply perform_load in HP as (y & HL & -> & -> & ->). pose proof (own_tail _ _ _ _ _ _ _ _ _ _ HT t y HL) as Ey.
    exists C. cbn [get_after cell_val]. rewrite Ey.
    assert (perform (ALoad Acquire L_tail) (rw_mem s) (fst (rw_cons s)) t false = Some (rw_mem s, snd y, Val (fst y))) as HP by (cbn; by rewrite HL).
    destruct (_ =? 0); (eapply (get_other _ _ _ _ HI); [exact HP|done|done|]); cbn; auto.
  - (* H_seq *) destruct Hr as [E Hgot]. subst tail. destruct (batch_pos _ _ _ _ _ _ _ _ _ _ HT got E ltac:(lia)) as [E1 E2].
    rewrite E1 in HP. exists C. cbn [get_after]. destruct (_ && _).
    + apply perform_load in HP as (y & HL & -> & -> & ->). cbn [cell_val]. rewrite E1, E2. by eapply rwinv_seq.
    + eapply (get_other _ _ _ _ HI); [exact HP|done|by destruct (_ =? 0)|]. rewrite Ec.
      destruct (Z.eqb_spec (clen got) 0); [|by left]. right. left. split; [done|lia].
  - (* H_copy *) destruct Hr as ([E Hgot] & _). subst tail. destruct (batch_pos _ _ _ _ _ _ _ _ _ _ HT got E ltac:(lia)) as [E1 E2].
    rewrite E1 in HP. exists (C + 1). cbn in HP. injection HP as HM HV' <-. cbn [get_after cell_of option_list].
    destruct (threads_take _ _ _ _ _ _ _ _ _ _ HT got clear_cell M' V' (plain (rw_mem s) (L_slot (C mod rw_cap s))) eq_refl) as [_ HT'].
    { unfold touch. cbn. by rewrite <- HM, <- HV'. }
    by apply (rwinv_cons _ _ _ _ HI).
  - (* H_store *) destruct Hr as [E Hgot]. subst tail. destruct (batch_pos _ _ _ _ _ _ _ _ _ _ HT got E ltac:(lia)) as [E1 E2].
    rewrite E1 in HP. exists C. apply perform_store in HP as (y & HS & -> & -> & ->). apply (rwinv_cons _ _ _ _ HI); [|done].
    exact (threads_deliver _ _ _ _ _ _ _ _ _ _ HT got t y eq_refl HS).
Qed.

(** ** Every step *)

Lemma wstop_step_inv n N C s x k t s' :
  rwinv n N C s → ring_other x = true → wstop_step s x k t = Some s' → rwinv n N C s'.
Proof.
  intros HI Hx. unfold wstop_step. destruct (perform _ _ _ _ _) as [[[M' V'] r]|] eqn:HP; [|done].
  cbn [mbind option_bind]. intros [= <-]. pose proof (z_threads _ _ _ _ HI) as HT. destruct HI. split; cbn; try done.
  by eapply (threads_closer _ _ _ _ _ _ _ _ _ _ HT).
Qed.

Lemma rwinv_exec n N C s a s' :
  rwinv n N C s → n < 2 ^ 62 → keeps_off s a = true → rwexec s a = Some s' → ∃ N' C', rwinv (n + 1) N' C' s'.
Proof.
  intros HI Hn Hk. assert (∀ s', rwinv n N C s' → ∃ N' C', rwinv (n + 1) N' C' s') as Hw
    by (intros s1 H; exists N, C; eapply rwinv_weaken; [exact H|lia]).
  destruct a; cbn [rwexec].
  - destruct (rw_prods s !! i) as [[V []]|] eqn:Hi; try done. intros [= <-]. apply Hw.
    destruct (_ =? 0); (eapply (rwinv_other _ _ _ _ _ _ _ HI Hi ANone 0 false); try done; by apply (same_inflight s i V S_idle)).
  - intros H. destruct (wput_step_inv _ _ _ _ _ _ _ _ HI Hn H) as [N' H']. by exists N', C.
  - destruct (snd (rw_cons s)) eqn:Ec; try done; intros [= <-]; apply Hw;
      (eapply (get_other _ _ _ _ HI ANone 0 false); try done; rewrite Ec; by left).
  - intros H. destruct (wget_step_inv _ _ _ _ _ _ _ HI Hn H) as [C' H']. exists N, C'. eapply rwinv_weaken; [exact H'|lia].
  - cbn [keeps_off] in Hk. unfold wuse_step. destruct (snd (rw_cons s)) as [| | | | | | | | | | | |pos [|e l]|] eqn:Ec; try done.
    + intros [= <-]. apply Hw. eapply (get_other _ _ _ _ HI ANone 0 false); try done. rewrite Ec. by left.
    + apply negb_true_iff in Hk. rewrite Hk. intros [= <-]. apply Hw.
      eapply (get_other _ _ _ _ HI ANone 0 false); try done. rewrite Ec. by left.
  - destruct (snd (rw_closer s)); try done. intros H. eapply Hw, (wstop_step_inv _ _ _ _ _ _ _ _ HI); [|exact H]. done.
  - intros H. eapply Hw, (wstop_step_inv _ _ _ _ _ _ _ _ HI); [|exact H]. by destruct (snd (rw_closer s)).
  - intros H. eapply Hw, (wstop_step_inv _ _ _ _ _ _ _ _ HI); [|exact H]. done.
Qed.

Lemma rwinv_init k m : 0 <= k <= 62 → rwinv 0 0 0 (rw_init (2 ^ k) m).
Proof.
  intros Hk. assert (0 < 2 ^ k) as Hc by (apply Z.pow_pos_nonneg; lia).
  split; cbn [rw_init rw_cap rw_mem rw_prods rw_cons rw_closer rw_log rw_out rw_done fst snd]; try done.
  - by exists k.
  - rewrite fmap_replicate. apply threads_init; [done|]. split_and!; try done. intros []; cbn; eauto.
  - rewrite map_to_list_empty. clear. induction m as [|m IH]; [done|]. exact IH.
Qed.

Lemma rwinv_steps n k m s :
  0 <= k <= 62 → rwsteps n (rw_init (2 ^ k) m) s → Z.of_nat n <= 2 ^ 62 → ∃ N C, rwinv (Z.of_nat n) N C s.
Proof.
  intros Hk H. remember (rw_init (2 ^ k) m) as s0 eqn:E0. induction H as [s|n s s1 s2 a Hs IH Hko He]; intros Hn.
  - subst. exists 0, 0. by apply rwinv_init.
  - destruct (IH E0 ltac:(lia)) as (N & C & HI). rewrite Nat2Z.inj_succ, <- Z.add_1_r.
    by eapply rwinv_exec; [exact HI|lia|..].
Qed.

(** ** Properties *)

(** C13: the socket ring is safe under release/acquire memory as long as the writer does not
    go back to a slot it has released.  For any number of producers, the writer and the
    stopping thread, whatever messages the loads are given, whatever timestamps the stores
    take and however often the weak compare-and-swap fails: no two accesses of a slot race;
    the writer takes positions 0, 1, 2, ... in order, each with the fields written there,
    which are those of one call and lead to the line of that call (or to none, if its copy
    could not be allocated); and the calls whose lines are in the ring are those that have
    posted and those past their write, each once. *)
Theorem weak_ring_safe n k m s :
  0 <= k <= 62 → rwsteps n (rw_init (2 ^ k) m) s → Z.of_nat n <= 2 ^ 62 →
  raced (rw_mem s) = false ∧
  (∀ j e, rw_out s !! j = Some e → rw_log s !! Z.of_nat j = Some e) ∧
  (∀ pos e, rw_log s !! pos = Some e → ∃ o, lc_by e = Some o ∧ line_of e = stored o) ∧
  omap (λ x, lc_by (snd x)) (map_to_list (rw_log s)) ≡ₚ rw_done s ++ omap put_inflight (rw_prods s).
Proof.
  intros Hk Hs Hn. destruct (rwinv_steps n k m s Hk Hs Hn) as (N & C & HI). pose proof (z_threads _ _ _ _ HI) as HT.
  split; [apply HT|]. split; [apply HT|]. split; apply HI.
Qed.

(** A put of an inline line and of one that needs a copy, and the batch of both. *)
Definition put_steps (i : nat) (h tl sq ct : Z) : list rwaction :=
  [U_prod i 0 false; U_prod i h false; U_prod i tl false; U_prod i h false; U_prod i 0 false; U_prod i sq false;
   U_prod i ct false; U_prod i 0 false; U_prod i 0 false].

Definition long_line : cstr := replicate 300 120.

Definition ring_schedule : list rwaction :=
  [U_put 0 (PutOp (B "ab") true)] ++ put_steps 0 0 0 1 0 ++ [U_put 0 (PutOp long_line true)] ++ put_steps 0 1 0 1 1 ++
  [U_get; U_cons 8 0; U_cons 8 0; U_cons 8 2; U_cons 8 0; U_cons 8 1; U_cons 8 0; U_cons 8 1; U_cons 8 0; U_cons 8 0;
   U_cons 8 1; U_cons 8 2; U_use false; U_use true; U_use true].

Lemma weak_ring_safe_witness :
  ∃ s, rwexec_all (rw_init (2 ^ 1) 1) ring_schedule = Some s ∧ raced (rw_mem s) = false ∧
    map line_of (rw_out s) = [Some (B "ab"); Some long_line] ∧ ∀ pos e, rw_log s !! pos = Some e → ∃ o, lc_by e = Some o ∧ line_of e = stored o.
Proof.
  assert ((λ s, (map line_of (rw_out s), keeps_off_all (rw_init (2 ^ 1) 1) ring_schedule)) <$>
    rwexec_all (rw_init (2 ^ 1) 1) ring_schedule = Some ([Some (B "ab"); Some long_line], true)) as E by (vm_compute; reflexivity).
  destruct (rwexec_all (rw_init (2 ^ 1) 1) ring_schedule) as [s|] eqn:Es; [|discriminate].
  apply (inj Some) in E. rewrite pair_equal_spec in E. destruct E as [E1 E2]. exists s.
  pose proof (rwexec_all_steps 0 (rw_init (2 ^ 1) 1) (rw_init (2 ^ 1) 1) s ring_schedule (rwsteps_O _) E2 Es) as H.
  destruct (weak_ring_safe (length ring_schedule + 0) 1 1 s ltac:(lia) H ltac:(vm_compute; discriminate)) as (H1 & _ & H3 & _).
  split; [reflexivity|]. split; [exact H1|]. split; [exact E1|]. exact H3.
Defined.

(** ** The writer reads slots it has released

    The writer follows the pointer of an inline line when it sends, after it has stored
    [tail].  A producer that has seen that tail may fill the slot again: nothing orders the
    two, so even a line that was sent completely before the slot is filled again is a data
    race; the next batch alone would order them. *)
Definition inline_reuse : list rwaction :=
  [U_put 0 (PutOp (B "ab") true)] ++ put_steps 0 0 0 1 0 ++
  [U_get; U_cons 8 0; U_cons 8 0; U_cons 8 1; U_cons 8 0; U_cons 8 1; U_cons 8 0; U_cons 8 0; U_cons 8 1; U_cons 8 1;
   U_use true; U_use true] ++
  [U_put 0 (PutOp (B "cd") true)] ++ put_steps 0 1 1 1 2 ++
  [U_put 0 (PutOp (B "ef") true)] ++ take 4 (put_steps 0 2 1 2 3).

Example sent_line_races :
  ∃ s s', rwexec_all (rw_init (2 ^ 1) 1) inline_reuse = Some s ∧ snd (rw_cons s) = H_idle ∧ raced (rw_mem s) = false ∧
    map snd (rw_prods s) = [S_write (PutOp (B "ef") true) 2] ∧
    rwexec s (U_prod 0 0 false) = Some s' ∧ raced (rw_mem s') = true.
Proof.
  assert ((λ s, (snd (rw_cons s), raced (rw_mem s), map snd (rw_prods s), (λ s', raced (rw_mem s')) <$> rwexec s (U_prod 0 0 false))) <$>
    rwexec_all (rw_init (2 ^ 1) 1) inline_reuse = Some (H_idle, false, [S_write (PutOp (B "ef") true) 2], Some true)) as E by (vm_compute; reflexivity).
  destruct (rwexec_all (rw_init (2 ^ 1) 1) inline_reuse) as [s|]; [|discriminate].
  apply (inj Some) in E. rewrite !pair_equal_spec in E. destruct E as (((E1 & E2) & E3) & E4).
  destruct (rwexec s (U_prod 0 0 false)) as [s'|] eqn:E5; [|discriminate]. exists s, s'. split_and!; try done. by injection E4.
Qed.
