(* ===== verification/Trace.v ===== *)
(** * Trace context and spans (core/log.c, trace partition)

    The per-thread base context and the stack of sixteen span frames, the random
    identifiers with their xorshift fallback, and the traceparent header written by
    [clog_span_export] and read by [clog_span_join]. *)
From S2P Require Import Prelude Record FmtBuf FmtOtel.

Local Open Scope Z_scope.

Definition CLOG_SPAN_MAX_DEPTH : nat := 16.

Record clog_span_slot_t := SpanSlot { sp_trace_id : list Z; sp_span_id : list Z; sp_flags : Z }.

Definition zero_slot : clog_span_slot_t := SpanSlot (zeros 16) (zeros 8) 0.

(** The thread-local variables. *)
Record trace_state := TraceState {
  g_thread_trace_id : list Z;
  g_thread_span_id : list Z;
  g_has_thread_trace_context : bool;
  g_span_stack : list clog_span_slot_t;
  g_span_depth : nat
}.

Definition trace_init : trace_state :=
  TraceState (zeros 16) (zeros 8) false (replicate CLOG_SPAN_MAX_DEPTH zero_slot) 0.

Definition span_is_zero (id : list Z) : bool := forallb (λ b, b =? 0) id.

(** [&g_span_stack[g_span_depth - 1]]. *)
Definition top_slot (s : trace_state) : clog_span_slot_t :=
  default zero_slot (g_span_stack s !! (g_span_depth s - 1)%nat).

Definition span_current_ids (s : trace_state) : list Z * list Z :=
  if (0 <? Z.of_nat (g_span_depth s)) then (sp_trace_id (top_slot s), sp_span_id (top_slot s))
  else if g_has_thread_trace_context s then (g_thread_trace_id s, g_thread_span_id s)
  else (zeros 16, zeros 8).

(** ** Random identifiers *)

(** What one call gets from the system: the bytes [getrandom] returned, when it
    returned as many as were asked for, and the seed of the fallback. *)
Record entropy := Entropy { e_getrandom : option (list Z); e_seed : Z }.

(** One turn of the generator. *)
Definition xorshift (s : Z) : Z :=
  let s := Z.lxor s (u64 (Z.shiftl s 13)) in
  let s := Z.lxor s (Z.shiftr s 7) in
  let s := Z.lxor s (u64 (Z.shiftl s 17)) in
  if s =? 0 then 0x9e3779b97f4a7c15 else s.

(** The eight bytes of a word, least significant first. *)
Definition word_bytes (s : Z) : list Z :=
  map (λ k, Z.land (Z.shiftr s (Z.of_nat k * 8)) 255) (seq 0 8).

Fixpoint xorshift_bytes (turns n : nat) (s : Z) : list Z :=
  match turns with
  | O => []
  | S turns' =>
      let s := xorshift s in
      let chunk := Nat.min n 8 in
      take chunk (word_bytes s) ++ xorshift_bytes turns' (n - chunk) s
  end.

Definition span_random_bytes (e : entropy) (n : nat) : list Z :=
  match e_getrandom e with
  | Some bytes => bytes
  | None =>
      let s := if e_seed e =? 0 then 0x9e3779b97f4a7c15 else e_seed e in
      xorshift_bytes n n s
  end.

Definition span_new_span_id (e : entropy) : list Z :=
  let span_id := span_random_bytes e 8 in
  if span_is_zero span_id then <[7%nat := 1]> span_id else span_id.

(** ** Base context *)

Definition clog_clear_trace_context (s : trace_state) : trace_state :=
  TraceState (zeros 16) (zeros 8) false (replicate CLOG_SPAN_MAX_DEPTH zero_slot) 0.

Definition clog_set_trace_context (s : trace_state) (trace_id span_id : option (list Z)) : trace_state :=
  match trace_id, span_id with
  | Some t, Some p => TraceState t p true (g_span_stack s) (g_span_depth s)
  | _, _ => clog_clear_trace_context s
  end.

Definition clog_get_trace_context (s : trace_state) : list Z * list Z :=
  if (0 <? Z.of_nat (g_span_depth s)) then (sp_trace_id (top_slot s), sp_span_id (top_slot s))
  else (if g_has_thread_trace_context s then g_thread_trace_id s else zeros 16,
        if g_has_thread_trace_context s then g_thread_span_id s else zeros 8).

(** ** Spans *)

(** Fill [g_span_stack[g_span_depth]] and increment the depth. *)
Definition push_slot (s : trace_state) (slot : clog_span_slot_t) : trace_state :=
  TraceState (g_thread_trace_id s) (g_thread_span_id s) (g_has_thread_trace_context s)
    (<[g_span_depth s := slot]> (g_span_stack s)) (S (g_span_depth s)).

(** [e1] serves the trace identifier, [e2] the span identifier. *)
Definition clog_span_start (s : trace_state) (e1 e2 : entropy) : trace_state * Z :=
  if Nat.leb CLOG_SPAN_MAX_DEPTH (g_span_depth s) then (s, 0) else
  let '(trace_id, flags) :=
    if (0 <? Z.of_nat (g_span_depth s)) then (sp_trace_id (top_slot s), sp_flags (top_slot s))
    else if g_has_thread_trace_context s then (g_thread_trace_id s, 0)
    else
      let t := span_random_bytes e1 16 in
      (if span_is_zero t then <[15%nat := 1]> t else t, 0) in
  let s' := push_slot s (SpanSlot trace_id (span_new_span_id e2) flags) in
  (s', Z.of_nat (g_span_depth s')).

Definition clog_span_end (s : trace_state) (tok : Z) : trace_state * Z :=
  if (tok =? 0) || negb (tok =? Z.of_nat (g_span_depth s)) then (s, CLOG_ERR_INVALID_ARG)
  else (TraceState (g_thread_trace_id s) (g_thread_span_id s) (g_has_thread_trace_context s)
          (<[(g_span_depth s - 1)%nat := zero_slot]> (g_span_stack s)) (g_span_depth s - 1), CLOG_OK).

(** ** The traceparent header *)

(** The text in [buf], for a buffer of [len] bytes. *)
Definition clog_span_export (s : trace_state) (len : Z) : option cstr :=
  if len <? 56 then None else
  let '(trace_id, span_id) := span_current_ids s in
  let flags := if (0 <? Z.of_nat (g_span_depth s)) then sp_flags (top_slot s) else 0 in
  if span_is_zero trace_id then None
  else Some (B "00-" ++ mbind hex_byte trace_id ++ B "-" ++ mbind hex_byte span_id ++ B "-" ++ hex_byte flags).

Definition parse_hex_nibble (c : Z) : Z :=
  if (48 <=? c) && (c <=? 57) then c - 48
  else if (97 <=? c) && (c <=? 102) then c - 97 + 10
  else if (65 <=? c) && (c <=? 70) then c - 65 + 10
  else -1.

(** Bytes [i .. i + n - 1], two digits each, from [off]; [None] at the first digit
    that is not hexadecimal. *)
Fixpoint parse_hex_bytes (s : cstr) (off i n : nat) : option (list Z) :=
  match n with
  | O => Some []
  | S n' =>
      let hi := parse_hex_nibble (char_at s (off + i * 2)) in
      let lo := parse_hex_nibble (char_at s (off + i * 2 + 1)) in
      if (hi <? 0) || (lo <? 0) then None
      else bytes ← parse_hex_bytes s off (S i) n'; Some (u8 (Z.lor (Z.shiftl hi 4) lo) :: bytes)
  end.

Definition clog_span_join (s : trace_state) (e : entropy) (traceparent : option cstr) : trace_state * Z :=
  match traceparent with
  | None => (s, 0)
  | Some tp =>
      if (clen tp <? 55) || Nat.leb CLOG_SPAN_MAX_DEPTH (g_span_depth s) then (s, 0)
      else if negb (char_at tp 2 =? 45) || negb (char_at tp 35 =? 45) || negb (char_at tp 52 =? 45)
      then (s, 0)
      else
        match parse_hex_bytes tp 3 0 16, parse_hex_bytes tp 36 0 8, parse_hex_bytes tp 53 0 1 with
        | Some tid, Some _, Some [flags] =>
            let s' := push_slot s (SpanSlot tid (span_new_span_id e) flags) in
            (s', Z.of_nat (g_span_depth s'))
        | _, _, _ => (s, 0)
        end
  end.

Definition clog_set_trace_context_hex (s : trace_state) (trace_id_hex span_id_hex : option cstr)
    : trace_state * Z :=
  match trace_id_hex, span_id_hex with
  | Some t, Some p =>
      if (clen t =? 0) && (clen p =? 0) then (clog_clear_trace_context s, CLOG_OK)
      else if (clen t <? 32) || (clen p <? 16) then (s, CLOG_ERR_INVALID_ARG)
      else
        match parse_hex_bytes t 0 0 16, parse_hex_bytes p 0 0 8 with
        | Some tid, Some sid => (clog_set_trace_context s (Some tid) (Some sid), CLOG_OK)
        | _, _ => (s, CLOG_ERR_INVALID_ARG)
        end
  | _, _ => (clog_clear_trace_context s, CLOG_OK)
  end.

(** ** Invariant *)

Definition id_ok (n : nat) (id : list Z) : Prop := length id = n ∧ Forall is_byte id.

Definition slot_ok (sl : clog_span_slot_t) : Prop :=
  id_ok 16 (sp_trace_id sl) ∧ id_ok 8 (sp_span_id sl) ∧ is_byte (sp_flags sl).

(** Sixteen frames, the ones above the depth zero, everything of its size. *)
Record trace_ok (s : trace_state) : Prop := {
  t_len : length (g_span_stack s) = CLOG_SPAN_MAX_DEPTH;
  t_depth : (g_span_depth s ≤ CLOG_SPAN_MAX_DEPTH)%nat;
  t_slots : Forall slot_ok (g_span_stack s);
  t_above i sl : g_span_stack s !! i = Some sl → (g_span_depth s ≤ i)%nat → sl = zero_slot;
  t_base : id_ok 16 (g_thread_trace_id s) ∧ id_ok 8 (g_thread_span_id s)
}.

Definition entropy_ok (n : nat) (e : entropy) : Prop :=
  match e_getrandom e with Some bytes => id_ok n bytes | None => True end ∧ is_u64 (e_seed e).

Lemma zeros_ok n : id_ok n (zeros n).
Proof.
  split; [apply repeat_length|]. apply Forall_forall. intros x Hx.
  apply list_elem_of_In, repeat_spec in Hx. subst. unfold is_byte. lia.
Qed.

Lemma zero_slot_ok : slot_ok zero_slot.
Proof. split_and!; [apply zeros_ok..|]. unfold is_byte. simpl. lia. Qed.

Lemma trace_init_ok : trace_ok trace_init.
Proof.
  constructor; cbn [g_span_stack g_span_depth trace_init g_thread_trace_id g_thread_span_id].
  - apply length_replicate.
  - unfold CLOG_SPAN_MAX_DEPTH. lia.
  - apply Forall_replicate, zero_slot_ok.
  - intros i sl [-> _]%lookup_replicate_1 _. done.
  - split; apply zeros_ok.
Qed.

Lemma land255_byte z : is_byte (Z.land z 255).
Proof. change 255 with (Z.ones 8). rewrite Z.land_ones by lia. apply Z.mod_pos_bound. lia. Qed.

Lemma word_bytes_ok s : id_ok 8 (word_bytes s).
Proof.
  split; [done|]. unfold word_bytes. apply Forall_forall. intros x Hx.
  apply list_elem_of_In, in_map_iff in Hx as (k & <- & _). apply land255_byte.
Qed.

Lemma xorshift_bytes_ok turns n s : (n ≤ turns)%nat → id_ok n (xorshift_bytes turns n s).
Proof.
  revert n s. induction turns as [|turns IH]; intros n s Hn.
  { assert (n = 0%nat) as -> by lia. by split. }
  cbn [xorshift_bytes]. destruct (word_bytes_ok (xorshift s)) as [Hl Hb].
  destruct (IH (n - Nat.min n 8)%nat (xorshift s) ltac:(lia)) as [Hl' Hb']. split.
  - rewrite length_app, length_take, Hl, Hl'. lia.
  - apply Forall_app. split; [by apply Forall_take|done].
Qed.

Lemma span_random_bytes_ok e n : entropy_ok n e → id_ok n (span_random_bytes e n).
Proof.
  intros [He _]. unfold span_random_bytes. destruct (e_getrandom e); [done|]. by apply xorshift_bytes_ok.
Qed.

Lemma insert_one_ok n id i : id_ok n id → id_ok n (<[i := 1]> id).
Proof.
  intros [Hl Hb]. split; [by rewrite length_insert|]. apply Forall_insert; [done|]. unfold is_byte. lia.
Qed.

Lemma insert_one_nonzero id i : (i < length id)%nat → span_is_zero (<[i := 1]> id) = false.
Proof.
  intros Hi. apply not_true_iff_false. unfold span_is_zero. rewrite forallb_forall. intros H.
  specialize (H 1). cbn in H. assert (In 1 (<[i:=1]> id)) as Hin; [|by apply H in Hin].
  apply list_elem_of_In, list_elem_of_lookup. exists i. by apply list_lookup_insert_eq.
Qed.

Lemma span_new_span_id_ok e :
  entropy_ok 8 e → id_ok 8 (span_new_span_id e) ∧ span_is_zero (span_new_span_id e) = false.
Proof.
  intros He. pose proof (span_random_bytes_ok e 8 He) as Hid. unfold span_new_span_id.
  destruct (span_is_zero _) eqn:E; [|done]. split; [by apply insert_one_ok|].
  destruct Hid. apply insert_one_nonzero. lia.
Qed.

Lemma push_slot_ok s sl :
  trace_ok s → slot_ok sl → (g_span_depth s < CLOG_SPAN_MAX_DEPTH)%nat → trace_ok (push_slot s sl).
Proof.
  intros [Hl Hd Hs Ha Hb] Hsl Hlt. constructor; cbn; try done.
  - by rewrite length_insert.
  - by apply Forall_insert.
  - intros i sl' Hi Hle. rewrite list_lookup_insert_ne in Hi by lia. apply (Ha i); [done|lia].
Qed.

Lemma top_push s sl : trace_ok s → (g_span_depth s < CLOG_SPAN_MAX_DEPTH)%nat → top_slot (push_slot s sl) = sl.
Proof.
  intros [Hl _ _ _ _] Hlt. unfold top_slot. cbn. rewrite Nat.sub_0_r.
  rewrite list_lookup_insert_eq by lia. done.
Qed.

Lemma top_slot_ok s : trace_ok s → slot_ok (top_slot s).
Proof.
  intros [Hl Hd Hs Ha Hb]. unfold top_slot. destruct (_ !! _) as [sl|] eqn:E; [|apply zero_slot_ok].
  simpl. rewrite Forall_lookup in Hs. by eapply Hs.
Qed.

(** Ending the frame that was pushed last gives the state back. *)
Lemma end_push s sl :
  trace_ok s → (g_span_depth s < CLOG_SPAN_MAX_DEPTH)%nat →
  clog_span_end (push_slot s sl) (Z.of_nat (S (g_span_depth s))) = (s, CLOG_OK).
Proof.
  intros [Hl _ _ Ha _] Hlt. unfold clog_span_end. cbn [g_span_depth push_slot].
  destruct (Z.eqb_spec (Z.of_nat (S (g_span_depth s))) 0); [lia|]. rewrite Z.eqb_refl. cbn [orb negb].
  replace (S (g_span_depth s) - 1)%nat with (g_span_depth s) by lia.
  cbn [push_slot g_span_stack g_thread_trace_id g_thread_span_id g_has_thread_trace_context].
  rewrite list_insert_insert_eq. rewrite list_insert_id.
  - by destruct s.
  - destruct (lookup_lt_is_Some_2 (g_span_stack s) (g_span_depth s)) as [sl' Hsl']; [lia|].
    rewrite Hsl'. f_equal. by eapply Ha.
Qed.

Lemma parse_hex_nibble_lut d : 0 <= d < 16 → parse_hex_nibble (g_hex_lut !!! Z.to_nat d) = d.
Proof. apply hex_nibble_lut. Qed.

Lemma char_at_drop s off k : char_at s (off + k) = char_at (drop off s) k.
Proof. unfold char_at. by rewrite lookup_drop. Qed.

Lemma parse_hex_bytes_hex s off ids rest i n :
  Forall is_byte ids → drop off s = mbind hex_byte ids ++ rest → (i + n = length ids)%nat →
  parse_hex_bytes s off i n = Some (drop i ids).
Proof.
  intros Hids Hs. revert i. induction n as [|n IH]; intros i Hn.
  { simpl. by rewrite drop_ge by lia. }
  destruct (lookup_lt_is_Some_2 ids i ltac:(lia)) as [b Hb].
  destruct (char_at_hex ids rest i b Hids Hb) as (Hhi & Hlo & Hbyte).
  assert (0 <= b / 16 < 16) as Hh.
  { destruct Hbyte. split; [apply Z.div_pos; lia|apply Z.div_lt_upper_bound; lia]. }
  pose proof (Z.mod_pos_bound b 16 ltac:(lia)) as Hl.
  cbn [parse_hex_bytes]. rewrite <- Nat.add_assoc, (char_at_drop s off (i * 2)), (char_at_drop s off (i * 2 + 1)), Hs.
  change (parse_hex_nibble (char_at (mbind hex_byte ids ++ rest) (i * 2)))
    with (hex_nibble (char_at (mbind hex_byte ids ++ rest) (i * 2))).
  change (parse_hex_nibble (char_at (mbind hex_byte ids ++ rest) (i * 2 + 1)))
    with (hex_nibble (char_at (mbind hex_byte ids ++ rest) (i * 2 + 1))).
  rewrite Hhi, Hlo. destruct (Z.ltb_spec (b / 16) 0), (Z.ltb_spec (b mod 16) 0); try lia. cbn [orb].
  rewrite IH by lia. cbn [mbind option_bind]. rewrite lor_nibbles by lia.
  rewrite (drop_S ids b i Hb). do 2 f_equal. pose proof (Z.div_mod b 16). lia.
Qed.

(** The pieces of an exported header, at the offsets the reader uses. *)
Lemma header_pieces tid sid flags :
  id_ok 16 tid → id_ok 8 sid → is_byte flags →
  let tp := B "00-" ++ mbind hex_byte tid ++ B "-" ++ mbind hex_byte sid ++ B "-" ++ hex_byte flags in
  clen tp = 55 ∧ char_at tp 2 = 45 ∧ char_at tp 35 = 45 ∧ char_at tp 52 = 45 ∧
  parse_hex_bytes tp 3 0 16 = Some tid ∧ parse_hex_bytes tp 36 0 8 = Some sid ∧
  parse_hex_bytes tp 53 0 1 = Some [flags].
Proof.
  intros [Ht Hbt] [Hs Hbs] Hf tp. pose proof (length_hex tid) as Hlt. pose proof (length_hex sid) as Hls.
  rewrite Ht in Hlt. rewrite Hs in Hls.
  assert (length (hex_byte flags) = 2%nat) as Hlf by done.
  assert (drop 3 tp = mbind hex_byte tid ++ B "-" ++ mbind hex_byte sid ++ B "-" ++ hex_byte flags) as D3 by done.
  assert (drop 35 tp = B "-" ++ mbind hex_byte sid ++ B "-" ++ hex_byte flags) as D35.
  { change 35%nat with (3 + 32)%nat. by rewrite <- drop_drop, D3, drop_app_length' by lia. }
  assert (drop 36 tp = mbind hex_byte sid ++ B "-" ++ hex_byte flags) as D36.
  { change 36%nat with (35 + 1)%nat. by rewrite <- drop_drop, D35. }
  assert (drop 52 tp = B "-" ++ hex_byte flags) as D52.
  { change 52%nat with (36 + 16)%nat. by rewrite <- drop_drop, D36, drop_app_length' by lia. }
  assert (drop 53 tp = mbind hex_byte [flags] ++ []) as D53.
  { change 53%nat with (52 + 1)%nat. rewrite <- drop_drop, D52. done. }
  split_and!.
  - unfold tp, clen. rewrite !length_app, Hlt, Hls, Hlf. done.
  - done.
  - change 35%nat with (35 + 0)%nat. by rewrite char_at_drop, D35.
  - change 52%nat with (52 + 0)%nat. by rewrite char_at_drop, D52.
  - rewrite (parse_hex_bytes_hex _ _ tid _ _ _ Hbt D3) by (cbn; lia). done.
  - rewrite (parse_hex_bytes_hex _ _ sid _ _ _ Hbs D36) by (cbn; lia). done.
  - rewrite (parse_hex_bytes_hex _ _ [flags] _ _ _ ltac:(by apply Forall_singleton) D53) by done. done.
Qed.

Lemma span_start_push s e1 e2 :
  trace_ok s → entropy_ok 16 e1 → entropy_ok 8 e2 → (g_span_depth s < CLOG_SPAN_MAX_DEPTH)%nat →
  ∃ sl, clog_span_start s e1 e2 = (push_slot s sl, Z.of_nat (S (g_span_depth s))) ∧ slot_ok sl ∧
    span_is_zero (sp_span_id sl) = false ∧
    ((0 < g_span_depth s)%nat → sp_trace_id sl = sp_trace_id (top_slot s) ∧ sp_flags sl = sp_flags (top_slot s)) ∧
    (g_span_depth s = 0%nat → g_has_thread_trace_context s = true → sp_trace_id sl = g_thread_trace_id s) ∧
    (g_span_depth s = 0%nat → g_has_thread_trace_context s = false → span_is_zero (sp_trace_id sl) = false).
Proof.
  intros Hs He1 He2 Hlt. unfold clog_span_start.
  destruct (Nat.leb_spec CLOG_SPAN_MAX_DEPTH (g_span_depth s)); [lia|].
  destruct (span_new_span_id_ok e2 He2) as [Hid Hnz]. destruct (top_slot_ok s Hs) as (Ht & _ & Hf).
  pose proof (span_random_bytes_ok e1 16 He1) as Hr.
  destruct (Z.ltb_spec 0 (Z.of_nat (g_span_depth s))).
  - eexists. split; [done|]. split_and!; try done; lia.
  - destruct (g_has_thread_trace_context s) eqn:Hctx.
    + eexists. split; [done|]. destruct (t_base _ Hs) as [Hb1 Hb2].
      split_and!; cbn; try done; try lia.
    + eexists. split; [done|]. cbn.
      assert (id_ok 16 (if span_is_zero (span_random_bytes e1 16) then <[15%nat:=1]> (span_random_bytes e1 16)
        else span_random_bytes e1 16) ∧ span_is_zero (if span_is_zero (span_random_bytes e1 16)
        then <[15%nat:=1]> (span_random_bytes e1 16) else span_random_bytes e1 16) = false) as [Hok Hz].
      { destruct (span_is_zero (span_random_bytes e1 16)) eqn:E; [|done].
        split; [by apply insert_one_ok|]. destruct Hr. apply insert_one_nonzero. lia. }
      split_and!; try done; try lia.
Qed.

(** ** Properties *)

(** Spans nest: starting one below the limit hands out the new depth as token
    and a fresh non-zero span in the same trace, keeps the invariant, makes the new
    frame current, and ending it with that token gives back exactly the state before,
    while any other token is refused without effect; at the limit nothing happens. *)
Theorem span_lifo s e1 e2 :
  trace_ok s → entropy_ok 16 e1 → entropy_ok 8 e2 →
  let '(s', tok) := clog_span_start s e1 e2 in
  trace_ok s' ∧
  ((g_span_depth s < CLOG_SPAN_MAX_DEPTH)%nat →
     tok = Z.of_nat (g_span_depth s) + 1 ∧
     span_is_zero (span_current_ids s').2 = false ∧
     (0 < g_span_depth s → (span_current_ids s').1 = (span_current_ids s).1)%nat ∧
     clog_span_end s' tok = (s, CLOG_OK) ∧
     ∀ tok', tok' ≠ tok → clog_span_end s' tok' = (s', CLOG_ERR_INVALID_ARG)) ∧
  (g_span_depth s = CLOG_SPAN_MAX_DEPTH → s' = s ∧ tok = 0).
Proof.
  intros Hs He1 He2. destruct (decide (g_span_depth s < CLOG_SPAN_MAX_DEPTH)%nat) as [Hlt|Hge].
  - destruct (span_start_push s e1 e2 Hs He1 He2 Hlt) as (sl & -> & Hsl & Hnz & Htr & _ & _).
    split_and!; [by apply push_slot_ok|intros _|lia].
    assert (span_current_ids (push_slot s sl) = (sp_trace_id sl, sp_span_id sl)) as Hcur.
    { unfold span_current_ids. rewrite top_push by done. cbn [push_slot g_span_depth].
      by destruct (Z.ltb_spec 0 (Z.of_nat (S (g_span_depth s)))); [|lia]. }
    rewrite Hcur. split_and!; [lia|done| |by apply end_push|].
    + intros Hd. destruct (Htr Hd) as [-> _]. unfold span_current_ids.
      by destruct (Z.ltb_spec 0 (Z.of_nat (g_span_depth s))); [|lia].
    + intros tok' Hne. unfold clog_span_end. cbn [push_slot g_span_depth].
      destruct (Z.eqb_spec tok' (Z.of_nat (S (g_span_depth s)))); [done|].
      by destruct (tok' =? 0).
  - unfold clog_span_start. destruct (Nat.leb_spec CLOG_SPAN_MAX_DEPTH (g_span_depth s)); [|lia].
    split_and!; [done|lia|done].
Qed.

Definition test_entropy : entropy := Entropy None 42.
Lemma test_entropy_ok n : entropy_ok n test_entropy.
Proof. split; [done|]. split; simpl; lia. Qed.

Lemma span_lifo_witness :
  let '(s', tok) := clog_span_start trace_init test_entropy test_entropy in
  tok = 1 ∧ clog_span_end s' tok = (trace_init, CLOG_OK) ∧
  clog_span_end s' 2 = (s', CLOG_ERR_INVALID_ARG).
Proof.
  pose proof (span_lifo trace_init test_entropy test_entropy trace_init_ok
    (test_entropy_ok 16) (test_entropy_ok 8)) as H.
  destruct (clog_span_start _ _ _) as [s' tok]. destruct H as (_ & H & _).
  destruct H as (H1 & _ & _ & H2 & H3); [unfold CLOG_SPAN_MAX_DEPTH; simpl; lia|].
  simpl in H1. subst tok. split_and!; [reflexivity|exact H2|apply H3; discriminate].
Defined.

(** C39: a trace crosses a process boundary intact: the header exported from the
    current span, joined on any other thread state with a free frame, continues the
    same trace with the same flags under a fresh non-zero span identifier, and ending
    the joined span gives that state back. *)
Theorem span_export_join s t e len :
  trace_ok s → trace_ok t → entropy_ok 8 e → 56 <= len →
  (g_span_depth t < CLOG_SPAN_MAX_DEPTH)%nat → span_is_zero (span_current_ids s).1 = false →
  ∃ tp, clog_span_export s len = Some tp ∧ clen tp = 55 ∧
  let '(t', tok) := clog_span_join t e (Some tp) in
  tok = Z.of_nat (g_span_depth t) + 1 ∧ trace_ok t' ∧
  (span_current_ids t').1 = (span_current_ids s).1 ∧ span_is_zero (span_current_ids t').2 = false ∧
  sp_flags (top_slot t') = (if Nat.ltb 0 (g_span_depth s) then sp_flags (top_slot s) else 0) ∧
  clog_span_end t' tok = (t, CLOG_OK).
Proof.
  intros Hs Ht He Hlen Hd Hnz. unfold clog_span_export. destruct (Z.ltb_spec len 56); [lia|].
  assert (id_ok 16 (span_current_ids s).1 ∧ id_ok 8 (span_current_ids s).2) as [Hid1 Hid2].
  { unfold span_current_ids. destruct (top_slot_ok s Hs) as (?&?&?). destruct (t_base _ Hs).
    repeat case_match; cbn; auto using zeros_ok. }
  destruct (span_current_ids s) as [tid sid]. cbn [fst snd] in *. rewrite Hnz.
  set (flags := if 0 <? Z.of_nat (g_span_depth s) then sp_flags (top_slot s) else 0).
  assert (is_byte flags) as Hf.
  { unfold flags. case_match; [by destruct (top_slot_ok s Hs) as (?&?&?)|unfold is_byte; lia]. }
  destruct (header_pieces tid sid flags Hid1 Hid2 Hf) as (H1 & H2 & H3 & H4 & H5 & H6 & H7).
  eexists. split; [done|]. split; [done|]. unfold clog_span_join.
  destruct (Z.ltb_spec (clen (B "00-" ++ mbind hex_byte tid ++ B "-" ++ mbind hex_byte sid ++ B "-" ++ hex_byte flags)) 55); [lia|].
  destruct (Nat.leb_spec CLOG_SPAN_MAX_DEPTH (g_span_depth t)); [lia|]. cbn [orb].
  rewrite H2, H3, H4, H5, H6, H7. cbn [Z.eqb Pos.eqb negb orb].
  destruct (span_new_span_id_ok e He) as [Hn1 Hn2].
  assert (slot_ok (SpanSlot tid (span_new_span_id e) flags)) as Hsl by done.
  split_and!; [cbn; lia|by apply push_slot_ok| | | |by apply end_push].
  - unfold span_current_ids. rewrite top_push by done. cbn [push_slot g_span_depth].
    by destruct (Z.ltb_spec 0 (Z.of_nat (S (g_span_depth t)))); [|lia].
  - unfold span_current_ids. rewrite top_push by done. cbn [push_slot g_span_depth].
    by destruct (Z.ltb_spec 0 (Z.of_nat (S (g_span_depth t)))); [|lia].
  - rewrite top_push by done. cbn [sp_flags]. unfold flags.
    destruct (Z.ltb_spec 0 (Z.of_nat (g_span_depth s))), (Nat.ltb_spec 0 (g_span_depth s)); try done; lia.
Qed.

Lemma span_export_join_witness :
  let s := (clog_span_start trace_init test_entropy test_entropy).1 in
  ∃ tp, clog_span_export s 64 = Some tp ∧ (clog_span_join trace_init test_entropy (Some tp)).2 = 1.
Proof.
  cbv zeta.
  assert (trace_ok (clog_span_start trace_init test_entropy test_entropy).1) as Hok.
  { destruct (span_start_push trace_init test_entropy test_entropy trace_init_ok (test_entropy_ok 16)
      (test_entropy_ok 8) ltac:(unfold CLOG_SPAN_MAX_DEPTH; simpl; lia)) as (sl & E & Hsl & _).
    rewrite E. apply push_slot_ok; [apply trace_init_ok|done|unfold CLOG_SPAN_MAX_DEPTH; simpl; lia]. }
  destruct (span_export_join (clog_span_start trace_init test_entropy test_entropy).1 trace_init
    test_entropy 64 Hok trace_init_ok (test_entropy_ok 8) ltac:(lia)
    ltac:(unfold CLOG_SPAN_MAX_DEPTH; simpl; lia) ltac:(vm_compute; reflexivity)) as (tp & Htp & _ & H).
  exists tp. split; [exact Htp|]. destruct (clog_span_join _ _ _) as [t' tok]. exact (proj1 H).
Defined.

(** Setting the context from the hexadecimal spelling of two identifiers makes
    exactly those current on a thread without spans, and malformed or short input is
    refused without effect. *)
Theorem set_trace_context_hex_roundtrip s tid sid :
  trace_ok s → g_span_depth s = 0%nat → id_ok 16 tid → id_ok 8 sid →
  let '(s', rc) := clog_set_trace_context_hex s (Some (trace_id_hex tid)) (Some (span_id_hex sid)) in
  rc = CLOG_OK ∧ trace_ok s' ∧ clog_get_trace_context s' = (tid, sid) ∧
  ∀ t p, clen t < 32 → 0 < clen t → clog_set_trace_context_hex s (Some t) (Some p) = (s, CLOG_ERR_INVALID_ARG).
Proof.
  intros Hs Hd [Ht Hbt] [Hp Hbp]. unfold clog_set_trace_context_hex, trace_id_hex, span_id_hex.
  pose proof (length_hex tid) as Hlt. pose proof (length_hex sid) as Hls.
  assert (clen (mbind hex_byte tid) = 32) as -> by (unfold clen; lia).
  assert (clen (mbind hex_byte sid) = 16) as -> by (unfold clen; lia). cbn [Z.eqb Z.ltb Z.compare andb orb Pos.compare Pos.compare_cont].
  rewrite (parse_hex_bytes_hex _ 0 tid [] 0 16 Hbt) by (cbn; rewrite ?app_nil_r; done || lia).
  rewrite (parse_hex_bytes_hex _ 0 sid [] 0 8 Hbp) by (cbn; rewrite ?app_nil_r; done || lia).
  split_and!; [done| | |].
  - destruct Hs. constructor; done.
  - unfold clog_get_trace_context. cbn. by rewrite Hd.
  - intros t p Hlen Hne. destruct (Z.eqb_spec (clen t) 0), (Z.ltb_spec (clen t) 32); try lia. done.
Qed.

Lemma set_trace_context_hex_roundtrip_witness :
  clog_get_trace_context (clog_set_trace_context_hex trace_init (Some (trace_id_hex (repeat 7 16)))
    (Some (span_id_hex (repeat 200 8)))).1 = (repeat 7 16, repeat 200 8).
Proof.
  pose proof (set_trace_context_hex_roundtrip trace_init (repeat 7 16) (repeat 200 8) trace_init_ok eq_refl) as H.
  specialize (H ltac:(split; [reflexivity|]; unfold is_byte; simpl; repeat (apply Forall_cons_2; [lia|]); apply Forall_nil_2)
    ltac:(split; [reflexivity|]; unfold is_byte; simpl; repeat (apply Forall_cons_2; [lia|]); apply Forall_nil_2)).
  destruct (clog_set_trace_context_hex _ _ _) as [s' rc]. apply H.
Defined.

(** A header with an all-zero trace identifier is joined, although the resulting
    span can then not be exported. *)
Example join_accepts_zero_trace :
  let tp := B "00-" ++ repeat 48 32 ++ B "-" ++ repeat 49 16 ++ B "-01" in
  let '(s, tok) := clog_span_join trace_init test_entropy (Some tp) in
  tok = 1 ∧ clog_span_export s 64 = None.
Proof. vm_compute. done. Qed.
