(* ===== verification/Context.v ===== *)
(** * Thread context and module name (core/log.c, MDC partition and the module
    seqlock of the write path)

    The mapped diagnostic context is an array of pairs that is shown to implement a
    finite map; the module name is published with a generation counter and read
    without the lock, byte by byte, as a state machine over sequentially consistent
    memory (ModuleWeak.v has it over release/acquire memory). *)
From S2P Require Import Prelude Record.

Local Open Scope Z_scope.

(** ** Mapped diagnostic context *)

Definition MAX_THREAD_CONTEXT_PAIRS : Z := 16.

(** The first [g_thread_context_count] pairs of the array. *)
Abbreviation mdc := (list (cstr * cstr)).

Fixpoint find_key (ctx : mdc) (key : cstr) : option nat :=
  match ctx with
  | [] => None
  | (k, _) :: ctx' => if streq k key then Some 0%nat else S <$> find_key ctx' key
  end.

Definition log_set_thread_context (ctx : mdc) (key value : option cstr) : mdc * Z :=
  match key with
  | None | Some [] => (ctx, CLOG_ERR_INVALID_ARG)
  | Some key =>
      let value := or_default value [] in
      match find_key ctx key with
      | Some i =>
          if clen value =? 0 then
            (* the last pair moves into the slot, then the count drops *)
            (take (length ctx - 1)
               (<[i := default ([], []) (ctx !! (length ctx - 1)%nat)]> ctx), CLOG_OK)
          else (<[i := (default [] (fst <$> ctx !! i), snprintf_s 128 value)]> ctx, CLOG_OK)
      | None =>
          if clen value =? 0 then (ctx, CLOG_OK)
          else if clen ctx >=? MAX_THREAD_CONTEXT_PAIRS then (ctx, CLOG_ERR_INVALID_ARG)
          else (ctx ++ [(snprintf_s 32 key, snprintf_s 128 value)], CLOG_OK)
      end
  end.

Definition log_get_thread_context (ctx : mdc) (key : option cstr) : option cstr :=
  match key with
  | None => None
  | Some key => i ← find_key ctx key; snd <$> ctx !! i
  end.

Definition log_clear_thread_context (ctx : mdc) : mdc := [].

(** The map the array stands for. *)
Definition mdc_map (ctx : mdc) : gmap cstr cstr := list_to_map ctx.

Definition mdc_ok (ctx : mdc) : Prop := NoDup ctx.*1 ∧ clen ctx <= MAX_THREAD_CONTEXT_PAIRS.

Lemma find_key_Some ctx key i :
  find_key ctx key = Some i → ∃ v, ctx !! i = Some (key, v).
Proof.
  revert i. induction ctx as [|[k v] ctx IH]; intros i; simpl; [done|].
  destruct (streq k key) eqn:E.
  - intros [= <-]. apply bool_decide_eq_true in E as ->. eauto.
  - intros (j & Hj & ->)%fmap_Some. by apply IH.
Qed.

Lemma find_key_None ctx key : find_key ctx key = None ↔ key ∉ ctx.*1.
Proof.
  induction ctx as [|[k v] ctx IH]; simpl; [split; [intros _; apply not_elem_of_nil|done]|].
  rewrite not_elem_of_cons. destruct (streq k key) eqn:E.
  - apply bool_decide_eq_true in E as ->. split; [done|]. intros [? _]. done.
  - apply bool_decide_eq_false in E. rewrite fmap_None, IH. split; [intros; split; [congruence|done]|tauto].
Qed.

Lemma mdc_lookup ctx i k v : NoDup ctx.*1 → ctx !! i = Some (k, v) → mdc_map ctx !! k = Some v.
Proof. intros Hn Hi. apply elem_of_list_to_map; [done|]. by eapply list_elem_of_lookup_2. Qed.

Lemma log_get_map ctx key : NoDup ctx.*1 → log_get_thread_context ctx (Some key) = mdc_map ctx !! key.
Proof.
  intros Hn. cbn. destruct (find_key ctx key) as [i|] eqn:E.
  - destruct (find_key_Some _ _ _ E) as [v Hv]. cbn. rewrite Hv. cbn. by rewrite (mdc_lookup ctx i key v).
  - cbn. symmetry. apply not_elem_of_list_to_map. by apply find_key_None.
Qed.

(** Replacing one pair by another. *)
Lemma keys_insert (ctx : mdc) i (p q : cstr * cstr) :
  ctx !! i = Some q → p.1 = q.1 → (<[i := p]> ctx).*1 = ctx.*1.
Proof.
  intros Hi Hp. rewrite list_fmap_insert. apply list_insert_id. by rewrite list_lookup_fmap, Hi, Hp.
Qed.

Lemma map_insert_value (ctx : mdc) i k v w :
  NoDup ctx.*1 → ctx !! i = Some (k, v) → mdc_map (<[i := (k, w)]> ctx) = <[k := w]> (mdc_map ctx).
Proof.
  intros Hn Hi. assert ((<[i := (k, w)]> ctx).*1 = ctx.*1) as Hk by (by eapply keys_insert).
  apply map_eq. intros x. destruct (decide (x = k)) as [->|Hne].
  - rewrite lookup_insert_eq. apply (mdc_lookup _ i); [by rewrite Hk|].
    apply list_lookup_insert_eq. by eapply lookup_lt_Some.
  - rewrite lookup_insert_ne by done. destruct (mdc_map ctx !! x) as [y|] eqn:E.
    + apply elem_of_list_to_map in E; [|done]. apply list_elem_of_lookup in E as [j Hj].
      apply (mdc_lookup _ j); [by rewrite Hk|]. rewrite list_lookup_insert_ne; [done|]. intros ->. congruence.
    + apply not_elem_of_list_to_map. apply not_elem_of_list_to_map in E. by rewrite Hk.
Qed.

(** Removing pair [i] by moving the last one into its place is a permutation of
    removing it. *)
Lemma swap_remove_perm {X} (l : list X) i d :
  (i < length l)%nat →
  take (length l - 1) (<[i := default d (l !! (length l - 1)%nat)]> l) ≡ₚ delete i l.
Proof.
  intros Hi. destruct l as [|y m _] using rev_ind; [simpl in Hi; lia|].
  rewrite length_app in *. cbn [length] in *. replace (length m + 1 - 1)%nat with (length m) by lia.
  rewrite lookup_app_r, Nat.sub_diag by lia. cbn [lookup list_lookup default].
  rewrite delete_take_drop. destruct (decide (i = length m)) as [->|Hne].
  - rewrite take_insert_ge by lia. rewrite drop_ge by (rewrite length_app; simpl; lia). by rewrite app_nil_r.
  - rewrite insert_app_l by lia. rewrite take_app_length' by (by rewrite length_insert).
    rewrite insert_take_drop, take_app_le, drop_app_le by lia. f_equiv. apply Permutation_cons_append.
Qed.

Lemma delete_map (ctx : mdc) i k v :
  NoDup ctx.*1 → ctx !! i = Some (k, v) → mdc_map (delete i ctx) = delete k (mdc_map ctx) ∧ NoDup (delete i ctx).*1.
Proof.
  intros Hn Hi. pose proof (delete_Permutation ctx i (k, v) Hi) as Hp.
  assert (NoDup ((k, v) :: delete i ctx).*1) as Hn' by (by rewrite <- Hp).
  split; [|by apply NoDup_cons in Hn' as [_ ?]].
  rewrite (list_to_map_proper ctx ((k, v) :: delete i ctx) Hn Hp : mdc_map ctx = _).
  cbn. rewrite delete_insert_id; [done|]. apply not_elem_of_list_to_map.
  by apply NoDup_cons in Hn' as [? _].
Qed.

(** ** Module name: a seqlock *)

Definition MODULE_SIZE : nat := 64.

(** What [snprintf] into the buffer leaves: the name, its terminator, and whatever
    was behind it. *)
Definition write_name (old : list Z) (name : cstr) : list Z := name ++ 0 :: drop (S (length name)) old.

(** Where a thread is: in [logger_set_module_internal] (W) or reading the name in
    the write path (R), named after its next access. *)
Inductive mpc :=
  | M_idle
  | W_lock (name : cstr) | W_gen1 (name : cstr) | W_byte (name : cstr) (i : nat)
  | W_gen2 (name : cstr) | W_unlock
  | R_gen1 | R_byte (gen1 : Z) (got : list Z) | R_gen2 (gen1 : Z) (got : list Z)
  | R_lock | R_lbyte (got : list Z) | R_unlock (got : list Z)
  | R_done (got : list Z).

(** [ms_hist] is ghost: the buffer after each completed write. *)
Record mstate := MState {
  ms_gen : Z; ms_data : list Z; ms_lock : option nat; ms_threads : list mpc; ms_hist : list (list Z)
}.

Definition set_thread (s : mstate) (i : nat) (p : mpc) : mstate :=
  MState (ms_gen s) (ms_data s) (ms_lock s) (<[i := p]> (ms_threads s)) (ms_hist s).

(** The name [logger_set_module_internal] stores. *)
Definition module_name (module : option cstr) : cstr :=
  match module with
  | None | Some [] => B "main"
  | Some m => snprintf_s 64 m
  end.

(** The byte at [i] of what is being written. *)
Definition name_byte (name : cstr) (i : nat) : Z := default 0 (name !! i).

Definition mstep (s : mstate) (i : nat) (p : mpc) : option mstate :=
  match p with
  | M_idle | R_done _ => None
  | W_lock name =>
      match ms_lock s with
      | None => Some (MState (ms_gen s) (ms_data s) (Some i) (<[i := W_gen1 name]> (ms_threads s)) (ms_hist s))
      | Some _ => None
      end
  | W_gen1 name =>
      Some (MState (u64 (ms_gen s + 1)) (ms_data s) (ms_lock s) (<[i := W_byte name 0]> (ms_threads s)) (ms_hist s))
  | W_byte name k =>
      Some (MState (ms_gen s) (<[k := name_byte name k]> (ms_data s)) (ms_lock s)
        (<[i := if Nat.eqb k (length name) then W_gen2 name else W_byte name (S k)]> (ms_threads s)) (ms_hist s))
  | W_gen2 name =>
      Some (MState (u64 (ms_gen s + 1)) (ms_data s) (ms_lock s) (<[i := W_unlock]> (ms_threads s))
        (ms_hist s ++ [ms_data s]))
  | W_unlock => Some (MState (ms_gen s) (ms_data s) None (<[i := M_idle]> (ms_threads s)) (ms_hist s))
  | R_gen1 =>
      Some (set_thread s i (if Z.land (ms_gen s) 1 =? 0 then R_byte (ms_gen s) [] else R_lock))
  | R_byte g got =>
      let got' := got ++ [default 0 (ms_data s !! length got)] in
      Some (set_thread s i (if Nat.eqb (length got') MODULE_SIZE then R_gen2 g got' else R_byte g got'))
  | R_gen2 g got =>
      Some (set_thread s i (if g =? ms_gen s then R_done got else R_lock))
  | R_lock =>
      match ms_lock s with
      | None => Some (MState (ms_gen s) (ms_data s) (Some i) (<[i := R_lbyte []]> (ms_threads s)) (ms_hist s))
      | Some _ => None
      end
  | R_lbyte got =>
      let got' := got ++ [default 0 (ms_data s !! length got)] in
      Some (set_thread s i (if Nat.eqb (length got') MODULE_SIZE then R_unlock got' else R_lbyte got'))
  | R_unlock got =>
      Some (MState (ms_gen s) (ms_data s) None (<[i := R_done got]> (ms_threads s)) (ms_hist s))
  end.

(** The events: a thread's next access, or an idle thread starts a call. *)
Inductive mevent := MStep (i : nat) | MSet (i : nat) (module : option cstr) | MRead (i : nat).

Definition mexec (s : mstate) (e : mevent) : option mstate :=
  match e with
  | MStep i => p ← ms_threads s !! i; mstep s i p
  | MSet i module =>
      match ms_threads s !! i with
      | Some M_idle | Some (R_done _) => Some (set_thread s i (W_lock (module_name module)))
      | _ => None
      end
  | MRead i =>
      match ms_threads s !! i with
      | Some M_idle | Some (R_done _) => Some (set_thread s i R_gen1)
      | _ => None
      end
  end.

Definition m_init (name : cstr) (n : nat) : mstate :=
  let data := write_name (replicate MODULE_SIZE 0) name in
  MState 0 data None (replicate n M_idle) [data].

Inductive msteps : nat → mstate → mstate → Prop :=
  | msteps_O s : msteps 0 s s
  | msteps_S n s s1 s2 e : msteps n s s1 → mexec s1 e = Some s2 → msteps (S n) s s2.

(** ** The seqlock's invariant *)

Definition holds (p : mpc) : Prop :=
  match p with
  | W_gen1 _ | W_byte _ _ | W_gen2 _ | W_unlock | R_lbyte _ | R_unlock _ => True
  | _ => False
  end.

(** A writer between its two increments. *)
Definition inside (p : mpc) : Prop := match p with W_byte _ _ | W_gen2 _ => True | _ => False end.

Definition name_fits (name : cstr) : Prop := (length name < MODULE_SIZE)%nat.

(** What a thread's position promises, given the state. *)
Definition pc_ok (s : mstate) (p : mpc) : Prop :=
  match p with
  | W_lock name | W_gen1 name => name_fits name
  | W_byte name k =>
      (k ≤ length name)%nat ∧ name_fits name ∧ ms_gen s = 2 * clen (ms_hist s) - 1 ∧
      ∃ old, last (ms_hist s) = Some old ∧
        ms_data s = take k (write_name old name) ++ drop k old
  | W_gen2 name =>
      name_fits name ∧ ms_gen s = 2 * clen (ms_hist s) - 1 ∧
      ∃ old, last (ms_hist s) = Some old ∧ ms_data s = write_name old name
  | R_byte g got | R_gen2 g got =>
      match p with R_gen2 _ _ => length got = MODULE_SIZE | _ => (length got < MODULE_SIZE)%nat end ∧
      g <= ms_gen s ∧ ∃ k d, g = 2 * Z.of_nat k ∧ ms_hist s !! k = Some d ∧
        (ms_gen s = g → got = take (length got) d)
  | R_lbyte got | R_unlock got =>
      match p with R_unlock _ => length got = MODULE_SIZE | _ => (length got < MODULE_SIZE)%nat end ∧
      ∃ d, last (ms_hist s) = Some d ∧ got = take (length got) d
  | R_done got => got ∈ ms_hist s
  | _ => True
  end.

Record minv (n : Z) (s : mstate) : Prop := {
  v_len : length (ms_data s) = MODULE_SIZE ∧ Forall (λ d, length d = MODULE_SIZE) (ms_hist s);
  v_gen : 0 <= ms_gen s <= n;
  v_lock i p : ms_threads s !! i = Some p → holds p → ms_lock s = Some i;
  v_free : (∀ i p, ms_threads s !! i = Some p → ¬ inside p) →
    ms_gen s = 2 * clen (ms_hist s) - 2 ∧ last (ms_hist s) = Some (ms_data s);
  v_pc i p : ms_threads s !! i = Some p → pc_ok s p
}.

Lemma inside_holds p : inside p → holds p.
Proof. by destruct p. Qed.

(** The lock excludes every other writer. *)
Lemma lock_excludes n s i p :
  minv n s → ms_threads s !! i = Some p → holds p → ¬ inside p →
  ∀ j q, ms_threads s !! j = Some q → ¬ inside q.
Proof.
  intros [] Hi Hh Hin j q Hj Hq. pose proof (v_lock0 i p Hi Hh). pose proof (v_lock0 j q Hj (inside_holds q Hq)).
  assert (i = j) as -> by congruence. congruence.
Qed.

Lemma free_excludes n s : minv n s → ms_lock s = None → ∀ j q, ms_threads s !! j = Some q → ¬ inside q.
Proof. intros [] Hl j q Hj Hq. pose proof (v_lock0 j q Hj (inside_holds q Hq)). congruence. Qed.

(** An even generation means no writer is inside. *)
Lemma even_excludes n s k :
  minv n s → ms_gen s = 2 * k → ∀ j q, ms_threads s !! j = Some q → ¬ inside q.
Proof.
  intros [] Hg j q Hj Hq. pose proof (v_pc0 j q Hj) as Hp.
  destruct q; cbn in Hp; try done; destruct_and?; lia.
Qed.

(** A thread moves on without touching the shared state, keeping or giving up no
    lock. *)
Lemma minv_set_thread n s i p p' :
  minv n s → ms_threads s !! i = Some p → (holds p' → holds p) → (inside p' ↔ inside p) → pc_ok s p' →
  minv n (set_thread s i p').
Proof.
  intros [Hlen Hgen Hlock Hfree Hpc] Hi Hh Hin Hok. constructor; cbn; try done.
  - intros j q. rewrite list_lookup_insert. case_decide as Hd; [|eauto].
    destruct Hd as [-> _]. intros [= <-] Hq. eauto.
  - intros H. apply Hfree. intros j q Hj. destruct (decide (j = i)) as [->|].
    + simplify_eq. rewrite <- Hin. apply (H i). apply list_lookup_insert_eq. by eapply lookup_lt_Some.
    + apply (H j). by rewrite list_lookup_insert_ne.
  - intros j q. rewrite list_lookup_insert. case_decide as Hd; [by intros [= <-]|]. intros Hj.
    apply (Hpc j q Hj).
Qed.

(** Taking the free lock. *)
Lemma minv_lock n s i p p' :
  minv n s → ms_threads s !! i = Some p → ms_lock s = None → ¬ inside p → ¬ inside p' →
  (pc_ok s p → pc_ok (MState (ms_gen s) (ms_data s) (Some i) (ms_threads s) (ms_hist s)) p') →
  minv n (MState (ms_gen s) (ms_data s) (Some i) (<[i := p']> (ms_threads s)) (ms_hist s)).
Proof.
  intros Hinv Hi Hl Hin Hin' Hok. pose proof (free_excludes n s Hinv Hl) as Hno.
  destruct Hinv as [Hlen Hgen Hlock Hfree Hpc]. constructor; cbn; try done.
  - intros j q. rewrite list_lookup_insert. case_decide as Hd; [by destruct Hd as [-> _]|].
    intros Hj Hq. pose proof (Hlock j q Hj Hq). congruence.
  - intros _. by apply Hfree.
  - intros j q. rewrite list_lookup_insert. case_decide as Hd; [intros [= <-]; apply Hok; eauto|].
    intros Hj. apply (Hpc j q Hj).
Qed.

(** Releasing it. *)
Lemma minv_unlock n s i p p' :
  minv n s → ms_threads s !! i = Some p → holds p → ¬ inside p → ¬ holds p' →
  pc_ok s p' → minv n (MState (ms_gen s) (ms_data s) None (<[i := p']> (ms_threads s)) (ms_hist s)).
Proof.
  intros Hinv Hi Hh Hin Hh' Hok. pose proof (lock_excludes n s i p Hinv Hi Hh Hin) as Hno.
  destruct Hinv as [Hlen Hgen Hlock Hfree Hpc]. constructor; cbn; try done.
  - intros j q. rewrite list_lookup_insert. case_decide as Hd; [by intros [= <-]|].
    intros Hj Hq. pose proof (Hlock i p Hi Hh). pose proof (Hlock j q Hj Hq).
    destruct Hd. split; [congruence|by eapply lookup_lt_Some].
  - intros _. by apply Hfree.
  - intros j q. rewrite list_lookup_insert. case_decide as Hd; [by intros [= <-]|].
    intros Hj. apply (Hpc j q Hj).
Qed.

Lemma length_write_name old name :
  name_fits name → length old = MODULE_SIZE → length (write_name old name) = MODULE_SIZE.
Proof.
  unfold name_fits, write_name. intros Hn Ho. rewrite length_app. simpl. rewrite length_drop. lia.
Qed.

Lemma lookup_write_name old name k :
  (k ≤ length name)%nat → write_name old name !! k = Some (name_byte name k).
Proof.
  intros Hk. unfold write_name, name_byte. destruct (decide (k = length name)) as [->|].
  - rewrite lookup_app_r, Nat.sub_diag by lia. by rewrite (lookup_ge_None_2 name) by lia.
  - destruct (lookup_lt_is_Some_2 name k) as [b Hb]; [lia|]. by rewrite lookup_app_l, Hb by lia.
Qed.

(** Writing one more byte. *)
Lemma write_one_byte old name k :
  name_fits name → length old = MODULE_SIZE → (k ≤ length name)%nat →
  <[k := name_byte name k]> (take k (write_name old name) ++ drop k old) =
    take (S k) (write_name old name) ++ drop (S k) old.
Proof.
  intros Hn Ho Hk. pose proof (length_write_name old name Hn Ho) as Hl. unfold name_fits in Hn.
  assert (length (take k (write_name old name)) = k) as Hlt by (rewrite length_take; lia).
  rewrite insert_app_r_alt by lia. rewrite Hlt, Nat.sub_diag.
  destruct (lookup_lt_is_Some_2 old k) as [b Hb]; [lia|]. rewrite (drop_S old b k Hb). cbn.
  rewrite (take_S_r _ _ (name_byte name k)) by (by apply lookup_write_name). by rewrite <- app_assoc.
Qed.

Lemma write_all_bytes old name :
  name_fits name → length old = MODULE_SIZE →
  take (S (length name)) (write_name old name) ++ drop (S (length name)) old = write_name old name.
Proof.
  intros Hn Ho.
  assert (write_name old name = (name ++ [0]) ++ drop (S (length name)) old) as -> by (by rewrite <- app_assoc).
  rewrite (take_app_length' (name ++ [0])); [done|]. rewrite length_app. simpl. lia.
Qed.

(** The stored names always fit. *)
Lemma module_name_fits m : name_fits (module_name m).
Proof.
  unfold name_fits, module_name, MODULE_SIZE.
  destruct m as [[|c m]|]; [simpl; lia| |simpl; lia].
  pose proof (snprintf_s_len 64 (c :: m) ltac:(lia)). unfold clen in *. lia.
Qed.

(** Positions that do not depend on a writer's progress survive one. *)
Lemma pc_ok_write s s' p :
  ¬ inside p → ¬ holds p → ms_gen s <= ms_gen s' → ms_hist s `prefix_of` ms_hist s' →
  (∀ k, ms_gen s' = 2 * k → ms_gen s' ≠ ms_gen s) → pc_ok s p → pc_ok s' p.
Proof.
  intros Hin Hh Hg [h' Hh'] Hne Hp. destruct p; cbn in *; try done.
  1, 2: destruct Hp as (Hl & Hle & k & d & Hk & Hd & Heq); split_and!; [done|lia|];
    exists k, d; split_and!; [done|rewrite Hh'; by apply lookup_app_l_Some|];
    intros E; exfalso; apply (Hne (Z.of_nat k)); lia.
  rewrite Hh'. apply elem_of_app. by left.
Qed.

(** Positions are closed terms: their classification computes. *)
Ltac mdone := solve [done | by intros [] | cbn; done | cbn; tauto].

Lemma minv_weaken n s : minv n s → minv (n + 1) s.
Proof. intros []. constructor; try done. lia. Qed.

(** One lemma per access that does more than move its thread on. *)
Section accesses.
Context (n : Z) (s : mstate) (i : nat) (Hinv : minv n s) (Hn : n < 2 ^ 62).

Lemma others_free p j q :
  ms_threads s !! i = Some p → holds p → j ≠ i → ms_threads s !! j = Some q → ¬ holds q.
Proof.
  intros Hi Hp Hne Hj Hh. pose proof (v_lock n s Hinv j q Hj Hh). pose proof (v_lock n s Hinv i p Hi Hp). congruence.
Qed.

(** What the holder of the lock keeps while it stays the holder. *)
Lemma holder_keeps p p' j q :
  ms_threads s !! i = Some p → holds p → <[i := p']> (ms_threads s) !! j = Some q → holds q → ms_lock s = Some j.
Proof.
  intros Hi Hp Hj Hq. destruct (lookup_insert_cases _ _ _ _ _ Hj) as [[-> ->]|[Hne Hj']];
    [by apply (v_lock n s Hinv i p)|by apply (v_lock n s Hinv j q)].
Qed.

Lemma minv_W_gen1 name :
  ms_threads s !! i = Some (W_gen1 name) →
  minv (n + 1) (MState (u64 (ms_gen s + 1)) (ms_data s) (ms_lock s) (<[i := W_byte name 0]> (ms_threads s)) (ms_hist s)).
Proof.
  intros Hi. pose proof (lock_excludes n s i _ Hinv Hi I ltac:(by intros [])) as Hno.
  pose proof (v_pc n s Hinv i _ Hi) as Hp. destruct (v_free n s Hinv Hno) as [Hg Hlast].
  pose proof (v_gen n s Hinv) as Hgen. rewrite u64_id by (split; lia). constructor; cbn; [apply Hinv|lia|..].
  - intros j q. by apply (holder_keeps (W_gen1 name)).
  - intros H. exfalso. apply (H i (W_byte name 0)); [|done]. apply list_lookup_insert_eq. by eapply lookup_lt_Some.
  - intros j q Hj. destruct (lookup_insert_cases _ _ _ _ _ Hj) as [[-> ->]|[Hne Hj']].
    + cbn. split_and!; [lia|done|lia|]. exists (ms_data s). by rewrite take_0, drop_0.
    + apply (pc_ok_write s); cbn; [by eapply Hno|by eapply others_free|lia|done|intros; lia|by eapply (v_pc n s Hinv)].
Qed.

Lemma minv_W_byte name k :
  ms_threads s !! i = Some (W_byte name k) →
  minv n (MState (ms_gen s) (<[k := name_byte name k]> (ms_data s)) (ms_lock s)
    (<[i := if Nat.eqb k (length name) then W_gen2 name else W_byte name (S k)]> (ms_threads s)) (ms_hist s)).
Proof.
  intros Hi. destruct (v_pc n s Hinv i _ Hi) as (Hk & Hfit & Hg & old & Hold & Hdata).
  destruct (v_len n s Hinv) as [_ Hhl]. assert (length old = MODULE_SIZE) as Hlo.
  { rewrite Forall_forall in Hhl. apply Hhl. by eapply last_Some_elem_of. }
  rewrite Hdata, write_one_byte by done. constructor; cbn; [|apply Hinv|..].
  - split; [|done]. rewrite length_app, length_take, length_drop, length_write_name by done.
    unfold name_fits in Hfit. lia.
  - intros j q. by apply (holder_keeps (W_byte name k)).
  - intros H. exfalso. eapply (H i); [apply list_lookup_insert_eq; by eapply lookup_lt_Some|]. by case_match.
  - intros j q Hj. destruct (lookup_insert_cases _ _ _ _ _ Hj) as [[-> ->]|[Hne Hj']].
    + destruct (Nat.eqb_spec k (length name)) as [->|]; cbn.
      * split_and!; [done|done|]. exists old. split; [done|]. by apply write_all_bytes.
      * split_and!; [lia|done|done|]. by exists old.
    + pose proof (others_free _ j q Hi I Hne Hj') as Hnh.
      apply (pc_ok_write s); cbn; [intros ?%inside_holds; done|done|lia|done|intros k' ?; lia|by eapply (v_pc n s Hinv)].
Qed.

Lemma minv_W_gen2 name :
  ms_threads s !! i = Some (W_gen2 name) →
  minv (n + 1) (MState (u64 (ms_gen s + 1)) (ms_data s) (ms_lock s) (<[i := W_unlock]> (ms_threads s))
    (ms_hist s ++ [ms_data s])).
Proof.
  intros Hi. destruct (v_pc n s Hinv i _ Hi) as (Hfit & Hg & old & Hold & Hdata).
  destruct (v_len n s Hinv) as [Hdl Hhl]. pose proof (v_gen n s Hinv). rewrite u64_id by (split; lia).
  constructor; cbn; [|lia|..].
  - split; [done|]. apply Forall_app. split; [done|by apply Forall_singleton].
  - intros j q. by apply (holder_keeps (W_gen2 name)).
  - intros _. rewrite clen_app, last_snoc. split; [|done]. unfold clen at 2. simpl. lia.
  - intros j q Hj. destruct (lookup_insert_cases _ _ _ _ _ Hj) as [[-> ->]|[Hne Hj']]; [done|].
    pose proof (others_free _ j q Hi I Hne Hj') as Hnh.
    apply (pc_ok_write s); cbn; [intros ?%inside_holds; done|done|lia|by exists [ms_data s]|intros; lia|by eapply (v_pc n s Hinv)].
Qed.

(** At an even generation [2 k] the buffer is the [k]-th of the history. *)
Lemma even_data k :
  ms_gen s = 2 * Z.of_nat k → ms_hist s !! k = Some (ms_data s).
Proof.
  intros E. destruct (v_free n s Hinv (even_excludes n s _ Hinv E)) as [Hg Hlast]. rewrite last_lookup in Hlast.
  replace k with (pred (length (ms_hist s))); [done|]. unfold clen in Hg. destruct (ms_hist s); simpl in *; lia.
Qed.

Lemma minv_R_gen1 :
  ms_threads s !! i = Some R_gen1 →
  minv n (set_thread s i (if Z.land (ms_gen s) 1 =? 0 then R_byte (ms_gen s) [] else R_lock)).
Proof.
  intros Hi. destruct (Z.eqb_spec (Z.land (ms_gen s) 1) 0) as [E|]; [|eapply minv_set_thread; mdone].
  change 1 with (Z.ones 1) in E. rewrite Z.land_ones in E by lia. change (2 ^ 1) with 2 in E.
  pose proof (v_gen n s Hinv). pose proof (Z.div_mod (ms_gen s) 2).
  eapply minv_set_thread; [mdone..|]. cbn. split_and!; [unfold MODULE_SIZE; lia|lia|].
  assert (ms_gen s = 2 * Z.of_nat (Z.to_nat (ms_gen s / 2))) as Hev by lia.
  exists (Z.to_nat (ms_gen s / 2)), (ms_data s). split_and!; [done|by apply even_data|done].
Qed.

(** The next byte of the buffer continues a prefix of it. *)
Lemma next_byte got :
  (length got < MODULE_SIZE)%nat → got = take (length got) (ms_data s) →
  let got' := got ++ [default 0 (ms_data s !! length got)] in got' = take (length got') (ms_data s).
Proof.
  intros Hl Heq. destruct (v_len n s Hinv) as [Hdl _].
  destruct (lookup_lt_is_Some_2 (ms_data s) (length got)) as [b Hb]; [lia|]. cbv zeta.
  rewrite Hb. change (default 0 (Some b)) with b.
  rewrite length_app, Nat.add_1_r, (take_S_r _ _ b) by done. by rewrite <- Heq.
Qed.

Lemma minv_R_byte g got :
  ms_threads s !! i = Some (R_byte g got) →
  let got' := got ++ [default 0 (ms_data s !! length got)] in
  minv n (set_thread s i (if Nat.eqb (length got') MODULE_SIZE then R_gen2 g got' else R_byte g got')).
Proof.
  intros Hi got'. destruct (v_pc n s Hinv i _ Hi) as (Hl & Hle & k & d & Hk & Hd & Heq).
  assert (ms_gen s = g → got' = take (length got') d) as Hgot.
  { intros E. assert (d = ms_data s) as -> by (pose proof (even_data k ltac:(lia)); congruence).
    apply next_byte; [done|by apply Heq]. }
  assert (length got' = S (length got)) as Hlen by (unfold got'; rewrite length_app; simpl; lia). clearbody got'.
  destruct (Nat.eqb_spec (length got') MODULE_SIZE);
    (eapply minv_set_thread; [mdone..|]; cbn; split_and!; [lia|lia|]; by exists k, d).
Qed.

Lemma minv_R_lbyte got :
  ms_threads s !! i = Some (R_lbyte got) →
  let got' := got ++ [default 0 (ms_data s !! length got)] in
  minv n (set_thread s i (if Nat.eqb (length got') MODULE_SIZE then R_unlock got' else R_lbyte got')).
Proof.
  intros Hi got'. destruct (v_pc n s Hinv i _ Hi) as (Hl & d & Hd & Heq).
  pose proof (lock_excludes n s i _ Hinv Hi I ltac:(by intros [])) as Hno.
  destruct (v_free n s Hinv Hno) as [Hg Hlast]. simplify_eq.
  pose proof (next_byte got Hl Heq : got' = take (length got') (ms_data s)) as Hgot.
  assert (length got' = S (length got)) as Hlen by (unfold got'; rewrite length_app; simpl; lia). clearbody got'.
  destruct (Nat.eqb_spec (length got') MODULE_SIZE);
    (eapply minv_set_thread; [mdone..|]; cbn; split; [lia|]; by exists (ms_data s)).
Qed.
End accesses.

Lemma minv_step n s i p s' :
  minv n s → n < 2 ^ 62 → ms_threads s !! i = Some p → mstep s i p = Some s' → minv (n + 1) s'.
Proof.
  intros Hinv Hn Hi Hstep. pose proof Hinv as [[Hdl Hhl] _ _ Hfree Hpc]. pose proof (Hpc i p Hi) as Hp.
  destruct p; cbn in Hstep; simplify_eq.
  - (* W_lock *) case_match; simplify_eq. apply minv_weaken. eapply minv_lock; mdone.
  - by apply minv_W_gen1.
  - by apply minv_weaken, minv_W_byte.
  - by apply minv_W_gen2 with name.
  - (* W_unlock *) apply minv_weaken. eapply minv_unlock; mdone.
  - by apply minv_weaken, minv_R_gen1.
  - by apply minv_weaken, minv_R_byte.
  - (* R_gen2 *) destruct Hp as (Hl & Hle & k & d & Hk & Hd & Heq). apply minv_weaken.
    destruct (Z.eqb_spec gen1 (ms_gen s)); eapply minv_set_thread; try mdone.
    cbn. rewrite Heq, Hl by done. rewrite Forall_lookup in Hhl.
    rewrite take_ge by (rewrite (Hhl k d Hd); done). by eapply list_elem_of_lookup_2.
  - (* R_lock *) case_match; simplify_eq. apply minv_weaken. pose proof (free_excludes n s Hinv ltac:(done)) as Hno.
    destruct (Hfree Hno) as [Hg Hlast]. eapply minv_lock; try mdone. intros _. cbn.
    split; [unfold MODULE_SIZE; lia|]. by exists (ms_data s).
  - by apply minv_weaken, minv_R_lbyte.
  - (* R_unlock *) destruct Hp as (Hl & d & Hd & Heq). apply minv_weaken.
    eapply minv_unlock; try mdone. cbn. rewrite Heq, Hl.
    assert (d ∈ ms_hist s) as Hin by (by eapply last_Some_elem_of).
    rewrite Forall_forall in Hhl. by rewrite take_ge by (rewrite (Hhl d Hin); done).
Qed.

Lemma minv_exec n s e s' : minv n s → n < 2 ^ 62 → mexec s e = Some s' → minv (n + 1) s'.
Proof.
  intros Hinv Hn H. assert (minv (n + 1) s) as Hw.
  { destruct Hinv. constructor; try done. lia. }
  destruct e; cbn in H.
  - apply bind_Some in H as (p & Hi & Hstep). by eapply minv_step.
  - repeat case_match; simplify_eq; eapply minv_set_thread; try mdone; apply module_name_fits.
  - repeat case_match; simplify_eq; eapply minv_set_thread; mdone.
Qed.

Lemma minv_init name n : name_fits name → minv 0 (m_init name n).
Proof.
  intros Hn. assert (length (write_name (replicate MODULE_SIZE 0) name) = MODULE_SIZE) as Hl.
  { apply length_write_name; [done|]. apply length_replicate. }
  constructor; cbn.
  - split; [done|]. by apply Forall_singleton.
  - lia.
  - intros i p [-> _]%lookup_replicate_1. done.
  - intros _. done.
  - intros i p [-> _]%lookup_replicate_1. done.
Qed.

Lemma minv_steps k name m s :
  name_fits name → msteps k (m_init name m) s → Z.of_nat k <= 2 ^ 62 → minv (Z.of_nat k) s.
Proof.
  intros Hn H. remember (m_init name m) as s0 eqn:E. induction H as [s|k s s1 s2 e H IH Hex]; intros Hk.
  - subst. by apply minv_init.
  - rewrite Nat2Z.inj_succ, <- Z.add_1_r. eapply minv_exec; [apply IH; [done|lia]|lia|done].
Qed.

Fixpoint mexec_all (s : mstate) (l : list mevent) : option mstate :=
  match l with
  | [] => Some s
  | e :: l' => s' ← mexec s e; mexec_all s' l'
  end.

Lemma mexec_all_steps n s0 s s' l :
  msteps n s0 s → mexec_all s l = Some s' → msteps (n + length l) s0 s'.
Proof.
  revert n s. induction l as [|e l IH]; intros n s H E; cbn in E.
  - injection E as <-. cbn. by rewrite Nat.add_0_r.
  - apply bind_Some in E as (s1 & E1 & E2). cbn. rewrite Nat.add_succ_r, <- Nat.add_succ_l.
    eapply IH; [|done]. by econstructor.
Qed.

(** ** Properties *)

(** A set, for keys that fit a slot: a value is cut to 127 bytes, and an empty one
    deletes. *)
Lemma set_context_map ctx key value :
  mdc_ok ctx → 0 < clen key < 32 →
  let v := or_default value [] in
  let '(ctx', rc) := log_set_thread_context ctx (Some key) value in
  mdc_ok ctx' ∧ (∀ k, log_get_thread_context ctx' (Some k) = mdc_map ctx' !! k) ∧
  if decide (v = []) then rc = CLOG_OK ∧ mdc_map ctx' = delete key (mdc_map ctx)
  else if decide (is_Some (mdc_map ctx !! key) ∨ clen ctx < MAX_THREAD_CONTEXT_PAIRS)
  then rc = CLOG_OK ∧ mdc_map ctx' = <[key := snprintf_s 128 v]> (mdc_map ctx)
  else rc = CLOG_ERR_INVALID_ARG ∧ ctx' = ctx.
Proof.
  intros [Hn Hlen] Hk v. unfold log_set_thread_context. destruct key as [|c key']; [unfold clen in Hk; simpl in Hk; lia|].
  set (key := c :: key') in *. fold v.
  assert ((clen v =? 0) = bool_decide (v = [])) as ->.
  { destruct v; [done|]. rewrite clen_cons. pose proof (clen_nonneg v). rewrite bool_decide_eq_false_2 by done.
    apply Z.eqb_neq. lia. }
  destruct (find_key ctx key) as [i|] eqn:Ef.
  - destruct (find_key_Some _ _ _ Ef) as [w Hi]. pose proof (lookup_lt_Some _ _ _ Hi) as Hlt.
    pose proof (mdc_lookup ctx i key w Hn Hi) as Hm. case_bool_decide as Hv.
    + rewrite decide_True by done. pose proof (swap_remove_perm ctx i ([], []) Hlt) as Hp.
      destruct (delete_map ctx i key w Hn Hi) as [Hmap Hnd].
      set (ctx' := take _ _) in *. assert (NoDup ctx'.*1) as Hn' by (by rewrite Hp).
      split_and!; [|intros; by apply log_get_map|done|].
      * split; [done|]. unfold ctx', clen in *. rewrite length_take, length_insert. lia.
      * rewrite <- Hmap. by apply list_to_map_proper.
    + rewrite decide_False, decide_True by eauto. rewrite Hi.
      change (default [] (fst <$> Some (key, w))) with key.
      assert ((<[i := (key, snprintf_s 128 v)]> ctx).*1 = ctx.*1) as Hks by (by eapply keys_insert).
      split_and!; [|intros; apply log_get_map; by rewrite Hks|done|by eapply map_insert_value].
      split; [by rewrite Hks|]. unfold clen in *. by rewrite length_insert.
  - assert (key ∉ ctx.*1) as Hnin by (by apply find_key_None).
    assert (mdc_map ctx !! key = None) as Hm by (by apply not_elem_of_list_to_map).
    destruct (bool_decide (v = [])) eqn:Hv;
      [apply bool_decide_eq_true in Hv|apply bool_decide_eq_false in Hv]; cbv beta iota.
    + rewrite decide_True by done. split_and!; [done|intros; by apply log_get_map|done|].
      by rewrite delete_id.
    + rewrite Z.geb_leb.
      destruct (Z.leb_spec MAX_THREAD_CONTEXT_PAIRS (clen ctx)); cbv beta iota.
      * rewrite !decide_False by (done || (intros [[? ?]|?]; [congruence|lia])).
        split_and!; [done|intros; by apply log_get_map|done|done].
      * rewrite decide_False, decide_True by (done || by right). rewrite (snprintf_s_id 32) by lia.
        assert (NoDup (ctx ++ [(key, snprintf_s 128 v)]).*1) as Hn'.
        { rewrite fmap_app. apply NoDup_app. split_and!; [done| |apply NoDup_singleton].
          intros x Hx Hx'. apply list_elem_of_singleton in Hx'. cbn in Hx'. by subst. }
        split_and!; [|intros; by apply log_get_map|done|].
        -- split; [done|]. rewrite clen_app. unfold clen at 2. cbn [length]. lia.
        -- unfold mdc_map. rewrite (list_to_map_proper _ ((key, snprintf_s 128 v) :: ctx) Hn'); [done|].
           symmetry. apply Permutation_cons_append.
Qed.

(** C21: the thread context is a finite map. For keys of 1 to 31 bytes and values of 1 to
    127, setting a value is insertion, setting NULL is deletion, whatever the order of the
    pairs in the array; the only refusal is of a seventeenth key, which changes nothing;
    reading is lookup, and the array keeps at most sixteen pairs with distinct keys. *)
Theorem mdc_refines_map ctx key value :
  mdc_ok ctx → 0 < clen key < 32 → (∀ v, value = Some v → 0 < clen v < 128) →
  let '(ctx', rc) := log_set_thread_context ctx (Some key) value in
  mdc_ok ctx' ∧ (∀ k, log_get_thread_context ctx' (Some k) = mdc_map ctx' !! k) ∧
  match value with
  | None => rc = CLOG_OK ∧ mdc_map ctx' = delete key (mdc_map ctx)
  | Some v =>
      if decide (is_Some (mdc_map ctx !! key) ∨ clen ctx < MAX_THREAD_CONTEXT_PAIRS)
      then rc = CLOG_OK ∧ mdc_map ctx' = <[key := v]> (mdc_map ctx)
      else rc = CLOG_ERR_INVALID_ARG ∧ ctx' = ctx
  end.
Proof.
  intros Hok Hk Hv. pose proof (set_context_map ctx key value Hok Hk) as H. cbv zeta in H.
  destruct (log_set_thread_context ctx (Some key) value) as [ctx' rc]. destruct H as (H1 & H2 & H3).
  split; [done|]. split; [done|]. destruct value as [v|]; [|exact H3]. change (or_default (Some v) []) with v in H3.
  destruct (Hv v eq_refl) as [Hv1 Hv2]. rewrite decide_False in H3 by (intros ->; unfold clen in Hv1; cbn in Hv1; lia).
  by rewrite snprintf_s_id in H3 by lia.
Qed.

Lemma mdc_refines_map_witness :
  let ctx := [(B "a", B "1"); (B "b", B "2"); (B "c", B "3")] in
  let '(ctx', rc) := log_set_thread_context ctx (Some (B "a")) None in
  rc = CLOG_OK ∧ mdc_map ctx' = delete (B "a") (mdc_map ctx) ∧ ctx' = [(B "c", B "3"); (B "b", B "2")].
Proof.
  cbv zeta. assert (mdc_ok [(B "a", B "1"); (B "b", B "2"); (B "c", B "3")]) as Hok.
  { split; [|vm_compute; discriminate]. apply (bool_decide_unpack _). vm_compute. exact I. }
  pose proof (mdc_refines_map [(B "a", B "1"); (B "b", B "2"); (B "c", B "3")] (B "a") None Hok
    ltac:(vm_compute; split; reflexivity) ltac:(discriminate)) as H.
  destruct (log_set_thread_context _ _ _) as [ctx' rc] eqn:E. destruct H as (_ & _ & H1 & H2).
  split_and!; [exact H1|exact H2|]. vm_compute in E. injection E as <- _. reflexivity.
Defined.

(** C30: a module name is never torn: in every interleaving of byte-wise writers and
    lock-free readers, under sequentially consistent memory, what a reader returns is the
    whole buffer left by one of the completed writes, old or new, never a mixture. *)
Theorem module_no_torn_read k name m s i got :
  name_fits name → msteps k (m_init name m) s → Z.of_nat k <= 2 ^ 62 →
  ms_threads s !! i = Some (R_done got) →
  got ∈ ms_hist s ∧ length got = MODULE_SIZE.
Proof.
  intros Hn Hs Hk Hi. pose proof (minv_steps k name m s Hn Hs Hk) as [[_ Hl] _ _ _ Hpc].
  pose proof (Hpc i _ Hi) as Hin. cbn in Hin. split; [done|]. rewrite Forall_forall in Hl. by apply Hl.
Qed.

(** A reader overtaken by a writer in the middle of its copy. *)
Definition torn_schedule : list mevent :=
  [MRead 0; MStep 0] ++ repeat (MStep 0) 3 ++ [MSet 1 (Some (B "worker"))] ++ repeat (MStep 1) 11 ++
  repeat (MStep 0) 128.

Lemma module_no_torn_read_witness :
  ∃ s got, mexec_all (m_init (B "main") 2) torn_schedule = Some s ∧
    ms_threads s !! 0%nat = Some (R_done got) ∧ take 7 got = B "worker" ++ [0] ∧ got ∈ ms_hist s.
Proof.
  assert ((λ s, match ms_threads s !! 0%nat with Some (R_done got) => Some (take 7 got) | _ => None end)
    <$> mexec_all (m_init (B "main") 2) torn_schedule = Some (Some (B "worker" ++ [0]))) as E
    by (vm_compute; reflexivity).
  destruct (mexec_all (m_init (B "main") 2) torn_schedule) as [s|] eqn:Es; [|discriminate E].
  cbn in E. apply (f_equal (default None)) in E. cbn in E.
  destruct (ms_threads s !! 0%nat) as [[]|] eqn:Et; try discriminate E. injection E as E.
  exists s, got. split_and!; [done|done|exact E|].
  pose proof (mexec_all_steps 0 (m_init (B "main") 2) (m_init (B "main") 2) s torn_schedule (msteps_O _) Es) as Hs.
  apply (module_no_torn_read (0 + length torn_schedule) (B "main") 2 s 0 got); [|exact Hs| |exact Et].
  - unfold name_fits, MODULE_SIZE. simpl. lia.
  - vm_compute. discriminate.
Defined.

(** A key of 32 bytes or more is stored cut and never found again, so that every
    call adds another pair. *)
Example long_key_duplicates :
  let key := Some (repeat 97 40) in
  let ctx := (log_set_thread_context [] key (Some (B "1"))).1 in
  let ctx := (log_set_thread_context ctx key (Some (B "2"))).1 in
  length ctx = 2%nat ∧ log_get_thread_context ctx key = None.
Proof. vm_compute. done. Qed.
