(* ===== verification/ModuleWeak.v ===== *)
(** * The module name under release/acquire memory (core/log.c with include/clog_port.h)

    The sequence lock of Context.v over the memory of WeakMem.v, with the orders of the GNU
    branches: [clog_atomic_fetch_add_sz] acquires and does not release, the loads of the
    generation acquire, and the bytes are plain; they are taken as relaxed atomics here,
    the weakest reading that is still defined.  A read that holds the mutex returns a name
    that was set; a read validated by the generation alone need not. *)
From S2P Require Import Prelude WeakMem Context.

Local Open Scope Z_scope.

Inductive mod_loc := N_gen | N_byte (k : nat) | N_mutex.

#[export] Instance mod_loc_eq_dec : EqDecision mod_loc.
Proof. solve_decision. Defined.

(** The next access of a thread, and where it goes from there. *)
Definition mod_access (p : mpc) : access mod_loc unit :=
  match p with
  | M_idle | R_done _ => ANone
  | W_lock _ | R_lock => AWait N_mutex
  | W_gen1 _ | W_gen2 _ => AUpdate Acquire N_gen (λ g, u64 (g + 1))
  | W_byte name k => AStore Relaxed (N_byte k) (name_byte name k)
  | W_unlock | R_unlock _ => APost N_mutex
  | R_gen1 | R_gen2 _ _ => ALoad Acquire N_gen
  | R_byte _ got | R_lbyte got => ALoad Relaxed (N_byte (length got))
  end.

Definition mod_after (p : mpc) (v : Z) : mpc :=
  match p with
  | M_idle => M_idle
  | W_lock name => W_gen1 name
  | W_gen1 name => W_byte name 0
  | W_byte name k => if Nat.eqb k (length name) then W_gen2 name else W_byte name (S k)
  | W_gen2 _ => W_unlock
  | W_unlock => M_idle
  | R_gen1 => if Z.land v 1 =? 0 then R_byte v [] else R_lock
  | R_byte g got =>
      let got' := got ++ [v] in
      if Nat.eqb (length got') MODULE_SIZE then R_gen2 g got' else R_byte g got'
  | R_gen2 g got => if g =? v then R_done got else R_lock
  | R_lock => R_lbyte []
  | R_lbyte got =>
      let got' := got ++ [v] in
      if Nat.eqb (length got') MODULE_SIZE then R_unlock got' else R_lbyte got'
  | R_unlock got => R_done got
  | R_done got => R_done got
  end.

(** [wm_hist] is ghost: the buffer after each completed write. *)
Record wmstate := WMState {
  wm_mem : mem mod_loc unit;
  wm_threads : list (view mod_loc * mpc);
  wm_data : list Z;
  wm_hist : list (list Z)
}.

Definition mod_mem (data : list Z) : mem mod_loc unit :=
  Mem (λ l, match l with N_gen => {[0 := Msg 0 vbot]} | N_byte k => {[0 := Msg (default 0 (data !! k)) vbot]} | N_mutex => ∅ end)
    (λ _, tt) (λ _, 0) (λ _, (1, vbot)) false.

Definition wm_init (name : cstr) (n : nat) : wmstate :=
  let data := write_name (replicate MODULE_SIZE 0) name in
  WMState (mod_mem data) (replicate n (vbot, M_idle)) data [data].

Inductive wmevent := WMStep (i : nat) (t : Z) | WMSet (i : nat) (module : option cstr) | WMRead (i : nat).

Definition mod_value (r : answer unit) : Z := match r with Val v => v | _ => 0 end.

Definition wmexec (s : wmstate) (e : wmevent) : option wmstate :=
  match e with
  | WMStep i t =>
      '(V, p) ← wm_threads s !! i;
      '(M, V', r) ← perform (mod_access p) (wm_mem s) V t false;
      let data := match p with W_byte name k => <[k := name_byte name k]> (wm_data s) | _ => wm_data s end in
      Some (WMState M (<[i := (V', mod_after p (mod_value r))]> (wm_threads s)) data
              (match p with W_gen2 _ => wm_hist s ++ [data] | _ => wm_hist s end))
  | WMSet i module =>
      match wm_threads s !! i with
      | Some (V, M_idle) | Some (V, R_done _) =>
          Some (WMState (wm_mem s) (<[i := (V, W_lock (module_name module))]> (wm_threads s)) (wm_data s) (wm_hist s))
      | _ => None
      end
  | WMRead i =>
      match wm_threads s !! i with
      | Some (V, M_idle) | Some (V, R_done _) =>
          Some (WMState (wm_mem s) (<[i := (V, R_gen1)]> (wm_threads s)) (wm_data s) (wm_hist s))
      | _ => None
      end
  end.

Fixpoint wmexec_all (s : wmstate) (l : list wmevent) : option wmstate :=
  match l with [] => Some s | e :: l' => s1 ← wmexec s e; wmexec_all s1 l' end.

(** What a thread is left with. *)
Definition wm_result (s : wmstate) (i : nat) : option (list Z) :=
  match wm_threads s !! i with Some (_, R_done got) => Some got | _ => None end.

(** ** The fast path is torn *)

(** Thread 1 replaces the name by ab, completely; thread 0 then reads the generation at
    timestamp [g] twice, the first byte from the new name and the others from the old. *)
Definition torn_read (g : Z) : list wmevent :=
  [WMSet 1 (Some (B "ab")); WMStep 1 0; WMStep 1 0; WMStep 1 1; WMStep 1 1; WMStep 1 1; WMStep 1 1; WMStep 1 0] ++
  [WMRead 0; WMStep 0 g; WMStep 0 1] ++ repeat (WMStep 0 0) 63 ++ [WMStep 0 g].

(** With the generation from before the write: the reader's loads are not kept before its
    second look at the generation.  With the one from after it: the writer's increment does
    not release its bytes.  Either way a name that nobody set is accepted. *)
Example seqlock_torn_read g :
  g = 0 ∨ g = 2 →
  ∃ s, wmexec_all (wm_init (B "main") 2) (torn_read g) = Some s ∧
    wm_result s 0 = Some (write_name (replicate MODULE_SIZE 0) (B "aain")) ∧
    wm_hist s = [write_name (replicate MODULE_SIZE 0) (B "main"); write_name (write_name (replicate MODULE_SIZE 0) (B "main")) (B "ab")].
Proof.
  intros Hg.
  assert ((λ s, (wm_result s 0, wm_hist s)) <$> wmexec_all (wm_init (B "main") 2) (torn_read g) =
    Some (Some (write_name (replicate MODULE_SIZE 0) (B "aain")),
      [write_name (replicate MODULE_SIZE 0) (B "main"); write_name (write_name (replicate MODULE_SIZE 0) (B "main")) (B "ab")])) as E
    by (destruct Hg as [-> | ->]; vm_compute; reflexivity).
  destruct (wmexec_all _ _) as [s|]; [|discriminate]. exists s. injection E as E1 E2. done.
Qed.

(** ** The locked path is whole *)

(** [V] has seen every store of the bytes, the last of which spell [data]. *)
Definition complete (M : mem mod_loc unit) (data : list Z) (V : view mod_loc) : Prop :=
  ∀ k t m, cells M (N_byte k) !! t = Some m →
    t <= V (N_byte k) ∧ (V (N_byte k) <= t → m_val m = default 0 (data !! k)).

#[export] Instance complete_proper M data : Proper (vle ==> impl) (complete M data).
Proof. intros V W HV H k t m Hm. specialize (HV (N_byte k)). destruct (H k t m Hm) as [H1 H2]. split; [lia|]. intros. apply H2. lia. Qed.

Definition locked_ok (data : list Z) (p : mpc) : Prop :=
  match p with
  | W_lock name | W_gen1 name => name_fits name
  | W_byte name k => (k ≤ length name)%nat ∧ name_fits name
  | R_lbyte got => (length got < MODULE_SIZE)%nat ∧ got = take (length got) data
  | R_unlock got => got = data
  | _ => True
  end.

Record wminv (s : wmstate) : Prop := {
  y_len : length (wm_data s) = MODULE_SIZE;
  y_sem : 0 <= fst (sems (wm_mem s) N_mutex);
  y_holds i V p : wm_threads s !! i = Some (V, p) → holds p →
    fst (sems (wm_mem s) N_mutex) = 0 ∧ complete (wm_mem s) (wm_data s) V ∧
    ∀ j W q, wm_threads s !! j = Some (W, q) → holds q → j = i;
  y_free : 0 < fst (sems (wm_mem s) N_mutex) →
    fst (sems (wm_mem s) N_mutex) = 1 ∧ complete (wm_mem s) (wm_data s) (snd (sems (wm_mem s) N_mutex));
  y_hist : (∀ i V p, wm_threads s !! i = Some (V, p) → ¬ inside p) → last (wm_hist s) = Some (wm_data s);
  y_pc i V p : wm_threads s !! i = Some (V, p) → locked_ok (wm_data s) p
}.

(** A thread moves on and the bytes, the mutex and the roles stay. *)
Lemma wminv_move s i V p V' p' M' :
  wminv s → wm_threads s !! i = Some (V, p) → (holds p' ↔ holds p) → (inside p' ↔ inside p) → vle V V' →
  (∀ k, cells M' (N_byte k) = cells (wm_mem s) (N_byte k)) → sems M' = sems (wm_mem s) → locked_ok (wm_data s) p' →
  wminv (WMState M' (<[i := (V', p')]> (wm_threads s)) (wm_data s) (wm_hist s)).
Proof.
  intros [] Hi Hh Hin HV Hc Hs Hok.
  assert (∀ W, complete (wm_mem s) (wm_data s) W → complete M' (wm_data s) W) as Hcm by (intros W H k t m; rewrite Hc; apply H).
  split; cbn; rewrite ?Hs; try done.
  - intros j W q [[-> [= -> ->]]|[Hne Hj]]%lookup_insert_cases Hq.
    + destruct (y_holds0 i V p Hi (proj1 Hh Hq)) as (H1 & H2 & H3). split; [done|]. split; [apply Hcm; by eapply complete_proper|].
      intros j W q [[-> _]|[Hne Hj]]%lookup_insert_cases Hq'; [done|by eapply H3].
    + destruct (y_holds0 j W q Hj Hq) as (H1 & H2 & H3). split; [done|]. split; [by apply Hcm|].
      intros j' W' q' [[-> [= -> ->]]|[Hne' Hj']]%lookup_insert_cases Hq'; [by eapply H3; [exact Hi|apply Hh]|by eapply H3].
  - intros H. destruct (y_free0 H). split; [done|by apply Hcm].
  - intros H. apply y_hist0. intros j W q Hj. destruct (decide (j = i)) as [->|].
    + rewrite Hi in Hj. injection Hj as <- <-. rewrite <- Hin. eapply (H i V'). apply list_lookup_insert_eq. by eapply lookup_lt_Some.
    + eapply (H j W). by rewrite list_lookup_insert_ne.
  - intros j W q [[-> [= -> ->]]|[_ Hj]]%lookup_insert_cases; [done|by eapply y_pc0].
Qed.

Section steps.
Context (s : wmstate) (i : nat) (V : view mod_loc) (HI : wminv s).

(** Nobody else holds the mutex. *)
Lemma wm_alone p j W q :
  wm_threads s !! i = Some (V, p) → holds p → j ≠ i → wm_threads s !! j = Some (W, q) → ¬ holds q.
Proof. intros Hi Hp Hne Hj Hq. destruct (y_holds s HI i V p Hi Hp) as (_ & _ & H). by apply Hne, (H j W q). Qed.

(** Taking the mutex. *)
Lemma wminv_lock p p' y :
  wm_threads s !! i = Some (V, p) → ¬ inside p → ¬ inside p' → locked_ok (wm_data s) p' → wait (wm_mem s) V N_mutex = Some y →
  wminv (WMState (fst y) (<[i := (snd y, p')]> (wm_threads s)) (wm_data s) (wm_hist s)).
Proof.
  intros Hi Hin Hin' Hok. unfold wait. destruct (fst (sems (wm_mem s) N_mutex) >? 0) eqn:E; [|done]. intros [= <-].
  destruct HI as [Hlen Hsem Hholds Hfree Hhist Hpc]. destruct (Hfree ltac:(lia)) as [E1 Hc].
  assert (∀ j W q, wm_threads s !! j = Some (W, q) → ¬ holds q) as Hno.
  { intros j W q Hj Hq. destruct (Hholds j W q Hj Hq). lia. }
  split; cbn; rewrite ?E1; try done.
  - intros j W q [[-> [= -> ->]]|[Hne Hj]]%lookup_insert_cases Hq; [|by destruct (Hno j W q Hj)].
    split; [done|]. split; [eapply complete_proper; [apply vle_join_r|exact Hc]|].
    intros j W q [[-> _]|[Hne Hj]]%lookup_insert_cases Hq'; [done|by destruct (Hno j W q Hj)].
  - intros _. apply Hhist. intros j W q Hj Hq. by eapply Hno, inside_holds, Hq.
  - intros j W q [[-> [= -> ->]]|[_ Hj]]%lookup_insert_cases; [done|by eapply Hpc].
Qed.

(** Releasing it. *)
Lemma wminv_unlock p p' :
  wm_threads s !! i = Some (V, p) → holds p → ¬ inside p → ¬ holds p' → locked_ok (wm_data s) p' →
  wminv (WMState (post (wm_mem s) V N_mutex) (<[i := (V, p')]> (wm_threads s)) (wm_data s) (wm_hist s)).
Proof.
  intros Hi Hp Hin Hp' Hok. destruct (y_holds s HI i V p Hi Hp) as (E1 & Hc & Hal). pose proof (wm_alone p) as Hno.
  destruct HI as [Hlen Hsem Hholds Hfree Hhist Hpc]. split; cbn; rewrite ?E1; try done.
  - intros j W q [[-> [= -> ->]]|[Hne Hj]]%lookup_insert_cases Hq; [done|]. by destruct (Hno j W q Hi Hp Hne Hj).
  - intros _. split; [done|]. eapply complete_proper; [apply vle_join_r|exact Hc].
  - intros _. apply Hhist. intros j W q Hj Hq. destruct (decide (j = i)) as [->|Hne].
    + rewrite Hi in Hj. by injection Hj as <- <-.
    + by eapply (Hno j W q Hi Hp Hne Hj), inside_holds.
  - intros j W q [[-> [= -> ->]]|[_ Hj]]%lookup_insert_cases; [done|by eapply Hpc].
Qed.

(** The holder writes a byte, or begins or ends its write. *)
Lemma wminv_inside p p' V' M' data' hist' :
  wm_threads s !! i = Some (V, p) → holds p → holds p' → locked_ok data' p' →
  length data' = MODULE_SIZE → sems M' = sems (wm_mem s) → complete M' data' V' →
  (inside p' ∨ last hist' = Some data') →
  wminv (WMState M' (<[i := (V', p')]> (wm_threads s)) data' hist').
Proof.
  intros Hi Hp Hp' Hok Hlen Hs Hc Hh. destruct (y_holds s HI i V p Hi Hp) as (E1 & _ & Hal). pose proof (wm_alone p) as Hno.
  split; cbn; rewrite ?Hs, ?E1; try done.
  - intros j W q [[-> [= -> ->]]|[Hne Hj]]%lookup_insert_cases Hq; [|by destruct (Hno j W q Hi Hp Hne Hj)].
    split; [done|]. split; [done|]. intros j W q [[-> _]|[Hne Hj]]%lookup_insert_cases Hq'; [done|by eapply Hal].
  - intros H. destruct Hh as [Hh|Hh]; [|done]. exfalso. apply (H i V' p'); [|done].
    apply list_lookup_insert_eq. by eapply lookup_lt_Some.
  - intros j W q [[-> [= -> ->]]|[Hne Hj]]%lookup_insert_cases; [done|].
    assert (¬ holds q) by (by eapply Hno). pose proof (y_pc s HI j W q Hj). by destruct q.
Qed.

(** The holder's store of a byte is the last one of it. *)
Lemma complete_store name k t M' V' :
  complete (wm_mem s) (wm_data s) V → store Relaxed (wm_mem s) V (N_byte k) (name_byte name k) t = Some (M', V') →
  (k < MODULE_SIZE)%nat → sems M' = sems (wm_mem s) ∧ complete M' (<[k := name_byte name k]> (wm_data s)) V'.
Proof.
  intros Hc. unfold store. destruct (Z.ltb_spec (V (N_byte k)) t); [|done]. case_bool_decide; [|done]. intros [= <- <-] Hk.
  split; [done|]. intros k' t' m. cbn [cells add_msg]. case_decide as Hd.
  - injection Hd as ->. rewrite vset_eq, lookup_insert_Some. intros [[<- <-]|[Hne Hm]].
    + split; [lia|]. intros _. rewrite list_lookup_insert_eq; [done|]. by rewrite (y_len s HI).
    + destruct (Hc k t' m Hm). split; lia.
  - intros Hm. rewrite vset_ne by congruence. destruct (Hc k' t' m Hm) as [H1 H2]. split; [done|]. intros H3.
    rewrite list_lookup_insert_ne by congruence. by apply H2.
Qed.
End steps.

Lemma load_mono {loc A} `{EqDecision loc} o (M : mem loc A) V l t y : load o M V l t = Some y → vle V (snd y).
Proof.
  unfold load. destruct (cells M l !! t); [|done]. cbn. destruct (_ <=? _); [|done]. intros [= <-]. cbn.
  destruct (acquires o); [etrans; [apply (vle_set V l t)|apply vle_join_l]|apply vle_set].
Qed.

Lemma update_frame {loc A} `{EqDecision loc} o (M : mem loc A) V l f t M' V' v :
  update o M V l f t = Some (M', V', v) →
  vle V V' ∧ sems M' = sems M ∧ ∀ k, k ≠ l → cells M' k = cells M k.
Proof.
  unfold update. destruct (cells M l !! t); [|done]. cbn. destruct (load o M V l t) as [y|] eqn:E; [|done]. cbn.
  case_bool_decide; [|done]. intros [= <- <- _]. apply load_mono in E. split; [etrans; [exact E|apply vle_set]|].
  split; [done|]. intros k Hk. cbn. by rewrite decide_False.
Qed.

(** The holder of the mutex loads the last byte stored. *)
Lemma complete_load M data V k t y : complete M data V → load Relaxed M V (N_byte k) t = Some y → fst y = default 0 (data !! k).
Proof.
  intros Hc. unfold load. destruct (cells M (N_byte k) !! t) as [m|] eqn:E; [|done]. cbn.
  destruct (Z.leb_spec (V (N_byte k)) t); [|done]. intros [= <-]. by apply (Hc k t m E).
Qed.

(** The generation moves and nothing the invariant reads does. *)
Lemma wminv_gen s i V p p' hist' t M' V' v :
  wminv s → wm_threads s !! i = Some (V, p) → holds p → holds p' → locked_ok (wm_data s) p' →
  (inside p' ∨ last hist' = Some (wm_data s)) →
  update Acquire (wm_mem s) V N_gen (λ g, u64 (g + 1)) t = Some (M', V', v) →
  wminv (WMState M' (<[i := (V', p')]> (wm_threads s)) (wm_data s) hist').
Proof.
  intros HI Hi Hp Hp' Hok Hh HU. destruct (update_frame _ _ _ _ _ _ _ _ _ HU) as (U1 & U2 & U3).
  eapply wminv_inside; try done; [apply HI|]. destruct (y_holds s HI i V p Hi Hp) as (_ & Hc & _).
  intros k t' m. rewrite U3 by done. by apply (complete_proper _ _ _ _ U1 Hc).
Qed.

Lemma wmstep_inv s i t s' : wminv s → wmexec s (WMStep i t) = Some s' → wminv s'.
Proof.
  intros HI. cbn [wmexec]. destruct (wm_threads s !! i) as [[V p]|] eqn:Hi; [|done]. cbn [mbind option_bind].
  destruct (perform _ _ _ _ _) as [[[M' V'] r]|] eqn:HP; [|done]. cbn [mbind option_bind]. intros [= <-].
  pose proof (y_pc s HI i V p Hi) as Hok.
  assert (∀ p', (holds p' ↔ holds p) → (inside p' ↔ inside p) → locked_ok (wm_data s) p' →
    wminv (WMState (wm_mem s) (<[i := (V, p')]> (wm_threads s)) (wm_data s) (wm_hist s))) as Hstay
    by (intros; by eapply wminv_move; [..|reflexivity|done|done|]).
  destruct p; cbn [mod_access perform] in HP; try (injection HP as <- <- <-; by apply Hstay);
    try (apply bind_Some in HP as (y & HL & HP); repeat match type of y with (_ * _)%type => destruct y as [y ?] end; cbn [fst snd] in HP; simplify_eq);
    cbn [mod_value mod_after].
  - apply (wminv_lock s i V HI (W_lock name) (W_gen1 name) (M', V')); mdone.
  - refine (wminv_gen s i V _ (W_byte name 0) _ t M' V' _ HI Hi I I _ (or_introl I) HL). split; [lia|exact Hok].
  - destruct Hok as [Hk Hf]. unfold name_fits in Hf. destruct (y_holds s HI i V _ Hi I) as (_ & Hc & _).
    destruct (complete_store s V HI name i0 t M' V' Hc HL ltac:(lia)) as [Hs Hc'].
    assert (length (<[i0 := name_byte name i0]> (wm_data s)) = MODULE_SIZE) by (rewrite length_insert; apply HI).
    destruct (Nat.eqb_spec i0 (length name)); eapply wminv_inside; try done; try (by left). cbn. split; [lia|done].
  - refine (wminv_gen s i V _ W_unlock _ t M' V' _ HI Hi I I I (or_intror (last_snoc _ _)) HL).
  - injection HP as <- <- <-. eapply wminv_unlock; mdone.
  - apply load_mono in HL. destruct (Z.land _ _ =? 0); (eapply wminv_move; [done|exact Hi|..]; mdone).
  - apply load_mono in HL. destruct (Nat.eqb _ _); (eapply wminv_move; [done|exact Hi|..]; mdone).
  - apply load_mono in HL. destruct (_ =? _); (eapply wminv_move; [done|exact Hi|..]; mdone).
  - apply (wminv_lock s i V HI R_lock (R_lbyte []) (M', V')); try mdone. cbn. unfold MODULE_SIZE. split; [lia|by rewrite take_0].
  - destruct Hok as [Hl Hg]. destruct (y_holds s HI i V _ Hi I) as (_ & Hc & _).
    pose proof (complete_load _ _ _ _ _ _ Hc HL) as Ey. cbn [fst] in Ey. rewrite Ey. pose proof (y_len s HI) as Hlen.
    apply load_mono in HL.
    destruct (lookup_lt_is_Some_2 (wm_data s) (length got)) as [b Hb]; [lia|]. rewrite Hb. cbn [default from_option id].
    assert (got ++ [b] = take (S (length got)) (wm_data s)) as E by (by rewrite (take_S_r _ _ b), <- Hg).
    rewrite E, length_take, Hlen. destruct (Nat.eqb_spec (Nat.min (S (length got)) MODULE_SIZE) MODULE_SIZE) as [E2|];
      (eapply wminv_move; [done|exact Hi|mdone|mdone|exact HL|done|done|]); cbn.
    + apply take_ge. lia.
    + rewrite length_take, Hlen. split; [lia|]. f_equal. lia.
  - injection HP as <- <- <-. eapply wminv_unlock; mdone.
Qed.

Inductive wmsteps : wmstate → wmstate → Prop :=
  | wmsteps_O s : wmsteps s s
  | wmsteps_S s s1 s2 e : wmsteps s s1 → wmexec s1 e = Some s2 → wmsteps s s2.

Lemma wminv_exec s e s' : wminv s → wmexec s e = Some s' → wminv s'.
Proof.
  intros HI. destruct e as [i t|i module|i]; [by apply wmstep_inv|..]; cbn [wmexec];
    destruct (wm_threads s !! i) as [[V []]|] eqn:Hi; try done; intros [= <-]; eapply wminv_move; try done; apply module_name_fits.
Qed.

Lemma wminv_init name n : (length name < MODULE_SIZE)%nat → wminv (wm_init name n).
Proof.
  intros Hn. assert (∀ i V p, replicate n (@vbot mod_loc, M_idle) !! i = Some (V, p) → p = M_idle) as Hr.
  { intros i V p [[= -> ->] _]%lookup_replicate. done. }
  split; cbn [wm_init wm_mem wm_threads wm_data wm_hist]; try done.
  - apply length_write_name; [exact Hn|]. apply length_replicate.
  - intros i V p Hi. by rewrite (Hr _ _ _ Hi).
  - intros _. split; [done|]. intros k t m Hm. cbn [mod_mem cells] in Hm. apply lookup_singleton_Some in Hm as [<- <-]. by split.
  - intros i V p Hi. by rewrite (Hr _ _ _ Hi).
Qed.

Lemma wminv_steps name n s :
  (length name < MODULE_SIZE)%nat → wmsteps (wm_init name n) s → wminv s.
Proof.
  intros Hn Hs. remember (wm_init name n) as s0 eqn:E.
  induction Hs as [s|s s1 s2 e Hs IH He]; [subst; by apply wminv_init|]. by eapply wminv_exec; [apply IH|].
Qed.

(** A read that holds the mutex returns, under any behaviour of the memory, the buffer as
    some completed write left it. *)
Theorem locked_read_whole name n s i V got :
  (length name < MODULE_SIZE)%nat → wmsteps (wm_init name n) s → wm_threads s !! i = Some (V, R_unlock got) →
  got ∈ wm_hist s.
Proof.
  intros Hn Hs Hi. pose proof (wminv_steps name n s Hn Hs) as HI. pose proof (y_pc s HI i V _ Hi) as Hok. cbn in Hok. subst got.
  apply last_Some_elem_of, (y_hist s HI). intros j W q Hj Hq.
  destruct (decide (j = i)) as [->|Hne]; [rewrite Hi in Hj; by injection Hj as <- <-|].
  by apply (wm_alone s i V HI _ j W q Hi I Hne Hj), inside_holds.
Qed.
