(* ===== verification/RecordMem.v ===== *)
(** * Ownership of a record's strings (core/async.c, core/queue.c)

    A [log_record_t] on its way through the asynchronous queue is copied four
    times: [log_record_clone] packs its strings into the copy's own
    [inline_buf] or into one [malloc] block, [mpsc_queue_try_put] copies the
    struct into the ring slot and [mpsc_queue_get_batch_try] out of it, each
    repointing inline strings, and [log_record_free_owned] gives the block
    back.  Here a [char *] is a pointer into a block of an explicit memory, so
    that dangling pointers, overflows, leaks and bad frees are visible. *)
From S2P Require Import Prelude Record.

Local Open Scope Z_scope.

(** ** Memory *)

(** A block is the [inline_buf] of the struct at some address, or any other
    object (heap block, caller's buffer, literal). *)
Inductive block := Inl (self : nat) | Ext (id : nat).

#[export] Instance block_eq_dec : EqDecision block.
Proof. solve_decision. Defined.

Record ptr := Ptr { p_blk : block; p_off : nat }.

(** [heap] holds what [malloc] returned and [free] has not taken back. *)
Record mem := Mem {
  m_inl : gmap nat (list Z);
  m_ext : gmap nat (list Z);
  m_heap : gset nat
}.

Definition m_get (m : mem) (b : block) : option (list Z) :=
  match b with Inl s => m_inl m !! s | Ext i => m_ext m !! i end.

Definition m_set (m : mem) (b : block) (d : list Z) : mem :=
  match b with
  | Inl s => Mem (<[s := d]> (m_inl m)) (m_ext m) (m_heap m)
  | Ext i => Mem (m_inl m) (<[i := d]> (m_ext m)) (m_heap m)
  end.

(** The bytes up to the first NUL; [None] is a read past the end. *)
Fixpoint until_nul (d : list Z) : option cstr :=
  match d with
  | [] => None
  | c :: d' => if c =? 0 then Some [] else cons c <$> until_nul d'
  end.

(** The string a pointer designates; [None] is undefined behaviour. *)
Definition load_str (m : mem) (p : ptr) : option cstr :=
  m_get m (p_blk p) ≫= λ d, until_nul (drop (p_off p) d).

(** [memcpy (p, s, len)]; [None] is a write past the end of the block. *)
Definition memcpy (m : mem) (p : ptr) (s : list Z) : option mem :=
  d ← m_get m (p_blk p);
  if decide (p_off p + length s ≤ length d)%nat
  then Some (m_set m (p_blk p) (take (p_off p) d ++ s ++ drop (p_off p + length s) d))
  else None.

(** [malloc] of [n] bytes that returns the block [id]. *)
Definition malloc (m : mem) (id : nat) (n : nat) : mem :=
  Mem (m_inl m) (<[id := replicate n 0]> (m_ext m)) ({[id]} ∪ m_heap m).

(** [free]: defined on the start of a live heap block only. *)
Definition free (m : mem) (p : ptr) : option mem :=
  match p with
  | Ptr (Ext id) O =>
      if decide (id ∈ m_heap m)
      then Some (Mem (m_inl m) (delete id (m_ext m)) (m_heap m ∖ {[id]}))
      else None
  | _ => None
  end.

(** ** Records in memory *)

Inductive crec_val :=
  | V_INT (i64 : Z) | V_UINT (u64 : Z) | V_FLOAT (f64 : SpecFloat.spec_float)
  | V_STR (str : option ptr) | V_BOOL (b : bool).

Record crec_kv := CrecKv { ck_key : option ptr; ck_val : crec_val }.

(** The struct at address [c_self]; its [inline_buf] is block [Inl c_self].
    [c_meta] are the fields without string storage of their own: the scalars
    and [file], [func], which are literals. *)
Record crec := Crec {
  c_self : nat;
  c_message : option ptr;
  c_module : option ptr;
  c_tag : option ptr;
  c_file : option cstr;
  c_func : option cstr;
  c_kv : list crec_kv;
  c_meta : log_record_t
}.

(** What a reader of the record sees: every pointer followed. [None] as the
    outer option is undefined behaviour. *)
Definition view_str (m : mem) (p : option ptr) : option (option cstr) :=
  match p with None => Some None | Some p => Some <$> load_str m p end.

Definition view_val (m : mem) (v : crec_val) : option clog_kv_val :=
  match v with
  | V_INT x => Some (CLOG_KV_TYPE_INT x)
  | V_UINT x => Some (CLOG_KV_TYPE_UINT x)
  | V_FLOAT x => Some (CLOG_KV_TYPE_FLOAT x)
  | V_STR p => CLOG_KV_TYPE_STR <$> view_str m p
  | V_BOOL b => Some (CLOG_KV_TYPE_BOOL b)
  end.

Definition view_kv (m : mem) (k : crec_kv) : option clog_kv_t :=
  key ← view_str m (ck_key k);
  v ← view_val m (ck_val k);
  Some (ClogKv key v).

Definition view (m : mem) (r : crec) : option log_record_t :=
  message ← view_str m (c_message r);
  module ← view_str m (c_module r);
  tag ← view_str m (c_tag r);
  kv ← mapM (view_kv m) (c_kv r);
  let a := c_meta r in
  Some (LogRecord (r_timestamp a) (c_file r) (c_func r) module tag message (r_level a)
          (r_tid a) (r_pid a) (r_line a) (r_trace_id a) (r_span_id a) kv (r_is_tombstone a)).

(** ** log_record_clone *)

(** [s ? strlen (s) + 1 : 0]. *)
Definition str_bytes (s : option cstr) : nat :=
  match s with Some s => S (length s) | None => O end.

Definition val_bytes (v : clog_kv_val) : nat :=
  match v with CLOG_KV_TYPE_STR s => str_bytes s | _ => O end.

Fixpoint kv_bytes (kv : list clog_kv_t) : nat :=
  match kv with
  | [] => O
  | k :: kv' => str_bytes (kv_key k) + val_bytes (kv_val k) + kv_bytes kv'
  end%nat.

Definition total_bytes (R : log_record_t) : nat :=
  (str_bytes (r_message R) + str_bytes (r_module R) + str_bytes (r_tag R) + kv_bytes (r_kv R))%nat.

(** [if (src) { memcpy (p, src, len + 1); dst = p; p += len + 1; } else dst = NULL]. *)
Definition pack_str (m : mem) (p : ptr) (src : option ptr) : option (mem * ptr * option ptr) :=
  match src with
  | None => Some (m, p, None)
  | Some q =>
      s ← load_str m q;
      m' ← memcpy m p (s ++ [0]);
      Some (m', Ptr (p_blk p) (p_off p + S (length s))%nat, Some p)
  end.

Definition pack_val (m : mem) (p : ptr) (v : crec_val) : option (mem * ptr * crec_val) :=
  match v with
  | V_STR q =>
      x ← pack_str m p q;
      Some (x.1.1, x.1.2, V_STR x.2)
  | _ => Some (m, p, v)
  end.

Fixpoint pack_kv (m : mem) (p : ptr) (kv : list crec_kv) : option (mem * ptr * list crec_kv) :=
  match kv with
  | [] => Some (m, p, [])
  | k :: kv' =>
      x ← pack_str m p (ck_key k);
      y ← pack_val x.1.1 x.1.2 (ck_val k);
      z ← pack_kv y.1.1 y.1.2 kv';
      Some (z.1.1, z.1.2, CrecKv x.2 y.2 :: z.2)
  end.

Definition pack_record (m : mem) (p : ptr) (dst : nat) (src : crec) : option (mem * crec) :=
  x ← pack_str m p (c_message src);
  y ← pack_str x.1.1 x.1.2 (c_module src);
  z ← pack_str y.1.1 y.1.2 (c_tag src);
  w ← pack_kv z.1.1 z.1.2 (c_kv src);
  Some (w.1.1, Crec dst x.2 y.2 z.2 (c_file src) (c_func src) w.2 (c_meta src)).

(** [*dst = *src]: fields and [inline_buf]. *)
Definition struct_copy (m : mem) (dst : nat) (src : crec) : option (mem * crec) :=
  d ← m_get m (Inl (c_self src));
  Some (m_set m (Inl dst) d,
        Crec dst (c_message src) (c_module src) (c_tag src) (c_file src) (c_func src)
             (c_kv src) (c_meta src)).

(** [fresh] is what [malloc] answers, [None] for NULL. The result is the
    memory, the destination and the C return value. *)
Definition log_record_clone (m : mem) (fresh : option nat) (dst : nat) (src : crec)
    : option (mem * crec * Z) :=
  R ← view m src;
  x ← struct_copy m dst src;
  let '(m, d) := (x : mem * crec) in
  let total := total_bytes R in
  if decide (total = 0%nat) then
    Some (m, Crec dst None None None (c_file d) (c_func d) (c_kv d) (c_meta d), 0)
  else if Z.of_nat total <=? CLOG_MAX_INLINE_SIZE then
    y ← pack_record m (Ptr (Inl dst) 0) dst src;
    Some (y.1, y.2, 0)
  else
    match fresh with
    | None => Some (m, d, -1)
    | Some id =>
        y ← pack_record (malloc m id total) (Ptr (Ext id) 0) dst src;
        Some (y.1, y.2, 0)
    end.

(** ** queue.c: log_record_is_inline, log_record_rebase_inline *)

Definition in_inline (self : nat) (p : ptr) : bool :=
  bool_decide (p_blk p = Inl self) && bool_decide (Z.of_nat (p_off p) < CLOG_MAX_INLINE_SIZE).

Definition log_record_is_inline (r : crec) : bool :=
  match c_message r with Some p => in_inline (c_self r) p | None => false end.

(** [off = p - src->inline_buf; dst = dst->inline_buf + off]; the difference
    of pointers into different objects is undefined. *)
Definition rebase_ptr (src dst : nat) (p : option ptr) : option (option ptr) :=
  match p with
  | None => Some None
  | Some p =>
      if decide (p_blk p = Inl src) then Some (Some (Ptr (Inl dst) (p_off p))) else None
  end.

Definition rebase_kv (src dst : nat) (k : crec_kv) : option crec_kv :=
  key ← rebase_ptr src dst (ck_key k);
  v ← match ck_val k with
      | V_STR p => V_STR <$> rebase_ptr src dst p
      | v => Some v
      end;
  Some (CrecKv key v).

Definition log_record_rebase_inline (dst : nat) (src : crec) : option crec :=
  message ← rebase_ptr (c_self src) dst (c_message src);
  module ← rebase_ptr (c_self src) dst (c_module src);
  tag ← rebase_ptr (c_self src) dst (c_tag src);
  kv ← mapM (rebase_kv (c_self src) dst) (c_kv src);
  Some (Crec dst message module tag (c_file src) (c_func src) kv (c_meta src)).

(** [slot->rec = *record; if (is_inline) rebase]: the copy step of
    [mpsc_queue_try_put] and of [mpsc_queue_get_batch_try]. *)
Definition slot_transfer (m : mem) (dst : nat) (src : crec) : option (mem * crec) :=
  x ← struct_copy m dst src;
  let '(m', d) := (x : mem * crec) in
  if log_record_is_inline src
  then d' ← log_record_rebase_inline dst src; Some (m', d')
  else Some (m', d).

(** ** async.c: log_record_free_owned *)

Definition owned_block (r : crec) : option ptr :=
  match c_message r, c_module r, c_tag r, c_kv r with
  | Some p, _, _, _ => Some p
  | None, Some p, _, _ => Some p
  | None, None, Some p, _ => Some p
  | None, None, None, k :: _ => ck_key k
  | None, None, None, [] => None
  end.

Definition cleared (r : crec) : crec :=
  Crec (c_self r) None None None None None [] (c_meta r).

Definition log_record_free_owned (m : mem) (r : crec) : option (mem * crec) :=
  if log_record_is_inline r then Some (m, cleared r)
  else match owned_block r with
       | Some p => m' ← free m p; Some (m', cleared r)
       | None => Some (m, cleared r)
       end.

(** ** Strings in blocks *)

Lemma until_nul_spec d s :
  until_nul d = Some s ↔ Forall (λ c, c ≠ 0) s ∧ ∃ t, d = s ++ 0 :: t.
Proof.
  revert s. induction d as [|c d IH]; intros s; simpl.
  - split; [done|]. intros [_ [t E]]. by destruct s.
  - destruct (Z.eqb_spec c 0) as [->|Hc].
    + split.
      * intros [= <-]. split; [constructor|]. by exists d.
      * intros [Hs [t E]]. destruct s as [|x s]; [done|]. simplify_eq/=.
        by apply Forall_cons in Hs as [? _].
    + rewrite fmap_Some. split.
      * intros (s' & Hs' & ->). apply IH in Hs' as [? [t ->]].
        split; [by constructor|]. by exists t.
      * intros [Hs [t E]]. destruct s as [|x s]; simplify_eq/=.
        exists s. split; [|done]. apply IH. split; [by apply Forall_cons in Hs as [_ ?]|]. by exists t.
Qed.

(** Block [b] keeps its first [off] bytes and its size, the others their contents. *)
Record agree (m m' : mem) (b : block) (off : nat) : Prop := {
  ag_other : ∀ b', b' ≠ b → m_get m' b' = m_get m b';
  ag_own : ∀ d, m_get m b = Some d →
             ∃ d', m_get m' b = Some d' ∧ take off d' = take off d ∧ length d' = length d;
  ag_heap : m_heap m' = m_heap m
}.

(** A packed string: a pointer into [b] whose text lies between [lo] and [hi]. *)
Definition str_in (m : mem) (b : block) (lo hi : nat) (p : option ptr) (s : option cstr) : Prop :=
  match p, s with
  | None, None => True
  | Some p, Some s =>
      p_blk p = b ∧ (lo ≤ p_off p ∧ p_off p + S (length s) ≤ hi)%nat ∧ load_str m p = Some s
  | _, _ => False
  end.

Definition val_in m b lo hi (v : crec_val) (w : clog_kv_val) : Prop :=
  match v, w with
  | V_STR p, CLOG_KV_TYPE_STR s => str_in m b lo hi p s
  | V_INT x, CLOG_KV_TYPE_INT y => x = y
  | V_UINT x, CLOG_KV_TYPE_UINT y => x = y
  | V_FLOAT x, CLOG_KV_TYPE_FLOAT y => x = y
  | V_BOOL x, CLOG_KV_TYPE_BOOL y => x = y
  | _, _ => False
  end.

Definition kv_in m b lo hi (k : crec_kv) (w : clog_kv_t) : Prop :=
  str_in m b lo hi (ck_key k) (kv_key w) ∧ val_in m b lo hi (ck_val k) (kv_val w).

Lemma m_get_set m b d : m_get (m_set m b d) b = Some d.
Proof. destruct b; simpl; apply lookup_insert_eq. Qed.

Lemma m_get_set_ne m b b' d : b' ≠ b → m_get (m_set m b d) b' = m_get m b'.
Proof. destruct b, b'; simpl; intros H; try done; apply lookup_insert_ne; congruence. Qed.

Lemma load_str_ext m m' p : m_get m' (p_blk p) = m_get m (p_blk p) → load_str m' p = load_str m p.
Proof. unfold load_str. by intros ->. Qed.

Lemma take_take_ge {A} (l : list A) n k : (k ≤ n)%nat → take k (take n l) = take k l.
Proof. intros. rewrite take_take. f_equal. lia. Qed.

(** A string is found again in any block that has the same bytes there. *)
Lemma load_str_moved m m' p p' s hi d d' :
  load_str m p = Some s → m_get m (p_blk p) = Some d → m_get m' (p_blk p') = Some d' →
  p_off p' = p_off p → take hi d' = take hi d → (p_off p + S (length s) ≤ hi)%nat →
  load_str m' p' = Some s.
Proof.
  unfold load_str. intros Hl Hd Hd' Ho Ht Hhi. rewrite Hd in Hl. rewrite Hd', Ho. simpl in *.
  apply until_nul_spec in Hl as [Hs [t E]]. apply until_nul_spec. split; [done|].
  exists (drop (p_off p + S (length s)) d').
  assert (E' : take (S (length s)) (drop (p_off p) d') = s ++ [0]).
  { rewrite take_drop_commute. rewrite <- (take_take_ge d' hi), Ht, take_take_ge by lia.
    rewrite <- take_drop_commute, E.
    change (0 :: t) with ([0] ++ t). rewrite app_assoc.
    apply take_app_length'. rewrite length_app. simpl. lia. }
  rewrite <- (take_drop (S (length s)) (drop (p_off p) d')), E', drop_drop, <- app_assoc. done.
Qed.

Lemma str_in_agree m m' b lo hi p s :
  str_in m b lo hi p s → agree m m' b hi → str_in m' b lo hi p s.
Proof.
  destruct p as [p|], s as [s|]; try done. intros (Hb & Ho & Hl) [_ Hown _].
  split; [done|]. split; [done|].
  destruct (m_get m b) as [d|] eqn:Ed.
  - destruct (Hown d eq_refl) as (d' & Hd' & Ht & _). subst b.
    eapply load_str_moved; [exact Hl|exact Ed|exact Hd'|done|exact Ht|lia].
  - unfold load_str in Hl. by rewrite Hb, Ed in Hl.
Qed.

Lemma agree_refl m b off : agree m m b off.
Proof. split; [done| |done]. intros d Hd. by exists d. Qed.

Lemma agree_trans m1 m2 m3 b o1 o2 :
  agree m1 m2 b o1 → agree m2 m3 b o2 → (o1 ≤ o2)%nat → agree m1 m3 b o1.
Proof.
  intros [A1 B1 C1] [A2 B2 C2] Ho. split.
  - intros b' Hb. by rewrite A2, A1.
  - intros d Hd. destruct (B1 d Hd) as (d2 & Hd2 & T2 & L2). destruct (B2 d2 Hd2) as (d3 & Hd3 & T3 & L3).
    exists d3. split; [done|]. split; [|congruence].
    rewrite <- (take_take_ge d3 o2), T3, take_take_ge by lia. done.
  - congruence.
Qed.

Lemma agree_le m m' b o o' : agree m m' b o' → (o ≤ o')%nat → agree m m' b o.
Proof. intros H Ho. eapply agree_trans; [apply agree_refl|exact H|done]. Qed.

Lemma str_in_weaken m b lo hi lo' hi' p s :
  str_in m b lo hi p s → (lo' ≤ lo)%nat → (hi ≤ hi')%nat → str_in m b lo' hi' p s.
Proof. destruct p, s; try done. intros (?&?&?) ??. repeat split; try done; lia. Qed.
Lemma val_in_weaken m b lo hi lo' hi' v w :
  val_in m b lo hi v w → (lo' ≤ lo)%nat → (hi ≤ hi')%nat → val_in m b lo' hi' v w.
Proof. destruct v, w; try done. apply str_in_weaken. Qed.
Lemma kv_in_weaken m b lo hi lo' hi' k w :
  kv_in m b lo hi k w → (lo' ≤ lo)%nat → (hi ≤ hi')%nat → kv_in m b lo' hi' k w.
Proof. intros [??] ??. split; [by eapply str_in_weaken | by eapply val_in_weaken]. Qed.

Lemma val_in_agree m m' b lo hi v w :
  val_in m b lo hi v w → agree m m' b hi → val_in m' b lo hi v w.
Proof. destruct v, w; try done. apply str_in_agree. Qed.
Lemma kv_in_agree m m' b lo hi k w :
  kv_in m b lo hi k w → agree m m' b hi → kv_in m' b lo hi k w.
Proof. intros [??] ?. split; [by eapply str_in_agree | by eapply val_in_agree]. Qed.

(** ** Packing *)

(** No pointer of the source lies in the block that is written. *)
Definition outside (b : block) (p : option ptr) : Prop :=
  match p with Some p => p_blk p ≠ b | None => True end.
Definition outside_val b (v : crec_val) : Prop :=
  match v with V_STR p => outside b p | _ => True end.
Definition outside_kv b (k : crec_kv) : Prop := outside b (ck_key k) ∧ outside_val b (ck_val k).
Definition outside_rec b (r : crec) : Prop :=
  outside b (c_message r) ∧ outside b (c_module r) ∧ outside b (c_tag r) ∧
  Forall (outside_kv b) (c_kv r).

Lemma view_str_agree m m' b off p :
  outside b p → agree m m' b off → view_str m' p = view_str m p.
Proof.
  destruct p as [p|]; [|done]. simpl. intros Hp [H _ _]. by rewrite (load_str_ext m m') by auto.
Qed.
Lemma view_val_agree m m' b off v :
  outside_val b v → agree m m' b off → view_val m' v = view_val m v.
Proof. destruct v; try done. simpl. intros ??. by erewrite view_str_agree. Qed.
Lemma view_kv_agree m m' b off k :
  outside_kv b k → agree m m' b off → view_kv m' k = view_kv m k.
Proof.
  intros [??] ?. unfold view_kv. by erewrite view_str_agree, view_val_agree.
Qed.
Lemma view_kvs_agree m m' b off kv :
  Forall (outside_kv b) kv → agree m m' b off → mapM (view_kv m') kv = mapM (view_kv m) kv.
Proof.
  intros H Hag. induction H as [|k kv Hk Hkv IH]; [done|]. simpl.
  by rewrite IH, (view_kv_agree _ _ _ _ _ Hk Hag).
Qed.

(** The block has [n] bytes of room from [off] on. *)
Definition room (m : mem) (b : block) (off n : nat) : Prop :=
  ∃ d, m_get m b = Some d ∧ (off + n ≤ length d)%nat.

Lemma room_agree m m' b off off' n n' :
  room m b off n → agree m m' b off → (off' + n' ≤ off + n)%nat → room m' b off' n'.
Proof.
  intros (d & Hd & Hn) [_ Hown _] ?. destruct (Hown d Hd) as (d' & Hd' & _ & Hl).
  exists d'. split; [done|]. lia.
Qed.

Lemma load_str_nonzero m p s : load_str m p = Some s → Forall (λ c, c ≠ 0) s.
Proof.
  unfold load_str. intros (d & _ & H)%bind_Some. by apply until_nul_spec in H as [? _].
Qed.

Lemma pack_str_ok m b off src s :
  view_str m src = Some s → outside b src → room m b off (str_bytes s) →
  ∃ m' o, pack_str m (Ptr b off) src = Some (m', Ptr b (off + str_bytes s)%nat, o) ∧
    agree m m' b off ∧ str_in m' b off (off + str_bytes s) o s.
Proof.
  intros Hv Ho (d & Hd & Hr). destruct src as [q|]; simpl in Hv.
  2:{ simplify_eq. exists m, None. simpl. rewrite Nat.add_0_r. split; [done|].
      split; [apply agree_refl | done]. }
  apply fmap_Some in Hv as (t & Ht & ->). simpl in Hr. simpl. rewrite Ht. simpl.
  unfold memcpy. simpl. rewrite Hd. simpl. rewrite length_app. simpl.
  rewrite decide_True by lia.
  eexists _, (Some (Ptr b off)). split; [reflexivity|]. split; [split|].
  - intros b' Hb. by apply m_get_set_ne.
  - intros d0 [= <-]%(eq_trans (eq_sym Hd)). eexists. rewrite m_get_set. split; [done|]. split.
    + rewrite take_app_le by (rewrite length_take; lia). rewrite take_take_ge by lia. done.
    + rewrite !length_app, length_take, length_drop. simpl. lia.
  - destruct b; done.
  - split; [done|]. split; [simpl; lia|].
    unfold load_str. simpl. rewrite m_get_set. simpl.
    apply until_nul_spec. split; [by eapply load_str_nonzero|].
    eexists. rewrite drop_app_length' by (rewrite length_take; lia).
    rewrite <- app_assoc. reflexivity.
Qed.

Lemma pack_val_ok m b off v w :
  view_val m v = Some w → outside_val b v → room m b off (val_bytes w) →
  ∃ m' v', pack_val m (Ptr b off) v = Some (m', Ptr b (off + val_bytes w)%nat, v') ∧
    agree m m' b off ∧ val_in m' b off (off + val_bytes w) v' w.
Proof.
  intros Hv Ho Hr. destruct v; simpl in Hv; simplify_eq;
    try (eexists m, _; simpl; rewrite Nat.add_0_r;
         split; [reflexivity|split; [apply agree_refl|reflexivity]]).
  apply fmap_Some in Hv as (s & Hs & ->). simpl in *.
  destruct (pack_str_ok _ _ _ _ _ Hs Ho Hr) as (m' & o & -> & Hag & Hin).
  exists m', (V_STR o). done.
Qed.

Lemma pack_kv_ok kv : ∀ m b off ws,
  mapM (view_kv m) kv = Some ws → Forall (outside_kv b) kv → room m b off (kv_bytes ws) →
  ∃ m' kv', pack_kv m (Ptr b off) kv = Some (m', Ptr b (off + kv_bytes ws)%nat, kv') ∧
    agree m m' b off ∧ Forall2 (kv_in m' b off (off + kv_bytes ws)) kv' ws.
Proof.
  induction kv as [|k kv IH]; intros m b off ws Hv Ho Hr; simpl in Hv.
  - injection Hv as <-. exists m, []. cbn [kv_bytes pack_kv]. rewrite Nat.add_0_r.
    split; [done|]. split; [apply agree_refl | constructor].
  - apply bind_Some in Hv as (w & Hw & (ws' & Hws & [= <-])%bind_Some).
    unfold view_kv in Hw. apply bind_Some in Hw as (key & Hkey & (v & Hval & [= <-])%bind_Some).
    apply Forall_cons in Ho as [[Hok Hov] Ho]. simpl in Hr. cbn [pack_kv kv_bytes kv_key kv_val].
    destruct (pack_str_ok m b off _ _ Hkey Hok) as (m1 & o & -> & A1 & I1).
    { eapply room_agree; [exact Hr|apply agree_refl|lia]. }
    cbn [mbind option_bind fst snd].
    destruct (pack_val_ok m1 b (off + str_bytes key) (ck_val k) v) as (m2 & v' & -> & A2 & I2).
    { by erewrite view_val_agree. } { done. }
    { eapply room_agree; [exact Hr|exact A1|lia]. }
    cbn [mbind option_bind fst snd].
    assert (A12 : agree m m2 b off) by (eapply agree_trans; [exact A1|exact A2|lia]).
    destruct (IH m2 b (off + str_bytes key + val_bytes v)%nat ws') as (m3 & kv' & -> & A3 & I3).
    { by erewrite view_kvs_agree. } { done. }
    { eapply room_agree; [exact Hr|exact A12|lia]. }
    cbn [mbind option_bind fst snd].
    rewrite <- !Nat.add_assoc. eexists m3, _. split; [reflexivity|]. split; [eapply agree_trans; [exact A12|exact A3|lia]|].
    constructor.
    + split; simpl.
      * eapply str_in_weaken; [|reflexivity|]; [eapply str_in_agree; [exact I1|]|lia].
        eapply agree_trans; [exact A2|exact A3|lia].
      * eapply val_in_weaken; [eapply val_in_agree; [exact I2|exact A3]|lia|lia].
    + eapply Forall2_impl; [exact I3|]. intros. eapply kv_in_weaken; [done|lia|lia].
Qed.

(** A record all of whose strings are packed in block [b]. *)
Record packed (m : mem) (b : block) (r : crec) (R : log_record_t) : Prop := {
  pk_room : room m b 0 (total_bytes R);
  pk_message : str_in m b 0 (total_bytes R) (c_message r) (r_message R);
  pk_first : ∀ p, c_message r = Some p → p_off p = 0%nat;
  pk_module : str_in m b 0 (total_bytes R) (c_module r) (r_module R);
  pk_tag : str_in m b 0 (total_bytes R) (c_tag r) (r_tag R);
  pk_kv : Forall2 (kv_in m b 0 (total_bytes R)) (c_kv r) (r_kv R);
  pk_meta : R = LogRecord (r_timestamp (c_meta r)) (c_file r) (c_func r) (r_module R) (r_tag R)
                  (r_message R) (r_level (c_meta r)) (r_tid (c_meta r)) (r_pid (c_meta r))
                  (r_line (c_meta r)) (r_trace_id (c_meta r)) (r_span_id (c_meta r)) (r_kv R)
                  (r_is_tombstone (c_meta r))
}.

Lemma view_inv m r R :
  view m r = Some R →
  view_str m (c_message r) = Some (r_message R) ∧ view_str m (c_module r) = Some (r_module R) ∧
  view_str m (c_tag r) = Some (r_tag R) ∧ mapM (view_kv m) (c_kv r) = Some (r_kv R) ∧
  R = LogRecord (r_timestamp (c_meta r)) (c_file r) (c_func r) (r_module R) (r_tag R)
        (r_message R) (r_level (c_meta r)) (r_tid (c_meta r)) (r_pid (c_meta r))
        (r_line (c_meta r)) (r_trace_id (c_meta r)) (r_span_id (c_meta r)) (r_kv R)
        (r_is_tombstone (c_meta r)).
Proof.
  unfold view. intros (a & Ha & (b & Hb & (c & Hc & (d & Hd & [= <-])%bind_Some)%bind_Some)%bind_Some)%bind_Some.
  done.
Qed.

Lemma view_intro m r R :
  view_str m (c_message r) = Some (r_message R) → view_str m (c_module r) = Some (r_module R) →
  view_str m (c_tag r) = Some (r_tag R) → mapM (view_kv m) (c_kv r) = Some (r_kv R) →
  R = LogRecord (r_timestamp (c_meta r)) (c_file r) (c_func r) (r_module R) (r_tag R)
        (r_message R) (r_level (c_meta r)) (r_tid (c_meta r)) (r_pid (c_meta r))
        (r_line (c_meta r)) (r_trace_id (c_meta r)) (r_span_id (c_meta r)) (r_kv R)
        (r_is_tombstone (c_meta r)) →
  view m r = Some R.
Proof.
  unfold view. intros -> -> -> -> HR. simpl. by rewrite HR at 5.
Qed.

Lemma str_in_view m b lo hi p s : str_in m b lo hi p s → view_str m p = Some s.
Proof. destruct p, s; simpl; try done. by intros (_ & _ & ->). Qed.
Lemma val_in_view m b lo hi v w : val_in m b lo hi v w → view_val m v = Some w.
Proof.
  destruct v, w; simpl; try done; try (by intros ->). intros H. by erewrite str_in_view.
Qed.
Lemma kv_in_view m b lo hi k w : kv_in m b lo hi k w → view_kv m k = Some w.
Proof.
  intros [H1 H2]. unfold view_kv. erewrite str_in_view by exact H1. simpl.
  erewrite val_in_view by exact H2. by destruct w.
Qed.

Lemma packed_view m b r R : packed m b r R → view m r = Some R.
Proof.
  intros [_ Hm _ Hmod Htag Hkv HR]. apply view_intro; try (by eapply str_in_view); [|done].
  apply mapM_Some. eapply Forall2_impl; [exact Hkv|]. apply kv_in_view.
Qed.

Lemma pack_record_ok m b dst src R :
  view m src = Some R → outside_rec b src → room m b 0 (total_bytes R) →
  ∃ m' d, pack_record m (Ptr b 0) dst src = Some (m', d) ∧ c_self d = dst ∧
    agree m m' b 0 ∧ packed m' b d R.
Proof.
  intros (Vm & Vmod & Vtag & Vkv & HR)%view_inv (Om & Omod & Otag & Okv) Hr.
  unfold total_bytes in *. unfold pack_record.
  destruct (pack_str_ok m b 0 _ _ Vm Om) as (m1 & o1 & -> & A1 & I1).
  { eapply room_agree; [exact Hr|apply agree_refl|lia]. }
  cbn [mbind option_bind fst snd Nat.add].
  destruct (pack_str_ok m1 b (str_bytes (r_message R)) (c_module src) (r_module R))
    as (m2 & o2 & -> & A2 & I2); [by erewrite view_str_agree|done| |].
  { eapply room_agree; [exact Hr|exact A1|lia]. }
  assert (A12 : agree m m2 b 0) by (eapply agree_trans; [exact A1|exact A2|lia]).
  cbn [mbind option_bind fst snd].
  destruct (pack_str_ok m2 b (str_bytes (r_message R) + str_bytes (r_module R)) (c_tag src) (r_tag R))
    as (m3 & o3 & -> & A3 & I3); [by erewrite view_str_agree|done| |].
  { eapply room_agree; [exact Hr|exact A12|lia]. }
  assert (A13 : agree m m3 b 0) by (eapply agree_trans; [exact A12|exact A3|lia]).
  cbn [mbind option_bind fst snd].
  destruct (pack_kv_ok (c_kv src) m3 b
              (str_bytes (r_message R) + str_bytes (r_module R) + str_bytes (r_tag R)) (r_kv R))
    as (m4 & kv' & -> & A4 & I4); [by erewrite view_kvs_agree|done| |].
  { eapply room_agree; [exact Hr|exact A13|lia]. }
  assert (A14 : agree m m4 b 0) by (eapply agree_trans; [exact A13|exact A4|lia]).
  assert (A34 : agree m2 m4 b (str_bytes (r_message R) + str_bytes (r_module R)))
    by (eapply agree_trans; [exact A3|exact A4|lia]).
  assert (A24 : agree m1 m4 b (str_bytes (r_message R)))
    by (eapply agree_trans; [exact A2|exact A34|lia]).
  cbn [mbind option_bind fst snd].
  eexists m4, _. split; [reflexivity|]. split; [done|]. split; [done|].
  assert (Hfirst : ∀ p, o1 = Some p → p_off p = 0%nat).
  { intros p ->. destruct (r_message R) as [s|]; [|done].
    destruct I1 as (_ & Hp & _). simpl in Hp. lia. }
  split; unfold total_bytes; cbn [c_message c_module c_tag c_kv c_meta c_file c_func].
  - eapply room_agree; [exact Hr|exact A14|lia].
  - eapply str_in_weaken; [eapply str_in_agree; [exact I1|exact A24]|lia|lia].
  - exact Hfirst.
  - eapply str_in_weaken; [eapply str_in_agree; [exact I2|exact A34]|lia|lia].
  - eapply str_in_weaken; [eapply str_in_agree; [exact I3|exact A4]|lia|lia].
  - eapply Forall2_impl; [exact I4|]. intros. eapply kv_in_weaken; [done|lia|lia].
  - exact HR.
Qed.

(** ** Moving a packed record *)

Lemma str_in_same m m' b lo hi p s :
  m_get m' b = m_get m b → str_in m b lo hi p s → str_in m' b lo hi p s.
Proof.
  intros Hb. destruct p, s; try done. intros (<- & ? & ?). repeat split; try done; try lia.
  by rewrite (load_str_ext m m').
Qed.

Lemma kv_in_same m m' b lo hi k w :
  m_get m' b = m_get m b → kv_in m b lo hi k w → kv_in m' b lo hi k w.
Proof.
  intros Hb [H1 H2]. split; [by eapply str_in_same|].
  destruct (ck_val k), (kv_val w); try done. by eapply str_in_same.
Qed.

(** The same bytes, and the fields of the struct copied. *)
Lemma packed_same m m' b r R dst :
  m_get m' b = m_get m b → packed m b r R →
  packed m' b (Crec dst (c_message r) (c_module r) (c_tag r) (c_file r) (c_func r) (c_kv r) (c_meta r)) R.
Proof.
  intros Hb [Hr Hm Hf Hmod Htag Hkv HR].
  split; cbn [c_message c_module c_tag c_kv c_meta c_file c_func]; try done; try (by eapply str_in_same).
  - unfold room. by rewrite Hb.
  - eapply Forall2_impl; [exact Hkv|]. intros. by eapply kv_in_same.
Qed.

Lemma packed_self m m' b r R : m_get m' b = m_get m b → packed m b r R → packed m' b r R.
Proof. intros Hb H. destruct r. by apply (packed_same m m' b _ R c_self0 Hb H). Qed.

Section rebase.
Context (m m' : mem) (src dst : nat).
Context (Hcopy : m_get m' (Inl dst) = m_get m (Inl src)).

Lemma rebase_ptr_ok lo hi p s :
  str_in m (Inl src) lo hi p s →
  ∃ p', rebase_ptr src dst p = Some p' ∧ str_in m' (Inl dst) lo hi p' s ∧
        p' = (λ q, Ptr (Inl dst) (p_off q)) <$> p.
Proof using Hcopy.
  destruct p as [[b o]|], s as [s|]; try done; [|intros _; by exists None].
  intros (Hb & Ho & Hl). simpl in *. subst b. rewrite decide_True by done.
  eexists. split; [reflexivity|]. split; [|done]. split; [done|]. split; [done|].
  rewrite <- Hl. unfold load_str. simpl in *. by rewrite Hcopy.
Qed.

Lemma rebase_kv_ok lo hi k w :
  kv_in m (Inl src) lo hi k w →
  ∃ k', rebase_kv src dst k = Some k' ∧ kv_in m' (Inl dst) lo hi k' w.
Proof using Hcopy.
  intros [H1 H2]. unfold rebase_kv. destruct k as [key v], w as [key' v']. simpl in *.
  destruct (rebase_ptr_ok _ _ _ _ H1) as (p' & -> & Hp & _). simpl.
  destruct v as [| | |str|], v' as [| | |str'|]; try done; simpl;
    try (eexists; split; [reflexivity|]; split; [exact Hp | exact H2]).
  destruct (rebase_ptr_ok _ _ _ _ H2) as (q' & -> & Hq & _). simpl.
  eexists. split; [reflexivity|]. by split.
Qed.

Lemma rebase_kvs_ok lo hi kv ws :
  Forall2 (kv_in m (Inl src) lo hi) kv ws →
  ∃ kv', mapM (rebase_kv src dst) kv = Some kv' ∧ Forall2 (kv_in m' (Inl dst) lo hi) kv' ws.
Proof using Hcopy.
  induction 1 as [|k w kv ws Hk _ (kv' & IH & Hkv')]; [by exists []|].
  destruct (rebase_kv_ok _ _ _ _ Hk) as (k' & Hk' & Hin). simpl. rewrite Hk'. simpl.
  rewrite IH. simpl. eexists. split; [reflexivity|]. by constructor.
Qed.

Lemma rebase_inline_ok r R :
  c_self r = src → packed m (Inl src) r R →
  ∃ r', log_record_rebase_inline dst r = Some r' ∧ c_self r' = dst ∧ packed m' (Inl dst) r' R.
Proof using Hcopy.
  intros Hself [Hr Hm Hf Hmod Htag Hkv HR]. unfold log_record_rebase_inline. rewrite Hself.
  destruct (rebase_ptr_ok _ _ _ _ Hm) as (p1 & -> & H1 & E1).
  destruct (rebase_ptr_ok _ _ _ _ Hmod) as (p2 & -> & H2 & _).
  destruct (rebase_ptr_ok _ _ _ _ Htag) as (p3 & -> & H3 & _).
  destruct (rebase_kvs_ok _ _ _ _ Hkv) as (kv' & -> & H4).
  cbn [mbind option_bind]. eexists. split; [reflexivity|]. split; [done|].
  split; cbn [c_message c_module c_tag c_kv c_meta c_file c_func]; try done.
  - unfold room. by rewrite Hcopy.
  - intros p ->. symmetry in E1. apply fmap_Some in E1 as (q & Hq & ->). simpl. by apply Hf.
Qed.
End rebase.

(** The block a live copy owns: its own [inline_buf], or the heap block [id]. *)
Definition owned_by (self id : nat) (b : block) : Prop := b = Inl self ∨ b = Ext id.

(** [self] holds a packed copy of [R], and its [inline_buf] exists. *)
Definition holds (m : mem) (id : nat) (r : crec) (R : log_record_t) : Prop :=
  (∃ d, m_get m (Inl (c_self r)) = Some d) ∧
  ((packed m (Inl (c_self r)) r R ∧ Z.of_nat (total_bytes R) <= CLOG_MAX_INLINE_SIZE ∧
      id ∉ m_heap m) ∨
   (packed m (Ext id) r R ∧ id ∈ m_heap m)).

(** What the rest of the program must leave alone while a copy waits. *)
Definition keeps (m m' : mem) (self id : nat) : Prop :=
  m_get m' (Inl self) = m_get m (Inl self) ∧ m_get m' (Ext id) = m_get m (Ext id) ∧
  (id ∈ m_heap m' ↔ id ∈ m_heap m).

Lemma keeps_refl m self id : keeps m m self id.
Proof. done. Qed.

Lemma holds_keeps m m' id r R : holds m id r R → keeps m m' (c_self r) id → holds m' id r R.
Proof.
  intros [Hd H] (K1 & K2 & K3). unfold holds. rewrite K1. split; [done|].
  destruct H as [(?&?&?)|[??]]; [left|right].
  - split; [by eapply packed_self|]. by rewrite K3.
  - split; [by eapply packed_self|]. by rewrite K3.
Qed.

Lemma packed_message m b r R s :
  r_message R = Some s → packed m b r R →
  c_message r = Some (Ptr b 0) ∧ (S (length s) ≤ total_bytes R)%nat.
Proof.
  intros Hs [Hr Hm Hf _ _ _ _]. rewrite Hs in Hm. destruct (c_message r) as [[b' o]|]; [|done].
  destruct Hm as (E & Ho & _). specialize (Hf _ eq_refl). simpl in *. subst. split; [done|lia].
Qed.

Lemma is_inline_packed m r R s self :
  r_message R = Some s → packed m (Inl self) r R → c_self r = self → log_record_is_inline r = true.
Proof.
  intros Hs Hp <-. destruct (packed_message _ _ _ _ _ Hs Hp) as [E _].
  unfold log_record_is_inline, in_inline. rewrite E. simpl. by rewrite bool_decide_true.
Qed.

Lemma is_inline_heap m r R s id :
  r_message R = Some s → packed m (Ext id) r R → log_record_is_inline r = false.
Proof.
  intros Hs Hp. destruct (packed_message _ _ _ _ _ Hs Hp) as [E _].
  unfold log_record_is_inline, in_inline. by rewrite E.
Qed.

Lemma slot_transfer_ok m dst r R s id :
  r_message R = Some s → holds m id r R →
  ∃ m' r', slot_transfer m dst r = Some (m', r') ∧ c_self r' = dst ∧ holds m' id r' R ∧
    m_heap m' = m_heap m.
Proof.
  intros Hs [[d Hd] H]. unfold slot_transfer, struct_copy. rewrite Hd. cbn [mbind option_bind].
  destruct H as [(Hp & Hn & Hid)|[Hp Hid]].
  - rewrite (is_inline_packed _ _ _ _ _ Hs Hp eq_refl).
    destruct (rebase_inline_ok m (m_set m (Inl dst) d) (c_self r) dst) with (r := r) (R := R)
      as (r' & -> & Hself & Hp'); [by rewrite m_get_set|done|done|].
    cbn [mbind option_bind]. eexists _, r'. split; [reflexivity|]. split; [done|]. split; [|done].
    split; [rewrite Hself; exists d; apply m_get_set|]. left. rewrite Hself. done.
  - rewrite (is_inline_heap _ _ _ _ _ Hs Hp).
    eexists _, _. split; [reflexivity|]. split; [done|]. split; [|done].
    split; [exists d; apply m_get_set|]. right. split; [|done].
    eapply packed_same; [|exact Hp]. done.
Qed.

Lemma free_owned_ok m r R s id :
  r_message R = Some s → holds m id r R →
  ∃ m', log_record_free_owned m r = Some (m', cleared r) ∧ m_heap m' = m_heap m ∖ {[id]} ∧
    ∀ b, b ≠ Ext id → m_get m' b = m_get m b.
Proof.
  intros Hs [_ [(Hp & Hn & Hid)|[Hp Hid]]]; unfold log_record_free_owned.
  - rewrite (is_inline_packed _ _ _ _ _ Hs Hp eq_refl).
    exists m. split; [done|]. split; [set_solver|done].
  - rewrite (is_inline_heap _ _ _ _ _ Hs Hp).
    destruct (packed_message _ _ _ _ _ Hs Hp) as [E _].
    unfold owned_block. rewrite E. simpl. rewrite decide_True by done. simpl.
    eexists. split; [reflexivity|]. split; [done|].
    intros [self|i] Hb; [done|]. simpl. apply lookup_delete_ne. congruence.
Qed.

(** ** log_record_clone *)

(** Blocks the record's strings are in exist. *)
Lemma view_str_outside m b p s : m_get m b = None → view_str m p = Some s → outside b p.
Proof.
  destruct p as [p|]; [|done]. simpl. intros Hb (t & Ht & _)%fmap_Some E.
  unfold load_str in Ht. by rewrite E, Hb in Ht.
Qed.

Lemma view_kv_outside m b k w : m_get m b = None → view_kv m k = Some w → outside_kv b k.
Proof.
  unfold view_kv. intros Hb (key & Hk & (v & Hv & _)%bind_Some)%bind_Some.
  split; [by eapply view_str_outside|]. destruct (ck_val k); try done.
  simpl in *. apply fmap_Some in Hv as (t & Ht & _). by eapply view_str_outside.
Qed.

Lemma view_outside m b r R : m_get m b = None → view m r = Some R → outside_rec b r.
Proof.
  intros Hb (H1 & H2 & H3 & H4 & _)%view_inv. repeat split; try (by eapply view_str_outside).
  apply mapM_Some in H4. clear -Hb H4. induction H4; constructor; [by eapply view_kv_outside|done].
Qed.

(** A record that points nowhere into [b] is read the same after [b] changed. *)
Lemma view_frame m m' b r R :
  (∀ b', b' ≠ b → m_get m' b' = m_get m b') → outside_rec b r →
  view m r = Some R → view m' r = Some R.
Proof.
  intros Hb (O1 & O2 & O3 & O4) (H1 & H2 & H3 & H4 & HR)%view_inv.
  assert (HS : ∀ p, outside b p → view_str m' p = view_str m p).
  { intros [p|]; [|done]. simpl. intros Hp. by rewrite (load_str_ext m) by auto. }
  apply view_intro; [by rewrite HS..| |done].
  apply mapM_Some. apply mapM_Some in H4. clear -H4 O4 HS.
  induction H4 as [|k w kv ws Hk Hkv IH]; [constructor|].
  apply Forall_cons in O4 as [[Ok Ov] O4]. constructor; [|by apply IH].
  rewrite <- Hk. unfold view_kv. rewrite HS by done. by destruct (ck_val k); simpl; rewrite ?HS.
Qed.

Lemma view_set m b d r R :
  outside_rec b r → view m r = Some R → view (m_set m b d) r = Some R.
Proof. apply view_frame. intros. by apply m_get_set_ne. Qed.

Lemma total_bytes_pos R s : r_message R = Some s → total_bytes R ≠ 0%nat.
Proof. unfold total_bytes. intros ->. simpl. lia. Qed.

Lemma clone_ok m id dst src R s buf :
  view m src = Some R → r_message R = Some s →
  m_get m (Inl (c_self src)) = Some buf → clen buf = CLOG_MAX_INLINE_SIZE →
  outside_rec (Inl dst) src → m_ext m !! id = None → id ∉ m_heap m →
  ∃ m' r', log_record_clone m (Some id) dst src = Some (m', r', 0) ∧ c_self r' = dst ∧
    holds m' id r' R ∧ view m' src = Some R ∧ m_heap m' ∖ {[id]} = m_heap m.
Proof.
  intros Hv Hs Hbuf Hlen Ho Hid Hheap. unfold log_record_clone, struct_copy.
  rewrite Hv. cbn [mbind option_bind]. rewrite Hbuf. cbn [mbind option_bind].
  rewrite decide_False by (by eapply total_bytes_pos).
  set (m1 := m_set m (Inl dst) buf).
  assert (Hv1 : view m1 src = Some R) by (by apply view_set).
  assert (Hb1 : m_get m1 (Inl dst) = Some buf) by apply m_get_set.
  destruct (Z.leb_spec (Z.of_nat (total_bytes R)) CLOG_MAX_INLINE_SIZE) as [Hn|Hn].
  - destruct (pack_record_ok m1 (Inl dst) dst src R Hv1 Ho) as (m2 & r' & -> & Hself & Hag & Hp).
    { exists buf. split; [done|]. unfold clen in Hlen. lia. }
    cbn [mbind option_bind fst snd]. exists m2, r'. split; [done|]. split; [done|].
    split; [|split; [by eapply view_frame; [apply Hag|..]|]].
    + destruct (ag_own _ _ _ _ Hag _ Hb1) as (d' & Hd' & _).
    rewrite <- Hself in Hd'. split; [by exists d'|]. left. rewrite Hself.
    split; [done|]. split; [done|]. by rewrite (ag_heap _ _ _ _ Hag).
    + rewrite (ag_heap _ _ _ _ Hag). simpl. set_solver.
  - assert (Hoe : outside_rec (Ext id) src) by (by eapply view_outside).
    set (m2 := malloc m1 id (total_bytes R)).
    assert (Hv2 : view m2 src = Some R).
    { eapply (view_set m1 (Ext id)) in Hv1; [exact Hv1|done]. }
    destruct (pack_record_ok m2 (Ext id) dst src R Hv2 Hoe) as (m3 & r' & -> & Hself & Hag & Hp).
    { exists (replicate (total_bytes R) 0). split; [apply lookup_insert_eq|].
      rewrite length_replicate. lia. }
    cbn [mbind option_bind fst snd]. exists m3, r'. split; [done|]. split; [done|].
    split; [|split; [by eapply view_frame; [apply Hag|..]|]].
    + split; [exists buf; rewrite Hself, (ag_other _ _ _ _ Hag) by done; exact Hb1|].
    right. split; [done|]. rewrite (ag_heap _ _ _ _ Hag). subst m2. simpl. set_solver.
    + rewrite (ag_heap _ _ _ _ Hag). subst m2. simpl. set_solver.
Qed.

(** ** Properties *)

(** C4: a record handed to the asynchronous queue arrives intact and leaves no
    memory behind. For every record with a message, [log_record_clone] into
    the producer's stack copy succeeds; whatever the program does meanwhile
    to any other memory (the caller's strings freed, the stack copy popped,
    the ring slot reused), the copy into the ring slot and the copy out of it
    succeed without undefined behaviour, the worker's copy reads as the record
    that was logged, and [log_record_free_owned] frees exactly the block the
    clone allocated, or nothing when the strings were inline. *)
Theorem async_record_handoff m id owned slot batch src R buf :
  view m src = Some R → r_message R ≠ None →
  m_get m (Inl (c_self src)) = Some buf → clen buf = CLOG_MAX_INLINE_SIZE →
  outside_rec (Inl owned) src → m_ext m !! id = None → id ∉ m_heap m →
  ∃ m1 r1, log_record_clone m (Some id) owned src = Some (m1, r1, 0) ∧
  ∀ m1', keeps m1 m1' owned id →
  ∃ m2 r2, slot_transfer m1' slot r1 = Some (m2, r2) ∧
  ∀ m2', keeps m2 m2' slot id →
  ∃ m3 r3, slot_transfer m2' batch r2 = Some (m3, r3) ∧
  ∀ m3', keeps m3 m3' batch id →
    view m3' r3 = Some R ∧
    ∃ m4, log_record_free_owned m3' r3 = Some (m4, cleared r3) ∧ m_heap m4 = m_heap m3' ∖ {[id]}.
Proof.
  intros Hv Hm Hbuf Hlen Ho Hid Hheap. destruct (r_message R) as [s|] eqn:Hs; [clear Hm|done].
  destruct (clone_ok m id owned src R s buf) as (m1 & r1 & H1 & S1 & Ho1 & _); try done.
  exists m1, r1. split; [done|]. intros m1' K1. rewrite <- S1 in K1.
  destruct (slot_transfer_ok m1' slot r1 R s id Hs) as (m2 & r2 & H2 & S2 & Ho2 & _);
    [by eapply holds_keeps|].
  exists m2, r2. split; [done|]. intros m2' K2. rewrite <- S2 in K2.
  destruct (slot_transfer_ok m2' batch r2 R s id Hs) as (m3 & r3 & H3 & S3 & Ho3 & _);
    [by eapply holds_keeps|].
  exists m3, r3. split; [done|]. intros m3' K3. rewrite <- S3 in K3.
  assert (Ho3' : holds m3' id r3 R) by (by eapply holds_keeps).
  split.
  - destruct Ho3' as [_ [(Hp & _)|[Hp _]]]; by eapply packed_view.
  - destruct (free_owned_ok _ _ _ _ _ Hs Ho3') as (m4 & H4 & Hh & _). by exists m4.
Qed.

(** A caller's record with a key-value pair, inline ([n] small) or on the heap. *)
Definition test_mem (n : nat) : mem :=
  Mem {[1%nat := replicate 256 0]}
      {[1%nat := replicate n 97 ++ [0]; 2%nat := B "user" ++ [0]; 3%nat := B "bob" ++ [0]]} ∅.
Definition test_crec : crec :=
  Crec 1 (Some (Ptr (Ext 1) 0)) None (Some (Ptr (Ext 2) 1)) (Some (B "a.c")) None
       [CrecKv (Some (Ptr (Ext 2) 0)) (V_STR (Some (Ptr (Ext 3) 0))); CrecKv None (V_INT 7)]
       (LogRecord 1 None None None None None 2 3 4 5 [] [] [] false).
Definition test_rec (n : nat) : log_record_t :=
  LogRecord 1 (Some (B "a.c")) None None (Some (B "ser")) (Some (replicate n 97)) 2 3 4 5 [] []
    [ClogKv (Some (B "user")) (CLOG_KV_TYPE_STR (Some (B "bob"))); ClogKv None (CLOG_KV_TYPE_INT 7)]
    false.

Lemma async_record_handoff_witness :
  ∃ m1 r1, log_record_clone (test_mem 300) (Some 9%nat) 5 test_crec = Some (m1, r1, 0) ∧
  ∀ m1', keeps m1 m1' 5 9 →
  ∃ m2 r2, slot_transfer m1' 6 r1 = Some (m2, r2) ∧
  ∀ m2', keeps m2 m2' 6 9 →
  ∃ m3 r3, slot_transfer m2' 7 r2 = Some (m3, r3) ∧
  ∀ m3', keeps m3 m3' 7 9 →
    view m3' r3 = Some (test_rec 300) ∧
    ∃ m4, log_record_free_owned m3' r3 = Some (m4, cleared r3) ∧ m_heap m4 = m_heap m3' ∖ {[9%nat]}.
Proof.
  apply (async_record_handoff (test_mem 300) 9 5 6 7 test_crec (test_rec 300) (replicate 256 0)).
  - vm_compute. reflexivity.
  - discriminate.
  - reflexivity.
  - reflexivity.
  - repeat split; try discriminate. repeat constructor; discriminate.
  - reflexivity.
  - apply not_elem_of_empty.
Defined.

(** When the queue refuses a record (full, closed), the fallback is safe:
    after [log_record_clone] and [log_record_free_owned] of the unused copy,
    the heap is what it was and the caller's record, which is dispatched
    instead, still reads the same; when [malloc] fails the clone reports -1
    and the caller's record is equally intact. *)
Theorem async_fallback_safe m id owned src R buf :
  view m src = Some R → r_message R ≠ None →
  m_get m (Inl (c_self src)) = Some buf → clen buf = CLOG_MAX_INLINE_SIZE →
  outside_rec (Inl owned) src → m_ext m !! id = None → id ∉ m_heap m →
  (∃ m1 r1 m2, log_record_clone m (Some id) owned src = Some (m1, r1, 0) ∧
     log_record_free_owned m1 r1 = Some (m2, cleared r1) ∧
     m_heap m2 = m_heap m ∧ view m2 src = Some R) ∧
  (Z.of_nat (total_bytes R) > CLOG_MAX_INLINE_SIZE →
     ∃ m1 r1, log_record_clone m None owned src = Some (m1, r1, -1) ∧
       m_heap m1 = m_heap m ∧ view m1 src = Some R).
Proof.
  intros Hv Hm Hbuf Hlen Ho Hid Hheap. destruct (r_message R) as [s|] eqn:Hs; [clear Hm|done].
  split.
  - destruct (clone_ok m id owned src R s buf) as (m1 & r1 & H1 & S1 & Ho1 & Hv1 & Hh1); try done.
    destruct (free_owned_ok _ _ _ _ _ Hs Ho1) as (m2 & H2 & Hh & Hsame).
    exists m1, r1, m2. split; [done|]. split; [done|]. split.
    + by rewrite Hh.
    + eapply view_frame; [exact Hsame| |done]. by eapply view_outside.
  - intros Hn. unfold log_record_clone, struct_copy. rewrite Hv. cbn [mbind option_bind].
    rewrite Hbuf. cbn [mbind option_bind]. rewrite decide_False by (by eapply total_bytes_pos).
    destruct (Z.leb_spec (Z.of_nat (total_bytes R)) CLOG_MAX_INLINE_SIZE); [lia|].
    eexists _, _. split; [reflexivity|]. split; [done|]. by apply view_set.
Qed.

Lemma async_fallback_safe_witness :
  (∃ m1 r1 m2, log_record_clone (test_mem 300) (Some 9%nat) 5 test_crec = Some (m1, r1, 0) ∧
     log_record_free_owned m1 r1 = Some (m2, cleared r1) ∧
     m_heap m2 = ∅ ∧ view m2 test_crec = Some (test_rec 300)) ∧
  (Z.of_nat (total_bytes (test_rec 300)) > CLOG_MAX_INLINE_SIZE →
     ∃ m1 r1, log_record_clone (test_mem 300) None 5 test_crec = Some (m1, r1, -1) ∧
       m_heap m1 = ∅ ∧ view m1 test_crec = Some (test_rec 300)).
Proof.
  apply (async_fallback_safe (test_mem 300) 9 5 test_crec (test_rec 300) (replicate 256 0)).
  - vm_compute. reflexivity.
  - discriminate.
  - reflexivity.
  - reflexivity.
  - repeat split; try discriminate. repeat constructor; discriminate.
  - reflexivity.
  - apply not_elem_of_empty.
Defined.

(** The message decides alone whether a record counts as inline: a record
    without one keeps, in the ring slot, pointers into the producer's stack
    copy, and freeing it frees a pointer [malloc] never returned. *)
Definition no_message_crec : crec :=
  Crec 1 None (Some (Ptr (Ext 2) 0)) None None None [] (c_meta test_crec).

Example no_message_not_rebased :
  match log_record_clone (test_mem 3) (Some 9%nat) 5 no_message_crec with
  | Some (m1, r1, 0) =>
      match slot_transfer m1 6 r1 with
      | Some (m2, r2) =>
          c_module r2 = Some (Ptr (Inl 5) 0) ∧ log_record_free_owned m2 r2 = None
      | None => False
      end
  | _ => False
  end.
Proof. vm_compute. done. Qed.
