(* ===== verification/Async.v ===== *)
(** * The asynchronous mode comes and goes (core/async.c)

    Starting, stopping and forking: [log_async_init_for], [log_async_shutdown_for] and
    [log_async_atfork_child_for]. What the worker does while it runs is AsyncWorker.v. *)
From S2P Require Import Prelude Record Queue.

Local Open Scope Z_scope.

(** ** Lifecycle

    [logger->queue] and [logger->async_running]. What the system answers is an
    argument: [alloc] and [sems] for [mpsc_queue_create], [thread] for
    [clog_thread_create]. *)

Record async_t := AsyncT { l_queue : option Z; l_running : bool }.

(** [mpsc_queue_create]: the capacity of the new queue, [None] for NULL. *)
Definition mpsc_queue_create (capacity : Z) (alloc sems : bool) : option Z :=
  if alloc then
    cap ← next_pow2 63 capacity;
    if sems then Some cap else None
  else None.

Definition log_async_init_for (l : async_t) (queue_size : Z) (alloc sems thread : bool) : async_t * Z :=
  if queue_size <=? 0 then (l, -1)
  else if l_running l then (l, 0)
  else match mpsc_queue_create queue_size alloc sems with
       | None => (AsyncT None (l_running l), -1)
       | Some cap => if thread then (AsyncT (Some cap) true, 0) else (AsyncT None false, -1)
       end.

Definition log_async_is_running_for (l : async_t) : bool :=
  l_running l && match l_queue l with Some _ => true | None => false end.

Definition log_async_shutdown_for (l : async_t) : async_t :=
  if negb (log_async_is_running_for l) then l else AsyncT None false.

Lemma next_pow2_total n : 0 < n <= 2 ^ 63 → ∃ cap, next_pow2 63 n = Some cap ∧ n <= cap.
Proof.
  intros Hn. unfold next_pow2. destruct (Z.leb_spec n 1); [exists 1; split; [done|lia]|].
  destruct (next_pow2_loop_spec 63 1 n) as (j & Hj & H1 & H2); [lia|lia|simpl; lia|].
  exists (2 ^ j). split; [exact H1|lia].
Qed.

(** The new queue has room for every record the configuration asked for, and
    initialisation either starts a worker on it or leaves nothing behind. *)
Lemma log_async_init_for_spec l n alloc sems thread l' ret :
  is_i32 n → l_running l = false →
  log_async_init_for l n alloc sems thread = (l', ret) →
  (ret = 0 ∧ log_async_is_running_for l' = true ∧ ∃ cap, l_queue l' = Some cap ∧ n <= cap) ∨
  (ret = -1 ∧ log_async_is_running_for l' = false).
Proof.
  intros Hn Hl. unfold log_async_init_for, mpsc_queue_create. rewrite Hl.
  destruct (Z.leb_spec n 0).
  { intros [= <- <-]. right. unfold log_async_is_running_for. by rewrite Hl. }
  destruct alloc, sems; simpl; try (intros [= <- <-]; by right).
  - destruct (next_pow2_total n) as (cap & E & Hc); [unfold is_i32 in Hn; lia|]. rewrite E. simpl.
    destruct thread; intros [= <- <-]; [left|by right]. repeat split. by exists cap.
  - destruct (next_pow2 63 n); simpl; intros [= <- <-]; by right.
Qed.

(** [log_async_atfork_child_for] on the queue: positions, flags and semaphores
    are reset; the slots keep what the parent wrote. *)
Definition log_async_atfork_child_for {A} (q : qstate A) : qstate A :=
  QState (q_cap q) (q_slots q) 0 0 false false 0 (q_cap q) (q_drained q) (q_prods q) C_head1 K_idle
         (q_log q) (q_out q) (q_rets q) (q_abandoned q) (q_missed q).

(** The sequence numbers of the parent's slots are still valid for the child:
    its worker reads the parent's record 11 again, and skips the child's record
    22, whose producer had claimed the position but not written it. *)
Example atfork_replays_parent_record :
  let parent := run_schedule (q_init 2 1)
                  ([StartPut 0 (Op 11 false)] ++ repeat (Prod 0) 9 ++ [StartBatch] ++ repeat (Cons 8) 12) in
  let child := run_schedule (log_async_atfork_child_for parent)
                 ([StartPut 0 (Op 22 false)] ++ repeat (Prod 0) 5 ++ repeat (Cons 8) 9 ++
                  repeat (Prod 0) 5) in
  q_out parent = [Some 11] ∧ q_out child = [Some 11; Some 11] ∧
  q_rets child = q_rets parent ++ [(22, 0)] ∧ q_tail child = q_head child.
Proof. vm_compute. done. Qed.
