(* ===== verification/Dispatcher.v ===== *)
(** * The dispatcher (core/dispatcher.c)

    Fan-out of a formatted line to the registered sinks, and the life of the
    sink objects: registration, removal, initialisation from the configuration,
    and the build, commit, destroy protocol of a reload.  Sinks are objects in
    a store and the dispatcher's array holds pointers to them, so that the use
    of a destroyed sink, a double destruction and a leak are visible.  A sink's
    callbacks are a type class, its implementations are other components. *)
From S2P Require Import Prelude Record Config FmtBuf FmtTime FmtJson FmtOtel FmtText.

Local Open Scope Z_scope.

(** The callbacks of [log_sink_t]; [destroy] ends the object's life and is
    part of the store. *)
Class Sink (S : Type) := {
  sink_write : S → cstr → S;
  sink_flush : S → S;
  sink_atfork_child : S → S
}.

Section dispatcher.
Context {S : Type} `{!Sink S}.

(** [sk_color]: [console_sink_is_color_enabled]; [sk_atfork]: the callback is
    not NULL. *)
Record log_sink_t := LogSink {
  sk_min_level : Z; sk_color : bool; sk_atfork : bool; sk_state : S
}.

#[local] Abbreviation store := (gmap nat log_sink_t).

(** A [log_sink_t *]; [None] is NULL. *)
Definition sink_ptr := option nat.

Record dispatcher := Dispatcher {
  d_store : store;
  d_next : nat;                     (* the allocator: no live sink is at or above it *)
  d_sinks : list sink_ptr           (* sinks[0 .. sink_count - 1] *)
}.

Definition with_sinks (d : dispatcher) (l : list sink_ptr) : dispatcher :=
  Dispatcher (d_store d) (d_next d) l.
Definition with_store (d : dispatcher) (m : store) : dispatcher :=
  Dispatcher m (d_next d) (d_sinks d).

(** Run a callback on a live sink; [None] is the use of a dead one. *)
Definition sink_call (m : store) (p : nat) (f : S → S) : option store :=
  k ← m !! p;
  Some (<[p := LogSink (sk_min_level k) (sk_color k) (sk_atfork k) (f (sk_state k))]> m).

Definition sink_destroy (m : store) (p : nat) : option store :=
  _ ← m !! p; Some (delete p m).

(** [for (i ...) if (sinks[i]) body (sinks[i])]. *)
Fixpoint for_each (body : store → nat → option store) (m : store) (l : list sink_ptr) : option store :=
  match l with
  | [] => Some m
  | None :: l' => for_each body m l'
  | Some p :: l' => m' ← body m p; for_each body m' l'
  end.

(** ** Registration *)

Definition log_dispatcher_add_sink_for (d : dispatcher) (sink : sink_ptr) (realloc : bool) : dispatcher * Z :=
  match sink with
  | None => (d, -1)
  | Some p => if realloc then (with_sinks d (d_sinks d ++ [Some p]), 0) else (d, -1)
  end.

(** The first entry equal to [sink] is taken out, the rest moves up. *)
Fixpoint remove_first (sink : nat) (l : list sink_ptr) : list sink_ptr :=
  match l with
  | [] => []
  | q :: l' => if decide (q = Some sink) then l' else q :: remove_first sink l'
  end.

Definition log_dispatcher_remove_sink_for (d : dispatcher) (sink : sink_ptr) : dispatcher * Z :=
  match sink with
  | None => (d, -1)
  | Some p => (with_sinks d (remove_first p (d_sinks d)), 0)
  end.

(** ** Dispatch *)

Definition esc : cstr := [27].
Definition ansi_codes : list cstr :=
  [esc ++ B "[30m"; esc ++ B "[30m"; esc ++ B "[31m"; esc ++ B "[32m"; esc ++ B "[33m";
   esc ++ B "[34m"; esc ++ B "[35m"; esc ++ B "[36m"; esc ++ B "[37m"].
Definition reset_code : cstr := esc ++ B "[0m".

(** [colored_buf] when it was filled completely. *)
Definition colored_line (enabled : bool) (lvl : log_level_t) (formatted : cstr) : option cstr :=
  if enabled then
    let color := color_int (get_log_color lvl) in
    let idx := if (color <? length ansi_codes)%nat then color else O in
    let text := (ansi_codes !!! idx) ++ formatted ++ reset_code in
    if (clen text >? 0) && (clen text <? CLOG_MAX_COLORED_SIZE) then Some text else None
  else None.

(** The [write] calls one sink gets for [w]: one when the line and its newline
    fit the staging buffer, otherwise the line and the newline apart. *)
Definition line_chunks (is_colored : bool) (w : cstr) : list cstr :=
  if (clen w >? 0) && negb (bool_decide (last w = Some 10)) then
    let cap := if is_colored then CLOG_MAX_COLORED_SIZE else CLOG_MAX_FORMATTED_SIZE in
    if (clen w + 1 <? cap) && (clen w + 1 <? CLOG_MAX_FORMATTED_SIZE + 1)
    then [w ++ [10]] else [w; [10]]
  else [w].

(** What sink [k] is sent. *)
Definition chunks_for (plain : cstr) (colored : option cstr) (k : log_sink_t) : list cstr :=
  match colored with
  | Some c => if sk_color k then line_chunks true c else line_chunks false plain
  | None => line_chunks false plain
  end.

Definition dispatch_one (lvl : log_level_t) (plain : cstr) (colored : option cstr) (m : store) (p : nat)
    : option store :=
  k ← m !! p;
  if lvl <? sk_min_level k then Some m
  else sink_call m p (λ st, foldl sink_write st (chunks_for plain colored k)).

Section dispatch.
Context `{P : Platform}.

Definition log_dispatcher_dispatch_for (tp : option cstr) (cfg : log_config_t) (fc : fmt_config)
    (th : fmt_thread) (d : dispatcher) (record : log_record_t)
    : option (fmt_thread * log_record_t * dispatcher * Z) :=
  if r_level record <? level cfg then Some (th, record, d, 0)
  else
    let '(th, record, (buf, len)) := log_formatter_format_for tp th fc record CLOG_MAX_FORMATTED_SIZE in
    if len <=? 0 then Some (th, record, d, -1)
    else
      let colored := colored_line (color cfg) (r_level record) buf in
      m ← for_each (dispatch_one (r_level record) (take (Z.to_nat len) buf) colored) (d_store d) (d_sinks d);
      Some (th, record, with_store d m, 0).
End dispatch.

(** ** Sinks from the configuration *)

Inductive sink_kind :=
  | K_console (stderr : bool) (use_color : bool)
  | K_file (path : cstr) (max_size backups : Z)
  | K_socket (host : cstr) (port : Z) (tls : bool) (ca : cstr) (skip : bool)
  | K_socket_async (host : cstr) (port : Z) (tls : bool) (ca : cstr) (skip : bool)
                   (ring backoff_min backoff_max timeout : Z).

(** What the sink factories and the plugin loader answer: [None] is NULL, and
    the loader is given the most sinks it may return. *)
Record factories := Factories {
  make : sink_kind → option log_sink_t;
  plugins : Z → list log_sink_t
}.

(** A new object. *)
Definition alloc_sink (st : store * nat * list sink_ptr) (k : log_sink_t) : store * nat * list sink_ptr :=
  let '(m, n, l) := st in (<[n := k]> m, Datatypes.S n, l ++ [Some n]).

Definition alloc_all (st : store * nat * list sink_ptr) (ks : list log_sink_t) : store * nat * list sink_ptr :=
  foldl alloc_sink st ks.

(** The kinds [create_sinks_from_cfg] asks for, in order. *)
Definition configured (cfg : log_config_t) : list sink_kind :=
  (if negb (console_enable cfg =? 0)
   then [K_console (negb (console_stderr cfg =? 0)) (color cfg)] else []) ++
  (if negb (file_enable cfg =? 0) && (clen (file_path cfg) >? 0)
   then [K_file (file_path cfg) (file_max_size cfg) (file_backups cfg)] else []) ++
  (if negb (socket_enable cfg =? 0) && (clen (socket_host cfg) >? 0)
   then [if socket_async cfg
         then K_socket_async (socket_host cfg) (socket_port cfg) (socket_tls cfg) (socket_tls_ca_file cfg)
                (socket_tls_skip_verify cfg) (socket_ring_capacity cfg) (socket_backoff_min_ms cfg)
                (socket_backoff_max_ms cfg) (socket_connect_timeout_ms cfg)
         else K_socket (socket_host cfg) (socket_port cfg) (socket_tls cfg) (socket_tls_ca_file cfg)
                (socket_tls_skip_verify cfg)] else []).

Definition create_sinks_from_cfg (f : factories) (cfg : log_config_t) (m : store) (n : nat)
    : store * nat * list sink_ptr :=
  alloc_all (m, n, []) (omap (make f) (configured cfg)).

Definition log_dispatcher_destroy_for (d : dispatcher) : option dispatcher :=
  m ← for_each sink_destroy (d_store d) (d_sinks d);
  Some (Dispatcher m (d_next d) []).

(** [log_dispatcher_init_for]: the local array holds 8 pointers. *)
Definition log_dispatcher_init_for (f : factories) (cfg : log_config_t) (alloc : bool) (d : dispatcher)
    : option (dispatcher * Z) :=
  let '(m, n, sinks) := create_sinks_from_cfg f cfg (d_store d) (d_next d) in
  let '(m, n, made) := alloc_all (m, n, []) (take 8 (plugins f CLOG_MAX_PLUGINS)) in
  let sinks := sinks ++ take (8 - length sinks) made in
  match sinks with
  | [] => Some (Dispatcher m n (d_sinks d), -1)
  | _ =>
      d' ← log_dispatcher_destroy_for (Dispatcher m n (d_sinks d));
      if alloc then Some (with_sinks d' sinks, 0)
      else m' ← for_each sink_destroy (d_store d') sinks; Some (with_store d' m', -1)
  end.

(** ** The reload snapshot; [snap] is the array it owns. *)

Definition log_dispatcher_build_snapshot_for (f : factories) (cfg : log_config_t) (alloc : bool)
    (d : dispatcher) (snap : list sink_ptr) : option (dispatcher * list sink_ptr * Z) :=
  let '(m, n, sinks) := create_sinks_from_cfg f cfg (d_store d) (d_next d) in
  let max := Z.min (16 - clen sinks) CLOG_MAX_PLUGINS in
  let '(m, n, made) := alloc_all (m, n, []) (if max >? 0 then take (Z.to_nat max) (plugins f max) else []) in
  let sinks := sinks ++ take (16 - length sinks) made in
  match sinks with
  | [] => Some (Dispatcher m n (d_sinks d), snap, -1)
  | _ =>
      if alloc then Some (Dispatcher m n (d_sinks d), sinks, 0)
      else m' ← for_each sink_destroy m sinks; Some (Dispatcher m' n (d_sinks d), snap, -1)
  end.

Definition log_dispatcher_destroy_snapshot_for (d : dispatcher) (snap : list sink_ptr)
    : option (dispatcher * list sink_ptr) :=
  m ← for_each sink_destroy (d_store d) snap; Some (with_store d m, []).

Definition log_dispatcher_commit_snapshot_for (d : dispatcher) (snap : list sink_ptr)
    : option (dispatcher * list sink_ptr) :=
  let old := d_sinks d in
  let d := with_sinks d snap in
  m ← for_each sink_destroy (d_store d) old; Some (with_store d m, []).

Definition log_dispatcher_flush_for (d : dispatcher) : option dispatcher :=
  m ← for_each (λ m p, sink_call m p sink_flush) (d_store d) (d_sinks d); Some (with_store d m).

Definition log_dispatcher_atfork_child_for (d : dispatcher) : option dispatcher :=
  m ← for_each (λ m p, k ← m !! p; if sk_atfork k then sink_call m p sink_atfork_child else Some m)
        (d_store d) (d_sinks d);
  Some (with_store d m).

(** ** The loop over the sinks *)

Definition ptrs (l : list sink_ptr) : list nat := omap id l.

Lemma ptrs_app l k : ptrs (l ++ k) = ptrs l ++ ptrs k.
Proof. apply omap_app. Qed.
Lemma ptrs_some l : ptrs (map Some l) = l.
Proof. induction l as [|p l IH]; simpl; [done|]. by rewrite IH. Qed.
Lemma elem_of_ptrs p l : p ∈ ptrs l ↔ Some p ∈ l.
Proof. unfold ptrs. rewrite list_elem_of_omap. split; [by intros (x & ? & [= ->])|by exists (Some p)]. Qed.

(** A body that maps each live sink by [g]. *)
Lemma for_each_map body g l : ∀ m,
  (∀ m p k, m !! p = Some k → body m p = Some (<[p := g k]> m)) →
  NoDup (ptrs l) → (∀ p, p ∈ ptrs l → is_Some (m !! p)) →
  ∃ m', for_each body m l = Some m' ∧
    ∀ q, m' !! q = if decide (q ∈ ptrs l) then g <$> m !! q else m !! q.
Proof.
  induction l as [|[p|] l IH]; intros m Hb Hnd Hlive; cbn [for_each ptrs omap] in *.
  - exists m. split; [done|]. intros q. by rewrite decide_False by apply not_elem_of_nil.
  - apply NoDup_cons in Hnd as [Hp Hnd]. destruct (Hlive p) as [k Hk]; [by left|].
    rewrite (Hb m p k Hk). cbn [mbind option_bind].
    destruct (IH (<[p := g k]> m) Hb Hnd) as (m' & -> & Hm').
    { intros q Hq. destruct (decide (q = p)) as [->|]; [by rewrite lookup_insert_eq|].
      rewrite lookup_insert_ne by done. apply Hlive. by right. }
    exists m'. split; [done|]. intros q. rewrite Hm'. destruct (decide (q = p)) as [->|Hqp].
    + rewrite decide_False by done. rewrite decide_True by (by left).
      by rewrite lookup_insert_eq, Hk.
    + rewrite lookup_insert_ne by done. destruct (decide (q ∈ ptrs l)).
      * by rewrite decide_True by (by right).
      * rewrite decide_False; [done|]. by intros [->|?]%elem_of_cons.
  - by apply IH.
Qed.

Lemma dispatch_one_map lvl plain colored m p k :
  m !! p = Some k →
  dispatch_one lvl plain colored m p =
  Some (<[p := if lvl <? sk_min_level k then k
               else LogSink (sk_min_level k) (sk_color k) (sk_atfork k)
                      (foldl sink_write (sk_state k) (chunks_for plain colored k))]> m).
Proof.
  intros Hk. unfold dispatch_one, sink_call. rewrite Hk. simpl.
  destruct (lvl <? sk_min_level k); simpl; [|done]. by rewrite insert_id.
Qed.

(** ** Lines *)

(** The line as it must appear in every output. *)
Definition terminated (w : cstr) : cstr := if bool_decide (last w = Some 10) then w else w ++ [10].

Lemma line_chunks_spec b w :
  w ≠ [] → concat (line_chunks b w) = terminated w ∧
  (clen w < CLOG_MAX_FORMATTED_SIZE - 1 → length (line_chunks b w) = 1%nat).
Proof.
  intros Hw. unfold line_chunks, terminated.
  assert ((clen w >? 0) = true) as -> by (destruct w; [done|rewrite clen_cons; pose proof (clen_nonneg w); lia]).
  destruct (bool_decide (last w = Some 10)); simpl; [by rewrite app_nil_r|].
  unfold CLOG_MAX_COLORED_SIZE, CLOG_MAX_FORMATTED_SIZE. split.
  - by destruct (_ && _); simpl; rewrite ?app_nil_r.
  - intros Hl. assert ((clen w + 1 <? (if b then 16384 else 8192)) && (clen w + 1 <? 8192 + 1) = true) as ->;
      [|done]. apply andb_true_iff. rewrite !Z.ltb_lt. destruct b; lia.
Qed.

Lemma colored_line_nonempty e lvl f c : colored_line e lvl f = Some c → c ≠ [].
Proof.
  unfold colored_line. destruct e; [|done]. generalize (ansi_codes !!! if (color_int (get_log_color lvl) <? length ansi_codes)%nat then color_int (get_log_color lvl) else O).
  intros x. destruct (_ && _); [|done]. intros [= <-] [_ [_ E]%app_eq_nil]%app_eq_nil. done.
Qed.

(** ** Ownership *)

(** The live sinks of the store are those of [T], each once, below [n]. *)
Definition owns (m : store) (n : nat) (T : list nat) : Prop :=
  NoDup T ∧ (∀ p, is_Some (m !! p) ↔ p ∈ T) ∧ (∀ p, p ∈ T → (p < n)%nat).

Lemma owns_perm m n T T' : T ≡ₚ T' → owns m n T → owns m n T'.
Proof.
  intros HT (H1 & H2 & H3). split; [by rewrite <- HT|]. split; intros p.
  - by rewrite H2, HT.
  - rewrite <- HT. apply H3.
Qed.

Lemma owns_alloc_all ks : ∀ m n l T,
  owns m n T →
  ∃ m' n' new, alloc_all (m, n, l) ks = (m', n', l ++ map Some new) ∧
    length new = length ks ∧ owns m' n' (T ++ new).
Proof.
  induction ks as [|k ks IH]; intros m n l T (H1 & H2 & H3); cbn [alloc_all foldl alloc_sink].
  - exists m, n, []. simpl. rewrite !app_nil_r. done.
  - destruct (IH (<[n := k]> m) (Datatypes.S n) (l ++ [Some n]) (T ++ [n])) as (m' & n' & new & E & Hl & Ho).
    + assert (n ∉ T) by (intros Hn; apply H3 in Hn; lia). split_and!.
      * apply NoDup_app. split_and!; [done| |apply NoDup_singleton].
        intros x Hx ->%list_elem_of_singleton. done.
      * intros p. rewrite elem_of_app, list_elem_of_singleton.
        destruct (decide (p = n)) as [->|Hp].
        -- rewrite lookup_insert_eq. split; [by right|by eexists].
        -- rewrite lookup_insert_ne by done. rewrite H2. tauto.
      * intros p [Hp| ->%list_elem_of_singleton]%elem_of_app; [|lia]. apply H3 in Hp. lia.
    + unfold alloc_all in E. rewrite E. exists m', n', (n :: new). simpl. rewrite <- app_assoc. simpl.
      split; [done|]. split; [by rewrite Hl|]. by rewrite <- app_assoc in Ho.
Qed.

Lemma owns_destroy l : ∀ m n T,
  owns m n (ptrs l ++ T) → ∃ m', for_each sink_destroy m l = Some m' ∧ owns m' n T.
Proof.
  induction l as [|[p|] l IH]; intros m n T Ho; cbn [for_each].
  - by exists m.
  - destruct Ho as (H1 & H2 & H3). change (ptrs (Some p :: l)) with (p :: ptrs l) in *.
    cbn [app] in *. apply NoDup_cons in H1 as [Hp H1].
    destruct (H2 p) as [_ [k Hk]]; [by left|]. 
    assert (E : sink_destroy m p = Some (delete p m)) by (unfold sink_destroy; by rewrite Hk). rewrite E.
    cbn [mbind option_bind]. apply IH. split_and!; [done| |].
    + intros q. destruct (decide (q = p)) as [->|Hq].
      * rewrite lookup_delete_eq. split; [by intros [? ?]|done].
      * rewrite lookup_delete_ne by done. rewrite H2, elem_of_cons. tauto.
    + intros q Hq. apply H3. by right.
  - by apply IH.
Qed.

(** A loop of callbacks keeps the objects. *)
Lemma owns_calls body g l m n T :
  (∀ m p k, m !! p = Some k → body m p = Some (<[p := g k]> m)) →
  owns m n T → NoDup (ptrs l) → (∀ p, p ∈ ptrs l → p ∈ T) →
  ∃ m', for_each body m l = Some m' ∧ owns m' n T.
Proof.
  intros Hb (H1 & H2 & H3) Hnd Hin.
  destruct (for_each_map body g l m Hb Hnd) as (m' & E & Hm'); [intros p Hp; by apply H2, Hin|].
  exists m'. split; [done|]. split_and!; [done| |done].
  intros p. rewrite Hm'. destruct (decide (p ∈ ptrs l)); [by rewrite fmap_is_Some|done].
Qed.

(** ** The protocol *)

(** [w_user]: sinks the application holds; [w_leaked]: objects nobody points to. *)
Record world := World {
  w_disp : dispatcher; w_snap : list sink_ptr; w_user : list nat; w_leaked : list nat
}.

Inductive dop :=
  | O_create (k : log_sink_t) | O_release (p : nat)
  | O_add (p : nat) (realloc : bool) | O_remove (p : nat)
  | O_init (f : factories) (cfg : log_config_t) (alloc : bool)
  | O_build (f : factories) (cfg : log_config_t) (alloc : bool)
  | O_commit | O_drop | O_destroy | O_flush | O_atfork
  | O_dispatch (lvl : log_level_t) (plain : cstr) (colored : option cstr).

(** What the interface asks of the caller: a sink is added or released by its
    owner, and one snapshot is pending at a time. *)
Definition allowed (w : world) (o : dop) : Prop :=
  match o with
  | O_release p | O_add p _ => p ∈ w_user w
  | O_build _ _ _ => w_snap w = []
  | _ => True
  end.

(** The plugin sinks [log_dispatcher_init_for] created and did not keep. *)
Definition init_leak (f : factories) (cfg : log_config_t) (d : dispatcher) : list nat :=
  let '(m, n, sinks) := create_sinks_from_cfg f cfg (d_store d) (d_next d) in
  let '(_, _, made) := alloc_all (m, n, []) (take 8 (plugins f CLOG_MAX_PLUGINS)) in
  ptrs (drop (8 - length sinks) made).

Definition remove_nat (p : nat) (l : list nat) : list nat := filter (λ q, q ≠ p) l.

Definition wexec (w : world) (o : dop) : option world :=
  let d := w_disp w in
  match o with
  | O_create k =>
      Some (World (Dispatcher (<[d_next d := k]> (d_store d)) (Datatypes.S (d_next d)) (d_sinks d))
                  (w_snap w) (w_user w ++ [d_next d]) (w_leaked w))
  | O_release p =>
      m ← sink_destroy (d_store d) p;
      Some (World (with_store d m) (w_snap w) (remove_nat p (w_user w)) (w_leaked w))
  | O_add p realloc =>
      let '(d', ret) := log_dispatcher_add_sink_for d (Some p) realloc in
      Some (World d' (w_snap w) (if ret =? 0 then remove_nat p (w_user w) else w_user w) (w_leaked w))
  | O_remove p =>
      let '(d', _) := log_dispatcher_remove_sink_for d (Some p) in
      Some (World d' (w_snap w)
              (if decide (Some p ∈ d_sinks d) then w_user w ++ [p] else w_user w) (w_leaked w))
  | O_init f cfg alloc =>
      x ← log_dispatcher_init_for f cfg alloc d;
      Some (World (fst (x : dispatcher * Z)) (w_snap w) (w_user w) (w_leaked w ++ init_leak f cfg d))
  | O_build f cfg alloc =>
      x ← log_dispatcher_build_snapshot_for f cfg alloc d (w_snap w);
      let '(d', snap, _) := (x : dispatcher * list sink_ptr * Z) in
      Some (World d' snap (w_user w) (w_leaked w))
  | O_commit =>
      x ← log_dispatcher_commit_snapshot_for d (w_snap w);
      Some (World x.1 x.2 (w_user w) (w_leaked w))
  | O_drop =>
      x ← log_dispatcher_destroy_snapshot_for d (w_snap w);
      Some (World x.1 x.2 (w_user w) (w_leaked w))
  | O_destroy => d' ← log_dispatcher_destroy_for d; Some (World d' (w_snap w) (w_user w) (w_leaked w))
  | O_flush => d' ← log_dispatcher_flush_for d; Some (World d' (w_snap w) (w_user w) (w_leaked w))
  | O_atfork => d' ← log_dispatcher_atfork_child_for d; Some (World d' (w_snap w) (w_user w) (w_leaked w))
  | O_dispatch lvl plain colored =>
      m ← for_each (dispatch_one lvl plain colored) (d_store d) (d_sinks d);
      Some (World (with_store d m) (w_snap w) (w_user w) (w_leaked w))
  end.

Definition all_sinks (w : world) : list nat :=
  ptrs (d_sinks (w_disp w)) ++ ptrs (w_snap w) ++ w_user w ++ w_leaked w.

Definition winv (w : world) : Prop := owns (d_store (w_disp w)) (d_next (w_disp w)) (all_sinks w).

End dispatcher.

Arguments log_sink_t : clear implicits.
Arguments dispatcher : clear implicits.
Arguments world : clear implicits.
Arguments dop : clear implicits.
Arguments factories : clear implicits.

(** ** Every operation keeps the accounts *)

Section accounts.
Context {S : Type} `{!Sink S}.
Implicit Types (w : world S) (d : dispatcher S).

Lemma remove_nat_perm p l : NoDup l → p ∈ l → l ≡ₚ p :: remove_nat p l.
Proof.
  intros Hnd Hp. unfold remove_nat. induction Hnd as [|q l Hq Hnd IH]; [by apply not_elem_of_nil in Hp|].
  destruct (decide (q = p)) as [->|Hqp].
  - rewrite filter_cons_False by naive_solver. f_equiv.
    clear IH Hp Hnd. induction l as [|x l IH]; [done|].
    rewrite filter_cons_True by (intros ->; apply Hq; by left). f_equiv. apply IH. set_solver.
  - rewrite filter_cons_True by done. apply elem_of_cons in Hp as [->|Hp]; [done|].
    rewrite (IH Hp) at 1. apply Permutation_swap.
Qed.

Lemma remove_first_perm p l : Some p ∈ l → ptrs l ≡ₚ p :: ptrs (remove_first p l).
Proof.
  induction l as [|q l IH]; intros Hp; [by apply not_elem_of_nil in Hp|]. cbn [remove_first].
  destruct (decide (q = Some p)) as [->|Hq]; [done|].
  apply elem_of_cons in Hp as [<-|Hp]; [done|]. destruct q as [q|].
  - change (ptrs (Some q :: l)) with (q :: ptrs l). change (ptrs (Some q :: remove_first p l)) with (q :: ptrs (remove_first p l)).
    rewrite (IH Hp). apply Permutation_swap.
  - by apply IH.
Qed.

Lemma remove_first_absent p l : Some p ∉ l → remove_first p l = l.
Proof.
  induction l as [|q l IH]; intros Hp; [done|]. cbn [remove_first].
  rewrite decide_False by set_solver. f_equal. apply IH. set_solver.
Qed.

Lemma NoDup_user w : winv w → NoDup (w_user w).
Proof. intros (H & _). unfold all_sinks in H. rewrite !NoDup_app in H. tauto. Qed.

Lemma NoDup_sinks w : winv w → NoDup (ptrs (d_sinks (w_disp w))).
Proof. intros (H & _). unfold all_sinks in H. rewrite !NoDup_app in H. tauto. Qed.

Lemma winv_create w k w' : winv w → wexec w (O_create k) = Some w' → winv w'.
Proof.
  intros H [= <-]. destruct (owns_alloc_all [k] _ _ [] _ H) as (m' & n' & new & E & Hl & Ho).
  cbn in E. destruct new as [|p [|]]; try done. injection E as <- <- <-.
  eapply owns_perm; [|exact Ho]. unfold all_sinks. cbn. rewrite <- !app_assoc.
  do 3 apply Permutation_app_head. apply Permutation_app_comm.
Qed.

Lemma winv_release w p : winv w → p ∈ w_user w → ∃ w', wexec w (O_release p) = Some w' ∧ winv w'.
Proof.
  intros H Hp. pose proof (remove_nat_perm p _ (NoDup_user w H) Hp) as HP.
  destruct (owns_destroy [Some p] (d_store (w_disp w)) (d_next (w_disp w))
              (ptrs (d_sinks (w_disp w)) ++ ptrs (w_snap w) ++ remove_nat p (w_user w) ++ w_leaked w))
    as (m' & E & Ho).
  { eapply owns_perm; [|exact H]. unfold all_sinks. rewrite HP at 1. cbn.
    rewrite !(Permutation_middle _ _ p), !app_assoc. cbn. solve_Permutation. }
  cbn in E. cbn [wexec]. destruct (sink_destroy (d_store (w_disp w)) p) as [m|]; [|done].
  cbn in *. injection E as <-. eexists. split; [reflexivity|]. exact Ho.
Qed.

Lemma winv_add w p realloc w' :
  winv w → p ∈ w_user w → wexec w (O_add p realloc) = Some w' → winv w'.
Proof.
  intros H Hp. pose proof (remove_nat_perm p _ (NoDup_user w H) Hp) as HP. cbn [wexec].
  unfold log_dispatcher_add_sink_for. destruct realloc; intros [= <-]; [|exact H].
  eapply owns_perm; [|exact H]. unfold all_sinks. cbn. rewrite HP at 1. rewrite ptrs_app. cbn.
  rewrite <- !app_assoc. apply Permutation_app_head. cbn. solve_Permutation.
Qed.

Lemma winv_remove w p w' : winv w → wexec w (O_remove p) = Some w' → winv w'.
Proof.
  intros H. cbn. destruct (decide (Some p ∈ d_sinks (w_disp w))) as [Hp|Hp]; intros [= <-].
  - eapply owns_perm; [|exact H]. unfold all_sinks. cbn. rewrite (remove_first_perm p _ Hp) at 1. cbn.
    solve_Permutation.
  - eapply owns_perm; [|exact H]. unfold all_sinks. cbn. by rewrite remove_first_absent.
Qed.

(** Callbacks on the registered sinks. *)
Lemma winv_calls w body g :
  (∀ m p k, m !! p = Some k → body m p = Some (<[p := g k]> m)) → winv w →
  ∃ m, for_each body (d_store (w_disp w)) (d_sinks (w_disp w)) = Some m ∧
    winv (World (with_store (w_disp w) m) (w_snap w) (w_user w) (w_leaked w)).
Proof.
  intros Hb H. refine (owns_calls body g _ _ _ _ Hb H (NoDup_sinks w H) _).
  intros p Hp. unfold all_sinks. rewrite elem_of_app. by left.
Qed.

Lemma winv_flush w : winv w → ∃ w', wexec w O_flush = Some w' ∧ winv w'.
Proof.
  intros H. cbn [wexec]. unfold log_dispatcher_flush_for.
  edestruct (winv_calls w (λ m p, sink_call m p sink_flush)) as (m & -> & Hm); [|done|by eexists].
  intros m p k Hk. unfold sink_call. rewrite Hk. reflexivity.
Qed.

Lemma winv_atfork w : winv w → ∃ w', wexec w O_atfork = Some w' ∧ winv w'.
Proof.
  intros H. cbn [wexec]. unfold log_dispatcher_atfork_child_for.
  edestruct (winv_calls w (λ m p, k ← m !! p; if sk_atfork k then sink_call m p sink_atfork_child else Some m)
               (λ k, if sk_atfork k
                     then LogSink (sk_min_level k) (sk_color k) (sk_atfork k) (sink_atfork_child (sk_state k))
                     else k)) as (m & -> & Hm); [|done|by eexists].
  intros m p k Hk. unfold sink_call. rewrite Hk. cbn. destruct (sk_atfork k); cbn; [done|]. by rewrite insert_id.
Qed.

Lemma winv_dispatch w lvl plain colored :
  winv w → ∃ w', wexec w (O_dispatch lvl plain colored) = Some w' ∧ winv w'.
Proof.
  intros H. cbn [wexec].
  edestruct (winv_calls w (dispatch_one lvl plain colored)) as (m & -> & Hm); [|done|by eexists].
  intros m p k Hk. by apply dispatch_one_map.
Qed.

Lemma winv_destroy w : winv w → ∃ w', wexec w O_destroy = Some w' ∧ winv w'.
Proof.
  intros H. cbn [wexec]. unfold log_dispatcher_destroy_for.
  destruct (owns_destroy _ _ _ _ H) as (m & -> & Hm). cbn. by eexists.
Qed.

Lemma winv_drop w : winv w → ∃ w', wexec w O_drop = Some w' ∧ winv w'.
Proof.
  intros H. cbn [wexec]. unfold log_dispatcher_destroy_snapshot_for.
  destruct (owns_destroy (w_snap w) (d_store (w_disp w)) (d_next (w_disp w))
              (ptrs (d_sinks (w_disp w)) ++ w_user w ++ w_leaked w)) as (m & -> & Hm).
  { eapply owns_perm; [|exact H]. unfold all_sinks. solve_Permutation. }
  cbn. eexists. split; [reflexivity|]. exact Hm.
Qed.

Lemma winv_commit w : winv w → ∃ w', wexec w O_commit = Some w' ∧ winv w'.
Proof.
  intros H. cbn [wexec]. unfold log_dispatcher_commit_snapshot_for. cbn [with_sinks d_store].
  destruct (owns_destroy _ _ _ _ H) as (m & -> & Hm). cbn. eexists. split; [reflexivity|]. exact Hm.
Qed.

Lemma length_omap_le {A B} (g : A → option B) (l : list A) : (length (omap g l) ≤ length l)%nat.
Proof. induction l as [|x l IH]; cbn; [lia|]. destruct (g x); cbn; lia. Qed.

(** The two constructions: sinks of the configuration, then plugin sinks. *)
Lemma owns_create f cfg d ks T :
  owns (d_store d) (d_next d) T →
  ∃ m n a m' n' b, create_sinks_from_cfg f cfg (d_store d) (d_next d) = (m, n, map Some a) ∧
    alloc_all (m, n, []) ks = (m', n', map Some b) ∧ (length a ≤ 3)%nat ∧ length b = length ks ∧
    owns m' n' (T ++ a ++ b).
Proof.
  intros H. unfold create_sinks_from_cfg.
  destruct (owns_alloc_all (omap (make f) (configured cfg)) _ _ [] _ H) as (m & n & a & -> & Ha & Ho).
  destruct (owns_alloc_all ks _ _ [] _ Ho) as (m' & n' & b & E & Hb & Ho').
  exists m, n, a, m', n', b. rewrite <- app_assoc in Ho'. split_and!; try done.
  rewrite Ha. etrans; [apply length_omap_le|]. unfold configured. rewrite !length_app.
  destruct (negb _), (_ && _), (_ && _); simpl; lia.
Qed.

Lemma winv_init w f cfg alloc : winv w → ∃ w', wexec w (O_init f cfg alloc) = Some w' ∧ winv w'.
Proof.
  intros H. cbn [wexec]. unfold log_dispatcher_init_for, init_leak.
  destruct (owns_create f cfg (w_disp w) (take 8 (plugins f CLOG_MAX_PLUGINS)) _ H)
    as (m & n & a & m' & n' & b & E1 & E2 & Ha & Hb & Ho).
  rewrite E1, E2. rewrite !length_map. rewrite firstn_map, skipn_map, <- map_app.
  set (kept := a ++ take (8 - length a) b). set (lost := drop (8 - length a) b).
  assert (HP : all_sinks w ++ a ++ b ≡ₚ
               ptrs (d_sinks (w_disp w)) ++ ptrs (map Some kept) ++ (ptrs (w_snap w) ++ w_user w ++ w_leaked w ++ lost)).
  { unfold all_sinks, kept, lost. rewrite ptrs_some. rewrite <- (take_drop (8 - length a) b) at 1.
    solve_Permutation. }
  apply (owns_perm _ _ _ _ HP) in Ho. rewrite ptrs_some. clearbody kept lost. clear HP.
  destruct kept as [|k0 kept].
  { cbn. eexists. split; [reflexivity|]. exact Ho. }
  cbn [map]. change (Some k0 :: map Some kept) with (map Some (k0 :: kept)) in *.
  unfold log_dispatcher_destroy_for. cbn [d_store d_sinks d_next].
  destruct (owns_destroy _ _ _ _ Ho) as (m1 & -> & Ho1). cbn [mbind option_bind].
  destruct alloc.
  - cbn. eexists. split; [reflexivity|]. exact Ho1.
  - cbn [d_store]. destruct (owns_destroy _ _ _ _ Ho1) as (m2 & -> & Ho2). cbn.
    eexists. split; [reflexivity|]. exact Ho2.
Qed.

Lemma winv_build w f cfg alloc :
  winv w → w_snap w = [] → ∃ w', wexec w (O_build f cfg alloc) = Some w' ∧ winv w'.
Proof.
  intros H Hs. cbn [wexec]. unfold log_dispatcher_build_snapshot_for.
  destruct (owns_create f cfg (w_disp w) [] _ H) as (m0 & n0 & a & _ & _ & _ & E1 & _ & Ha & _).
  rewrite E1. set (ks := if _ >? 0 then _ else _).
  destruct (owns_create f cfg (w_disp w) ks _ H) as (m & n & a' & m' & n' & b & E1' & E2 & _ & Hb & Ho).
  rewrite E1 in E1'. injection E1' as <- <- Ea. apply (f_equal ptrs) in Ea. rewrite !ptrs_some in Ea. subst a'.
  rewrite E2. rewrite length_map.
  assert (Hk : (length ks ≤ 8)%nat).
  { unfold ks, CLOG_MAX_PLUGINS. destruct (_ >? 0); [|simpl; lia]. rewrite length_take.
    unfold clen. rewrite length_map. lia. }
  rewrite (take_ge (map Some b)) by (rewrite length_map; lia). rewrite <- map_app.
  assert (HP : all_sinks w ++ a ++ b ≡ₚ
               ptrs (map Some (a ++ b)) ++ (ptrs (d_sinks (w_disp w)) ++ w_user w ++ w_leaked w)).
  { unfold all_sinks. rewrite ptrs_some, Hs. cbn. solve_Permutation. }
  apply (owns_perm _ _ _ _ HP) in Ho. clear HP E1 E2 Ha Hb Hk ks. generalize dependent (a ++ b). intros new Ho.
  destruct new as [|k0 new].
  { cbn. eexists. split; [reflexivity|]. unfold winv, all_sinks. cbn. rewrite Hs. exact Ho. }
  cbn [map]. change (Some k0 :: map Some new) with (map Some (k0 :: new)) in *. destruct alloc.
  - cbn [mbind option_bind]. eexists. split; [reflexivity|]. eapply owns_perm; [|exact Ho].
    unfold all_sinks. cbn [w_disp w_snap w_user w_leaked d_sinks]. solve_Permutation.
  - destruct (owns_destroy _ _ _ _ Ho) as (m2 & -> & Ho2). cbn.
    eexists. split; [reflexivity|]. unfold winv, all_sinks. cbn. rewrite Hs. exact Ho2.
Qed.

Lemma winv_step w o : winv w → allowed w o → ∃ w', wexec w o = Some w' ∧ winv w'.
Proof.
  intros H Ha. destruct o; cbn in Ha.
  - eexists. split; [reflexivity|]. by eapply winv_create.
  - by apply winv_release.
  - destruct (wexec w (O_add p realloc)) as [w'|] eqn:E; [|by destruct realloc].
    exists w'. split; [done|]. by eapply winv_add.
  - eexists. split; [reflexivity|]. by eapply winv_remove.
  - by apply winv_init.
  - by apply winv_build.
  - by apply winv_commit.
  - by apply winv_drop.
  - by apply winv_destroy.
  - by apply winv_flush.
  - by apply winv_atfork.
  - by apply winv_dispatch.
Qed.

End accounts.

(** ** Properties *)

Inductive wreach {S} `{!Sink S} : world S → Prop :=
  | wreach_init : wreach (World (Dispatcher ∅ 0 []) [] [] [])
  | wreach_step w o w' : wreach w → allowed w o → wexec w o = Some w' → wreach w'.

Lemma wreach_winv {S} `{!Sink S} (w : world S) : wreach w → winv w.
Proof.
  induction 1 as [|w o w' _ IH Ha Hw].
  - split; [constructor|]. split; [|intros p Hp; by apply not_elem_of_nil in Hp].
    intros p. cbn. rewrite lookup_empty. split; [by intros [? ?]|]. intros Hp. by apply not_elem_of_nil in Hp.
  - destruct (winv_step w o IH Ha) as (w1 & E & H1). rewrite E in Hw. by injection Hw as <-.
Qed.

(** What a dispatch does to each sink object. *)
Lemma dispatch_chunks {S} `{!Sink S} `{P : Platform} tp cfg fc th (d : dispatcher S) r th' r' line :
  NoDup (ptrs (d_sinks d)) → (∀ p, p ∈ ptrs (d_sinks d) → is_Some (d_store d !! p)) →
  level cfg <= r_level r → line ≠ [] →
  log_formatter_format_for tp th fc r CLOG_MAX_FORMATTED_SIZE = (th', r', (line, clen line)) →
  ∃ d', log_dispatcher_dispatch_for tp cfg fc th d r = Some (th', r', d', 0) ∧ d_sinks d' = d_sinks d ∧
  ∀ p k, d_store d !! p = Some k →
    d_store d' !! p = Some (if decide (p ∈ ptrs (d_sinks d)) then
      if r_level r' <? sk_min_level k then k
      else LogSink (sk_min_level k) (sk_color k) (sk_atfork k)
             (foldl sink_write (sk_state k) (chunks_for line (colored_line (color cfg) (r_level r') line) k))
      else k).
Proof.
  intros Hnd Hlive Hlvl Hne Hfmt. unfold log_dispatcher_dispatch_for.
  destruct (Z.ltb_spec (r_level r) (level cfg)); [lia|]. rewrite Hfmt.
  assert (0 < clen line) by (destruct line; [done|rewrite clen_cons; pose proof (clen_nonneg line); lia]).
  destruct (Z.leb_spec (clen line) 0); [lia|].
  replace (take (Z.to_nat (clen line)) line) with line by (rewrite take_ge; [done|unfold clen; lia]).
  set (col := colored_line (color cfg) (r_level r') line).
  destruct (for_each_map _ _ (d_sinks d) (d_store d) (dispatch_one_map (r_level r') line col) Hnd Hlive)
    as (m & -> & Hm). cbn [mbind option_bind].
  eexists. split; [reflexivity|]. split; [done|]. intros p k Hk. cbn [with_store d_store].
  rewrite Hm, Hk. cbn [fmap option_fmap option_map]. by destruct (decide _).
Qed.

(** The line a sink is due. *)
Definition text_for {S} (cfg : log_config_t) (lvl : log_level_t) (line : cstr) (k : log_sink_t S) : cstr :=
  match colored_line (color cfg) lvl line with
  | Some c => if sk_color k then c else line
  | None => line
  end.

Lemma chunks_for_spec {S} `{!Sink S} cfg lvl line (k : log_sink_t S) :
  line ≠ [] →
  let chunks := chunks_for line (colored_line (color cfg) lvl line) k in
  concat chunks = terminated (text_for cfg lvl line k) ∧
  (clen (text_for cfg lvl line k) < CLOG_MAX_FORMATTED_SIZE - 1 → length chunks = 1%nat).
Proof.
  intros Hne. unfold chunks_for, text_for.
  destruct (colored_line _ _ _) as [c|] eqn:Ec; [destruct (sk_color k)|]; apply line_chunks_spec; try done.
  by eapply colored_line_nonempty.
Qed.

(** A dispatched line reaches every registered sink whose level admits it,
    exactly once, complete and terminated by one newline, and no other sink:
    when the formatter produced a line, the state of each such sink is its
    state after [write] calls whose bytes are the line (coloured for a colour
    console when the coloured line fits) with a newline added if it had none;
    a line with room for its newline is a single [write]. *)
Theorem dispatch_delivers {S} `{!Sink S} `{P : Platform} tp cfg fc th (d : dispatcher S) r th' r' line :
  NoDup (ptrs (d_sinks d)) → (∀ p, p ∈ ptrs (d_sinks d) → is_Some (d_store d !! p)) →
  level cfg <= r_level r → line ≠ [] →
  log_formatter_format_for tp th fc r CLOG_MAX_FORMATTED_SIZE = (th', r', (line, clen line)) →
  ∃ d', log_dispatcher_dispatch_for tp cfg fc th d r = Some (th', r', d', 0) ∧ d_sinks d' = d_sinks d ∧
  ∀ p k, d_store d !! p = Some k →
    let text := text_for cfg (r_level r') line k in
    (p ∈ ptrs (d_sinks d) → sk_min_level k <= r_level r' →
       ∃ chunks, d_store d' !! p = Some (LogSink (sk_min_level k) (sk_color k) (sk_atfork k)
                                           (foldl sink_write (sk_state k) chunks)) ∧
         concat chunks = terminated text ∧
         (clen text < CLOG_MAX_FORMATTED_SIZE - 1 → length chunks = 1%nat)) ∧
    (p ∉ ptrs (d_sinks d) ∨ r_level r' < sk_min_level k → d_store d' !! p = Some k).
Proof.
  intros Hnd Hlive Hlvl Hne Hfmt.
  destruct (dispatch_chunks tp cfg fc th d r th' r' line Hnd Hlive Hlvl Hne Hfmt) as (d' & H1 & H2 & H3).
  exists d'. split; [done|]. split; [done|]. intros p k Hk. rewrite (H3 p k Hk). split.
  - intros Hp Hmin. rewrite decide_True by done. destruct (Z.ltb_spec (r_level r') (sk_min_level k)); [lia|].
    eexists. split; [reflexivity|]. by apply chunks_for_spec.
  - intros [Hp|Hmin]; [by rewrite decide_False|].
    destruct (Z.ltb_spec (r_level r') (sk_min_level k)); [|lia]. by destruct (decide _).
Qed.

(** The sinks an initialisation drops, if any. *)
Lemma init_leak_none {S} `{!Sink S} f cfg (d : dispatcher S) :
  (length (omap (make f) (configured cfg)) + length (take 8 (plugins f CLOG_MAX_PLUGINS)) ≤ 8)%nat → init_leak f cfg d = [].
Proof.
  intros Hl. unfold init_leak, create_sinks_from_cfg.
  assert (∀ ks (m : gmap nat (log_sink_t S)) n l, length (alloc_all (m, n, l) ks).2 = (length l + length ks)%nat) as Ha.
  { induction ks as [|k ks IH]; intros m n l; cbn [alloc_all foldl alloc_sink]; [cbn; lia|].
    unfold alloc_all in IH. rewrite IH, length_app. cbn. lia. }
  pose proof (Ha (omap (make f) (configured cfg)) (d_store d) (d_next d) []) as H1.
  destruct (alloc_all (d_store d, d_next d, []) (omap (make f) (configured cfg))) as [[m n] sinks].
  pose proof (Ha (take 8 (plugins f CLOG_MAX_PLUGINS)) m n []) as H2.
  destruct (alloc_all (m, n, []) (take 8 (plugins f CLOG_MAX_PLUGINS))) as [[m' n'] made]. cbn [snd length] in H1, H2.
  rewrite drop_ge by lia. done.
Qed.


(** Build, then commit: the accounts and what becomes of the sinks. *)
Lemma reload_snapshot {S} `{!Sink S} (w : world S) f cfg alloc :
  winv w → w_snap w = [] →
  ∃ d1 snap ret, log_dispatcher_build_snapshot_for f cfg alloc (w_disp w) [] = Some (d1, snap, ret) ∧
    d_sinks d1 = d_sinks (w_disp w) ∧
    (∀ p, p ∈ ptrs (d_sinks (w_disp w)) → is_Some (d_store d1 !! p)) ∧
    (ret ≠ 0 → snap = []) ∧ (ret = 0 → snap ≠ []) ∧ winv (World d1 snap (w_user w) (w_leaked w)) ∧
    ∃ d2, log_dispatcher_commit_snapshot_for d1 snap = Some (d2, []) ∧ d_sinks d2 = snap ∧
      winv (World d2 [] (w_user w) (w_leaked w)) ∧
      (∀ p, p ∈ ptrs snap → is_Some (d_store d2 !! p)) ∧
      (∀ p, p ∈ ptrs (d_sinks (w_disp w)) → d_store d2 !! p = None).
Proof.
  intros Hw Hs. pose proof Hw as (Hnd & _).
  destruct (winv_build w f cfg alloc Hw Hs) as (w1 & E1 & H1). cbn [wexec] in E1. rewrite Hs in E1.
  destruct (log_dispatcher_build_snapshot_for f cfg alloc (w_disp w) []) as [[[d1 snap] ret]|] eqn:EB; [|done].
  cbn in E1. injection E1 as <-. exists d1, snap, ret.
  assert (HB : d_sinks d1 = d_sinks (w_disp w) ∧ (ret ≠ 0 → snap = []) ∧ (ret = 0 → snap ≠ [])).
  { clear -EB. unfold log_dispatcher_build_snapshot_for in EB.
    destruct (create_sinks_from_cfg _ _ _ _) as [[? ?] ?]. destruct (alloc_all _ _) as [[? ?] ?].
    destruct (_ ++ _); [by injection EB as <- <- <-|]. destruct alloc; [by injection EB as <- <- <-|].
    apply bind_Some in EB as (m & _ & [= <- <- <-]). done. }
  destruct HB as (Hd1 & Hret & Hret0). split; [done|]. split; [done|].
  pose proof H1 as (Hnd1 & Hdom1 & _). cbn [w_disp] in *. split.
  { intros p Hp. apply Hdom1. unfold all_sinks. cbn [w_disp]. rewrite Hd1, elem_of_app. by left. }
  split; [done|]. split; [done|]. split; [exact H1|].
  destruct (winv_commit _ H1) as (w2 & E2 & H2). cbn [wexec w_disp w_snap] in E2.
  destruct (log_dispatcher_commit_snapshot_for d1 snap) as [[d2 snap2]|] eqn:EC; [|done].
  assert (HC : d_sinks d2 = snap ∧ snap2 = []).
  { clear -EC. unfold log_dispatcher_commit_snapshot_for in EC. apply bind_Some in EC as (m & _ & [= <- <-]). done. }
  destruct HC as [Hd2 ->]. cbn in E2. injection E2 as <-. exists d2. split; [done|]. split; [done|]. split; [exact H2|].
  destruct H2 as (_ & Hdom2 & _). unfold all_sinks in *. cbn [w_disp w_snap w_user w_leaked ptrs omap] in *.
  split.
  - intros p Hp. apply Hdom2. rewrite Hd2, elem_of_app. by left.
  - intros p Hp. apply eq_None_not_Some. intros Hl%Hdom2. rewrite Hd2 in Hl. cbn in Hl.
    rewrite Hd1 in Hnd1. apply NoDup_app in Hnd1 as (_ & Hnd1 & _). by apply (Hnd1 p Hp).
Qed.

(** A reload is all or nothing. Building a snapshot leaves the registered
    sinks registered and alive; when it fails nothing is pending; when it
    succeeds, committing it registers exactly the new sinks, alive, and every
    sink registered before is destroyed. *)
Theorem reload_all_or_nothing {S} `{!Sink S} (w : world S) f cfg alloc :
  wreach w → w_snap w = [] →
  ∃ d1 snap ret, log_dispatcher_build_snapshot_for f cfg alloc (w_disp w) [] = Some (d1, snap, ret) ∧
    d_sinks d1 = d_sinks (w_disp w) ∧
    (∀ p, p ∈ ptrs (d_sinks (w_disp w)) → is_Some (d_store d1 !! p)) ∧
    (ret ≠ 0 → snap = []) ∧
    ∃ d2, log_dispatcher_commit_snapshot_for d1 snap = Some (d2, []) ∧ d_sinks d2 = snap ∧
      (∀ p, p ∈ ptrs snap → is_Some (d_store d2 !! p)) ∧
      (∀ p, p ∈ ptrs (d_sinks (w_disp w)) → d_store d2 !! p = None).
Proof.
  intros Hw%wreach_winv Hs.
  destruct (reload_snapshot w f cfg alloc Hw Hs) as (d1 & snap & ret & E1 & H1 & H2 & H3 & _ & _ & d2 & E2 & H4 & _ & H5 & H6).
  exists d1, snap, ret. split_and!; try done. by exists d2.
Qed.

(** ** Witnesses: sinks that record what they are sent *)

#[export] Instance trace_sink : Sink (list cstr) :=
  {| sink_write st b := st ++ [b]; sink_flush st := st; sink_atfork_child st := st |}.

Definition test_cfg : log_config_t :=
  config_defaults (LogConfig 0 false 0 false LOG_FORMAT_TEXT None None 0 0 0 [] 0 0 0 [] 0 false [] false
    false 0 0 0 0 false 0 0 false false 0 [] [] 0).

(** A colour console, a file, and a sink for errors only. *)
Definition test_disp : dispatcher (list cstr) :=
  Dispatcher {[0%nat := LogSink 0 true false []; 1%nat := LogSink 0 false true []; 2%nat := LogSink 4 false true []]}
             3 [Some 0%nat; None; Some 1%nat; Some 2%nat].

Definition test_fc : fmt_config := FmtConfig (B "%level %tag") (B "%H").
Definition test_warn : log_record_t :=
  LogRecord 0 None None None (Some (B "t")) None 3 0 0 0 (replicate 16 0) (replicate 8 0) [] false.

Lemma dispatch_delivers_witness :
  ∃ th' r' d', log_dispatcher_dispatch_for None test_cfg test_fc (FmtThread time_cache_init fmt_cache_init)
             test_disp test_warn = Some (th', r', d', 0) ∧
    (∃ chunks, d_store d' !! 1%nat = Some (LogSink 0 false true chunks) ∧ concat chunks = B "WARN t" ++ [10]) ∧
    d_store d' !! 2%nat = Some (LogSink 4 false true []).
Proof.
  destruct (dispatch_delivers None test_cfg test_fc (FmtThread time_cache_init fmt_cache_init) test_disp test_warn
                (FmtThread time_cache_init (FmtCache (B "%level %tag") [FMT_OP_LEVEL; FMT_OP_LITERAL [32]; FMT_OP_TAG]))
                test_warn (B "WARN t")) as (d' & E & _ & H).
  - apply (bool_decide_unpack _). vm_compute. reflexivity.
  - intros p Hp. change (ptrs (d_sinks test_disp)) with [0; 1; 2]%nat in Hp. rewrite !elem_of_cons, elem_of_nil in Hp.
    destruct Hp as [->|[->|[->|[]]]]; vm_compute; by eexists.
  - vm_compute. discriminate.
  - discriminate.
  - vm_compute. reflexivity.
  - eexists _, _, d'. split; [exact E|]. split.
    + destruct (H 1%nat (LogSink 0 false true []) eq_refl) as [H1 _].
      destruct H1 as (chunks & Hc & Hcc & _); [apply (bool_decide_unpack _); vm_compute; reflexivity|vm_compute; discriminate|].
      exists (foldl sink_write [] chunks). split; [exact Hc|].
      assert (∀ l acc, foldl (sink_write (S := list cstr)) acc l = acc ++ l) as Hf.
      { induction l as [|x l IH]; intros acc; cbn; [by rewrite app_nil_r|]. by rewrite IH, <- app_assoc. }
      rewrite Hf. cbn [app]. rewrite Hcc. vm_compute. reflexivity.
    + destruct (H 2%nat (LogSink 4 false true []) eq_refl) as [_ H2]. apply H2. right. reflexivity.
Defined.

(** A new process: the application registers a sink, reloads, shuts down. *)
Definition test_factories : factories (list cstr) :=
  Factories (λ k, match k with K_console _ c => Some (LogSink 0 c false []) | _ => None end)
            (λ _, replicate 8 (LogSink 0 false false [])).

Definition test_ops : list (dop (list cstr)) :=
  [O_create (LogSink 0 false false []); O_add 0 true; O_build test_factories test_cfg true; O_commit;
   O_create (LogSink 2 false true []); O_add 10 true; O_remove 10; O_dispatch 3 (B "x") None].

#[export] Instance allowed_dec {S} (w : world S) (o : dop S) : Decision (allowed w o).
Proof. destruct o; unfold allowed; apply _. Defined.

(** Run allowed operations. *)
Fixpoint wexec_all {S} `{!Sink S} (w : world S) (l : list (dop S)) : option (world S) :=
  match l with
  | [] => Some w
  | o :: l' => if bool_decide (allowed w o) then w' ← wexec w o; wexec_all w' l' else None
  end.

Lemma wreach_all {S} `{!Sink S} (l : list (dop S)) : ∀ w w', wreach w → wexec_all w l = Some w' → wreach w'.
Proof.
  induction l as [|o l IH]; intros w w' Hw H; cbn [wexec_all] in H; [by injection H as <-|].
  case_bool_decide as Ha; [|done]. apply bind_Some in H as (w1 & H1 & H).
  eapply IH; [|exact H]. by eapply wreach_step.
Qed.

Definition test_start : world (list cstr) := World (Dispatcher ∅ 0 []) [] [] [].


Lemma reload_all_or_nothing_witness :
  ∃ d1 snap ret, log_dispatcher_build_snapshot_for test_factories test_cfg true (w_disp test_start) [] = Some (d1, snap, ret) ∧
    ret = 0 ∧ length snap = 9%nat ∧
    ∃ d2, log_dispatcher_commit_snapshot_for d1 snap = Some (d2, []) ∧ d_sinks d2 = snap.
Proof.
  destruct (reload_all_or_nothing test_start test_factories test_cfg true) as (d1 & snap & ret & E & _ & _ & _ & d2 & E2 & Hs & _).
  - apply wreach_init.
  - reflexivity.
  - exists d1, snap, ret. split; [done|]. vm_compute in E. injection E as <- <- <-.
    split; [done|]. split; [done|]. exists d2. split; [exact E2|exact Hs].
Defined.

(** [log_dispatcher_init_for] keeps eight sinks in all: with three configured
    sinks, three of eight plugin sinks stay allocated and unreachable. *)
Example init_leaks_plugin_sinks :
  let f := Factories (λ _, Some (LogSink 0 false false [])) (λ _, replicate 8 (LogSink 0 false false [])) in
  let cfg := LogConfig 0 false 0 false LOG_FORMAT_TEXT None None 1 0 1 (B "a.log") 0 0 1 (B "h") 0 false [] false
    false 0 0 0 0 false 0 0 false false 0 [] [] 0 in
  match wexec test_start (O_init f cfg true) with
  | Some w => length (d_sinks (w_disp w)) = 8%nat ∧ w_leaked w = [8; 9; 10]%nat
  | None => False
  end.
Proof. vm_compute. done. Qed.
