(* ===== verification/Logger.v ===== *)
(** * The logger (core/log.c): write paths and lifecycle

    [logger_writevprintf_internal] and [logger_write_kv_internal] compose the
    level filter, the counters, truncation, redaction, the rate limiter with
    its notice record, and the hand-over to the asynchronous queue or to the
    dispatcher.  Initialisation, reload and shutdown compose the configuration,
    rate limiter, dispatcher and asynchronous components.  What the system
    answers (clock, thread id, [vsnprintf]'s text, allocations) is an argument. *)
From S2P Require Import Prelude FastAscii Record Config FmtText Redact RateLimit Trace Context Queue Async Dispatcher.
From coqutil Require Import Datatypes.RecordSetters.
Import DoubleBraceUpdate.

Local Open Scope Z_scope.

(** The fields of [logger_t] the write path reads and writes; [lg_cb_calls] counts the
    calls of the fallback callback. *)
Record logger_t := LoggerT {
  lg_initialized : bool;
  lg_config : config_owner;
  lg_rl : rl_state;
  lg_module : cstr;
  lg_pid : Z;
  lg_total_logged : Z;
  lg_dropped : Z;
  lg_has_cb : bool;
  lg_cb_calls : Z
}.

(** What one write call gets from its surroundings: the whole text [vsnprintf]
    has to print ([None] when it fails), clocks and ids, the trace context of
    the thread, the redaction rules, and what [log_async_write_for] will
    answer for each record. *)
Record write_env := WriteEnv {
  e_text : option cstr;
  e_now_us : Z;
  e_now_ms : Z;
  e_tid : Z;
  e_trace : trace_state;
  e_rules : list clog_redact_rule_t;
  e_async : log_record_t → Z
}.

(** ** The shared steps *)

(** [vsnprintf] into [message] and the ellipsis over its last bytes. *)
Definition format_message (text : option cstr) : cstr :=
  match text with
  | None => []
  | Some t =>
      if clen t >=? CLOG_MAX_MESSAGE_SIZE
      then take (Z.to_nat (CLOG_MAX_MESSAGE_SIZE - 4)) t ++ B "..."
      else t
  end.

(** [total_logged]. *)
Definition count_record (l : logger_t) (lvl : log_level_t) : logger_t :=
  l{{ lg_total_logged := u64 (lg_total_logged l + 1) }}.

(** [g_prometheus_level_counts], one array for all loggers. *)
Definition count_level (counts : list Z) (lvl : log_level_t) : list Z :=
  if (0 <=? lvl) && (lvl <? 6) then alter (λ n, u64 (n + 1)) (Z.to_nat lvl) counts else counts.

Definition suppressed_message (n : Z) : cstr :=
  snprintf_s 128 (B "[clogx] Suppressed " ++ dec n ++ B " log messages due to rate limit").

(** Hand-over: the asynchronous queue or the dispatcher. A refused record counts
    as dropped, a refused notice does not; both call the fallback callback. *)
Definition submit (l : logger_t) (e : write_env) (is_notice : bool) (r : log_record_t) : logger_t :=
  if async (config (lg_config l)) then
    if negb (e_async e r =? 0) then
      let l := if is_notice then l else l{{ lg_dropped := u64 (lg_dropped l + 1) }} in
      if lg_has_cb l then l{{ lg_cb_calls := lg_cb_calls l + 1 }} else l
    else l
  else l.

(** The notice sent ahead of the first record after a suppression. *)
Definition notice_record (r : log_record_t) (suppressed : Z) : log_record_t :=
  LogRecord (r_timestamp r) (r_file r) (r_func r) (r_module r) (r_tag r)
    (Some (suppressed_message suppressed)) LOG_LEVEL_WARN (r_tid r) (r_pid r) (r_line r)
    (r_trace_id r) (r_span_id r) [] (r_is_tombstone r).

Definition make_record (l : logger_t) (e : write_env) (lvl : log_level_t) (file : option cstr) (line : Z)
    (func : option cstr) (message : cstr) (kvs : list clog_kv_t) : log_record_t :=
  let ids := span_current_ids (e_trace e) in
  LogRecord (e_now_us e) file func (Some (lg_module l)) None (Some message) lvl (e_tid e) (lg_pid l) line
    ids.1 ids.2 kvs false.

(** ** log_writevprintf: the logger afterwards and the records handed over, in order *)

Definition logger_writevprintf_internal (l : logger_t) (e : write_env) (lvl : log_level_t)
    (file : option cstr) (line : Z) (func : option cstr) : logger_t * list log_record_t :=
  if negb (lg_initialized l) then (l, [])
  else if lvl <? level (config (lg_config l)) then (l, [])
  else
    let l := count_record l lvl in
    let message := format_message (e_text e) in
    let message := redact_message_if_needed (e_rules e) message CLOG_MAX_MESSAGE_SIZE in
    let record := make_record l e lvl file line func message [] in
    let '(rl, suppressed, allowed) := log_rate_limit_allow_for (lg_rl l) (e_now_ms e) in
    let l := l{{ lg_rl := rl }} in
    if negb allowed then (l, [])
    else
      let '(l, notice) := if suppressed >? 0
                          then (submit l e true (notice_record record suppressed), [notice_record record suppressed])
                          else (l, []) in
      (submit l e false record, notice ++ [record]).

(** ** log_write_kv *)

(** [redact] is [redact_kv_record_if_needed] on the stack record; [None] is
    undefined behaviour in it. *)
Definition logger_write_kv_internal (redact : log_record_t → option log_record_t)
    (l : logger_t) (e : write_env) (lvl : log_level_t) (file : option cstr) (line : Z) (func : option cstr)
    (msg : option cstr) (kvs : list clog_kv_t) : option (logger_t * list log_record_t) :=
  if negb (lg_initialized l) then Some (l, [])
  else if lvl <? level (config (lg_config l)) then Some (l, [])
  else
    let l := count_record l lvl in
    let count := if clen kvs >? CLOG_MAX_KV then CLOG_MAX_KV else clen kvs in
    let record := make_record l e lvl file line func (or_default msg []) (take (Z.to_nat count) kvs) in
    let '(rl, suppressed, allowed) := log_rate_limit_allow_for (lg_rl l) (e_now_ms e) in
    let l := l{{ lg_rl := rl }} in
    if negb allowed then Some (l, [])
    else
      let '(l, notice) := if suppressed >? 0
                          then (submit l e true (notice_record record suppressed), [notice_record record suppressed])
                          else (l, []) in
      record ← redact record;
      Some (submit l e false record, notice ++ [record]).

(** [redact_kv_record_if_needed] with its scratch buffers and heap. *)
Definition redact_record (malloc_ok : nat → bool) (rules : list clog_redact_rule_t) (m : rmem)
    (r : log_record_t) : option log_record_t :=
  x ← redact_kv_record_if_needed malloc_ok rules r m;
  Some (snd (fst (fst (x : rmem * log_record_t * option nat * list (option nat))))).

(** ** Statistics *)

Record log_stats_t := LogStats {
  total_logged_count : Z; dropped_queue_full_count : Z; suppressed_rate_count : Z; current_queue_depth : Z
}.

Definition logger_get_stats (l : logger_t) (depth : Z) : log_stats_t :=
  LogStats (lg_total_logged l) (lg_dropped l) (log_rate_limit_get_total_suppressed_for (lg_rl l)) depth.

(** ** Counting *)

(** A write call of either kind. *)
Inductive write_call :=
  | C_printf (e : write_env) (lvl : log_level_t) (file : option cstr) (line : Z) (func : option cstr)
  | C_kv (redact : log_record_t → option log_record_t) (e : write_env) (lvl : log_level_t)
         (file : option cstr) (line : Z) (func : option cstr) (msg : option cstr) (kvs : list clog_kv_t).

Definition call_exec (l : logger_t) (c : write_call) : option (logger_t * list log_record_t) :=
  match c with
  | C_printf e lvl file line func => Some (logger_writevprintf_internal l e lvl file line func)
  | C_kv redact e lvl file line func msg kvs =>
      logger_write_kv_internal redact l e lvl file line func msg kvs
  end.

Definition call_level (c : write_call) : log_level_t :=
  match c with C_printf _ lvl _ _ _ => lvl | C_kv _ _ lvl _ _ _ _ _ => lvl end.
Definition call_env (c : write_call) : write_env :=
  match c with C_printf e _ _ _ _ => e | C_kv _ e _ _ _ _ _ _ => e end.

(** Calls that pass the level filter. *)
Definition passes (l : logger_t) (c : write_call) : bool :=
  lg_initialized l && (level (config (lg_config l)) <=? call_level c).

(** The process-wide level counters after a call on [l]. *)
Definition call_levels (l : logger_t) (counts : list Z) (c : write_call) : list Z :=
  if passes l c then count_level counts (call_level c) else counts.

(** A sequence of calls on a logger, with the process-wide counters: what each call handed
    over. *)
Fixpoint write_run (l : logger_t) (counts : list Z) (cs : list write_call)
    : option (logger_t * list Z * list (list log_record_t)) :=
  match cs with
  | [] => Some (l, counts, [])
  | c :: cs' =>
      '(l1, out) ← call_exec l c;
      '(l2, counts, outs) ← write_run l1 (call_levels l counts c) cs';
      Some (l2, counts, out :: outs)
  end.

(** Everything but the two counters of the hand-over. *)
Definition same_but_drops (l l' : logger_t) : Prop :=
  lg_initialized l' = lg_initialized l ∧ lg_config l' = lg_config l ∧ lg_rl l' = lg_rl l ∧
  lg_module l' = lg_module l ∧ lg_pid l' = lg_pid l ∧ lg_total_logged l' = lg_total_logged l ∧
  lg_has_cb l' = lg_has_cb l.

Lemma submit_same l e b r : same_but_drops l (submit l e b r).
Proof.
  unfold submit. destruct (async _); [|done]. destruct (negb _); [|done].
  destruct l, b; cbn; by destruct lg_has_cb0.
Qed.

Lemma submit_dropped l e b r :
  lg_dropped (submit l e b r) =
  if async (config (lg_config l)) && negb b && negb (e_async e r =? 0)
  then u64 (lg_dropped l + 1) else lg_dropped l.
Proof.
  unfold submit. destruct (async _); [|done]. destruct (e_async e r =? 0); cbn; [by rewrite andb_false_r|].
  destruct l, b; cbn; by destruct lg_has_cb0.
Qed.

Lemma same_trans l1 l2 l3 : same_but_drops l1 l2 → same_but_drops l2 l3 → same_but_drops l1 l3.
Proof. unfold same_but_drops. intros (?&?&?&?&?&?&?) (?&?&?&?&?&?&?). split_and!; congruence. Qed.

(** The end of both write paths: the notice, then the record. *)
Lemma submit_both l e (b : bool) n r :
  let l1 := if b then submit l e true n else l in
  let l2 := submit l1 e false r in
  same_but_drops l l2 ∧
  lg_dropped l2 = if async (config (lg_config l)) && negb (e_async e r =? 0)
                  then u64 (lg_dropped l + 1) else lg_dropped l.
Proof.
  intros l1 l2. assert (H1 : same_but_drops l l1) by (unfold l1; destruct b; [apply submit_same|done]).
  split; [eapply same_trans; [exact H1|apply submit_same]|].
  unfold l2. rewrite submit_dropped. destruct H1 as (_ & -> & _). rewrite andb_true_r.
  unfold l1. destruct b; [|done]. rewrite submit_dropped. by rewrite andb_false_r.
Qed.

(** What one call that passes the filter does, given the limiter's answer. *)
Definition passed_spec (l : logger_t) (c : write_call) (l' : logger_t) (out : list log_record_t)
    (rl : rl_state) (suppressed : Z) (ok : bool) : Prop :=
  same_but_drops (count_record l (call_level c)){{ lg_rl := rl }} l' ∧
  if ok then
    ∃ r0 r, out = (if suppressed >? 0 then [notice_record r0 suppressed] else []) ++ [r] ∧
      lg_dropped l' = if async (config (lg_config l)) && negb (e_async (call_env c) r =? 0)
                      then u64 (lg_dropped l + 1) else lg_dropped l
  else out = [] ∧ lg_dropped l' = lg_dropped l.

Lemma count_record_fields l lvl rl :
  let l1 := (count_record l lvl){{ lg_rl := rl }} in
  lg_initialized l1 = lg_initialized l ∧ lg_config l1 = lg_config l ∧ lg_rl l1 = rl ∧
  lg_total_logged l1 = u64 (lg_total_logged l + 1) ∧ lg_dropped l1 = lg_dropped l ∧
  lg_rl (count_record l lvl) = lg_rl l.
Proof. unfold count_record. by destruct l. Qed.

Lemma writevprintf_passed l e lvl file line func :
  passes l (C_printf e lvl file line func) = true →
  let '(l', out) := logger_writevprintf_internal l e lvl file line func in
  let '(rl, suppressed, ok) := log_rate_limit_allow_for (lg_rl l) (e_now_ms e) in
  passed_spec l (C_printf e lvl file line func) l' out rl suppressed ok.
Proof.
  unfold passes. cbn [call_level]. intros [Hi Hl]%andb_true_iff. unfold logger_writevprintf_internal.
  rewrite Hi. cbn [negb]. destruct (Z.ltb_spec lvl (level (config (lg_config l)))); [lia|].
  destruct (count_record_fields l lvl (lg_rl l)) as (_ & _ & _ & _ & _ & Hrl). rewrite Hrl.
  destruct (log_rate_limit_allow_for (lg_rl l) (e_now_ms e)) as [[rl supp] ok].
  destruct (count_record_fields l lvl rl) as (_ & Hc & _ & _ & Hd & _).
  unfold passed_spec. cbn [call_level call_env].
  set (l1 := (count_record l lvl){{ lg_rl := rl }}) in *.
  set (rec := make_record _ _ _ _ _ _ _ _). destruct ok; cbn [negb]; [|done].
  pose proof (submit_both l1 e (supp >? 0) (notice_record rec supp) rec) as [H1 H2].
  rewrite Hc, Hd in H2.
  destruct (supp >? 0); (split; [exact H1|]); exists rec, rec; done.
Qed.

Lemma write_kv_passed redact l e lvl file line func msg kvs l' out :
  passes l (C_kv redact e lvl file line func msg kvs) = true →
  logger_write_kv_internal redact l e lvl file line func msg kvs = Some (l', out) →
  let '(rl, suppressed, ok) := log_rate_limit_allow_for (lg_rl l) (e_now_ms e) in
  passed_spec l (C_kv redact e lvl file line func msg kvs) l' out rl suppressed ok.
Proof.
  unfold passes. cbn [call_level]. intros [Hi Hl]%andb_true_iff. unfold logger_write_kv_internal.
  rewrite Hi. cbn [negb]. destruct (Z.ltb_spec lvl (level (config (lg_config l)))); [lia|].
  destruct (count_record_fields l lvl (lg_rl l)) as (_ & _ & _ & _ & _ & Hrl). rewrite Hrl.
  destruct (log_rate_limit_allow_for (lg_rl l) (e_now_ms e)) as [[rl supp] ok].
  destruct (count_record_fields l lvl rl) as (_ & Hc & _ & _ & Hd & _).
  unfold passed_spec. cbn [call_level call_env].
  set (l1 := (count_record l lvl){{ lg_rl := rl }}) in *.
  set (rec := make_record _ _ _ _ _ _ _ _). destruct ok; cbn [negb]; [|by intros [= <- <-]].
  destruct (redact rec) as [r|] eqn:Er; [|by destruct (supp >? 0)].
  pose proof (submit_both l1 e (supp >? 0) (notice_record rec supp) r) as [H1 H2].
  rewrite Hc, Hd in H2.
  destruct (supp >? 0); cbn; intros [= <- <-]; (split; [exact H1|]); exists rec, r; done.
Qed.

Lemma call_filtered l c : passes l c = false → call_exec l c = Some (l, []).
Proof.
  unfold passes. destruct c; cbn; unfold logger_writevprintf_internal, logger_write_kv_internal;
    (destruct (lg_initialized l); cbn; [|done]);
    (destruct (Z.leb_spec (level (config (lg_config l))) lvl); [done|]);
    (destruct (Z.ltb_spec lvl (level (config (lg_config l)))); [done|lia]).
Qed.

Lemma call_passed l c l' out :
  passes l c = true → call_exec l c = Some (l', out) →
  let '(rl, suppressed, ok) := log_rate_limit_allow_for (lg_rl l) (e_now_ms (call_env c)) in
  passed_spec l c l' out rl suppressed ok.
Proof.
  intros Hp. destruct c; cbn [call_exec call_env].
  - intros [= H]. pose proof (writevprintf_passed _ _ _ file line func Hp) as HS. by rewrite H in HS.
  - by apply write_kv_passed.
Qed.

(** Room for [n] more events in every counter. *)
Definition counters_ok (l : logger_t) (n : Z) : Prop :=
  rl_ok (lg_rl l) ∧ rl_suppressed_count (lg_rl l) + n < 2 ^ 64 - 1 ∧
  rl_total_suppressed (lg_rl l) + n < 2 ^ 64 - 1 ∧ 0 <= lg_total_logged l ∧ lg_total_logged l + n < 2 ^ 64 ∧
  0 <= lg_dropped l ∧ lg_dropped l + n < 2 ^ 64.

Definition handed (outs : list (list log_record_t)) : Z := clen (filter (λ o, o ≠ []) outs).

(** The suppressed calls a hand-over reports: the number in its notice, if it has one. *)
Definition reports (out : list log_record_t) (n : Z) : Prop :=
  match out with
  | [] | [_] => n = 0
  | notice :: _ => 0 < n ∧ ∃ r0, notice = notice_record r0 n
  end.

(** The accounts of one call. *)
Lemma call_accounts l c l' out n :
  counters_ok l (1 + n) → 0 <= n → call_exec l c = Some (l', out) →
  counters_ok l' n ∧ passes l' = passes l ∧
  lg_total_logged l' = lg_total_logged l + (if passes l c then 1 else 0) ∧
  handed [out] + rl_total_suppressed (lg_rl l') = rl_total_suppressed (lg_rl l) + (if passes l c then 1 else 0) ∧
  lg_dropped l <= lg_dropped l' <= lg_dropped l + handed [out] ∧
  ∃ n, reports out n ∧ n + (rl_suppressed_count (lg_rl l') - rl_suppressed_count (lg_rl l)) =
    rl_total_suppressed (lg_rl l') - rl_total_suppressed (lg_rl l).
Proof.
  intros (Hrl & Hs & Ht & Htl & Htn & Hd & Hdn) Hn H. destruct (passes l c) eqn:Hp.
  2:{ rewrite (call_filtered l c Hp) in H. injection H as <- <-. change (handed [[]]) with 0.
      unfold counters_ok. split_and!; try done; try lia. exists 0. split; [done|lia]. }
  pose proof (call_passed l c l' out Hp H) as HS.
  pose proof (allow_counts (lg_rl l) (e_now_ms (call_env c)) Hrl ltac:(lia) ltac:(lia)) as HA.
  pose proof (allow_refused (lg_rl l) (e_now_ms (call_env c))) as HR.
  destruct (log_rate_limit_allow_for _ _) as [[rl supp] ok].
  destruct HS as [(E1 & E2 & E3 & _ & _ & E6 & _) HS]. destruct HA as (A1 & _ & A3 & A4 & _ & A6).
  destruct (count_record_fields l (call_level c) rl) as (F1 & F2 & F3 & F4 & _).
  rewrite F1 in E1. rewrite F2 in E2. rewrite F3 in E3. rewrite F4, u64_id in E6 by (split; lia).
  assert (HP : passes l' = passes l) by (unfold passes; by rewrite E1, E2).
  assert (HD : lg_dropped l <= lg_dropped l' <= lg_dropped l + handed [out] ∧ handed [out] = if ok then 1 else 0).
  { destruct ok.
    - destruct HS as (r0 & r & -> & ->). assert (Hh : handed [(if supp >? 0 then [notice_record r0 supp] else []) ++ [r]] = 1).
      { unfold handed. rewrite filter_cons_True by (by destruct (supp >? 0)). done. }
      rewrite Hh. split; [|done]. destruct (_ && _); [rewrite u64_id by (split; lia)|]; lia.
    - destruct HS as [-> ->]. change (handed [[]]) with 0. lia. }
  destruct HD as [HD Hh].
  assert (reports out supp) as HN.
  { destruct ok; [|destruct HS as [-> _]; by eapply HR]. destruct HS as (r0 & r & -> & _). rewrite Z.gtb_ltb.
    destruct (Z.ltb_spec 0 supp); cbn; [split; [done|by eexists]|lia]. }
  unfold counters_ok. rewrite E3, E6. rewrite Hh in *.
  split_and!; try done; try (destruct ok; lia). exists supp. split; [done|destruct ok; lia].
Qed.

(** ** Properties of the write paths *)

Definition total (ns : list Z) : Z := foldr Z.add 0 ns.

Lemma write_run_accounts cs : ∀ l counts l' counts' outs,
  counters_ok l (clen cs) → write_run l counts cs = Some (l', counts', outs) →
  lg_total_logged l' = lg_total_logged l + clen (filter (λ c, passes l c = true) cs) ∧
  handed outs + rl_total_suppressed (lg_rl l') =
    rl_total_suppressed (lg_rl l) + clen (filter (λ c, passes l c = true) cs) ∧
  lg_dropped l <= lg_dropped l' <= lg_dropped l + handed outs ∧
  ∃ ns, Forall2 reports outs ns ∧ total ns + (rl_suppressed_count (lg_rl l') - rl_suppressed_count (lg_rl l)) =
    rl_total_suppressed (lg_rl l') - rl_total_suppressed (lg_rl l).
Proof.
  induction cs as [|c cs IH]; intros l counts l' counts' outs Hc H; cbn [write_run] in H.
  { injection H as <- _ <-. cbn. change (handed []) with 0. change (clen []) with 0. split_and!; try lia.
    exists []. split; [constructor|cbn; lia]. }
  apply bind_Some in H as ([l1 out] & H1 & H). apply bind_Some in H as ([[l2 counts2] outs'] & H2 & H).
  injection H as <- _ <-. rewrite clen_cons in Hc.
  destruct (call_accounts l c l1 out (clen cs) Hc (clen_nonneg _) H1) as (Hc1 & HP & HT & HH & HD & n & Hn & HN).
  destruct (IH l1 _ l2 _ outs' Hc1 H2) as (HT2 & HH2 & HD2 & ns & Hns & HN2).
  assert (HF : clen (filter (λ c, passes l c = true) (c :: cs)) =
               (if passes l c then 1 else 0) + clen (filter (λ c, passes l1 c = true) cs)).
  { rewrite filter_cons, HP. destruct (passes l c).
    - rewrite decide_True by done. by rewrite clen_cons.
    - rewrite decide_False by done. lia. }
  assert (Hh : handed (out :: outs') = handed [out] + handed outs').
  { unfold handed. rewrite (filter_cons _ out outs'), (filter_cons _ out []). destruct (decide (out ≠ [])); cbn.
    - by rewrite clen_cons.
    - rewrite clen_nil. lia. }
  rewrite HF, Hh. split_and!; try lia. exists (n :: ns). split; [by constructor|]. change (total (n :: ns)) with (n + total ns). lia.
Qed.

(** One call and the counter of level [i]. *)
Lemma call_level_counts l counts c (i : nat) n :
  counts !! i = Some n → (i < 6)%nat →
  call_levels l counts c !! i =
    Some (if decide (passes l c = true ∧ call_level c = Z.of_nat i) then u64 (n + 1) else n).
Proof.
  intros Hi Hlt. unfold call_levels. destruct (passes l c); [|by rewrite decide_False by naive_solver].
  unfold count_level. destruct (Z.leb_spec 0 (call_level c)), (Z.ltb_spec (call_level c) 6); cbn [andb];
    try (rewrite decide_False; [done|]; intros [_ Hd]; lia).
  case_decide as Hd.
  - destruct Hd as [_ Hd]. rewrite Hd, Nat2Z.id. by rewrite list_lookup_alter_eq, Hi.
  - rewrite list_lookup_alter_ne; [done|]. lia.
Qed.

(** Each of the six process-wide counters grows by exactly the calls of its level that
    pass the filter, modulo its 64-bit width. *)
Lemma write_run_level_counts cs : ∀ l counts l' counts' outs (i : nat) n,
  counters_ok l (clen cs) → write_run l counts cs = Some (l', counts', outs) →
  counts !! i = Some n → 0 <= n < 2 ^ 64 → (i < 6)%nat →
  counts' !! i =
    Some (u64 (n + clen (filter (λ c, passes l c = true ∧ call_level c = Z.of_nat i) cs))).
Proof.
  induction cs as [|c cs IH]; intros l counts l' counts' outs i n Hc H Hi Hn Hlt; cbn [write_run] in H.
  { injection H as <- <- <-. cbn. change (clen []) with 0. by rewrite Z.add_0_r, u64_id. }
  apply bind_Some in H as ([l1 out] & H1 & H). apply bind_Some in H as ([[l2 counts2] outs'] & H2 & H).
  injection H as <- <- <-. rewrite clen_cons in Hc.
  destruct (call_accounts l c l1 out (clen cs) Hc (clen_nonneg _) H1) as (Hc1 & HP & _).
  pose proof (call_level_counts l counts c i n Hi Hlt) as Hi1.
  rewrite (IH l1 _ l2 _ outs' i _ Hc1 H2 Hi1 ltac:(case_decide; [apply u64_range|done]) Hlt).
  rewrite filter_cons, HP. f_equal.
  destruct (decide (passes l c = true ∧ call_level c = Z.of_nat i)); [|done].
  rewrite clen_cons. unfold u64. rewrite Zplus_mod_idemp_l. f_equal. lia.
Qed.

(** C20: the rate limiter's accounts.  Over any sequence of printf-style and key-value
    calls on a logger (counters far from wrapping), each call that passes the level filter
    either hands a record over or is counted as suppressed; every suppressed call is
    reported in exactly one notice, sent ahead of the next record that gets through, or is
    still waiting to be: the numbers in the notices and the growth of the waiting count add
    up to the growth of the suppressed total; and [dropped_queue_full] never grows by more
    than the calls that handed a record over. *)
Theorem logger_accounting l counts cs l' counts' outs :
  counters_ok l (clen cs) → write_run l counts cs = Some (l', counts', outs) →
  handed outs + (rl_total_suppressed (lg_rl l') - rl_total_suppressed (lg_rl l)) =
    clen (filter (λ c, passes l c = true) cs) ∧
  (∃ ns, Forall2 reports outs ns ∧ total ns + (rl_suppressed_count (lg_rl l') - rl_suppressed_count (lg_rl l)) =
     rl_total_suppressed (lg_rl l') - rl_total_suppressed (lg_rl l)) ∧
  0 <= lg_dropped l' - lg_dropped l <= handed outs.
Proof.
  intros Hc H. destruct (write_run_accounts cs l counts l' counts' outs Hc H) as (H1 & H2 & H3 & H4).
  split; [lia|]. split; [done|lia].
Qed.

Lemma format_message_len text : clen (format_message text) < CLOG_MAX_MESSAGE_SIZE.
Proof.
  unfold format_message, CLOG_MAX_MESSAGE_SIZE. destruct text as [t|]; [|done].
  rewrite Z.geb_leb. destruct (Z.leb_spec 4096 (clen t)); [|lia].
  rewrite clen_app, clen_take. change (clen (B "...")) with 3. lia.
Qed.

(** What a printf-style call hands over. A call that passes the filter and
    the limiter hands over its record last, after at most one notice; the
    record's message is the printed text, cut to 4092 bytes and an ellipsis
    when it does not fit, with the redaction rules applied: it always fits the
    4096-byte buffer, is the text itself when that is short and no rules are
    registered, and contains no registered pattern when masks and patterns
    share no byte. Level, position, module and trace ids are the caller's. *)
Theorem writevprintf_record l e lvl file line func l' out :
  passes l (C_printf e lvl file line func) = true →
  logger_writevprintf_internal l e lvl file line func = (l', out) → out ≠ [] →
  ∃ notice r msg, out = notice ++ [r] ∧ (length notice ≤ 1)%nat ∧ r_message r = Some msg ∧
    clen msg < CLOG_MAX_MESSAGE_SIZE ∧
    (e_rules e = [] → msg = format_message (e_text e)) ∧
    (∀ t, e_text e = Some t → clen t < CLOG_MAX_MESSAGE_SIZE → format_message (e_text e) = t) ∧
    (rules_disjoint (e_rules e) → ∀ rule, rule ∈ e_rules e → ¬ occurs (pattern rule) msg) ∧
    r_level r = lvl ∧ r_file r = file ∧ r_line r = line ∧ r_func r = func ∧
    r_module r = Some (lg_module l) ∧ (r_trace_id r, r_span_id r) = span_current_ids (e_trace e) ∧
    r_kv r = [] ∧ r_is_tombstone r = false.
Proof.
  unfold passes. cbn [call_level]. intros [Hi Hl]%andb_true_iff. unfold logger_writevprintf_internal.
  rewrite Hi. cbn [negb]. destruct (Z.ltb_spec lvl (level (config (lg_config l)))); [lia|].
  destruct (log_rate_limit_allow_for _ _) as [[rl supp] ok]. destruct ok; cbn [negb]; [|by intros [= _ <-]].
  set (msg := redact_message_if_needed (e_rules e) (format_message (e_text e)) CLOG_MAX_MESSAGE_SIZE).
  set (rec := make_record _ _ _ _ _ _ _ _).
  assert (Hm : lg_module (count_record l lvl) = lg_module l) by (unfold count_record; by destruct l).
  intros Hw Hne.
  assert (HO : ∃ notice, out = notice ++ [rec] ∧ (length notice ≤ 1)%nat).
  { destruct (supp >? 0); injection Hw as _ <-; [exists [notice_record rec supp]|exists []]; split; done || (cbn; lia). }
  destruct HO as (notice & -> & Hn). exists notice, rec, msg.
  pose proof (format_message_len (e_text e)) as Hfl.
  split; [done|]. split; [done|]. split; [done|].
  split; [apply redact_message_len; [done|vm_compute; done]|]. split.
  { intros HR. unfold msg. by rewrite HR. }
  split. { intros t -> Ht. unfold format_message. rewrite Z.geb_leb. by destruct (Z.leb_spec CLOG_MAX_MESSAGE_SIZE (clen t)); [lia|]. }
  split. { intros Hd rule Hr. apply redact_message_hides; try done. }
  unfold rec, make_record. cbn [r_level r_file r_line r_func r_module r_trace_id r_span_id r_kv r_is_tombstone]. rewrite Hm. split_and!; try done. by destruct (span_current_ids _).
Qed.

(** What a key-value call hands over: the redacted form of the record with
    the caller's message (empty for NULL) and the first sixteen attributes in
    order; with no redaction rules registered that record itself. *)
Theorem write_kv_record malloc_ok m l e lvl file line func msg kvs l' out :
  passes l (C_kv (redact_record malloc_ok (e_rules e) m) e lvl file line func msg kvs) = true →
  logger_write_kv_internal (redact_record malloc_ok (e_rules e) m) l e lvl file line func msg kvs = Some (l', out) →
  out ≠ [] →
  ∃ notice r0 r, out = notice ++ [r] ∧ (length notice ≤ 1)%nat ∧
    redact_record malloc_ok (e_rules e) m r0 = Some r ∧ (e_rules e = [] → r = r0) ∧
    r_message r0 = Some (or_default msg []) ∧ r_kv r0 = take 16 kvs ∧ clen (r_kv r0) <= CLOG_MAX_KV ∧
    r_level r0 = lvl ∧ r_file r0 = file ∧ r_line r0 = line ∧ r_func r0 = func.
Proof.
  unfold passes. cbn [call_level]. intros [Hi Hl]%andb_true_iff. unfold logger_write_kv_internal.
  rewrite Hi. cbn [negb]. destruct (Z.ltb_spec lvl (level (config (lg_config l)))); [lia|].
  destruct (log_rate_limit_allow_for _ _) as [[rl supp] ok]. destruct ok; cbn [negb]; [|by intros [= _ <-]].
  assert (Hk : take (Z.to_nat (if clen kvs >? CLOG_MAX_KV then CLOG_MAX_KV else clen kvs)) kvs = take 16 kvs).
  { rewrite Z.gtb_ltb. unfold CLOG_MAX_KV. destruct (Z.ltb_spec 16 (clen kvs)); [done|].
    rewrite !take_ge; [done|unfold clen in *; lia..]. }
  rewrite Hk. set (rec := make_record _ _ _ _ _ _ _ _).
  destruct (redact_record malloc_ok (e_rules e) m rec) as [r|] eqn:Er; [|by destruct (supp >? 0)].
  intros Hw Hne. assert (HO : ∃ notice, out = notice ++ [r] ∧ (length notice ≤ 1)%nat).
  { destruct (supp >? 0); cbn in Hw; injection Hw as _ <-; [exists [notice_record rec supp]|exists []];
      split; done || (cbn; lia). }
  destruct HO as (notice & -> & Hn). exists notice, rec, r. split; [done|]. split; [done|]. split; [done|].
  split. { intros HR. rewrite HR in Er. assert (E0 : redact_record malloc_ok [] m rec = Some rec) by reflexivity. congruence. }
  split; [done|]. split; [done|]. split; [|done]. unfold rec, make_record, CLOG_MAX_KV, clen. cbn [r_kv].
  rewrite length_take. lia.
Qed.

(** A logger at level INFO with a bucket of one token. *)
Definition test_logger : logger_t :=
  LoggerT true (ConfigOwner (config_defaults config_zero) [] [] [])
    (RateLimit.log_rate_limit_init_for (RlState false d0 d0 d0 0 0 0) true 1 1 0)
    (B "main") 42 0 0 true 0.
Definition test_env (t : cstr) (now : Z) : write_env :=
  WriteEnv (Some t) now now 7 trace_init [] (λ _, 0).

(** Below the level, accepted, suppressed twice, accepted after a refill. *)
Definition test_calls : list write_call :=
  [C_printf (test_env (B "a") 0) LOG_LEVEL_DEBUG None 1 None;
   C_printf (test_env (B "b") 0) LOG_LEVEL_INFO None 2 None;
   C_printf (test_env (B "c") 1) LOG_LEVEL_INFO None 3 None;
   C_kv Some (test_env (B "") 2) LOG_LEVEL_ERROR None 4 None (Some (B "d")) [];
   C_printf (test_env (B "e") 5000) LOG_LEVEL_INFO None 5 None].

Lemma logger_accounting_witness :
  ∃ l' counts' outs ns, write_run test_logger (replicate 6 0) test_calls = Some (l', counts', outs) ∧
    map length outs = [0; 1; 0; 0; 2]%nat ∧ handed outs + (rl_total_suppressed (lg_rl l') - 0) = 4 ∧
    Forall2 reports outs ns ∧ total ns = 2.
Proof.
  destruct (write_run test_logger (replicate 6 0) test_calls) as [[[l' counts'] outs]|] eqn:E; [|vm_compute in E; discriminate E].
  destruct (logger_accounting test_logger (replicate 6 0) test_calls l' counts' outs) as (H1 & (ns & H2 & H3) & _);
    [vm_compute; repeat split; discriminate|exact E|].
  assert ((λ x, (map length x.2, rl_total_suppressed (lg_rl x.1.1), rl_suppressed_count (lg_rl x.1.1))) <$>
    write_run test_logger (replicate 6 0) test_calls = Some ([0; 1; 0; 0; 2]%nat, 2, 0)) as F by (vm_compute; reflexivity).
  rewrite E in F. cbn [fmap option_fmap option_map fst snd] in F. injection F as F1 F2 F3. rewrite F2, F3 in *.
  change (rl_total_suppressed (lg_rl test_logger)) with 0 in *. change (rl_suppressed_count (lg_rl test_logger)) with 0 in *.
  exists l', counts', outs, ns. rewrite F2. split; [reflexivity|]. split; [exact F1|]. split; [rewrite H1; reflexivity|].
  split; [exact H2|lia].
Defined.

Lemma writevprintf_record_witness :
  ∃ l' out, logger_writevprintf_internal test_logger (test_env (B "hello") 0) LOG_LEVEL_WARN (Some (B "a.c")) 3 None = (l', out) ∧
  ∃ notice r msg, out = notice ++ [r] ∧ r_message r = Some msg ∧ msg = B "hello" ∧ r_module r = Some (B "main").
Proof.
  destruct (logger_writevprintf_internal test_logger (test_env (B "hello") 0) LOG_LEVEL_WARN (Some (B "a.c")) 3 None)
    as [l' out] eqn:E.
  exists l', out. split; [done|].
  destruct (writevprintf_record test_logger (test_env (B "hello") 0) LOG_LEVEL_WARN (Some (B "a.c")) 3 None l' out
              eq_refl E) as (notice & r & msg & H1 & _ & H2 & _ & H3 & _ & _ & _ & _ & _ & _ & H4 & _).
  { intros ->. vm_compute in E. discriminate E. }
  exists notice, r, msg. split; [done|]. split; [done|]. split; [|done]. by rewrite H3.
Defined.

Lemma write_kv_record_witness :
  ∃ l' out, logger_write_kv_internal (redact_record (λ _, true) [] (RMem [] (λ _, []) ∅ 0)) test_logger
              (test_env [] 0) LOG_LEVEL_WARN None 3 None None (replicate 20 (ClogKv None (CLOG_KV_TYPE_INT 1))) = Some (l', out) ∧
  ∃ notice r, out = notice ++ [r] ∧ r_message r = Some [] ∧ clen (r_kv r) <= 16.
Proof.
  destruct (logger_write_kv_internal (redact_record (λ _, true) [] (RMem [] (λ _, []) ∅ 0)) test_logger
              (test_env [] 0) LOG_LEVEL_WARN None 3 None None (replicate 20 (ClogKv None (CLOG_KV_TYPE_INT 1))))
    as [[l' out]|] eqn:E; [|vm_compute in E; discriminate E].
  exists l', out. split; [done|].
  destruct (write_kv_record (λ _, true) (RMem [] (λ _, []) ∅ 0) test_logger (test_env [] 0) LOG_LEVEL_WARN None 3 None None
              (replicate 20 (ClogKv None (CLOG_KV_TYPE_INT 1))) l' out eq_refl E)
    as (notice & r0 & r & H1 & _ & _ & Hr & H2 & _ & H3 & _).
  { intros ->. vm_compute in E. discriminate E. }
  exists notice, r. rewrite (Hr eq_refl). rewrite (Hr eq_refl) in H1. split; [exact H1|]. split; [exact H2|exact H3].
Defined.
