(* ===== verification/Plugin.v ===== *)
(** * The plugin loader (core/plugin_loader.c)

    The table of loaded libraries: loading with its deduplication and version check,
    unloading, directory scans, the sinks a configuration asks for, and shutdown.  A
    library is a parameter: what [dlopen], [dlsym] and its functions answer.  Each
    successful [dlopen] is a fresh number in [p_open] until it is closed; closing
    anything else sets [p_bad]. *)
From S2P Require Import Prelude Record Config Queue.

Local Open Scope Z_scope.

Definition CLOGX_PLUGIN_ABI_VERSION : Z := 1.
Definition CLOGX_MAX_LOADED_PLUGINS : nat := 16.

Record clogx_plugin_t := PluginDesc {
  abi_version : Z; plugin_version : Z; caps : Z; pl_name : option cstr; pl_description : option cstr
}.

Section loader.
Context {K : Type}.

(** A shared library: its descriptor function ([None] if the symbol is missing; it may
    return NULL) and its factory, which may be missing too. *)
Record library := Library { lib_desc : option (option clogx_plugin_t); lib_create : option (cstr → option K) }.
Context (dlopen : cstr → option library).

Record handle := Handle {
  h_dl : option nat; h_create : option (cstr → option K); h_desc : option clogx_plugin_t; h_path : cstr; h_used : bool
}.
Definition handle_zero : handle := Handle None None None [] false.

Record plugins_t := Plugins {
  p_handles : list handle; p_count : Z; p_open : gset nat; p_next : nat; p_bad : bool
}.
Definition plugins_init : plugins_t := Plugins (replicate CLOGX_MAX_LOADED_PLUGINS handle_zero) 0 ∅ 0 false.

Fixpoint find_handle (f : handle → bool) (l : list handle) : option nat :=
  match l with [] => None | h :: l' => if f h then Some 0%nat else S <$> find_handle f l' end.

Definition find_slot_locked (s : plugins_t) (so_path : cstr) : option nat :=
  find_handle (λ h, h_used h && streq (h_path h) so_path) (p_handles s).
Definition alloc_slot_locked (s : plugins_t) : option nat := find_handle (λ h, negb (h_used h)) (p_handles s).

Definition set_handle (s : plugins_t) (i : nat) (h : handle) : plugins_t :=
  Plugins (<[i := h]> (p_handles s)) (p_count s) (p_open s) (p_next s) (p_bad s).

(** [clog_dlclose]. *)
Definition dlclose (s : plugins_t) (id : nat) : plugins_t :=
  Plugins (p_handles s) (p_count s) (p_open s ∖ {[id]}) (p_next s) (p_bad s || negb (bool_decide (id ∈ p_open s))).

Definition log_plugin_load (s : plugins_t) (so_path : option cstr) : plugins_t * option nat :=
  match so_path with
  | None | Some [] => (s, None)
  | Some path =>
      match find_slot_locked s path with
      | Some slot => (s, Some slot)
      | None =>
          match alloc_slot_locked s with
          | None => (s, None)
          | Some slot =>
              let s := set_handle s slot handle_zero in
              match dlopen path with
              | None => (s, None)
              | Some l =>
                  let id := p_next s in
                  let s := Plugins (p_handles s) (p_count s) (p_open s ∪ {[id]}) (S id) (p_bad s) in
                  let reject := (set_handle (dlclose s id) slot handle_zero, None) in
                  match lib_desc l with
                  | None => reject
                  | Some None => reject
                  | Some (Some d) =>
                      if negb (abi_version d =? CLOGX_PLUGIN_ABI_VERSION) then reject
                      else
                        let h := Handle (Some id) (lib_create l) (Some d) (snprintf_s CLOG_MAX_PATH_SIZE path) true in
                        let s := set_handle s slot h in
                        (Plugins (p_handles s) (p_count s + 1) (p_open s) (p_next s) (p_bad s), Some slot)
                  end
              end
          end
      end
  end.

Definition close_handle (s : plugins_t) (h : handle) : plugins_t :=
  match h_dl h with Some id => dlclose s id | None => s end.

Definition log_plugin_unload (s : plugins_t) (h : option nat) : plugins_t :=
  match h with
  | None => s
  | Some i =>
      match p_handles s !! i with
      | Some hd =>
          if negb (h_used hd) then s
          else let s := set_handle (close_handle s hd) i handle_zero in
               Plugins (p_handles s) (p_count s - 1) (p_open s) (p_next s) (p_bad s)
      | None => s
      end
  end.

Definition log_plugin_create_sink (s : plugins_t) (h : option nat) (params_json : cstr) : option K :=
  i ← h; hd ← p_handles s !! i;
  if h_used hd then f ← h_create hd; f params_json else None.

Definition log_plugin_info (s : plugins_t) (h : option nat) : option clogx_plugin_t :=
  i ← h; hd ← p_handles s !! i; if h_used hd then h_desc hd else None.

(** ** log_plugin_scan *)

(** Visible names ending in ".so", short enough for the name buffer. *)
Definition is_candidate (name : cstr) : bool :=
  (3 <? clen name) && negb (bool_decide (head name = Some 46)) &&
  streq (drop (length name - 3) name) (B ".so") && (clen name <? CLOG_MAX_PATH_SIZE).

Fixpoint collect (n_found : nat) (entries : list cstr) : list cstr :=
  match entries with
  | [] => []
  | name :: entries' =>
      if (n_found <? CLOGX_MAX_LOADED_PLUGINS)%nat then
        if is_candidate name then name :: collect (S n_found) entries' else collect n_found entries'
      else []
  end.

Fixpoint scan_load (s : plugins_t) (dir : cstr) (names : list cstr) : plugins_t * list nat :=
  match names with
  | [] => (s, [])
  | name :: names' =>
      let full_path := dir ++ B "/" ++ name in
      if clen full_path >=? CLOG_MAX_PATH_SIZE + 256 then scan_load s dir names'
      else
        let '(s, h) := log_plugin_load s (Some full_path) in
        let '(s, l) := scan_load s dir names' in
        (s, option_list h ++ l)
  end.

(** [entries] is what [readdir] returns, [None] when [opendir] fails; [out] keeps the
    first [max] handles, the result counts all. *)
Definition log_plugin_scan (s : plugins_t) (dir : option cstr) (entries : option (list cstr)) (max : Z)
    : plugins_t * list nat * Z :=
  match dir, entries with
  | None, _ => (s, [], -1)
  | Some _, None => (s, [], 0)
  | Some dir, Some entries =>
      let '(s, l) := scan_load s dir (collect 0 entries) in (s, take (Z.to_nat max) l, clen l)
  end.

(** ** log_plugin_create_sinks_from_config *)

(** The configured paths with their parameters, in order; [room] is how many sinks
    may still be created. *)
Fixpoint create_sinks (s : plugins_t) (room : nat) (l : list (cstr * cstr)) : plugins_t * list K :=
  match l, room with
  | [], _ | _, O => (s, [])
  | (so_path, params) :: l', S room' =>
      match so_path with
      | [] => create_sinks s room l'
      | _ =>
          let '(s, h) := log_plugin_load s (Some so_path) in
          match h with
          | None => create_sinks s room l'
          | Some _ =>
              match log_plugin_create_sink s h params with
              | None => create_sinks s room l'
              | Some k => let '(s, ks) := create_sinks s room' l' in (s, k :: ks)
              end
          end
      end
  end.

Definition log_plugin_create_sinks_from_config (s : plugins_t) (cfg : option log_config_t) (max_sinks : Z)
    : plugins_t * list K :=
  match cfg with
  | None => (s, [])
  | Some c =>
      if max_sinks <=? 0 then (s, [])
      else create_sinks s (Z.to_nat max_sinks)
             (take (Z.to_nat (plugin_count c)) (zip (plugin_so_paths c) (plugin_params_json c)))
  end.

(** ** log_plugin_shutdown_all *)

Fixpoint shutdown_from (s : plugins_t) (i : nat) (l : list handle) : plugins_t :=
  match l with
  | [] => s
  | h :: l' =>
      let s := if h_used h then set_handle (close_handle s h) i handle_zero else s in
      shutdown_from s (S i) l'
  end.

Definition log_plugin_shutdown_all (s : plugins_t) : plugins_t :=
  let s := shutdown_from s 0 (p_handles s) in
  Plugins (p_handles s) 0 (p_open s) (p_next s) (p_bad s).

(** ** The invariant *)

Definition live (h : handle) : option nat := if h_used h then h_dl h else None.

Record plugins_ok (s : plugins_t) : Prop := {
  po_len : length (p_handles s) = CLOGX_MAX_LOADED_PLUGINS;
  po_used i h : p_handles s !! i = Some h → h_used h = true →
    is_Some (h_dl h) ∧ ∃ d, h_desc h = Some d ∧ abi_version d = CLOGX_PLUGIN_ABI_VERSION;
  po_nodup : NoDup (omap live (p_handles s));
  po_open id : id ∈ p_open s ↔ id ∈ omap live (p_handles s);
  po_next id : id ∈ p_open s → (id < p_next s)%nat;
  po_bad : p_bad s = false
}.

(** The handles counted. *)
Definition counted (s : plugins_t) : Prop := p_count s = clen (omap live (p_handles s)).

Lemma find_handle_Some f l i : find_handle f l = Some i → ∃ h, l !! i = Some h ∧ f h = true.
Proof using.
  revert i. induction l as [|h l IH]; intros i; cbn; [done|]. destruct (f h) eqn:E; [intros [= <-]; eauto|].
  intros (j & Hj & ->)%fmap_Some. by apply IH.
Qed.

Lemma find_handle_None f l : find_handle f l = None → ∀ i h, l !! i = Some h → f h = false.
Proof using.
  induction l as [|x l IH]; cbn; [done|]. destruct (f x) eqn:E; [done|]. intros Hn [|i] h; cbn; [by intros [= <-]|].
  apply fmap_None in Hn. by apply IH.
Qed.

(** Rewriting an unused slot with nothing changes nothing that matters. *)
Lemma clear_unused s i h :
  plugins_ok s → counted s → p_handles s !! i = Some h → h_used h = false →
  plugins_ok (set_handle s i handle_zero) ∧ counted (set_handle s i handle_zero).
Proof using.
  intros [] Hc Hi Hu.
  assert (omap live (<[i := handle_zero]> (p_handles s)) ≡ₚ omap live (p_handles s)) as Hp.
  { apply (omap_insert_same _ _ _ h); [done|]. unfold live. by rewrite Hu. }
  split; [|unfold counted, clen; cbn; by rewrite Hp]. constructor; cbn; try done.
  - by rewrite length_insert.
  - intros j h' [(-> & <- & _)|[_ Hj]]%list_lookup_insert_Some; [done|]. by apply po_used0 with j.
  - by rewrite Hp.
  - intros id. by rewrite Hp.
Qed.

Lemma dlclose_fresh s id : id ∉ p_open s →
  p_open (dlclose (Plugins (p_handles s) (p_count s) (p_open s ∪ {[id]}) (S id) (p_bad s)) id) = p_open s ∧
  p_bad (dlclose (Plugins (p_handles s) (p_count s) (p_open s ∪ {[id]}) (S id) (p_bad s)) id) = p_bad s.
Proof using.
  intros H. cbn. split; [apply set_eq; set_solver|]. rewrite bool_decide_true by set_solver. by rewrite orb_false_r.
Qed.

Lemma log_plugin_load_ok s path :
  plugins_ok s → counted s →
  plugins_ok (log_plugin_load s path).1 ∧ counted (log_plugin_load s path).1 ∧
  ∀ i, (log_plugin_load s path).2 = Some i → ∃ h, p_handles (log_plugin_load s path).1 !! i = Some h ∧ h_used h = true.
Proof using.
  intros Hok Hc. unfold log_plugin_load. destruct path as [[|c p]|]; [done| |done]. set (path := c :: p).
  destruct (find_slot_locked s path) as [slot|] eqn:Ef.
  { split; [done|]. split; [done|]. intros i [= <-]. apply find_handle_Some in Ef as (h & Hh & Hf).
    exists h. split; [done|]. by apply andb_true_iff in Hf as [? _]. }
  destruct (alloc_slot_locked s) as [slot|] eqn:Ea; [|done].
  apply find_handle_Some in Ea as (h & Hh & Hu%negb_true_iff).
  destruct (clear_unused s slot h Hok Hc Hh Hu) as [Hok1 Hc1]. set (s1 := set_handle s slot handle_zero) in *.
  assert (p_handles s1 !! slot = Some handle_zero) as Hz.
  { cbn. apply list_lookup_insert_eq. by eapply lookup_lt_Some. }
  assert (<[slot := handle_zero]> (p_handles s1) = p_handles s1) as Hins by (by apply list_insert_id).
  clearbody s1. destruct (dlopen path) as [l|]; [|done]. set (id := p_next s1).
  assert (id ∉ p_open s1) as Hfresh by (intros Hin%(po_next _ Hok1); unfold id in Hin; lia).
  destruct (dlclose_fresh s1 id Hfresh) as [Ho Hb]. set (s2 := Plugins _ _ _ (S id) _) in *.
  assert (plugins_ok (set_handle (dlclose s2 id) slot handle_zero) ∧ counted (set_handle (dlclose s2 id) slot handle_zero)) as [G1 G2].
  { assert (p_handles (set_handle (dlclose s2 id) slot handle_zero) = p_handles s1) as Hsame
      by (cbn; exact Hins).
    destruct Hok1. split; [|unfold counted; by rewrite Hsame]. constructor; rewrite ?Hsame; try done.
    - intros x. change (p_open (set_handle ?t _ _)) with (p_open t). rewrite Ho. apply po_open0.
    - intros x. change (p_open (set_handle ?t _ _)) with (p_open t). rewrite Ho. intros Hx%po_next0. cbn in *. unfold id. lia.
    - change (p_bad (set_handle ?t _ _)) with (p_bad t). by rewrite Hb. }
  destruct (lib_desc l) as [[d|]|]; [|by split_and!..].
  destruct (Z.eqb_spec (abi_version d) CLOGX_PLUGIN_ABI_VERSION) as [Hv|]; cbn [negb]; [|by split_and!].
  set (hd := Handle (Some id) _ _ _ true).
  assert (omap live (<[slot := hd]> (p_handles s1)) ≡ₚ omap live (p_handles s1) ++ [id]) as Hp.
  { pose proof (omap_insert live _ _ _ hd Hz) as Hp. cbn in Hp. by rewrite app_nil_r in Hp. }
  destruct Hok1. split; [|split].
  - constructor; cbn.
    + by rewrite length_insert.
    + intros j h' [(-> & <- & _)|[_ Hj]]%list_lookup_insert_Some; [intros _; by eauto|]. by apply po_used0 with j.
    + rewrite Hp. apply NoDup_app. split; [done|]. split; [|apply NoDup_singleton].
      intros x Hx ->%list_elem_of_singleton. by apply po_open0 in Hx.
    + intros x. rewrite Hp, elem_of_union, elem_of_app, po_open0, elem_of_singleton, list_elem_of_singleton. done.
    + intros x [Hx%po_next0| ->%elem_of_singleton]%elem_of_union; unfold id; cbn in *; lia.
    + done.
  - unfold counted in *. cbn. unfold clen. rewrite Hp, length_app. cbn in *. unfold clen in *. lia.
  - intros i [= <-]. exists hd. cbn. split; [|done]. apply list_lookup_insert_eq. by eapply lookup_lt_Some.
Qed.

(** Clearing a slot in use. *)
Lemma clear_used s i h :
  plugins_ok s → p_handles s !! i = Some h → h_used h = true →
  plugins_ok (set_handle (close_handle s h) i handle_zero) ∧
  clen (omap live (p_handles (set_handle (close_handle s h) i handle_zero))) = clen (omap live (p_handles s)) - 1.
Proof using.
  intros [] Hi Hu. destruct (po_used0 i h Hi Hu) as ([id Hid] & _). unfold close_handle. rewrite Hid.
  assert (omap live (<[i := handle_zero]> (p_handles s)) ++ [id] ≡ₚ omap live (p_handles s)) as Hp.
  { pose proof (omap_insert live _ _ _ handle_zero Hi) as Hp. unfold live in Hp at 2. rewrite Hu, Hid in Hp. cbn in Hp.
    by rewrite app_nil_r in Hp. }
  assert (NoDup (omap live (<[i := handle_zero]> (p_handles s)) ++ [id])) as Hnd by (by rewrite Hp).
  apply NoDup_app in Hnd as (Hnd & Hni & _).
  assert (id ∈ p_open s) as Hin by (apply po_open0; rewrite <- Hp; apply elem_of_app; right; by apply list_elem_of_singleton).
  split.
  - constructor; cbn; try done.
    + by rewrite length_insert.
    + intros j h' [(-> & <- & _)|[_ Hj]]%list_lookup_insert_Some; [done|]. by apply po_used0 with j.
    + intros x. rewrite elem_of_difference, po_open0, <- Hp, elem_of_app, list_elem_of_singleton, elem_of_singleton.
      split; [tauto|]. intros Hx. split; [by left|]. intros ->. eapply Hni; [exact Hx|]. by apply list_elem_of_singleton.
    + intros x [Hx _]%elem_of_difference. by apply po_next0.
    + rewrite po_bad0. cbn. by rewrite bool_decide_true.
  - cbn. pose proof (f_equal Z.of_nat (Permutation_length Hp)) as Hl. rewrite length_app in Hl. cbn in Hl. unfold clen. lia.
Qed.

Lemma log_plugin_unload_ok s h :
  plugins_ok s → counted s → plugins_ok (log_plugin_unload s h) ∧ counted (log_plugin_unload s h).
Proof using.
  intros Hok Hc. unfold log_plugin_unload. destruct h as [i|]; [|done]. destruct (p_handles s !! i) as [hd|] eqn:Hi; [|done].
  destruct (h_used hd) eqn:Hu; [|done]. cbn [negb]. destruct (clear_used s i hd Hok Hi Hu) as [[] H2].
  split; [by constructor|]. unfold counted in *. cbn [p_count p_handles]. rewrite H2.
  unfold close_handle, dlclose. destruct (h_dl hd); cbn; lia.
Qed.

Lemma shutdown_from_ok l : ∀ s i,
  plugins_ok s → drop i (p_handles s) = l → Forall (λ h, h_used h = false) (take i (p_handles s)) →
  plugins_ok (shutdown_from s i l) ∧ Forall (λ h, h_used h = false) (p_handles (shutdown_from s i l)).
Proof using.
  induction l as [|h l IH]; intros s i Hok Hl Ht; cbn [shutdown_from].
  { split; [done|]. rewrite <- (take_drop i (p_handles s)), Hl, app_nil_r. done. }
  assert (p_handles s !! i = Some h) as Hi.
  { rewrite <- (Nat.add_0_r i), <- lookup_drop, Hl. done. }
  set (s' := if h_used h then _ else s).
  assert (plugins_ok s' ∧ drop (S i) (p_handles s') = l ∧ Forall (λ h, h_used h = false) (take (S i) (p_handles s'))) as (H1 & H2 & H3).
  { assert (drop (S i) (p_handles s) = l) as Hd.
    { rewrite <- (Nat.add_1_r i), <- drop_drop, Hl. done. }
    unfold s'. destruct (h_used h) eqn:Hu.
    - destruct (clear_used s i h Hok Hi Hu) as [H1 _]. split; [done|].
      assert (p_handles (set_handle (close_handle s h) i handle_zero) = <[i := handle_zero]> (p_handles s)) as ->
        by (unfold close_handle; by destruct (h_dl h)).
      split; [by rewrite drop_insert_lt by lia|].
      rewrite (take_S_r _ i handle_zero) by (apply list_lookup_insert_eq; by eapply lookup_lt_Some).
      rewrite take_insert_ge by lia. apply Forall_app. by repeat constructor.
    - split; [done|]. split; [done|]. rewrite (take_S_r _ i h) by done. apply Forall_app. by repeat constructor. }
  by apply IH.
Qed.
End loader.

Arguments library : clear implicits.
Arguments plugins_t : clear implicits.
Arguments handle : clear implicits.

Section facts.
Context {K : Type} (dlopen : cstr → option (library K)).
Implicit Types (s : plugins_t K).

Lemma scan_load_ok dir names : ∀ s,
  plugins_ok s → counted s →
  plugins_ok (scan_load dlopen s dir names).1 ∧ counted (scan_load dlopen s dir names).1 ∧
  (length (scan_load dlopen s dir names).2 ≤ length names)%nat.
Proof.
  induction names as [|x names IH]; intros s Hok Hc; cbn [scan_load]; [done|].
  destruct (_ >=? _).
  { destruct (IH s Hok Hc) as (? & ? & ?). split_and!; cbn; try done. lia. }
  destruct (log_plugin_load_ok dlopen s (Some (dir ++ B "/" ++ x)) Hok Hc) as (H1 & H2 & _).
  destruct (log_plugin_load dlopen s _) as [s1 h]. cbn in H1, H2. destruct (IH s1 H1 H2) as (? & ? & ?).
  destruct (scan_load dlopen s1 dir names) as [s2 l]. cbn in *. split_and!; try done.
  rewrite length_app. destruct h; cbn; lia.
Qed.

Lemma collect_bound n entries : (length (collect n entries) ≤ CLOGX_MAX_LOADED_PLUGINS - n)%nat.
Proof.
  revert n. induction entries as [|x l IH]; intros n; cbn [collect length]; [lia|].
  destruct (Nat.ltb_spec n CLOGX_MAX_LOADED_PLUGINS); cbn [length]; [|lia].
  destruct (is_candidate x); [|apply IH]. cbn [length]. specialize (IH (S n)). lia.
Qed.

Lemma create_sinks_ok l : ∀ s room,
  plugins_ok s → counted s →
  plugins_ok (create_sinks dlopen s room l).1 ∧ counted (create_sinks dlopen s room l).1 ∧
  (length (create_sinks dlopen s room l).2 ≤ room)%nat.
Proof.
  induction l as [|[p q] l IH]; intros s room Hok Hc; cbn [create_sinks]; [split_and!; try done; cbn; lia|].
  destruct room as [|room]; [done|]. destruct p as [|c p]; [by apply IH|].
  destruct (log_plugin_load_ok dlopen s (Some (c :: p)) Hok Hc) as (H1 & H2 & _).
  destruct (log_plugin_load dlopen s _) as [s1 [i|]]; cbn in H1, H2; [|by apply IH].
  destruct (log_plugin_create_sink s1 _ q) as [k|]; [|by apply IH].
  destruct (IH s1 room H1 H2) as (? & ? & ?). destruct (create_sinks dlopen s1 room l) as [s2 ks]. cbn in *.
  split_and!; try done. lia.
Qed.

Lemma shutdown_all_ok s :
  plugins_ok s → plugins_ok (log_plugin_shutdown_all s) ∧ counted (log_plugin_shutdown_all s) ∧
  p_open (log_plugin_shutdown_all s) = ∅.
Proof.
  intros Hok. destruct (shutdown_from_ok (p_handles s) s 0 Hok (drop_0 _) ltac:(constructor)) as [[] H2].
  unfold log_plugin_shutdown_all. set (s' := shutdown_from s 0 (p_handles s)) in *.
  assert (omap live (p_handles s') = []) as Hl.
  { clear -H2. induction H2 as [|h l Hu _ IH]; [done|]. cbn. unfold live at 1. rewrite Hu. exact IH. }
  split; [by constructor|]. split; [unfold counted; cbn; by rewrite Hl|]. cbn. apply set_eq. intros id.
  by rewrite po_open0, Hl, elem_of_nil, elem_of_empty.
Qed.

(** ** Runs *)

Inductive plugin_op :=
  | PO_load (path : option cstr) | PO_unload (h : option nat)
  | PO_scan (dir : option cstr) (entries : option (list cstr)) (max : Z)
  | PO_config (cfg : option log_config_t) (max_sinks : Z) | PO_shutdown.

Definition plugin_exec s (o : plugin_op) : plugins_t K :=
  match o with
  | PO_load path => (log_plugin_load dlopen s path).1
  | PO_unload h => log_plugin_unload s h
  | PO_scan dir entries max => (log_plugin_scan dlopen s dir entries max).1.1
  | PO_config cfg max => (log_plugin_create_sinks_from_config dlopen s cfg max).1
  | PO_shutdown => log_plugin_shutdown_all s
  end.

Definition plugin_run (ops : list plugin_op) : plugins_t K := foldl plugin_exec plugins_init ops.

Lemma plugin_exec_ok s o : plugins_ok s → counted s → plugins_ok (plugin_exec s o) ∧ counted (plugin_exec s o).
Proof.
  intros Hok Hc. destruct o as [path|h|dir entries max|cfg max|]; cbn [plugin_exec].
  - destruct (log_plugin_load_ok dlopen s path Hok Hc) as (? & ? & _). done.
  - by apply log_plugin_unload_ok.
  - unfold log_plugin_scan. destruct dir as [dir|]; [|done]. destruct entries as [l|]; [|done].
    destruct (scan_load_ok dir (collect 0 l) s Hok Hc) as (? & ? & _). by destruct (scan_load dlopen s dir _).
  - unfold log_plugin_create_sinks_from_config. destruct cfg as [c|]; [|done]. destruct (max <=? 0); [done|].
    match goal with |- context [create_sinks _ _ ?r ?l] => destruct (create_sinks_ok l s r Hok Hc) as (? & ? & _) end. done.
  - destruct (shutdown_all_ok s Hok) as (? & ? & _). done.
Qed.

Lemma plugin_run_ok ops : plugins_ok (plugin_run ops) ∧ counted (plugin_run ops).
Proof.
  unfold plugin_run. assert (plugins_ok (K := K) plugins_init ∧ counted (K := K) plugins_init) as [H1 H2].
  { assert (∀ i h, p_handles (K := K) plugins_init !! i = Some h → h = handle_zero) as Hz.
    { intros i h [-> _]%lookup_replicate_1. done. }
    split; [|done]. constructor; cbn; try done.
    - intros i h ->%Hz. done.
    - constructor.
    - intros id. by rewrite elem_of_empty, elem_of_nil. }
  revert H1 H2. generalize (plugins_init (K := K)) as s. induction ops as [|o ops IH]; intros s H1 H2; [done|]. cbn.
  destruct (plugin_exec_ok s o H1 H2). by apply IH.
Qed.
End facts.

(** ** Properties *)

(** C33: the plugin table.  After any loads, unloads, scans, reconfigurations and
    shutdowns, whatever the libraries answer: no library was closed twice; the open
    libraries are exactly those of the slots in use, each in one slot, and
    [g_handle_count] is their number; each has a descriptor of the right ABI version;
    and a shutdown then leaves no library open. *)
Theorem plugin_table_correct {K} (dlopen : cstr → option (library K)) ops :
  let s := plugin_run dlopen ops in
  p_bad s = false ∧ NoDup (omap live (p_handles s)) ∧
  (∀ id, id ∈ p_open s ↔ id ∈ omap live (p_handles s)) ∧ p_count s = clen (omap live (p_handles s)) ∧
  (∀ i d, log_plugin_info s (Some i) = Some d → abi_version d = CLOGX_PLUGIN_ABI_VERSION) ∧
  p_open (log_plugin_shutdown_all s) = ∅ ∧ p_bad (log_plugin_shutdown_all s) = false.
Proof.
  intros s. destruct (plugin_run_ok dlopen ops) as [Hok Hc]. fold s in Hok, Hc.
  destruct (shutdown_all_ok s Hok) as (Hs & _ & Ho). pose proof Hok as [].
  split_and!; try done; [|by apply po_bad].
  intros i d Hi. unfold log_plugin_info in Hi. cbn in Hi. apply bind_Some in Hi as (h & Hh & Hi).
  destruct (h_used h) eqn:Hu; [|done]. destruct (po_used0 i h Hh Hu) as (_ & d' & Hd & Hv). congruence.
Qed.

(** Loading is idempotent.  A library loaded from a path of fewer than 512 bytes is
    found again: a second load of that path opens nothing and returns the same slot,
    whose descriptor is available. *)
Theorem plugin_load_once {K} (dlopen : cstr → option (library K)) ops path s' i :
  clen path < CLOG_MAX_PATH_SIZE → log_plugin_load dlopen (plugin_run dlopen ops) (Some path) = (s', Some i) →
  log_plugin_load dlopen s' (Some path) = (s', Some i) ∧ is_Some (log_plugin_info s' (Some i)).
Proof.
  intros Hlen H. destruct (plugin_run_ok dlopen ops) as [Hok Hc]. set (s := plugin_run dlopen ops) in *.
  destruct (log_plugin_load_ok dlopen s (Some path) Hok Hc) as (Hok' & _ & Hi). rewrite H in Hok', Hi. cbn in Hok', Hi.
  destruct (Hi i eq_refl) as (h & Hh & Hu). split.
  2:{ unfold log_plugin_info. cbn. rewrite Hh. cbn. rewrite Hu. destruct (po_used _ Hok' i h Hh Hu) as (_ & d & -> & _). by eexists. }
  destruct path as [|c p]; [done|]. unfold log_plugin_load in H |- * at 1. set (path := c :: p) in *.
  destruct (find_slot_locked s path) as [j|] eqn:Ef; [injection H as <- <-; by rewrite Ef|].
  assert (find_slot_locked s' path = Some i) as ->; [|done].
  destruct (alloc_slot_locked s) as [slot|]; [|done].
  destruct (dlopen path) as [l|]; [|done]. destruct (lib_desc l) as [[d|]|]; [|done..].
  destruct (negb _); [done|]. injection H as <- <-. unfold find_slot_locked in *. cbn [p_handles set_handle].
  rewrite list_insert_insert_eq, snprintf_s_id by done. revert Ef Hh. cbn [p_handles set_handle].
  rewrite list_insert_insert_eq. clear. revert slot.
  induction (p_handles s) as [|x l' IH]; intros slot; cbn [find_handle]; [done|].
  destruct (h_used x && streq (h_path x) path) eqn:Ex; [done|]. intros Hn%fmap_None Hh. destruct slot as [|slot]; cbn.
  - unfold streq. by rewrite bool_decide_true.
  - cbn in Hh. rewrite Ex. apply fmap_Some. exists slot. split; [|done]. exact (IH slot Hn Hh).
Qed.

(** Never more plugin sinks than there is room for: neither a configuration nor a
    scan yields more than asked, so the caller's arrays are not overrun. *)
Theorem plugin_sinks_bounded {K} (dlopen : cstr → option (library K)) ops cfg max dir entries :
  let s := plugin_run dlopen ops in
  clen (log_plugin_create_sinks_from_config dlopen s cfg max).2 <= Z.max 0 max ∧
  clen (log_plugin_scan dlopen s dir entries max).1.2 <= Z.max 0 max ∧
  -1 <= (log_plugin_scan dlopen s dir entries max).2 <= Z.of_nat CLOGX_MAX_LOADED_PLUGINS.
Proof.
  intros s. destruct (plugin_run_ok dlopen ops) as [Hok Hc]. fold s in Hok, Hc. split.
  - unfold log_plugin_create_sinks_from_config. destruct cfg as [c|]; [|cbn [fst snd]; rewrite clen_nil; unfold CLOGX_MAX_LOADED_PLUGINS; lia].
    destruct (Z.leb_spec max 0); [cbn [fst snd]; rewrite clen_nil; lia|].
    match goal with |- context [create_sinks _ _ ?r ?l] => destruct (create_sinks_ok dlopen l s r Hok Hc) as (_ & _ & Hl) end.
    unfold clen. lia.
  - unfold log_plugin_scan. destruct dir as [dir|]; [|cbn [fst snd]; rewrite clen_nil; unfold CLOGX_MAX_LOADED_PLUGINS; lia]. destruct entries as [l|]; [|cbn [fst snd]; rewrite clen_nil; unfold CLOGX_MAX_LOADED_PLUGINS; lia].
    destruct (scan_load_ok dlopen dir (collect 0 l) s Hok Hc) as (_ & _ & Hl). pose proof (collect_bound 0 l).
    destruct (scan_load dlopen s dir _) as [s1 out]. cbn [fst snd] in *. rewrite clen_take. unfold clen. lia.
Qed.

(** ** Concrete libraries *)

Definition test_lib (p : cstr) : option (library Z) :=
  if prefixb (B "/lib/") p
  then Some (Library (Some (Some (PluginDesc 1 7 0 (Some (B "kafka")) (Some (B "sink"))))) (Some (λ q, Some (clen q))))
  else None.

Lemma plugin_load_once_witness :
  ∃ s' i, log_plugin_load test_lib (plugin_run test_lib [PO_load (Some (B "/lib/a.so"))]) (Some (B "/lib/b.so")) = (s', Some i) ∧
    log_plugin_load test_lib s' (Some (B "/lib/b.so")) = (s', Some i) ∧ i = 1%nat.
Proof.
  destruct (log_plugin_load test_lib (plugin_run test_lib [PO_load (Some (B "/lib/a.so"))]) (Some (B "/lib/b.so")))
    as [s' h] eqn:E. assert (h = Some 1%nat) as -> by (apply (f_equal snd) in E; vm_compute in E; done).
  exists s', 1%nat. split; [done|]. split; [|done].
  apply (plugin_load_once test_lib [PO_load (Some (B "/lib/a.so"))] (B "/lib/b.so") s' 1%nat); [vm_compute; reflexivity|exact E].
Defined.

(** A longer path is cut when it is stored: it is never found again, and each load
    opens the library once more and takes another slot. *)
Example long_path_loaded_twice :
  let path := B "/lib/" ++ replicate 510 97 in
  let s := plugin_run test_lib [PO_load (Some path); PO_load (Some path)] in
  (p_count s, size (p_open s)) = (2, 2%nat).
Proof. vm_compute. reflexivity. Qed.

(** Sixteen libraries fill the table. *)
Example table_full :
  (log_plugin_load test_lib
     (plugin_run test_lib (map (λ i, PO_load (Some (B "/lib/" ++ [97 + Z.of_nat i]))) (seq 0 16))) (Some (B "/lib/z"))).2 = None.
Proof. vm_compute. reflexivity. Qed.
