(* ===== verification/Signal.v ===== *)
(** * Signals (core/signal_handler.c, POSIX)

    The process's dispositions, the pending flag and the self-pipe.  Any number of threads
    process pending signals while one installs or restores the handlers, one access or
    system call at a time, and the kernel delivers signals between any two of them.
    [SA_RESETHAND] resets the disposition before the handler runs.  The trace records the
    signals clogx's handler caught and those read for processing, flushes, re-raised
    signals with what they met, and the death of the process by a default action. *)
From S2P Require Import Prelude Record.

Local Open Scope Z_scope.

Definition SIGINT : Z := 2.
Definition SIGPIPE : Z := 13.
Definition SIGTERM : Z := 15.

(** A disposition: the default, ignored, a handler of the application, or clogx's. *)
Inductive disposition := SIG_DFL | SIG_IGN | SIG_APP (n : nat) | SIG_CLOG.

#[export] Instance disposition_eq_dec : EqDecision disposition.
Proof. solve_decision. Defined.

(** [t] is the thread that processes. *)
Inductive event :=
  | E_handled (sig : Z) | E_read (t : nat) (sig : Z) | E_flush (t : nat) | E_raise (t : nat) (sig : Z) (d : disposition)
  | E_killed (sig : Z) | E_app (sig : Z) (n : nat).

(** [sg_pipe] holds the bytes in the self-pipe, [None] while it is not open. *)
Record signals := Signals {
  sg_disp : Z → disposition;
  sg_pending : Z; sg_installed : bool;
  sg_old_term : disposition; sg_old_int : disposition; sg_old_sigpipe : disposition;
  sg_pipe : option (list Z);
  sg_trace : list event
}.

Definition signals_init (disp : Z → disposition) : signals :=
  Signals disp 0 false SIG_DFL SIG_DFL SIG_DFL None [].

Definition set_disp (s : signals) (sig : Z) (d : disposition) : signals :=
  Signals (λ x, if x =? sig then d else sg_disp s x) (sg_pending s) (sg_installed s) (sg_old_term s) (sg_old_int s)
    (sg_old_sigpipe s) (sg_pipe s) (sg_trace s).
Definition set_pipe (s : signals) (p : option (list Z)) : signals :=
  Signals (sg_disp s) (sg_pending s) (sg_installed s) (sg_old_term s) (sg_old_int s) (sg_old_sigpipe s) p (sg_trace s).
Definition set_state (s : signals) (pending : Z) (installed : bool) : signals :=
  Signals (sg_disp s) pending installed (sg_old_term s) (sg_old_int s) (sg_old_sigpipe s) (sg_pipe s) (sg_trace s).
Definition set_old (s : signals) (term int : disposition) : signals :=
  Signals (sg_disp s) (sg_pending s) (sg_installed s) term int (sg_old_sigpipe s) (sg_pipe s) (sg_trace s).
Definition emit (s : signals) (e : event) : signals :=
  Signals (sg_disp s) (sg_pending s) (sg_installed s) (sg_old_term s) (sg_old_int s) (sg_old_sigpipe s) (sg_pipe s)
    (sg_trace s ++ [e]).

(** ** Self-pipe *)

(** [pipe_ok]: whether [pipe] succeeds. *)
Definition setup_self_pipe (pipe_ok : bool) (s : signals) : signals :=
  match sg_pipe s with Some _ => s | None => if pipe_ok then set_pipe s (Some []) else s end.

Definition close_self_pipe (s : signals) : signals := set_pipe s None.

(** ** The handler and the kernel *)

(** [write_ok]: the pipe has room. *)
Definition log_signal_handler (write_ok : bool) (s : signals) (sig : Z) : signals :=
  let s := set_state s sig (sg_installed s) in
  match sg_pipe s with
  | Some bytes => if write_ok then set_pipe s (Some (bytes ++ [u8 sig])) else s
  | None => s
  end.

(** A signal meets its disposition; clogx's handler is one-shot. *)
Definition deliver (write_ok : bool) (s : signals) (sig : Z) : signals :=
  match sg_disp s sig with
  | SIG_DFL => emit s (E_killed sig)
  | SIG_IGN => s
  | SIG_APP n => emit s (E_app sig n)
  | SIG_CLOG => log_signal_handler write_ok (emit (set_disp s sig SIG_DFL) (E_handled sig)) sig
  end.

Definition log_get_pending_signal (s : signals) : Z := sg_pending s.
(** The read end, if the pipe is open. *)
Definition log_get_signal_fd (s : signals) : bool := bool_decide (is_Some (sg_pipe s)).

(** ** Processing *)

(** [sigaction (sig, &old, NULL)]. *)
Definition restore_for (s : signals) (sig : Z) : signals :=
  if sig =? SIGTERM then set_disp s SIGTERM (sg_old_term s)
  else if sig =? SIGINT then set_disp s SIGINT (sg_old_int s)
  else s.

(** [raise]: the event records the disposition it meets, then the signal is delivered. *)
Definition raise_signal (t : nat) (write_ok : bool) (s : signals) (sig : Z) : signals :=
  deliver write_ok (emit s (E_raise t sig (sg_disp s sig))) sig.

(** Where a thread is in [log_process_pending_signals]. *)
Inductive proc_pc :=
  | P_return | P_load | P_read | P_clear (sig : Z) | P_drain (sig : Z) | P_flush (sig : Z)
  | P_restore (sig : Z) | P_default (sig : Z) | P_raise (sig : Z).

(** A signal was found: [sig == 0] returns. *)
Definition found (t : nat) (s : signals) (sig : Z) : signals * proc_pc :=
  if sig =? 0 then (s, P_return) else (emit s (E_read t sig), P_clear sig).

(** Its next access.  A [read] of the drain takes up to 16 bytes. *)
Definition proc_step (t : nat) (write_ok : bool) (s : signals) (pc : proc_pc) : signals * proc_pc :=
  match pc with
  | P_return => (s, P_return)
  | P_load => if sg_pending s =? 0 then (s, P_read) else found t s (sg_pending s)
  | P_read =>
      match sg_pipe s with
      | Some (ch :: bytes) => found t (set_pipe s (Some bytes)) ch
      | _ => (s, P_return)
      end
  | P_clear sig => (set_state s 0 (sg_installed s), P_drain sig)
  | P_drain sig =>
      match sg_pipe s with
      | Some (ch :: bytes) => (set_pipe s (Some (drop 16 (ch :: bytes))), P_drain sig)
      | _ => (s, P_flush sig)
      end
  | P_flush sig => (emit s (E_flush t), P_restore sig)
  | P_restore sig =>
      if sg_installed s then (restore_for s sig, P_raise sig)
      else (set_disp s SIGPIPE (sg_old_sigpipe s), P_default sig)
  | P_default sig => (set_disp s sig SIG_DFL, P_raise sig)
  | P_raise sig => (raise_signal t write_ok s sig, P_return)
  end.

Fixpoint proc_run (n : nat) (t : nat) (write_ok : bool) (x : signals * proc_pc) : signals * proc_pc :=
  match n with
  | O => x
  | S n => proc_run n t write_ok (proc_step t write_ok x.1 x.2)
  end.

(** The function when no signal comes in between; every round of the drain takes a byte
    at least. *)
Definition proc_fuel (s : signals) : nat := 10 + match sg_pipe s with Some bytes => length bytes | None => 0 end.
Definition log_process_pending_signals (t : nat) (write_ok : bool) (s : signals) : signals :=
  (proc_run (proc_fuel s) t write_ok (s, P_load)).1.

(** ** Installing and restoring *)

(** [term_ok], [int_ok]: whether the [sigaction] calls succeed. *)
Definition log_install_signal_handlers (pipe_ok term_ok int_ok : bool) (s : signals) : signals * Z :=
  if sg_installed s then (s, CLOG_OK) else
  let s := setup_self_pipe pipe_ok s in
  if negb term_ok then (close_self_pipe s, CLOG_ERR_INVALID_ARG) else
  let s := set_disp (set_old s (sg_disp s SIGTERM) (sg_old_int s)) SIGTERM SIG_CLOG in
  if negb int_ok then (close_self_pipe (set_disp s SIGTERM (sg_old_term s)), CLOG_ERR_INVALID_ARG) else
  let s := set_disp (set_old s (sg_old_term s) (sg_disp s SIGINT)) SIGINT SIG_CLOG in
  (set_state s 0 true, CLOG_OK).

Definition log_restore_signal_handlers (s : signals) : signals :=
  if negb (sg_installed s) then s else
  let s := set_disp s SIGTERM (sg_old_term s) in
  let s := set_disp s SIGINT (sg_old_int s) in
  set_state (close_self_pipe s) 0 false.

(** The same two, one access at a time. *)
Inductive setup_pc :=
  | U_return
  | U_check (pipe_ok term_ok int_ok : bool) | U_pipe (pipe_ok term_ok int_ok : bool) | U_term (term_ok int_ok : bool)
  | U_int (int_ok : bool) | U_undo | U_close | U_installed | U_clear
  | R_check | R_term | R_int | R_close | R_installed | R_clear.

Definition setup_step (s : signals) (pc : setup_pc) : signals * setup_pc :=
  match pc with
  | U_return => (s, U_return)
  | U_check p t i => if sg_installed s then (s, U_return) else (s, U_pipe p t i)
  | U_pipe p t i => (setup_self_pipe p s, U_term t i)
  | U_term t i => if t then (set_disp (set_old s (sg_disp s SIGTERM) (sg_old_int s)) SIGTERM SIG_CLOG, U_int i)
                  else (s, U_close)
  | U_int i => if i then (set_disp (set_old s (sg_old_term s) (sg_disp s SIGINT)) SIGINT SIG_CLOG, U_installed)
               else (s, U_undo)
  | U_undo => (set_disp s SIGTERM (sg_old_term s), U_close)
  | U_close => (close_self_pipe s, U_return)
  | U_installed => (set_state s (sg_pending s) true, U_clear)
  | U_clear | R_clear => (set_state s 0 (sg_installed s), U_return)
  | R_check => if sg_installed s then (s, R_term) else (s, U_return)
  | R_term => (set_disp s SIGTERM (sg_old_term s), R_int)
  | R_int => (set_disp s SIGINT (sg_old_int s), R_close)
  | R_close => (close_self_pipe s, R_installed)
  | R_installed => (set_state s (sg_pending s) false, R_clear)
  end.

Fixpoint setup_run (n : nat) (x : signals * setup_pc) : signals * setup_pc :=
  match n with O => x | S n => setup_run n (setup_step x.1 x.2) end.

(** ** Runs *)

(** The processing threads by number, [P_return] outside the function; handlers are
    installed and restored by one thread at a time. *)
Record machine := Machine { g_s : signals; g_proc : nat → proc_pc; g_setup : setup_pc }.

Definition machine_init (s : signals) : machine := Machine s (λ _, P_return) U_return.

Inductive sig_op :=
  | G_install (pipe_ok term_ok int_ok : bool) | G_restore | G_setup
  | G_process (t : nat) | G_step (t : nat) (write_ok : bool) | G_signal (write_ok : bool) (sig : Z)
  | G_write (sig : Z).

(** A default action has ended the process. *)
Definition killed (s : signals) : bool :=
  existsb (λ e, match e with E_killed _ => true | _ => false end) (sg_trace s).

(** The handler, which is installed for these two, has run for [sig]. *)
Definition handler_ran (s : signals) (sig : Z) : bool :=
  existsb (λ e, match e with E_handled x => x =? sig | _ => false end) (sg_trace s) && ((sig =? SIGTERM) || (sig =? SIGINT)).

(** Calls begin on a thread that is outside; nothing runs in a dead process. The handler
    stores the flag and then writes to the pipe: the write comes with the store, or, after
    a delivery with [write_ok = false], at any later time or never ([G_write], which may
    come more often than the handler runs). *)
Definition sig_exec (g : machine) (o : sig_op) : machine :=
  if killed (g_s g) then g else
  match o with
  | G_install p t i => match g_setup g with U_return => Machine (g_s g) (g_proc g) (U_check p t i) | _ => g end
  | G_restore => match g_setup g with U_return => Machine (g_s g) (g_proc g) R_check | _ => g end
  | G_setup => let '(s, pc) := setup_step (g_s g) (g_setup g) in Machine s (g_proc g) pc
  | G_process t =>
      match g_proc g t with
      | P_return => Machine (g_s g) (λ x, if (x =? t)%nat then P_load else g_proc g x) (g_setup g)
      | _ => g
      end
  | G_step t w =>
      let '(s, pc) := proc_step t w (g_s g) (g_proc g t) in
      Machine s (λ x, if (x =? t)%nat then pc else g_proc g x) (g_setup g)
  | G_signal w sig => Machine (deliver w (g_s g) sig) (g_proc g) (g_setup g)
  | G_write sig =>
      match sg_pipe (g_s g) with
      | Some bytes => if handler_ran (g_s g) sig then Machine (set_pipe (g_s g) (Some (bytes ++ [u8 sig]))) (g_proc g) (g_setup g) else g
      | None => g
      end
  end.

Definition sig_run (g : machine) (ops : list sig_op) : machine := foldl sig_exec g ops.

(** What a disposition does with a signal. *)
Definition outcome (sig : Z) (d : disposition) : list event :=
  match d with SIG_DFL => [E_killed sig] | SIG_APP n => [E_app sig n] | SIG_IGN => [] | SIG_CLOG => [E_handled sig] end.

Lemma deliver_trace w s sig : sg_trace (deliver w s sig) = sg_trace s ++ outcome sig (sg_disp s sig).
Proof.
  unfold deliver. destruct (sg_disp s sig); cbn; rewrite ?app_nil_r; try done.
  unfold log_signal_handler. cbn. destruct (sg_pipe s), w; done.
Qed.

(** ** Installing, alone *)

Lemma install_spec pipe_ok s :
  sg_installed s = false →
  let s1 := (log_install_signal_handlers pipe_ok true true s).1 in
  (log_install_signal_handlers pipe_ok true true s).2 = CLOG_OK ∧ sg_installed s1 = true ∧ sg_trace s1 = sg_trace s ∧
  sg_disp s1 = (λ x, if x =? SIGINT then SIG_CLOG else if x =? SIGTERM then SIG_CLOG else sg_disp s x) ∧
  sg_old_term s1 = sg_disp s SIGTERM ∧ sg_old_int s1 = sg_disp s SIGINT ∧ sg_old_sigpipe s1 = sg_old_sigpipe s ∧
  sg_pending s1 = 0 ∧ (sg_pipe s1 = sg_pipe s ∨ sg_pipe s1 = Some []).
Proof.
  intros Hi. unfold log_install_signal_handlers, setup_self_pipe. rewrite Hi.
  destruct (sg_pipe s) eqn:E, pipe_ok; cbn; split_and!; try done; try (left; congruence); by right.
Qed.

(** The thread that installs or restores, when nothing comes in between, does what the
    functions do. *)
Lemma setup_alone p t i s :
  setup_run 8 (s, U_check p t i) = ((log_install_signal_handlers p t i s).1, U_return) ∧
  setup_run 8 (s, R_check) = (log_restore_signal_handlers s, U_return).
Proof.
  destruct s as [disp pend inst ot oi op pipe trace].
  unfold log_install_signal_handlers, log_restore_signal_handlers, setup_self_pipe.
  destruct inst, pipe, p, t, i; split; reflexivity.
Qed.

(** ** Every signal raised was caught, read and flushed for *)

Definition termination (sig : Z) : Prop := sig = SIGTERM ∨ sig = SIGINT.

(** No event of [l] is thread [t] reading or raising a signal. *)
Definition no_own (t : nat) (l : list event) : Prop :=
  Forall (λ e, match e with E_read t' _ | E_raise t' _ _ => t' ≠ t | _ => True end) l.

Definition caught (tr : list event) (sig : Z) : Prop := E_handled sig ∈ tr ∧ termination sig.

(** The last signal thread [t] read is [sig], which the handler had caught; and the
    thread has flushed since. *)
Definition read_at (t : nat) (sig : Z) (tr : list event) : Prop :=
  ∃ a b, tr = a ++ E_read t sig :: b ∧ caught a sig ∧ no_own t b.
Definition flushed_at (t : nat) (sig : Z) (tr : list event) : Prop :=
  ∃ a b c, tr = a ++ E_read t sig :: b ++ E_flush t :: c ∧ caught a sig ∧ no_own t (b ++ c).

Definition pc_ok (t : nat) (tr : list event) (pc : proc_pc) : Prop :=
  match pc with
  | P_return | P_load | P_read => True
  | P_clear sig | P_drain sig | P_flush sig => read_at t sig tr
  | P_restore sig | P_default sig | P_raise sig => flushed_at t sig tr
  end.

Definition served (tr : list event) : Prop :=
  ∀ pre t sig d post, tr = pre ++ E_raise t sig d :: post → flushed_at t sig pre.

(** Which dispositions are not clogx's while the handlers are being changed. *)
Definition clear_of (s : signals) (pc : setup_pc) : Prop :=
  let term := sg_disp s SIGTERM ≠ SIG_CLOG in let int := sg_disp s SIGINT ≠ SIG_CLOG in
  match pc with
  | U_return | U_check _ _ _ | R_check => sg_installed s = false → term ∧ int
  | U_pipe _ _ _ | U_term _ _ | U_close | R_clear => sg_installed s = false ∧ term ∧ int
  | U_int _ | U_undo => sg_installed s = false ∧ int
  | U_installed => sg_installed s = false
  | U_clear | R_term => sg_installed s = true
  | R_int => sg_installed s = true ∧ term
  | R_close | R_installed => sg_installed s = true ∧ term ∧ int
  end.

(** clogx's handler is met by termination signals only, and never saved as the old one. *)
Definition disp_inv (s : signals) : Prop :=
  (∀ x, sg_disp s x = SIG_CLOG → termination x) ∧ sg_old_term s ≠ SIG_CLOG ∧ sg_old_int s ≠ SIG_CLOG ∧ sg_old_sigpipe s ≠ SIG_CLOG.

Definition pending_inv (s : signals) : Prop :=
  (sg_pending s ≠ 0 → caught (sg_trace s) (sg_pending s)) ∧
  (∀ bytes, sg_pipe s = Some bytes → Forall (caught (sg_trace s)) bytes).

Record ginv (g : machine) : Prop := {
  gi_served : served (sg_trace (g_s g));
  gi_pcs : ∀ t, pc_ok t (sg_trace (g_s g)) (g_proc g t);
  gi_pending : pending_inv (g_s g);
  gi_disp : disp_inv (g_s g);
  gi_clear : clear_of (g_s g) (g_setup g)
}.

Lemma caught_mono tr ext sig : caught tr sig → caught (tr ++ ext) sig.
Proof. intros [H1 H2]. split; [|done]. apply elem_of_app. by left. Qed.

Lemma pc_ok_mono t tr ext pc : no_own t ext → pc_ok t tr pc → pc_ok t (tr ++ ext) pc.
Proof.
  assert (∀ sig, no_own t ext → read_at t sig tr → read_at t sig (tr ++ ext)) as HR.
  { intros sig He (a & b & -> & Hc & Hb). exists a, (b ++ ext). rewrite <- app_assoc. split; [done|]. split; [done|]. by apply Forall_app. }
  assert (∀ sig, no_own t ext → flushed_at t sig tr → flushed_at t sig (tr ++ ext)) as HF.
  { intros sig He (a & b & c & -> & Hc & Hb). exists a, b, (c ++ ext). rewrite <- app_assoc. cbn. rewrite <- app_assoc. split; [done|].
    split; [done|]. rewrite app_assoc. by apply Forall_app. }
  destruct pc; cbn; auto.
Qed.

Lemma served_app tr ext : served tr → (∀ e, e ∈ ext → match e with E_raise _ _ _ => False | _ => True end) → served (tr ++ ext).
Proof.
  intros H He pre t sig d post E. symmetry in E. apply app_eq_app in E as (l & [[E1 E2]|[E1 E2]]).
  - destruct (He (E_raise t sig d)). rewrite E2. apply elem_of_app. right. left.
  - destruct l as [|e l]; cbn in E2.
    + destruct (He (E_raise t sig d)). rewrite <- E2. left.
    + injection E2 as <- ->. by eapply H.
Qed.

Lemma served_raise t sig d tr : served tr → flushed_at t sig tr → served (tr ++ [E_raise t sig d]).
Proof.
  intros H Hf pre t' sig' d' post E. symmetry in E. apply app_eq_app in E as (l & [[E1 E2]|[E1 E2]]).
  - destruct l as [|e l]; cbn in E2; [injection E2 as -> -> -> <-; by rewrite E1, app_nil_r|].
    injection E2 as <- E2. by destruct l.
  - destruct l as [|e l]; cbn in E2; [injection E2 as -> -> -> ->; rewrite app_nil_r in E1; by subst|].
    injection E2 as <- ->. by eapply H.
Qed.

(** A change that emits nothing a thread waits for. *)
Lemma ginv_move g s' pc :
  ginv g → (∃ ext, sg_trace s' = sg_trace (g_s g) ++ ext ∧
    ∀ e, e ∈ ext → match e with E_raise _ _ _ | E_read _ _ => False | _ => True end) →
  pending_inv s' → disp_inv s' → clear_of s' pc → ginv (Machine s' (g_proc g) pc).
Proof.
  intros [H1 H2 H3 H4 H5] (ext & E & He) Hp Hd Hc. split; cbn [g_s g_proc g_setup]; try done; rewrite E.
  - apply served_app; [done|]. intros e Hin. specialize (He e Hin). by destruct e.
  - intros t. apply pc_ok_mono; [|done]. apply Forall_forall. intros e Hin. specialize (He e Hin). by destruct e.
Qed.

(** A thread moves on. *)
Lemma ginv_thread g t s' pc ext :
  ginv g → sg_trace s' = sg_trace (g_s g) ++ ext →
  (∀ e, e ∈ ext → match e with E_raise t' _ _ | E_read t' _ => t' = t | _ => True end) →
  served (sg_trace s') → pc_ok t (sg_trace s') pc →
  pending_inv s' → disp_inv s' → clear_of s' (g_setup g) →
  ginv (Machine s' (λ x, if (x =? t)%nat then pc else g_proc g x) (g_setup g)).
Proof.
  intros [H1 H2 H3 H4 H5] E He Hs Hpc Hp Hd Hc. split; cbn [g_s g_proc g_setup]; try done.
  intros x. destruct (Nat.eqb_spec x t) as [->|Hx]; [done|]. rewrite E. apply pc_ok_mono; [|done].
  apply Forall_forall. intros e Hin. specialize (He e Hin). destruct e; try done; congruence.
Qed.

(** Dispositions that only lose clogx's handler. *)
Lemma disp_weaken s s' pc :
  (∀ x, sg_disp s' x = SIG_CLOG → sg_disp s x = SIG_CLOG) → sg_installed s' = sg_installed s →
  sg_old_term s' = sg_old_term s → sg_old_int s' = sg_old_int s → sg_old_sigpipe s' = sg_old_sigpipe s →
  disp_inv s ∧ clear_of s pc → disp_inv s' ∧ clear_of s' pc.
Proof.
  intros Hd Hi H1 H2 H3 [(D1 & D2 & D3 & D4) Hc]. unfold disp_inv. rewrite H1, H2, H3. split; [split_and!; auto|].
  pose proof (Hd SIGTERM). pose proof (Hd SIGINT). destruct pc; cbn in *; rewrite ?Hi; naive_solver.
Qed.

Lemma set_disp_clog s sig d x : d ≠ SIG_CLOG → sg_disp (set_disp s sig d) x = SIG_CLOG → sg_disp s x = SIG_CLOG.
Proof. intros Hd. cbn. by destruct (x =? sig). Qed.

Lemma deliver_inv w s sig pc :
  pending_inv s → disp_inv s ∧ clear_of s pc →
  pending_inv (deliver w s sig) ∧ disp_inv (deliver w s sig) ∧ clear_of (deliver w s sig) pc.
Proof.
  intros [P1 P2] HD. unfold deliver. destruct (sg_disp s sig) eqn:Ed.
  1, 3: split; [|exact HD]; split; cbn; [intros Hp; apply caught_mono; auto|];
    intros bytes Hb; eapply Forall_impl; [by apply P2|]; intros x; apply caught_mono.
  { done. }
  pose proof (proj1 (proj1 HD) _ Ed) as Hsig.
  assert (caught (sg_trace s ++ [E_handled sig]) sig) as Hc by (split; [apply elem_of_app; right; left|done]).
  assert (u8 sig = sig) as Hu by (by destruct Hsig as [-> | ->]).
  set (s1 := log_signal_handler _ _ _).
  assert (sg_trace s1 = sg_trace s ++ [E_handled sig] ∧ sg_pending s1 = sig ∧
    (sg_pipe s1 = sg_pipe s ∨ ∃ bytes, sg_pipe s = Some bytes ∧ sg_pipe s1 = Some (bytes ++ [sig])) ∧
    sg_disp s1 = sg_disp (set_disp s sig SIG_DFL) ∧ sg_installed s1 = sg_installed s ∧
    sg_old_term s1 = sg_old_term s ∧ sg_old_int s1 = sg_old_int s ∧ sg_old_sigpipe s1 = sg_old_sigpipe s)
    as (E1 & E2 & E3 & E4 & E5 & E6 & E7 & E8).
  { unfold s1, log_signal_handler. cbn. destruct (sg_pipe s) as [bytes|] eqn:Epi, w; cbn; rewrite ?Hu, ?Epi; split_and!; try done; auto.
    right. by eexists. }
  clearbody s1. split.
  - split; [rewrite E1, E2; done|]. intros bytes Hb. rewrite E1.
    assert (∀ l, sg_pipe s = Some l → Forall (caught (sg_trace s ++ [E_handled sig])) l) as Hl.
    { intros l El. eapply Forall_impl; [by apply P2|]. intros x. apply caught_mono. }
    destruct E3 as [E3|(l & El & E3)]; rewrite E3 in Hb; [auto|]. injection Hb as <-. apply Forall_app. split; [auto|]. by constructor.
  - apply (disp_weaken s s1 pc); try done. rewrite E4. intros x. by apply set_disp_clog.
Qed.

Lemma ginv_signal g w sig : ginv g → ginv (Machine (deliver w (g_s g) sig) (g_proc g) (g_setup g)).
Proof.
  intros Hg. destruct (deliver_inv w (g_s g) sig (g_setup g) (gi_pending _ Hg)) as (H1 & H2 & H3); [by destruct Hg|].
  apply ginv_move; try done. eexists. split; [apply deliver_trace|]. intros e.
  destruct (sg_disp (g_s g) sig); cbn; rewrite ?elem_of_cons; try by intros [->|?%not_elem_of_nil].
  by intros ?%not_elem_of_nil.
Qed.

Lemma found_ok g t s' sig :
  ginv g → sg_trace s' = sg_trace (g_s g) → (sig ≠ 0 → caught (sg_trace (g_s g)) sig) →
  pending_inv s' → disp_inv s' → clear_of s' (g_setup g) →
  ginv (Machine (found t s' sig).1 (λ x, if (x =? t)%nat then (found t s' sig).2 else g_proc g x) (g_setup g)).
Proof.
  intros Hg Et Hc Hp Hd Hcl. unfold found. destruct (Z.eqb_spec sig 0) as [->|Hne]; cbn [fst snd].
  - eapply (ginv_thread g t s' _ []); try done; rewrite ?app_nil_r; try done.
    + intros e He. by apply not_elem_of_nil in He.
    + rewrite Et. exact (gi_served _ Hg).
  - eapply (ginv_thread g t _ _ [E_read t sig]); try done; cbn [emit sg_trace]; rewrite ?Et; try done.
    + intros e ->%list_elem_of_singleton. done.
    + apply served_app; [exact (gi_served _ Hg)|]. by intros e ->%list_elem_of_singleton.
    + exists (sg_trace (g_s g)), []. split; [done|]. split; [auto|constructor].
    + destruct Hp as [P1 P2]. rewrite Et in P1, P2. split; cbn; rewrite Et; [intros; apply caught_mono; auto|].
      intros bytes Hb. eapply Forall_impl; [by apply P2|]. intros x. apply caught_mono.
Qed.
(** A step of a thread that emits nothing. *)
Lemma ginv_silent g t s' pc :
  ginv g → sg_trace s' = sg_trace (g_s g) → pc_ok t (sg_trace (g_s g)) pc →
  pending_inv s' → disp_inv s' ∧ clear_of s' (g_setup g) →
  ginv (Machine s' (λ x, if (x =? t)%nat then pc else g_proc g x) (g_setup g)).
Proof.
  intros Hg Et Hpc Hp [Hd Hc]. eapply (ginv_thread g t s' _ []); rewrite ?app_nil_r, ?Et; try done.
  - intros e He. by apply not_elem_of_nil in He.
  - exact (gi_served _ Hg).
Qed.

Lemma pending_same s s' : sg_trace s' = sg_trace s → sg_pending s' = sg_pending s ∨ sg_pending s' = 0 →
  sg_pipe s' = sg_pipe s ∨ sg_pipe s' = None ∨ (∃ n bytes, sg_pipe s = Some bytes ∧ sg_pipe s' = Some (drop n bytes)) →
  pending_inv s → pending_inv s'.
Proof.
  intros Et Hp Hb [P1 P2]. unfold pending_inv. rewrite Et. split.
  - destruct Hp as [->| ->]; [done|]. done.
  - intros bytes E. destruct Hb as [Hb|[Hb|(n & l & Hl & Hb)]]; rewrite Hb in E; [by apply P2|done|]. injection E as <-.
    apply Forall_drop. by apply P2.
Qed.

Lemma restore_for_clog s sig x : disp_inv s → sg_disp (restore_for s sig) x = SIG_CLOG → sg_disp s x = SIG_CLOG.
Proof.
  intros (_ & H1 & H2 & _). unfold restore_for. destruct (sig =? SIGTERM); [by apply set_disp_clog|].
  destruct (sig =? SIGINT); [by apply set_disp_clog|done].
Qed.

Lemma restore_for_same s sig :
  sg_trace (restore_for s sig) = sg_trace s ∧ sg_pending (restore_for s sig) = sg_pending s ∧ sg_pipe (restore_for s sig) = sg_pipe s ∧
  sg_installed (restore_for s sig) = sg_installed s ∧ sg_old_term (restore_for s sig) = sg_old_term s ∧
  sg_old_int (restore_for s sig) = sg_old_int s ∧ sg_old_sigpipe (restore_for s sig) = sg_old_sigpipe s.
Proof. unfold restore_for. destruct (_ =? _); [done|]. by destruct (_ =? _). Qed.

Lemma ginv_raise g t w sig :
  ginv g → flushed_at t sig (sg_trace (g_s g)) →
  ginv (Machine (raise_signal t w (g_s g) sig) (λ x, if (x =? t)%nat then P_return else g_proc g x) (g_setup g)).
Proof.
  intros Hg Hf. set (s := g_s g) in *. unfold raise_signal. set (s1 := emit s _).
  assert (pending_inv s1) as Hp1.
  { destruct (gi_pending _ Hg) as [P1 P2]. split; cbn; [intros; apply caught_mono; auto|].
    intros bytes Hb. eapply Forall_impl; [by apply P2|]. intros x. apply caught_mono. }
  destruct (deliver_inv w s1 sig (g_setup g) Hp1) as (H1 & H2 & H3).
  { split; [exact (gi_disp _ Hg)|exact (gi_clear _ Hg)]. }
  eapply (ginv_thread g t _ _ ([E_raise t sig (sg_disp s sig)] ++ outcome sig (sg_disp s sig))); try done.
  - rewrite deliver_trace. cbn [s1 emit sg_trace sg_disp]. by rewrite <- app_assoc.
  - intros e [->%list_elem_of_singleton|He]%elem_of_app; [done|].
    destruct (sg_disp s sig); cbn in He; rewrite ?elem_of_cons in He; try (by destruct He as [->|?%not_elem_of_nil]);
      by apply not_elem_of_nil in He.
  - rewrite deliver_trace. cbn [s1 emit sg_trace sg_disp]. apply served_app; [by apply served_raise; [exact (gi_served _ Hg)|]|].
    intros e He. destruct (sg_disp s sig); cbn in He; rewrite ?elem_of_cons in He; try (by destruct He as [->|?%not_elem_of_nil]);
      by apply not_elem_of_nil in He.
Qed.

Lemma ginv_step g t w :
  ginv g → ginv (Machine (proc_step t w (g_s g) (g_proc g t)).1
    (λ x, if (x =? t)%nat then (proc_step t w (g_s g) (g_proc g t)).2 else g_proc g x) (g_setup g)).
Proof.
  intros Hg. pose proof (gi_pcs _ Hg t) as Hpc. pose proof (gi_pending _ Hg) as Hp. pose proof (gi_disp _ Hg) as Hd.
  pose proof (gi_clear _ Hg) as Hc. pose proof (conj Hd Hc) as Hdc.
  destruct (g_proc g t) as [| | |sig|sig|sig|sig|sig|sig] eqn:Ept; cbn [proc_step pc_ok] in *.
  - by apply ginv_silent.
  - destruct (Z.eqb_spec (sg_pending (g_s g)) 0); [by apply ginv_silent|].
    apply found_ok; try done. destruct Hp as [P1 _]. auto.
  - destruct (sg_pipe (g_s g)) as [[|ch bytes]|] eqn:Epi; try by apply ginv_silent.
    pose proof (proj2 Hp _ Epi) as [Hch Hby]%Forall_cons. apply found_ok; try done.
    split; [exact (proj1 Hp)|]. cbn. by intros ? [= <-].
  - apply ginv_silent; try done. split; [done|exact (proj2 Hp)].
  - destruct (sg_pipe (g_s g)) as [[|ch bytes]|] eqn:Epi; try by apply ginv_silent.
    apply ginv_silent; try done. apply (pending_same (g_s g)); auto. right. right. by exists 16%nat, (ch :: bytes).
  - eapply (ginv_thread g t _ _ [E_flush t]); try done; cbn [emit fst snd sg_trace].
    + by intros e ->%list_elem_of_singleton.
    + apply served_app; [exact (gi_served _ Hg)|]. by intros e ->%list_elem_of_singleton.
    + destruct Hpc as (a & b & E & Ha & Hb). exists a, b, []. rewrite E, <- app_assoc, app_nil_r. done.
    + destruct Hp as [P1 P2]. split; cbn; [intros; apply caught_mono; auto|].
      intros bytes Hb. eapply Forall_impl; [by apply P2|]. intros x. apply caught_mono.
  - destruct (sg_installed (g_s g)) eqn:Ei; cbn [fst snd].
    + destruct (restore_for_same (g_s g) sig) as (R1 & R2 & R3 & R4 & R5 & R6 & R7).
      apply ginv_silent; try done; [apply (pending_same (g_s g)); auto|].
      apply (disp_weaken (g_s g)); try done. intros x. by apply restore_for_clog.
    + apply ginv_silent; try done. apply (disp_weaken (g_s g)); try done. intros x. apply set_disp_clog. apply Hd.
  - apply ginv_silent; try done. apply (disp_weaken (g_s g)); try done. intros x. by apply set_disp_clog.
  - by apply ginv_raise.
Qed.

Lemma ginv_setup g :
  ginv g → ginv (Machine (setup_step (g_s g) (g_setup g)).1 (g_proc g) (setup_step (g_s g) (g_setup g)).2).
Proof.
  intros Hg. pose proof (gi_pending _ Hg) as Hp. pose proof (gi_disp _ Hg) as Hd. pose proof (gi_clear _ Hg) as Hc.
  assert (∀ s pc, sg_trace s = sg_trace (g_s g) → pending_inv s → disp_inv s → clear_of s pc → ginv (Machine s (g_proc g) pc)) as Hm.
  { intros s pc Et H1 H2 H3. apply ginv_move; try done. exists []. rewrite app_nil_r. split; [done|].
    intros e He. by apply not_elem_of_nil in He. }
  pose proof Hd as (D1 & D2 & D3 & D4).
  assert (∀ s sig d, d = SIG_CLOG ∧ termination sig ∨ d ≠ SIG_CLOG →
    (∀ x, sg_disp s x = SIG_CLOG → termination x) → ∀ x, sg_disp (set_disp s sig d) x = SIG_CLOG → termination x) as Hset.
  { intros s sig d Hor Hs x. cbn. destruct (Z.eqb_spec x sig) as [->|]; [|apply Hs]. intros ->. by destruct Hor as [[_ ?]|?]. }
  destruct (g_setup g) eqn:Eg; cbn [setup_step clear_of fst snd] in *.
  - by apply Hm.
  - destruct (sg_installed (g_s g)) eqn:Ei; apply Hm; try done; cbn; rewrite ?Ei; try done. split; [done|]. by apply Hc.
  - apply Hm; unfold setup_self_pipe; destruct (sg_pipe (g_s g)) eqn:Epi, pipe_ok; try done.
    destruct Hp as [P1 _]. split; [done|]. cbn. by intros bytes [= <-].
  - destruct Hc as (Hi & H1 & H2). destruct term_ok; cbn [fst snd]; [|by apply Hm].
    apply Hm; try done. split; [|done]. apply Hset; [left; split; [done|by left]|done].
  - destruct Hc as (Hi & H2). destruct int_ok; cbn [fst snd]; [|by apply Hm].
    apply Hm; try done. split; [|done]. apply Hset; [left; split; [done|by right]|done].
  - destruct Hc as (Hi & H2). apply Hm; try done. split; [|done]. apply Hset; [by right|done].
  - destruct Hc as (Hi & Hc). apply Hm; try done; [by apply (pending_same (g_s g)); auto|by intros _].
  - apply Hm; try done.
  - apply Hm; try done; [split; [done|exact (proj2 Hp)]|]. cbn. by rewrite Hc.
  - destruct (sg_installed (g_s g)) eqn:Ei; apply Hm; try done. cbn. rewrite Ei. by intros _; apply Hc.
  - apply Hm; try done. split; [|done]. apply Hset; [by right|done].
  - destruct Hc as (Hi & H1). apply Hm; try done. split; [|done]. apply Hset; [by right|done].
  - apply Hm; try done. apply (pending_same (g_s g)); auto.
  - destruct Hc as (Hi & H1 & H2). apply Hm; try done.
  - destruct Hc as (Hi & H1 & H2). apply Hm; try done. split; [done|exact (proj2 Hp)].
Qed.

Lemma sig_exec_inv g o : ginv g → ginv (sig_exec g o).
Proof.
  intros Hg. unfold sig_exec. destruct (killed (g_s g)); [done|].
  destruct o as [p t i| | |t|t w|w sig|sig].
  - pose proof (gi_clear _ Hg) as Hc. destruct (g_setup g); try done. by destruct Hg.
  - pose proof (gi_clear _ Hg) as Hc. destruct (g_setup g); try done. by destruct Hg.
  - pose proof (ginv_setup g Hg) as H. by destruct (setup_step _ _).
  - destruct (g_proc g t); try done. apply ginv_silent; [done|done|done|apply Hg|by destruct Hg].
  - pose proof (ginv_step g t w Hg) as H. by destruct (proc_step _ _ _ _).
  - by apply ginv_signal.
  - destruct (sg_pipe (g_s g)) as [bytes|] eqn:Epi; [|done]. destruct (handler_ran (g_s g) sig) eqn:Eh; [|done].
    unfold handler_ran in Eh. apply andb_true_iff in Eh as [Eh Et]. apply existsb_exists in Eh as (e & Hin & He).
    destruct e; try done. apply Z.eqb_eq in He as ->.
    assert (caught (sg_trace (g_s g)) sig) as Hc.
    { split; [by apply list_elem_of_In|]. apply orb_true_iff in Et as [->%Z.eqb_eq| ->%Z.eqb_eq]; [by left|by right]. }
    assert (u8 sig = sig) as -> by (by destruct Hc as [_ [-> | ->]]).
    apply ginv_move; try apply Hg; [exists []; rewrite app_nil_r; split; [done|]; intros e He; by apply not_elem_of_nil in He|].
    destruct (gi_pending _ Hg) as [P1 P2]. split; [exact P1|]. cbn. intros ? [= <-]. apply Forall_app. split; [by apply P2|]. by constructor.
Qed.

Lemma ginv_run ops : ∀ g, ginv g → ginv (sig_run g ops).
Proof. induction ops as [|o ops IH]; intros g Hg; [done|]. by apply IH, sig_exec_inv. Qed.

Lemma ginv_init disp : (∀ x, disp x ≠ SIG_CLOG) → ginv (machine_init (signals_init disp)).
Proof.
  intros Hd. split; cbn; try done.
  - intros [|e pre] t sig d post E; discriminate E.
  - split; [|done]. intros x Hx. by destruct (Hd x).
Qed.

(** ** What a raised signal meets *)

(** Processing and signals only. *)
Definition no_setup (o : sig_op) : Prop :=
  match o with G_install _ _ _ | G_restore | G_setup => False | _ => True end.

(** With the handlers installed over [disp]: a thread about to raise has the application's
    disposition back in place, and nothing else was ever met. *)
Record hinv (disp : Z → disposition) (g : machine) : Prop := {
  hi_installed : sg_installed (g_s g) = true;
  hi_term : sg_old_term (g_s g) = disp SIGTERM;
  hi_int : sg_old_int (g_s g) = disp SIGINT;
  hi_pcs : ∀ t, match g_proc g t with
                | P_default _ => False
                | P_raise sig => sg_disp (g_s g) sig = disp sig
                | _ => True
                end;
  hi_raised : ∀ t sig d, E_raise t sig d ∈ sg_trace (g_s g) → d = disp sig
}.

Lemma deliver_disp w s sig x : sg_disp s x ≠ SIG_CLOG → sg_disp (deliver w s sig) x = sg_disp s x.
Proof.
  intros Hx. unfold deliver. destruct (sg_disp s sig) eqn:Ed; try done. unfold log_signal_handler. cbn.
  destruct (Z.eqb_spec x sig) as [->|Hne]; [done|]. destruct (sg_pipe s), w; cbn; by rewrite (proj2 (Z.eqb_neq x sig) Hne).
Qed.

Lemma deliver_frame w s sig :
  sg_installed (deliver w s sig) = sg_installed s ∧ sg_old_term (deliver w s sig) = sg_old_term s ∧
  sg_old_int (deliver w s sig) = sg_old_int s.
Proof.
  unfold deliver. destruct (sg_disp s sig); try done. unfold log_signal_handler. cbn. destruct (sg_pipe s), w; done.
Qed.

Lemma outcome_raise sig d t x y : E_raise t x y ∉ outcome sig d.
Proof. destruct d; cbn; by intros [=]%list_elem_of_singleton || by intros []%not_elem_of_nil. Qed.

(** What a step of a thread keeps, and what it may add. *)
Lemma hinv_thread disp g t s' pc :
  hinv disp g → sg_installed s' = sg_installed (g_s g) ∧ sg_old_term s' = sg_old_term (g_s g) ∧ sg_old_int s' = sg_old_int (g_s g) →
  (∀ x, sg_disp (g_s g) x = disp x → sg_disp s' x = disp x) →
  match pc with P_default _ => False | P_raise sig => sg_disp s' sig = disp sig | _ => True end →
  (∀ t sig d, E_raise t sig d ∈ sg_trace s' → E_raise t sig d ∈ sg_trace (g_s g) ∨ d = disp sig) →
  hinv disp (Machine s' (λ x, if (x =? t)%nat then pc else g_proc g x) (g_setup g)).
Proof.
  intros [H1 H2 H3 H4 H5] (E1 & E2 & E3) Hd Hpc Ht. split; cbn; try congruence.
  - intros x. destruct (x =? t)%nat; [done|]. specialize (H4 x). destruct (g_proc g x); try done. by apply Hd.
  - intros x sig d [Hin|Hin]%Ht; [by eapply H5|done].
Qed.

Lemma restore_for_disp s sig disp :
  sg_old_term s = disp SIGTERM → sg_old_int s = disp SIGINT → termination sig →
  sg_disp (restore_for s sig) sig = disp sig ∧ (∀ x, sg_disp s x = disp x → sg_disp (restore_for s sig) x = disp x).
Proof.
  intros H1 H2 [-> | ->]; unfold restore_for; cbn; rewrite ?H1, ?H2; (split; [done|]); intros x.
  - by destruct (Z.eqb_spec x SIGTERM) as [->|].
  - by destruct (Z.eqb_spec x SIGINT) as [->|].
Qed.

Lemma hinv_step disp g t w :
  (∀ x, disp x ≠ SIG_CLOG) → ginv g → hinv disp g →
  hinv disp (Machine (proc_step t w (g_s g) (g_proc g t)).1
    (λ x, if (x =? t)%nat then (proc_step t w (g_s g) (g_proc g t)).2 else g_proc g x) (g_setup g)).
Proof.
  intros Hdisp Hg Hh. pose proof (gi_pcs _ Hg t) as Hpc. pose proof (hi_pcs _ _ Hh t) as Hp.
  destruct (g_proc g t) as [| | |sig|sig|sig|sig|sig|sig] eqn:Ept; cbn [proc_step pc_ok] in *.
  - apply hinv_thread; auto.
  - destruct (sg_pending (g_s g) =? 0); [apply hinv_thread; auto|]. unfold found. destruct (_ =? 0); apply hinv_thread; auto.
    cbn. intros ? ? ? [?|?%list_elem_of_singleton]%elem_of_app; [by left|done].
  - destruct (sg_pipe (g_s g)) as [[|ch bytes]|]; try (apply hinv_thread; auto; fail).
    unfold found. destruct (ch =? 0); apply hinv_thread; auto.
    cbn. intros ? ? ? [?|?%list_elem_of_singleton]%elem_of_app; [by left|done].
  - apply hinv_thread; auto.
  - destruct (sg_pipe (g_s g)) as [[|ch bytes]|]; apply hinv_thread; auto.
  - apply hinv_thread; auto. cbn. intros ? ? ? [?|?%list_elem_of_singleton]%elem_of_app; [by left|done].
  - rewrite (hi_installed _ _ Hh). cbn [fst snd]. destruct Hpc as (a & b & c & _ & [_ Hsig] & _).
    destruct (restore_for_disp (g_s g) sig disp (hi_term _ _ Hh) (hi_int _ _ Hh) Hsig) as [R1 R2].
    destruct (restore_for_same (g_s g) sig) as (E1 & _ & _ & E4 & E5 & E6 & _).
    apply hinv_thread; auto. rewrite E1. auto.
  - done.
  - cbn [fst snd]. unfold raise_signal. set (s1 := emit _ _). destruct (deliver_frame w s1 sig) as (F1 & F2 & F3).
    apply hinv_thread; auto.
    + intros x Hx. rewrite deliver_disp; [done|]. cbn. rewrite Hx. apply Hdisp.
    + rewrite deliver_trace. cbn. intros x y d. rewrite !elem_of_app. intros [[?|Hin%list_elem_of_singleton]|Hin]; [by left| |].
      * injection Hin as -> -> ->. by right.
      * by apply outcome_raise in Hin.
Qed.

Lemma hinv_run disp ops : ∀ g,
  (∀ x, disp x ≠ SIG_CLOG) → Forall no_setup ops → ginv g → hinv disp g → hinv disp (sig_run g ops).
Proof.
  induction ops as [|o ops IH]; intros g Hd Ho Hg Hh; [done|]. apply Forall_cons in Ho as [Ho Hops]. cbn [sig_run foldl].
  apply IH; [done|done|by apply sig_exec_inv|]. unfold sig_exec. destruct (killed (g_s g)); [done|].
  destruct o as [p t i| | |t|t w|w sig|sig]; try done.
  - destruct (g_proc g t); try done. apply hinv_thread; auto.
  - pose proof (hinv_step disp g t w Hd Hg Hh) as H. by destruct (proc_step _ _ _ _).
  - destruct Hh as [H1 H2 H3 H4 H5]. destruct (deliver_frame w (g_s g) sig) as (F1 & F2 & F3). split; cbn; try congruence.
    + intros t. specialize (H4 t). destruct (g_proc g t); try done. rewrite deliver_disp; [done|]. rewrite H4. apply Hd.
    + rewrite deliver_trace. intros t x d [Hin|Hin]%elem_of_app; [by eapply H5|by apply outcome_raise in Hin].
  - destruct (sg_pipe (g_s g)); [|done]. destruct (handler_ran (g_s g) sig); [|done]. by destruct Hh.
Qed.

Lemma installed_ok disp pipe_ok :
  (∀ x, disp x ≠ SIG_CLOG) →
  let g := machine_init (log_install_signal_handlers pipe_ok true true (signals_init disp)).1 in ginv g ∧ hinv disp g.
Proof.
  intros Hd g. destruct (install_spec pipe_ok (signals_init disp) eq_refl) as (_ & I1 & I2 & I3 & I4 & I5 & I6 & I7 & I8).
  subst g. set (s := (log_install_signal_handlers _ _ _ _).1) in *. clearbody s. cbn in I2, I3, I4, I5, I6, I8. split.
  - split; cbn.
    + rewrite I2. intros [|e pre] t sig d post E; discriminate E.
    + done.
    + split; [by rewrite I7|]. intros bytes Hb. destruct I8 as [I8|I8]; rewrite I8 in Hb; [done|]. by injection Hb as <-.
    + split; [|by rewrite I4, I5, I6]. intros x. rewrite I3. destruct (Z.eqb_spec x SIGINT); [by right|].
      destruct (Z.eqb_spec x SIGTERM); [by left|]. intros Hx. by destruct (Hd x).
    + by rewrite I1.
  - split; cbn; try done. rewrite I2. intros t sig d H. by apply not_elem_of_nil in H.
Qed.

(** ** The function when nothing comes in between *)

Lemma proc_run_return n t w s : proc_run n t w (s, P_return) = (s, P_return).
Proof. induction n as [|n IH]; [done|exact IH]. Qed.

Lemma proc_run_S n t w x : proc_run (S n) t w x = proc_run n t w (proc_step t w x.1 x.2).
Proof. done. Qed.

Lemma drain_run t w sig k : ∀ n s bytes,
  sg_pipe s = Some bytes → (length bytes ≤ n)%nat →
  ∃ m, (k ≤ m)%nat ∧ proc_run (1 + n + k) t w (s, P_drain sig) = proc_run m t w (set_pipe s (Some []), P_flush sig).
Proof.
  induction n as [|n IH]; intros s bytes Hb Hl.
  - destruct bytes as [|]; [|cbn in Hl; lia]. exists k. split; [done|]. cbn. rewrite Hb. by destruct s; cbn in *; subst.
  - cbn [Nat.add proc_run]. cbn [proc_step fst snd]. rewrite Hb. destruct bytes as [|ch bytes].
    + exists (Datatypes.S (n + k)). split; [lia|]. by destruct s; cbn in *; subst.
    + destruct (IH (set_pipe s (Some (drop 16 (ch :: bytes)))) _ eq_refl) as (m & Hm & E).
      { rewrite length_drop. cbn in *. lia. }
      exists m. split; [done|]. exact E.
Qed.

Lemma process_pending t w s sig d :
  sg_pending s = sig → sig ≠ 0 → sg_installed s = true → sg_disp (restore_for s sig) sig = d → d ≠ SIG_CLOG →
  let s3 := log_process_pending_signals t w s in
  sg_trace s3 = sg_trace s ++ [E_read t sig; E_flush t; E_raise t sig d] ++ outcome sig d ∧
  sg_pending s3 = 0 ∧ (sg_pipe s3 = None ∨ sg_pipe s3 = Some []).
Proof.
  intros Hp Hs Hi Hd Hc. unfold log_process_pending_signals, proc_fuel.
  assert (∀ s1 m, (3 ≤ m)%nat → sg_trace s1 = sg_trace s ++ [E_read t sig] → sg_pending s1 = 0 → sg_installed s1 = true →
    sg_pipe s1 = None ∨ sg_pipe s1 = Some [] → sg_disp s1 = sg_disp s → sg_old_term s1 = sg_old_term s → sg_old_int s1 = sg_old_int s →
    let s3 := (proc_run m t w (s1, P_flush sig)).1 in
    sg_trace s3 = sg_trace s ++ [E_read t sig; E_flush t; E_raise t sig d] ++ outcome sig d ∧
    sg_pending s3 = 0 ∧ (sg_pipe s3 = None ∨ sg_pipe s3 = Some [])) as Hrest.
  { intros s1 m Hm E1 E2 E3 E4 E5 E6 E7. destruct m as [|[|[|m]]]; try lia. cbn [proc_run]. cbn [proc_step fst snd emit sg_installed].
    rewrite E3. cbn [fst snd proc_step]. rewrite proc_run_return. cbn [fst]. unfold raise_signal.
    set (s2 := restore_for _ sig). assert (sg_disp s2 sig = d) as E8.
    { rewrite <- Hd. unfold s2, restore_for. destruct (sig =? SIGTERM), (sig =? SIGINT); cbn; rewrite ?E5, ?E6, ?E7; done. }
    destruct (restore_for_same (emit s1 (E_flush t)) sig) as (R1 & R2 & R3 & _). fold s2 in R1, R2, R3. rewrite deliver_trace. cbn [emit sg_trace sg_disp].
    rewrite E8, R1. cbn [emit sg_trace]. rewrite E1, <- !app_assoc. split; [done|].
    unfold deliver. cbn [emit sg_disp]. rewrite E8. cbn in R2, R3. destruct d; try done; cbn; rewrite R2, R3, E2; auto. }
  change (10 + ?n)%nat with (S (S (8 + n))). do 2 rewrite proc_run_S. cbn [proc_step fst snd].
  rewrite Hp, (proj2 (Z.eqb_neq sig 0) Hs). unfold found. rewrite (proj2 (Z.eqb_neq sig 0) Hs). cbn [fst snd proc_step].
  set (s1 := set_state _ 0 _). destruct (sg_pipe s) as [bytes|] eqn:Epi.
  - destruct (drain_run t w sig 7 (length bytes) s1 bytes) as (m & Hm & E); [done|done|].
    replace (1 + length bytes + 7)%nat with (8 + length bytes)%nat in E by lia. rewrite E.
    apply (Hrest _ m); try done; [lia|by right].
  - change (8 + 0)%nat with (S 7). rewrite proc_run_S. cbn [proc_step fst snd]. cbn [s1 set_state sg_pipe emit]. rewrite Epi.
    apply (Hrest s1 7%nat); try done; [lia|]. left. done.
Qed.

(** The function returns. *)
Lemma run_more n m t w x : (n ≤ m)%nat → (proc_run n t w x).2 = P_return → (proc_run m t w x).2 = P_return.
Proof.
  intros Hm Hx. replace m with (n + (m - n))%nat by lia. generalize (m - n)%nat. clear Hm m. revert x Hx.
  induction n as [|n IH]; intros [s pc] Hx k; cbn in Hx.
  - subst. by rewrite proc_run_return.
  - cbn [Nat.add]. rewrite proc_run_S. by apply IH.
Qed.

Lemma clear_returns t w s sig n :
  match sg_pipe s with Some bytes => (length bytes ≤ n)%nat | None => True end → (proc_run (6 + n) t w (s, P_clear sig)).2 = P_return.
Proof.
  assert (∀ s1 m, (4 ≤ m)%nat → (proc_run m t w (s1, P_flush sig)).2 = P_return) as Hf.
  { intros s1 m Hm. apply (run_more 4); [done|]. cbn [proc_run]. cbn [proc_step fst snd].
    destruct (sg_installed _); cbn [fst snd proc_step]; done. }
  intros Hp. change (6 + n)%nat with (S (5 + n)). rewrite proc_run_S. cbn [proc_step fst snd]. set (s2 := set_state s 0 _).
  destruct (sg_pipe s) as [bytes|] eqn:Epi.
  - destruct (drain_run t w sig 4 n s2 bytes Epi Hp) as (m & Hm & E).
    replace (1 + n + 4)%nat with (5 + n)%nat in E by lia. rewrite E. by apply Hf.
  - change (5 + n)%nat with (S (4 + n)). rewrite proc_run_S. cbn [proc_step fst snd]. cbn [s2 set_state sg_pipe]. rewrite Epi. apply Hf. lia.
Qed.

Lemma process_returns t w s : (proc_run (proc_fuel s) t w (s, P_load)).2 = P_return.
Proof.
  unfold proc_fuel. set (n := match sg_pipe s with Some bytes => length bytes | None => 0%nat end).
  apply (run_more (S (S (6 + n)))); [lia|]. rewrite proc_run_S. cbn [proc_step fst snd].
  destruct (Z.eqb_spec (sg_pending s) 0) as [E0|E0].
  - rewrite proc_run_S. cbn [proc_step fst snd]. unfold n. destruct (sg_pipe s) as [[|ch bytes]|] eqn:Epi; try by rewrite proc_run_return.
    unfold found. destruct (ch =? 0); [by rewrite proc_run_return|]. apply clear_returns. cbn. lia.
  - unfold found. rewrite (proj2 (Z.eqb_neq _ _) E0). apply (run_more (6 + n)); [lia|]. apply clear_returns. cbn. unfold n. by destruct (sg_pipe s).
Qed.

(** ** Properties *)

(** C34: no termination signal is re-raised unflushed.  The application's dispositions are
    its own at the start.  In every interleaving, one access at a time, of threads that
    process, of one that installs or restores the handlers, and of the kernel's deliveries:
    a thread raises only SIGTERM or SIGINT, and only the signal it read last, which clogx's
    handler had caught before, after it flushed since that read; each signal read is raised
    at most once.  With the handlers installed and left installed, what a raised signal
    meets is always the application's own disposition.  And an uninterrupted call with a
    termination signal pending returns having read, flushed and raised that signal, once. *)
Theorem signal_flush_before_raise disp :
  (∀ x, disp x ≠ SIG_CLOG) →
  (∀ ops pre t sig d post,
     sg_trace (g_s (sig_run (machine_init (signals_init disp)) ops)) = pre ++ E_raise t sig d :: post →
     flushed_at t sig pre) ∧
  (∀ pipe_ok ops t sig d, Forall no_setup ops →
     let g := sig_run (machine_init (log_install_signal_handlers pipe_ok true true (signals_init disp)).1) ops in
     E_raise t sig d ∈ sg_trace (g_s g) → d = disp sig) ∧
  (∀ s t w sig, sg_installed s = true → sg_old_term s = disp SIGTERM → sg_old_int s = disp SIGINT →
     sg_pending s = sig → termination sig →
     let s' := log_process_pending_signals t w s in
     (proc_run (proc_fuel s) t w (s, P_load)).2 = P_return ∧
     sg_trace s' = sg_trace s ++ [E_read t sig; E_flush t; E_raise t sig (disp sig)] ++ outcome sig (disp sig) ∧
     log_get_pending_signal s' = 0).
Proof.
  intros Hd. split_and!.
  - intros ops pre t sig d post E. eapply (gi_served _ (ginv_run ops _ (ginv_init disp Hd))). exact E.
  - intros pipe_ok ops t sig d Ho g Hin. destruct (installed_ok disp pipe_ok Hd) as [Hg Hh].
    by eapply (hi_raised _ _ (hinv_run disp ops _ Hd Ho Hg Hh)).
  - intros s t w sig Hi H1 H2 Hp Hs s'. destruct (restore_for_disp s sig disp H1 H2 Hs) as [R _].
    destruct (process_pending t w s sig (disp sig) Hp) as (P1 & P2 & _); [by destruct Hs as [-> | ->]|done|done|done|].
    split; [apply process_returns|]. by split.
Qed.

(** A termination signal is deferred and then has its original effect.  With the
    handlers installed, SIGTERM or SIGINT does nothing but become pending; processing
    it flushes, raises the signal once against the disposition the application had
    before the installation, and leaves nothing pending and the pipe empty. *)
Theorem signal_deferred pipe_ok s t w w' sig :
  sg_installed s = false → termination sig → sg_disp s sig ≠ SIG_CLOG →
  let s1 := (log_install_signal_handlers pipe_ok true true s).1 in
  let s2 := deliver w s1 sig in
  let s3 := log_process_pending_signals t w' s2 in
  (log_install_signal_handlers pipe_ok true true s).2 = CLOG_OK ∧
  sg_trace s2 = sg_trace s ++ [E_handled sig] ∧ log_get_pending_signal s2 = sig ∧
  sg_trace s3 = sg_trace s2 ++ [E_read t sig; E_flush t; E_raise t sig (sg_disp s sig)] ++ outcome sig (sg_disp s sig) ∧
  log_get_pending_signal s3 = 0 ∧ (sg_pipe s3 = None ∨ sg_pipe s3 = Some []).
Proof.
  intros Hi Hsig Hd s1 s2 s3. destruct (install_spec pipe_ok s Hi) as (I0 & I1 & I2 & I3 & I4 & I5 & _). fold s1 in I1, I2, I3, I4, I5.
  assert (sg_disp s1 sig = SIG_CLOG) as Hc by (rewrite I3; by destruct Hsig as [-> | ->]).
  destruct (deliver_frame w s1 sig) as (F1 & F2 & F3). fold s2 in F1, F2, F3.
  assert (sg_trace s2 = sg_trace s ++ [E_handled sig]) as ET by (unfold s2; rewrite deliver_trace, Hc, I2; done).
  assert (sg_pending s2 = sig) as EP.
  { unfold s2, deliver. rewrite Hc. unfold log_signal_handler. cbn. destruct (sg_pipe s1), w; done. }
  destruct (restore_for_disp s2 sig (sg_disp s)) as [R _]; [congruence|congruence|done|].
  destruct (process_pending t w' s2 sig (sg_disp s sig) EP) as (P1 & P2 & P3); [by destruct Hsig as [-> | ->]|congruence|done|done|].
  split; [done|]. split; [done|]. split; [done|]. by split.
Qed.

(** Installing and restoring cancel out: every disposition is what it was, the
    pipe is closed; and a failed installation changes no disposition either. *)
Theorem signal_install_restore pipe_ok term_ok int_ok s :
  sg_installed s = false →
  let r := log_install_signal_handlers pipe_ok term_ok int_ok s in
  let s' := log_restore_signal_handlers r.1 in
  (∀ x, sg_disp s' x = sg_disp s x) ∧ sg_pipe s' = None ∧ sg_installed s' = false ∧
  (r.2 = CLOG_OK ↔ term_ok = true ∧ int_ok = true).
Proof.
  intros Hi r s'. subst r s'. unfold log_install_signal_handlers, setup_self_pipe. rewrite Hi.
  destruct s as [disp pend inst ot oi op pipe trace]. cbn in *. subst inst.
  destruct pipe as [bytes|], pipe_ok, term_ok, int_ok; cbn;
    (split_and!; [|done|done|]; [intros x; unfold SIGTERM, SIGINT;
       destruct (Z.eqb_spec x 2) as [->|]; [done|]; destruct (Z.eqb_spec x 15) as [->|]; done
      |split; [try done; by intros ?|by intros [? ?]]]).
Qed.

(** ** Concrete runs *)

Definition test_disp : Z → disposition := λ x, if x =? SIGINT then SIG_APP 3 else SIG_DFL.

Definition test_ops : list sig_op :=
  [G_process 7; G_step 7 true; G_signal true SIGTERM; G_step 7 true; G_step 7 true; G_step 7 true;
   G_step 7 true; G_step 7 true; G_step 7 true; G_step 7 true].

Lemma signal_flush_before_raise_witness :
  (let g := sig_run (machine_init (log_install_signal_handlers true true true (signals_init test_disp)).1)
              ([G_signal true SIGINT] ++ test_ops) in
   E_raise 7 SIGINT (SIG_APP 3) ∈ sg_trace (g_s g) ∧ SIG_APP 3 = test_disp SIGINT) ∧
  flushed_at 7 SIGINT [E_handled SIGINT; E_read 7 SIGINT; E_flush 7].
Proof.
  destruct (signal_flush_before_raise test_disp) as (H1 & H2 & _).
  { intros x. unfold test_disp. destruct (x =? SIGINT); discriminate. }
  split.
  - split; [|apply (H2 true ([G_signal true SIGINT] ++ test_ops) 7%nat SIGINT)].
    + vm_compute. do 4 right. left.
    + repeat (apply Forall_cons_2; [exact I|]). apply Forall_nil_2.
    + vm_compute. do 4 right. left.
  - apply (H1 ([G_install true true true] ++ replicate 8 G_setup ++ [G_signal true SIGINT; G_process 7] ++ replicate 7 (G_step 7 true))
             _ 7%nat SIGINT (SIG_APP 3) [E_app SIGINT 3]). vm_compute. reflexivity.
Defined.

Lemma signal_deferred_witness :
  sg_trace (log_process_pending_signals 7 true (deliver true
    (log_install_signal_handlers true true true (signals_init test_disp)).1 SIGTERM)) =
  [E_handled SIGTERM; E_read 7 SIGTERM; E_flush 7; E_raise 7 SIGTERM SIG_DFL; E_killed SIGTERM].
Proof.
  destruct (signal_deferred true (signals_init test_disp) 7 true true SIGTERM eq_refl (or_introl eq_refl) ltac:(discriminate))
    as (_ & _ & _ & H & _). exact H.
Defined.

Lemma signal_install_restore_witness :
  sg_disp (log_restore_signal_handlers (log_install_signal_handlers true true true (signals_init test_disp)).1) SIGINT = SIG_APP 3.
Proof. destruct (signal_install_restore true true true (signals_init test_disp) eq_refl) as (H & _). apply H. Defined.

(** With the handlers installed, a thread that runs alone. *)
Definition installed (disp : Z → disposition) : machine :=
  machine_init (log_install_signal_handlers true true true (signals_init disp)).1.
Definition process_once (t : nat) : list sig_op := G_process t :: replicate 12 (G_step t true).

(** Two signals before the next log call: the first is drained with the pipe and
    never raised. *)
Example first_signal_lost :
  sg_trace (g_s (sig_run (installed (λ _, SIG_APP 1))
    ([G_signal true SIGTERM; G_signal true SIGINT] ++ process_once 0 ++ process_once 0))) =
  [E_handled SIGTERM; E_handled SIGINT; E_read 0 SIGINT; E_flush 0; E_raise 0 SIGINT (SIG_APP 1); E_app SIGINT 1].
Proof. vm_compute. reflexivity. Qed.

(** A signal caught while another is processed, after its flush and before its raise, stays
    pending for the next call. *)
Example caught_between :
  let g := sig_run (installed (λ _, SIG_APP 1))
    ([G_signal true SIGTERM; G_process 0] ++ replicate 6 (G_step 0 true) ++ [G_signal true SIGINT] ++ replicate 6 (G_step 0 true)) in
  sg_trace (g_s g) =
    [E_handled SIGTERM; E_read 0 SIGTERM; E_flush 0; E_handled SIGINT; E_raise 0 SIGTERM (SIG_APP 1); E_app SIGTERM 1] ∧
  log_get_pending_signal (g_s g) = SIGINT.
Proof. split; vm_compute; reflexivity. Qed.

(** A signal caught between the load of the flag and its clearing is lost when the drain
    takes its byte too. *)
Example caught_before_clear_lost :
  let g := sig_run (installed (λ _, SIG_APP 1))
    ([G_signal true SIGTERM; G_process 0; G_step 0 true; G_signal true SIGINT] ++ replicate 12 (G_step 0 true) ++ process_once 0) in
  sg_trace (g_s g) =
    [E_handled SIGTERM; E_read 0 SIGTERM; E_handled SIGINT; E_flush 0; E_raise 0 SIGTERM (SIG_APP 1); E_app SIGTERM 1] ∧
  log_get_pending_signal (g_s g) = 0.
Proof. split; vm_compute; reflexivity. Qed.

(** The handler is one-shot: the same signal twice kills the process unflushed. *)
Example second_signal_unflushed :
  sg_trace (g_s (sig_run (installed (λ _, SIG_APP 1)) [G_signal true SIGTERM; G_signal true SIGTERM])) =
  [E_handled SIGTERM; E_killed SIGTERM].
Proof. reflexivity. Qed.

(** When the application's handler returned, the library still counts as installed: a
    second installation succeeds and installs nothing. *)
Example reinstall_is_noop :
  let s := g_s (sig_run (installed (λ _, SIG_APP 1)) (G_signal true SIGTERM :: process_once 0)) in
  (log_install_signal_handlers true true true s).2 = CLOG_OK ∧
  sg_disp (log_install_signal_handlers true true true s).1 SIGTERM = SIG_APP 1.
Proof. split; vm_compute; reflexivity. Qed.
