(* ===== verification/SignalWin.v ===== *)
(** * Signals on Windows (core/signal_handler.c, the branch for [_WIN32])

    The handlers are installed with [signal], there is no self-pipe, and the C runtime
    resets a disposition to the default before it calls the handler, whoever installed it.
    The default is the null pointer, which the code takes for no handler saved. *)
From S2P Require Import Prelude Record Signal.

Local Open Scope Z_scope.

(** [signal]: the new state and the old disposition. *)
Definition win_signal (s : signals) (sig : Z) (d : disposition) : signals * disposition :=
  (set_disp s sig d, sg_disp s sig).

(** A saved handler as a condition of C. *)
Definition saved (d : disposition) : bool := negb (bool_decide (d = SIG_DFL)).

Definition win_signal_handler (s : signals) (sig : Z) : signals := set_state s sig (sg_installed s).

Definition win_deliver (s : signals) (sig : Z) : signals :=
  match sg_disp s sig with
  | SIG_DFL => emit s (E_killed sig)
  | SIG_IGN => s
  | SIG_APP n => emit (set_disp s sig SIG_DFL) (E_app sig n)
  | SIG_CLOG => win_signal_handler (emit (set_disp s sig SIG_DFL) (E_handled sig)) sig
  end.

Definition win_raise (s : signals) (sig : Z) : signals :=
  win_deliver (emit s (E_raise 0 sig (sg_disp s sig))) sig.

(** The function when no signal comes in between. *)
Definition win_process_pending_signals (s : signals) : signals :=
  let sig := sg_pending s in
  if sig =? 0 then s else
  let s := set_state s 0 (sg_installed s) in
  let s := emit s (E_flush 0) in
  let s :=
    if sg_installed s then
      if (sig =? SIGTERM) && saved (sg_old_term s) then (win_signal s SIGTERM (sg_old_term s)).1
      else if (sig =? SIGINT) && saved (sg_old_int s) then (win_signal s SIGINT (sg_old_int s)).1
      else s
    else (win_signal s sig SIG_DFL).1 in
  win_raise s sig.

Definition win_install_signal_handlers (s : signals) : signals * Z :=
  if sg_installed s then (s, CLOG_OK) else
  let '(s, old) := win_signal s SIGTERM SIG_CLOG in
  let s := set_old s old (sg_old_int s) in
  let '(s, old) := win_signal s SIGINT SIG_CLOG in
  let s := set_old s (sg_old_term s) old in
  (set_state s 0 true, CLOG_OK).

Definition win_restore_signal_handlers (s : signals) : signals :=
  if negb (sg_installed s) then s else
  let s := if saved (sg_old_term s) then (win_signal s SIGTERM (sg_old_term s)).1 else s in
  let s := if saved (sg_old_int s) then (win_signal s SIGINT (sg_old_int s)).1 else s in
  set_state s 0 false.

(** ** Runs *)

Inductive win_op := W_install | W_restore | W_process | W_signal (sig : Z).

Definition win_exec (s : signals) (o : win_op) : signals :=
  if killed s then s else
  match o with
  | W_install => (win_install_signal_handlers s).1
  | W_restore => win_restore_signal_handlers s
  | W_process => win_process_pending_signals s
  | W_signal sig => win_deliver s sig
  end.

Definition win_run (s : signals) (ops : list win_op) : signals := foldl win_exec s ops.

Lemma win_install_spec s :
  sg_installed s = false →
  let s1 := (win_install_signal_handlers s).1 in
  sg_installed s1 = true ∧ sg_disp s1 SIGTERM = SIG_CLOG ∧ sg_disp s1 SIGINT = SIG_CLOG ∧
  sg_old_term s1 = sg_disp s SIGTERM ∧ sg_old_int s1 = sg_disp s SIGINT.
Proof. intros Hi. unfold win_install_signal_handlers. rewrite Hi. cbn. done. Qed.

(** ** Properties *)

(** As on POSIX, a termination signal becomes pending and is later flushed for and raised
    once against the application's own disposition; where that was the default, it is the
    runtime's reset that provides it. *)
Theorem win_signal_deferred s sig :
  sg_installed s = false → (sig = SIGTERM ∨ sig = SIGINT) → sg_disp s sig ≠ SIG_CLOG →
  let s1 := (win_install_signal_handlers s).1 in
  let s2 := win_deliver s1 sig in
  let s3 := win_process_pending_signals s2 in
  sg_trace s2 = sg_trace s ++ [E_handled sig] ∧ sg_pending s2 = sig ∧ sg_pending s3 = 0 ∧
  sg_trace s3 = sg_trace s2 ++ [E_flush 0; E_raise 0 sig (sg_disp s sig)] ++ outcome sig (sg_disp s sig).
Proof.
  intros Hi Hsig Hd s1 s2 s3. destruct s as [disp pend inst ot oi op pipe trace]. cbn in Hi, Hd. subst inst.
  subst s3 s2 s1. destruct Hsig as [-> | ->];
    (destruct (disp SIGTERM) eqn:ET, (disp SIGINT) eqn:EI; try done;
     cbv -[app outcome] in *; rewrite ?ET, ?EI; cbv -[app]; rewrite <- ?app_assoc; split_and!; done).
Qed.

(** Restoring gives back the dispositions that were not the default; where it was the
    default, clogx's handler stays. *)
Theorem win_install_restore s sig :
  sg_installed s = false → (sig = SIGTERM ∨ sig = SIGINT) →
  sg_disp (win_restore_signal_handlers (win_install_signal_handlers s).1) sig =
    if saved (sg_disp s sig) then sg_disp s sig else SIG_CLOG.
Proof.
  intros Hi Hsig. destruct (win_install_spec s Hi) as (I1 & I2 & I3 & I4 & I5).
  set (s1 := (win_install_signal_handlers s).1) in *. clearbody s1.
  unfold win_restore_signal_handlers. rewrite I1. cbn [negb].
  assert (sg_old_int (if saved (sg_old_term s1) then (win_signal s1 SIGTERM (sg_old_term s1)).1 else s1) = sg_old_int s1) as ->
    by (by destruct (saved (sg_old_term s1))).
  rewrite I4, I5. destruct Hsig as [-> | ->]; destruct (saved (sg_disp s SIGTERM)), (saved (sg_disp s SIGINT)); cbn; done.
Qed.

(** A process that has shut logging down no longer ends on Ctrl-C. *)
Example win_handler_survives_restore :
  let s := win_run (signals_init (λ _, SIG_DFL)) [W_install; W_restore; W_signal SIGINT] in
  sg_trace s = [E_handled SIGINT] ∧ sg_pending s = SIGINT ∧ sg_installed s = false.
Proof. split_and!; reflexivity. Qed.
