(* ===== verification/Prometheus.v ===== *)
(** * Prometheus exporter (core/prometheus_exporter.c)

    The renderer with its buffer arithmetic, the answer of the HTTP worker to one
    connection, and the server's start and stop.  A scraper's view of the text,
    [scrape], is the reference the rendering is compared with.  What the network
    answers is an argument. *)
From S2P Require Import Prelude FastAscii Record RateLimit Logger.

Local Open Scope Z_scope.

Definition LF : cstr := [10].
Definition CRLF : cstr := [13; 10].

(** ** Rendering *)

Definition level_name (idx : Z) : cstr :=
  if idx =? 0 then B "trace" else if idx =? 1 then B "debug" else if idx =? 2 then B "info"
  else if idx =? 3 then B "warn" else if idx =? 4 then B "error" else if idx =? 5 then B "fatal"
  else B "unknown".

Definition events_head : cstr :=
  B "# HELP clogx_log_events_total Total number of log events emitted by level." ++ LF ++
  B "# TYPE clogx_log_events_total counter" ++ LF.

Definition level_line (idx count : Z) : cstr :=
  J "clogx_log_events_total{level='" ++ level_name idx ++ J "'} " ++ dec count ++ LF.

Definition totals (s : log_stats_t) : cstr :=
  B "# HELP clogx_log_dropped_events_total Total log events dropped due to queue full." ++ LF ++
  B "# TYPE clogx_log_dropped_events_total counter" ++ LF ++
  B "clogx_log_dropped_events_total " ++ dec (dropped_queue_full_count s) ++ LF ++
  B "# HELP clogx_log_suppressed_events_total Total log events suppressed by rate limiting." ++ LF ++
  B "# TYPE clogx_log_suppressed_events_total counter" ++ LF ++
  B "clogx_log_suppressed_events_total " ++ dec (suppressed_rate_count s) ++ LF ++
  B "# HELP clogx_async_queue_depth Current pending records in async worker queue." ++ LF ++
  B "# TYPE clogx_async_queue_depth gauge" ++ LF ++
  B "clogx_async_queue_depth " ++ dec (current_queue_depth s) ++ LF.

(** One [snprintf (out, remaining, ...)] and the check behind it: [inl] with what the
    buffer then holds when the text did not fit. *)
Definition render_chunk (buf_size : Z) (out text : cstr) : cstr + cstr :=
  let remaining := buf_size - clen out in
  let out' := out ++ snprintf_s remaining text in
  if (clen text <=? 0) || (clen text >=? remaining) then inl out' else inr out'.

Fixpoint render_levels (buf_size : Z) (counts : list Z) (todo : nat) (i : Z) (out : cstr) : cstr + cstr :=
  match todo with
  | O => inr out
  | S todo' =>
      match render_chunk buf_size out (level_line i (counts !!! Z.to_nat i)) with
      | inl out => inl out
      | inr out => render_levels buf_size counts todo' (i + 1) out
      end
  end.

(** The return value and the string in the buffer, [None] when it was not touched. *)
Definition clog_prometheus_render_metrics (buf : bool) (buf_size : Z) (counts : list Z) (stats : log_stats_t) :
    Z * option cstr :=
  if negb buf || (buf_size =? 0) then (-1, None) else
  match render_chunk buf_size [] events_head with
  | inl out => (-1, Some out)
  | inr out =>
      match render_levels buf_size counts 6 0 out with
      | inl out => (-1, Some out)
      | inr out =>
          match render_chunk buf_size out (totals stats) with
          | inl out => (-1, Some out)
          | inr out => (i32 (clen out), Some out)
          end
      end
  end.

(** ** Answering a connection *)

Definition http_response (metrics_len : Z) (metrics_body : cstr) : cstr :=
  B "HTTP/1.1 200 OK" ++ CRLF ++
  B "Content-Type: text/plain; version=0.0.4; charset=utf-8" ++ CRLF ++
  B "Content-Length: " ++ sdec metrics_len ++ CRLF ++
  B "Connection: close" ++ CRLF ++ CRLF ++ metrics_body.

(** What is sent on a connection on which [recv] answered [bytes].  The request itself
    is not looked at.  [None] where [send] would read past [http_response]. *)
Definition serve (bytes : Z) (counts : list Z) (stats : log_stats_t) (stale : cstr) : option (list cstr) :=
  if bytes >? 0 then
    let '(metrics_len, written) := clog_prometheus_render_metrics true 4096 counts stats in
    let metrics_body := default stale written in
    let metrics_len := if metrics_len <? 0 then 0 else metrics_len in
    let text := http_response metrics_len metrics_body in
    if clen text >? 0 then
      if clen text <=? 8192 then Some [take (Z.to_nat (clen text)) (snprintf_s 8192 text ++ [0])] else None
    else Some []
  else Some [].

(** ** The server *)

(** [ps_fd] is [g_prom_server_fd], [ps_open] the sockets the process holds open,
    [ps_net] the depth of [clog_net_init], [ps_thread] the thread handle and
    [ps_workers] the workers that have not returned. *)
Record prom_t := Prom {
  ps_running : bool; ps_fd : option nat; ps_thread : nat;
  ps_open : list nat; ps_net : Z; ps_workers : list nat; ps_next : nat
}.

Definition prom_init : prom_t := Prom false None 0 [] 0 [] 0.

(** Which system call of [start] fails, if any. *)
Inductive start_env := Start_ok | No_socket | No_bind | No_listen | No_thread.

Definition close_server (s : prom_t) : prom_t :=
  match ps_fd s with
  | Some fd => Prom (ps_running s) None (ps_thread s) (filter (λ x, x ≠ fd) (ps_open s)) (ps_net s - 1) (ps_workers s) (ps_next s)
  | None => s
  end.

Definition clog_prometheus_exporter_start (env : start_env) (port : Z) (s : prom_t) : prom_t * Z :=
  if (port <=? 0) || (port >? 65535) then (s, CLOG_ERR_INVALID_ARG)
  else if ps_running s then (s, CLOG_OK)
  else
    let net := ps_net s + 1 in
    match env with
    | No_socket => (Prom false None (ps_thread s) (ps_open s) (net - 1) (ps_workers s) (ps_next s), CLOG_ERR_SOCKET_CONNECT)
    | _ =>
        let n := ps_next s in
        let s := Prom false (Some n) (ps_thread s) (n :: ps_open s) net (ps_workers s) (S n) in
        match env with
        | No_bind | No_listen => (close_server s, CLOG_ERR_SOCKET_CONNECT)
        | No_thread => (close_server s, CLOG_ERR_THREAD_CREATE)
        | _ => (Prom true (ps_fd s) n (ps_open s) (ps_net s) (n :: ps_workers s) (ps_next s), CLOG_OK)
        end
    end.

(** The part of [stop] under the mutex; the thread to join afterwards, if any. *)
Definition stop_locked (s : prom_t) : prom_t * bool :=
  if negb (ps_running s) then (s, false)
  else (close_server (Prom false (ps_fd s) (ps_thread s) (ps_open s) (ps_net s) (ps_workers s) (ps_next s)), true).

(** A worker at the top of its loop returns when the flag is down. *)
Definition worker_check (w : nat) (s : prom_t) : prom_t :=
  if ps_running s then s
  else Prom (ps_running s) (ps_fd s) (ps_thread s) (ps_open s) (ps_net s) (filter (λ x, x ≠ w) (ps_workers s)) (ps_next s).

(** [join] returns once the thread named by [g_prom_thread] has. *)
Definition can_join (s : prom_t) : bool := bool_decide (ps_thread s ∉ ps_workers s).

(** [stop] with no [start] during its join: the worker finds the flag down. *)
Definition clog_prometheus_exporter_stop (s : prom_t) : prom_t :=
  let '(s, join) := stop_locked s in
  if join then worker_check (ps_thread s) s else s.

Definition clog_prometheus_exporter_is_running (s : prom_t) : bool := ps_running s.

(** ** The text, and what a scraper reads in it *)

Definition metrics_text (counts : list Z) (s : log_stats_t) : cstr :=
  events_head ++
  level_line 0 (counts !!! 0%nat) ++ level_line 1 (counts !!! 1%nat) ++ level_line 2 (counts !!! 2%nat) ++
  level_line 3 (counts !!! 3%nat) ++ level_line 4 (counts !!! 4%nat) ++ level_line 5 (counts !!! 5%nat) ++
  totals s.

Fixpoint text_lines (s : cstr) : list cstr :=
  match s with
  | [] => []
  | x :: s' =>
      if x =? 10 then [] :: text_lines s'
      else match text_lines s' with [] => [[x]] | l :: ls => (x :: l) :: ls end
  end.

Fixpoint split_at_last (c : Z) (s : cstr) : option (cstr * cstr) :=
  match s with
  | [] => None
  | x :: s' =>
      match split_at_last c s' with
      | Some (a, b) => Some (x :: a, b)
      | None => if x =? c then Some ([], s') else None
      end
  end.

(** A sample line: a series and its value; comments start with [#]. *)
Definition sample (line : cstr) : option (cstr * Z) :=
  match line with
  | [] => None
  | x :: _ => if x =? 35 then None
              else '(name, value) ← split_at_last 32 line; Some (name, dec_value value)
  end.

Definition scrape (text : cstr) : list (cstr * Z) := omap sample (text_lines text).

Definition level_series (i : Z) : cstr := J "clogx_log_events_total{level='" ++ level_name i ++ J "'}".

Definition samples (counts : list Z) (s : log_stats_t) : list (cstr * Z) :=
  map (λ i : nat, (level_series (Z.of_nat i), counts !!! i)) (seq 0 6) ++
  [(B "clogx_log_dropped_events_total", dropped_queue_full_count s);
   (B "clogx_log_suppressed_events_total", suppressed_rate_count s);
   (B "clogx_async_queue_depth", current_queue_depth s)].

Lemma text_lines_cons a s : 10 ∉ a → text_lines (a ++ LF ++ s) = a :: text_lines s.
Proof.
  induction a as [|x a IH]; intros H; [done|]. apply not_elem_of_cons in H as [Hx Ha]. cbn.
  destruct (Z.eqb_spec x 10); [congruence|]. change (10 :: s) with (LF ++ s). by rewrite (IH Ha).
Qed.

Lemma split_at_last_none c s : c ∉ s → split_at_last c s = None.
Proof.
  induction s as [|x s IH]; intros H; [done|]. apply not_elem_of_cons in H as [Hx Hs]. cbn.
  rewrite (IH Hs). by destruct (Z.eqb_spec x c).
Qed.

Lemma split_at_last_app c a b : c ∉ b → split_at_last c (a ++ c :: b) = Some (a, b).
Proof.
  intros Hb. induction a as [|x a IH]; cbn.
  - by rewrite (split_at_last_none c b Hb), Z.eqb_refl.
  - by rewrite IH.
Qed.

Lemma dec_not_elem c v : 0 <= v → c < 48 → c ∉ dec v.
Proof. intros Hv Hc Hin. pose proof (dec_digits v Hv) as HF. rewrite Forall_forall in HF. specialize (HF _ Hin). cbn in HF. lia. Qed.

Lemma scrape_comment a s : 10 ∉ a → head a = Some 35 → scrape (a ++ LF ++ s) = scrape s.
Proof. intros Ha Hh. unfold scrape. rewrite (text_lines_cons a s Ha). destruct a as [|x a]; [done|]. injection Hh as ->. done. Qed.

Lemma scrape_sample name v s :
  is_u64 v → 10 ∉ name → (∃ x, head name = Some x ∧ x ≠ 35) →
  scrape (name ++ [32] ++ dec v ++ LF ++ s) = (name, v) :: scrape s.
Proof.
  intros Hv Hn (x & Hx & Hne). unfold scrape.
  replace (name ++ [32] ++ dec v ++ LF ++ s) with ((name ++ [32] ++ dec v) ++ LF ++ s) by (by rewrite <- !app_assoc).
  rewrite text_lines_cons.
  - cbn [omap list_omap]. unfold sample. destruct name as [|y name]; [done|]. injection Hx as ->. cbn [app].
    destruct (Z.eqb_spec x 35); [done|]. change (x :: name ++ 32 :: dec v) with ((x :: name) ++ 32 :: dec v).
    rewrite (split_at_last_app 32 (x :: name) (dec v)) by (apply dec_not_elem; [apply Hv|done]).
    cbn -[dec dec_value]. by rewrite (dec_value_dec v Hv).
  - rewrite !elem_of_app. intros [Hin|[Hin|Hin]]; [done|by apply list_elem_of_singleton in Hin|]. revert Hin. apply dec_not_elem; [apply Hv|done].
Qed.

(** ** Rendering in chunks is one bounded print *)

Lemma render_chunk_spec n out text :
  clen out < n → 0 < clen text →
  render_chunk n out text =
    if clen (out ++ text) <? n then inr (out ++ text) else inl (snprintf_s n (out ++ text)).
Proof.
  intros Ho Ht. unfold render_chunk. rewrite Z.geb_leb, clen_app.
  destruct (Z.leb_spec (clen text) 0); [lia|]. cbn [orb].
  destruct (Z.leb_spec (n - clen out) (clen text)), (Z.ltb_spec (clen out + clen text) n); try lia.
  - f_equal. unfold snprintf_s. rewrite take_app. f_equal.
    + symmetry. apply take_ge. unfold clen in *. lia.
    + f_equal. unfold clen in *. lia.
  - by rewrite snprintf_s_id by lia.
Qed.

(** Printing more text after a full buffer changes nothing. *)
Lemma snprintf_s_more n s t : n <= clen s → snprintf_s n (s ++ t) = snprintf_s n s.
Proof. intros H. unfold snprintf_s. apply take_app_le. unfold clen in *. lia. Qed.

Lemma level_line_pos i c : 0 < clen (level_line i c).
Proof. unfold level_line. rewrite !clen_app. change (clen LF) with 1. clia. Qed.

(** The chunks one after the other. *)
Fixpoint render_all (n : Z) (out : cstr) (chunks : list cstr) : cstr + cstr :=
  match chunks with
  | [] => inr out
  | c :: cs => match render_chunk n out c with inl out => inl out | inr out => render_all n out cs end
  end.

Lemma render_all_spec n cs : ∀ out,
  clen out < n → Forall (λ c, 0 < clen c) cs →
  render_all n out cs =
    if clen (out ++ concat cs) <? n then inr (out ++ concat cs) else inl (snprintf_s n (out ++ concat cs)).
Proof.
  induction cs as [|c cs IH]; intros out Ho Hc; cbn [render_all concat].
  { rewrite app_nil_r. by destruct (Z.ltb_spec (clen out) n); [|lia]. }
  apply Forall_cons in Hc as [Hc Hcs]. rewrite (render_chunk_spec n out c Ho Hc).
  destruct (Z.ltb_spec (clen (out ++ c)) n) as [Hlt|Hge].
  - rewrite (IH _ Hlt Hcs). by rewrite <- app_assoc.
  - rewrite app_assoc. destruct (Z.ltb_spec (clen ((out ++ c) ++ concat cs)) n) as [H|H].
    { rewrite clen_app in H. pose proof (clen_nonneg (concat cs)). lia. }
    by rewrite (snprintf_s_more n (out ++ c)).
Qed.

Lemma render_levels_all n counts todo : ∀ (i : nat) out,
  render_levels n counts todo (Z.of_nat i) out =
  render_all n out (map (λ i : nat, level_line (Z.of_nat i) (counts !!! i)) (seq i todo)).
Proof.
  induction todo as [|todo IH]; intros i out; [done|]. cbn [render_levels seq map render_all]. rewrite Nat2Z.id.
  destruct (render_chunk _ _ _); [done|]. replace (Z.of_nat i + 1) with (Z.of_nat (S i)) by lia. apply IH.
Qed.

Lemma render_all_app n cs ds : ∀ out,
  render_all n out (cs ++ ds) =
  match render_all n out cs with inl out => inl out | inr out => render_all n out ds end.
Proof. induction cs as [|c cs IH]; intros out; [done|]. cbn. destruct (render_chunk _ _ _); [done|]. apply IH. Qed.

Definition chunks (counts : list Z) (stats : log_stats_t) : list cstr :=
  events_head :: map (λ i : nat, level_line (Z.of_nat i) (counts !!! i)) (seq 0 6) ++ [totals stats].

Lemma render_metrics_all n counts stats :
  0 < n →
  clog_prometheus_render_metrics true n counts stats =
  match render_all n [] (chunks counts stats) with
  | inl out => (-1, Some out)
  | inr out => (i32 (clen out), Some out)
  end.
Proof.
  intros Hn. unfold clog_prometheus_render_metrics, chunks. cbn [negb orb]. destruct (Z.eqb_spec n 0); [lia|].
  cbn [render_all]. destruct (render_chunk n [] events_head) as [o|o0]; [done|].
  rewrite render_all_app. change 0 with (Z.of_nat 0) at 1. rewrite render_levels_all.
  destruct (render_all _ _ _) as [o|o1]; [done|]. cbn [render_all]. by destruct (render_chunk _ _ _).
Qed.

Lemma chunks_concat counts stats : concat (chunks counts stats) = metrics_text counts stats.
Proof. unfold chunks, metrics_text. cbn [concat map seq app]. by rewrite app_nil_r. Qed.

Lemma chunks_pos counts stats : Forall (λ c, 0 < clen c) (chunks counts stats).
Proof.
  unfold chunks. constructor; [done|]. apply Forall_app. split.
  - apply Forall_map, Forall_forall. intros i _. apply level_line_pos.
  - constructor; [|done]. unfold totals. rewrite !clen_app. change (clen LF) with 1. clia.
Qed.

Lemma clen_dec v : clen (dec v) <= 20.
Proof. unfold clen. pose proof (dec_length v). lia. Qed.

Lemma clen_level_line i c : clen (level_line i c) <= 64.
Proof.
  unfold level_line. rewrite !clen_app. pose proof (clen_dec c).
  change (clen (J "clogx_log_events_total{level='")) with 30. change (clen (J "'} ")) with 3. change (clen LF) with 1.
  assert (clen (level_name i) <= 7); [|lia]. unfold level_name.
  repeat match goal with |- context [if ?b then _ else _] => destruct b end; done.
Qed.

Lemma clen_metrics_text counts stats : clen (metrics_text counts stats) <= 2000.
Proof.
  unfold metrics_text. rewrite !clen_app.
  pose proof (clen_level_line 0 (counts !!! 0%nat)). pose proof (clen_level_line 1 (counts !!! 1%nat)).
  pose proof (clen_level_line 2 (counts !!! 2%nat)). pose proof (clen_level_line 3 (counts !!! 3%nat)).
  pose proof (clen_level_line 4 (counts !!! 4%nat)). pose proof (clen_level_line 5 (counts !!! 5%nat)).
  change (clen events_head) with 113.
  assert (clen (totals stats) <= 700); [|lia]. unfold totals.
  pose proof (clen_dec (dropped_queue_full_count stats)). pose proof (clen_dec (suppressed_rate_count stats)).
  pose proof (clen_dec (current_queue_depth stats)).
  generalize dependent (dec (dropped_queue_full_count stats)). generalize dependent (dec (suppressed_rate_count stats)).
  generalize dependent (dec (current_queue_depth stats)). intros d1 Hd1 d2 Hd2 d3 Hd3. rewrite !clen_app.
  repeat match goal with |- context [clen (B ?s)] => let n := eval vm_compute in (clen (B s)) in change (clen (B s)) with n end.
  change (clen LF) with 1. lia.
Qed.

(** The six counters, each 64 bits wide. *)
Definition counts_ok (counts : list Z) : Prop :=
  ∀ i : nat, (i < 6)%nat → ∃ n, counts !! i = Some n ∧ is_u64 n.

Lemma counts_ok_total counts i : counts_ok counts → (i < 6)%nat →
  counts !! i = Some (counts !!! i) ∧ is_u64 (counts !!! i).
Proof. intros Hc Hi. destruct (Hc i Hi) as (n & Hn & Hu). by rewrite (list_lookup_total_correct _ _ _ Hn). Qed.

Definition stats_ok (s : log_stats_t) : Prop :=
  is_u64 (dropped_queue_full_count s) ∧ is_u64 (suppressed_rate_count s) ∧ is_u64 (current_queue_depth s).

Lemma level_line_series i c s : level_line i c ++ s = level_series i ++ [32] ++ dec c ++ LF ++ s.
Proof. unfold level_line, level_series. by rewrite <- !app_assoc. Qed.

Lemma scrape_level (i : nat) c s :
  (i < 6)%nat → is_u64 c → scrape (level_line (Z.of_nat i) c ++ s) = (level_series (Z.of_nat i), c) :: scrape s.
Proof.
  intros Hi Hc. rewrite level_line_series. apply scrape_sample; [done| |by eexists].
  do 6 (destruct i as [|i]; [apply (bool_decide_unpack _); vm_compute; exact I|]). lia.
Qed.

(** A line of [totals] *)
Lemma scrape_total name v s :
  is_u64 v → bool_decide (10 ∉ name) = true → (∃ x, head name = Some x ∧ x ≠ 35) →
  scrape ((name ++ [32]) ++ dec v ++ LF ++ s) = (name, v) :: scrape s.
Proof. intros Hv Hn Hx. rewrite <- app_assoc. apply scrape_sample; [done| |done]. by apply bool_decide_eq_true in Hn. Qed.

Lemma scrape_totals s : stats_ok s → scrape (totals s) =
  [(B "clogx_log_dropped_events_total", dropped_queue_full_count s);
   (B "clogx_log_suppressed_events_total", suppressed_rate_count s);
   (B "clogx_async_queue_depth", current_queue_depth s)].
Proof.
  intros (H1 & H2 & H3). unfold totals.
  do 2 (rewrite scrape_comment; [|apply (bool_decide_unpack _); vm_compute; exact I|done]).
  change (B "clogx_log_dropped_events_total ") with (B "clogx_log_dropped_events_total" ++ [32]).
  rewrite (scrape_total _ _ _ H1); [|done|by eexists]. f_equal.
  do 2 (rewrite scrape_comment; [|apply (bool_decide_unpack _); vm_compute; exact I|done]).
  change (B "clogx_log_suppressed_events_total ") with (B "clogx_log_suppressed_events_total" ++ [32]).
  rewrite (scrape_total _ _ _ H2); [|done|by eexists]. f_equal.
  do 2 (rewrite scrape_comment; [|apply (bool_decide_unpack _); vm_compute; exact I|done]).
  change (B "clogx_async_queue_depth ") with (B "clogx_async_queue_depth" ++ [32]).
  rewrite <- (app_nil_r LF). by rewrite (scrape_total _ _ _ H3); [|done|by eexists].
Qed.

Lemma scrape_metrics_text counts s :
  counts_ok counts → stats_ok s →
  scrape (metrics_text counts s) = samples counts s.
Proof.
  intros Hc Hs. unfold metrics_text, events_head. rewrite <- !app_assoc.
  pose proof (λ i Hi, proj2 (counts_ok_total counts i Hc Hi)) as Hu.
  do 2 (rewrite scrape_comment; [|apply (bool_decide_unpack _); vm_compute; exact I|done]).
  rewrite (scrape_level 0) by auto with lia. rewrite (scrape_level 1) by auto with lia.
  rewrite (scrape_level 2) by auto with lia. rewrite (scrape_level 3) by auto with lia.
  rewrite (scrape_level 4) by auto with lia. rewrite (scrape_level 5) by auto with lia.
  by rewrite (scrape_totals s Hs).
Qed.

Lemma clen_http_response n body : 0 <= n → clen (http_response n body) <= 200 + clen body.
Proof.
  intros Hn. unfold http_response. assert (clen (sdec n) <= 20).
  { unfold sdec. destruct (Z.ltb_spec n 0); [lia|apply clen_dec]. }
  generalize dependent (sdec n). intros d Hd. rewrite !clen_app.
  repeat match goal with |- context [clen (B ?s)] => let n := eval vm_compute in (clen (B s)) in change (clen (B s)) with n end.
  change (clen CRLF) with 2. lia.
Qed.

(** The 4096- and 8192-byte buffers are always large enough. *)
Lemma serve_spec bytes counts stats stale :
  0 < bytes → serve bytes counts stats stale =
  Some [http_response (clen (metrics_text counts stats)) (metrics_text counts stats)].
Proof.
  intros Hb. unfold serve. rewrite Z.gtb_ltb. destruct (Z.ltb_spec 0 bytes); [|lia].
  rewrite render_metrics_all by lia.
  rewrite (render_all_spec 4096 (chunks counts stats) [] ltac:(done) (chunks_pos counts stats)). cbn [app].
  rewrite chunks_concat. pose proof (clen_metrics_text counts stats) as Hl.
  pose proof (clen_nonneg (metrics_text counts stats)) as Hp.
  destruct (Z.ltb_spec (clen (metrics_text counts stats)) 4096); [|lia]. cbn [default]. unfold id.
  rewrite i32_id by (unfold is_i32; lia).
  destruct (Z.ltb_spec (clen (metrics_text counts stats)) 0); [lia|].
  set (body := metrics_text counts stats) in *. pose proof (clen_http_response (clen body) body Hp) as Ht.
  assert (0 < clen (http_response (clen body) body)) as Hpos.
  { unfold http_response. rewrite clen_app. change (clen (B "HTTP/1.1 200 OK")) with 15.
    match goal with |- 0 < 15 + clen ?x => pose proof (clen_nonneg x) end. lia. }
  set (t := http_response (clen body) body) in *. clearbody t.
  rewrite Z.gtb_ltb. destruct (Z.ltb_spec 0 (clen t)); [|lia]. destruct (Z.leb_spec (clen t) 8192); [|lia].
  rewrite snprintf_s_id by lia. unfold clen. rewrite Nat2Z.id. by rewrite take_app_length.
Qed.

Lemma write_run_counters_ok cs : ∀ l counts l' counts' outs,
  counters_ok l (clen cs) → write_run l counts cs = Some (l', counts', outs) → counters_ok l' 0.
Proof.
  induction cs as [|c cs IH]; intros l counts l' counts' outs Hc H; cbn [write_run] in H; [by injection H as <- _ <-|].
  apply bind_Some in H as ([l1 out] & H1 & H). apply bind_Some in H as ([[l2 counts2] outs'] & H2 & H).
  injection H as <- _ <-. rewrite clen_cons in Hc.
  destruct (call_accounts l c l1 out (clen cs) Hc (clen_nonneg _) H1) as (Hc1 & _). by eapply IH.
Qed.

(** ** The server's resources *)

(** A sequence of calls with no [start] while a [stop] waits. *)
Inductive prom_op := P_start (env : start_env) (port : Z) | P_stop.

Definition prom_exec (s : prom_t) (o : prom_op) : prom_t :=
  match o with
  | P_start env port => (clog_prometheus_exporter_start env port s).1
  | P_stop => clog_prometheus_exporter_stop s
  end.

Definition prom_run (ops : list prom_op) : prom_t := foldl prom_exec prom_init ops.

(** While the server runs: one socket, one level of network initialisation and one
    worker, the joinable one; otherwise nothing. *)
Definition prom_inv (s : prom_t) : Prop :=
  if ps_running s
  then ∃ fd, ps_fd s = Some fd ∧ ps_open s = [fd] ∧ ps_net s = 1 ∧ ps_workers s = [ps_thread s]
  else ps_fd s = None ∧ ps_open s = [] ∧ ps_net s = 0 ∧ ps_workers s = [].

Lemma filter_ne_single (x : nat) : filter (λ y, y ≠ x) [x] = [].
Proof. rewrite filter_cons_False by naive_solver. done. Qed.

Lemma prom_start_inv env port s : prom_inv s → prom_inv (clog_prometheus_exporter_start env port s).1.
Proof.
  intros Hs. unfold clog_prometheus_exporter_start. destruct (_ || _); [done|].
  destruct (ps_running s) eqn:Hr; [done|]. unfold prom_inv in Hs. rewrite Hr in Hs. destruct Hs as (H1 & H2 & H3 & H4).
  destruct env; unfold prom_inv, close_server; cbn [ps_running ps_fd ps_open ps_net ps_workers ps_thread fst];
    rewrite H2, H3, H4, ?filter_ne_single; first [by eexists|split_and!; done].
Qed.

Lemma prom_stop_inv s : prom_inv s →
  let s' := clog_prometheus_exporter_stop s in prom_inv s' ∧ ps_running s' = false.
Proof.
  intros Hs. unfold clog_prometheus_exporter_stop, stop_locked. destruct (ps_running s) eqn:Hr; [|done].
  unfold prom_inv in Hs. rewrite Hr in Hs. destruct Hs as (fd & H1 & H2 & H3 & H4). cbn [negb].
  unfold close_server. cbn [ps_fd]. rewrite H1. unfold worker_check, prom_inv. cbn. rewrite H2, H3, H4, !filter_ne_single.
  split_and!; done.
Qed.

Lemma prom_run_inv ops : ∀ s, prom_inv s → prom_inv (foldl prom_exec s ops).
Proof.
  induction ops as [|o ops IH]; intros s Hs; [done|]. cbn [foldl]. apply IH.
  destruct o; [by apply prom_start_inv|by apply prom_stop_inv].
Qed.

(** ** Properties *)

(** Rendering in chunks is one bounded print of the reference text, at every buffer
    size: the length is returned when the text fits, [-1] when it does not, with what
    fits (and nothing past the buffer) left in it; and a scraper reads back exactly the
    nine counters. *)
Theorem prometheus_render_reference n counts stats :
  0 < n → counts_ok counts → stats_ok stats →
  let text := metrics_text counts stats in
  clog_prometheus_render_metrics true n counts stats =
    (if clen text <? n then (clen text, Some text) else (-1, Some (snprintf_s n text))) ∧
  scrape text = samples counts stats.
Proof.
  intros Hn Hc Hs text. split; [|by apply scrape_metrics_text].
  rewrite (render_metrics_all n counts stats Hn), (render_all_spec n (chunks counts stats) [] Hn (chunks_pos counts stats)).
  cbn [app]. rewrite chunks_concat. fold text. destruct (clen text <? n); [|done].
  pose proof (clen_metrics_text counts stats). pose proof (clen_nonneg text). rewrite i32_id; [done|]. unfold is_i32, text in *. lia.
Qed.

(** What a scrape of the default logger shows.  The process-wide level counters start at
    zero and the calls are those of this logger: a client that sends anything gets one
    complete HTTP response whose [Content-Length] is the length of its body (the 4096- and
    8192-byte buffers never truncate), and the body's samples are, for each level, the
    number of calls of that level that passed the filter, and the logger's dropped and
    suppressed counts and queue depth.  The path of the request is not looked at, and the
    names of the series are not those of the documentation. *)
Theorem prometheus_reports l cs l' counts outs depth bytes stale :
  counters_ok l (clen cs) → write_run l (replicate 6 0) cs = Some (l', counts, outs) →
  clen cs < 2 ^ 64 → is_u64 depth → 0 < bytes →
  let stats := logger_get_stats l' depth in
  let text := metrics_text counts stats in
  serve bytes counts stats stale = Some [http_response (clen text) text] ∧
  scrape text =
    map (λ i : nat, (level_series (Z.of_nat i),
                     clen (filter (λ c, passes l c = true ∧ call_level c = Z.of_nat i) cs))) (seq 0 6) ++
    [(B "clogx_log_dropped_events_total", lg_dropped l');
     (B "clogx_log_suppressed_events_total", rl_total_suppressed (lg_rl l'));
     (B "clogx_async_queue_depth", depth)].
Proof.
  intros Hc Hw Hn Hd Hb stats text. split; [by apply serve_spec|].
  assert (∀ i : nat, (i < 6)%nat → counts !! i =
    Some (clen (filter (λ c, passes l c = true ∧ call_level c = Z.of_nat i) cs))) as Hl.
  { intros i Hi. rewrite (write_run_level_counts cs l _ l' counts outs i 0 Hc Hw); [|by apply lookup_replicate_2|lia|done].
    f_equal. apply u64_id. pose proof (length_filter (λ c, passes l c = true ∧ call_level c = Z.of_nat i) cs).
    unfold is_u64, clen in *. lia. }
  destruct (write_run_counters_ok cs l _ l' counts outs Hc Hw) as ((_ & R1) & _ & R2 & _ & _ & D1 & D2).
  unfold text. rewrite scrape_metrics_text.
  - unfold samples. f_equal. apply map_ext_in. intros i Hi%in_seq. f_equal.
    apply list_lookup_total_correct, Hl. lia.
  - intros i Hi. eexists. split; [by apply Hl|].
    pose proof (length_filter (λ c, passes l c = true ∧ call_level c = Z.of_nat i) cs). unfold is_u64, clen in *. lia.
  - unfold stats_ok, stats, is_u64 in *. cbn. unfold log_rate_limit_get_total_suppressed_for. split_and!; try done; lia.
Qed.

(** The server holds what it needs and nothing else.  After any sequence of starts
    (failing anywhere) and stops: while it runs it has exactly one socket, one network
    initialisation and one worker, the one [stop] will join; otherwise none of them.  A
    failed start changes nothing of this, and after [stop] the server is down. *)
Theorem prometheus_server_resources ops env port :
  let s := prom_run ops in
  prom_inv s ∧ prom_inv (clog_prometheus_exporter_stop s) ∧
  clog_prometheus_exporter_is_running (clog_prometheus_exporter_stop s) = false ∧
  ((clog_prometheus_exporter_start env port s).2 ≠ CLOG_OK →
     ps_running (clog_prometheus_exporter_start env port s).1 = ps_running s) ∧
  ((clog_prometheus_exporter_start env port s).2 = CLOG_OK ↔
     0 < port <= 65535 ∧ (ps_running s = true ∨ env = Start_ok)) ∧
  ((clog_prometheus_exporter_start env port s).2 = CLOG_OK →
     ps_running (clog_prometheus_exporter_start env port s).1 = true).
Proof.
  intros s. assert (prom_inv s) as Hs by (apply prom_run_inv; done).
  split; [done|]. split; [by apply prom_stop_inv|]. split; [by apply prom_stop_inv|].
  unfold clog_prometheus_exporter_start. rewrite Z.gtb_ltb.
  destruct (Z.leb_spec port 0), (Z.ltb_spec 65535 port); cbn [orb];
    try (split_and!; [done|split; [done|lia]|done]).
  destruct (ps_running s) eqn:Hr; [by split_and!; [|split; [auto|]|]|].
  destruct env; cbn; split_and!; try done; split; try done; try (by intros [_ [?|?]]); auto.
Qed.

(** ** Concrete runs *)

Lemma prometheus_render_reference_witness :
  clog_prometheus_render_metrics true 16 (replicate 6 7) (LogStats 42 1 2 3) = (-1, Some (B "# HELP clogx_lo")) ∧
  scrape (metrics_text (replicate 6 7) (LogStats 42 1 2 3)) = samples (replicate 6 7) (LogStats 42 1 2 3).
Proof.
  destruct (prometheus_render_reference 16 (replicate 6 7) (LogStats 42 1 2 3)) as [H1 H2]; [lia| | |].
  - intros i Hi. exists 7. split; [by apply lookup_replicate_2|done].
  - by unfold stats_ok.
  - split; [rewrite H1; vm_compute; reflexivity|exact H2].
Defined.

Lemma prometheus_reports_witness :
  ∃ l' counts outs, write_run test_logger (replicate 6 0) test_calls = Some (l', counts, outs) ∧
    (level_series 2, 3) ∈ scrape (metrics_text counts (logger_get_stats l' 0)).
Proof.
  destruct (write_run test_logger (replicate 6 0) test_calls) as [[[l' counts] outs]|] eqn:E; [|vm_compute in E; discriminate E].
  exists l', counts, outs. split; [done|].
  destruct (prometheus_reports test_logger test_calls l' counts outs 0 1 []) as [_ H];
    [vm_compute; repeat split; discriminate|exact E|reflexivity|by split|reflexivity|].
  rewrite H. apply elem_of_app. left. vm_compute. do 2 constructor 2. constructor 1.
Defined.

(** A [start] between the two halves of [stop]: the old worker sees the flag up again and
    keeps serving, and [stop] waits for the new worker, which nobody stops. *)
Example stop_overtaken :
  let s := (clog_prometheus_exporter_start Start_ok 9090 prom_init).1 in
  let s := (stop_locked s).1 in
  let s := (clog_prometheus_exporter_start Start_ok 9090 s).1 in
  let s := worker_check 0 (worker_check 1 s) in
  can_join s = false ∧ ps_workers s = [1%nat; 0%nat].
Proof. split; reflexivity. Qed.
