(* ===== verification/Lifecycle.v ===== *)
(** * Lifecycle of a logger (core/log.c)

    [log_init], [log_destroy], [log_reload] and the instance variants, as the
    composition of the configuration loader, the rate limiter, the plugin
    loader, the dispatcher, the asynchronous worker, the signal handlers and the
    metrics server, with every early return.  The system's answers are an
    argument. *)
From S2P Require Import Prelude Record Config RateLimit Context Async Dispatcher Logger Plugin Signal Prometheus.
From coqutil Require Import Datatypes.RecordSetters.
Import DoubleBraceUpdate.

Local Open Scope Z_scope.

Section lifecycle.
Context {S : Type} `{!Sink S}.

(** What the process has once, whatever the number of loggers. *)
Record services := Services {
  sv_signals : signals;
  sv_prom : prom_t;
  sv_plugins : plugins_t (log_sink_t S);
  sv_levels : list Z            (* g_prometheus_level_counts *)
}.

(** A logger, and the services. *)
Record app := App {
  ap_log : logger_t;
  ap_disp : dispatcher S;
  ap_async : async_t;
  ap_sv : services
}.

(** What the system answers to one call. *)
Record sys := Sys {
  s_file : cstr → option (list yaml_event);
  s_make : sink_kind → option (log_sink_t S);
  s_dlopen : cstr → option (library (log_sink_t S));
  s_array : bool;               (* malloc of the sink array *)
  s_queue : bool;               (* malloc of the queue *)
  s_sems : bool;                (* semaphores *)
  s_thread : bool;              (* thread creation *)
  s_handlers : bool * bool * bool; (* pipe, sigaction of SIGTERM and SIGINT *)
  s_server : start_env;
  s_now_ms : Z;
  s_pid : Z
}.

Definition cfg_of (a : app) : log_config_t := config (lg_config (ap_log a)).

Definition set_config (a : app) (o : config_owner) : app :=
  App ((ap_log a){{ lg_config := o }}) (ap_disp a) (ap_async a) (ap_sv a).
Definition set_disp (a : app) (d : dispatcher S) : app :=
  App (ap_log a) d (ap_async a) (ap_sv a).
Definition set_async (a : app) (q : async_t) : app :=
  App (ap_log a) (ap_disp a) q (ap_sv a).
Definition set_sv (a : app) (v : services) : app :=
  App (ap_log a) (ap_disp a) (ap_async a) v.
Definition set_plugins (a : app) (t : plugins_t (log_sink_t S)) : app :=
  set_sv a (Services (sv_signals (ap_sv a)) (sv_prom (ap_sv a)) t (sv_levels (ap_sv a))).

(** [log_rate_limit_init_for] with the configured limits. *)
Definition init_rate (s : sys) (a : app) : app :=
  App ((ap_log a){{ lg_rl := log_rate_limit_init_for (lg_rl (ap_log a)) (rate_limit_enable (cfg_of a))
                               (rate_limit_max_per_sec (cfg_of a)) (rate_limit_burst (cfg_of a)) (s_now_ms s) }})
      (ap_disp a) (ap_async a) (ap_sv a).

(** The tail of a successful initialisation. *)
Definition mark_initialized (s : sys) (a : app) : app :=
  App ((ap_log a){{ lg_module := module_name (Some (B "main")); lg_pid := s_pid s; lg_initialized := true }})
      (ap_disp a) (ap_async a) (ap_sv a).

(** The sinks of the configured plugins, created while the dispatcher builds its
    list. *)
Definition load_plugins (s : sys) (a : app) : app * factories S :=
  let '(t, ks) := log_plugin_create_sinks_from_config (s_dlopen s) (sv_plugins (ap_sv a)) (Some (cfg_of a)) CLOG_MAX_PLUGINS in
  (set_plugins a t, Factories (s_make s) (λ _, ks)).

Definition logger_init_internal (s : sys) (a : app) (yaml_path : option cstr) : option (app * Z) :=
  x ← log_config_load_into (lg_config (ap_log a)) yaml_path false (s_file s);
  let '(o, ret) := (x : config_owner * Z) in
  let a := set_config a o in
  if negb (ret =? 0) then Some (a, CLOG_ERR_CONFIG_OPEN)
  else
    let a := init_rate s a in
    let '(a, f) := load_plugins s a in
    y ← log_dispatcher_init_for f (cfg_of a) (s_array s) (ap_disp a);
    let '(d, ret) := (y : dispatcher S * Z) in
    let a := set_disp a d in
    if negb (ret =? 0) then Some (a, CLOG_ERR_NO_SINKS)
    else if async (cfg_of a) then
      let '(q, ret) := log_async_init_for (ap_async a) (queue_size (cfg_of a)) (s_queue s) (s_sems s) (s_thread s) in
      let a := set_async a q in
      if negb (ret =? 0) then
        d ← log_dispatcher_destroy_for (ap_disp a); Some (set_disp a d, CLOG_ERR_THREAD_CREATE)
      else Some (mark_initialized s a, CLOG_OK)
    else Some (mark_initialized s a, CLOG_OK).

(** Signal handlers and metrics server, as configured; what they return is ignored. *)
Definition start_services (s : sys) (a : app) : app :=
  let v := ap_sv a in
  let '(pipe_ok, term_ok, int_ok) := s_handlers s in
  let sig := if catch_signals (cfg_of a)
             then (log_install_signal_handlers pipe_ok term_ok int_ok (sv_signals v)).1 else sv_signals v in
  let prom := if prometheus_enable (cfg_of a)
              then (clog_prometheus_exporter_start (s_server s) (prometheus_port (cfg_of a)) (sv_prom v)).1
              else sv_prom v in
  set_sv a (Services sig prom (sv_plugins v) (sv_levels v)).

Definition log_init (s : sys) (a : app) (yaml_path : option cstr) : option (app * Z) :=
  if lg_initialized (ap_log a) then Some (a, CLOG_ERR_INIT_REENTRANT)
  else
    x ← logger_init_internal s a yaml_path;
    let '(a, ret) := (x : app * Z) in
    if negb (ret =? CLOG_OK) then Some (a, ret)
    else Some (start_services s a, CLOG_OK).

Definition log_destroy (a : app) : option app :=
  if lg_initialized (ap_log a) then
    let a := set_sv (App ((ap_log a){{ lg_initialized := false }}) (ap_disp a) (ap_async a) (ap_sv a))
               (Services (log_restore_signal_handlers (sv_signals (ap_sv a)))
                  (clog_prometheus_exporter_stop (sv_prom (ap_sv a))) (sv_plugins (ap_sv a)) (sv_levels (ap_sv a))) in
    let a := set_async a (log_async_shutdown_for (ap_async a)) in
    d ← log_dispatcher_destroy_for (ap_disp a);
    let a := App ((ap_log a){{ lg_rl := log_rate_limit_reset_for (lg_rl (ap_log a)) }}) d (ap_async a) (ap_sv a) in
    Some (set_plugins a (log_plugin_shutdown_all (sv_plugins (ap_sv a))))
  else Some a.

(** [log_reload]. *)
Definition log_reload (s : sys) (a : app) : option (app * Z) :=
  if negb (lg_initialized (ap_log a)) then Some (a, CLOG_ERR_RELOAD)
  else
    x ← log_config_load_into (lg_config (ap_log a)) (Some (config_path (lg_config (ap_log a)))) true (s_file s);
    let '(o, ret) := (x : config_owner * Z) in
    let a := set_config a o in
    if negb (ret =? 0) then Some (a, CLOG_ERR_CONFIG_OPEN)
    else
      let a := init_rate s a in
      let '(a, f) := load_plugins s a in
      y ← log_dispatcher_build_snapshot_for f (cfg_of a) (s_array s) (ap_disp a) [];
      let '(d, snap, ret) := (y : dispatcher S * list sink_ptr * Z) in
      let a := set_disp a d in
      if negb (ret =? 0) then Some (a, CLOG_ERR_NO_SINKS)
      else
        let a := set_async a (log_async_shutdown_for (ap_async a)) in
        z ← log_dispatcher_commit_snapshot_for (ap_disp a) snap;
        z' ← log_dispatcher_destroy_snapshot_for (fst (z : dispatcher S * list sink_ptr)) (snd z);
        let a := set_disp a (fst (z' : dispatcher S * list sink_ptr)) in
        if async (cfg_of a) then
          let '(q, ret) := log_async_init_for (ap_async a) (queue_size (cfg_of a)) (s_queue s) (s_sems s) (s_thread s) in
          Some (set_async a q, if negb (ret =? 0) then CLOG_ERR_THREAD_CREATE else CLOG_OK)
        else Some (a, CLOG_OK).

(** ** Sinks of a running logger *)

Definition log_add_sink (a : app) (sink : sink_ptr) (realloc : bool) : app * Z :=
  match sink with
  | None => (a, CLOG_ERR_INVALID_ARG)
  | Some _ =>
      if negb (lg_initialized (ap_log a)) then (a, CLOG_ERR_RELOAD)
      else let '(d, ret) := log_dispatcher_add_sink_for (ap_disp a) sink realloc in
           (set_disp a d, if ret =? 0 then CLOG_OK else CLOG_ERR_OOM)
  end.

Definition log_remove_sink (a : app) (sink : sink_ptr) : app * Z :=
  match sink with
  | None => (a, CLOG_ERR_INVALID_ARG)
  | Some _ =>
      let '(d, ret) := log_dispatcher_remove_sink_for (ap_disp a) sink in
      (set_disp a d, if negb (ret =? 0) then CLOG_ERR_INVALID_ARG else CLOG_OK)
  end.

Definition logger_set_level (a : app) (lvl : log_level_t) : app :=
  set_config a (log_set_level lvl (lg_config (ap_log a))).
Definition logger_get_level (a : app) : log_level_t := level (cfg_of a).

(** ** Instances *)

(** A zeroed [logger_t]. *)
Definition zero_app (cfg0 : log_config_t) (v : services) : app :=
  App (LoggerT false (ConfigOwner cfg0 [] [] []) (RlState false d0 d0 d0 0 0 0) [] 0 0 0 false 0)
      (Dispatcher ∅ 0 []) (AsyncT None false) v.

(** The new logger, and the services afterwards. *)
Definition logger_create (s : sys) (calloc : bool) (v : services) (yaml_path : option cstr) : option (option app * services) :=
  if negb calloc then Some (None, v)
  else
    x ← logger_init_internal s (zero_app config_zero v) yaml_path;
    let '(a, ret) := (x : app * Z) in
    Some (if negb (ret =? CLOG_OK) then None else Some a, ap_sv a).

(** The configuration of [logger_create_from_config] and [logger_config_set]:
    a copy whose formats are in the logger's own buffers. *)
Definition own_config (c : log_config_t) (o : config_owner) : config_owner :=
  let fmt := match format c with Some f => snprintf_s CLOG_MAX_FORMAT_SIZE f | None => format_str o end in
  let tf := match time_format c with Some f => snprintf_s 64 f | None => time_format_str o end in
  ConfigOwner c{{ format := match format c with Some _ => Some fmt | None => None end;
                  time_format := match time_format c with Some _ => Some tf | None => None end }}
              (config_path o) fmt tf.

Definition logger_config_set (a : app) (c : option log_config_t) : app * Z :=
  match c with None => (a, -1) | Some c => (set_config a (own_config c (lg_config (ap_log a))), 0) end.

Definition logger_create_from_config (s : sys) (calloc : bool) (v : services) (c : option log_config_t)
    : option (option app * services) :=
  match c with
  | None => Some (None, v)
  | Some c =>
      if negb calloc then Some (None, v)
      else
        let o := own_config c (ConfigOwner config_zero [] [] []) in
        let f := FmtText.log_formatter_init_for (format c) (time_format c) in
        let a := set_config (zero_app config_zero v)
                   (ConfigOwner (config o){{ format := (λ _, FmtText.format_str f) <$> format c;
                                             time_format := (λ _, FmtText.time_format_str f) <$> time_format c }}
                      (config_path o) (FmtText.format_str f) (FmtText.time_format_str f)) in
        let a := init_rate s a in
        let '(a, f) := load_plugins s a in
        y ← log_dispatcher_init_for f (cfg_of a) (s_array s) (ap_disp a);
        let '(d, ret) := (y : dispatcher S * Z) in
        let a := set_disp a d in
        if negb (ret =? 0) then Some (None, ap_sv a)
        else if async c then
          let '(q, ret) := log_async_init_for (ap_async a) (queue_size c) (s_queue s) (s_sems s) (s_thread s) in
          if negb (ret =? 0) then _ ← log_dispatcher_destroy_for (ap_disp a); Some (None, ap_sv a)
          else Some (Some (mark_initialized s (set_async a q)), ap_sv a)
        else Some (Some (mark_initialized s a), ap_sv a)
  end.

(** What is left of the logger, [free] apart. *)
Definition logger_destroy (a : app) : option app :=
  let a := set_async a (log_async_shutdown_for (ap_async a)) in
  d ← log_dispatcher_destroy_for (ap_disp a);
  Some (App ((ap_log a){{ lg_rl := log_rate_limit_reset_for (lg_rl (ap_log a)) }}) d (ap_async a) (ap_sv a)).

End lifecycle.

Arguments services : clear implicits.
Arguments app : clear implicits.
Arguments sys : clear implicits.

(** ** Invariant *)

Section invariant.
Context {S : Type} `{!Sink S}.
Implicit Types (a : app S) (s : sys S) (d : dispatcher S).

(** The registered sinks are alive and distinct; [T] are the sinks that live
    outside the dispatcher. *)
Definition disp_ok d (T : list nat) : Prop := winv (World d [] T []).

Definition services_ok (v : services S) : Prop :=
  prom_inv (sv_prom v) ∧ plugins_ok (sv_plugins v) ∧ counted (sv_plugins v).

(** Registered sinks and those the application holds ([U]) are alive and distinct; a
    worker has a queue; a logger that is down has no sinks and no worker. *)
Definition app_ok (U : list nat) a : Prop :=
  (∃ L, disp_ok (ap_disp a) (U ++ L)) ∧ (l_running (ap_async a) = true → l_queue (ap_async a) ≠ None) ∧
  services_ok (ap_sv a) ∧
  (lg_initialized (ap_log a) = false →
   d_sinks (ap_disp a) = [] ∧ log_async_is_running_for (ap_async a) = false ∧ l_running (ap_async a) = false).

(** [log_dispatcher_init_for], from the accounts of Dispatcher.v. *)
Lemma init_for_ok f cfg alloc d T :
  disp_ok d T →
  ∃ d' ret, log_dispatcher_init_for f cfg alloc d = Some (d', ret) ∧ disp_ok d' (T ++ init_leak f cfg d) ∧
    (ret = 0 → d_sinks d' ≠ []) ∧ (ret ≠ 0 → ret = -1 ∧ (d_sinks d = [] → d_sinks d' = [])).
Proof.
  intros H. destruct (winv_init _ f cfg alloc H) as (w' & E & H'). cbn [wexec w_disp] in E.
  destruct (log_dispatcher_init_for f cfg alloc d) as [[d' ret]|] eqn:EI; [|done].
  cbn in E. injection E as <-. exists d', ret. split; [done|]. split.
  { eapply owns_perm; [|exact H']. unfold all_sinks. cbn. by rewrite app_nil_r. }
  clear H H'. unfold log_dispatcher_init_for in EI.
  destruct (create_sinks_from_cfg _ _ _ _) as [[m n] l]. destruct (alloc_all _ _) as [[m' n'] made].
  destruct (l ++ take (8 - length l) made) as [|p k]; [by injection EI as <- <-|].
  apply bind_Some in EI as (d1 & E1 & EI).
  unfold log_dispatcher_destroy_for in E1. apply bind_Some in E1 as (m1 & _ & [= <-]).
  destruct alloc; [by injection EI as <- <-|]. apply bind_Some in EI as (m2 & _ & [= <- <-]). done.
Qed.

Lemma destroy_for_ok d T :
  disp_ok d T → ∃ d', log_dispatcher_destroy_for d = Some d' ∧ disp_ok d' T ∧ d_sinks d' = [] ∧
    ∀ p, p ∈ ptrs (d_sinks d) → d_store d' !! p = None.
Proof.
  intros H. destruct (winv_destroy _ H) as (w' & E & H'). cbn [wexec w_disp] in E.
  destruct (log_dispatcher_destroy_for d) as [d'|] eqn:ED; [|done]. cbn in E. injection E as <-.
  assert (Hs : d_sinks d' = []).
  { unfold log_dispatcher_destroy_for in ED. by apply bind_Some in ED as (m & _ & [= <-]). }
  exists d'. split; [done|]. split; [exact H'|]. split; [done|]. intros p Hp.
  destruct H as (Hnd & _). destruct H' as (_ & Hdom & _). apply eq_None_not_Some.
  intros Hl%Hdom. unfold all_sinks in *. cbn in *. rewrite Hs in Hl. cbn in Hl.
  apply NoDup_app in Hnd as (_ & Hnd & _). by apply (Hnd p Hp).
Qed.

Lemma async_init_running q n alloc sems thread q' ret :
  l_running q = false → log_async_init_for q n alloc sems thread = (q', ret) →
  log_async_is_running_for q' = (ret =? 0) ∧ l_running q' = (ret =? 0).
Proof.
  intros Hq. unfold log_async_init_for. rewrite Hq. destruct (n <=? 0).
  { intros [= <- <-]. unfold log_async_is_running_for. by rewrite Hq. }
  destruct (mpsc_queue_create n alloc sems); [|by intros [= <- <-]].
  destruct thread; by intros [= <- <-].
Qed.

Lemma shutdown_stops q : (l_running q = true → l_queue q ≠ None) → l_running (log_async_shutdown_for q) = false.
Proof.
  intros Hq. unfold log_async_shutdown_for, log_async_is_running_for. destruct (l_running q) eqn:E; cbn; [|done].
  destruct (l_queue q); [done|]. by destruct (Hq eq_refl).
Qed.

Lemma shutdown_ok q :
  (l_running q = true → l_queue q ≠ None) →
  l_running (log_async_shutdown_for q) = false ∧ log_async_is_running_for (log_async_shutdown_for q) = false.
Proof.
  intros Hq. pose proof (shutdown_stops q Hq) as E. split; [done|].
  unfold log_async_is_running_for at 1. by rewrite E.
Qed.

Lemma async_init_wf q n alloc sems thread q' ret :
  l_running q = false → log_async_init_for q n alloc sems thread = (q', ret) →
  l_running q' = true → l_queue q' ≠ None.
Proof.
  intros Hq. unfold log_async_init_for. rewrite Hq. destruct (n <=? 0); [intros [= <- <-] ?; congruence|].
  destruct (mpsc_queue_create n alloc sems); [|by intros [= <- <-]].
  destruct thread; by intros [= <- <-].
Qed.

Lemma disp_live d T p : disp_ok d T → p ∈ ptrs (d_sinks d) → is_Some (d_store d !! p).
Proof. intros (_ & H & _) Hp. apply H. unfold all_sinks. cbn. rewrite elem_of_app. by left. Qed.

Lemma set_config_ok U a o : app_ok U a → app_ok U (set_config a o).
Proof. intros (H1 & H2 & H3 & H4). destruct a as [[]]. by split_and!. Qed.

(** Creating the plugin sinks touches only the plugin table. *)
Lemma load_plugins_ok s a :
  services_ok (ap_sv a) →
  ∃ t f, load_plugins s a = (set_plugins a t, f) ∧ services_ok (ap_sv (set_plugins a t)).
Proof.
  intros (H1 & H2 & H3). unfold load_plugins.
  destruct (plugin_exec_ok (s_dlopen s) (sv_plugins (ap_sv a)) (PO_config (Some (cfg_of a)) CLOG_MAX_PLUGINS) H2 H3) as [H4 H5].
  cbn [plugin_exec] in *. destruct (log_plugin_create_sinks_from_config _ _ _ _) as [t ks].
  by exists t, (Factories (s_make s) (λ _, ks)).
Qed.

(** The logger part of the state, for which the services do not matter. *)
Lemma set_sv_ok U a v : app_ok U a → services_ok v → app_ok U (set_sv a v).
Proof. intros (H1 & H2 & H3 & H4) Hv. by split_and!. Qed.

(** The worker of an initialisation or reload, on a logger without one. *)
Lemma worker_ok U s a q ret :
  app_ok U a → l_running (ap_async a) = false →
  log_async_init_for (ap_async a) (queue_size (cfg_of a)) (s_queue s) (s_sems s) (s_thread s) = (q, ret) →
  (lg_initialized (ap_log a) = true ∨ ret ≠ 0 → app_ok U (set_async a q)) ∧
  (l_running q = true → l_queue q ≠ None) ∧ log_async_is_running_for q = (ret =? 0).
Proof.
  intros (H1 & H2 & H3 & H4) Hr E. pose proof (async_init_wf _ _ _ _ _ _ _ Hr E) as Hwf.
  destruct (async_init_running _ _ _ _ _ _ _ Hr E) as [Hq1 Hq2].
  split; [|done]. intros Hi. split_and!; try done. cbn. intros Hn. destruct (H4 Hn) as (Hs & _).
  destruct Hi as [Hi|Hi]; [congruence|]. apply Z.eqb_neq in Hi. by rewrite Hq1, Hq2, Hi.
Qed.

Lemma mark_ok U s a :
  (∃ L, disp_ok (ap_disp a) (U ++ L)) → (l_running (ap_async a) = true → l_queue (ap_async a) ≠ None) →
  services_ok (ap_sv a) → app_ok U (mark_initialized s a).
Proof. intros H1 H2 H3. destruct a as [[]]. by split_and!. Qed.

Lemma mark_fields s a :
  lg_initialized (ap_log (mark_initialized s a)) = true ∧ lg_module (ap_log (mark_initialized s a)) = B "main" ∧
  ap_disp (mark_initialized s a) = ap_disp a ∧ ap_async (mark_initialized s a) = ap_async a ∧
  cfg_of (mark_initialized s a) = cfg_of a ∧ ap_sv (mark_initialized s a) = ap_sv a.
Proof. by destruct a as [[]]. Qed.

(** [logger_init_internal] from an uninitialised logger. *)
Lemma logger_init_internal_ok U s a path :
  app_ok U a → lg_initialized (ap_log a) = false →
  log_config_load_into (lg_config (ap_log a)) path false (s_file s) ≠ None →
  ∃ a' ret, logger_init_internal s a path = Some (a', ret) ∧ app_ok U a' ∧
    lg_initialized (ap_log a') = (ret =? 0) ∧
    (ret = 0 → log_async_is_running_for (ap_async a') = async (cfg_of a') ∧ lg_module (ap_log a') = B "main" ∧
               d_sinks (ap_disp a') ≠ []) ∧
    (ret ≠ 0 → ret ∈ [CLOG_ERR_CONFIG_OPEN; CLOG_ERR_NO_SINKS; CLOG_ERR_THREAD_CREATE]) ∧
    sv_signals (ap_sv a') = sv_signals (ap_sv a) ∧ sv_prom (ap_sv a') = sv_prom (ap_sv a).
Proof.
  intros Ha Hi Hload. unfold logger_init_internal. destruct (log_config_load_into _ _ _ _) as [[o ret]|]; [|done].
  cbn [mbind option_bind]. destruct (Z.eqb_spec ret 0) as [->|Hne]; cbn [negb].
  2:{ eexists _, _. split; [reflexivity|]. split; [by apply set_config_ok|].
      split; [by destruct a as [[]]|]. split; [done|]. split; [by left|by destruct a as [[]]]. }
  assert (∃ a1, init_rate s (set_config a o) = a1 ∧ app_ok U a1 ∧ lg_initialized (ap_log a1) = false ∧ ap_sv a1 = ap_sv a)
    as (a1 & -> & Ha1 & Hi1 & Hv1).
  { eexists. split; [reflexivity|]. destruct Ha as (H1 & H2 & H3 & H4). destruct a as [[]]. cbn in *. by split_and!. }
  rewrite <- Hv1. clear a o Ha Hi Hload Hv1. destruct Ha1 as ([L Hd] & Hwf & Hsv & HA).
  destruct (load_plugins_ok s a1 Hsv) as (t & f & -> & Hsv'). set (a2 := set_plugins a1 t) in *.
  assert (ap_disp a2 = ap_disp a1 ∧ ap_async a2 = ap_async a1 ∧ ap_log a2 = ap_log a1 ∧
    sv_signals (ap_sv a2) = sv_signals (ap_sv a1) ∧ sv_prom (ap_sv a2) = sv_prom (ap_sv a1)) as (E1 & E2 & E3 & E4 & E5) by done.
  rewrite <- E1 in Hd. rewrite <- E2 in Hwf. rewrite <- E1, <- E2, <- E3 in HA. rewrite <- E3 in Hi1. rewrite <- E4, <- E5.
  clearbody a2. clear a1 Hsv E1 E2 E3 E4 E5. destruct (HA Hi1) as (Hs & Hrun & Hr0).
  destruct (init_for_ok f (cfg_of a2) (s_array s) (ap_disp a2) (U ++ L) Hd) as (d' & ret & E & Hd' & H0 & H1).
  rewrite <- app_assoc in Hd'. rewrite E. cbn [mbind option_bind].
  destruct (Z.eqb_spec ret 0) as [->|Hne]; cbn [negb].
  2:{ destruct (H1 Hne) as [_ Hs']. eexists _, _. split; [reflexivity|]. split.
      { split; [by eexists|]. split; [done|]. split; [done|]. cbn. intros _. split; [by apply Hs'|done]. }
      split; [exact Hi1|]. split; [done|]. split; [by right; left|done]. }
  destruct (async (cfg_of (set_disp a2 d'))) eqn:Ea.
  2:{ eexists _, _. split; [reflexivity|]. destruct (mark_fields s (set_disp a2 d')) as (M1 & M2 & M3 & M4 & M5 & M6).
      split; [by apply mark_ok; [by eexists| |]|]. split; [done|]. rewrite M2, M3, M4, M5, M6, Ea. split_and!; auto. done. }
  destruct (log_async_init_for _ _ _ _ _) as [q ret] eqn:Eq.
  pose proof (async_init_wf _ _ _ _ _ _ _ Hr0 Eq) as Hwf'. destruct (async_init_running _ _ _ _ _ _ _ Hr0 Eq) as [Hq1 Hq2].
  destruct (Z.eqb_spec ret 0) as [->|Hne']; cbn [negb].
  - eexists _, _. split; [reflexivity|].
    destruct (mark_fields s (set_async (set_disp a2 d') q)) as (M1 & M2 & M3 & M4 & M5 & M6).
    split; [by apply mark_ok; [by eexists| |]|]. split; [done|]. rewrite M2, M3, M4, M5, M6.
    split_and!; [|done|done|done]. intros _. split_and!; [exact (eq_trans Hq1 (eq_sym Ea))|done|by apply H0].
  - cbn [set_async ap_disp set_disp]. destruct (destroy_for_ok d' _ Hd') as (d2 & -> & Hd2 & Hs2 & _).
    cbn [mbind option_bind]. eexists _, _. split; [reflexivity|]. split.
    { split; [by eexists|]. split; [done|]. split; [done|]. intros _. cbn. by rewrite Hq1, Hq2. }
    split; [exact Hi1|]. split; [done|]. split; [by right; right; left|done].
Qed.

Lemma start_services_ok U s a : app_ok U a → app_ok U (start_services s a).
Proof.
  intros Ha. pose proof Ha as (_ & _ & (H1 & H2 & H3) & _). unfold start_services. destruct (s_handlers s) as [[p t] i].
  apply set_sv_ok; [done|]. split_and!; cbn; try done. destruct (prometheus_enable _); [by apply prom_start_inv|done].
Qed.

Lemma log_init_ok U s a path :
  app_ok U a → lg_initialized (ap_log a) = false →
  log_config_load_into (lg_config (ap_log a)) path false (s_file s) ≠ None →
  ∃ a' ret, log_init s a path = Some (a', ret) ∧ app_ok U a' ∧ lg_initialized (ap_log a') = (ret =? 0) ∧
    (ret = 0 → log_async_is_running_for (ap_async a') = async (cfg_of a') ∧ lg_module (ap_log a') = B "main" ∧
               d_sinks (ap_disp a') ≠ [] ∧
               ∃ a1, sv_signals (ap_sv a1) = sv_signals (ap_sv a) ∧ sv_prom (ap_sv a1) = sv_prom (ap_sv a) ∧
                     a' = start_services s a1 ∧ cfg_of a1 = cfg_of a') ∧
    (ret ≠ 0 → ret ∈ [CLOG_ERR_CONFIG_OPEN; CLOG_ERR_NO_SINKS; CLOG_ERR_THREAD_CREATE] ∧
               sv_signals (ap_sv a') = sv_signals (ap_sv a) ∧ sv_prom (ap_sv a') = sv_prom (ap_sv a)).
Proof.
  intros Ha Hi Hload. unfold log_init. rewrite Hi.
  destruct (logger_init_internal_ok U s a path Ha Hi Hload) as (a' & ret & E & Ha' & H1 & H2 & H3 & H4 & H5).
  rewrite E. cbn [mbind option_bind]. unfold CLOG_OK in *.
  destruct (Z.eqb_spec ret 0) as [->|Hne]; cbn [negb]; eexists _, _; (split; [reflexivity|]).
  - split; [by apply start_services_ok|].
    assert (∀ b, ap_log (start_services s b) = ap_log b ∧ ap_disp (start_services s b) = ap_disp b ∧
      ap_async (start_services s b) = ap_async b) as Hf.
    { intros b. unfold start_services. by destruct (s_handlers s) as [[??]?]. }
    destruct (Hf a') as (F1 & F2 & F3). unfold cfg_of in *. rewrite F1, F2, F3. split; [exact H1|].
    split; [|done]. intros _. destruct (H2 eq_refl) as (? & ? & ?). split_and!; try done. by exists a'.
  - split; [done|]. split; [by rewrite H1; apply Z.eqb_neq in Hne|]. split; [done|]. auto.
Qed.

Lemma log_destroy_ok U a :
  app_ok U a → lg_initialized (ap_log a) = true →
  ∃ a', log_destroy a = Some a' ∧ app_ok U a' ∧ lg_initialized (ap_log a') = false ∧
    d_sinks (ap_disp a') = [] ∧ log_async_is_running_for (ap_async a') = false ∧
    (∀ p, p ∈ ptrs (d_sinks (ap_disp a)) → d_store (ap_disp a') !! p = None) ∧
    sv_signals (ap_sv a') = log_restore_signal_handlers (sv_signals (ap_sv a)) ∧
    ps_running (sv_prom (ap_sv a')) = false ∧ p_open (sv_plugins (ap_sv a')) = ∅.
Proof.
  intros ([L Hd] & Hwf & (HS1 & HS2 & HS3) & HA) Hi. unfold log_destroy. rewrite Hi.
  cbn [set_sv set_async ap_disp ap_async ap_log].
  destruct (destroy_for_ok (ap_disp a) _ Hd) as (d' & -> & Hd' & Hs' & Hdead). cbn [mbind option_bind].
  destruct (shutdown_ok _ Hwf) as [Hr1 Hr2]. destruct (prom_stop_inv _ HS1) as [HP1 HP2].
  destruct (shutdown_all_ok _ HS2) as (HQ1 & HQ2 & HQ3).
  eexists. split; [reflexivity|]. split.
  - split; [by exists L|]. split; [cbn; by rewrite Hr1|]. split; [by split_and!|]. by destruct a as [[]].
  - destruct a as [[]]; cbn in *. by split_and!.
Qed.

(** A reload that gets past the configuration. *)
Lemma reload_pipeline_ok U s a1 :
  app_ok U a1 → lg_initialized (ap_log a1) = true →
  let '(a, f) := load_plugins s a1 in
  ∃ d1 snap ret, log_dispatcher_build_snapshot_for f (cfg_of a) (s_array s) (ap_disp a) [] = Some (d1, snap, ret) ∧
    (ret ≠ 0 → app_ok U (set_disp a d1) ∧ d_sinks d1 = d_sinks (ap_disp a1) ∧
       ∀ p, p ∈ ptrs (d_sinks (ap_disp a1)) → is_Some (d_store d1 !! p)) ∧
    (ret = 0 → ∃ d2, log_dispatcher_commit_snapshot_for d1 snap = Some (d2, []) ∧
       app_ok U (set_disp (set_async (set_disp a d1) (log_async_shutdown_for (ap_async a1))) (with_store d2 (d_store d2))) ∧
       l_running (log_async_shutdown_for (ap_async a1)) = false ∧ snap ≠ [] ∧ d_sinks d2 = snap ∧
       (∀ p, p ∈ ptrs (d_sinks (ap_disp a1)) → d_store d2 !! p = None)).
Proof.
  intros ([L Hd] & Hwf & Hsv & HA) Hi. destruct (load_plugins_ok s a1 Hsv) as (t & f & -> & Hsv').
  destruct (reload_snapshot (World (ap_disp a1) [] (U ++ L) []) f (cfg_of (set_plugins a1 t)) (s_array s) Hd eq_refl)
    as (d1 & snap & ret & E & Hd1 & Hlive & Hret & Hret0 & Hw1 & d2 & E2 & Hs2 & Hw2 & Hlive2 & Hdead).
  cbn [w_disp w_user w_leaked] in *. destruct (shutdown_ok _ Hwf) as [Hr1 Hr2].
  exists d1, snap, ret. split; [exact E|]. split.
  - intros Hne. rewrite (Hret Hne) in *. split; [|done]. split; [by exists L|]. split; [done|]. split; [done|].
    cbn. by rewrite Hi.
  - intros Hz. exists d2. split; [done|]. split; [|by split_and!; [|apply Hret0| |]].
    split; [by exists L|]. split; [cbn; by rewrite Hr1|]. split; [done|]. cbn. by rewrite Hi.
Qed.

Lemma log_reload_ok U s a :
  app_ok U a → lg_initialized (ap_log a) = true →
  log_config_load_into (lg_config (ap_log a)) (Some (config_path (lg_config (ap_log a)))) true (s_file s) ≠ None →
  ∃ a' ret, log_reload s a = Some (a', ret) ∧ app_ok U a' ∧ lg_initialized (ap_log a') = true ∧
    (ret = CLOG_ERR_CONFIG_OPEN ∨ ret = CLOG_ERR_NO_SINKS →
       d_sinks (ap_disp a') = d_sinks (ap_disp a) ∧ ap_async a' = ap_async a ∧
       ∀ p, p ∈ ptrs (d_sinks (ap_disp a)) → is_Some (d_store (ap_disp a') !! p)) ∧
    (ret = CLOG_OK ∨ ret = CLOG_ERR_THREAD_CREATE →
       d_sinks (ap_disp a') ≠ [] ∧ (∀ p, p ∈ ptrs (d_sinks (ap_disp a)) → d_store (ap_disp a') !! p = None) ∧
       log_async_is_running_for (ap_async a') = (async (cfg_of a') && (ret =? CLOG_OK))) ∧
    ret ∈ [CLOG_OK; CLOG_ERR_CONFIG_OPEN; CLOG_ERR_NO_SINKS; CLOG_ERR_THREAD_CREATE].
Proof.
  intros Ha Hi Hload. unfold log_reload. rewrite Hi. cbn [negb].
  destruct (log_config_load_into _ _ _ _) as [[o ret]|]; [|done]. clear Hload. cbn [mbind option_bind].
  destruct (Z.eqb_spec ret 0) as [->|Hne]; cbn [negb].
  2:{ eexists _, _. split; [reflexivity|]. split; [by apply set_config_ok|]. split; [by destruct a as [[]]|].
      split; [|split; [by intros [|]|by right; left]]. intros _. split_and!; try done.
      destruct Ha as ([L Hd] & _). intros p. by apply disp_live with (U ++ L). }
  assert (∃ a1, init_rate s (set_config a o) = a1 ∧ app_ok U a1 ∧ lg_initialized (ap_log a1) = true ∧
    ap_disp a1 = ap_disp a ∧ ap_async a1 = ap_async a) as (a1 & -> & Ha1 & Hi1 & <- & <-).
  { eexists. split; [reflexivity|]. destruct Ha as (H1 & H2 & H3 & H4). destruct a as [[]]. cbn in *. by split_and!. }
  clear a o Ha Hi. pose proof (reload_pipeline_ok U s a1 Ha1 Hi1) as HP.
  destruct Ha1 as (_ & _ & Hsv & _). destruct (load_plugins_ok s a1 Hsv) as (t & f & E & _). rewrite E in *.
  destruct HP as (d1 & snap & ret & -> & HP1 & HP2). cbn [mbind option_bind].
  destruct (Z.eqb_spec ret 0) as [->|Hne]; cbn [negb].
  2:{ destruct (HP1 Hne) as (P1 & P2 & P3). eexists _, _. split; [reflexivity|]. split; [done|]. split; [exact Hi1|].
      split; [by intros _|split; [by intros [|]|by right; right; left]]. }
  destruct (HP2 eq_refl) as (d2 & E2 & Hok & Hr1 & Hne & Hs2 & Hdead). cbn [set_async set_disp ap_disp]. rewrite E2. cbn [mbind option_bind fst snd].
  change (log_dispatcher_destroy_snapshot_for d2 []) with (Some (with_store d2 (d_store d2), @nil sink_ptr)).
  cbn [mbind option_bind fst snd].
  set (b := set_disp (set_async (set_disp (set_plugins a1 t) d1) (log_async_shutdown_for (ap_async a1))) (with_store d2 (d_store d2))) in *.
  change (set_disp (set_async (set_disp (set_plugins a1 t) d1) (log_async_shutdown_for (ap_async (set_disp (set_plugins a1 t) d1))))
            (with_store d2 (d_store d2))) with b.
  assert (lg_initialized (ap_log b) = true) as Hib by exact Hi1.
  assert (d_sinks (ap_disp b) ≠ []) as Hsb by (cbn; by rewrite Hs2).
  change (l_running (ap_async b) = false) in Hr1.
  assert (∀ p, p ∈ ptrs (d_sinks (ap_disp a1)) → d_store (ap_disp b) !! p = None) as Hdb by exact Hdead.
  clearbody b. clear Hdead E2 Hs2 Hne HP1 HP2 E Hsv.
  destruct (async (cfg_of b)) eqn:Ea.
  - destruct (log_async_init_for _ _ _ _ _) as [q ret] eqn:Eq. destruct (worker_ok U s b q ret Hok Hr1 Eq) as (W1 & W2 & W3).
    eexists _, _. split; [reflexivity|]. split; [auto|]. split; [done|].
    split; [destruct (Z.eqb_spec ret 0); by intros [|]|].
    split; [|destruct (Z.eqb_spec ret 0); [by left|by right; right; right; left]].
    intros _. split; [done|]. split; [done|]. cbn [set_async ap_async]. rewrite W3. change (cfg_of (set_async b q)) with (cfg_of b).
    rewrite Ea. by destruct (ret =? 0).
  - eexists _, _. split; [reflexivity|]. split; [done|]. split; [done|]. split; [by intros [|]|]. split; [|by left].
    intros _. rewrite Ea. split_and!; try done. unfold log_async_is_running_for. by rewrite Hr1.
Qed.
End invariant.

(** ** Properties *)


(** C24: [log_destroy] takes the logger down completely: every registered sink is
    destroyed exactly once, the worker is stopped, the signal handlers are given
    back, the metrics server is down, no plugin library stays open, and
    the logger can be initialised again; on a logger that is down it changes
    nothing. *)
Theorem log_destroy_correct {S} `{!Sink S} (a : app S) U :
  app_ok U a →
  ∃ a', log_destroy a = Some a' ∧ app_ok U a' ∧ lg_initialized (ap_log a') = false ∧
    d_sinks (ap_disp a') = [] ∧ log_async_is_running_for (ap_async a') = false ∧
    (∀ p, p ∈ ptrs (d_sinks (ap_disp a)) → d_store (ap_disp a') !! p = None) ∧
    (lg_initialized (ap_log a) = true →
       sg_installed (sv_signals (ap_sv a')) = false ∧
       clog_prometheus_exporter_is_running (sv_prom (ap_sv a')) = false ∧ ps_open (sv_prom (ap_sv a')) = [] ∧
       p_open (sv_plugins (ap_sv a')) = ∅) ∧
    (lg_initialized (ap_log a) = false → a' = a).
Proof.
  intros Ha. destruct (lg_initialized (ap_log a)) eqn:Hi.
  - destruct (log_destroy_ok U a Ha Hi) as (a' & E & Ha' & H1 & H2 & H3 & H4 & H5 & H6 & H7).
    exists a'. split_and!; try done. intros _. rewrite H5. split_and!; try done.
    + unfold log_restore_signal_handlers. by destruct (sg_installed (sv_signals (ap_sv a))) eqn:Es.
    + destruct Ha' as (_ & _ & (HP & _) & _). unfold prom_inv in HP. rewrite H6 in HP. by destruct HP as (_ & HP & _).
  - exists a. unfold log_destroy. rewrite Hi. pose proof Ha as (_ & _ & _ & HA). destruct (HA Hi) as (Hs & Hr & _).
    split_and!; try done. rewrite Hs. intros p Hp. by apply not_elem_of_nil in Hp.
Qed.


(** A session leaves no trace in the process. From a logger that is down and with no
    handlers installed, a successful [log_init] followed by [log_destroy] gives back
    every signal disposition, and leaves no sink of the logger, no worker, no server
    socket and no plugin library behind. *)
Theorem log_session_restores {S} `{!Sink S} (s : sys S) (a a1 : app S) U path :
  app_ok U a → lg_initialized (ap_log a) = false → sg_installed (sv_signals (ap_sv a)) = false →
  log_config_load_into (lg_config (ap_log a)) path false (s_file s) ≠ None →
  log_init s a path = Some (a1, CLOG_OK) →
  ∃ a2, log_destroy a1 = Some a2 ∧ app_ok U a2 ∧
    (∀ x, sg_disp (sv_signals (ap_sv a2)) x = sg_disp (sv_signals (ap_sv a)) x) ∧
    sg_installed (sv_signals (ap_sv a2)) = false ∧
    (∀ p, p ∈ ptrs (d_sinks (ap_disp a1)) → d_store (ap_disp a2) !! p = None) ∧
    log_async_is_running_for (ap_async a2) = false ∧ ps_open (sv_prom (ap_sv a2)) = [] ∧
    p_open (sv_plugins (ap_sv a2)) = ∅.
Proof.
  intros Ha Hi Hs Hload E. destruct (log_init_ok U s a path Ha Hi Hload) as (a' & ret & E' & Ha' & H1 & H2 & _).
  rewrite E in E'. injection E' as <- <-. destruct (H2 eq_refl) as (_ & _ & _ & a0 & V1 & _ & V3 & _).
  destruct (log_destroy_ok U a1 Ha' H1) as (a2 & E2 & Ha2 & D1 & D2 & D3 & D4 & D5 & D6 & D7).
  exists a2. split; [done|]. split; [done|].
  assert ((∀ x, sg_disp (sv_signals (ap_sv a2)) x = sg_disp (sv_signals (ap_sv a)) x) ∧
    sg_installed (sv_signals (ap_sv a2)) = false) as [HD HI].
  { rewrite D5, V3, <- V1. rewrite <- V1 in Hs. unfold start_services. destruct (s_handlers s) as [[pp tt] ii]. cbn [set_sv ap_sv sv_signals].
    destruct (catch_signals _).
    - destruct (signal_install_restore pp tt ii _ Hs) as (R1 & _ & R3 & _). done.
    - unfold log_restore_signal_handlers. by rewrite Hs. }
  split_and!; try done. destruct Ha2 as (_ & _ & (HP & _) & _). unfold prom_inv in HP. rewrite D6 in HP. by destruct HP as (_ & HP & _).
Qed.

(** ** Witnesses *)

(** A system where everything works and the configuration file asks for a worker, the
    signal handlers and the metrics server. *)
Definition test_sys : sys (list cstr) :=
  Sys (λ _, Some (log_document [(B "async", B "true"); (B "queue_size", B "100"); (B "catch_signals", B "true");
                                (B "prometheus_enable", B "true"); (B "prometheus_port", B "9090")]))
      (make test_factories) (λ _, None) true true true true (true, true, true) Start_ok 0 42.
Definition test_services : services (list cstr) := Services (signals_init (λ _, SIG_DFL)) prom_init plugins_init (replicate 6 0).
Definition test_app : app (list cstr) := zero_app config_zero test_services.

Lemma test_services_ok : services_ok test_services.
Proof.
  split; [done|]. destruct (plugin_run_ok (K := log_sink_t (list cstr)) (λ _, None) []) as [H1 H2]. split; [exact H1|exact H2].
Qed.

Lemma test_app_ok : app_ok [] test_app.
Proof.
  split; [|split; [done|split; [exact test_services_ok|done]]]. exists []. split; [constructor|]. split.
  - intros p. cbn. rewrite lookup_empty. split; [by intros [? ?]|]. intros Hp. by apply not_elem_of_nil in Hp.
  - intros p Hp. by apply not_elem_of_nil in Hp.
Qed.


(** A running logger with one sink. *)
Definition test_up : app (list cstr) :=
  App ((ap_log test_app){{ lg_initialized := true; lg_config := ConfigOwner config_zero (B "a.yaml") [] [] }})
      (Dispatcher {[0%nat := LogSink 0 false false []]} 1 [Some 0%nat]) (AsyncT None false) test_services.

Lemma test_up_ok : app_ok [] test_up.
Proof.
  split; [|split; [done|split; [exact test_services_ok|done]]]. exists []. split; [apply NoDup_singleton|]. cbn. split.
  - intros p. rewrite list_elem_of_singleton. destruct (decide (p = 0%nat)) as [->|Hp].
    + split; [done|]. intros _. by eexists.
    + split; [|done]. rewrite lookup_singleton_ne by done. by intros [? ?].
  - intros p ->%list_elem_of_singleton. lia.
Qed.

Lemma log_destroy_correct_witness :
  ∃ a', log_destroy test_up = Some a' ∧ lg_initialized (ap_log a') = false ∧ d_store (ap_disp a') !! 0%nat = None.
Proof.
  destruct (log_destroy_correct test_up [] test_up_ok) as (a' & E & _ & H & _ & _ & Hd & _).
  exists a'. split; [done|]. split; [done|]. apply Hd. by left.
Defined.


Lemma log_session_restores_witness :
  ∃ a1 a2, log_init test_sys test_app (Some (B "a.yaml")) = Some (a1, CLOG_OK) ∧ log_destroy a1 = Some a2 ∧
    sg_disp (sv_signals (ap_sv a2)) SIGTERM = SIG_DFL.
Proof.
  destruct (log_init test_sys test_app (Some (B "a.yaml"))) as [[a1 ret]|] eqn:E.
  2:{ apply (f_equal (λ x, bool_decide (is_Some x))) in E. vm_compute in E. discriminate E. }
  assert (ret = CLOG_OK) as ->.
  { apply (f_equal (λ x, snd <$> x)) in E. vm_compute in E. injection E as <-. reflexivity. }
  destruct (log_session_restores test_sys test_app a1 [] (Some (B "a.yaml")) test_app_ok eq_refl eq_refl)
    as (a2 & E2 & _ & H & _); [vm_compute; discriminate|exact E|].
  exists a1, a2. split; [done|]. split; [done|]. apply H.
Defined.
