(* ===== verification/Session.v ===== *)
(** * A logger over its life (core/log.c): instances, fork, any sequence of calls

    The calls on a logger that is up (log calls, sinks, level, module, flush), the fork
    handlers with the mutexes they carry over, and every sequence of these with
    initialisation, reload, shutdown and signals. *)
From S2P Require Import Prelude Record Config FmtBuf FmtTime FmtJson FmtOtel FmtText RateLimit Context.
From S2P Require Import Async Dispatcher Logger Plugin Signal Prometheus Lifecycle.
From coqutil Require Import Datatypes.RecordSetters.
Import DoubleBraceUpdate.

Local Open Scope Z_scope.

Section session.
Context {S : Type} `{!Sink S} `{P : Platform}.

(** ** Instances: the same calls behind a null check *)

Definition logger_reload (s : sys S) (a : option (app S)) : option (option (app S) * Z) :=
  match a with
  | None => Some (None, CLOG_ERR_RELOAD)
  | Some a => x ← log_reload s a; Some (Some (fst (x : app S * Z)), snd x)
  end.

Definition logger_add_sink (a : option (app S)) (sink : sink_ptr) (realloc : bool) : option (app S) * Z :=
  match a, sink with
  | Some a, Some _ =>
      if negb (lg_initialized (ap_log a)) then (Some a, CLOG_ERR_RELOAD)
      else let '(d, ret) := log_dispatcher_add_sink_for (ap_disp a) sink realloc in
           (Some (Lifecycle.set_disp a d), if ret =? 0 then CLOG_OK else CLOG_ERR_OOM)
  | a, _ => (a, CLOG_ERR_INVALID_ARG)
  end.

Definition logger_remove_sink (a : option (app S)) (sink : sink_ptr) : option (app S) * Z :=
  match a, sink with
  | Some a, Some _ =>
      let '(d, ret) := log_dispatcher_remove_sink_for (ap_disp a) sink in
      (Some (Lifecycle.set_disp a d), if ret =? 0 then CLOG_OK else CLOG_ERR_INVALID_ARG)
  | a, _ => (a, CLOG_ERR_INVALID_ARG)
  end.

(** [logger_set_module], [logger_get_module]: with no writer in between, what the
    seqlock of Context.v stores and returns; [n] is the size of the caller's buffer. *)
Definition logger_set_module (a : app S) (name : option cstr) : app S :=
  App ((ap_log a){{ lg_module := module_name name }}) (ap_disp a) (ap_async a) (ap_sv a).
Definition logger_get_module (a : app S) (n : Z) : option cstr :=
  if n =? 0 then None else Some (snprintf_s n (lg_module (ap_log a))).

Definition log_set_async_fallback_cb (a : app S) (cb : bool) : app S :=
  App ((ap_log a){{ lg_has_cb := cb }}) (ap_disp a) (ap_async a) (ap_sv a).
Definition log_get_async_fallback_cb (a : app S) : bool := lg_has_cb (ap_log a).

(** [logger_flush], [log_flush]: with a worker the sinks are flushed once it is through
    with its records, which is [log_async_flush_for] of AsyncWorker.v; without a queue that
    function returns at once. *)
Definition logger_flush (a : app S) : option (app S) :=
  if async (cfg_of a) && bool_decide (l_queue (ap_async a) = None) then Some a
  else d ← log_dispatcher_flush_for (ap_disp a); Some (Lifecycle.set_disp a d).

(** ** Log calls *)

(** [log_dispatcher_dispatch_for] on each record handed over, on the caller's thread.
    What it returns is ignored. *)
Fixpoint dispatch_all (tp : option cstr) (cfg : log_config_t) (fc : fmt_config) (th : fmt_thread) (d : dispatcher S)
    (rs : list log_record_t) : option (fmt_thread * dispatcher S) :=
  match rs with
  | [] => Some (th, d)
  | r :: rs' =>
      x ← log_dispatcher_dispatch_for tp cfg fc th d r;
      let '(th, _, d, _) := (x : fmt_thread * log_record_t * dispatcher S * Z) in
      dispatch_all tp cfg fc th d rs'
  end.

(** The format buffers of the logger. *)
Definition formats (a : app S) : fmt_config :=
  FmtConfig (Config.format_str (lg_config (ap_log a))) (Config.time_format_str (lg_config (ap_log a))).

Definition set_signals (a : app S) (s : signals) : app S :=
  set_sv a (Services s (sv_prom (ap_sv a)) (sv_plugins (ap_sv a)) (sv_levels (ap_sv a))).

(** The signal check of the default logger: flush, then raise.  Signals that come in
    between are Signal.v. *)
Definition check_signals (w : bool) (a : app S) : option (app S) :=
  if log_get_pending_signal (sv_signals (ap_sv a)) =? 0 then Some a
  else a ← logger_flush a; Some (set_signals a (log_process_pending_signals 0 w (sv_signals (ap_sv a)))).

(** The rest of a write call, of either kind, on any logger that is up: in asynchronous
    mode the records go to the queue, which is AsyncWorker.v.  [tp] is the TRACEPARENT
    variable. *)
Definition finish_call (tp : option cstr) (th : fmt_thread) (c : write_call) (a : app S) : option (fmt_thread * app S) :=
  y ← call_exec (ap_log a) c;
  let '(l, rs) := (y : logger_t * list log_record_t) in
  let a := App l (ap_disp a) (ap_async a)
             (Services (sv_signals (ap_sv a)) (sv_prom (ap_sv a)) (sv_plugins (ap_sv a))
                (call_levels (ap_log a) (sv_levels (ap_sv a)) c)) in
  if async (cfg_of a) then Some (th, a)
  else x ← dispatch_all tp (cfg_of a) (formats a) th (ap_disp a) rs;
       Some (fst (x : fmt_thread * dispatcher S), Lifecycle.set_disp a (snd x)).

(** A write call on the default logger; [w] is what [write] to the self-pipe answers. *)
Definition log_call (tp : option cstr) (w : bool) (th : fmt_thread) (c : write_call) (a : app S)
    : option (fmt_thread * app S) :=
  if negb (lg_initialized (ap_log a)) then Some (th, a) else
  a ← check_signals w a;
  finish_call tp th c a.

(** ** Fork *)

(** The mutexes of the library and the threads that hold them. *)
Inductive lock := L_init | L_module | L_dispatcher | L_redact | L_rate | L_plugin | L_prom | L_drain.

#[export] Instance lock_eq_dec : EqDecision lock.
Proof. solve_decision. Defined.
#[export] Instance lock_countable : Countable lock.
Proof.
  refine (inj_countable' (λ l, match l with L_init => 0 | L_module => 1 | L_dispatcher => 2 | L_redact => 3 | L_rate => 4
    | L_plugin => 5 | L_prom => 6 | L_drain => 7 end%nat)
    (λ n, match n with 0 => L_init | 1 => L_module | 2 => L_dispatcher | 3 => L_redact | 4 => L_rate
    | 5 => L_plugin | 6 => L_prom | _ => L_drain end%nat) _). by intros [].
Defined.

(** [None]: the caller waits. *)
Definition acquire (t : nat) (l : lock) (m : gmap lock nat) : option (gmap lock nat) :=
  match m !! l with None => Some (<[l := t]> m) | Some _ => None end.
Definition release (l : lock) (m : gmap lock nat) : gmap lock nat := delete l m.

Definition log_atfork_prepare (t : nat) (m : gmap lock nat) : option (gmap lock nat) :=
  m ← acquire t L_init m; m ← acquire t L_module m; acquire t L_dispatcher m.

Definition log_atfork_parent (m : gmap lock nat) : gmap lock nat := release L_init (release L_module (release L_dispatcher m)).

(** What the child gets from the system. *)
Record fork_env := ForkEnv { f_pid : Z; f_items_sem : bool; f_slots_sem : bool; f_thread : bool }.

(** [log_async_atfork_child_for] on the logger; its effect on the queue is in Async.v. *)
Definition atfork_async (e : fork_env) (q : async_t) : async_t :=
  if negb (log_async_is_running_for q) then q
  else AsyncT (l_queue q) (f_items_sem e && f_slots_sem e && f_thread e).

Definition log_atfork_child (e : fork_env) (m : gmap lock nat) (a : app S) : option (gmap lock nat * app S) :=
  d ← log_dispatcher_atfork_child_for (ap_disp a);
  let m := release L_init (release L_module (release L_dispatcher m)) in
  Some (m, App ((ap_log a){{ lg_pid := f_pid e }}) d (atfork_async e (ap_async a)) (ap_sv a)).

(** ** Sequences of calls *)

(** The application makes and destroys sinks of its own; [I_log] is a call of the default
    logger from a thread with formatter caches [th], [I_dispatch] the worker, or a caller whose
    record the queue refused, dispatching; [I_signal] a delivery; [I_fork] continues in the
    child. *)
Inductive life_op :=
  | I_init (s : sys S) (path : option cstr) | I_destroy | I_reload (s : sys S)
  | I_create (k : log_sink_t S) | I_release (p : nat)
  | I_add (p : nat) (realloc : bool) | I_remove (p : nat)
  | I_level (lvl : log_level_t) | I_module (name : option cstr) | I_flush | I_fork (e : fork_env)
  | I_log (tp : option cstr) (w : bool) (th : fmt_thread) (c : write_call)
  | I_dispatch (tp : option cstr) (th : fmt_thread) (rs : list log_record_t) | I_signal (w : bool) (sig : Z).

(** The caller owns the sinks it adds or destroys; the file does not drive the
    configuration parser out of its buffer; and the redaction of a call is defined. *)
Definition life_allowed (st : app S * list nat) (o : life_op) : Prop :=
  match o with
  | I_init s path => log_config_load_into (lg_config (ap_log st.1)) path false (s_file s) ≠ None
  | I_reload s => log_config_load_into (lg_config (ap_log st.1)) (Some (config_path (lg_config (ap_log st.1)))) true (s_file s) ≠ None
  | I_release p | I_add p _ => p ∈ st.2
  | I_log _ _ _ c => call_exec (ap_log st.1) c ≠ None
  | _ => True
  end.

Definition life_exec (st : app S * list nat) (o : life_op) : option (app S * list nat) :=
  let '(a, U) := st in
  let d := ap_disp a in
  match o with
  | I_init s path => x ← log_init s a path; Some (fst (x : app S * Z), U)
  | I_destroy => a ← log_destroy a; Some (a, U)
  | I_reload s => x ← log_reload s a; Some (fst (x : app S * Z), U)
  | I_create k =>
      Some (Lifecycle.set_disp a (Dispatcher (<[d_next d := k]> (d_store d)) (Datatypes.S (d_next d)) (d_sinks d)), U ++ [d_next d])
  | I_release p => m ← sink_destroy (d_store d) p; Some (Lifecycle.set_disp a (with_store d m), remove_nat p U)
  | I_add p realloc =>
      let '(a, ret) := log_add_sink a (Some p) realloc in Some (a, if ret =? CLOG_OK then remove_nat p U else U)
  | I_remove p =>
      let '(a', _) := log_remove_sink a (Some p) in Some (a', if decide (Some p ∈ d_sinks d) then U ++ [p] else U)
  | I_level lvl => Some (logger_set_level a lvl, U)
  | I_module name => Some (logger_set_module a name, U)
  | I_flush => a ← logger_flush a; Some (a, U)
  | I_fork e => x ← log_atfork_child e ∅ a; Some (snd (x : gmap lock nat * app S), U)
  | I_log tp w th c => x ← log_call tp w th c a; Some (snd (x : fmt_thread * app S), U)
  | I_dispatch tp th rs =>
      x ← dispatch_all tp (cfg_of a) (formats a) th d rs; Some (Lifecycle.set_disp a (snd (x : fmt_thread * dispatcher S)), U)
  | I_signal w sig => Some (set_signals a (deliver w (sv_signals (ap_sv a)) sig), U)
  end.

Inductive life : app S * list nat → Prop :=
  | life_start v : services_ok v → life (zero_app config_zero v, [])
  | life_step st o st' : life st → life_allowed st o → life_exec st o = Some st' → life st'.

End session.

Arguments life_op : clear implicits.

Section session_proofs.
Context {S : Type} `{!Sink S}.
Implicit Types (a : app S) (U L : list nat) (d : dispatcher S).

Lemma disp_world d U L : disp_ok d (U ++ L) ↔ winv (World d [] U L).
Proof. unfold disp_ok, winv, all_sinks. cbn. by rewrite app_nil_r. Qed.

(** An operation of the dispatcher alone. *)
Lemma set_disp_ok U U' L a d :
  app_ok U a → winv (World d [] U' L) → (d_sinks (ap_disp a) = [] → d_sinks d = []) →
  app_ok U' (Lifecycle.set_disp a d).
Proof.
  intros (_ & H2 & H3 & H4) Hd Hs. split; [exists L; by apply disp_world|]. split; [done|]. split; [done|].
  intros Hi. destruct (H4 Hi) as (? & ? & ?). cbn. auto.
Qed.

Lemma log_fields_ok U a (f : logger_t → logger_t) :
  lg_initialized (f (ap_log a)) = lg_initialized (ap_log a) → app_ok U a →
  app_ok U (App (f (ap_log a)) (ap_disp a) (ap_async a) (ap_sv a)).
Proof. intros E (H1 & H2 & H3 & H4). split_and!; try done. cbn [ap_log]. rewrite E. exact H4. Qed.

Lemma acquire_Some t l m m' : acquire t l m = Some m' ↔ m !! l = None ∧ m' = <[l := t]> m.
Proof. unfold acquire. destruct (m !! l); split; [done|by intros [? _]|by intros [= <-]|by intros [_ ->]]. Qed.

Lemma init_zero_ok v : services_ok v → app_ok [] (zero_app (S := S) config_zero v).
Proof.
  intros Hv. split; [|by split_and!]. exists []. split; [constructor|]. split.
  - intros p. cbn. rewrite lookup_empty. split; [by intros [? ?]|]. intros Hp. by apply not_elem_of_nil in Hp.
  - intros p Hp. by apply not_elem_of_nil in Hp.
Qed.

(** The fork handler on the dispatcher: each registered sink that has a handler, once. *)
Definition forked (k : log_sink_t S) : log_sink_t S :=
  if sk_atfork k then LogSink (sk_min_level k) (sk_color k) (sk_atfork k) (sink_atfork_child (sk_state k)) else k.

Lemma atfork_disp d U L :
  winv (World d [] U L) →
  ∃ m, log_dispatcher_atfork_child_for d = Some (with_store d m) ∧ winv (World (with_store d m) [] U L) ∧
    ∀ q, m !! q = if decide (q ∈ ptrs (d_sinks d)) then forked <$> d_store d !! q else d_store d !! q.
Proof.
  intros H. unfold log_dispatcher_atfork_child_for.
  set (body := λ m p, k ← m !! p; if sk_atfork k then sink_call m p sink_atfork_child else Some m).
  assert (∀ m p k, m !! p = Some k → body m p = Some (<[p := forked k]> m)) as Hb.
  { intros m p k Hk. unfold body, forked, sink_call. rewrite Hk. cbn. destruct (sk_atfork k); cbn; [done|]. by rewrite insert_id. }
  destruct (winv_calls (World d [] U L) body forked Hb H) as (m & E & Hm). cbn [w_disp w_snap w_user w_leaked] in *.
  destruct (for_each_map body forked (d_sinks d) (d_store d) Hb (NoDup_sinks _ H)) as (m' & E' & Hm').
  { intros p Hp. destruct H as (_ & H & _). apply H. unfold all_sinks. cbn. rewrite elem_of_app. by left. }
  rewrite E in E'. injection E' as <-. exists m. rewrite E. done.
Qed.

Lemma fork_ok U e m a :
  app_ok U a → ∃ a', log_atfork_child e m a = Some (log_atfork_parent m, a') ∧ app_ok U a' ∧
    lg_pid (ap_log a') = f_pid e ∧ lg_initialized (ap_log a') = lg_initialized (ap_log a) ∧
    d_sinks (ap_disp a') = d_sinks (ap_disp a) ∧
    (∀ q, d_store (ap_disp a') !! q =
       if decide (q ∈ ptrs (d_sinks (ap_disp a))) then forked <$> d_store (ap_disp a) !! q else d_store (ap_disp a) !! q) ∧
    log_async_is_running_for (ap_async a') =
      log_async_is_running_for (ap_async a) && (f_items_sem e && f_slots_sem e && f_thread e).
Proof.
  intros ([L Hd] & H2 & H3 & H4). apply (disp_world _ U L) in Hd. destruct (atfork_disp _ _ _ Hd) as (m' & E & Hw & Hm).
  unfold log_atfork_child. rewrite E. cbn [mbind option_bind]. eexists. split; [reflexivity|].
  assert (log_async_is_running_for (atfork_async e (ap_async a)) =
    log_async_is_running_for (ap_async a) && (f_items_sem e && f_slots_sem e && f_thread e)) as Hrun.
  { unfold atfork_async. destruct (log_async_is_running_for (ap_async a)) eqn:Er; cbn; [|done].
    unfold log_async_is_running_for in *. cbn. destruct (l_queue (ap_async a)); [by rewrite andb_true_r|by rewrite andb_false_r in Er]. }
  split; [|split; [destruct a as [[]]; reflexivity|split; [destruct a as [[]]; reflexivity|split; [reflexivity|split; [exact Hm|exact Hrun]]]]].
  split; [exists L; apply disp_world; exact Hw|]. split.
  { cbn. unfold atfork_async. destruct (log_async_is_running_for (ap_async a)) eqn:Er; cbn [negb]; [|done].
    cbn. intros _. unfold log_async_is_running_for in Er. by destruct (l_queue (ap_async a)); [|rewrite andb_false_r in Er]. }
  split; [done|]. destruct a as [[]]. cbn in *. intros Hi. destruct (H4 Hi) as (? & Hr & ?). rewrite Hrun, Hr.
  split_and!; try done. unfold atfork_async. by rewrite Hr.
Qed.
End session_proofs.

(** ** Every call keeps the invariant *)

Section life_proofs.
Context {S : Type} `{!Sink S} `{P : Platform}.
Implicit Types (a : app S) (U : list nat).

(** A dispatch keeps the accounts, whatever the formatter makes of the record. *)
Lemma dispatch_for_ok tp cfg fc th (d : dispatcher S) r U L :
  winv (World d [] U L) →
  ∃ th' r' d' ret, log_dispatcher_dispatch_for tp cfg fc th d r = Some (th', r', d', ret) ∧
    winv (World d' [] U L) ∧ d_sinks d' = d_sinks d.
Proof.
  intros H. unfold log_dispatcher_dispatch_for. destruct (_ <? _); [by do 4 eexists|].
  destruct (log_formatter_format_for _ _ _ _ _) as [[th' r'] [buf len]]. destruct (len <=? 0); [by do 4 eexists|].
  destruct (winv_dispatch _ (r_level r') (take (Z.to_nat len) buf) (colored_line (color cfg) (r_level r') buf) H) as (w' & E & Hw).
  cbn [wexec w_disp] in E. destruct (for_each _ _ _) as [m|]; [|done]. injection E as <-.
  by do 4 eexists.
Qed.

Lemma dispatch_all_ok tp cfg fc rs U L : ∀ th (d : dispatcher S),
  winv (World d [] U L) →
  ∃ th' d', dispatch_all tp cfg fc th d rs = Some (th', d') ∧ winv (World d' [] U L) ∧ d_sinks d' = d_sinks d.
Proof.
  induction rs as [|r rs IH]; intros th d H; cbn [dispatch_all]; [by do 2 eexists|].
  destruct (dispatch_for_ok tp cfg fc th d r U L H) as (th1 & r1 & d1 & ret & -> & H1 & E1). cbn [mbind option_bind].
  destruct (IH th1 d1 H1) as (th' & d' & -> & H' & E'). exists th', d'. split; [done|]. split; [done|congruence].
Qed.

Lemma flush_ok U a : app_ok U a → ∃ a', logger_flush a = Some a' ∧ app_ok U a' ∧ ap_log a' = ap_log a ∧ ap_sv a' = ap_sv a.
Proof.
  intros Ha. pose proof Ha as ([L Hd] & _). apply (disp_world _ U L) in Hd. unfold logger_flush. destruct (_ && _); [by eexists|].
  destruct (winv_flush _ Hd) as (w' & E & Hw). cbn [wexec w_disp] in E.
  destruct (log_dispatcher_flush_for (ap_disp a)) as [d'|] eqn:EF; [|done]. injection E as <-.
  eexists. split; [reflexivity|]. split; [|done]. apply (set_disp_ok U _ L); [done|exact Hw|]. unfold log_dispatcher_flush_for in EF.
  by apply bind_Some in EF as (m & _ & [= <-]).
Qed.

(** A write call leaves the configuration alone. *)
Lemma call_config l c l' rs :
  call_exec l c = Some (l', rs) → lg_config l' = lg_config l ∧ lg_initialized l' = lg_initialized l.
Proof.
  intros H. destruct (passes l c) eqn:Hp; [|rewrite (call_filtered l c Hp) in H; by injection H as <- <-].
  pose proof (call_passed l c l' rs Hp H) as HS. destruct (log_rate_limit_allow_for _ _) as [[rl supp] ok].
  destruct HS as [(E1 & E2 & _) _]. destruct (count_record_fields l (call_level c) rl) as (F1 & F2 & _).
  split; congruence.
Qed.

Lemma finish_call_ok U tp th c a :
  app_ok U a → call_exec (ap_log a) c ≠ None → ∃ th' a', finish_call tp th c a = Some (th', a') ∧ app_ok U a'.
Proof.
  intros Ha Hc. unfold finish_call. destruct (call_exec (ap_log a) c) as [[l rs]|] eqn:E; [|done]. cbn [mbind option_bind].
  destruct (call_config _ _ _ _ E) as [_ Ei]. set (b := App l (ap_disp a) (ap_async a) _).
  assert (app_ok U b) as Hb.
  { destruct Ha as (H1 & H2 & H3 & H4). split_and!; try done. unfold b. cbn [ap_log]. rewrite Ei. exact H4. }
  destruct (async (cfg_of b)); [by do 2 eexists|].
  pose proof Hb as ([L Hd] & _). apply (disp_world _ U L) in Hd.
  destruct (dispatch_all_ok tp (cfg_of b) (formats b) rs U L th _ Hd) as (th' & d' & -> & Hw & Es). cbn [mbind option_bind].
  do 2 eexists. split; [reflexivity|]. apply (set_disp_ok U _ L); [done|exact Hw|]. cbn [snd]. by rewrite Es.
Qed.

Lemma log_call_ok U tp w th c a :
  app_ok U a → call_exec (ap_log a) c ≠ None → ∃ th' a', log_call tp w th c a = Some (th', a') ∧ app_ok U a'.
Proof.
  intros Ha Hc. unfold log_call. destruct (lg_initialized (ap_log a)); cbn [negb]; [|by do 2 eexists].
  assert (∃ b, check_signals w a = Some b ∧ app_ok U b ∧ ap_log b = ap_log a) as (b & -> & Hb & El).
  { unfold check_signals. destruct (_ =? 0); [by eexists|]. destruct (flush_ok U a Ha) as (a' & -> & Ha' & El & Ev). cbn [mbind option_bind].
    eexists. split; [reflexivity|]. split; [|done]. apply set_sv_ok; [done|]. destruct Ha' as (_ & _ & (H1 & H2 & H3) & _). by split_and!. }
  cbn [mbind option_bind]. apply finish_call_ok; [done|by rewrite El].
Qed.

Lemma life_step_ok a U o :
  app_ok U a → life_allowed (a, U) o → ∃ st', life_exec (a, U) o = Some st' ∧ app_ok st'.2 st'.1.
Proof.
  intros Ha Hal. pose proof Ha as ([L Hd] & _). apply (disp_world _ U L) in Hd.
  destruct o as [s path| |s|k|p|p realloc|p|lvl|name| |e|tp w th c|tp th rs|w sig]; cbn [life_exec life_allowed fst snd] in *.
  - destruct (lg_initialized (ap_log a)) eqn:Hi.
    + unfold log_init. rewrite Hi. by eexists.
    + destruct (log_init_ok U s a path Ha Hi Hal) as (a' & ret & -> & Ha' & _). by eexists.
  - destruct (lg_initialized (ap_log a)) eqn:Hi.
    + destruct (log_destroy_ok U a Ha Hi) as (a' & -> & Ha' & _). by eexists.
    + unfold log_destroy. rewrite Hi. by eexists.
  - destruct (lg_initialized (ap_log a)) eqn:Hi.
    + destruct (log_reload_ok U s a Ha Hi Hal) as (a' & ret & -> & Ha' & _). by eexists.
    + unfold log_reload. rewrite Hi. by eexists.
  - eexists. split; [reflexivity|]. apply (set_disp_ok U _ L); [done| |done].
    eapply (winv_create (World (ap_disp a) [] U L) k); [exact Hd|reflexivity].
  - destruct (winv_release _ p Hd Hal) as (w' & E & Hw). cbn [wexec w_disp] in E.
    destruct (sink_destroy _ p) as [m|]; [|done]. injection E as <-. eexists. split; [reflexivity|].
    by apply (set_disp_ok U _ L).
  - unfold log_add_sink. destruct (lg_initialized (ap_log a)) eqn:Hi; cbn [negb]; [|by eexists].
    destruct (wexec (World (ap_disp a) [] U L) (O_add p realloc)) as [w'|] eqn:E; [|cbn [wexec] in E; by destruct (log_dispatcher_add_sink_for _ _ _)].
    pose proof (winv_add _ _ _ _ Hd Hal E) as Hw. cbn [wexec w_disp w_snap w_user w_leaked] in E.
    destruct (log_dispatcher_add_sink_for _ _ _) as [d' ret]. injection E as <-. eexists. split; [reflexivity|].
    replace ((if ret =? 0 then CLOG_OK else CLOG_ERR_OOM) =? CLOG_OK) with (ret =? 0) by (by destruct (ret =? 0)).
    destruct Ha as (H1 & H2 & H3 & H4). split; [exists L; apply disp_world; exact Hw|]. split; [done|]. split; [done|].
    cbn. by rewrite Hi.
  - unfold log_remove_sink.
    destruct (wexec (World (ap_disp a) [] U L) (O_remove p)) as [w'|] eqn:E; [|cbn [wexec] in E; by destruct (log_dispatcher_remove_sink_for _ _)].
    pose proof (winv_remove _ _ _ Hd E) as Hw. cbn [wexec w_disp w_snap w_user w_leaked] in E.
    destruct (log_dispatcher_remove_sink_for (ap_disp a) (Some p)) as [d' ret] eqn:ER. injection E as <-.
    eexists. split; [reflexivity|]. apply (set_disp_ok U _ L); [done|exact Hw|]. intros Hs.
    unfold log_dispatcher_remove_sink_for in ER. rewrite Hs in ER. by injection ER as <- <-.
  - eexists. split; [reflexivity|]. by apply set_config_ok.
  - eexists. split; [reflexivity|]. apply (log_fields_ok U a (λ l, l{{ lg_module := module_name name }})); [|done]. by destruct (ap_log a).
  - destruct (flush_ok U a Ha) as (a' & -> & Ha' & _). by eexists.
  - destruct (fork_ok U e ∅ a Ha) as (a' & -> & Ha' & _). by eexists.
  - destruct (log_call_ok U tp w th c a Ha Hal) as (th' & a' & -> & Ha'). by eexists.
  - destruct (dispatch_all_ok tp (cfg_of a) (formats a) rs U L th _ Hd) as (th' & d' & -> & Hw & Es). cbn [mbind option_bind].
    eexists. split; [reflexivity|]. apply (set_disp_ok U _ L); [done|exact Hw|]. cbn [snd]. by rewrite Es.
  - eexists. split; [reflexivity|]. apply set_sv_ok; [done|]. destruct Ha as (_ & _ & (H1 & H2 & H3) & _). by split_and!.
Qed.

Lemma life_ok st : life st → app_ok (S := S) st.2 st.1.
Proof.
  induction 1 as [v Hv|[a U] o st' _ IH Hal E]; [by apply init_zero_ok|].
  destruct (life_step_ok a U o IH Hal) as (st'' & E' & H'). rewrite E in E'. by injection E' as ->.
Qed.
End life_proofs.

(** ** Properties *)

(** C25: no sequence of calls breaks a logger.  From a zeroed logger, after any
    initialisations, reloads, shutdowns, forks, log calls, dispatches, signals, flushes,
    level and module changes and sinks added, removed, made and destroyed by their owner:
    the next such call is defined (no sink is used after its destruction); the registered
    sinks and those the application holds are alive and distinct; and when the logger is
    down it has no sink and no worker. *)
Theorem life_safe {S} `{!Sink S} `{P : Platform} (st : app S * list nat) :
  life st →
  (∀ o, life_allowed st o → is_Some (life_exec st o)) ∧
  NoDup (ptrs (d_sinks (ap_disp st.1)) ++ st.2) ∧
  (∀ p, p ∈ ptrs (d_sinks (ap_disp st.1)) ++ st.2 → is_Some (d_store (ap_disp st.1) !! p)) ∧
  (lg_initialized (ap_log st.1) = false →
   d_sinks (ap_disp st.1) = [] ∧ log_async_is_running_for (ap_async st.1) = false).
Proof.
  destruct st as [a U]. intros Hl%life_ok. cbn [fst snd] in *. split.
  { intros o Ho. destruct (life_step_ok a U o Hl Ho) as (st' & -> & _). by eexists. }
  destruct Hl as ([L Hd] & _ & _ & H4). apply (disp_world _ U L) in Hd. destruct Hd as (Hnd & Hdom & _).
  unfold all_sinks in *. cbn in *. rewrite app_assoc in Hnd. split; [by apply NoDup_app in Hnd as (? & _)|].
  split; [|intros Hi; by destruct (H4 Hi) as (? & ? & _)]. intros p. rewrite elem_of_app. intros Hp. apply Hdom. rewrite !elem_of_app. tauto.
Qed.

(** C26: fork, after any history of calls.  The sinks' fork handlers are functions that
    return.  When the prepare handler got its three mutexes, both processes continue
    with the mutexes as they were before, so none of the three is left locked; in the
    child the same sinks are registered, each that has a fork handler has run it exactly
    once and nothing else of it changed, the cached process id is the child's, and a
    worker runs exactly when one ran in the parent and could be started again. *)
Theorem fork_correct {S} `{!Sink S} `{P : Platform} (st : app S * list nat) e t m m' :
  life st → log_atfork_prepare t m = Some m' →
  log_atfork_parent m' = m ∧ m !! L_init = None ∧ m !! L_module = None ∧ m !! L_dispatcher = None ∧
  ∃ a', log_atfork_child e m' st.1 = Some (m, a') ∧ lg_pid (ap_log a') = f_pid e ∧
    d_sinks (ap_disp a') = d_sinks (ap_disp st.1) ∧
    (∀ q, d_store (ap_disp a') !! q =
       if decide (q ∈ ptrs (d_sinks (ap_disp st.1))) then forked <$> d_store (ap_disp st.1) !! q
       else d_store (ap_disp st.1) !! q) ∧
    log_async_is_running_for (ap_async a') =
      log_async_is_running_for (ap_async st.1) && (f_items_sem e && f_slots_sem e && f_thread e).
Proof.
  intros Hl%life_ok Hp. assert (log_atfork_parent m' = m ∧ m !! L_init = None ∧ m !! L_module = None ∧ m !! L_dispatcher = None)
    as (Hm & H1 & H2 & H3).
  { unfold log_atfork_prepare in Hp. apply bind_Some in Hp as (m1 & (H1 & ->)%acquire_Some & Hp).
    apply bind_Some in Hp as (m2 & (H2 & ->)%acquire_Some & (H3 & ->)%acquire_Some).
    rewrite lookup_insert_ne in H2 by done. rewrite !lookup_insert_ne in H3 by done. split_and!; try done.
    unfold log_atfork_parent, release. apply map_eq. intros l. rewrite !lookup_delete, !lookup_insert.
    repeat case_decide; congruence. }
  destruct (fork_ok st.2 e m' st.1 Hl) as (a' & E & _ & F1 & _ & F2 & F3 & F4). rewrite Hm in E. by split_and!; [..|exists a'].
Qed.

(** ** Concrete runs *)

Definition test_made : app (list cstr) * list nat :=
  (Lifecycle.set_disp test_app (Dispatcher {[0%nat := LogSink 0 false true []]} 1 []), [0%nat]).

Lemma test_made_life : life test_made.
Proof.
  apply (life_step (test_app, []) (I_create (LogSink 0 false true []))); [|done|reflexivity].
  apply life_start, test_services_ok.
Qed.

Lemma life_safe_witness :
  is_Some (life_exec test_made (I_init test_sys (Some (B "a.yaml")))) ∧
  is_Some (d_store (ap_disp test_made.1) !! 0%nat).
Proof.
  destruct (life_safe test_made test_made_life) as (H1 & _ & H3 & _). split.
  - apply H1. vm_compute. discriminate.
  - apply H3. by left.
Defined.

Lemma fork_correct_witness :
  ∃ m' a', log_atfork_prepare 1 {[L_redact := 7%nat]} = Some m' ∧
    log_atfork_child (ForkEnv 99 true true true) m' test_made.1 = Some ({[L_redact := 7%nat]}, a') ∧ lg_pid (ap_log a') = 99.
Proof.
  destruct (log_atfork_prepare 1 {[L_redact := 7%nat]}) as [m'|] eqn:E; [|vm_compute in E; discriminate E].
  destruct (fork_correct test_made (ForkEnv 99 true true true) 1 {[L_redact := 7%nat]} m' test_made_life E)
    as (_ & _ & _ & _ & a' & E' & H & _).
  exists m', a'. split; [reflexivity|]. split; [exact E'|exact H].
Defined.

(** After a reload that could not start the worker, flushing does nothing although the
    records are written to the sinks directly. *)
Example flush_without_worker :
  (x ← log_reload (Sys (s_file test_sys) (s_make test_sys) (s_dlopen test_sys) true true true false (true, true, true) Start_ok 0 42) test_up;
   let '(a, ret) := (x : app (list cstr) * Z) in
   a' ← logger_flush a; Some (ret, length (d_sinks (ap_disp a)), async (cfg_of a) && bool_decide (l_queue (ap_async a) = None)))
  = Some (CLOG_ERR_THREAD_CREATE, 1%nat, true).
Proof. vm_compute. reflexivity. Qed.

(** The redaction mutex is not among those the handlers take: a thread that held it is
    gone in the child, which then waits for ever. *)
Example redact_mutex_stuck :
  (m' ← log_atfork_prepare 1 {[L_redact := 7%nat]}; Some (acquire 1 L_redact (log_atfork_parent m'))) = Some None.
Proof. vm_compute. reflexivity. Qed.

(** A plugin that refuses the empty configuration, and a logger whose only sink it is. *)
Definition test_library : library (log_sink_t (list cstr)) :=
  Library (Some (Some (PluginDesc CLOGX_PLUGIN_ABI_VERSION 1 0 (Some (B "p")) None)))
    (Some (λ params, if bool_decide (params = []) then None else Some (LogSink 0 false false []))).
Definition plugin_sys : sys (list cstr) :=
  Sys (λ _, None) (λ _, None) (λ _, Some test_library) true true true true (true, true, true) Start_ok 0 42.
Definition plugin_cfg (params : cstr) : log_config_t :=
  config_zero{{ plugin_count := 1; plugin_so_paths := B "p.so" :: replicate 7 []; plugin_params_json := params :: replicate 7 [] }}.

(** The instance is not created for want of a sink; its plugin's library stays open. *)
Example failed_create_keeps_library :
  (λ x, (bool_decide (is_Some (fst x)), elements (p_open (sv_plugins (snd x))))) <$>
    logger_create_from_config plugin_sys true test_services (Some (plugin_cfg [])) = Some (false, [0%nat]).
Proof. vm_compute. reflexivity. Qed.

(** An instance with a plugin sink outlives the default logger, whose shutdown unloads
    the library the instance still writes through. *)
Example instance_library_unloaded :
  (x ← logger_create_from_config plugin_sys true test_services (Some (plugin_cfg (B "{}")));
   a ← fst (x : option (app (list cstr)) * services (list cstr));
   b ← log_destroy (set_sv test_up (snd x));
   Some (d_sinks (ap_disp a), elements (p_open (sv_plugins (snd x))), elements (p_open (sv_plugins (ap_sv b)))))
  = Some ([Some 0%nat], [0%nat], []).
Proof. vm_compute. reflexivity. Qed.
