(* ===== verification/Pipeline.v ===== *)
(** * From a log call to the sinks (core/log.c, core/dispatcher.c, core/formatter.c)

    A printf-style call on the default logger in synchronous mode: the pending-signal
    check, the write path of Logger.v, the formatter with the thread's caches and the
    dispatcher, composed as the code composes them. *)
From S2P Require Import Prelude FastAscii Record Config FmtBuf FmtTime FmtJson FmtOtel FmtText RateLimit Trace Context.
From S2P Require Import Async Dispatcher Logger Plugin Signal Prometheus Lifecycle Session.
From coqutil Require Import Datatypes.RecordSetters.
Import DoubleBraceUpdate.

Local Open Scope Z_scope.

Section pipeline.
Context {S : Type} `{!Sink S} `{P : Platform}.

Definition log_writevprintf tp w th e lvl file line func (a : app S) : option (fmt_thread * app S) :=
  log_call tp w th (C_printf e lvl file line func) a.
Definition log_write_kv tp w th redact e lvl file line func msg kvs (a : app S) : option (fmt_thread * app S) :=
  log_call tp w th (C_kv redact e lvl file line func msg kvs) a.

(** ** What a sink is due *)

(** The line of a record: what the formatter makes of it with empty caches, for a pattern,
    JSON or OTLP format alike; empty when it fails. *)
Definition rendered (tp : option cstr) (fc : fmt_config) (r : log_record_t) : cstr :=
  let '(_, _, (s, ret)) := log_formatter_format_for tp fresh_thread fc r CLOG_MAX_FORMATTED_SIZE in
  if ret <=? 0 then [] else s.

(** The bytes of the records a sink admits: lines that are not empty, at or above the
    logger's level and the sink's. *)
Definition due (tp : option cstr) (cfg : log_config_t) (fc : fmt_config) (k : log_sink_t S) (rs : list log_record_t) : cstr :=
  concat (omap (λ r, if bool_decide (level cfg <= r_level r) && bool_decide (sk_min_level k <= r_level r) &&
                        negb (bool_decide (rendered tp fc r = []))
                     then Some (terminated (text_for cfg (r_level r) (rendered tp fc r) k)) else None) rs).

(** The line of a record in a pattern format, cut to the dispatcher's buffer. *)
Definition pattern_line (fc : fmt_config) (r : log_record_t) : cstr :=
  take (Z.to_nat (CLOG_MAX_FORMATTED_SIZE - 1))
    (text_line r (render_sec (time_format_of (Some (FmtText.time_format_str fc))) (timestamp_sec r))
       (fmt_compile (pattern_of fc) FMT_MAX_OPS)).

End pipeline.

Section pipeline_proofs.
Context {S : Type} `{!Sink S} `{P : Platform} `{!PlatformOk P}.
Implicit Types (k : log_sink_t S) (d : dispatcher S).

(** With any coherent caches the formatter returns the line. *)
Lemma format_for_rendered tp th fc r :
  format_fits fc → caches_ok th → record_ok r →
  ∃ th' r' res, log_formatter_format_for tp th fc r CLOG_MAX_FORMATTED_SIZE = (th', r', res) ∧ caches_ok th' ∧
    r_level r' = r_level r ∧ (if decide (rendered tp fc r = []) then res.2 <= 0 else res = (rendered tp fc r, clen (rendered tp fc r))).
Proof.
  intros Hf Hth Hr. destruct (format_for_caches tp th fc r CLOG_MAX_FORMATTED_SIZE Hr Hth Hf) as (th0 & th' & r' & res & E0 & E & Hth' & Hl & Hret).
  { split; [done|by vm_compute]. }
  exists th', r', res. split; [done|]. split; [done|]. split; [done|].
  unfold rendered. rewrite E0. destruct res as [s ret]. unfold length_or_fail in Hret. cbn [fst snd] in Hret. destruct (Z.leb_spec ret 0) as [Hle|Hgt].
  - case_decide; [exact Hle|done].
  - destruct Hret as [Hret|Hret]; [lia|]. rewrite Hret in *. case_decide as Hs; [by subst|done].
Qed.

(** What it is in a pattern format. *)
Lemma rendered_pattern tp fc r :
  is_json_format (pattern_of fc) = false → is_otel_format (pattern_of fc) = false → format_fits fc → record_ok r →
  rendered tp fc r = pattern_line fc r.
Proof.
  intros H1 H2 [H3 H4] Hr. unfold rendered, log_formatter_format_for. change (CLOG_MAX_FORMATTED_SIZE =? 0) with false. cbv iota. fold (pattern_of fc).
  set (tf := match FmtText.time_format_str fc with [] => default_time_format | s => s end).
  assert (time_format_of (Some tf) = time_format_of (Some (FmtText.time_format_str fc))) as Etf.
  { unfold tf. by destruct (FmtText.time_format_str fc). }
  assert (clen (time_format_of (Some tf)) < 64) as Hl.
  { rewrite Etf. destruct (FmtText.time_format_str fc); [done|exact H4]. }
  assert (clen (pattern_of fc) < CLOG_MAX_FORMAT_SIZE) as Hp by (unfold pattern_of; by destruct (FmtText.format_str fc)).
  pose proof (format_impl_text tp fresh_thread r CLOG_MAX_FORMATTED_SIZE (pattern_of fc) (Some tf) Hr (proj1 fresh_thread_ok)
    (proj2 fresh_thread_ok) H1 H2 Hp Hl ltac:(done)) as HF.
  cbv zeta in HF. rewrite Etf in HF. unfold pattern_line.
  destruct (format_impl _ _ _ _ _ _) as [[th' r'] res]. destruct HF as (_ & _ & -> & ->).
  destruct (Z.leb_spec (clen (take (Z.to_nat (CLOG_MAX_FORMATTED_SIZE - 1))
    (text_line r (render_sec (time_format_of (Some (FmtText.time_format_str fc))) (timestamp_sec r)) (fmt_compile (pattern_of fc) FMT_MAX_OPS)))) 0)
    as [Hle|]; [|done].
  destruct (take _ _) as [|x l]; [done|]. rewrite clen_cons in Hle. pose proof (clen_nonneg l). lia.
Qed.

(** One record on the caller's thread. *)
Lemma dispatch_rendered tp cfg fc th d r :
  format_fits fc → caches_ok th → record_ok r →
  NoDup (ptrs (d_sinks d)) → (∀ p, p ∈ ptrs (d_sinks d) → is_Some (d_store d !! p)) →
  ∃ th' r' d' ret, log_dispatcher_dispatch_for tp cfg fc th d r = Some (th', r', d', ret) ∧ caches_ok th' ∧
    d_sinks d' = d_sinks d ∧
    ∀ p k, d_store d !! p = Some k → ∃ chunks,
      d_store d' !! p = Some (LogSink (sk_min_level k) (sk_color k) (sk_atfork k) (foldl sink_write (sk_state k) chunks)) ∧
      concat chunks = (if decide (p ∈ ptrs (d_sinks d)) then due tp cfg fc k [r] else []).
Proof.
  intros Hf Hth Hr Hnd Hlive. unfold due. cbn [omap list_omap].
  destruct (format_for_rendered tp th fc r Hf Hth Hr) as (th' & r' & res & EF & Hth' & Hlvl & Hres).
  assert (∀ k : log_sink_t S, k = LogSink (sk_min_level k) (sk_color k) (sk_atfork k) (foldl sink_write (sk_state k) [])) as Hid by (by intros []).
  destruct (Z.le_gt_cases (level cfg) (r_level r)) as [Hl|Hl].
  2:{ exists th, r, d, 0. unfold log_dispatcher_dispatch_for. destruct (Z.ltb_spec (r_level r) (level cfg)); [|lia].
      split; [done|]. split; [done|]. split; [done|]. intros p k Hk. exists []. split; [by rewrite <- Hid|].
      rewrite bool_decide_false by lia. by destruct (decide (p ∈ ptrs (d_sinks d))). }
  destruct (decide (rendered tp fc r = [])) as [He|He].
  { exists th', r', d, (-1). unfold log_dispatcher_dispatch_for. destruct (Z.ltb_spec (r_level r) (level cfg)); [lia|].
    rewrite EF. destruct res as [s ret]. cbn in Hres. destruct (Z.leb_spec ret 0); [|lia].
    split; [done|]. split; [done|]. split; [done|]. intros p k Hk. exists []. split; [by rewrite <- Hid|].
    rewrite He, (bool_decide_true ([] = [])) by done. rewrite andb_false_r. by destruct (decide (p ∈ ptrs (d_sinks d))). }
  subst res. destruct (dispatch_chunks tp cfg fc th d r th' r' _ Hnd Hlive Hl He EF) as (d' & H1 & H2 & H3).
  exists th', r', d', 0. split; [done|]. split; [done|]. split; [done|]. intros p k Hk. rewrite (H3 p k Hk), Hlvl.
  rewrite (bool_decide_true (level cfg <= r_level r)) by done. rewrite (bool_decide_false (rendered tp fc r = [])) by done.
  cbn [andb negb]. rewrite andb_true_r. destruct (decide (p ∈ ptrs (d_sinks d))); [|exists []; by rewrite <- Hid].
  destruct (Z.ltb_spec (r_level r) (sk_min_level k)).
  - exists []. split; [by rewrite <- Hid|]. by rewrite bool_decide_false by lia.
  - eexists. split; [reflexivity|]. rewrite bool_decide_true by lia. cbn [concat]. rewrite app_nil_r. by apply chunks_for_spec.
Qed.

Lemma due_cons tp cfg fc k r rs : due (S := S) tp cfg fc k (r :: rs) = due tp cfg fc k [r] ++ due tp cfg fc k rs.
Proof. unfold due. cbn [omap list_omap]. destruct (_ && _); cbn [concat]; [|done]. by rewrite app_nil_r. Qed.

Lemma dispatch_all_rendered tp cfg fc rs : ∀ th d,
  format_fits fc → caches_ok th → Forall record_ok rs →
  NoDup (ptrs (d_sinks d)) → (∀ p, p ∈ ptrs (d_sinks d) → is_Some (d_store d !! p)) →
  ∃ th' d', dispatch_all tp cfg fc th d rs = Some (th', d') ∧ caches_ok th' ∧ d_sinks d' = d_sinks d ∧
    ∀ p k, d_store d !! p = Some k → ∃ chunks,
      d_store d' !! p = Some (LogSink (sk_min_level k) (sk_color k) (sk_atfork k) (foldl sink_write (sk_state k) chunks)) ∧
      concat chunks = (if decide (p ∈ ptrs (d_sinks d)) then due tp cfg fc k rs else []).
Proof.
  induction rs as [|r rs IH]; intros th d Hf Hth Hrs Hnd Hlive; cbn [dispatch_all].
  { exists th, d. split; [done|]. split; [done|]. split; [done|]. intros p k Hk. exists []. rewrite Hk. split; [by destruct k|by destruct (decide _)]. }
  apply Forall_cons in Hrs as [Hr Hrs].
  destruct (dispatch_rendered tp cfg fc th d r Hf Hth Hr Hnd Hlive) as (th1 & r1 & d1 & ret & -> & Hth1 & Hs1 & H1).
  cbn [mbind option_bind]. destruct (IH th1 d1 Hf Hth1 Hrs) as (th' & d' & -> & Hth' & Hs' & H').
  { by rewrite Hs1. }
  { rewrite Hs1. intros p Hp. destruct (Hlive p Hp) as [k Hk]. destruct (H1 p k Hk) as (c & E & _). by eexists. }
  exists th', d'. split; [done|]. split; [done|]. split; [by rewrite Hs'|]. intros p k Hk.
  destruct (H1 p k Hk) as (c1 & E1 & C1). destruct (H' p _ E1) as (c2 & E2 & C2). exists (c1 ++ c2).
  rewrite E2. cbn [sk_min_level sk_color sk_atfork sk_state]. split; [by rewrite foldl_app|].
  rewrite concat_app, C1, C2, Hs1. destruct (decide _); [|done]. by rewrite (due_cons tp cfg fc k r rs).
Qed.

End pipeline_proofs.

(** ** Properties *)


(** ** A concrete call *)

(** A console logger with a pattern format. *)
Definition sync_sys : sys (list cstr) :=
  Sys (λ _, Some (log_document [(B "format", B "<%level> %msg"); (B "color", B "false")]))
      (make test_factories) (λ _, None) true true true true (true, true, true) Start_ok 0 42.

Definition hello : write_call := C_printf (Logger.test_env (B "hello") 0) LOG_LEVEL_WARN None 7 None.

Definition hello_record : log_record_t :=
  LogRecord 0 None None (Some (B "main")) None (Some (B "hello")) LOG_LEVEL_WARN 7 42 7 (zeros 16) (zeros 8) [] false.

Lemma hello_record_ok : record_ok hello_record.
Proof.
  unfold record_ok, hello_record. cbn [r_timestamp r_module r_file r_func r_tag r_message r_line r_tid r_pid r_trace_id r_span_id r_kv].
  split_and!; try done; try (apply Forall_forall; intros x Hx; apply elem_of_replicate in Hx as [-> _]; done);
    apply (bool_decide_unpack _); vm_compute; done.
Qed.

(** The logger after initialisation and a first call. *)
Definition sync_ops : list (life_op (list cstr)) :=
  [I_init sync_sys (Some (B "a.yaml")); I_log None true fresh_thread hello].
Definition after (ops : list (life_op (list cstr))) : option (app (list cstr) * list nat) :=
  foldl (λ st o, st ← st; life_exec st o) (Some (test_app, [])) ops.

