(* ===== verification/Api.v ===== *)
(** * The calls an application writes (include/log.h, core/log.c)

    The macros [LOG_*], [LOG_*_KV], [LOGGER_*], [LOGGER_*_KV] and [CLOG_KV_*], the
    functions behind them and the wrappers of the default logger, over the write path of
    Pipeline.v; and what a JSON sink holds after a key-value macro. *)
From S2P Require Import Prelude FastAscii Record Config FmtBuf FmtTime FmtJson FmtText RateLimit Trace Context Redact.
From S2P Require Import Async Dispatcher Logger Plugin Signal Prometheus Lifecycle Session Pipeline.
From Stdlib Require Import SpecFloat.
From coqutil Require Import Datatypes.RecordSetters.
Import DoubleBraceUpdate.

Local Open Scope Z_scope.

(** ** Attributes: the casts of the constructor macros *)

Definition CLOG_KV_INT (k : option cstr) (v : Z) : clog_kv_t := ClogKv k (CLOG_KV_TYPE_INT (i64 v)).
Definition CLOG_KV_UINT (k : option cstr) (v : Z) : clog_kv_t := ClogKv k (CLOG_KV_TYPE_UINT (u64 v)).
Definition CLOG_KV_FLOAT (k : option cstr) (v : spec_float) : clog_kv_t := ClogKv k (CLOG_KV_TYPE_FLOAT v).
Definition CLOG_KV_STR (k v : option cstr) : clog_kv_t := ClogKv k (CLOG_KV_TYPE_STR v).
Definition CLOG_KV_BOOL (k : option cstr) (v : Z) : clog_kv_t := ClogKv k (CLOG_KV_TYPE_BOOL (negb (v =? 0))).

(** ** Where a macro stands: [__FILE__], [__LINE__] and [__func__] *)

Record place := Place { p_FILE : cstr; p_LINE : Z; p_func : cstr }.

Definition LOG_FILENAME_ONLY (pl : place) : option cstr := Some (clogx_filename_only (Some (p_FILE pl))).

Section api.
Context {S : Type} `{!Sink S} `{P : Platform}.

(** What a macro takes from its surroundings besides its place: TRACEPARENT, what the
    self-pipe answers, the thread's formatter caches, the clocks and ids of the call, and
    the allocator and scratch buffers of redaction. *)
Record ambient := Ambient {
  m_tp : option cstr;
  m_write : bool;
  m_thread : fmt_thread;
  m_env : write_env;
  m_malloc : nat → bool;
  m_rmem : rmem
}.

Definition redact_of (m : ambient) : log_record_t → option log_record_t :=
  redact_record (m_malloc m) (e_rules (m_env m)) (m_rmem m).

(** ** The default logger.  The arguments of a printf-style macro are the text
    [e_text] they print. *)

Definition log_at (m : ambient) (pl : place) (lvl : log_level_t) (a : app S) : option (fmt_thread * app S) :=
  log_writevprintf (m_tp m) (m_write m) (m_thread m) (m_env m) lvl (LOG_FILENAME_ONLY pl) (p_LINE pl) (Some (p_func pl)) a.

Definition LOG_INFO (m : ambient) (pl : place) (a : app S) := log_at m pl LOG_LEVEL_INFO a.
Definition LOG_DEBUG (m : ambient) (pl : place) (a : app S) := log_at m pl LOG_LEVEL_DEBUG a.
Definition LOG_WARN (m : ambient) (pl : place) (a : app S) := log_at m pl LOG_LEVEL_WARN a.
Definition LOG_ERROR (m : ambient) (pl : place) (a : app S) := log_at m pl LOG_LEVEL_ERROR a.
Definition LOG_FATAL (m : ambient) (pl : place) (a : app S) := log_at m pl LOG_LEVEL_FATAL a.
Definition LOG_TRACE (m : ambient) (pl : place) (a : app S) := log_at m pl LOG_LEVEL_TRACE a.

(** The array of a key-value macro is its list of attributes; its size divided by the
    size of an element is their number. *)
Definition log_kv_at (m : ambient) (pl : place) (lvl : log_level_t) (msg : option cstr) (kvs : list clog_kv_t)
    (a : app S) : option (fmt_thread * app S) :=
  log_write_kv (m_tp m) (m_write m) (m_thread m) (redact_of m) (m_env m) lvl
    (LOG_FILENAME_ONLY pl) (p_LINE pl) (Some (p_func pl)) msg kvs a.

Definition LOG_INFO_KV (m : ambient) pl msg kvs (a : app S) := log_kv_at m pl LOG_LEVEL_INFO msg kvs a.
Definition LOG_DEBUG_KV (m : ambient) pl msg kvs (a : app S) := log_kv_at m pl LOG_LEVEL_DEBUG msg kvs a.
Definition LOG_WARN_KV (m : ambient) pl msg kvs (a : app S) := log_kv_at m pl LOG_LEVEL_WARN msg kvs a.
Definition LOG_ERROR_KV (m : ambient) pl msg kvs (a : app S) := log_kv_at m pl LOG_LEVEL_ERROR msg kvs a.
Definition LOG_FATAL_KV (m : ambient) pl msg kvs (a : app S) := log_kv_at m pl LOG_LEVEL_FATAL msg kvs a.
Definition LOG_TRACE_KV (m : ambient) pl msg kvs (a : app S) := log_kv_at m pl LOG_LEVEL_TRACE msg kvs a.

(** ** Instances: a null check, and no signal check *)

Definition instance_call (tp : option cstr) (th : fmt_thread) (c : write_call) (a : option (app S))
    : option (fmt_thread * option (app S)) :=
  match a with
  | None => Some (th, None)
  | Some a => if negb (lg_initialized (ap_log a)) then Some (th, Some a)
              else x ← finish_call tp th c a; Some (fst (x : fmt_thread * app S), Some (snd x))
  end.

Definition logger_writevprintf tp th (a : option (app S)) e lvl file line func :=
  instance_call tp th (C_printf e lvl file line func) a.
Definition logger_write_kv tp th (a : option (app S)) redact e lvl file line func msg kvs :=
  instance_call tp th (C_kv redact e lvl file line func msg kvs) a.

Definition logger_at (m : ambient) (pl : place) (lvl : log_level_t) (a : option (app S)) :=
  logger_writevprintf (m_tp m) (m_thread m) a (m_env m) lvl (LOG_FILENAME_ONLY pl) (p_LINE pl) (Some (p_func pl)).

Definition LOGGER_TRACE (m : ambient) (a : option (app S)) pl := logger_at m pl LOG_LEVEL_TRACE a.
Definition LOGGER_DEBUG (m : ambient) (a : option (app S)) pl := logger_at m pl LOG_LEVEL_DEBUG a.
Definition LOGGER_INFO (m : ambient) (a : option (app S)) pl := logger_at m pl LOG_LEVEL_INFO a.
Definition LOGGER_WARN (m : ambient) (a : option (app S)) pl := logger_at m pl LOG_LEVEL_WARN a.
Definition LOGGER_ERROR (m : ambient) (a : option (app S)) pl := logger_at m pl LOG_LEVEL_ERROR a.
Definition LOGGER_FATAL (m : ambient) (a : option (app S)) pl := logger_at m pl LOG_LEVEL_FATAL a.

Definition logger_kv_at (m : ambient) (pl : place) (lvl : log_level_t) (msg : option cstr) (kvs : list clog_kv_t)
    (a : option (app S)) :=
  logger_write_kv (m_tp m) (m_thread m) a (redact_of m) (m_env m) lvl
    (LOG_FILENAME_ONLY pl) (p_LINE pl) (Some (p_func pl)) msg kvs.

Definition LOGGER_INFO_KV (m : ambient) (a : option (app S)) pl msg kvs := logger_kv_at m pl LOG_LEVEL_INFO msg kvs a.
Definition LOGGER_DEBUG_KV (m : ambient) (a : option (app S)) pl msg kvs := logger_kv_at m pl LOG_LEVEL_DEBUG msg kvs a.
Definition LOGGER_WARN_KV (m : ambient) (a : option (app S)) pl msg kvs := logger_kv_at m pl LOG_LEVEL_WARN msg kvs a.
Definition LOGGER_ERROR_KV (m : ambient) (a : option (app S)) pl msg kvs := logger_kv_at m pl LOG_LEVEL_ERROR msg kvs a.
Definition LOGGER_FATAL_KV (m : ambient) (a : option (app S)) pl msg kvs := logger_kv_at m pl LOG_LEVEL_FATAL msg kvs a.
Definition LOGGER_TRACE_KV (m : ambient) (a : option (app S)) pl msg kvs := logger_kv_at m pl LOG_LEVEL_TRACE msg kvs a.

(** The four families, by level. *)
Definition log_macros : list (log_level_t * (ambient → place → app S → option (fmt_thread * app S))) :=
  [(LOG_LEVEL_TRACE, LOG_TRACE); (LOG_LEVEL_DEBUG, LOG_DEBUG); (LOG_LEVEL_INFO, LOG_INFO);
   (LOG_LEVEL_WARN, LOG_WARN); (LOG_LEVEL_ERROR, LOG_ERROR); (LOG_LEVEL_FATAL, LOG_FATAL)].
Definition kv_macros
    : list (log_level_t * (ambient → place → option cstr → list clog_kv_t → app S → option (fmt_thread * app S))) :=
  [(LOG_LEVEL_TRACE, LOG_TRACE_KV); (LOG_LEVEL_DEBUG, LOG_DEBUG_KV); (LOG_LEVEL_INFO, LOG_INFO_KV);
   (LOG_LEVEL_WARN, LOG_WARN_KV); (LOG_LEVEL_ERROR, LOG_ERROR_KV); (LOG_LEVEL_FATAL, LOG_FATAL_KV)].
Definition logger_macros
    : list (log_level_t * (ambient → option (app S) → place → option (fmt_thread * option (app S)))) :=
  [(LOG_LEVEL_TRACE, LOGGER_TRACE); (LOG_LEVEL_DEBUG, LOGGER_DEBUG); (LOG_LEVEL_INFO, LOGGER_INFO);
   (LOG_LEVEL_WARN, LOGGER_WARN); (LOG_LEVEL_ERROR, LOGGER_ERROR); (LOG_LEVEL_FATAL, LOGGER_FATAL)].
Definition logger_kv_macros
    : list (log_level_t * (ambient → option (app S) → place → option cstr → list clog_kv_t →
                           option (fmt_thread * option (app S)))) :=
  [(LOG_LEVEL_TRACE, LOGGER_TRACE_KV); (LOG_LEVEL_DEBUG, LOGGER_DEBUG_KV); (LOG_LEVEL_INFO, LOGGER_INFO_KV);
   (LOG_LEVEL_WARN, LOGGER_WARN_KV); (LOG_LEVEL_ERROR, LOGGER_ERROR_KV); (LOG_LEVEL_FATAL, LOGGER_FATAL_KV)].

(** ** Wrappers of the default logger *)

(** The caller's structure, left alone when the pointer is NULL; [depth] is the depth of
    the queue. *)
Definition log_get_stats (a : app S) (depth : Z) (stats : option log_stats_t) : option log_stats_t :=
  match stats with None => None | Some _ => Some (logger_get_stats (ap_log a) depth) end.
Definition log_set_module (a : app S) (name : option cstr) : app S := logger_set_module a name.

(** [buf] is the content of the caller's buffer of [n] bytes, [None] for NULL. *)
Definition log_get_module (a : app S) (buf : option cstr) (n : Z) : option cstr :=
  match buf with
  | None => None
  | Some b => if n =? 0 then Some b else Some (snprintf_s n (lg_module (ap_log a)))
  end.
Definition logger_config_get (a : option (app S)) : option log_config_t := cfg_of <$> a.

Definition log_flush (a : app S) : option (app S) :=
  if async (cfg_of a) then
    match l_queue (ap_async a) with
    | None => Some a
    | Some _ => d ← log_dispatcher_flush_for (ap_disp a); Some (Lifecycle.set_disp a d)
    end
  else d ← log_dispatcher_flush_for (ap_disp a); Some (Lifecycle.set_disp a d).

(** ** What a JSON sink is due *)

(** The record of a key-value macro when nothing is redacted. *)
Definition kv_record (l : logger_t) (m : ambient) (pl : place) (lvl : log_level_t) (msg : option cstr)
    (kvs : list clog_kv_t) : log_record_t :=
  make_record l (m_env m) lvl (LOG_FILENAME_ONLY pl) (p_LINE pl) (Some (p_func pl)) (or_default msg [])
    (take (Z.to_nat CLOG_MAX_KV) kvs).

Definition json_format (fc : fmt_config) : Prop :=
  is_json_format (FmtText.format_str fc) = true ∧ clen (FmtText.time_format_str fc) < 64.

(** The time field: the second of the record in the logger's time format. *)
Definition time_of (fc : fmt_config) (r : log_record_t) : cstr :=
  render_sec (time_format_of (Some (FmtText.time_format_str fc))) (timestamp_sec r).

End api.

Section api_proofs.
Context {S : Type} `{!Sink S} `{P : Platform} `{!PlatformOk P}.

Lemma format_for_json tp th fc r :
  json_format fc → caches_ok th → record_ok r → Forall plain (time_of fc r) →
  clen (json_object (record_fields r (time_of fc r))) < CLOG_MAX_FORMATTED_SIZE →
  ∃ th', caches_ok th' ∧
    log_formatter_format_for tp th fc r CLOG_MAX_FORMATTED_SIZE =
      (th', r, (json_object (record_fields r (time_of fc r)), clen (json_object (record_fields r (time_of fc r))))).
Proof.
  intros (H1 & H2) (H3 & H4) Hr Ht Hl. unfold log_formatter_format_for.
  change (CLOG_MAX_FORMATTED_SIZE =? 0) with false. cbv iota.
  assert (Ef : match FmtText.format_str fc with [] => g_default_format | c :: s => c :: s end = FmtText.format_str fc).
  { by destruct (FmtText.format_str fc). }
  rewrite Ef. unfold format_impl. rewrite H1.
  set (tf := match FmtText.time_format_str fc with [] => default_time_format | c :: s => c :: s end).
  assert (or_default (Some tf) default_time_format = time_format_of (Some (FmtText.time_format_str fc))) as Etf.
  { unfold tf. by destruct (FmtText.time_format_str fc). }
  pose proof (format_json_full (ft_time th) r (Some tf) CLOG_MAX_FORMATTED_SIZE) as HF. cbv zeta in HF.
  rewrite Etf in HF. fold (time_of fc r) in HF. specialize (HF Hr H3).
  destruct (format_json_ex _ _ _ _) as [c' [s ret]].
  destruct HF as (Hc & -> & ->).
  - destruct (FmtText.time_format_str fc); [done|exact H2].
  - done.
  - split; [done|]. by vm_compute.
  - exists (FmtThread c' (ft_fmt th)). split; [by split|done].
Qed.

(** A JSON line does not end in a newline, and is not empty. *)
Lemma json_object_end fs : json_object fs ≠ [] ∧ terminated (json_object fs) = json_object fs ++ [10].
Proof.
  split; [done|]. unfold terminated. rewrite bool_decide_false; [done|].
  unfold json_object. rewrite app_comm_cons, last_snoc. by intros [=].
Qed.

(** One JSON record on the caller's thread. *)
Lemma finish_json tp th c (a : app S) L l' r :
  disp_ok (ap_disp a) L → async (cfg_of a) = false → json_format (formats a) → caches_ok th →
  call_exec (ap_log a) c = Some (l', [r]) → level (cfg_of a) <= r_level r → record_ok r →
  Forall plain (time_of (formats a) r) →
  clen (json_object (record_fields r (time_of (formats a) r))) < CLOG_MAX_FORMATTED_SIZE →
  ∃ th' a', finish_call tp th c a = Some (th', a') ∧ caches_ok th' ∧ ap_log a' = l' ∧
    ∀ p k, p ∈ ptrs (d_sinks (ap_disp a)) → d_store (ap_disp a) !! p = Some k → sk_min_level k <= r_level r →
      ∃ chunks,
        d_store (ap_disp a') !! p = Some (LogSink (sk_min_level k) (sk_color k) (sk_atfork k) (foldl sink_write (sk_state k) chunks)) ∧
        concat chunks = terminated (text_for (cfg_of a) (r_level r) (json_object (record_fields r (time_of (formats a) r))) k).
Proof.
  intros Hd Ha Hf Hth Hc Hlv Hr Ht Hl. unfold finish_call. rewrite Hc. cbn [mbind option_bind].
  destruct (call_config _ _ _ _ Hc) as [Ecfg _].
  set (b := App l' (ap_disp a) (ap_async a) _).
  assert (cfg_of b = cfg_of a ∧ formats b = formats a) as [E1 E2] by (unfold cfg_of, formats, b; cbn [ap_log]; by rewrite Ecfg).
  rewrite E1, E2, Ha. cbn [dispatch_all].
  destruct (format_for_json tp th (formats a) r Hf Hth Hr Ht Hl) as (th' & Hth' & EF).
  set (line := json_object _) in *. destruct (json_object_end (record_fields r (time_of (formats a) r))) as [Hne _].
  destruct (dispatch_chunks tp (cfg_of a) (formats a) th (ap_disp b) r th' r line) as (d' & -> & _ & H').
  - exact (NoDup_sinks _ Hd).
  - intros p Hp. exact (disp_live (ap_disp a) _ p Hd Hp).
  - done.
  - done.
  - exact EF.
  - cbn [mbind option_bind]. eexists _, _. split; [reflexivity|]. split; [done|]. split; [done|].
    intros p k Hp Hk Hm. cbn [fst snd ap_disp Lifecycle.set_disp].
    rewrite (H' p k Hk), decide_True by done. destruct (Z.ltb_spec (r_level r) (sk_min_level k)); [lia|].
    eexists. split; [reflexivity|]. by apply chunks_for_spec.
Qed.

(** A key-value call with no rules and a token, on a logger whose level admits it. *)
Lemma kv_call_exec l m pl lvl msg kvs rl :
  lg_initialized l = true → level (config (lg_config l)) <= lvl → e_rules (m_env m) = [] →
  log_rate_limit_allow_for (lg_rl l) (e_now_ms (m_env m)) = (rl, 0, true) →
  ∃ l', call_exec l (C_kv (redact_of m) (m_env m) lvl (LOG_FILENAME_ONLY pl) (p_LINE pl) (Some (p_func pl)) msg kvs)
        = Some (l', [kv_record l m pl lvl msg kvs]).
Proof.
  intros Hi Hl HR Hrl. cbn [call_exec]. unfold logger_write_kv_internal. rewrite Hi. cbn [negb].
  destruct (Z.ltb_spec lvl (level (config (lg_config l)))); [lia|].
  destruct (count_record_fields l lvl (lg_rl l)) as (_ & _ & _ & _ & _ & ->). rewrite Hrl. cbn [negb].
  change (0 >? 0) with false. cbv iota. unfold redact_of. rewrite HR.
  assert (∀ r, redact_record (m_malloc m) [] (m_rmem m) r = Some r) as -> by reflexivity.
  cbn [mbind option_bind]. rewrite app_nil_l. eexists. do 3 f_equal. unfold kv_record, make_record.
  assert (lg_module (count_record l lvl) = lg_module l ∧ lg_pid (count_record l lvl) = lg_pid l) as [-> ->].
  { unfold count_record. by destruct l. }
  f_equal. rewrite Z.gtb_ltb. destruct (Z.ltb_spec CLOG_MAX_KV (clen kvs)); [done|].
  rewrite !take_ge; [done|unfold clen in *; lia..].
Qed.
End api_proofs.

(** ** Properties *)


(** ** A concrete call *)

Definition json_sys : sys (list cstr) :=
  Sys (λ _, Some (log_document [(B "format", B "json"); (B "color", B "false")]))
      (make test_factories) (λ _, None) true true true true (true, true, true) Start_ok 0 42.

Definition test_place : place := Place (B "src/net/conn.c") 88 (B "on_close").
Definition test_ambient : ambient :=
  Ambient None true fresh_thread (Logger.test_env [] 0) (λ _, true) (RMem [] (λ _, []) ∅ 0).
Definition test_kvs : list clog_kv_t := [CLOG_KV_INT (Some (B "fd")) (2 ^ 64 - 1); CLOG_KV_BOOL (Some (B "tls")) 2;
   CLOG_KV_FLOAT (Some (B "rtt")) (S754_finite false 3 (-1))].

Definition closed_record : log_record_t :=
  LogRecord 0 (Some (B "conn.c")) (Some (B "on_close")) (Some (B "main")) None (Some (B "closed"))
    LOG_LEVEL_WARN 7 42 88 (replicate 16 0) (replicate 8 0) test_kvs false.

Lemma closed_record_finite : finite_floats closed_record.
Proof. unfold finite_floats. cbn. by repeat constructor. Qed.

Lemma closed_record_ok : record_ok closed_record.
Proof.
  unfold record_ok, closed_record.
  cbn [r_timestamp r_module r_file r_func r_tag r_message r_line r_tid r_pid r_trace_id r_span_id r_kv].
  split_and!; try done; try (apply Forall_forall; intros x Hx; apply elem_of_replicate in Hx as [-> _]; done);
    try (apply (bool_decide_unpack _); vm_compute; done).
  repeat (apply Forall_cons_2 || apply Forall_nil_2); split; try (apply (bool_decide_unpack _); vm_compute; done); done.
Qed.

(** The logger once it is up. *)
Lemma json_up :
  ∃ a, log_init json_sys test_app (Some (B "a.yaml")) = Some (a, CLOG_OK) ∧ life (a, []) ∧
    (lg_initialized (ap_log a), async (cfg_of a), log_get_pending_signal (sv_signals (ap_sv a)), level (cfg_of a),
     formats a, rl_enabled (lg_rl (ap_log a)), d_sinks (ap_disp a), d_store (ap_disp a) !! 0%nat,
     kv_record (ap_log a) test_ambient test_place LOG_LEVEL_WARN (Some (B "closed")) test_kvs) =
    (true, false, 0, 2, FmtConfig (B "json") (B "%Y-%m-%d %H:%M:%S"), false, [Some 0%nat],
     Some (LogSink 0 false false (@nil cstr)), closed_record).
Proof.
  destruct (log_init json_sys test_app (Some (B "a.yaml"))) as [[a ret]|] eqn:E.
  2:{ apply (f_equal (λ x, bool_decide (is_Some x))) in E. vm_compute in E. discriminate E. }
  assert (∀ {A} (f : app (list cstr) * Z → A) v,
    f <$> log_init json_sys test_app (Some (B "a.yaml")) = Some v → f (a, ret) = v) as F.
  { intros A f v. rewrite E. cbn [fmap option_fmap option_map]. by intros [= ->]. }
  assert (ret = CLOG_OK) as -> by (apply (F _ snd); vm_compute; reflexivity).
  exists a. split; [reflexivity|]. split.
  - apply (life_step (test_app, []) (I_init json_sys (Some (B "a.yaml")))).
    + apply life_start, test_services_ok.
    + cbn [life_allowed fst]. vm_compute. discriminate.
    + cbn [life_exec]. rewrite E. reflexivity.
  - apply (F _ (λ x, (lg_initialized (ap_log (fst x)), async (cfg_of (fst x)),
      log_get_pending_signal (sv_signals (ap_sv (fst x))), level (cfg_of (fst x)), formats (fst x),
      rl_enabled (lg_rl (ap_log (fst x))), d_sinks (ap_disp (fst x)), d_store (ap_disp (fst x)) !! 0%nat,
      kv_record (ap_log (fst x)) test_ambient test_place LOG_LEVEL_WARN (Some (B "closed")) test_kvs))).
    vm_compute. reflexivity.
Qed.


(** ** Instances *)

(** An instance macro behaves as the macro of the default logger of the same level when no
    signal is pending, and does nothing on NULL. *)
Theorem logger_macros_agree {S} `{!Sink S} `{P : Platform} m pl msg kvs (a : app S) i lvl f g fk gk :
  log_get_pending_signal (sv_signals (ap_sv a)) = 0 →
  log_macros !! i = Some (lvl, f) → logger_macros !! i = Some (lvl, g) →
  kv_macros !! i = Some (lvl, fk) → logger_kv_macros !! i = Some (lvl, gk) →
  g m (Some a) pl = (λ x, (fst x, Some (snd x))) <$> f m pl a ∧
  gk m (Some a) pl msg kvs = (λ x, (fst x, Some (snd x))) <$> fk m pl msg kvs a ∧
  g m None pl = Some (m_thread m, None) ∧ gk m None pl msg kvs = Some (m_thread m, None).
Proof.
  intros Hs H1 H2 H3 H4.
  assert (∀ tp w th c, instance_call tp th c (Some a) = (λ x, (fst x, Some (snd x))) <$> log_call tp w th c a) as HI.
  { intros tp w th c. unfold instance_call, log_call, check_signals. rewrite Hs. cbn [Z.eqb].
    destruct (lg_initialized (ap_log a)); cbn [negb mbind option_bind]; [|done]. by destruct (finish_call tp th c a). }
  do 6 (destruct i as [|i]; [injection H1 as <- <-; injection H2 as <-; injection H3 as <-; injection H4 as <-;
    split_and!; [apply HI|apply HI|done|done]|]). done.
Qed.

(** ** Severity is no guarantee

    An ERROR below the logger's level is filtered, and a FATAL record is left out when the
    rate limiter has no token or the queue is full. *)
Example severity_no_exemption :
  let fatal ms ans := C_printf (WriteEnv (Some (B "down")) ms ms 7 trace_init [] (λ _, ans)) LOG_LEVEL_FATAL None 1 None in
  let at_fatal := test_logger{{ lg_config := ConfigOwner ((config_defaults config_zero){{ level := LOG_LEVEL_FATAL }}) [] [] [] }} in
  let queued := test_logger{{ lg_config := ConfigOwner ((config_defaults config_zero){{ async := true }}) [] [] [] }} in
  snd <$> call_exec at_fatal (C_printf (Logger.test_env (B "bad") 0) LOG_LEVEL_ERROR None 1 None) = Some [] ∧
  (λ x, map length (snd x)) <$> write_run test_logger (replicate 6 0) [fatal 0 0; fatal 1 0] = Some [1; 0]%nat ∧
  (λ x, lg_dropped (fst (fst x))) <$> write_run queued (replicate 6 0) [fatal 0 (-1)] = Some 1.
Proof. vm_compute. split_and!; reflexivity. Qed.
