(* ===== verification/AsyncWorker.v ===== *)
(** * Asynchronous delivery (core/async.c over core/queue.c and core/dispatcher.c)

    Producers in [log_async_write_for], the worker thread, threads in
    [log_async_flush_for] and a closing thread, over the queue of Queue.v and
    QueueDrain.v, one shared access at a time, with the real dispatcher at the end:
    the records go through the formatter, with the caches of the thread that
    dispatches, to the sinks. A dispatch and a flush of the sinks hold the dispatcher's
    mutex and are one step each. How the strings of a record survive the trip is
    RecordMem.v. *)
From S2P Require Import Prelude Record Config FmtTime FmtJson FmtText Queue QueueDrain Dispatcher Session Pipeline.

Local Open Scope Z_scope.

Definition ASYNC_BATCH_SIZE : Z := 64.

(** ** The system *)

(** Where the worker is. [V_get] remembers how much the queue had handed out when the
    batch call began; a batch entry is [None] for a tombstone. *)
Inductive worker_pc :=
  | V_top                                                    (* calls wait_for_items *)
  | V_wait                                                   (* in wait_for_items *)
  | V_get (mark : nat)                                       (* in get_batch_try *)
  | V_loop (batch : list (option log_record_t)) (count : nat)
  | V_clear                                                  (* async_processing = 0 *)
  | V_exit.

(** A caller of [log_async_write_for]: in [mpsc_queue_try_put], or about to dispatch
    the record itself and to return [ret]. *)
Inductive call_pc := L_idle | L_put (r : log_record_t) | L_dispatch (r : log_record_t) (ret : Z).

(** A caller of [log_async_flush_for]; [mark], ghost, is the [head] of the queue when
    it called. *)
Inductive flush_pc := F_idle | F_wait | F_poll (mark : Z) | F_flush (mark : Z) | F_done (mark : Z).

Section system.
Context {S : Type} `{!Sink S} `{P : Platform}.

(** [f_trace], [f_written] and [f_rets] are ghost: the records dispatched, with
    whether it was by the worker; the records passed to [log_async_write_for]; and
    what it returned. *)
Record fsys := FSys {
  f_d : dsys log_record_t;
  f_worker : worker_pc;
  f_processing : bool;
  f_wth : fmt_thread;
  f_calls : list (call_pc * fmt_thread);
  f_flush : list flush_pc;
  f_disp : dispatcher S;
  f_trace : list (bool * log_record_t);
  f_written : list log_record_t;
  f_rets : list (log_record_t * Z)
}.

(** Field updates. *)
Definition to_d (s : fsys) (x : dsys log_record_t) : fsys :=
  FSys x (f_worker s) (f_processing s) (f_wth s) (f_calls s) (f_flush s) (f_disp s) (f_trace s) (f_written s) (f_rets s).
Definition to_worker (s : fsys) (x : worker_pc) : fsys :=
  FSys (f_d s) x (f_processing s) (f_wth s) (f_calls s) (f_flush s) (f_disp s) (f_trace s) (f_written s) (f_rets s).
Definition to_processing (s : fsys) (x : bool) : fsys :=
  FSys (f_d s) (f_worker s) x (f_wth s) (f_calls s) (f_flush s) (f_disp s) (f_trace s) (f_written s) (f_rets s).
Definition to_wth (s : fsys) (x : fmt_thread) : fsys :=
  FSys (f_d s) (f_worker s) (f_processing s) x (f_calls s) (f_flush s) (f_disp s) (f_trace s) (f_written s) (f_rets s).
Definition to_calls (s : fsys) (x : list (call_pc * fmt_thread)) : fsys :=
  FSys (f_d s) (f_worker s) (f_processing s) (f_wth s) x (f_flush s) (f_disp s) (f_trace s) (f_written s) (f_rets s).
Definition to_flush (s : fsys) (x : list flush_pc) : fsys :=
  FSys (f_d s) (f_worker s) (f_processing s) (f_wth s) (f_calls s) x (f_disp s) (f_trace s) (f_written s) (f_rets s).
Definition to_disp (s : fsys) (x : dispatcher S) : fsys :=
  FSys (f_d s) (f_worker s) (f_processing s) (f_wth s) (f_calls s) (f_flush s) x (f_trace s) (f_written s) (f_rets s).
Definition to_trace (s : fsys) (x : list (bool * log_record_t)) : fsys :=
  FSys (f_d s) (f_worker s) (f_processing s) (f_wth s) (f_calls s) (f_flush s) (f_disp s) x (f_written s) (f_rets s).
Definition to_written (s : fsys) (x : list log_record_t) : fsys :=
  FSys (f_d s) (f_worker s) (f_processing s) (f_wth s) (f_calls s) (f_flush s) (f_disp s) (f_trace s) x (f_rets s).
Definition to_rets (s : fsys) (x : list (log_record_t * Z)) : fsys :=
  FSys (f_d s) (f_worker s) (f_processing s) (f_wth s) (f_calls s) (f_flush s) (f_disp s) (f_trace s) (f_written s) x.

(** A queue for [p] producers and [m] flushing threads over registered sinks. *)
Definition f_init (cap : Z) (p m : nat) (th : fmt_thread) (d : dispatcher S) : fsys :=
  FSys (d_init cap p m) V_top false th (replicate p (L_idle, th)) (replicate m F_idle) d [] [] [].

Context (tp : option cstr) (cfg : log_config_t) (fc : fmt_config).

(** The queue makes one access. *)
Definition on_queue (s : fsys) (a : daction log_record_t) : option fsys :=
  d ← dexec (f_d s) a; Some (to_d s (d)).

(** [log_dispatcher_dispatch_for]; what it returns is ignored. *)
Definition dispatch (s : fsys) (worker : bool) (th : fmt_thread) (r : log_record_t) : option (fmt_thread * fsys) :=
  '(th, _, d, _) ← log_dispatcher_dispatch_for tp cfg fc th (f_disp s) r;
  Some (th, (to_trace (to_disp s (d)) (f_trace s ++ [(worker, r)]))).

Definition flush_sinks (s : fsys) : option fsys :=
  d ← log_dispatcher_flush_for (f_disp s); Some (to_disp s (d)).

(** [log_async_write_for] begins; [clone_ok] is whether [log_record_clone] had memory. *)
Definition log_async_write_for (s : fsys) (i : nat) (r : log_record_t) (clone_ok : bool) : option fsys :=
  match f_calls s !! i with
  | Some (L_idle, th) =>
      let s := to_written s (f_written s ++ [r]) in
      if clone_ok then
        s ← on_queue s (Q (StartPut i (Op r false)));
        Some (to_calls s (<[i := (L_put r, th)]> (f_calls s)))
      else Some (to_calls s (<[i := (L_dispatch r CLOG_ERR_OOM, th)]> (f_calls s)))
  | _ => None
  end.

(** Its next step: in the queue until [try_put] returns, then the fallback. *)
Definition async_write_step (s : fsys) (i : nat) : option fsys :=
  match f_calls s !! i with
  | Some (L_put r, th) =>
      s' ← on_queue s (Q (Prod i));
      match q_prods (d_q (f_d s)) !! i with
      | Some (P_ret _ ret) =>
          if ret =? 0
          then Some (to_rets (to_calls s' (<[i := (L_idle, th)]> (f_calls s'))) (f_rets s' ++ [(r, CLOG_OK)]))
          else Some (to_calls s' (<[i := (L_dispatch r CLOG_ERR_QUEUE_FULL, th)]> (f_calls s')))
      | _ => Some s'
      end
  | Some (L_dispatch r ret, th) =>
      '(th, s') ← dispatch s false th r;
      Some (to_rets (to_calls s' (<[i := (L_idle, th)]> (f_calls s'))) (f_rets s' ++ [(r, ret)]))
  | _ => None
  end.

(** The weak compare-and-swap that wakes the worker fails. *)
Definition async_weak (s : fsys) (i : nat) : option fsys :=
  match f_calls s !! i with Some (L_put _, _) => on_queue s (Q (Weak i)) | _ => None end.

Definition async_worker_for (s : fsys) : option fsys :=
  match f_worker s with
  | V_top => s ← on_queue s (Q StartWait); Some (to_worker s V_wait)
  | V_wait =>
      match q_cons (d_q (f_d s)) with
      | C_batch_head => Some (to_worker (to_processing s true) (V_get (length (q_out (d_q (f_d s))))))
      | C_finished => Some (to_worker s V_exit)
      | _ => on_queue s (Q (Cons ASYNC_BATCH_SIZE))
      end
  | V_get mark =>
      match q_cons (d_q (f_d s)) with
      | C_idle => let batch := drop mark (q_out (d_q (f_d s))) in Some (to_worker s (V_loop batch (length batch)))
      | _ => on_queue s (Q (Cons ASYNC_BATCH_SIZE))
      end
  | V_loop (None :: batch) count => Some (to_worker s (V_loop batch count))
  | V_loop (Some r :: batch) count =>
      '(th, s) ← dispatch s true (f_wth s) r;
      Some (to_worker (to_wth s th) (V_loop batch count))
  | V_loop [] count =>
      s ← (if (0 <? count)%nat then flush_sinks s else Some s);
      Some (to_worker s V_clear)
  | V_clear => Some (to_worker (to_processing s false) V_top)
  | V_exit => None
  end.

Definition log_async_flush_for (s : fsys) (i : nat) : option fsys :=
  match f_flush s !! i with
  | Some F_idle | Some (F_done _) => s ← on_queue s (WaitEmpty i); Some (to_flush s (<[i := F_wait]> (f_flush s)))
  | Some F_wait =>
      match d_waiters (f_d s) !! i with
      | Some (E_done mark) => Some (to_flush s (<[i := F_poll mark]> (f_flush s)))
      | _ => on_queue s (Waiter i)
      end
  | Some (F_poll mark) =>
      if f_processing s then Some s else Some (to_flush s (<[i := F_flush mark]> (f_flush s)))
  | Some (F_flush mark) => s ← flush_sinks s; Some (to_flush s (<[i := F_done mark]> (f_flush s)))
  | None => None
  end.

Definition log_async_get_queue_depth_for (s : fsys) : Z := usub (q_head (d_q (f_d s))) (q_tail (d_q (f_d s))).

Inductive faction :=
  | A_write (i : nat) (r : log_record_t) (clone_ok : bool) | A_step (i : nat) | A_weak (i : nat)
  | A_worker | A_flush (i : nat) | A_spurious (i : nat) | A_start_close | A_close.

Definition fexec (s : fsys) (a : faction) : option fsys :=
  match a with
  | A_write i r clone_ok => log_async_write_for s i r clone_ok
  | A_step i => async_write_step s i
  | A_weak i => async_weak s i
  | A_worker => async_worker_for s
  | A_flush i => log_async_flush_for s i
  | A_spurious i => on_queue s (Spurious i)
  | A_start_close => on_queue s (Q StartClose)
  | A_close => on_queue s (Q Close)
  end.

Inductive fsteps : nat → fsys → fsys → Prop :=
  | fsteps_O s : fsteps O s s
  | fsteps_S n s s1 s2 a : fsteps n s s1 → fexec s1 a = Some s2 → fsteps (Datatypes.S n) s s2.

End system.

Arguments fsys : clear implicits.

(** ** What the queue's steps do to the worker's view *)

Section queue_frames.
Context {A : Type}.
Implicit Types (q : qstate A).

(** The consumer's states inside [mpsc_queue_wait_for_items], and inside
    [mpsc_queue_get_batch_try]. *)
Definition waiting (c : cpc A) : Prop :=
  match c with
  | C_head1 | C_tail1 _ | C_closed1 | C_park | C_head2 | C_tail2 _ | C_closed2 | C_sem
  | C_unpark_loop | C_unpark_ok | C_unpark_closed | C_finished | C_batch_head => True
  | _ => False
  end.
Definition batching (c : cpc A) : Prop :=
  match c with
  | C_idle | C_batch_head | C_batch_tail _ | C_seq _ _ _ | C_copy _ _ _ | C_store _ _
  | C_slots _ | C_rem_head | C_rem_tail _ | C_drain => True
  | _ => False
  end.

Lemma cons_step_waiting m q q' :
  waiting (q_cons q) → q_cons q ≠ C_batch_head → cons_step m q = Some q' →
  waiting (q_cons q') ∧ q_out q' = q_out q.
Proof. unfold cons_step. intros Hw Hb H. repeat case_match; simplify_eq; cbn in *; by repeat case_match. Qed.

Lemma cons_step_batching m q q' :
  batching (q_cons q) → cons_step m q = Some q' →
  batching (q_cons q') ∧ q_out q `prefix_of` q_out q'.
Proof.
  unfold cons_step. intros Hw H. repeat case_match; simplify_eq; cbn in *; try (split; [by repeat case_match|done]).
  all: split; [done|by apply prefix_app_r].
Qed.

(** The operation a producer is in, inside a non-blocking put. *)
Definition op_of (p : ppc A) : option (op A) :=
  match p with
  | P_idle | P_put_closed _ | P_put_wait _ => None
  | P_closed o | P_tail o | P_head o _ | P_claim o | P_recheck o _ | P_spin o _ _ _ | P_tomb o _ | P_write o _
  | P_publish o _ _ | P_signal o _ | P_post o _ | P_ret o _ => Some o
  end.

Lemma prod_step_op q i p q' r :
  op_of p = Some (Op r false) → prod_step q i p = Some q' →
  q_out q' = q_out q ∧ q_cons q' = q_cons q ∧
  ∃ p', q_prods q' = <[i := p']> (q_prods q) ∧
    match p with
    | P_ret _ ret => p' = P_idle ∧ q_rets q' = q_rets q ++ [(r, ret)]
    | _ => op_of p' = Some (Op r false) ∧ q_rets q' = q_rets q
    end.
Proof.
  intros Ho H. destruct p; cbn in Ho; simplify_eq; cbn in H; rewrite ?andb_false_r in H; repeat case_match; simplify_eq;
    (split; [done|]; split; [done|]; eexists; split; [reflexivity|]; done).
Qed.

Lemma weak_op q i q' r :
  (∀ p, q_prods q !! i = Some p → op_of p = Some (Op r false)) → exec q (Weak i) = Some q' →
  q_out q' = q_out q ∧ q_cons q' = q_cons q ∧ q_rets q' = q_rets q ∧
  ∃ p', q_prods q' = <[i := p']> (q_prods q) ∧ op_of p' = Some (Op r false).
Proof.
  intros Ho H. cbn in H. destruct (q_prods q !! i) as [p|] eqn:E; [|done]. pose proof (Ho p eq_refl) as Hp.
  destruct p; simplify_eq. cbn in *. simplify_eq. eauto 10.
Qed.

Lemma close_step_out q q' : close_step q = Some q' → q_out q' = q_out q.
Proof. unfold close_step. intros H. repeat case_match; simplify_eq; done. Qed.

(** An access of the queue below the layer of waiters. *)
Lemma dexec_queue (d d' : dsys A) a :
  dexec d (Q a) = Some d' → d_dead d = false →
  exec (d_q d) a = Some (d_q d') ∧ d_destroy d' = d_destroy d ∧ d_call d' = d_call d ∧ d_dead d' = d_dead d.
Proof.
  cbn [dexec]. intros H Hd. rewrite Hd in H. unfold queue_access in H. repeat case_match; try done;
    apply bind_Some in H as (q & Hq & [= <-]);
    cbn [broadcast put_q d_q d_destroy d_call d_dead]; split_and!; done.
Qed.

(** A step of a thread in [wait_empty]. *)
Lemma dexec_waiter (d d' : dsys A) a :
  match a with Waiter _ | WaitEmpty _ | Spurious _ => True | _ => False end →
  dexec d a = Some d' → d_dead d = false →
  d_q d' = d_q d ∧ d_destroy d' = d_destroy d ∧ d_call d' = d_call d ∧ d_dead d' = d_dead d.
Proof.
  intros Ha H Hd. destruct a; try done; cbn in H; rewrite ?Hd in H.
  - repeat case_match; simplify_eq; done.
  - apply bind_Some in H as (w & _ & H). apply bind_Some in H as (d1 & H & [= <-]).
    unfold mpsc_queue_wait_empty in H. repeat case_match; simplify_eq; done.
  - repeat case_match; simplify_eq; done.
Qed.

(** The mark of a thread in [wait_empty] stays until it calls again. *)
Definition mark_of (w : wpc) : option Z :=
  match w with
  | E_idle => None
  | E_lock m | E_head m | E_tail m _ | E_sleep m | E_wake m | E_unlock m | E_done m => Some m
  end.

Lemma mark_insert (l : list wpc) i j w w' m :
  l !! i = Some w → mark_of w = Some m → (∀ v, l !! j = Some v → mark_of w' = mark_of v) →
  ∃ v, <[j := w']> l !! i = Some v ∧ mark_of v = Some m.
Proof.
  intros Hi Hm Hj. destruct (decide (j = i)) as [->|Hne].
  - exists w'. rewrite list_lookup_insert_eq by (by eapply lookup_lt_Some). by rewrite (Hj w Hi).
  - exists w. by rewrite list_lookup_insert_ne.
Qed.

Lemma dexec_mark (e e' : dsys A) a i w m :
  dexec e a = Some e' → d_dead e = false →
  match a with Q _ | Waiter _ | Spurious _ => True | WaitEmpty j => j ≠ i | _ => False end →
  d_waiters e !! i = Some w → mark_of w = Some m → ∃ v, d_waiters e' !! i = Some v ∧ mark_of v = Some m.
Proof.
  intros H Hd Ha Hi Hm. destruct a as [b|j|j|j|x| | |]; try done; cbn [dexec] in H; rewrite ?Hd in H.
  - unfold queue_access in H. repeat case_match; try done; apply bind_Some in H as (q & _ & [= <-]); cbn; [|by eauto].
    exists (wake w). rewrite list_lookup_fmap, Hi. split; [done|]. by destruct w.
  - exists w. split; [|done]. repeat case_match; simplify_eq; cbn; by rewrite list_lookup_insert_ne.
  - apply bind_Some in H as (v & Hv & H). apply bind_Some in H as (e1 & H & [= <-]).
    unfold mpsc_queue_wait_empty in H. repeat case_match; simplify_eq; cbn; eapply mark_insert; try done; intros x Hx; simplify_eq; done.
  - destruct (d_waiters e !! j) as [v|] eqn:Hv; [|done]. destruct v; simplify_eq. cbn. eapply mark_insert; try done.
    intros x Hx. simplify_eq. done.
Qed.
End queue_frames.

(** ** Invariant *)

Section invariant.
Context {S : Type} `{!Sink S} `{P : Platform} `{!PlatformOk P}.
Context (tp : option cstr) (cfg : log_config_t) (fc : fmt_config).
Implicit Types (s : fsys S) (d : dispatcher S).

Definition by_worker (x : bool * log_record_t) : option log_record_t := if x.1 then Some x.2 else None.
Definition by_caller (x : bool * log_record_t) : option log_record_t := if x.1 then None else Some x.2.

(** The record of a call that has not returned. *)
Definition pending (c : call_pc * fmt_thread) : option log_record_t :=
  match c.1 with L_idle => None | L_put r | L_dispatch r _ => Some r end.

Definition busy (w : worker_pc) : bool :=
  match w with V_get _ | V_loop _ _ | V_clear => true | _ => false end.

(** Where the worker is in its code, the queue's consumer is in its own. *)
Definition worker_at (w : worker_pc) (c : cpc log_record_t) : Prop :=
  match w with
  | V_top | V_loop _ _ | V_clear => c = C_idle
  | V_wait => waiting c
  | V_get _ => batching c
  | V_exit => c = C_finished
  end.

(** What the queue has handed out is what the worker has dispatched and what is left
    of its batch. *)
Definition worker_out (w : worker_pc) (out : list (option log_record_t)) (trace : list log_record_t) : Prop :=
  match w with
  | V_get mark => (mark ≤ length out)%nat ∧ omap id (take mark out) = trace
  | V_loop batch _ => omap id out = trace ++ omap id batch
  | _ => omap id out = trace
  end.

Definition call_ok (c : call_pc * fmt_thread) (p : ppc log_record_t) : Prop :=
  caches_ok c.2 ∧
  match c.1 with
  | L_idle => p = P_idle
  | L_put r => op_of p = Some (Op r false)
  | L_dispatch _ ret => p = P_idle ∧ ret ≠ 0
  end.

Definition flush_ok (out : list (option log_record_t)) (trace : list log_record_t) (f : flush_pc) : Prop :=
  match f with
  | F_idle | F_wait => True
  | F_poll m => m <= clen out
  | F_flush m | F_done m => m <= clen out ∧ omap id (take (Z.to_nat m) out) `prefix_of` trace
  end.

(** The calls a sink received: chunks written, and flushes. *)
Definition sink_op (x : S) (o : option cstr) : S := match o with Some c => sink_write x c | None => sink_flush x end.

(** Every sink of [d0] has been given the lines of [rs] it is due. *)
Definition fed (d0 d : dispatcher S) (rs : list log_record_t) : Prop :=
  d_sinks d = d_sinks d0 ∧
  ∀ p k, d_store d0 !! p = Some k → ∃ ops,
    d_store d !! p = Some (LogSink (sk_min_level k) (sk_color k) (sk_atfork k) (foldl sink_op (sk_state k) ops)) ∧
    concat (omap id ops) = (if decide (p ∈ ptrs (d_sinks d0)) then due tp cfg fc k rs else []).

Context (d0 : dispatcher S) (k : Z) (np nm : nat).
Context (Hnd : NoDup (ptrs (d_sinks d0))) (Hlive : ∀ p, p ∈ ptrs (d_sinks d0) → is_Some (d_store d0 !! p)).
Context (Hfc : format_fits fc) (Hk : 0 <= k <= 62).

Lemma due_app x rs rs' : due (S := S) tp cfg fc x (rs ++ rs') = due tp cfg fc x rs ++ due tp cfg fc x rs'.
Proof. unfold due. by rewrite omap_app, concat_app. Qed.

Lemma fed_live d rs : fed d0 d rs →
  NoDup (ptrs (d_sinks d)) ∧ (∀ p, p ∈ ptrs (d_sinks d) → is_Some (d_store d !! p)).
Proof.
  intros [-> H]. split; [done|]. intros p Hp. destruct (Hlive p Hp) as [x Hx]. destruct (H p x Hx) as (ops & -> & _). eauto.
Qed.

Lemma foldl_writes x (chunks : list cstr) : foldl sink_op x (map Some chunks) = foldl sink_write x chunks.
Proof. revert x. induction chunks as [|c l IH]; intros x; [done|]. apply IH. Qed.

Lemma fed_dispatch d rs th r :
  fed d0 d rs → caches_ok th → record_ok r →
  ∃ th' r' d' ret, log_dispatcher_dispatch_for tp cfg fc th d r = Some (th', r', d', ret) ∧
    caches_ok th' ∧ fed d0 d' (rs ++ [r]).
Proof.
  intros Hfed Hth Hr. destruct (fed_live _ _ Hfed) as [H1 H2]. destruct Hfed as [Es Hf].
  destruct (dispatch_rendered tp cfg fc th d r Hfc Hth Hr H1 H2) as (th' & r' & d' & ret & E & Hth' & Es' & H).
  exists th', r', d', ret. split; [done|]. split; [done|]. split; [by rewrite Es', Es|]. intros p x Hx.
  destruct (Hf p x Hx) as (ops & Ho & Hc). destruct (H p _ Ho) as (chunks & Ho' & Hc').
  exists (ops ++ map Some chunks). cbn [sk_min_level sk_color sk_atfork sk_state] in *. rewrite foldl_app, foldl_writes.
  split; [exact Ho'|]. rewrite omap_app, concat_app, Hc.
  assert (omap id (map Some chunks) = chunks) as -> by (clear; induction chunks as [|? ? IH]; cbn; [done|by f_equal]).
  rewrite Hc', Es. destruct (decide _); [|done]. by rewrite due_app.
Qed.

Lemma fed_flush d rs : fed d0 d rs → ∃ d', log_dispatcher_flush_for d = Some d' ∧ fed d0 d' rs.
Proof.
  intros Hfed. destruct (fed_live _ _ Hfed) as [H1 H2]. destruct Hfed as [Es Hf]. unfold log_dispatcher_flush_for.
  edestruct (for_each_map (λ m p, sink_call m p sink_flush)
    (λ x, LogSink (sk_min_level x) (sk_color x) (sk_atfork x) (sink_flush (sk_state x))) (d_sinks d) (d_store d))
    as (m & -> & Hm); [|done|done|].
  { intros m p x Hx. unfold sink_call. by rewrite Hx. }
  cbn [mbind option_bind]. eexists. split; [reflexivity|]. split; [done|]. intros p x Hx.
  destruct (Hf p x Hx) as (ops & Ho & Hc). cbn [with_store d_store]. rewrite Hm, Ho, Es. destruct (decide _).
  - exists (ops ++ [None]). cbn [fmap option_fmap option_map sk_min_level sk_color sk_atfork sk_state].
    rewrite foldl_app, omap_app. split; [done|]. cbn [omap list_omap id]. by rewrite app_nil_r.
  - by exists ops.
Qed.

Record finv (n : nat) s : Prop := {
  v_steps : ∃ m, (m ≤ n)%nat ∧ dsteps m (d_init (2 ^ k) np nm) (f_d s);
  v_alive : d_destroy (f_d s) = X_idle ∧ d_call (f_d s) = None ∧ d_dead (f_d s) = false;
  v_cons : worker_at (f_worker s) (q_cons (d_q (f_d s)));
  v_out : worker_out (f_worker s) (q_out (d_q (f_d s))) (omap by_worker (f_trace s));
  v_busy : f_processing s = busy (f_worker s);
  v_calls : Forall2 call_ok (f_calls s) (q_prods (d_q (f_d s)));
  v_rets : omap accepted_ret (f_rets s) = omap accepted_ret (q_rets (d_q (f_d s)));
  v_perm : f_written s ≡ₚ
    omap accepted_ret (q_rets (d_q (f_d s))) ++ omap pending (f_calls s) ++ omap by_caller (f_trace s);
  v_flush : ∀ i f, f_flush s !! i = Some f → flush_ok (q_out (d_q (f_d s))) (omap by_worker (f_trace s)) f;
  v_disp : fed d0 (f_disp s) (f_trace s).*2;
  v_wth : caches_ok (f_wth s)
}.

Lemma finv_init th : caches_ok th → finv 0 (f_init (2 ^ k) np nm th d0).
Proof.
  intros Hth. split; cbn.
  - exists 0%nat. split; [lia|constructor].
  - done.
  - done.
  - done.
  - done.
  - apply Forall2_replicate. by split.
  - done.
  - clear. induction np as [|n IH]; [done|exact IH].
  - intros i f [-> _]%lookup_replicate_1. done.
  - split; [done|]. intros p x Hx. exists []. split; [by destruct x|]. by destruct (decide _).
  - done.
Qed.

Lemma finv_below n s : finv n s → Z.of_nat n <= 2 ^ 62 →
  dinv (f_d s) ∧ inv2 (d_q (f_d s)) ∧ clen (q_out (d_q (f_d s))) = q_tail (d_q (f_d s)) ∧
  (∀ j c, q_out (d_q (f_d s)) !! j = Some c → q_log (d_q (f_d s)) !! Z.of_nat j = Some c).
Proof.
  intros [(m & Hm & Hs) (Hd & _ & _) _ _ _ _ _ _ _ _ _] Hn. split; [eapply dinv_steps; [done|done|lia|done]|].
  destruct (dsteps_below _ _ _ _ _ Hs Hd) as (_ & m' & Hm' & Hq). split; [eapply inv2_steps; [done|done|lia]|].
  apply (i_out _ _ (inv_steps _ _ _ _ Hk Hq ltac:(lia))).
Qed.

Lemma call_pending s i c p : Forall2 call_ok (f_calls s) (q_prods (d_q (f_d s))) →
  f_calls s !! i = Some c → q_prods (d_q (f_d s)) !! i = Some p → call_ok c p.
Proof. intros H H1 H2. exact (Forall2_lookup_lr _ _ _ _ _ _ H H1 H2). Qed.

(** A record the queue hands out was passed to a write. *)
Lemma out_written n s r : finv n s → Z.of_nat n <= 2 ^ 62 → Some r ∈ q_out (d_q (f_d s)) → r ∈ f_written s.
Proof.
  intros Hf Hn [j Hj]%list_elem_of_lookup. destruct (finv_below n s Hf Hn) as (_ & [_ Hperm _] & _ & Ho).
  destruct Hf as [_ _ _ _ _ Hc _ Hp _ _ _]. rewrite Hp.
  assert (r ∈ log_records (d_q (f_d s))) as Hin.
  { unfold log_records. apply list_elem_of_omap. exists (Z.of_nat j, Some r). split; [|done].
    apply elem_of_map_to_list. by apply Ho. }
  rewrite Hperm in Hin. apply elem_of_app in Hin as [Hin|Hin]; [apply elem_of_app; by left|].
  apply elem_of_app. right. apply elem_of_app. left. apply list_elem_of_omap in Hin as (p & [i Hi]%list_elem_of_lookup & Hr).
  destruct (Forall2_lookup_r _ _ _ _ _ Hc Hi) as ([c th] & Hc1 & _ & Hc2). apply list_elem_of_omap. exists (c, th).
  split; [apply list_elem_of_lookup; by exists i|]. unfold pending. cbn [fst snd] in *.
  destruct c as [|r'|r' ret]; [by subst| |by destruct Hc2; subst].
  destruct p; cbn in Hr, Hc2; simplify_eq; unfold accepted_ret in Hr; cbn in Hr; by case_match; simplify_eq.
Qed.

(** The queue below moves without touching what the layer looks at. *)
Definition quiet (q q' : qstate log_record_t) : Prop :=
  q_out q' = q_out q ∧ q_cons q' = q_cons q ∧ q_prods q' = q_prods q ∧ q_rets q' = q_rets q.

Lemma finv_quiet n s a (d' : dsys log_record_t) :
  finv n s → dexec (f_d s) a = Some d' → quiet (d_q (f_d s)) (d_q d') →
  d_destroy d' = d_destroy (f_d s) ∧ d_call d' = d_call (f_d s) ∧ d_dead d' = d_dead (f_d s) →
  finv (Datatypes.S n) (to_d s d').
Proof.
  intros [(m & Hm & Hs) (A1 & A2 & A3) H3 H4 H5 H6 H7 H8 H9 H10 H11] Hex (Q1 & Q2 & Q3 & Q4) (B1 & B2 & B3).
  split; cbn; rewrite ?Q1, ?Q2, ?Q3, ?Q4, ?B1, ?B2, ?B3; try done.
  exists (Datatypes.S m). split; [lia|]. by econstructor.
Qed.

Lemma finv_waiter n s a (d' : dsys log_record_t) :
  finv n s → dexec (f_d s) a = Some d' →
  match a with Waiter _ | WaitEmpty _ | Spurious _ => True | _ => False end → finv (Datatypes.S n) (to_d s d').
Proof.
  intros Hf Hex Ha. destruct (dexec_waiter _ _ _ Ha Hex (proj2 (proj2 (v_alive _ _ Hf)))) as (E & ? & ? & ?).
  eapply finv_quiet; [done|done|by rewrite E|done].
Qed.

Lemma finv_close n s a (d' : dsys log_record_t) :
  finv n s → dexec (f_d s) (Q a) = Some d' →
  match a with Close | StartClose => True | _ => False end → finv (Datatypes.S n) (to_d s d').
Proof.
  intros Hf Hex Ha. destruct (dexec_queue _ _ _ Hex (proj2 (proj2 (v_alive _ _ Hf)))) as (E & ? & ? & ?).
  eapply finv_quiet; [done|done| |done]. destruct a; try done; cbn in E.
  - destruct (close_step_frame _ _ E) as (? & ? & ? & ? & ? & ? & _). pose proof (close_step_out _ _ E). by split_and!.
  - destruct (q_closer _); try done. injection E as <-. done.
Qed.

(** A flushing thread moves on. *)
Lemma finv_flush n s i f :
  finv n s → flush_ok (q_out (d_q (f_d s))) (omap by_worker (f_trace s)) f →
  finv n (to_flush s (<[i := f]> (f_flush s))).
Proof.
  intros [H1 H2 H3 H4 H5 H6 H7 H8 H9 H10 H11] Hok. split; cbn; try done.
  intros j g Hj. destruct (decide (i = j)) as [->|]; [|rewrite list_lookup_insert_ne in Hj by done; eauto].
  apply list_lookup_insert_Some in Hj as [(_ & -> & _)|[? _]]; done.
Qed.

Lemma finv_weaken n m s : finv n s → (n ≤ m)%nat → finv m s.
Proof. intros [(x & ? & ?) H2 H3 H4 H5 H6 H7 H8 H9 H10 H11] Hm. split; try done. exists x. split; [lia|done]. Qed.

(** A caller of the write moves on: its call, the queue's view of it, and what was
    written and returned. *)
Lemma finv_call n s i c c' (d' : dsys log_record_t) p' w written rets :
  finv n s → f_calls s !! i = Some c → call_ok c' p' →
  (∃ m, (m ≤ Datatypes.S n)%nat ∧ dsteps m (d_init (2 ^ k) np nm) d') →
  d_destroy d' = d_destroy (f_d s) ∧ d_call d' = d_call (f_d s) ∧ d_dead d' = d_dead (f_d s) →
  q_out (d_q d') = q_out (d_q (f_d s)) → q_cons (d_q d') = q_cons (d_q (f_d s)) →
  q_prods (d_q d') = <[i := p']> (q_prods (d_q (f_d s))) →
  omap accepted_ret rets = omap accepted_ret (q_rets (d_q d')) →
  written = f_written s ++ w →
  omap accepted_ret (q_rets (d_q d')) ++ option_list (pending c') ≡ₚ
    omap accepted_ret (q_rets (d_q (f_d s))) ++ option_list (pending c) ++ w →
  finv (Datatypes.S n) (FSys d' (f_worker s) (f_processing s) (f_wth s) (<[i := c']> (f_calls s)) (f_flush s)
    (f_disp s) (f_trace s) written rets).
Proof.
  intros [H1 (A1 & A2 & A3) H3 H4 H5 H6 H7 H8 H9 H10 H11] Hi Hc Hsteps (B1 & B2 & B3) Q1 Q2 Q3 Hr -> Hp.
  split; cbn; rewrite ?Q1, ?Q2, ?Q3, ?B1, ?B2, ?B3; try done.
  - by apply Forall2_insert.
  - rewrite H8. pose proof (omap_insert pending (f_calls s) i c c' Hi) as Ho.
    apply (Permutation_app_inv_r (option_list (pending c) ++ option_list (pending c'))).
    transitivity ((omap accepted_ret (q_rets (d_q (f_d s))) ++ option_list (pending c) ++ w) ++
      (omap pending (f_calls s) ++ option_list (pending c')) ++ omap by_caller (f_trace s)).
    { solve_Permutation. }
    rewrite <- Hp, <- Ho. solve_Permutation.
Qed.

(** The caller's own thread dispatches. *)
Lemma finv_direct n s i r ret th s' th' :
  finv n s → record_ok r → f_calls s !! i = Some (L_dispatch r ret, th) →
  dispatch tp cfg fc s false th r = Some (th', s') →
  finv (Datatypes.S n) (to_rets (to_calls s' (<[i := (L_idle, th')]> (f_calls s'))) (f_rets s' ++ [(r, ret)])).
Proof.
  intros Hf Hr Hi Hd. pose proof Hf as [(m & Hm & H1) H2 H3 H4 H5 H6 H7 H8 H9 H10 H11].
  destruct (Forall2_lookup_l _ _ _ _ _ H6 Hi) as (p & Hp & Hth & -> & Hret). cbn in Hth.
  assert (accepted_ret (r, ret) = None) as Ha by (unfold accepted_ret; cbn; by rewrite (proj2 (Z.eqb_neq _ _) Hret)).
  destruct (fed_dispatch (f_disp s) _ th r H10 Hth Hr) as (th1 & r1 & d1 & rc & E & Hth1 & Hfed).
  unfold dispatch in Hd. rewrite E in Hd. cbn in Hd. injection Hd as <- <-.
  split; cbn; rewrite ?omap_app; cbn [omap list_omap by_worker by_caller fst snd]; rewrite ?app_nil_r; try done.
  - exists m. split; [lia|done].
  - rewrite <- (list_insert_id _ _ _ Hp). apply Forall2_insert; [done|]. by split.
  - rewrite Ha, app_nil_r. done.
  - rewrite H8. pose proof (omap_insert pending (f_calls s) i _ (L_idle, th1) Hi) as Ho. cbn in Ho. rewrite app_nil_r in Ho.
    rewrite <- Ho. solve_Permutation.
  - by rewrite fmap_app.
Qed.

(** What an access of the queue adds to the run below. *)
Lemma finv_step n s a (d' : dsys log_record_t) : finv n s → dexec (f_d s) a = Some d' →
  ∃ m, (m ≤ Datatypes.S n)%nat ∧ dsteps m (d_init (2 ^ k) np nm) d'.
Proof. intros [(m & Hm & Hs) _ _ _ _ _ _ _ _ _ _] Hex. exists (Datatypes.S m). split; [lia|]. by econstructor. Qed.

Lemma on_queue_Some s a s' : on_queue s a = Some s' → ∃ d' : dsys log_record_t, dexec (f_d s) a = Some d' ∧ s' = to_d s d'.
Proof. intros (d' & H & [= <-])%bind_Some. eauto. Qed.

Lemma finv_write n s i r clone_ok s' :
  finv n s → log_async_write_for s i r clone_ok = Some s' → finv (Datatypes.S n) s'.
Proof.
  intros Hf H. unfold log_async_write_for in H. destruct (f_calls s !! i) as [[[|?|?] th]|] eqn:Hi; try done.
  destruct (Forall2_lookup_l _ _ _ _ _ (v_calls _ _ Hf) Hi) as (p & Hp & Hth & Hp0). cbn in Hth, Hp0. subst p.
  destruct clone_ok.
  - apply bind_Some in H as (s1 & H1 & [= <-]). apply on_queue_Some in H1 as (d' & Hex & ->). cbn [f_d to_written] in Hex.
    destruct (dexec_queue _ _ _ Hex (proj2 (proj2 (v_alive _ _ Hf)))) as (E & HA). cbn in E. rewrite Hp in E.
    injection E as E. apply (finv_call n s i (L_idle, th) (L_put r, th) d' (P_closed (Op r false)) [r]); rewrite <- ?E; try done.
    + by apply (finv_step n s _ _ Hf Hex).
    + exact (v_rets _ _ Hf).
  - injection H as <-. apply (finv_call n s i (L_idle, th) (L_dispatch r CLOG_ERR_OOM, th) (f_d s) P_idle [r]); try done.
    + destruct (v_steps _ _ Hf) as (m & Hm & Hs). exists m. split; [lia|done].
    + by rewrite list_insert_id.
    + exact (v_rets _ _ Hf).
Qed.

(** A producer inside the queue whose call goes on. *)
Lemma finv_in_put n s i r th (d' : dsys log_record_t) a p' :
  finv n s → f_calls s !! i = Some (L_put r, th) → caches_ok th → dexec (f_d s) a = Some d' →
  d_destroy d' = d_destroy (f_d s) ∧ d_call d' = d_call (f_d s) ∧ d_dead d' = d_dead (f_d s) →
  q_out (d_q d') = q_out (d_q (f_d s)) → q_cons (d_q d') = q_cons (d_q (f_d s)) →
  q_prods (d_q d') = <[i := p']> (q_prods (d_q (f_d s))) → op_of p' = Some (Op r false) →
  q_rets (d_q d') = q_rets (d_q (f_d s)) → finv (Datatypes.S n) (to_d s d').
Proof.
  intros Hf Hi Hth Hex HA E1 E2 E3 Hop Er. unfold to_d.
  rewrite <- (list_insert_id _ _ _ Hi). apply (finv_call n s i (L_put r, th) (L_put r, th) d' p' []); try done.
  - by apply (finv_step n s _ _ Hf Hex).
  - rewrite Er. exact (v_rets _ _ Hf).
  - by rewrite app_nil_r.
  - by rewrite Er, app_nil_r.
Qed.

Lemma finv_weak n s i s' : finv n s → async_weak s i = Some s' → finv (Datatypes.S n) s'.
Proof.
  intros Hf H. unfold async_weak in H. destruct (f_calls s !! i) as [[[|r|r ret] th]|] eqn:Hi; try done.
  apply on_queue_Some in H as (d' & Hex & ->).
  destruct (Forall2_lookup_l _ _ _ _ _ (v_calls _ _ Hf) Hi) as (p & Hp & Hth & Hop). cbn in Hth, Hop.
  destruct (dexec_queue _ _ _ Hex (proj2 (proj2 (v_alive _ _ Hf)))) as (E & HA).
  destruct (weak_op (d_q (f_d s)) i (d_q d') r) as (E1 & E2 & Er & p' & E3 & Hop'); [|exact E|].
  { intros p1 Hp1. congruence. }
  by eapply finv_in_put.
Qed.

(** Every record handed to a write is well-formed. *)
Lemma pending_written n s i c r : finv n s → f_calls s !! i = Some c → pending c = Some r → r ∈ f_written s.
Proof.
  intros Hf Hi Hr. rewrite (v_perm _ _ Hf), !elem_of_app. right. left. apply list_elem_of_omap. exists c.
  split; [|done]. apply list_elem_of_lookup. by exists i.
Qed.

Lemma finv_write_step n s i s' :
  finv n s → Forall record_ok (f_written s) → async_write_step tp cfg fc s i = Some s' → finv (Datatypes.S n) s'.
Proof.
  intros Hf Hrec H. unfold async_write_step in H. destruct (f_calls s !! i) as [[[|r|r ret] th]|] eqn:Hi; try done.
  - apply bind_Some in H as (s1 & H1 & H). apply on_queue_Some in H1 as (d' & Hex & ->).
    destruct (Forall2_lookup_l _ _ _ _ _ (v_calls _ _ Hf) Hi) as (p & Hp & Hth & Hop). cbn in Hth, Hop.
    destruct (dexec_queue _ _ _ Hex (proj2 (proj2 (v_alive _ _ Hf)))) as (E & HA). cbn in E. rewrite Hp in E, H. cbn in E.
    destruct (prod_step_op _ _ _ _ r Hop E) as (E1 & E2 & p' & E3 & E4). pose proof (v_rets _ _ Hf) as Hrets.
    destruct p; try (destruct E4 as [E4 E5]; injection H as <-; by eapply finv_in_put).
    destruct E4 as [-> E5].
    match type of E5 with _ = _ ++ [(r, ?x)] => destruct (Z.eqb_spec x 0) as [E0|Hne]; [rewrite E0 in E5|] end; injection H as <-.
    + eapply (finv_call n s i (L_put r, th) (L_idle, th) d' P_idle []); try done.
      * by apply (finv_step n s _ _ Hf Hex).
      * by rewrite E5, !omap_app, Hrets.
      * by rewrite app_nil_r.
      * rewrite E5, omap_app. cbn. by rewrite !app_nil_r.
    + eapply (finv_call n s i (L_put r, th) (L_dispatch r CLOG_ERR_QUEUE_FULL, th) d' P_idle []); try done.
      * by apply (finv_step n s _ _ Hf Hex).
      * rewrite E5, omap_app, <- Hrets. cbn. unfold accepted_ret at 3. cbn. rewrite (proj2 (Z.eqb_neq _ _) Hne). by rewrite app_nil_r.
      * by rewrite app_nil_r.
      * rewrite E5, omap_app. cbn. unfold accepted_ret at 2. cbn. by rewrite (proj2 (Z.eqb_neq _ _) Hne), !app_nil_r.
  - apply bind_Some in H as ([th1 s1] & Hd & [= <-]). eapply finv_direct; [done| |done|done].
    apply (proj1 (Forall_forall _ _) Hrec). by eapply pending_written.
Qed.

Lemma flush_ok_mono out out' tr tr' f :
  out `prefix_of` out' → tr `prefix_of` tr' → flush_ok out tr f → flush_ok out' tr' f.
Proof.
  intros [l ->] [l' ->]. destruct f; cbn; try done; rewrite clen_app; pose proof (clen_nonneg l); [lia|..];
    (intros [? ?]; split; [lia|]; rewrite take_app_le by (unfold clen in *; lia); by apply prefix_app_r).
Qed.

(** The worker moves on: the queue, its place, what it dispatched. *)
Lemma finv_worker n s (d' : dsys log_record_t) w b th disp tr :
  finv n s → (∃ m, (m ≤ Datatypes.S n)%nat ∧ dsteps m (d_init (2 ^ k) np nm) d') →
  d_destroy d' = d_destroy (f_d s) ∧ d_call d' = d_call (f_d s) ∧ d_dead d' = d_dead (f_d s) →
  q_prods (d_q d') = q_prods (d_q (f_d s)) → q_rets (d_q d') = q_rets (d_q (f_d s)) →
  q_out (d_q (f_d s)) `prefix_of` q_out (d_q d') →
  worker_at w (q_cons (d_q d')) → worker_out w (q_out (d_q d')) (omap by_worker (f_trace s ++ map (pair true) tr)) →
  b = busy w → caches_ok th → fed d0 disp (f_trace s ++ map (pair true) tr).*2 →
  finv (Datatypes.S n) (FSys d' w b th (f_calls s) (f_flush s) disp (f_trace s ++ map (pair true) tr) (f_written s) (f_rets s)).
Proof.
  intros [H1 (A1 & A2 & A3) H3 H4 H5 H6 H7 H8 H9 H10 H11] Hst (B1 & B2 & B3) Q1 Q2 Q3 Hat Hout -> Hth Hfed.
  split; cbn; rewrite ?Q1, ?Q2, ?B1, ?B2, ?B3; try done.
  - rewrite omap_app. assert (omap by_caller (map (pair true) tr) = []) as -> by (clear; induction tr as [|? ? IH]; [done|exact IH]).
    by rewrite app_nil_r.
  - intros i f Hi. eapply flush_ok_mono; [done| |by eapply H9]. rewrite omap_app. by apply prefix_app_r.
Qed.

(** The consumer's next access, on behalf of the worker. *)
Lemma finv_consume n s w (d' : dsys log_record_t) :
  finv n s → f_worker s = w → dexec (f_d s) (Q (Cons ASYNC_BATCH_SIZE)) = Some d' →
  worker_at w (q_cons (d_q d')) → worker_out w (q_out (d_q d')) (omap by_worker (f_trace s)) →
  q_out (d_q (f_d s)) `prefix_of` q_out (d_q d') → finv (Datatypes.S n) (to_d s d').
Proof.
  intros Hf <- Hex Hat Hout Hpre. destruct (dexec_queue _ _ _ Hex (proj2 (proj2 (v_alive _ _ Hf)))) as (E & HA).
  destruct (cons_step_frame _ _ _ E) as (? & ? & ? & _). unfold to_d. rewrite <- (app_nil_r (f_trace s)).
  eapply (finv_worker n s d' _ _ _ _ []); try done; rewrite ?app_nil_r; try done; destruct Hf; try done.
  by eapply finv_step.
Qed.

Lemma finv_worker_step n s s' :
  finv n s → Forall record_ok (f_written s) → Z.of_nat n <= 2 ^ 62 →
  async_worker_for tp cfg fc s = Some s' → finv (Datatypes.S n) s'.
Proof.
  intros Hf Hrec Hn H. pose proof Hf as [(m & Hm & Hs) HA Hat Hout Hb _ _ _ _ Hfed Hth]. unfold async_worker_for in H.
  assert (∀ w b, worker_at w (q_cons (d_q (f_d s))) → worker_out w (q_out (d_q (f_d s))) (omap by_worker (f_trace s)) →
    b = busy w → finv (Datatypes.S n) (to_worker (to_processing s b) w)) as Hmove.
  { intros w b H1 H2 H3. unfold to_worker, to_processing; cbn. rewrite <- (app_nil_r (f_trace s)).
    eapply (finv_worker n s _ _ _ _ _ []); try done; rewrite ?app_nil_r; try done. exists m. split; [lia|done]. }
  destruct (f_worker s) as [| |mark|[|[r|] batch] count| |] eqn:Ew; cbn [worker_at worker_out busy] in *.
  - apply bind_Some in H as (s1 & H1 & [= <-]). apply on_queue_Some in H1 as (d' & Hex & ->).
    destruct (dexec_queue _ _ _ Hex (proj2 (proj2 HA))) as (E & HA'). cbn in E. rewrite Hat in E. injection E as E.
    unfold to_worker, to_d; cbn. rewrite <- (app_nil_r (f_trace s)).
    eapply (finv_worker n s _ _ _ _ _ []); rewrite <- ?E, ?app_nil_r; try done. by eapply finv_step.
  - destruct (q_cons (d_q (f_d s))) eqn:Ec; try done.
    all: try (apply on_queue_Some in H as (d' & Hex & ->);
      destruct (dexec_queue _ _ _ Hex (proj2 (proj2 HA))) as (E & _);
      destruct (cons_step_waiting _ _ _ ltac:(by rewrite Ec) ltac:(by rewrite Ec) E) as (? & Eo);
      eapply finv_consume; [done|done|done|done|by rewrite Eo|by rewrite Eo]).
    + injection H as <-. by apply (Hmove V_exit (f_processing s)).
    + injection H as <-. apply (Hmove (V_get _) true); cbn; [done| |done]. split; [done|]. by rewrite take_ge.
  - destruct Hout as [Hle Hout].
    destruct (q_cons (d_q (f_d s))) eqn:Ec; try done.
    { injection H as <-. apply (Hmove (V_loop _ _) (f_processing s)); cbn; [done| |done].
      rewrite <- (take_drop mark (q_out (d_q (f_d s)))) at 1. by rewrite omap_app, Hout. }
    all: apply on_queue_Some in H as (d' & Hex & ->);
      destruct (dexec_queue _ _ _ Hex (proj2 (proj2 HA))) as (E & _);
      destruct (cons_step_batching _ _ _ ltac:(by rewrite Ec) E) as (? & Hpre);
      eapply finv_consume; [done|done|done|done| |done]; destruct Hpre as [l ->]; split;
      [rewrite length_app; lia|by rewrite take_app_le].
  - apply bind_Some in H as (s1 & H1 & [= <-]).
    destruct (0 <? count)%nat.
    + destruct (fed_flush _ _ Hfed) as (d' & E & Hfed'). unfold flush_sinks in H1. rewrite E in H1. injection H1 as <-.
      unfold to_worker, to_disp; cbn. rewrite <- (app_nil_r (f_trace s)).
      eapply (finv_worker n s _ _ _ _ _ []); rewrite ?app_nil_r; try done; [exists m; split; [lia|done]|].
      cbn in Hout. by rewrite app_nil_r in Hout.
    + injection H1 as <-. apply (Hmove V_clear (f_processing s)); cbn; [done| |done]. cbn in Hout. by rewrite app_nil_r in Hout.
  - apply bind_Some in H as ([th' s1] & Hd & [= <-]). unfold dispatch in Hd.
    assert (record_ok r) as Hr.
    { apply (proj1 (Forall_forall _ _) Hrec). eapply (out_written n); [done|done|].
      assert (r ∈ omap id (q_out (d_q (f_d s)))) as Hin by (rewrite Hout; apply elem_of_app; right; left).
      apply list_elem_of_omap in Hin as (x & Hx & Ex). cbn in Ex. by subst. }
    destruct (fed_dispatch (f_disp s) _ (f_wth s) r Hfed Hth Hr) as (th1 & r1 & d1 & rc & E & Hth1 & Hfed').
    rewrite E in Hd. injection Hd as <- <-. unfold to_worker, to_wth; cbn.
    eapply (finv_worker n s _ _ _ _ _ [r]); try done; [exists m; split; [lia|done]| |by rewrite fmap_app].
    cbn. rewrite omap_app. cbn. rewrite Hout, <- app_assoc. done.
  - injection H as <-. apply (Hmove (V_loop batch count) (f_processing s)); cbn; [done| |done]. by rewrite Hout.
  - injection H as <-. by apply (Hmove V_top false).
  - done.
Qed.

Lemma finv_flush_step n s i s' :
  finv n s → Z.of_nat n <= 2 ^ 62 → log_async_flush_for s i = Some s' → finv (Datatypes.S n) s'.
Proof.
  intros Hf Hn H. destruct (finv_below n s Hf Hn) as ([_ He] & _ & Hlen & _).
  unfold log_async_flush_for in H. destruct (f_flush s !! i) as [f|] eqn:Hi; [|done].
  pose proof (v_flush _ _ Hf i f Hi) as Hok.
  assert (∀ s1, on_queue s (WaitEmpty i) = Some s1 → finv (Datatypes.S n) (to_flush s1 (<[i := F_wait]> (f_flush s1)))) as Hcall.
  { intros s1 (d' & Hex & ->)%on_queue_Some. apply finv_flush; [|done]. exact (finv_waiter n s _ _ Hf Hex I). }
  destruct f as [| |m|m|m]; cbn [flush_ok] in Hok.
  - apply bind_Some in H as (s1 & H1 & [= <-]). by apply Hcall.
  - destruct (d_waiters (f_d s) !! i) as [w|] eqn:Ew.
    + destruct w; try (apply on_queue_Some in H as (d' & Hex & ->); exact (finv_waiter n s _ _ Hf Hex I)).
      injection H as <-. apply finv_flush; [by eapply finv_weaken; [done|lia]|]. cbn. rewrite Hlen. exact (He _ _ Ew).
    + apply on_queue_Some in H as (d' & Hex & ->). exact (finv_waiter n s _ _ Hf Hex I).
  - destruct (f_processing s) eqn:Ep; injection H as <-; [eapply finv_weaken; [done|lia]|].
    apply finv_flush; [by eapply finv_weaken; [done|lia]|]. cbn. split; [done|].
    pose proof (v_busy _ _ Hf) as Hb. pose proof (v_out _ _ Hf) as Ho. rewrite Ep in Hb.
    assert (omap by_worker (f_trace s) = omap id (q_out (d_q (f_d s)))) as ->.
    { destruct (f_worker s); cbn in Hb, Ho; done. }
    exists (omap id (drop (Z.to_nat m) (q_out (d_q (f_d s))))). by rewrite <- omap_app, take_drop.
  - apply bind_Some in H as (s1 & H1 & [= <-]). unfold flush_sinks in H1.
    destruct (fed_flush _ _ (v_disp _ _ Hf)) as (d' & E & Hfed'). rewrite E in H1. injection H1 as <-.
    apply finv_flush; [|done]. apply (finv_weaken n); [|lia]. destruct Hf. by split.
  - apply bind_Some in H as (s1 & H1 & [= <-]). by apply Hcall.
Qed.

Lemma on_queue_written s a s' : on_queue s a = Some s' → f_written s' = f_written s.
Proof. intros (d' & _ & ->)%on_queue_Some. done. Qed.
Lemma dispatch_written s b th r th' s' : dispatch tp cfg fc s b th r = Some (th', s') → f_written s' = f_written s.
Proof. intros ([[[? ?] ?] ?] & _ & [= _ <-])%bind_Some. done. Qed.
Lemma flush_written s s' : flush_sinks s = Some s' → f_written s' = f_written s.
Proof. intros (d' & _ & [= <-])%bind_Some. done. Qed.

Lemma fexec_written s a s' : fexec tp cfg fc s a = Some s' → f_written s `prefix_of` f_written s'.
Proof.
  intros H. assert (f_written s' = f_written s ∨ ∃ r, f_written s' = f_written s ++ [r]) as [->|[r ->]]; [|done|by apply prefix_app_r].
  destruct a; cbn [fexec] in H; unfold log_async_write_for, async_write_step, async_weak, async_worker_for, log_async_flush_for in H;
    repeat case_match; try done; repeat (apply bind_Some in H as (? & ? & H)); repeat case_match; simplify_eq; cbn;
    repeat match goal with
    | H : on_queue _ _ = Some _ |- _ => apply on_queue_written in H
    | H : dispatch _ _ _ _ _ _ _ = Some (_, _) |- _ => apply dispatch_written in H
    | H : flush_sinks _ = Some _ |- _ => apply flush_written in H
    end; cbn in *; eauto.
Qed.

Lemma fsteps_written n s s' : fsteps tp cfg fc n s s' → f_written s `prefix_of` f_written s'.
Proof. induction 1 as [|n s s1 s2 a _ IH Hex]; [done|]. etransitivity; [exact IH|]. by eapply fexec_written. Qed.

Lemma finv_exec n s a s' :
  finv n s → Z.of_nat n <= 2 ^ 62 → Forall record_ok (f_written s) → fexec tp cfg fc s a = Some s' →
  finv (Datatypes.S n) s'.
Proof.
  intros Hf Hn Hrec H. destruct a; cbn [fexec] in H.
  - by eapply finv_write.
  - by eapply finv_write_step.
  - by eapply finv_weak.
  - by eapply finv_worker_step.
  - by eapply finv_flush_step.
  - apply on_queue_Some in H as (d' & Hex & ->). exact (finv_waiter n s _ _ Hf Hex I).
  - apply on_queue_Some in H as (d' & Hex & ->). exact (finv_close n s _ _ Hf Hex I).
  - apply on_queue_Some in H as (d' & Hex & ->). exact (finv_close n s _ _ Hf Hex I).
Qed.

Lemma finv_steps n th s :
  caches_ok th → fsteps tp cfg fc n (f_init (2 ^ k) np nm th d0) s → Z.of_nat n <= 2 ^ 62 → Forall record_ok (f_written s) →
  finv n s.
Proof.
  intros Hth H. remember (f_init (2 ^ k) np nm th d0) as s0 eqn:E.
  induction H as [s|n s s1 s2 a H IH Hex]; intros Hn Hrec; subst; [by apply finv_init|].
  assert (Forall record_ok (f_written s1)) as Hrec1.
  { destruct (fexec_written _ _ _ Hex) as [l El]. rewrite El in Hrec. by apply Forall_app in Hrec as [? _]. }
  eapply finv_exec; [apply IH; [done|lia|done]|lia|done|done].
Qed.

(** ** Flushing *)

(** What a step is for the layer of waiters. *)
Lemma fexec_below s a s' : fexec tp cfg fc s a = Some s' →
  f_d s' = f_d s ∨ ∃ b, dexec (f_d s) b = Some (f_d s') ∧
    match b with Q _ | Waiter _ | Spurious _ => True | WaitEmpty j => a = A_flush j | _ => False end.
Proof.
  intros H.
  assert (∀ t u b, on_queue t b = Some u → dexec (f_d t) b = Some (f_d u)) as Hq by (by intros t u b (e & He & ->)%on_queue_Some).
  assert (∀ t b th r th' u, dispatch tp cfg fc t b th r = Some (th', u) → f_d u = f_d t) as Hdi
    by (by intros t b th r th' u ([[[? ?] ?] ?] & _ & [= _ <-])%bind_Some).
  assert (∀ t u, flush_sinks t = Some u → f_d u = f_d t) as Hfl by (by intros t u (e & _ & [= <-])%bind_Some).
  destruct a; cbn [fexec] in H; unfold log_async_write_for, async_write_step, async_weak, async_worker_for, log_async_flush_for in H;
    repeat case_match; try done; repeat (apply bind_Some in H as (? & ? & H)); repeat case_match; simplify_eq;
    repeat match goal with
    | H : on_queue _ _ = Some _ |- _ => apply Hq in H
    | H : dispatch _ _ _ _ _ _ _ = Some (_, _) |- _ => apply Hdi in H
    | H : flush_sinks _ = Some _ |- _ => apply Hfl in H
    end; cbn [f_d to_d to_worker to_processing to_wth to_calls to_flush to_disp to_trace to_written to_rets] in *;
    first [by left|right; eexists; split; [eassumption|done]].
Qed.

(** The queue only grows. *)
Lemma fexec_mono n s a s' : finv n s → Z.of_nat n < 2 ^ 62 → fexec tp cfg fc s a = Some s' →
  d_destroy (f_d s') = X_idle →
  q_head (d_q (f_d s)) <= q_head (d_q (f_d s')) ∧ q_log (d_q (f_d s)) ⊆ q_log (d_q (f_d s')).
Proof.
  intros Hf Hn H Hd'. destruct (fexec_below s a s' H) as [->|(b & Hb & _)]; [done|].
  destruct Hf as [(m & Hm & Hs) (Hd & _ & Hdead) _ _ _ _ _ _ _ _ _].
  destruct (dexec_below _ _ _ Hb Hd' Hdead) as (_ & [->|[c Hc]]); [done|].
  destruct (dsteps_below _ _ _ _ _ Hs Hd) as (_ & m' & Hm' & Hq).
  pose proof (inv_steps _ _ _ _ Hk Hq ltac:(lia)) as Hinv.
  split; [|by eapply exec_log]. by destruct (exec_drain _ _ _ _ Hinv ltac:(lia) Hc) as [? _].
Qed.

(** The flush of thread [i] under way or done began when [head] was at least [h]. *)
Definition marked (h : Z) (i : nat) s : Prop :=
  match f_flush s !! i with
  | Some F_wait => ∃ w m, d_waiters (f_d s) !! i = Some w ∧ mark_of w = Some m ∧ h <= m
  | Some (F_poll m) | Some (F_flush m) | Some (F_done m) => h <= m
  | _ => False
  end.

Lemma marked_call h i s s1 : h <= q_head (d_q (f_d s)) → (i < length (f_flush s))%nat → on_queue s (WaitEmpty i) = Some s1 →
  marked h i (to_flush s1 (<[i := F_wait]> (f_flush s1))).
Proof.
  intros Hh Hl (e & He & ->)%on_queue_Some. unfold marked. cbn [f_flush to_flush to_d f_d].
  rewrite list_lookup_insert_eq by done. cbn [dexec] in He.
  destruct (d_waiters (f_d s) !! i) as [w|] eqn:Hw; [|done].
  assert (i < length (d_waiters (f_d s)))%nat as Hlw by (by eapply lookup_lt_Some).
  exists (E_lock (q_head (d_q (f_d s)))), (q_head (d_q (f_d s))).
  destruct w; simplify_eq; cbn; by rewrite list_lookup_insert_eq.
Qed.

Lemma fexec_flush_other s a s' i : fexec tp cfg fc s a = Some s' → a ≠ A_flush i → f_flush s' !! i = f_flush s !! i.
Proof.
  intros H Ha.
  assert (∀ t u b, on_queue t b = Some u → f_flush u = f_flush t) as Hq by (by intros t u b (e & He & ->)%on_queue_Some).
  assert (∀ t b th r th' u, dispatch tp cfg fc t b th r = Some (th', u) → f_flush u = f_flush t) as Hdi
    by (by intros t b th r th' u ([[[? ?] ?] ?] & _ & [= _ <-])%bind_Some).
  assert (∀ t u, flush_sinks t = Some u → f_flush u = f_flush t) as Hfl by (by intros t u (e & _ & [= <-])%bind_Some).
  destruct a; cbn [fexec] in H; unfold log_async_write_for, async_write_step, async_weak, async_worker_for, log_async_flush_for in H;
    repeat case_match; try done; repeat (apply bind_Some in H as (? & ? & H)); repeat case_match; simplify_eq;
    repeat match goal with
    | H : on_queue _ _ = Some _ |- _ => apply Hq in H
    | H : dispatch _ _ _ _ _ _ _ = Some (_, _) |- _ => apply Hdi in H
    | H : flush_sinks _ = Some _ |- _ => apply Hfl in H
    end; cbn [f_flush to_d to_worker to_processing to_wth to_calls to_flush to_disp to_trace to_written to_rets] in *;
    rewrite ?list_lookup_insert_ne by congruence; congruence.
Qed.

Lemma marked_other h i n s a s' :
  finv n s → fexec tp cfg fc s a = Some s' → a ≠ A_flush i → marked h i s → marked h i s'.
Proof.
  intros Hf H Ha Hm. pose proof (v_alive _ _ Hf) as (_ & _ & Hdead). unfold marked in *.
  rewrite (fexec_flush_other _ _ _ _ H Ha). destruct (f_flush s !! i) as [[| |m|m|m]|]; try done.
  destruct Hm as (w & m & Hw & Hm & Hh). destruct (fexec_below _ _ _ H) as [->|(b & Hb & Hok)]; [by exists w, m|].
  assert (∃ v, d_waiters (f_d s') !! i = Some v ∧ mark_of v = Some m) as (v & Hv & Hv'); [|by exists v, m].
  eapply (dexec_mark _ _ b i w m); try done. destruct b; try done. intros ->. by subst.
Qed.

Lemma marked_flush h i n s s' :
  finv n s → log_async_flush_for s i = Some s' → h <= q_head (d_q (f_d s)) → marked h i s → marked h i s'.
Proof.
  intros Hf H Hh Hm. pose proof (v_alive _ _ Hf) as (_ & _ & Hdead).
  assert (∀ f, is_Some (f_flush s !! i) → <[i := f]> (f_flush s) !! i = Some f) as Hins.
  { intros f [x Hx]. apply list_lookup_insert_eq. by eapply lookup_lt_Some. }
  unfold log_async_flush_for in H. unfold marked in Hm. destruct (f_flush s !! i) as [[| |m|m|m]|] eqn:Hi; try done.
  - destruct Hm as (w & m & Hw & Hmw & Hhm). rewrite Hw in H.
    destruct w; try (apply on_queue_Some in H as (e & He & ->);
      destruct (dexec_mark _ _ _ i _ m He Hdead I Hw Hmw) as (v & Hv & Hv'); unfold marked; cbn [f_flush f_d to_d]; rewrite Hi; by exists v, m).
    injection H as <-. cbn in Hmw. simplify_eq. unfold marked. cbn [f_flush to_flush]. by rewrite Hins by eauto.
  - destruct (f_processing s); injection H as <-; unfold marked; cbn [f_flush to_flush]; [by rewrite Hi|by rewrite Hins by eauto].
  - apply bind_Some in H as (s1 & H1 & [= <-]). apply bind_Some in H1 as (e & _ & [= <-]).
    unfold marked; cbn [f_flush to_flush to_disp]. by rewrite Hins by eauto.
  - apply bind_Some in H as (s1 & H1 & [= <-]). eapply marked_call; [done| |done]. by eapply lookup_lt_Some.
Qed.

Lemma marked_exec h i n s a s' :
  finv n s → fexec tp cfg fc s a = Some s' → h <= q_head (d_q (f_d s)) → marked h i s → marked h i s'.
Proof.
  intros Hf H Hh Hm. destruct a as [j r c|j|j| |j|j| |]; try (by eapply marked_other).
  destruct (decide (j = i)) as [->|]; [by eapply marked_flush|]. eapply marked_other; [done|done|congruence|done].
Qed.

Lemma finv_after n m s0 s :
  finv n s0 → fsteps tp cfg fc m s0 s → Z.of_nat (n + m) <= 2 ^ 62 → Forall record_ok (f_written s) → finv (n + m) s.
Proof.
  intros Hf H. induction H as [s|m s s1 s2 a H IH Hex]; intros Hn Hrec; [by rewrite Nat.add_0_r|].
  assert (Forall record_ok (f_written s1)) as Hrec1.
  { destruct (fexec_written _ _ _ Hex) as [l El]. rewrite El in Hrec. by apply Forall_app in Hrec as [? _]. }
  rewrite Nat.add_succ_r. eapply finv_exec; [apply IH; [done|lia|done]|lia|done|done].
Qed.

Lemma marked_steps h i n m s0 s :
  finv n s0 → fsteps tp cfg fc m s0 s → Z.of_nat (n + m) <= 2 ^ 62 → Forall record_ok (f_written s) →
  h <= q_head (d_q (f_d s0)) → marked h i s0 →
  h <= q_head (d_q (f_d s)) ∧ q_log (d_q (f_d s0)) ⊆ q_log (d_q (f_d s)) ∧ marked h i s.
Proof.
  intros Hf H. induction H as [s|m s s1 s2 a H IH Hex]; intros Hn Hrec Hh Hm; [done|].
  assert (Forall record_ok (f_written s1)) as Hrec1.
  { destruct (fexec_written _ _ _ Hex) as [l El]. rewrite El in Hrec. by apply Forall_app in Hrec as [? _]. }
  destruct (IH Hf ltac:(lia) Hrec1 Hh Hm) as (I1 & I2 & I3).
  pose proof (finv_after n m s s1 Hf H ltac:(lia) Hrec1) as Hf1.
  pose proof (finv_exec _ _ _ _ Hf1 ltac:(lia) Hrec1 Hex) as Hf2.
  destruct (fexec_mono _ _ _ _ Hf1 ltac:(lia) Hex (proj1 (v_alive _ _ Hf2))) as [J1 J2].
  split; [lia|]. split; [by transitivity (q_log (d_q (f_d s1)))|]. exact (marked_exec _ _ _ _ _ _ Hf1 Hex I1 I3).
Qed.

(** ** At rest *)

Lemma trace_split (l : list (bool * log_record_t)) : l.*2 ≡ₚ omap by_worker l ++ omap by_caller l.
Proof.
  induction l as [|[[] r] l IH]; cbn; [done|by rewrite IH|]. rewrite IH. apply Permutation_middle.
Qed.

Lemma trace_worker (l : list (bool * log_record_t)) : omap by_caller l = [] → l.*2 = omap by_worker l.
Proof. induction l as [|[[] r] l IH]; cbn; [done| |done]. intros H. by rewrite IH. Qed.

Lemma idle_prods s : Forall2 call_ok (f_calls s) (q_prods (d_q (f_d s))) → Forall (λ c, c.1 = L_idle) (f_calls s) →
  (∀ i p, q_prods (d_q (f_d s)) !! i = Some p → p = P_idle) ∧ omap pending (f_calls s) = [].
Proof.
  intros Hc Hidle. split.
  - intros i p Hp. destruct (Forall2_lookup_r _ _ _ _ _ Hc Hp) as ([c t] & Hi & _ & Hok).
    pose proof (Forall_lookup_1 _ _ _ _ Hidle Hi) as E. cbn in E, Hok. by subst.
  - clear Hc. induction Hidle as [|[c t] l E _ IH]; [done|]. cbn in E |- *. by subst.
Qed.

Lemma settled n s :
  finv n s → Z.of_nat n <= 2 ^ 62 → Forall (λ c, c.1 = L_idle) (f_calls s) → busy (f_worker s) = false →
  log_async_get_queue_depth_for s = 0 →
  (f_trace s).*2 ≡ₚ f_written s ∧ omap by_worker (f_trace s) ≡ₚ omap accepted_ret (f_rets s).
Proof.
  intros Hf Hn Hidle Hb Hd. destruct Hf as [(m & Hm & Hs) (Hdes & _ & _) _ Hout _ Hc Hr Hp _ _ _].
  destruct (dsteps_below _ _ _ _ _ Hs Hdes) as (_ & m' & Hm' & Hq).
  pose proof (inv_steps _ _ _ _ Hk Hq ltac:(lia)) as Hinv. pose proof (inv2_steps _ _ _ _ Hk Hq ltac:(lia)) as Hinv2.
  destruct (idle_prods s Hc Hidle) as [Hprods Hpend]. pose proof (i_pos _ _ Hinv) as Hpos.
  assert (q_tail (d_q (f_d s)) = q_head (d_q (f_d s))) as Heq.
  { unfold log_async_get_queue_depth_for, usub in Hd. apply u64_sub_0 in Hd; [done|unfold is_u64; lia..]. }
  pose proof (accepted_delivered _ _ Hinv Hinv2 Hprods Heq) as Hacc.
  assert (omap by_worker (f_trace s) = omap id (q_out (d_q (f_d s)))) as Ew by (destruct (f_worker s); done).
  rewrite trace_split, Ew, Hp, Hpend, Hr, Hacc. done.
Qed.

(** ** Dispatches are defined *)

Lemma batch_ok n s batch c : finv n s → Z.of_nat n <= 2 ^ 62 → Forall record_ok (f_written s) →
  f_worker s = V_loop batch c → ∀ r, Some r ∈ batch → record_ok r.
Proof.
  intros Hf Hn Hrec Ew r Hr. apply (proj1 (Forall_forall _ _) Hrec). eapply (out_written n); [done|done|].
  pose proof (v_out _ _ Hf) as Hout. rewrite Ew in Hout. cbn in Hout.
  assert (r ∈ omap id (q_out (d_q (f_d s)))) as Hin.
  { rewrite Hout. apply elem_of_app. right. apply list_elem_of_omap. by exists (Some r). }
  apply list_elem_of_omap in Hin as (x & Hx & Ex). cbn in Ex. by subst.
Qed.

Lemma worker_goes_on n s batch c :
  finv n s → Z.of_nat n <= 2 ^ 62 → Forall record_ok (f_written s) → f_worker s = V_loop batch c →
  is_Some (async_worker_for tp cfg fc s).
Proof.
  intros Hf Hn Hrec Ew. unfold async_worker_for, dispatch, flush_sinks. rewrite Ew. destruct batch as [|[r|] batch]; [|..|by eauto].
  - destruct (0 <? c)%nat; [|by eauto]. destruct (fed_flush _ _ (v_disp _ _ Hf)) as (d' & -> & _). by eauto.
  - destruct (fed_dispatch (f_disp s) _ (f_wth s) r (v_disp _ _ Hf) (v_wth _ _ Hf)) as (? & ? & ? & ? & -> & _); [|by eauto].
    eapply batch_ok; [done..|]. by left.
Qed.

Lemma caller_goes_on n s i r ret th :
  finv n s → Forall record_ok (f_written s) → f_calls s !! i = Some (L_dispatch r ret, th) →
  is_Some (async_write_step tp cfg fc s i).
Proof.
  intros Hf Hrec Hi. unfold async_write_step, dispatch. rewrite Hi.
  destruct (Forall2_lookup_l _ _ _ _ _ (v_calls _ _ Hf) Hi) as (p & _ & Hth & _).
  destruct (fed_dispatch (f_disp s) _ th r (v_disp _ _ Hf) Hth) as (? & ? & ? & ? & -> & _); [|by eauto].
  apply (proj1 (Forall_forall _ _) Hrec). by eapply pending_written.
Qed.

(** What was accepted when a flush began is dispatched when it is done. *)
Lemma flushed n m s0 s h i mark :
  finv n s0 → finv m s → Z.of_nat n <= 2 ^ 62 → Z.of_nat m <= 2 ^ 62 →
  q_head (d_q (f_d s0)) <= h → q_log (d_q (f_d s0)) ⊆ q_log (d_q (f_d s)) → marked h i s →
  f_flush s !! i = Some (F_done mark) → omap accepted_ret (f_rets s0) ⊆+ omap by_worker (f_trace s).
Proof.
  intros Hf0 Hf Hn Hm Hh Hlog Hmark Hi. unfold marked in Hmark. rewrite Hi in Hmark.
  destruct (finv_below m s Hf Hm) as (_ & _ & _ & Ho). destruct (v_flush _ _ Hf i _ Hi) as [Hle [l Hl]].
  destruct Hf0 as [(m0 & Hm0 & Hs0) (Hdes & _ & _) _ _ _ _ Hr _ _ _ _].
  destruct (dsteps_below _ _ _ _ _ Hs0 Hdes) as (_ & m' & Hm' & Hq).
  pose proof (inv_steps _ _ _ _ Hk Hq ltac:(lia)) as Hinv. pose proof (j_perm _ (inv2_steps _ _ _ _ Hk Hq ltac:(lia))) as Hperm.
  rewrite Hr, Hl. apply submseteq_app_r. exists (omap accepted_ret (q_rets (d_q (f_d s0)))), []. rewrite app_nil_r.
  split; [done|]. split; [|apply submseteq_nil_l].
  transitivity (log_records (d_q (f_d s0))).
  { rewrite Hperm. by apply submseteq_inserts_r. }
  apply published_prefix. intros pos c Hc. destruct (i_log _ _ Hinv _ _ Hc) as ((Hp0 & Hp1) & _). split; [lia|].
  assert (q_log (d_q (f_d s)) !! pos = Some c) as Hc' by (by eapply lookup_weaken).
  destruct (lookup_lt_is_Some_2 (q_out (d_q (f_d s))) (Z.to_nat pos)) as [c' Hx]; [unfold clen in *; lia|].
  pose proof (Ho _ _ Hx) as Hy. rewrite Z2Nat.id in Hy by lia. congruence.
Qed.

End invariant.

(** ** Properties *)

(** A system that can deliver: format strings that fit their buffers, coherent caches,
    registered sinks that are alive and registered once, a queue of a power of two. *)
Definition well_set {S} `{P : Platform} (fc : fmt_config) (th : fmt_thread) (d0 : dispatcher S) (k : Z) : Prop :=
  format_fits fc ∧ caches_ok th ∧ NoDup (ptrs (d_sinks d0)) ∧
  (∀ p, p ∈ ptrs (d_sinks d0) → is_Some (d_store d0 !! p)) ∧ 0 <= k <= 62.

(** C5: asynchronous delivery of accepted records, from [log_async_write_for] to the bytes
    in the sinks, in any format.  In every interleaving of callers with well-formed records,
    worker, flushing threads and closer, with failing clones, a full queue, tombstones and
    spurious failures of the compare-and-swap: the worker dispatches in the order of the
    queue; once all calls have returned, the worker rests and the queue is empty, the
    records the worker dispatched are the records whose write returned success, each
    exactly once; a dispatch never touches a dead sink; and, as long as no refused record
    was written out by its caller, each registered sink has at every moment been given, in
    full and in order, the lines it is due of the records the worker dispatched, and
    flushes. *)
Theorem async_exactly_once {S} `{!Sink S} `{P : Platform} `{!PlatformOk P} tp cfg fc (d0 : dispatcher S) k np nm th n s :
  well_set fc th d0 k → fsteps tp cfg fc n (f_init (2 ^ k) np nm th d0) s → Z.of_nat n <= 2 ^ 62 → Forall record_ok (f_written s) →
  omap by_worker (f_trace s) `prefix_of` omap id (q_out (d_q (f_d s))) ∧
  (Forall (λ c, c.1 = L_idle) (f_calls s) → busy (f_worker s) = false → log_async_get_queue_depth_for s = 0 →
     omap by_worker (f_trace s) ≡ₚ omap accepted_ret (f_rets s)) ∧
  ((∀ batch c, f_worker s = V_loop batch c → is_Some (async_worker_for tp cfg fc s)) ∧
   (∀ i r ret t, f_calls s !! i = Some (L_dispatch r ret, t) → is_Some (async_write_step tp cfg fc s i))) ∧
  (omap by_caller (f_trace s) = [] →
   ∀ p x, d_store d0 !! p = Some x → ∃ ops,
     d_store (f_disp s) !! p = Some (LogSink (sk_min_level x) (sk_color x) (sk_atfork x) (foldl sink_op (sk_state x) ops)) ∧
     concat (omap id ops) = (if decide (p ∈ ptrs (d_sinks d0)) then due tp cfg fc x (omap by_worker (f_trace s)) else [])).
Proof.
  intros (Hfc & Hth & Hnd & Hlive & Hk) Hs Hn Hrec.
  pose proof (finv_steps tp cfg fc d0 k np nm Hnd Hlive Hfc Hk n th s Hth Hs Hn Hrec) as Hf.
  pose proof Hf as [_ _ _ Hout Hb Hc Hr Hp _ [_ Hfed] Hwth]. split_and!.
  - destruct (f_worker s); cbn in Hout; try (by rewrite Hout).
    + destruct Hout as [_ <-]. rewrite <- (take_drop mark (q_out (d_q (f_d s)))) at 2. rewrite omap_app. by apply prefix_app_r.
    + rewrite Hout. by apply prefix_app_r.
  - intros Hidle Hbusy Hd. by apply (settled tp cfg fc d0 k np nm Hk n).
  - intros batch c E. by apply (worker_goes_on tp cfg fc d0 k np nm Hnd Hlive Hfc Hk n s batch c).
  - intros i r ret t Hi. by apply (caller_goes_on tp cfg fc d0 k np nm Hnd Hlive Hfc n s i r ret t).
  - intros Hcal p x Hx. rewrite <- (trace_worker _ Hcal). by apply Hfed.
Qed.

(** C6: a flush waits, in any format.  Whatever the threads do between with well-formed
    records, when [log_async_flush_for] returns, every record whose write had returned
    success before it was called has been dispatched by the worker: also when the worker took a batch between the check for
    an empty queue and the check of [async_processing]. *)
Theorem async_flush_quiescent {S} `{!Sink S} `{P : Platform} `{!PlatformOk P} tp cfg fc (d0 : dispatcher S) k np nm th
    n s0 i f s1 m s mark :
  well_set fc th d0 k → fsteps tp cfg fc n (f_init (2 ^ k) np nm th d0) s0 →
  f_flush s0 !! i = Some f → (f = F_idle ∨ ∃ x, f = F_done x) → log_async_flush_for s0 i = Some s1 →
  fsteps tp cfg fc m s1 s → Z.of_nat (Datatypes.S n + m) <= 2 ^ 62 → Forall record_ok (f_written s) →
  f_flush s !! i = Some (F_done mark) →
  omap accepted_ret (f_rets s0) ⊆+ omap by_worker (f_trace s).
Proof.
  intros (Hfc & Hth & Hnd & Hlive & Hk) Hs0 Hi Hstart Hcall Hs Hn Hrec Hdone.
  assert (Forall record_ok (f_written s0)) as Hrec0.
  { destruct (fsteps_written tp cfg fc m s1 s Hs) as [l1 E1].
    destruct (fexec_written tp cfg fc s0 (A_flush i) s1 Hcall) as [l0 E0].
    rewrite E1, E0, <- app_assoc in Hrec. by apply Forall_app in Hrec as [? _]. }
  pose proof (finv_steps tp cfg fc d0 k np nm Hnd Hlive Hfc Hk n th s0 Hth Hs0 ltac:(lia) Hrec0) as Hf0.
  pose proof (finv_flush_step tp cfg fc d0 k np nm Hnd Hlive Hk n s0 i s1 Hf0 ltac:(lia) Hcall) as Hf1.
  pose proof (finv_after tp cfg fc d0 k np nm Hnd Hlive Hfc Hk _ m s1 s Hf1 Hs Hn Hrec) as Hf.
  assert (∃ t, on_queue s0 (WaitEmpty i) = Some t ∧ s1 = to_flush t (<[i := F_wait]> (f_flush t))) as (t & Ht & ->).
  { unfold log_async_flush_for in Hcall. rewrite Hi in Hcall.
    destruct Hstart as [->|[x ->]]; apply bind_Some in Hcall as (t & ? & [= <-]); by exists t. }
  assert (q_head (d_q (f_d t)) = q_head (d_q (f_d s0)) ∧ q_log (d_q (f_d t)) = q_log (d_q (f_d s0))) as [Eh El].
  { apply on_queue_Some in Ht as (e & He & ->). cbn [f_d to_d].
    by destruct (dexec_waiter _ _ (WaitEmpty i) I He (proj2 (proj2 (v_alive _ _ _ _ _ _ _ _ _ Hf0)))) as (-> & _). }
  destruct (marked_steps tp cfg fc d0 k np nm Hnd Hlive Hfc Hk (q_head (d_q (f_d s0))) i _ m _ s Hf1 Hs Hn Hrec)
    as (_ & Hlog & Hmark).
  - cbn [f_d to_flush]. lia.
  - eapply marked_call; [done| |done]. by eapply lookup_lt_Some.
  - eapply (flushed tp cfg fc d0 k np nm Hk n _ s0 s); [done|done|lia|lia|reflexivity| |done|done].
    cbn [f_d to_flush] in Hlog. by rewrite El in Hlog.
Qed.

(** ** Concrete runs *)

Fixpoint frun {S} `{!Sink S} `{P : Platform} tp cfg fc (s : fsys S) (l : list faction) : option (fsys S) :=
  match l with [] => Some s | a :: l' => s' ← fexec tp cfg fc s a; frun tp cfg fc s' l' end.

Lemma frun_steps {S} `{!Sink S} `{P : Platform} tp cfg fc l : ∀ n (s0 s s' : fsys S),
  fsteps tp cfg fc n s0 s → frun tp cfg fc s l = Some s' → fsteps tp cfg fc (n + length l) s0 s'.
Proof.
  induction l as [|a l IH]; cbn; intros n s0 s s' Hs H; [injection H as <-; by rewrite Nat.add_0_r|].
  apply bind_Some in H as (s1 & H1 & H). rewrite Nat.add_succ_r. apply (IH (Datatypes.S n) s0 s1); [|done]. by econstructor.
Qed.

Definition one_fc : fmt_config := FmtConfig (B "<%level> %msg") (B "%H").
Definition one_sink : dispatcher (list cstr) := Dispatcher {[0%nat := LogSink 0 false false []]} 1 [Some 0%nat].
Definition one_init : fsys (list cstr) := f_init (2 ^ 1) 1 1 fresh_thread one_sink.
Abbreviation run_one := (frun None test_cfg one_fc).

Lemma one_well_set : well_set one_fc fresh_thread one_sink 1.
Proof.
  split; [split; reflexivity|]. split; [apply fresh_thread_ok|].
  split; [apply NoDup_singleton|]. split; [|lia]. intros p ->%list_elem_of_singleton. by eexists.
Qed.

(** A record accepted; a flush that comes while it is queued, sleeps, and is woken by
    the worker's broadcast. *)
Definition accept_one : list faction := A_write 0 hello_record true :: repeat (A_step 0) 9.
Definition flush_one : list faction := repeat (A_flush 0) 3 ++ repeat A_worker 19 ++ repeat (A_flush 0) 7.

Lemma async_exactly_once_witness :
  ∃ s, run_one one_init (accept_one ++ repeat A_worker 19) = Some s ∧ omap by_worker (f_trace s) ≡ₚ [hello_record] ∧
    ∃ ops, concat (omap id ops) = B "<WARN> hello" ++ [10] ∧
      d_store (f_disp s) !! 0%nat = Some (LogSink 0 false false (foldl sink_op [] ops)).
Proof.
  assert ((λ s, (f_written s, map fst (f_calls s), busy (f_worker s), log_async_get_queue_depth_for s, omap accepted_ret (f_rets s),
      omap by_caller (f_trace s), due None test_cfg one_fc (LogSink 0 false false (@nil cstr)) (omap by_worker (f_trace s)))) <$>
    run_one one_init (accept_one ++ repeat A_worker 19) = Some ([hello_record], [L_idle], false, 0, [hello_record], [], B "<WARN> hello" ++ [10])) as E
    by (vm_compute; reflexivity).
  destruct (run_one one_init (accept_one ++ repeat A_worker 19)) as [s|] eqn:Es; [|discriminate]. injection E as E1 E2 E3 E4 E5 E6 E7. exists s.
  destruct (async_exactly_once None test_cfg one_fc one_sink 1 1 1 fresh_thread
    (0 + length (accept_one ++ repeat A_worker 19)) s one_well_set) as (_ & H1 & _ & H2).
  - exact (frun_steps None test_cfg one_fc (accept_one ++ repeat A_worker 19) 0 one_init one_init s (fsteps_O _ _ _ _) Es).
  - vm_compute. discriminate.
  - rewrite E1. apply Forall_singleton, hello_record_ok.
  - split; [done|]. split.
    + rewrite <- E5. apply H1; [|done|done]. clear - E2. revert E2. generalize (f_calls s). intros [|[c t] [|]]; [discriminate| |discriminate]. cbn. intros [= ->]. by apply Forall_singleton.
    + destruct (H2 E6 0%nat (LogSink 0 false false []) eq_refl) as (ops & Ho & Hc). exists ops. split; [|exact Ho].
      rewrite decide_True in Hc by (by left). exact (eq_trans Hc E7).
Defined.

Lemma async_flush_quiescent_witness :
  ∃ s0 s1 s, run_one one_init accept_one = Some s0 ∧ log_async_flush_for s0 0 = Some s1 ∧ run_one s1 flush_one = Some s ∧
    [hello_record] ⊆+ omap by_worker (f_trace s).
Proof.
  assert ((λ s, (f_flush s, f_rets s)) <$> run_one one_init accept_one = Some ([F_idle], [(hello_record, CLOG_OK)])) as E0
    by (vm_compute; reflexivity).
  destruct (run_one one_init accept_one) as [s0|] eqn:Es0; [|discriminate]. injection E0 as F0 R0.
  assert ((λ s, (f_flush s, f_written s)) <$> (s0 ← run_one one_init accept_one; s1 ← log_async_flush_for s0 0; run_one s1 flush_one) =
    Some ([F_done 1], [hello_record])) as E1 by (vm_compute; reflexivity).
  rewrite Es0 in E1. cbn [mbind option_bind] in E1. destruct (log_async_flush_for s0 0) as [s1|] eqn:Es1; [|discriminate].
  cbn [mbind option_bind] in E1. destruct (run_one s1 flush_one) as [s|] eqn:Es; [|discriminate]. injection E1 as F1 W1.
  exists s0, s1, s. split_and!; [done..|].
  assert (omap accepted_ret (f_rets s0) = [hello_record]) as <- by (by rewrite R0).
  apply (async_flush_quiescent None test_cfg one_fc one_sink 1 1 1 fresh_thread
    (0 + length accept_one) s0 0 F_idle s1 (0 + length flush_one) s 1 one_well_set).
  - exact (frun_steps None test_cfg one_fc accept_one 0 one_init one_init s0 (fsteps_O _ _ _ _) Es0).
  - by rewrite F0.
  - by left.
  - done.
  - exact (frun_steps None test_cfg one_fc flush_one 0 s1 s1 s (fsteps_O _ _ _ _) Es).
  - vm_compute. discriminate.
  - rewrite W1. apply Forall_singleton, hello_record_ok.
  - by rewrite F1.
Defined.

(** A call that has passed the check of [closed] when the queue is closed: the worker
    finds the queue empty and closed and exits, the call claims a position and
    returns success, and nobody dispatches its record. *)
Definition late_put : list faction :=
  [A_write 0 hello_record true; A_step 0; A_start_close; A_close] ++ repeat A_worker 5 ++ repeat (A_step 0) 8.

Example late_put_lost :
  (λ s, (f_worker s, f_rets s, f_trace s, log_async_get_queue_depth_for s)) <$> run_one one_init late_put =
  Some (V_exit, [(hello_record, CLOG_OK)], [], 1).
Proof. vm_compute. reflexivity. Qed.
