(* ===== verification/SocketWriter.v ===== *)
(** * The socket writer thread (core/socket_transport.c, core/socket_writer.c)

    The thread takes batches of lines from the ring, connects when it has to,
    frames and sends each line over a non-blocking socket, and backs off when
    that fails.  The system calls are parameters: what [send] and [SSL_write]
    answer, call by call, and what each step of a connection attempt returns.
    The bytes accepted by the peer are kept per connection. *)
From S2P Require Import Prelude Record.
From coqutil Require Import Datatypes.RecordSetters.
Import DoubleBraceUpdate.

Local Open Scope Z_scope.

(** ** Back-off *)

(** [now] is [clog_get_now_ms()] cut to 32 bits, the source of the jitter. *)
Definition backoff_next (now current_ms max_ms : Z) : Z :=
  let next := u32 (current_ms * 2) in
  let next := if next >? max_ms then max_ms else next in
  let jitter := next / 10 in
  let delta := u32 now mod u32 (2 * jitter + 1) in
  let next := if delta >? jitter then u32 (next + (delta - jitter)) else u32 (next - (jitter - delta)) in
  if next <? 100 then 100 else next.

(** [backoff_sleep]: the seconds and nanoseconds given to [nanosleep]. *)
Definition backoff_sleep (ms : Z) : Z * Z := (ms / 1000, ms mod 1000 * 1000000).

Lemma backoff_sleep_exact ms :
  0 <= ms → let '(sec, nsec) := backoff_sleep ms in 0 <= nsec < 10 ^ 9 ∧ sec * 10 ^ 9 + nsec = ms * 10 ^ 6.
Proof.
  intros H. unfold backoff_sleep. pose proof (Z.mod_pos_bound ms 1000). pose proof (Z.div_mod ms 1000). lia.
Qed.

(** [socket_set_nonblocking]: [flags] is what [F_GETFL] answers, [set] the result of
    [F_SETFL]; the flags set and the result. O_NONBLOCK is 2048 on Linux. *)
Definition socket_set_nonblocking (flags : Z) (set : Z → Z) : option Z * Z :=
  if flags <? 0 then (None, -1) else let f := Z.lor flags 2048 in (Some f, set f).

(** ** Sending *)

(** What a call that sends may answer: a number of bytes, "try again"
    (EAGAIN, EWOULDBLOCK, EINTR, SSL_ERROR_WANT_READ or _WRITE), or failure. *)
Inductive send_res := Sent (k : Z) | Again | Failed.

(** Documented: a call accepts at most what it is offered. *)
Definition sends_ok (send : nat → Z → send_res) : Prop :=
  ∀ i n k, 0 < n → send i n = Sent k → 0 <= k <= n.

(** [socket_send_nonblocking]: the answer, the bytes accepted and the next call's
    number. [None] when the fuel runs out. *)
Fixpoint send_loop (fuel : nat) (send : nat → Z → send_res) (i : nat) (buf : cstr) (total_sent : Z)
    : option (Z * Z * nat) :=
  if total_sent <? clen buf then
    match fuel with
    | O => None
    | S fuel' =>
        match send i (clen buf - total_sent) with
        | Again => Some (if i32 total_sent >? 0 then i32 total_sent else -1, total_sent, S i)
        | Failed => Some (-1, total_sent, S i)
        | Sent sent => if sent =? 0 then Some (i32 total_sent, total_sent, S i)
                       else send_loop fuel' send (S i) buf (total_sent + sent)
        end
    end
  else Some (i32 total_sent, total_sent, i).

Definition socket_send_nonblocking (send : nat → Z → send_res) (i : nat) (buf : cstr) : option (Z * Z * nat) :=
  send_loop (S (length buf)) send i buf 0.

(** [tls_send_nonblocking]: [SSL_write] never answers 0 bytes as success. *)
Fixpoint tls_loop (fuel : nat) (write : nat → Z → send_res) (i : nat) (buf : cstr) (total_sent : Z)
    : option (Z * Z * nat) :=
  if total_sent <? clen buf then
    match fuel with
    | O => None
    | S fuel' =>
        match write i (i32 (clen buf - total_sent)) with
        | Again => Some (if i32 total_sent >? 0 then i32 total_sent else -1, total_sent, S i)
        | Failed => Some (-1, total_sent, S i)
        | Sent sent => if sent <=? 0 then Some (-1, total_sent, S i)
                       else tls_loop fuel' write (S i) buf (total_sent + sent)
        end
    end
  else Some (i32 total_sent, total_sent, i).

Definition tls_send_nonblocking (write : nat → Z → send_res) (i : nat) (buf : cstr) : option (Z * Z * nat) :=
  tls_loop (S (length buf)) write i buf 0.

(** ** Connecting *)

Inductive connect_res := C_ok | C_inprogress | C_err.
Inductive handshake_res := H_ok | H_want | H_err.

(** The answers of one connection attempt. [e_handshake] are the results of the
    successive [SSL_connect] calls. *)
Record conn_env := ConnEnv {
  e_socket : bool; e_nonblock : bool; e_pton : cstr → bool; e_connect : connect_res;
  e_select : Z; e_so_error : Z; e_ctx_new : bool; e_ssl_new : bool; e_handshake : list handshake_res
}.

(** [port] and [timeout_ms] only reach the system calls. *)
Definition socket_connect_nonblocking (e : conn_env) (host : cstr) : Z :=
  if negb (e_pton e host) then -1 else
  match e_connect e with
  | C_ok => 0
  | C_inprogress => if e_select e >? 0 then (if e_so_error e =? 0 then 0 else -1) else -1
  | C_err => -1
  end.

(** The loop around [SSL_connect]; [None] while it has not returned. *)
Fixpoint tls_handshake (l : list handshake_res) : option bool :=
  match l with
  | [] => None
  | H_ok :: _ => Some true
  | H_err :: _ => Some false
  | H_want :: l' => tls_handshake l'
  end.

(** ** The writer *)

Record socket_writer_config_t := WriterConfig {
  wc_host : option cstr; wc_port : Z; wc_use_tls : bool; wc_ca_file : option cstr; wc_skip_verify : bool;
  wc_ring_capacity : Z; wc_backoff_min_ms : Z; wc_backoff_max_ms : Z; wc_connect_timeout_ms : Z
}.

(** [w_net] counts [clog_net_init] without its cleanup, [w_sent] is the number of
    send calls so far, [w_wire] the bytes accepted on each connection, the current
    one last, [w_freed] the heap lines freed, [w_slept] the delays slept. *)
Record socket_writer_t := Writer {
  w_config : socket_writer_config_t;
  w_sockfd : bool; w_connected : bool; w_ssl : bool; w_ssl_ctx : bool;
  w_backoff_ms : Z; w_net : Z; w_sent : nat; w_wire : list cstr; w_freed : nat; w_slept : list Z
}.

Definition socket_writer_cleanup (w : socket_writer_t) : socket_writer_t :=
  w{{ w_ssl := false; w_ssl_ctx := false; w_sockfd := false; w_net := w_net w - 1; w_connected := false }}.

(** [tls] is the build option CLOG_USE_TLS. *)
Definition socket_writer_connect (tls : bool) (e : conn_env) (w : socket_writer_t) : option (socket_writer_t * Z) :=
  if w_connected w then Some (w, 0) else
  let w := w{{ w_net := w_net w + 1 }} in
  if negb (e_socket e) then Some (w{{ w_sockfd := false; w_net := w_net w - 1 }}, -1) else
  let w := w{{ w_sockfd := true }} in
  if negb (e_nonblock e) || negb (socket_connect_nonblocking e (or_default (wc_host (w_config w)) []) =? 0)
  then Some (socket_writer_cleanup w, -1) else
  let established w :=
    Some (w{{ w_connected := true; w_backoff_ms := wc_backoff_min_ms (w_config w); w_wire := w_wire w ++ [[]] }}, 0) in
  if wc_use_tls (w_config w) then
    if negb tls then Some (socket_writer_cleanup w, -1) else
    if negb (e_ctx_new e) then Some (socket_writer_cleanup w, -1) else
    let w := w{{ w_ssl_ctx := true }} in
    if negb (e_ssl_new e) then Some (socket_writer_cleanup w, -1) else
    let w := w{{ w_ssl := true }} in
    ok ← tls_handshake (e_handshake e);
    if (ok : bool) then established w else Some (socket_writer_cleanup w, -1)
  else established w.

(** [l ++ [last]] becomes [l ++ [last ++ b]]. *)
Fixpoint append_last (b : cstr) (l : list cstr) : list cstr :=
  match l with
  | [] => []
  | [x] => [x ++ b]
  | x :: l' => x :: append_last b l'
  end.

Section thread.
Context (tls : bool) (send ssl_write : nat → Z → send_res).

Definition socket_writer_send (w : socket_writer_t) (line : cstr) : option (socket_writer_t * Z) :=
  if negb (w_connected w) then Some (w, -1) else
  '(rc, n, i) ← (if tls && wc_use_tls (w_config w) && w_ssl w
                 then tls_send_nonblocking ssl_write (w_sent w) line
                 else socket_send_nonblocking send (w_sent w) line);
  Some (w{{ w_sent := i; w_wire := append_last (take (Z.to_nat n) line) (w_wire w) }}, rc).

(** A line of the batch: its bytes ([None] for the empty slot of a failed
    allocation), whether its last byte was a newline when it was tested, whether it is
    on the heap, and whether the [malloc] for its framed copy succeeds. The test and the
    copy read the line one after the other. *)
Record batch_line := BLine { bl_text : option cstr; bl_nl : bool; bl_heap : bool; bl_malloc : bool }.

Definition ends_nl (l : cstr) : bool := bool_decide (last l = Some 10).
(** A line that does not change while it is read. *)
Definition steady (text : option cstr) (heap malloc : bool) : batch_line :=
  BLine text (match text with Some l => ends_nl l | None => false end) heap malloc.

Definition free_line (w : socket_writer_t) (b : batch_line) : socket_writer_t :=
  if bl_heap b then w{{ w_freed := S (w_freed w) }} else w.
Definition free_lines (w : socket_writer_t) (l : list batch_line) : socket_writer_t := foldl free_line w l.

(** Frame and send one line; a line without room for its frame is skipped. *)
Definition send_line (w : socket_writer_t) (b : batch_line) (line : cstr) : option (socket_writer_t * Z) :=
  if bl_nl b then socket_writer_send w line
  else if (clen line + 1 <=? 512) || bl_malloc b then socket_writer_send w (line ++ [10])
  else Some (w, 0).

(** The bytes of a line that is sent at all. *)
Definition line_bytes (b : batch_line) : option cstr :=
  match bl_text b with Some (c :: l) => Some (c :: l) | _ => None end.

(** The loop over a batch; the flag is [send_failed]. *)
Fixpoint send_batch (w : socket_writer_t) (l : list batch_line) : option (socket_writer_t * bool) :=
  match l with
  | [] => Some (w, false)
  | b :: l' =>
      match line_bytes b with
      | None => send_batch (free_line w b) l'
      | Some line =>
          '(w, rc) ← send_line w b line;
          let w := free_line w b in
          if rc <? 0 then Some (free_lines w l', true) else send_batch w l'
      end
  end.

(** One turn of the thread's loop on a batch that [socket_ring_get_batch] returned.
    [now] is the clock read by [backoff_next]. *)
Definition back_off (now : Z) (w : socket_writer_t) : socket_writer_t :=
  w{{ w_slept := w_slept w ++ [w_backoff_ms w];
      w_backoff_ms := backoff_next now (w_backoff_ms w) (wc_backoff_max_ms (w_config w)) }}.

(** A batch went out: the delay is the configured minimum again. *)
Definition w_reset (w : socket_writer_t) : socket_writer_t := w{{ w_backoff_ms := wc_backoff_min_ms (w_config w) }}.

Definition writer_turn (e : conn_env) (now : Z) (w : socket_writer_t) (batch : list batch_line)
    : option socket_writer_t :=
  match batch with
  | [] => Some w
  | _ =>
      '(w, rc) ← (if w_connected w then Some (w, 0) else socket_writer_connect tls e w);
      if negb (rc =? 0) then Some (free_lines (back_off now w) batch)
      else
        '(w, send_failed) ← send_batch w batch;
        if (send_failed : bool) then Some (back_off now (socket_writer_cleanup w))
        else Some (w_reset w)
  end.

(** The final drain ignores what [socket_writer_send] answers. *)
Fixpoint drain_batch (w : socket_writer_t) (l : list batch_line) : option socket_writer_t :=
  match l with
  | [] => Some w
  | b :: l' =>
      match line_bytes b with
      | None => drain_batch (free_line w b) l'
      | Some line => '(w, _) ← send_line w b line; drain_batch (free_line w b) l'
      end
  end.

Fixpoint drain_batches (w : socket_writer_t) (ls : list (list batch_line)) : option socket_writer_t :=
  match ls with
  | [] => Some w
  | l :: ls' => w ← drain_batch w l; drain_batches w ls'
  end.

(** [socket_writer_thread]: the turns until the ring is closed and drained, then the
    final drain over what arrives in between. *)
Fixpoint writer_turns (w : socket_writer_t) (ts : list (conn_env * Z * list batch_line)) : option socket_writer_t :=
  match ts with
  | [] => Some w
  | (e, now, batch) :: ts' => w ← writer_turn e now w batch; writer_turns w ts'
  end.

Definition socket_writer_thread (w : socket_writer_t) (ts : list (conn_env * Z * list batch_line))
    (e : conn_env) (rest : list (list batch_line)) : option socket_writer_t :=
  w ← writer_turns w ts;
  '(w, rc) ← (if w_connected w then Some (w, 0) else socket_writer_connect tls e w);
  if rc =? 0 then w ← drain_batches w rest; Some (socket_writer_cleanup w) else Some w.

End thread.

(** ** socket_writer_start *)

(** The configuration the thread runs with and the ring capacity it asks for. *)
Definition sane_config (c : socket_writer_config_t) : socket_writer_config_t :=
  WriterConfig (wc_host c) (wc_port c) (wc_use_tls c) (wc_ca_file c) (wc_skip_verify c)
    (if wc_ring_capacity c =? 0 then 8192 else wc_ring_capacity c)
    (if wc_backoff_min_ms c =? 0 then 1000 else wc_backoff_min_ms c)
    (if wc_backoff_max_ms c =? 0 then 60000 else wc_backoff_max_ms c)
    (wc_connect_timeout_ms c).

(** [ring_ok]: what [socket_ring_create] answers for the capacity. *)
Definition socket_writer_start (config : option socket_writer_config_t) (alloc : bool) (ring_ok : Z → bool)
    : option socket_writer_t :=
  c ← config;
  if bool_decide (wc_host c = None) || (wc_port c <=? 0) || (wc_port c >? 65535) then None
  else if negb alloc then None
  else
    let c := sane_config c in
    if ring_ok (wc_ring_capacity c)
    then Some (Writer c false false false false (wc_backoff_min_ms c) 0 0 [] 0 [])
    else None.

(** ** Sending: termination and accounting *)

Lemma send_loop_spec send (Hs : sends_ok send) buf : clen buf < 2 ^ 31 → ∀ fuel i t,
  0 <= t <= clen buf → clen buf - t < Z.of_nat fuel →
  ∃ rc n j, send_loop fuel send i buf t = Some (rc, n, j) ∧ t <= n <= clen buf ∧ (rc = -1 ∨ rc = n).
Proof.
  intros Hb. induction fuel as [|fuel IH]; intros i t Ht Hf; [lia|]. cbn.
  assert (i32 t = t) as Hi by (apply i32_id; split; lia). destruct (Z.ltb_spec t (clen buf)).
  2:{ do 3 eexists. split; [reflexivity|]. split; [lia|]. right. lia. }
  destruct (send i (clen buf - t)) as [k| |] eqn:E.
  - apply Hs in E; [|lia]. destruct (Z.eqb_spec k 0) as [->|Hk].
    + do 3 eexists. split; [reflexivity|]. split; [lia|]. right. lia.
    + destruct (IH (S i) (t + k)) as (rc & n & j & H1 & H2 & H3); [lia..|]. do 3 eexists.
      split; [exact H1|]. split; [lia|done].
  - do 3 eexists. split; [reflexivity|]. split; [lia|]. rewrite Hi. zcases; auto.
  - do 3 eexists. split; [reflexivity|]. split; [lia|]. by left.
Qed.

Lemma tls_loop_spec write (Hs : sends_ok write) buf : clen buf < 2 ^ 31 → ∀ fuel i t,
  0 <= t <= clen buf → clen buf - t < Z.of_nat fuel →
  ∃ rc n j, tls_loop fuel write i buf t = Some (rc, n, j) ∧ t <= n <= clen buf ∧ (rc = -1 ∨ rc = n).
Proof.
  intros Hb. induction fuel as [|fuel IH]; intros i t Ht Hf; [lia|]. cbn.
  assert (i32 t = t) as Hi by (apply i32_id; split; lia). destruct (Z.ltb_spec t (clen buf)).
  2:{ do 3 eexists. split; [reflexivity|]. split; [lia|]. right. lia. }
  rewrite (i32_id (clen buf - t)) by (split; lia).
  destruct (write i (clen buf - t)) as [k| |] eqn:E.
  - apply Hs in E; [|lia]. destruct (Z.leb_spec k 0).
    + do 3 eexists. split; [reflexivity|]. split; [lia|]. by left.
    + destruct (IH (S i) (t + k)) as (rc & n & j & H1 & H2 & H3); [lia..|]. do 3 eexists.
      split; [exact H1|]. split; [lia|done].
  - do 3 eexists. split; [reflexivity|]. split; [lia|]. rewrite Hi. zcases; auto.
  - do 3 eexists. split; [reflexivity|]. split; [lia|]. by left.
Qed.

(** ** The thread's state *)

(** What is open is open together. *)
Record writer_ok (w : socket_writer_t) : Prop := {
  wo_sock : w_sockfd w = w_connected w;
  wo_ssl : w_ssl w = true → w_connected w = true;
  wo_ctx : w_ssl_ctx w = true → w_connected w = true;
  wo_net : w_net w = if w_connected w then 1 else 0;
  wo_wire : w_connected w = true → w_wire w ≠ []
}.

(** [w'] differs from [w] by [p] bytes more on the wire and [f] lines freed. *)
Record moved (w w' : socket_writer_t) (p : cstr) (f : nat) : Prop := {
  mv_config : w_config w' = w_config w;
  mv_connected : w_connected w' = w_connected w;
  mv_ok : writer_ok w → writer_ok w';
  mv_backoff : w_backoff_ms w' = w_backoff_ms w;
  mv_slept : w_slept w' = w_slept w;
  mv_wire : mjoin (w_wire w') = mjoin (w_wire w) ++ p;
  mv_freed : w_freed w' = (w_freed w + f)%nat
}.

Lemma moved_refl w : moved w w [] 0.
Proof. constructor; try done. by rewrite app_nil_r. Qed.

Lemma moved_trans w1 w2 w3 p q f g : moved w1 w2 p f → moved w2 w3 q g → moved w1 w3 (p ++ q) (f + g).
Proof.
  intros [] []. constructor; [congruence|congruence|by eauto|congruence|congruence| |lia].
  by rewrite mv_wire1, mv_wire0, app_assoc.
Qed.

Definition heap_lines (l : list batch_line) : nat := length (filter (λ b, bl_heap b = true) l).

Lemma heap_lines_cons b l : heap_lines (b :: l) = ((if bl_heap b then 1 else 0) + heap_lines l)%nat.
Proof. unfold heap_lines. rewrite filter_cons. by destruct (bl_heap b). Qed.

Lemma moved_free w b : moved w (free_line w b) [] (if bl_heap b then 1 else 0).
Proof.
  unfold free_line. destruct (bl_heap b); [|apply moved_refl].
  destruct w. constructor; cbn; try done; unfold RecordSetters.constant;
    [intros []; by constructor|by rewrite app_nil_r|lia].
Qed.

Lemma moved_frees l : ∀ w, moved w (free_lines w l) [] (heap_lines l).
Proof.
  induction l as [|b l IH]; intros w; [apply moved_refl|].
  rewrite heap_lines_cons. exact (moved_trans _ _ _ _ _ _ _ (moved_free w b) (IH _)).
Qed.

Lemma append_last_join b l : l ≠ [] → mjoin (append_last b l) = mjoin l ++ b.
Proof.
  induction l as [|x l IH]; [done|]. intros _. destruct l as [|y l]; [cbn; by rewrite !app_nil_r|].
  change (mjoin (append_last b (x :: y :: l))) with (x ++ mjoin (append_last b (y :: l))).
  rewrite IH by done. change (mjoin (x :: y :: l)) with (x ++ mjoin (y :: l)). by rewrite app_assoc.
Qed.
Lemma append_last_nonempty b l : l ≠ [] → append_last b l ≠ [].
Proof. destruct l as [|x [|y l]]; done. Qed.

Section thread_facts.
Context (tls : bool) (send ssl_write : nat → Z → send_res).
Context (Hsend : sends_ok send) (Hssl : sends_ok ssl_write).

Lemma socket_writer_send_spec w line :
  writer_ok w → w_connected w = true → clen line < 2 ^ 31 →
  ∃ w' rc n, socket_writer_send tls send ssl_write w line = Some (w', rc) ∧
    moved w w' (take (Z.to_nat n) line) 0 ∧ 0 <= n <= clen line ∧ (rc = -1 ∨ rc = n).
Proof using Hsend Hssl.
  intros Hok Hc Hl. unfold socket_writer_send. rewrite Hc. cbn [negb].
  assert (∃ rc n j, (if tls && wc_use_tls (w_config w) && w_ssl w
     then tls_send_nonblocking ssl_write (w_sent w) line
     else socket_send_nonblocking send (w_sent w) line) = Some (rc, n, j) ∧ 0 <= n <= clen line ∧
     (rc = -1 ∨ rc = n)) as (rc & n & j & -> & Hn & Hrc).
  { pose proof (clen_nonneg line). destruct (_ && _ && _);
      [apply tls_loop_spec|apply send_loop_spec]; try done; unfold clen in *; lia. }
  cbn. do 3 eexists. split; [reflexivity|]. split; [|done].
  pose proof (wo_wire _ Hok Hc) as Hw. destruct w; cbn in *. constructor; cbn; try done.
  - intros []. constructor; cbn in *; try done. intros _. by apply append_last_nonempty.
  - by apply append_last_join.
Qed.

(** What the wire gets for a line, if everything works. *)
Definition frame (b : batch_line) : cstr :=
  match line_bytes b with
  | None => []
  | Some l => if bl_nl b then l else l ++ [10]
  end.

Definition short (b : batch_line) : Prop := clen (frame b) < 2 ^ 31.

Lemma send_line_spec w b line :
  writer_ok w → w_connected w = true → line_bytes b = Some line → short b →
  ∃ w' rc p, send_line tls send ssl_write w b line = Some (w', rc) ∧ moved w w' p 0 ∧ p `prefix_of` frame b.
Proof using Hsend Hssl.
  intros Hok Hc Hb Hs. unfold send_line, short, frame in *. rewrite Hb in *.
  assert (∀ l, clen l < 2 ^ 31 → ∃ w' rc p, socket_writer_send tls send ssl_write w l = Some (w', rc) ∧
    moved w w' p 0 ∧ p `prefix_of` l) as Hsd.
  { intros l Hl. destruct (socket_writer_send_spec w l Hok Hc Hl) as (w' & rc & n & H1 & H2 & _).
    do 3 eexists. split; [exact H1|]. split; [exact H2|]. eexists. symmetry. apply take_drop. }
  destruct (bl_nl b); [by apply Hsd|]. destruct ((clen line + 1 <=? 512) || bl_malloc b); [by apply Hsd|].
  do 3 eexists. split; [reflexivity|]. split; [apply moved_refl|]. apply prefix_nil.
Qed.

(** Pieces of the lines, in order. *)
Definition pieces (l : list batch_line) (ps : list cstr) : Prop := Forall2 (λ p b, p `prefix_of` frame b) ps l.

Lemma pieces_none l : pieces l (map (λ _, []) l) ∧ mjoin (map (λ _ : batch_line, @nil Z) l) = [].
Proof.
  split; [|induction l; done]. induction l; [constructor|]. constructor; [apply prefix_nil|done].
Qed.

Lemma send_batch_spec l : ∀ w,
  writer_ok w → w_connected w = true → Forall short l →
  ∃ w' b ps, send_batch tls send ssl_write w l = Some (w', b) ∧ pieces l ps ∧ moved w w' (mjoin ps) (heap_lines l).
Proof using Hsend Hssl.
  induction l as [|b l IH]; intros w Hok Hc Hs.
  { exists w, false, []. split; [done|]. split; [constructor|apply moved_refl]. }
  apply Forall_cons in Hs as [Hb Hs]. cbn [send_batch]. rewrite heap_lines_cons.
  pose proof (λ w, moved_free w b) as Hfree. destruct (line_bytes b) as [line|] eqn:El.
  2:{ destruct (IH (free_line w b)) as (w' & r & ps & H1 & H2 & H3);
        [by apply (mv_ok _ _ _ _ (Hfree w))|by rewrite (mv_connected _ _ _ _ (Hfree w))|done|].
      exists w', r, ([] :: ps). split; [done|]. split; [constructor; [apply prefix_nil|done]|].
      exact (moved_trans _ _ _ [] _ _ _ (Hfree w) H3). }
  destruct (send_line_spec w b line Hok Hc El Hb) as (w1 & rc & p & -> & M1 & Hp). cbn.
  pose proof (moved_trans _ _ _ _ _ _ _ M1 (Hfree w1)) as M2. rewrite app_nil_r in M2. cbn in M2.
  destruct (rc <? 0).
  - do 2 eexists. exists (p :: map (λ _, []) l). split; [reflexivity|]. destruct (pieces_none l) as [Hn1 Hn2].
    split; [by constructor|]. change (mjoin (p :: ?k)) with (p ++ mjoin k). rewrite Hn2. exact (moved_trans _ _ _ _ _ _ _ M2 (moved_frees l _)).
  - destruct (IH (free_line w1 b)) as (w' & r & ps & H1 & H2 & H3);
      [by apply (mv_ok _ _ _ _ M2)|by rewrite (mv_connected _ _ _ _ M2)|done|].
    exists w', r, (p :: ps). split; [done|]. split; [by constructor|]. exact (moved_trans _ _ _ _ _ _ _ M2 H3).
Qed.

Lemma drain_batch_spec l : ∀ w,
  writer_ok w → w_connected w = true → Forall short l →
  ∃ w' ps, drain_batch tls send ssl_write w l = Some w' ∧ pieces l ps ∧ moved w w' (mjoin ps) (heap_lines l).
Proof using Hsend Hssl.
  induction l as [|b l IH]; intros w Hok Hc Hs.
  { exists w, []. split; [done|]. split; [constructor|apply moved_refl]. }
  apply Forall_cons in Hs as [Hb Hs]. cbn [drain_batch]. rewrite heap_lines_cons.
  pose proof (λ w, moved_free w b) as Hfree.
  assert (∃ w1 p, (match line_bytes b with None => Some (w, 0) | Some line => send_line tls send ssl_write w b line end
    = Some (w1, p.2)) ∧ moved w w1 p.1 0 ∧ p.1 `prefix_of` frame b) as (w1 & [p rc] & E & M1 & Hp).
  { destruct (line_bytes b) as [line|] eqn:El.
    - destruct (send_line_spec w b line Hok Hc El Hb) as (w1 & rc & p & ? & ? & ?). by exists w1, (p, rc).
    - exists w, ([], 0). split; [done|]. split; [apply moved_refl|apply prefix_nil]. }
  pose proof (moved_trans _ _ _ _ _ _ _ M1 (Hfree w1)) as M2. cbn in M2, Hp, E. rewrite app_nil_r in M2.
  destruct (IH (free_line w1 b)) as (w' & ps & H1 & H2 & H3);
    [by apply (mv_ok _ _ _ _ M2)|by rewrite (mv_connected _ _ _ _ M2)|done|].
  exists w', (p :: ps). split; [|split; [by constructor|exact (moved_trans _ _ _ _ _ _ _ M2 H3)]].
  destruct (line_bytes b); [by rewrite E|]. by injection E as ->.
Qed.

(** A connection attempt either leaves everything closed, or opens a new
    connection with the delay reset. *)
Definition settles (e : conn_env) : Prop := tls_handshake (e_handshake e) ≠ None.

Lemma socket_writer_connect_spec e w :
  writer_ok w → w_connected w = false → settles e →
  ∃ w' rc, socket_writer_connect tls e w = Some (w', rc) ∧ writer_ok w' ∧ w_config w' = w_config w ∧
    mjoin (w_wire w') = mjoin (w_wire w) ∧ w_freed w' = w_freed w ∧ w_slept w' = w_slept w ∧
    (rc = 0 ∧ w_connected w' = true ∧ w_backoff_ms w' = wc_backoff_min_ms (w_config w) ∨
     rc = -1 ∧ w_connected w' = false ∧ w_backoff_ms w' = w_backoff_ms w).
Proof using.
  intros [H1 H2 H3 H4 H5] Hc Hs. unfold socket_writer_connect, settles in *. rewrite Hc in *.
  destruct (tls_handshake (e_handshake e)) as [ok|]; [|done].
  assert (w_ssl w = false ∧ w_ssl_ctx w = false) as [Hssl0 Hctx0].
  { split; [destruct (w_ssl w)|destruct (w_ssl_ctx w)]; try done; [by discriminate H2|by discriminate H3]. }
  destruct w. cbn in *. subst.
  repeat (match goal with |- context [if ?b then _ else _] => destruct b end; cbn);
    (do 2 eexists; split; [reflexivity|]; cbn);
    (split; [constructor; cbn; unfold RecordSetters.constant; try done; by destruct w_wire0|]);
    unfold RecordSetters.constant; split_and!; try done; try (by right); try (by left);
    rewrite join_app; cbn; by rewrite app_nil_r.
Qed.

Lemma cleanup_ok w : writer_ok w → w_connected w = true → writer_ok (socket_writer_cleanup w).
Proof using. intros [] Hc. destruct w. cbn in *. subst. constructor; cbn; done. Qed.


(** ** Delays *)

Lemma backoff_next_within now current max_ms :
  0 <= max_ms → max_ms + max_ms / 10 < 2 ^ 32 →
  let base := Z.min (u32 (current * 2)) max_ms in
  Z.max 100 (base - base / 10) <= backoff_next now current max_ms <= Z.max 100 (base + base / 10).
Proof using.
  intros H0 Hm base. unfold backoff_next. pose proof (u32_range (current * 2)) as Hr. unfold is_u32 in Hr.
  replace (if u32 (current * 2) >? max_ms then max_ms else u32 (current * 2)) with base by (unfold base; zcases; lia).
  assert (0 <= base <= max_ms) as Hb by (unfold base; lia).
  pose proof (Z.div_le_mono base max_ms 10 ltac:(lia) ltac:(lia)).
  pose proof (Z.div_pos base 10 ltac:(lia) ltac:(lia)). pose proof (Z.mul_div_le base 10 ltac:(lia)).
  pose proof (Z.mul_div_le max_ms 10 ltac:(lia)).
  rewrite (u32_id (2 * _ + 1)) by (split; lia).
  pose proof (Z.mod_pos_bound (u32 now) (2 * (base / 10) + 1) ltac:(lia)).
  rewrite Z.gtb_ltb. destruct (Z.ltb_spec (base / 10) (u32 now mod (2 * (base / 10) + 1)));
    rewrite u32_id by (split; lia); zcases; lia.
Qed.

(** The minimum, or between 100 ms and the maximum with its jitter. *)
Definition delay_ok (c : socket_writer_config_t) (d : Z) : Prop :=
  d = wc_backoff_min_ms c ∨ 100 <= d <= Z.max 100 (wc_backoff_max_ms c + wc_backoff_max_ms c / 10).

Definition config_ok (c : socket_writer_config_t) : Prop :=
  0 <= wc_backoff_max_ms c ∧ wc_backoff_max_ms c + wc_backoff_max_ms c / 10 < 2 ^ 32.

Lemma backoff_delay_ok c now current : config_ok c → delay_ok c (backoff_next now current (wc_backoff_max_ms c)).
Proof using.
  intros [H0 H1]. right. destruct (backoff_next_within now current _ H0 H1) as [H2 H3]. cbn in *.
  set (base := Z.min _ _) in *. assert (base <= wc_backoff_max_ms c) by (unfold base; lia).
  pose proof (Z.div_le_mono base (wc_backoff_max_ms c) 10 ltac:(lia) ltac:(lia)). lia.
Qed.

(** ** The thread *)

(** From [w] to [w'] the lines [l] were dealt with: [ps] of them reached the wire
    and their heap lines are freed; the delays slept were good ones. *)
Record served (w w' : socket_writer_t) (l : list batch_line) (ps : list cstr) : Prop := {
  sv_config : w_config w' = w_config w;
  sv_ok : writer_ok w';
  sv_pieces : pieces l ps;
  sv_wire : mjoin (w_wire w') = mjoin (w_wire w) ++ mjoin ps;
  sv_freed : w_freed w' = (w_freed w + heap_lines l)%nat;
  sv_delay : delay_ok (w_config w) (w_backoff_ms w');
  sv_slept : Forall (delay_ok (w_config w)) (w_slept w) → Forall (delay_ok (w_config w)) (w_slept w')
}.

Lemma back_off_fields now w :
  let w' := back_off now w in
  w_config w' = w_config w ∧ w_connected w' = w_connected w ∧ (writer_ok w → writer_ok w') ∧
  w_wire w' = w_wire w ∧ w_freed w' = w_freed w ∧ w_slept w' = w_slept w ++ [w_backoff_ms w] ∧
  w_backoff_ms w' = backoff_next now (w_backoff_ms w) (wc_backoff_max_ms (w_config w)).
Proof using. destruct w. cbn. split_and!; try done. intros []. by constructor. Qed.

Lemma writer_turn_spec e now w l :
  writer_ok w → settles e → config_ok (w_config w) → delay_ok (w_config w) (w_backoff_ms w) → Forall short l →
  ∃ w' ps, writer_turn tls send ssl_write e now w l = Some w' ∧ served w w' l ps.
Proof using Hsend Hssl.
  intros Hok He Hcfg Hd Hl. unfold writer_turn. destruct l as [|b l].
  { exists w, []. split; [done|]. constructor; try done; [constructor|by rewrite app_nil_r]. }
  set (batch := b :: l) in *.
  assert (∃ w1 rc, (if w_connected w then Some (w, 0) else socket_writer_connect tls e w) = Some (w1, rc) ∧
    writer_ok w1 ∧ w_config w1 = w_config w ∧ mjoin (w_wire w1) = mjoin (w_wire w) ∧ w_freed w1 = w_freed w ∧
    w_slept w1 = w_slept w ∧ delay_ok (w_config w) (w_backoff_ms w1) ∧
    (rc = 0 ∧ w_connected w1 = true ∨ rc = -1)) as (w1 & rc & -> & O1 & C1 & W1 & F1 & S1 & D1 & Hrc).
  { destruct (w_connected w) eqn:Hc; [exists w, 0; split_and!; auto|].
    destruct (socket_writer_connect_spec e w Hok Hc He) as (w1 & rc & H1 & H2 & H3 & H4 & H5 & H6 & H7).
    exists w1, rc. split_and!; try done; [|destruct H7 as [(? & ? & _)|(? & _)]; auto].
    destruct H7 as [(_ & _ & ->)|(_ & _ & ->)]; [by left|done]. }
  cbn [mbind option_bind]. destruct Hrc as [[-> Hc]| ->].
  - change (negb (0 =? 0)) with false. cbn match.
    destruct (send_batch_spec batch w1 O1 Hc Hl) as (w2 & failed & ps & -> & Hps & []). cbn [mbind option_bind].
    destruct failed.
    + destruct (back_off_fields now (socket_writer_cleanup w2)) as (B1 & B2 & B3 & B4 & B5 & B6 & B7).
      assert (w_config (socket_writer_cleanup w2) = w_config w ∧ w_wire (socket_writer_cleanup w2) = w_wire w2 ∧
        w_freed (socket_writer_cleanup w2) = w_freed w2 ∧ w_slept (socket_writer_cleanup w2) = w_slept w2 ∧
        w_backoff_ms (socket_writer_cleanup w2) = w_backoff_ms w2) as (G1 & G2 & G3 & G4 & G5).
      { rewrite <- C1, <- mv_config0. by destruct w2. }
      eexists _, ps. split; [reflexivity|]. constructor; [congruence| |done|congruence|congruence| |].
      * apply B3, cleanup_ok; [auto|congruence].
      * rewrite B7, G1. by apply backoff_delay_ok.
      * rewrite B6, G4, G5, mv_slept0, mv_backoff0, S1. intros H. apply Forall_app. split; [done|].
        constructor; [done|constructor].
    + eexists _, ps. split; [reflexivity|]. specialize (mv_ok0 O1).
      destruct w2. cbn in *. constructor; cbn; unfold RecordSetters.constant; [congruence| |done|congruence|congruence| |congruence].
      * destruct mv_ok0. by constructor.
      * left. congruence.
  - change (negb (-1 =? 0)) with true. cbn match. destruct (back_off_fields now w1) as (B1 & B2 & B3 & B4 & B5 & B6 & B7).
    destruct (moved_frees batch (back_off now w1)). destruct (pieces_none batch) as [Hn1 Hn2].
    eexists _, _. split; [reflexivity|]. constructor; [congruence|by auto|exact Hn1| |congruence| |].
    * by rewrite Hn2, mv_wire0, B4, W1.
    * rewrite mv_backoff0, B7, C1. by apply backoff_delay_ok.
    * rewrite mv_slept0, B6, S1. intros H. apply Forall_app. split; [done|]. constructor; [done|constructor].
Qed.

Lemma pieces_app l k ps qs : pieces l ps → pieces k qs → pieces (l ++ k) (ps ++ qs).
Proof using. apply Forall2_app. Qed.

Lemma heap_lines_app l k : heap_lines (l ++ k) = (heap_lines l + heap_lines k)%nat.
Proof using. unfold heap_lines. by rewrite filter_app, length_app. Qed.

Lemma writer_turns_spec ts : ∀ w,
  writer_ok w → config_ok (w_config w) → delay_ok (w_config w) (w_backoff_ms w) →
  Forall (λ t, settles t.1.1 ∧ Forall short t.2) ts →
  ∃ w' ps, writer_turns tls send ssl_write w ts = Some w' ∧ served w w' (mjoin (map snd ts)) ps.
Proof using Hsend Hssl.
  induction ts as [|[[e now] l] ts IH]; intros w Hok Hcfg Hd Hts.
  { exists w, []. split; [done|]. constructor; try done; [constructor|by rewrite app_nil_r]. }
  apply Forall_cons in Hts as [[He Hl] Hts]. cbn [writer_turns].
  destruct (writer_turn_spec e now w l Hok He Hcfg Hd Hl) as (w1 & ps & -> & []). cbn [mbind option_bind].
  destruct (IH w1) as (w2 & qs & H1 & []); [done|by rewrite sv_config0|by rewrite sv_config0|done|].
  exists w2, (ps ++ qs). split; [done|]. change (mjoin (map snd ((e, now, l) :: ts))) with (l ++ mjoin (map snd ts)).
  rewrite sv_config0 in *. constructor; [done|done|by apply pieces_app| |rewrite heap_lines_app; lia|done|by auto].
  by rewrite sv_wire1, sv_wire0, join_app, app_assoc.
Qed.

Lemma drain_batches_spec ls : ∀ w,
  writer_ok w → w_connected w = true → Forall (Forall short) ls →
  ∃ w' ps, drain_batches tls send ssl_write w ls = Some w' ∧ pieces (mjoin ls) ps ∧
    moved w w' (mjoin ps) (heap_lines (mjoin ls)).
Proof using Hsend Hssl.
  induction ls as [|l ls IH]; intros w Hok Hc Hs.
  { exists w, []. split; [done|]. split; [constructor|apply moved_refl]. }
  apply Forall_cons in Hs as [Hl Hs]. cbn [drain_batches].
  destruct (drain_batch_spec l w Hok Hc Hl) as (w1 & ps & -> & Hps & M1). cbn [mbind option_bind].
  destruct (IH w1) as (w2 & qs & H1 & H2 & M2); [by apply M1|by rewrite (mv_connected _ _ _ _ M1)|done|].
  exists w2, (ps ++ qs). split; [done|]. change (mjoin (l :: ls)) with (l ++ mjoin ls).
  split; [by apply pieces_app|]. rewrite join_app, heap_lines_app. by eapply moved_trans.
Qed.


End thread_facts.

(** ** A peer that takes everything *)

Section healthy.
Context (tls : bool) (send ssl_write : nat → Z → send_res).
Context (Hsend : ∀ i n, 0 < n → send i n = Sent n) (Hssl : ∀ i n, 0 < n → ssl_write i n = Sent n).

Lemma healthy_send_loop i buf : clen buf < 2 ^ 31 →
  ∃ j, socket_send_nonblocking send i buf = Some (clen buf, clen buf, j).
Proof using Hsend.
  intros H. unfold socket_send_nonblocking. cbn. pose proof (clen_nonneg buf).
  destruct (Z.ltb_spec 0 (clen buf)).
  - rewrite Z.sub_0_r, Hsend by done. destruct (Z.eqb_spec (clen buf) 0); [lia|]. cbn.
    destruct (length buf); cbn; rewrite Z.ltb_irrefl, i32_id by (split; lia); eauto.
  - replace (clen buf) with 0 by lia. eauto.
Qed.

Lemma healthy_tls_loop i buf : clen buf < 2 ^ 31 →
  ∃ j, tls_send_nonblocking ssl_write i buf = Some (clen buf, clen buf, j).
Proof using Hssl.
  intros H. unfold tls_send_nonblocking. cbn. pose proof (clen_nonneg buf).
  destruct (Z.ltb_spec 0 (clen buf)).
  - rewrite Z.sub_0_r, i32_id, Hssl by (done || split; lia). destruct (Z.leb_spec (clen buf) 0); [lia|]. cbn.
    destruct (length buf); cbn; rewrite Z.ltb_irrefl, i32_id by (split; lia); eauto.
  - replace (clen buf) with 0 by lia. eauto.
Qed.

Lemma healthy_send w line :
  writer_ok w → w_connected w = true → clen line < 2 ^ 31 →
  ∃ w', socket_writer_send tls send ssl_write w line = Some (w', clen line) ∧ moved w w' line 0.
Proof using Hsend Hssl.
  intros Hok Hc Hl. unfold socket_writer_send. rewrite Hc. cbn [negb].
  assert (∃ j, (if tls && wc_use_tls (w_config w) && w_ssl w
     then tls_send_nonblocking ssl_write (w_sent w) line
     else socket_send_nonblocking send (w_sent w) line) = Some (clen line, clen line, j)) as (j & ->).
  { destruct (_ && _ && _); [by apply healthy_tls_loop|by apply healthy_send_loop]. }
  cbn. eexists. split; [reflexivity|]. unfold clen. rewrite Nat2Z.id, firstn_all.
  pose proof (wo_wire _ Hok Hc) as Hw. destruct w; cbn in *. constructor; cbn; try done.
  - intros []. constructor; cbn in *; try done. intros _. by apply append_last_nonempty.
  - by apply append_last_join.
Qed.

(** Every line is framed: the copy fits the stack buffer or [malloc] works. *)
Definition framed (b : batch_line) : Prop := bl_malloc b = true ∧ short b.

Lemma healthy_line w b line :
  writer_ok w → w_connected w = true → framed b → line_bytes b = Some line →
  ∃ w' n, send_line tls send ssl_write w b line = Some (w', n) ∧ 0 <= n ∧ moved w w' (frame b) 0.
Proof using Hsend Hssl.
  intros Hok Hc [Hm Hs] Hb. unfold short, frame, send_line in *. rewrite Hb in *.
  rewrite Hm, orb_true_r. destruct (bl_nl b);
    (edestruct (healthy_send w) as (w' & -> & ?); [done..|]; do 2 eexists; split; [done|]; split; [apply clen_nonneg|done]).
Qed.

Lemma healthy_batch l : ∀ w,
  writer_ok w → w_connected w = true → Forall framed l →
  ∃ w', send_batch tls send ssl_write w l = Some (w', false) ∧ moved w w' (mjoin (map frame l)) (heap_lines l).
Proof using Hsend Hssl.
  induction l as [|b l IH]; intros w Hok Hc Hs; [exists w; split; [done|apply moved_refl]|].
  apply Forall_cons in Hs as [[Hm Hb] Hs]. cbn [send_batch]. rewrite heap_lines_cons.
  change (mjoin (map frame (b :: l))) with (frame b ++ mjoin (map frame l)).
  pose proof (λ w, moved_free w b) as Hfree. destruct (line_bytes b) as [line|] eqn:El.
  2:{ unfold frame at 1. rewrite El. destruct (IH (free_line w b)) as (w' & H1 & H3);
        [by apply (mv_ok _ _ _ _ (Hfree w))|by rewrite (mv_connected _ _ _ _ (Hfree w))|done|].
      exists w'. split; [done|]. exact (moved_trans _ _ _ [] _ _ _ (Hfree w) H3). }
  destruct (healthy_line w b line Hok Hc ltac:(by split) El) as (w1 & n & -> & Hn & M1). cbn [mbind option_bind].
  pose proof (moved_trans _ _ _ _ _ _ _ M1 (Hfree w1)) as M2. rewrite app_nil_r in M2. cbn [Nat.add] in M2.
  destruct (Z.ltb_spec n 0); [lia|].
  destruct (IH (free_line w1 b)) as (w' & H1 & H3);
    [by apply (mv_ok _ _ _ _ M2)|by rewrite (mv_connected _ _ _ _ M2)|done|].
  exists w'. split; [done|]. exact (moved_trans _ _ _ _ _ _ _ M2 H3).
Qed.

Definition connects (e : conn_env) : Prop :=
  e_socket e = true ∧ e_nonblock e = true ∧ (∀ h, e_pton e h = true) ∧ e_connect e = C_ok.

(** One turn delivers its batch. *)
Lemma healthy_turn e now w l :
  writer_ok w → connects e → wc_use_tls (w_config w) = false → Forall framed l →
  ∃ w', writer_turn tls send ssl_write e now w l = Some w' ∧ writer_ok w' ∧ w_config w' = w_config w ∧
    mjoin (w_wire w') = mjoin (w_wire w) ++ mjoin (map frame l) ∧ w_slept w' = w_slept w ∧
    w_freed w' = (w_freed w + heap_lines l)%nat ∧ (l ≠ [] → w_connected w' = true) ∧
    (w_connected w = true → w_connected w' = true).
Proof using Hsend Hssl.
  intros Hok (E1 & E2 & E3 & E4) Htls Hl. unfold writer_turn. destruct l as [|b l].
  { exists w. split; [done|]. rewrite app_nil_r. split_and!; done || cbn; lia. }
  set (batch := b :: l) in *.
  assert (∃ w1, (if w_connected w then Some (w, 0) else socket_writer_connect tls e w) = Some (w1, 0) ∧
    writer_ok w1 ∧ w_config w1 = w_config w ∧ mjoin (w_wire w1) = mjoin (w_wire w) ∧ w_freed w1 = w_freed w ∧
    w_slept w1 = w_slept w ∧ w_connected w1 = true) as (w1 & -> & O1 & C1 & W1 & F1 & S1 & Hc).
  { destruct (w_connected w) eqn:Hc; [by exists w|].
    set (e' := ConnEnv (e_socket e) (e_nonblock e) (e_pton e) (e_connect e) (e_select e) (e_so_error e)
                 (e_ctx_new e) (e_ssl_new e) [H_ok]).
    assert (settles e') as Hset by done.
    assert (∃ w1, socket_writer_connect tls e' w = Some (w1, 0) ∧ socket_writer_connect tls e w = Some (w1, 0))
      as (w1 & H1 & H1').
    { unfold socket_writer_connect, socket_connect_nonblocking. rewrite Hc. cbn. rewrite E1, E2, E3, E4. cbn.
      destruct w. cbn in *. rewrite Htls. eexists. by split. }
    destruct (socket_writer_connect_spec tls e' w Hok Hc Hset) as (w2 & rc & H2 & H3 & H4 & H5 & H6 & H7 & H8).
    rewrite H1 in H2. injection H2 as <- <-. exists w1. split_and!; try done. by destruct H8 as [(_ & ? & _)|[? _]]. }
  cbn [mbind option_bind]. change (negb (0 =? 0)) with false. cbn match.
  destruct (healthy_batch batch w1 O1 Hc Hl) as (w2 & -> & []). cbn [mbind option_bind].
  eexists. split; [reflexivity|]. specialize (mv_ok0 O1). destruct w2. cbn in *. unfold RecordSetters.constant.
  split_and!; try congruence. destruct mv_ok0. by constructor.
Qed.

End healthy.

(** The thread from a fresh writer on. *)
Lemma writer_thread_spec tls send ssl_write w ts e rest :
  sends_ok send → sends_ok ssl_write →
  writer_ok w → delay_ok (w_config w) (w_backoff_ms w) → w_wire w = [] → w_freed w = 0%nat → w_slept w = [] →
  config_ok (w_config w) → settles e →
  Forall (λ t, settles t.1.1 ∧ Forall short t.2) ts → Forall (Forall short) rest →
  ∃ w' ps drained, socket_writer_thread tls send ssl_write w ts e rest = Some w' ∧
    (w_sockfd w' = false ∧ w_connected w' = false ∧ w_ssl w' = false ∧ w_ssl_ctx w' = false ∧ w_net w' = 0) ∧
    (let lines := mjoin (map snd ts) ++ (if (drained : bool) then mjoin rest else []) in
     Forall2 (λ p b, p `prefix_of` frame b) ps lines ∧ mjoin (w_wire w') = mjoin ps ∧
     w_freed w' = heap_lines lines) ∧
    Forall (delay_ok (w_config w)) (w_slept w') ∧
    (drained = false → ∀ w0 w1, writer_turns tls send ssl_write w ts = Some w0 →
       (if w_connected w0 then Some (w0, 0) else socket_writer_connect tls e w0) ≠ Some (w1, 0)).
Proof.
  intros Hs1 Hs2 Hok Hd Hwire Hfreed Hslept Hcfg He Hts Hrest. unfold socket_writer_thread.
  destruct (writer_turns_spec tls send ssl_write Hs1 Hs2 ts w Hok Hcfg Hd Hts) as (w1 & ps & Et & []). rewrite Et.
  cbn [mbind option_bind]. rewrite Hwire, Hfreed, Hslept in *. specialize (sv_slept0 ltac:(constructor)).
  assert (∃ w2 rc, (if w_connected w1 then Some (w1, 0) else socket_writer_connect tls e w1) = Some (w2, rc) ∧
    writer_ok w2 ∧ mjoin (w_wire w2) = mjoin (w_wire w1) ∧ w_freed w2 = w_freed w1 ∧ w_slept w2 = w_slept w1 ∧
    (rc = 0 ∧ w_connected w2 = true ∨ rc = -1 ∧ w_connected w2 = false)) as (w2 & rc & Ec & O2 & W2 & F2 & S2 & Hrc).
  { destruct (w_connected w1) eqn:Hc; [exists w1, 0; split_and!; auto|].
    destruct (socket_writer_connect_spec tls e w1 sv_ok0 Hc He) as (w2 & rc & ? & ? & ? & ? & ? & ? & Hrc).
    exists w2, rc. split_and!; try done. destruct Hrc as [(? & ? & _)|(? & ? & _)]; auto. }
  rewrite Ec. cbn [mbind option_bind]. destruct Hrc as [[-> Hc]|[-> Hc]].
  - change (0 =? 0) with true. cbn match.
    destruct (drain_batches_spec tls send ssl_write Hs1 Hs2 rest w2 O2 Hc Hrest) as (w3 & qs & -> & Hqs & []).
    cbn [mbind option_bind]. exists (socket_writer_cleanup w3), (ps ++ qs), true. split; [done|].
    rewrite Hc in mv_connected0. specialize (mv_ok0 O2). destruct (cleanup_ok w3 mv_ok0 mv_connected0).
    split; [destruct w3; cbn in *; by split_and!|]. split; [|split; [destruct w3; cbn in *; congruence|done]].
    split; [by apply pieces_app|]. rewrite heap_lines_app.
    replace (w_wire (socket_writer_cleanup w3)) with (w_wire w3) by (by destruct w3).
    replace (w_freed (socket_writer_cleanup w3)) with (w_freed w3) by (by destruct w3).
    split; [by rewrite mv_wire0, W2, sv_wire0, join_app|]. cbn in *. lia.
  - change (-1 =? 0) with false. cbn match. exists w2, ps, false. split; [done|].
    destruct O2 as [H1 H2 H3 H4 H5]. rewrite Hc in *.
    assert (w_ssl w2 = false) by (destruct (w_ssl w2); [by specialize (H2 eq_refl)|done]).
    assert (w_ssl_ctx w2 = false) by (destruct (w_ssl_ctx w2); [by specialize (H3 eq_refl)|done]).
    split; [by split_and!|].
    rewrite app_nil_r. split; [|split; [congruence|intros _ ? ? [= <-]; congruence]]. split; [done|]. split; [|by rewrite F2, sv_freed0]. by rewrite W2, sv_wire0.
Qed.

(** ** Properties of the writer *)

(** The writer thread ends, with everything released.  Whatever the network
    answers (as long as each TLS handshake ends), the thread returns; the socket,
    the TLS objects and the network reference are released; the bytes on the wire
    are, in order, a prefix of each line's frame, the line with its newline; every
    heap line taken from the ring is freed once; and every delay slept is the
    configured minimum or lies between 100 ms and the maximum plus a tenth. *)
Theorem socket_writer_thread_correct tls send ssl_write c ring_ok w ts e rest :
  sends_ok send → sends_ok ssl_write → socket_writer_start (Some c) true ring_ok = Some w →
  config_ok (w_config w) → settles e →
  Forall (λ t, settles t.1.1 ∧ Forall short t.2) ts → Forall (Forall short) rest →
  ∃ w' ps drained, socket_writer_thread tls send ssl_write w ts e rest = Some w' ∧
    (w_sockfd w' = false ∧ w_connected w' = false ∧ w_ssl w' = false ∧ w_ssl_ctx w' = false ∧ w_net w' = 0) ∧
    (let lines := mjoin (map snd ts) ++ (if (drained : bool) then mjoin rest else []) in
     Forall2 (λ p b, p `prefix_of` frame b) ps lines ∧ mjoin (w_wire w') = mjoin ps ∧
     w_freed w' = heap_lines lines) ∧
    Forall (delay_ok (w_config w)) (w_slept w').
Proof.
  intros Hs1 Hs2 Hw Hcfg He Hts Hrest. cbn in Hw. destruct (_ || _); [done|].
  destruct (ring_ok _); [|done]. injection Hw as <-. set (w := Writer _ _ _ _ _ _ _ _ _ _ _) in *.
  destruct (writer_thread_spec tls send ssl_write w ts e rest) as (w' & ps & drained & H1 & H2 & H3 & H4 & _);
    [first [done | by constructor | by left]..|]. by exists w', ps, drained.
Qed.

(** With a peer that accepts the connection and every byte, a turn of the
    writer puts on the wire exactly the lines of its batch, each with one newline
    at its end and in order, sleeps not at all and stays connected. *)
Theorem socket_writer_delivers tls send ssl_write e now w l :
  (∀ i n, 0 < n → send i n = Sent n) → (∀ i n, 0 < n → ssl_write i n = Sent n) →
  writer_ok w → connects e → wc_use_tls (w_config w) = false → Forall framed l →
  ∃ w', writer_turn tls send ssl_write e now w l = Some w' ∧ writer_ok w' ∧
    mjoin (w_wire w') = mjoin (w_wire w) ++ mjoin (map frame l) ∧ w_slept w' = w_slept w ∧
    (l ≠ [] → w_connected w' = true).
Proof.
  intros H1 H2 H3 H4 H5 H6.
  destruct (healthy_turn tls send ssl_write H1 H2 e now w l H3 H4 H5 H6) as (w' & ? & ? & _ & ? & ? & _ & ? & _). by exists w'.
Qed.

(** The delay after a failure is at least 100 ms, twice the last one or the
    maximum if that is less, give or take a tenth. *)
Theorem backoff_next_bounds now current max_ms :
  0 <= max_ms → max_ms + max_ms / 10 < 2 ^ 32 →
  let base := Z.min (u32 (current * 2)) max_ms in
  Z.max 100 (base - base / 10) <= backoff_next now current max_ms <= Z.max 100 (base + base / 10).
Proof. apply backoff_next_within. Qed.

(** ** Concrete runs *)

Definition test_config : socket_writer_config_t :=
  WriterConfig (Some (B "127.0.0.1")) 5140 false None false 0 0 0 0.
Definition test_writer : socket_writer_t :=
  Writer (sane_config test_config) false false false false 1000 0 0 [] 0 [].
Definition good_net : conn_env := ConnEnv true true (λ _, true) C_ok 0 0 true true [H_ok].
Definition bad_net : conn_env := ConnEnv true true (λ _, true) C_inprogress 0 0 true true [H_ok].
Definition text (x : string) : batch_line := steady (Some (B x)) true true.

(** The first attempt fails, the second batch goes out. *)
Definition test_turns : list (conn_env * Z * list batch_line) :=
  [(bad_net, 7, [text "lost"]); (good_net, 7, [text "one"; steady None false true; text "two"])].

Lemma socket_writer_thread_correct_witness :
  ∃ w', socket_writer_thread false (λ _ n, Sent n) (λ _ n, Sent n) test_writer test_turns good_net [[text "end"]] = Some w' ∧
    w_sockfd w' = false ∧ w_net w' = 0 ∧ Forall (delay_ok (sane_config test_config)) (w_slept w') ∧
    mjoin (w_wire w') = B "one" ++ [10] ++ B "two" ++ [10] ++ B "end" ++ [10] ∧ w_slept w' = [1000].
Proof.
  assert (sends_ok (λ _ n, Sent n)) as Hs by (intros i n k Hn [= <-]; lia).
  destruct (socket_writer_thread_correct false (λ _ n, Sent n) (λ _ n, Sent n) test_config (λ _, true) test_writer
              test_turns good_net [[text "end"]] Hs Hs eq_refl)
    as (w' & ps & d & H1 & H2 & _ & H3).
  - split; vm_compute; [discriminate|reflexivity].
  - discriminate.
  - repeat constructor; discriminate.
  - repeat constructor.
  - exists w'. split; [exact H1|]. split; [apply H2|]. split; [apply H2|]. split; [exact H3|].
    vm_compute in H1. injection H1 as <-. split; reflexivity.
Defined.

Lemma socket_writer_delivers_witness :
  ∃ w', writer_turn false (λ _ n, Sent n) (λ _ n, Sent n) good_net 7 test_writer [text "one"; text "two"] = Some w' ∧
    mjoin (w_wire w') = B "one" ++ [10] ++ B "two" ++ [10].
Proof.
  destruct (socket_writer_delivers false (λ _ n, Sent n) (λ _ n, Sent n) good_net 7 test_writer [text "one"; text "two"])
    as (w' & H1 & _ & H2 & _); [done|done|by constructor|by split_and!|done|repeat constructor|].
  exists w'. split; [exact H1|]. rewrite H2. reflexivity.
Defined.

Lemma backoff_next_bounds_witness : 1800 <= backoff_next 12345 1000 60000 <= 2200.
Proof. exact (backoff_next_bounds 12345 1000 60000 ltac:(lia) ltac:(reflexivity)). Defined.

(** The socket takes part of a line and then has no room: the partial count is taken
    for success and the next line follows the fragment on the same connection. *)
Example partial_line_then_next :
  let send := λ i n, match i with 0%nat => Sent 2 | 1%nat => Again | _ => Sent n end in
  (λ w, (w_wire w, w_connected w, w_slept w)) <$>
    writer_turn false send send good_net 7 test_writer [text "hello"; text "world"] =
  Some ([B "heworld" ++ [10]], true, []).
Proof. vm_compute. reflexivity. Qed.

(** The delay can exceed the configured maximum, by the jitter. *)
Example backoff_above_max : backoff_next 12000 60000 60000 = 66000.
Proof. reflexivity. Qed.

(** A peer that never finishes the TLS handshake keeps the writer in it: the
    connect timeout bounds each wait, not their number. *)
Example handshake_unbounded : ∀ n, tls_handshake (replicate n H_want) = None.
Proof. induction n; done. Qed.

(** Without memory for the framed copy a long line is skipped and counted nowhere. *)
Example unframed_line_lost :
  let long := steady (Some (replicate 600 120)) false false in
  (λ w, (w_wire w, w_slept w)) <$>
    writer_turn false (λ _ n, Sent n) (λ _ n, Sent n) good_net 7 test_writer [long; text "next"] =
  Some ([B "next" ++ [10]], []).
Proof. vm_compute. reflexivity. Qed.
