(* ===== verification/SocketAsync.v ===== *)
(** * The asynchronous socket: ring, writer thread and stop together
    (core/socket_ring.c, core/socket_writer.c)

    Producers put lines into the ring of SocketRing.v, one shared access at a time; the
    writer thread of SocketWriter.v takes them out, reading each line while producers
    may be filling its slot again; another thread runs [socket_writer_stop]. The thread
    is here in small steps, and refines the function [socket_writer_thread] on the lines
    as it read them. *)
From S2P Require Import Prelude Queue SocketRing SocketWriter.

Local Open Scope Z_scope.

(** ** The system *)

(** What the thread does with the lines of its batch: sends them, drops them after a
    failed send, or drops them because it could not connect. *)
Inductive mode := Sending | Dropping | Offline.

(** Where the thread is: in [socket_ring_get_batch] or in the loop over a batch, of the
    main loop or of the final drain. The environment of the turn, the writer at its
    start and the lines done so far are ghost, as is the environment of the last
    connection attempt. *)
Inductive tpc :=
  | T_get
  | T_batch (e : conn_env) (now : Z) (w0 : socket_writer_t) (m : mode) (lines : list batch_line)
  | T_final (e : conn_env)
  | T_drain (e : conn_env) (lines : list batch_line)
  | T_exit (e : conn_env).

(** [socket_writer_stop]; when it is done, what [socket_ring_destroy] left. *)
Inductive stop_pc := Stop_idle | Stop_close | Stop_closer | Stop_signal | Stop_join | Stop_done (h : gmap nat (Z * cstr)) (ub : bool).

(** [y_turns] and [y_rest] are ghost: the turns completed and the batches drained at
    the end, with the lines as they were read. *)
Record asock := ASock {
  y_ring : ring;
  y_writer : socket_writer_t;
  y_pc : tpc;
  y_stop : stop_pc;
  y_turns : list (conn_env * Z * list batch_line);
  y_rest : list (list batch_line)
}.

Definition with_ring (s : asock) (r : ring) : asock :=
  ASock r (y_writer s) (y_pc s) (y_stop s) (y_turns s) (y_rest s).
Definition with_thread (s : asock) (r : ring) (w : socket_writer_t) (p : tpc) : asock :=
  ASock r w p (y_stop s) (y_turns s) (y_rest s).
Definition with_stop (s : asock) (r : ring) (p : stop_pc) : asock :=
  ASock r (y_writer s) (y_pc s) p (y_turns s) (y_rest s).
Definition end_turn (s : asock) (r : ring) (w : socket_writer_t) (t : conn_env * Z * list batch_line) : asock :=
  ASock r w T_get (y_stop s) (y_turns s ++ [t]) (y_rest s).
Definition end_drain (s : asock) (r : ring) (e : conn_env) (l : list batch_line) : asock :=
  ASock r (y_writer s) (T_final e) (y_stop s) (y_turns s) (y_rest s ++ [l]).

(** A line of the batch as the loop body has read it from the ring by its end: what the
    newline test saw and what the copy or the sends got. [malloc] is the answer for the
    framed copy. *)
Definition read_line (torn : cstr) (seen malloc : bool) (r : ring) (m : mode) (g : gline) : batch_line :=
  let unread := BLine None false (g_heap g) malloc in
  match m with
  | Sending =>
      if bool_decide (g_ptr g = L_null) || (g_len g =? 0) then unread
      else match line_read torn r g with
           | Some c => BLine (Some c) (nl_read seen r g c) (g_heap g) malloc
           | None => unread
           end
  | _ => unread
  end.
Definition sends (m : mode) : bool := match m with Sending => true | _ => false end.

Section system.
Context (tls : bool) (send ssl_write : nat → Z → send_res).

(** [if (writer->connected || socket_writer_connect(writer) == 0)]. *)
Definition connected_or_connect (e : conn_env) (w : socket_writer_t) : option (socket_writer_t * Z) :=
  if w_connected w then Some (w, 0) else socket_writer_connect tls e w.

(** A line of the batch in the main loop. *)
Definition turn_line (w : socket_writer_t) (m : mode) (b : batch_line) : option (socket_writer_t * mode) :=
  match m, line_bytes b with
  | Sending, Some line =>
      '(w, rc) ← send_line tls send ssl_write w b line;
      Some (free_line w b, if rc <? 0 then Dropping else Sending)
  | _, _ => Some (free_line w b, m)
  end.

(** After the last line. *)
Definition turn_end (now : Z) (w : socket_writer_t) (m : mode) : socket_writer_t :=
  match m with
  | Sending => w_reset w
  | Dropping => back_off now (socket_writer_cleanup w)
  | Offline => w
  end.

(** A line in the final drain, which ignores what the send answers. *)
Definition drain_line (w : socket_writer_t) (b : batch_line) : option socket_writer_t :=
  match line_bytes b with
  | None => Some (free_line w b)
  | Some line => '(w, _) ← send_line tls send ssl_write w b line; Some (free_line w b)
  end.

(** One step of the thread. [e] and [now] are used where it connects and reads the
    clock, [m] is whether [malloc] has room for a framed copy, [torn] and [seen] are what
    it reads of a line that is overwritten meanwhile. *)
Definition thread_step (e : conn_env) (now : Z) (m : bool) (torn : cstr) (seen : bool) (s : asock) : option asock :=
  let r := y_ring s in
  let w := y_writer s in
  match y_pc s with
  | T_get =>
      match k_cons r with
      | G_idle => r ← rexec r R_get; Some (with_ring s r)
      | G_batch [] => r ← rexec r (R_use true torn seen); Some (with_ring s r)
      | G_batch (_ :: _) =>
          '(w1, rc) ← connected_or_connect e w;
          if rc =? 0 then Some (with_thread s r w1 (T_batch e now w Sending []))
          else Some (with_thread s r (back_off now w1) (T_batch e now w Offline []))
      | G_done =>
          '(w1, rc) ← connected_or_connect e w;
          if rc =? 0 then r ← rexec r R_get; Some (with_thread s r w1 (T_final e))
          else Some (with_thread s r w1 (T_exit e))
      | _ => r ← rexec r (R_cons 64); Some (with_ring s r)
      end
  | T_batch e' now' w0 md lines =>
      match k_cons r with
      | G_batch (g :: _) =>
          let b := read_line torn seen m r md g in
          '(w, md') ← turn_line w md b;
          r ← rexec r (R_use (sends md) torn seen);
          Some (with_thread s r w (T_batch e' now' w0 md' (lines ++ [b])))
      | G_batch [] =>
          r ← rexec r (R_use true torn seen);
          Some (end_turn s r (turn_end now' w md) (e', now', lines))
      | _ => None
      end
  | T_final e' =>
      match k_cons r with
      | G_idle => r ← rexec r R_get; Some (with_ring s r)
      | G_batch [] => r ← rexec r (R_use true torn seen); Some (with_thread s r (socket_writer_cleanup w) (T_exit e'))
      | G_batch (_ :: _) => Some (with_thread s r w (T_drain e' []))
      | G_done => Some (with_thread s r (socket_writer_cleanup w) (T_exit e'))
      | _ => r ← rexec r (R_cons 64); Some (with_ring s r)
      end
  | T_drain e' lines =>
      match k_cons r with
      | G_batch (g :: _) =>
          let b := read_line torn seen m r Sending g in
          w ← drain_line w b;
          r ← rexec r (R_use true torn seen);
          Some (with_thread s r w (T_drain e' (lines ++ [b])))
      | G_batch [] => r ← rexec r (R_use true torn seen); Some (end_drain s r e' lines)
      | _ => None
      end
  | T_exit _ => None
  end.

(** One step of [socket_writer_stop]: close the ring, signal it, join, destroy. *)
Definition socket_writer_stop (s : asock) : option asock :=
  let r := y_ring s in
  match y_stop s with
  | Stop_idle | Stop_done _ _ => None
  | Stop_close => r ← rexec r R_close; Some (with_stop s r Stop_closer)
  | Stop_closer =>
      match k_closer r with
      | Z_done => Some (with_stop s r Stop_signal)
      | _ => r ← rexec r R_closer; Some (with_stop s r Stop_closer)
      end
  | Stop_signal => r ← rexec r R_signal; Some (with_stop s r Stop_join)
  | Stop_join =>
      match y_pc s with
      | T_exit _ => let '(h, ub) := socket_ring_destroy r in Some (with_stop s r (Stop_done h ub))
      | _ => None
      end
  end.

(** The ring and the dropped lines as the socket sink sees them. *)
Definition socket_writer_ring (s : asock) : option ring :=
  match y_stop s with Stop_done _ _ => None | _ => Some (y_ring s) end.
Definition socket_writer_dropped (s : asock) : Z :=
  match socket_writer_ring s with Some r => k_dropped r | None => 0 end.

Inductive yaction :=
  | Y_put (i : nat) (o : put_op) | Y_prod (i : nat) | Y_weak (i : nat)
  | Y_thread (e : conn_env) (now : Z) (m : bool) (torn : cstr) (seen : bool) | Y_stop | Y_stopping.

(** Producers use the ring until it is destroyed. *)
Definition yexec (s : asock) (a : yaction) : option asock :=
  let produce a := match socket_writer_ring s with Some r => r ← rexec r a; Some (with_ring s r) | None => None end in
  match a with
  | Y_put i o => produce (R_put i o)
  | Y_prod i => produce (R_prod i)
  | Y_weak i => produce (R_weak i)
  | Y_thread e now m torn seen => thread_step e now m torn seen s
  | Y_stop => match y_stop s with Stop_idle => Some (with_stop s (y_ring s) Stop_close) | _ => None end
  | Y_stopping => socket_writer_stop s
  end.

(** A schedule; [None] if one of its actions is not enabled. *)
Fixpoint yrun (s : asock) (l : list yaction) : option asock :=
  match l with [] => Some s | a :: l' => s' ← yexec s a; yrun s' l' end.

End system.

(** A writer that [socket_writer_start] has just made, with its ring. *)
Definition y_init (w : socket_writer_t) (cap : Z) (n : nat) : asock := ASock (ring_init cap n) w T_get Stop_idle [] [].

(** ** The ring below *)

(** Takes a successful step apart. *)
Ltac crack_step :=
  repeat match goal with
  | H : _ ≫= _ = Some _ |- _ => apply bind_Some in H as (? & ? & ?)
  | H : context [match _ with _ => _ end] |- _ => case_match
  end; simplify_eq.

Lemma yexec_ring tls send ssl_write s a s' :
  yexec tls send ssl_write s a = Some s' →
  y_ring s' = y_ring s ∨ ∃ b, rexec (y_ring s) b = Some (y_ring s').
Proof.
  destruct a; cbn [yexec]; unfold thread_step, socket_writer_stop, socket_writer_ring, end_turn, end_drain; intros H;
    crack_step; cbn; eauto.
Qed.

Lemma yrun_ring tls send ssl_write r0 l : ∀ n s s',
  rsteps n r0 (y_ring s) → yrun tls send ssl_write s l = Some s' →
  ∃ n', (n' <= n + length l)%nat ∧ rsteps n' r0 (y_ring s').
Proof.
  induction l as [|a l IH]; intros n s s' H E; cbn in E; [injection E as <-; exists n; split; [lia|done]|].
  apply bind_Some in E as (s1 & E1 & E2). destruct (yexec_ring _ _ _ _ _ _ E1) as [Er|[b Hb]].
  - rewrite <- Er in H. destruct (IH _ _ _ H E2) as (n' & ? & ?). exists n'. split; [cbn; lia|done].
  - destruct (IH (S n) s1 s') as (n' & ? & ?); [by econstructor|done|]. exists n'. split; [cbn; lia|done].
Qed.

(** What the wire gets for each line the writer is through with, if everything works. *)
Definition out_frame (u : outcome) : cstr :=
  match u with U_sent c nl _ => frame (BLine (Some c) nl false false) | _ => [] end.
Definition used_frames (r : ring) : list cstr := map (λ u : Z * outcome, out_frame u.2) (k_used r).

(** An access of a producer or of the closing thread. *)
Definition outside (a : raction) : Prop := match a with R_get | R_cons _ | R_use _ _ _ => False | _ => True end.

Lemma rexec_outside r a r' :
  outside a → rexec r a = Some r' → k_cons r' = k_cons r ∧ k_used r' = k_used r.
Proof.
  destruct a; cbn; intros Ho H; try done.
  - repeat case_match; simplify_eq; done.
  - apply bind_Some in H as (p & Hp & H). unfold put_step, fill_slot in H. repeat case_match; simplify_eq; done.
  - repeat case_match; simplify_eq; done.
  - repeat case_match; simplify_eq; done.
  - unfold rclose_step in H. repeat case_match; simplify_eq; done.
  - by simplify_eq.
Qed.

Lemma rexec_get r a r' : (a = R_get ∨ ∃ m, a = R_cons m) → rexec r a = Some r' → k_used r' = k_used r.
Proof.
  intros [->|[m ->]]; cbn; [intros H; repeat case_match; simplify_eq; done|].
  unfold get_step. intros H. repeat case_match; simplify_eq; done.
Qed.

Lemma rexec_use_nil r b torn seen r' :
  k_cons r = G_batch [] → rexec r (R_use b torn seen) = Some r' → k_cons r' = G_idle ∧ k_used r' = k_used r.
Proof. cbn. unfold use_step. intros ->. by intros [= <-]. Qed.

Lemma rexec_use_cons r md g l torn seen m r' :
  k_cons r = G_batch (g :: l) → rexec r (R_use (sends md) torn seen) = Some r' →
  k_cons r' = G_batch l ∧ ∃ u, k_used r' = k_used r ++ [(g_pos g, u)] ∧
    out_frame u = frame (read_line torn seen m r md g) ∧ (md = Sending → u ≠ U_dropped).
Proof.
  cbn. unfold use_step, read_line. intros ->. destruct (line_free r g) as [h bad]. destruct md; cbn [sends negb].
  - destruct (bool_decide _ || _); [|destruct (line_read torn r g)]; intros [= <-]; (split; [done|]); eexists;
      (split; [reflexivity|]); by split.
  - intros [= <-]. split; [done|]. eexists. split; [reflexivity|]. by split.
  - intros [= <-]. split; [done|]. eexists. split; [reflexivity|]. by split.
Qed.

Lemma used_frames_same r r' : k_used r' = k_used r → used_frames r' = used_frames r.
Proof. unfold used_frames. by intros ->. Qed.

Lemma used_frames_snoc r r' pos u : k_used r' = k_used r ++ [(pos, u)] → used_frames r' = used_frames r ++ [out_frame u].
Proof. unfold used_frames. intros ->. by rewrite map_app. Qed.

(** ** Refinement of the thread *)

Section refinement.
Context (tls : bool) (send ssl_write : nat → Z → send_res) (w_init : socket_writer_t).

(** The functions of the thread, one line or batch further. *)
Lemma free_lines_snoc w l b : free_lines w (l ++ [b]) = free_line (free_lines w l) b.
Proof. apply foldl_snoc. Qed.

Lemma send_batch_snoc l b : ∀ w w' f,
  send_batch tls send ssl_write w l = Some (w', f) →
  send_batch tls send ssl_write w (l ++ [b]) =
    if f then Some (free_line w' b, true)
    else '(w2, md) ← turn_line tls send ssl_write w' Sending b; Some (w2, match md with Dropping => true | _ => false end).
Proof.
  induction l as [|x l IH]; intros w w' f; cbn [send_batch app].
  - intros [= <- <-]. unfold turn_line. destruct (line_bytes b) as [line|]; [|done].
    destruct (send_line _ _ _ _ _ _) as [[w2 rc]|]; [|done]. cbn. by destruct (rc <? 0).
  - destruct (line_bytes x) as [line|]; [|apply IH].
    destruct (send_line _ _ _ _ _ _) as [[w2 rc]|]; [|done]. cbn [mbind option_bind].
    destruct (rc <? 0); [|apply IH]. intros [= <- <-]. by rewrite free_lines_snoc.
Qed.

Lemma drain_batch_snoc l b : ∀ w w',
  drain_batch tls send ssl_write w l = Some w' →
  drain_batch tls send ssl_write w (l ++ [b]) = drain_line tls send ssl_write w' b.
Proof.
  induction l as [|x l IH]; intros w w'; cbn [drain_batch app].
  - intros [= <-]. unfold drain_line. destruct (line_bytes b); [|done]. by destruct (send_line _ _ _ _ _ _) as [[??]|].
  - destruct (line_bytes x); [|apply IH]. destruct (send_line _ _ _ _ _ _) as [[w2 rc]|]; [|done]. apply IH.
Qed.

Lemma drain_batches_snoc ls l : ∀ w w',
  drain_batches tls send ssl_write w ls = Some w' →
  drain_batches tls send ssl_write w (ls ++ [l]) = drain_batch tls send ssl_write w' l.
Proof.
  induction ls as [|k ls IH]; intros w w'; cbn [drain_batches app].
  - intros [= <-]. by destruct (drain_batch _ _ _ _ _).
  - destruct (drain_batch _ _ _ _ k); [|done]. apply IH.
Qed.

Lemma writer_turns_snoc ts e now l : ∀ w w',
  writer_turns tls send ssl_write w ts = Some w' →
  writer_turns tls send ssl_write w (ts ++ [(e, now, l)]) = writer_turn tls send ssl_write e now w' l.
Proof.
  induction ts as [|[[e1 now1] l1] ts IH]; intros w w'; cbn [writer_turns app].
  - intros [= <-]. by destruct (writer_turn _ _ _ _ _ _ _).
  - destruct (writer_turn _ _ _ _ _ _ l1); [|done]. apply IH.
Qed.

Definition cur_lines (p : tpc) : list batch_line :=
  match p with T_batch _ _ _ _ l | T_drain _ l => l | _ => [] end.
Definition all_lines (s : asock) : list batch_line :=
  mjoin (map snd (y_turns s)) ++ mjoin (y_rest s) ++ cur_lines (y_pc s).

(** The writer is where the function of the thread would be on the lines so far. *)
Definition turn_ok (s : asock) (e : conn_env) (now : Z) (w0 : socket_writer_t) (m : mode) (lines : list batch_line) : Prop :=
  match m with
  | Sending | Dropping => ∃ w1, connected_or_connect tls e w0 = Some (w1, 0) ∧
      send_batch tls send ssl_write w1 lines = Some (y_writer s, match m with Dropping => true | _ => false end)
  | Offline => ∃ w1 rc, connected_or_connect tls e w0 = Some (w1, rc) ∧ rc ≠ 0 ∧
      y_writer s = free_lines (back_off now w1) lines
  end.

Definition thread_ok (s : asock) : Prop :=
  let turns w := writer_turns tls send ssl_write w_init (y_turns s) = Some w in
  match y_pc s with
  | T_get => y_rest s = [] ∧ turns (y_writer s)
  | T_batch e now w0 m lines =>
      y_rest s = [] ∧ turns w0 ∧ (lines = [] → ∃ g l, k_cons (y_ring s) = G_batch (g :: l)) ∧
      turn_ok s e now w0 m lines
  | T_final e => ∃ w0 w1, turns w0 ∧ connected_or_connect tls e w0 = Some (w1, 0) ∧
      drain_batches tls send ssl_write w1 (y_rest s) = Some (y_writer s)
  | T_drain e lines => ∃ w0 w1 w2, turns w0 ∧ connected_or_connect tls e w0 = Some (w1, 0) ∧
      drain_batches tls send ssl_write w1 (y_rest s) = Some w2 ∧ drain_batch tls send ssl_write w2 lines = Some (y_writer s)
  | T_exit e => socket_writer_thread tls send ssl_write w_init (y_turns s) e (y_rest s) = Some (y_writer s) ∧
      (y_rest s = [] ∨ ∃ w0 w1, turns w0 ∧ connected_or_connect tls e w0 = Some (w1, 0)) ∧
      (k_cons (y_ring s) = G_idle ∨ k_cons (y_ring s) = G_done)
  end.

Record yinv (s : asock) : Prop := {
  yi_text : frame <$> all_lines s = used_frames (y_ring s);
  yi_thread : thread_ok s;
  yi_stop h ub : y_stop s = Stop_done h ub → socket_ring_destroy (y_ring s) = (h, ub) ∧ ∃ e, y_pc s = T_exit e
}.

Definition not_done (s : asock) : Prop := ∀ h ub, y_stop s ≠ Stop_done h ub.

(** The ring moves and the thread does not. *)
Lemma yinv_ring s r p :
  yinv s → not_done s → (∀ h ub, p ≠ Stop_done h ub) → k_cons r = k_cons (y_ring s) → k_used r = k_used (y_ring s) →
  yinv (with_stop s r p).
Proof.
  intros [Ht Hth _] Hn Hp Hc Hu%used_frames_same. constructor; cbn; [by rewrite Hu| |by intros h ub E; destruct (Hp h ub)].
  unfold thread_ok, turn_ok in *. cbn. rewrite Hc. exact Hth.
Qed.

(** The thread waits in [get_batch]. *)
Lemma yinv_waiting s r :
  yinv s → not_done s → (y_pc s = T_get ∨ ∃ e, y_pc s = T_final e) → used_frames r = used_frames (y_ring s) →
  yinv (with_ring s r).
Proof.
  intros [Ht Hth _] Hn Hp Hu. constructor; cbn; [by rewrite Hu| |by intros h ub E; destruct (Hn h ub)].
  unfold thread_ok in *. cbn. by destruct Hp as [E|[e E]]; rewrite E in *.
Qed.

(** The thread moves without finishing a batch. *)
Lemma yinv_thread s r w p :
  yinv s → not_done s → thread_ok (with_thread s r w p) →
  frame <$> (mjoin (map snd (y_turns s)) ++ mjoin (y_rest s) ++ cur_lines p) = used_frames r →
  yinv (with_thread s r w p).
Proof. intros _ Hn Hth Ht. constructor; cbn; [exact Ht|exact Hth|]. by intros h ub E; destruct (Hn h ub). Qed.

(** One line of the main loop's batch. *)
Lemma turn_line_ok s r e now w0 md lines b w' md' :
  turn_ok s e now w0 md lines → (md ≠ Sending → bl_text b = None) →
  turn_line tls send ssl_write (y_writer s) md b = Some (w', md') →
  turn_ok (with_thread s r w' (T_batch e now w0 md' (lines ++ [b]))) e now w0 md' (lines ++ [b]).
Proof.
  intros Hok Hb Hl. destruct md.
  - destruct Hok as (w1 & Hc & Hs). pose proof (send_batch_snoc lines b _ _ _ Hs) as E. rewrite Hl in E. cbn in E.
    assert (md' = Sending ∨ md' = Dropping) as [-> | ->]; [|by exists w1..].
    unfold turn_line in Hl. destruct (line_bytes b); [|simplify_eq; auto].
    apply bind_Some in Hl as ([w2 rc] & _ & [= _ <-]). destruct (rc <? 0); auto.
  - destruct Hok as (w1 & Hc & Hs). pose proof (send_batch_snoc lines b _ _ _ Hs) as E. cbn in E.
    unfold turn_line in Hl. simplify_eq. by exists w1.
  - destruct Hok as (w1 & rc & Hc & Hrc & E). unfold turn_line in Hl. simplify_eq.
    exists w1, rc. split_and!; [done..|]. cbn. by rewrite free_lines_snoc, E.
Qed.

(** The end of a batch completes a turn of [writer_turn]. *)
Lemma turn_end_ok s e now w0 md lines :
  turn_ok s e now w0 md lines → lines ≠ [] →
  writer_turn tls send ssl_write e now w0 lines = Some (turn_end now (y_writer s) md).
Proof.
  intros Hok Hne. unfold writer_turn. destruct lines as [|b lines]; [done|]. unfold turn_ok, connected_or_connect in Hok.
  destruct md.
  - destruct Hok as (w1 & -> & Hs). cbn [mbind option_bind]. change (negb (0 =? 0)) with false. cbn match. by rewrite Hs.
  - destruct Hok as (w1 & -> & Hs). cbn [mbind option_bind]. change (negb (0 =? 0)) with false. cbn match. by rewrite Hs.
  - destruct Hok as (w1 & rc & -> & Hrc & E). cbn [mbind option_bind]. apply Z.eqb_neq in Hrc. rewrite Hrc. by rewrite E.
Qed.

Lemma read_line_other torn seen m r md g : md ≠ Sending → bl_text (read_line torn seen m r md g) = None.
Proof. by destruct md. Qed.

Lemma yinv_get e now m torn seen s s' :
  yinv s → not_done s → y_pc s = T_get → thread_step tls send ssl_write e now m torn seen s = Some s' → yinv s'.
Proof.
  intros Hi Hn Hp H. unfold thread_step in H. rewrite Hp in H.
  pose proof (yi_thread _ Hi) as Hth. unfold thread_ok in Hth. rewrite Hp in Hth. destruct Hth as [Hrest Hturns].
  pose proof (yi_text _ Hi) as Ht. unfold all_lines in Ht. rewrite Hp in Ht.
  assert (∀ a, (a = R_get ∨ ∃ m, a = R_cons m) → (r ← rexec (y_ring s) a; Some (with_ring s r)) = Some s' → yinv s') as Hmove.
  { intros a Ha E. apply bind_Some in E as (r & Hr & [= <-]). apply yinv_waiting; auto. by eapply used_frames_same, rexec_get. }
  destruct (k_cons (y_ring s)) as [| | | | | | | | | | | |[|g l]|] eqn:Hc; try exact (Hmove R_get (or_introl eq_refl) H);
    try exact (Hmove (R_cons 64) (or_intror (ex_intro _ 64 eq_refl)) H).
  - apply bind_Some in H as (r & Hr & [= <-]). apply yinv_waiting; auto. apply used_frames_same. by destruct (rexec_use_nil _ _ _ _ _ Hc Hr).
  - apply bind_Some in H as ([w1 rc] & Hcc & H). destruct (Z.eqb_spec rc 0) as [->|Hrc]; injection H as <-.
    + apply yinv_thread; auto. unfold thread_ok. cbn. split_and!; [done|done|by eauto|by exists w1].
    + apply yinv_thread; auto. unfold thread_ok. cbn. split_and!; [done|done|by eauto|by exists w1, rc].
  - apply bind_Some in H as ([w1 rc] & Hcc & H). destruct (Z.eqb_spec rc 0) as [->|Hrc].
    + apply bind_Some in H as (r & Hr & [= <-]). apply yinv_thread; auto.
      * unfold thread_ok. cbn. exists (y_writer s), w1. rewrite Hrest. done.
      * etransitivity; [exact Ht|]. symmetry. by eapply used_frames_same, (rexec_get _ R_get); [left|].
    + injection H as <-. apply yinv_thread; auto. unfold thread_ok. cbn. split; [|auto].
      unfold socket_writer_thread. rewrite Hturns. cbn [mbind option_bind]. fold (connected_or_connect tls e (y_writer s)).
      rewrite Hcc. cbn [mbind option_bind]. apply Z.eqb_neq in Hrc. by rewrite Hrc.
Qed.

Lemma yinv_batch e now m torn seen s s' e' now' w0 md lines :
  yinv s → not_done s → y_pc s = T_batch e' now' w0 md lines → thread_step tls send ssl_write e now m torn seen s = Some s' → yinv s'.
Proof.
  intros Hi Hn Hp H. unfold thread_step in H. rewrite Hp in H.
  pose proof (yi_thread _ Hi) as Hth. unfold thread_ok in Hth. rewrite Hp in Hth. destruct Hth as (Hrest & Hturns & Hne & Hok).
  pose proof (yi_text _ Hi) as Ht. unfold all_lines in Ht. rewrite Hp in Ht. cbn [cur_lines] in Ht.
  destruct (k_cons (y_ring s)) as [| | | | | | | | | | | |[|g l]|] eqn:Hc; try done.
  - apply bind_Some in H as (r & Hr & [= <-]). destruct (rexec_use_nil _ _ _ _ _ Hc Hr) as [_ Hu%used_frames_same].
    assert (lines ≠ []) as Hl by (intros ->; destruct (Hne eq_refl) as (? & ? & ?); done).
    constructor; [|unfold thread_ok; cbn|by cbn; intros h ub E; destruct (Hn h ub)].
    + unfold all_lines. cbn [y_ring y_turns y_rest y_pc end_turn cur_lines]. rewrite Hu, <- Ht, Hrest, (map_app snd), join_app. cbn. by rewrite !app_nil_r.
    + split; [done|]. rewrite (writer_turns_snoc _ _ _ _ _ _ Hturns). by apply turn_end_ok.
  - apply bind_Some in H as ([w' md'] & Hl & H). apply bind_Some in H as (r & Hr & [= <-]).
    destruct (rexec_use_cons _ _ _ _ _ _ m _ Hc Hr) as [Hc' (u & Hu%used_frames_snoc & Hf & _)]. apply yinv_thread; auto.
    + unfold thread_ok. cbn. split_and!; [done|done|by destruct lines|].
      eapply turn_line_ok; [exact Hok| |exact Hl]. cbn. apply read_line_other.
    + rewrite Hu, <- Ht, Hf. cbn. by rewrite !fmap_app, !app_assoc.
Qed.

Lemma yinv_final e now m torn seen s s' e' :
  yinv s → not_done s → y_pc s = T_final e' → thread_step tls send ssl_write e now m torn seen s = Some s' → yinv s'.
Proof.
  intros Hi Hn Hp H. unfold thread_step in H. rewrite Hp in H.
  pose proof (yi_thread _ Hi) as Hth. unfold thread_ok in Hth. rewrite Hp in Hth. destruct Hth as (w0 & w1 & Hturns & Hcc & Hdr).
  pose proof (yi_text _ Hi) as Ht. unfold all_lines in Ht. rewrite Hp in Ht.
  assert (∀ a, (a = R_get ∨ ∃ m, a = R_cons m) → (r ← rexec (y_ring s) a; Some (with_ring s r)) = Some s' → yinv s') as Hmove.
  { intros a Ha E. apply bind_Some in E as (r & Hr & [= <-]). apply yinv_waiting; eauto. by eapply used_frames_same, rexec_get. }
  assert (socket_writer_thread tls send ssl_write w_init (y_turns s) e' (y_rest s) =
    Some (socket_writer_cleanup (y_writer s))) as Hexit.
  { unfold socket_writer_thread. rewrite Hturns. cbn [mbind option_bind]. fold (connected_or_connect tls e' w0).
    rewrite Hcc. cbn [mbind option_bind]. change (0 =? 0) with true. cbn match. by rewrite Hdr. }
  destruct (k_cons (y_ring s)) as [| | | | | | | | | | | |[|g l]|] eqn:Hc; try exact (Hmove R_get (or_introl eq_refl) H);
    try exact (Hmove (R_cons 64) (or_intror (ex_intro _ 64 eq_refl)) H).
  - apply bind_Some in H as (r & Hr & [= <-]). destruct (rexec_use_nil _ _ _ _ _ Hc Hr) as [Hc' Hu%used_frames_same].
    apply yinv_thread; auto; [|by rewrite Hu]. unfold thread_ok. cbn. eauto 10.
  - injection H as <-. apply yinv_thread; auto. unfold thread_ok. cbn. by exists w0, w1, (y_writer s).
  - injection H as <-. apply yinv_thread; auto. unfold thread_ok. cbn. eauto 10.
Qed.

Lemma yinv_drain e now m torn seen s s' e' lines :
  yinv s → not_done s → y_pc s = T_drain e' lines → thread_step tls send ssl_write e now m torn seen s = Some s' → yinv s'.
Proof.
  intros Hi Hn Hp H. unfold thread_step in H. rewrite Hp in H.
  pose proof (yi_thread _ Hi) as Hth. unfold thread_ok in Hth. rewrite Hp in Hth.
  destruct Hth as (w0 & w1 & w2 & Hturns & Hcc & Hds & Hd).
  pose proof (yi_text _ Hi) as Ht. unfold all_lines in Ht. rewrite Hp in Ht. cbn [cur_lines] in Ht.
  destruct (k_cons (y_ring s)) as [| | | | | | | | | | | |[|g l]|] eqn:Hc; try done.
  - apply bind_Some in H as (r & Hr & [= <-]). destruct (rexec_use_nil _ _ _ _ _ Hc Hr) as [_ Hu%used_frames_same].
    constructor; [|unfold thread_ok; cbn|by cbn; intros h ub E; destruct (Hn h ub)].
    + unfold all_lines. cbn [y_ring y_turns y_rest y_pc end_drain cur_lines]. rewrite Hu, <- Ht, join_app. cbn. by rewrite !app_nil_r.
    + exists w0, w1. split_and!; [done..|]. by rewrite (drain_batches_snoc _ _ _ _ Hds).
  - apply bind_Some in H as (w' & Hl & H). apply bind_Some in H as (r & Hr & [= <-]).
    destruct (rexec_use_cons _ Sending _ _ _ _ m _ Hc Hr) as [Hc' (u & Hu%used_frames_snoc & Hf & _)]. apply yinv_thread; auto.
    + unfold thread_ok. cbn. exists w0, w1, w2. split_and!; [done..|]. by rewrite (drain_batch_snoc _ _ _ _ Hd).
    + rewrite Hu, <- Ht, Hf. cbn. by rewrite !fmap_app, !app_assoc.
Qed.

Lemma yinv_exec s a s' : yinv s → yexec tls send ssl_write s a = Some s' → yinv s'.
Proof.
  intros Hi H.
  assert (∀ b, outside b → (match socket_writer_ring s with Some r => r ← rexec r b; Some (with_ring s r) | None => None end) = Some s' → yinv s')
    as Hprod.
  { intros b Hb E. unfold socket_writer_ring in E. destruct (y_stop s) eqn:Es; try done;
      apply bind_Some in E as (r & Hr & [= <-]); destruct (rexec_outside _ _ _ Hb Hr);
      change (with_ring s r) with (with_stop s r (y_stop s)); rewrite Es; by apply yinv_ring; [|intros h ub; rewrite Es|..]. }
  destruct a; cbn [yexec] in H; try (by eapply Hprod; [|exact H]).
  - assert (not_done s) as Hn.
    { intros h ub E. destruct (yi_stop _ Hi h ub E) as [_ [e' E']]. unfold thread_step in H. by rewrite E' in H. }
    destruct (y_pc s) eqn:E; [by eapply yinv_get|by eapply yinv_batch|by eapply yinv_final|by eapply yinv_drain|].
    unfold thread_step in H. by rewrite E in H.
  - destruct (y_stop s) eqn:E; try done. injection H as <-. apply yinv_ring; try done. by intros h ub; rewrite E.
  - unfold socket_writer_stop in H. destruct (y_stop s) eqn:E; try done.
    + apply bind_Some in H as (r & Hr & [= <-]). destruct (rexec_outside _ R_close _ I Hr).
      by apply yinv_ring; [|intros h ub; rewrite E|..].
    + destruct (k_closer (y_ring s)) eqn:Ec; try (apply bind_Some in H as (r & Hr & [= <-]);
        destruct (rexec_outside _ R_closer _ I Hr); by apply yinv_ring; [|intros h ub; rewrite E|..]).
      injection H as <-. by apply yinv_ring; [|intros h ub; rewrite E|..].
    + apply bind_Some in H as (r & Hr & [= <-]). destruct (rexec_outside _ R_signal _ I Hr).
      by apply yinv_ring; [|intros h ub; rewrite E|..].
    + destruct (y_pc s) eqn:Ep; try done. destruct (socket_ring_destroy (y_ring s)) as [h ub] eqn:Ed. injection H as <-.
      destruct Hi as [Ht Hth _]. constructor; cbn; [exact Ht|unfold thread_ok in *; cbn; by rewrite Ep in *|].
      intros h' ub' [= <- <-]. split; [done|eauto].
Qed.

Lemma yinv_init cap m : yinv (y_init w_init cap m).
Proof. by constructor. Qed.

Lemma yinv_run l : ∀ s s', yinv s → yrun tls send ssl_write s l = Some s' → yinv s'.
Proof.
  induction l as [|a l IH]; intros s s' Hi E; cbn in E; [by injection E as <-|].
  apply bind_Some in E as (s1 & E1 & E2). eapply IH; [|exact E2]. by eapply yinv_exec.
Qed.

End refinement.

(** ** The bytes on the wire *)

(** Where the thread is tells whether the socket is open. *)
Definition conn_ok (p : tpc) (w : socket_writer_t) : Prop :=
  match p with
  | T_get => True
  | T_batch _ _ _ Offline _ | T_exit _ => w_connected w = false
  | _ => w_connected w = true
  end.
Definition mode_ok (p : tpc) : Prop := match p with T_batch _ _ _ m _ => m = Sending | _ => True end.

(** Frames that a send can report the length of. *)
Definition frames_ok (r : ring) : Prop := Forall (λ f, clen f < 2 ^ 31) (used_frames r).

(** An action on which nothing fails: the peer accepts the connection and [malloc] has
    room. *)
Definition good_action (a : yaction) : Prop :=
  match a with Y_thread e _ m _ _ => connects e ∧ m = true | _ => True end.

Section wire.
Context (tls : bool) (send ssl_write : nat → Z → send_res) (works : Prop).
Context (Hsend : sends_ok send) (Hssl : sends_ok ssl_write).
Context (Wsend : works → ∀ i n, 0 < n → send i n = Sent n) (Wssl : works → ∀ i n, 0 < n → ssl_write i n = Sent n).

(** The wire has a piece of every line used so far, in order; all of it if everything
    works. *)
Record flow (s : asock) : Prop := {
  fl_ok : writer_ok (y_writer s);
  fl_plain : works → wc_use_tls (w_config (y_writer s)) = false;
  fl_conn : conn_ok (y_pc s) (y_writer s);
  fl_wire : ∃ ps, mjoin (w_wire (y_writer s)) = mjoin ps ∧ Forall2 prefix ps (used_frames (y_ring s));
  fl_works : works → mode_ok (y_pc s) ∧ Forall (λ u, u.2 ≠ U_dropped) (k_used (y_ring s)) ∧
    mjoin (w_wire (y_writer s)) = mjoin (used_frames (y_ring s))
}.

(** [w'] has [p] more on the wire than [w]. *)
Definition wrote (w w' : socket_writer_t) (p : cstr) : Prop :=
  (writer_ok w → writer_ok w') ∧ w_config w' = w_config w ∧ mjoin (w_wire w') = mjoin (w_wire w) ++ p.

Lemma moved_wrote w w' p f : moved w w' p f → wrote w w' p.
Proof. by intros []. Qed.

Lemma wrote_refl w : wrote w w [].
Proof. unfold wrote. by rewrite app_nil_r. Qed.

(** A step that uses no line. *)
Lemma flow_quiet s s' :
  flow s → k_used (y_ring s') = k_used (y_ring s) → wrote (y_writer s) (y_writer s') [] →
  conn_ok (y_pc s') (y_writer s') → (works → mode_ok (y_pc s')) → flow s'.
Proof.
  intros [] Hu (Hok & Hc & Hw) Hconn Hm. rewrite app_nil_r in Hw. pose proof (used_frames_same _ _ Hu) as Hf.
  constructor; rewrite ?Hc, ?Hw, ?Hf, ?Hu; auto. intros W. destruct (fl_works0 W) as (_ & ? & ?). auto.
Qed.

(** A step that uses one. *)
Lemma flow_line s s' pos u p :
  flow s → k_used (y_ring s') = k_used (y_ring s) ++ [(pos, u)] → wrote (y_writer s) (y_writer s') p →
  p `prefix_of` out_frame u → conn_ok (y_pc s') (y_writer s') →
  (works → mode_ok (y_pc s') ∧ u ≠ U_dropped ∧ p = out_frame u) → flow s'.
Proof.
  intros [] Hu (Hok & Hc & Hw) Hp Hconn Hm. pose proof (used_frames_snoc _ _ _ _ Hu) as Hf.
  constructor; rewrite ?Hc, ?Hw, ?Hf, ?Hu; auto.
  - destruct fl_wire0 as (ps & -> & H). exists (ps ++ [p]). split; [by rewrite join_app; cbn; rewrite app_nil_r|].
    apply Forall2_app; [done|]. by constructor.
  - intros W. destruct (fl_works0 W) as (_ & H1 & ->), (Hm W) as (? & ? & ->). split_and!; [done| |].
    + apply Forall_app. split; [done|]. by constructor.
    + by rewrite join_app; cbn; rewrite app_nil_r.
Qed.

(** An attempt to connect that returned. *)
Lemma connect_wrote e w w' rc :
  writer_ok w → connected_or_connect tls e w = Some (w', rc) →
  wrote w w' [] ∧ (rc = 0 ∧ w_connected w' = true ∨ rc ≠ 0 ∧ w_connected w' = false) ∧
  (connects e → wc_use_tls (w_config w) = false → rc = 0).
Proof using.
  intros Hok H. unfold connected_or_connect in H. destruct (w_connected w) eqn:Hc.
  { injection H as <- <-. split; [apply wrote_refl|]. split; auto. }
  set (e' := ConnEnv (e_socket e) (e_nonblock e) (e_pton e) (e_connect e) (e_select e) (e_so_error e)
               (e_ctx_new e) (e_ssl_new e) (match tls_handshake (e_handshake e) with Some _ => e_handshake e | None => [H_ok] end)).
  assert (socket_writer_connect tls e' w = Some (w', rc)) as H'.
  { rewrite <- H. revert H. unfold socket_writer_connect, e', socket_connect_nonblocking. rewrite Hc. cbn.
    destruct (tls_handshake (e_handshake e)) eqn:E; cbn; [by rewrite E|].
    repeat (match goal with |- context [if ?b then _ else _] => destruct b end; cbn); done. }
  assert (settles e') as Hs.
  { unfold settles, e'. cbn. by destruct (tls_handshake (e_handshake e)) eqn:E; [rewrite E|]. }
  destruct (socket_writer_connect_spec tls e' w Hok Hc Hs) as (w1 & rc1 & E & ? & ? & Hw & _ & _ & Hrc).
  rewrite H' in E. injection E as <- <-. split_and!.
  - split_and!; [done..|]. by rewrite app_nil_r.
  - destruct Hrc as [(-> & ? & _)|(-> & ? & _)]; auto.
  - intros (E1 & E2 & E3 & E4) Htls. unfold socket_writer_connect, socket_connect_nonblocking in H. rewrite Hc in H. cbn in H.
    rewrite E1, E2, E3, E4 in H. cbn in H. destruct w. cbn in *. rewrite Htls in H. by injection H.
Qed.

(** Sending one line, in the main loop or the drain. *)
Lemma drain_line_wrote w b w' :
  writer_ok w → w_connected w = true → short b → drain_line tls send ssl_write w b = Some w' →
  ∃ p, wrote w w' p ∧ w_connected w' = true ∧ p `prefix_of` frame b ∧ (works → bl_malloc b = true → p = frame b).
Proof using Hsend Hssl Wsend Wssl.
  intros Hok Hc Hs H. unfold drain_line in H. destruct (line_bytes b) as [line|] eqn:Eb.
  2:{ injection H as <-. exists []. pose proof (moved_free w b) as M. unfold frame. rewrite Eb.
      split; [by eapply moved_wrote|]. split; [by rewrite (mv_connected _ _ _ _ M)|]. split; [done|by intros]. }
  apply bind_Some in H as ([w1 rc] & E & [= <-]).
  destruct (send_line_spec tls send ssl_write Hsend Hssl w b line Hok Hc Eb Hs) as (w2 & rc2 & p & E2 & M & Hp).
  rewrite E in E2. injection E2 as <- <-. pose proof (moved_trans _ _ _ _ _ _ _ M (moved_free w1 b)) as M2.
  rewrite app_nil_r in M2. exists p. split; [by eapply moved_wrote|]. split; [by rewrite (mv_connected _ _ _ _ M2)|].
  split; [done|]. intros W Hm.
  destruct (healthy_line tls send ssl_write (Wsend W) (Wssl W) w b line Hok Hc ltac:(by split) Eb) as (w3 & n & E3 & _ & M3).
  rewrite E in E3. injection E3 as <- <-. destruct M as [_ _ _ _ _ Hw _], M3 as [_ _ _ _ _ Hw3 _].
  rewrite Hw3 in Hw. by apply app_inv_head in Hw.
Qed.

Lemma turn_line_wrote w b w' md' :
  writer_ok w → w_connected w = true → short b → turn_line tls send ssl_write w Sending b = Some (w', md') →
  md' ≠ Offline ∧ drain_line tls send ssl_write w b = Some w' ∧ (works → bl_malloc b = true → md' = Sending).
Proof using Hsend Hssl Wsend Wssl.
  intros Hok Hc Hs H. unfold turn_line, drain_line in *. destruct (line_bytes b) as [line|] eqn:Eb; [|by injection H as <- <-].
  apply bind_Some in H as ([w1 rc] & E & [= <- <-]). rewrite E. split; [by destruct (rc <? 0)|]. split; [done|]. intros W Hm.
  destruct (healthy_line tls send ssl_write (Wsend W) (Wssl W) w b line Hok Hc ltac:(by split) Eb) as (w3 & n & E3 & Hn & _).
  rewrite E in E3. injection E3 as <- <-. by destruct (Z.ltb_spec rc 0); [lia|].
Qed.

Lemma turn_end_wrote now w md :
  (md ≠ Offline → w_connected w = true) → wrote w (turn_end now w md) [].
Proof using.
  intros Hc. destruct md; cbn [turn_end].
  - unfold wrote. rewrite app_nil_r. destruct w. cbn. split_and!; try done. intros []. by constructor.
  - unfold wrote. rewrite app_nil_r. destruct (back_off_fields now (socket_writer_cleanup w)) as (B1 & _ & B3 & B4 & _).
    rewrite B1, B4. split; [intros Hok; by apply B3, cleanup_ok; auto|]. by destruct w.
  - apply wrote_refl.
Qed.

Lemma read_line_malloc torn seen m r md g : bl_malloc (read_line torn seen m r md g) = m.
Proof using. unfold read_line. destruct md; try done. by destruct (_ || _); [|destruct (line_read _ _ _)]. Qed.

Lemma frames_ok_last r r' pos u b :
  frames_ok r' → k_used r' = k_used r ++ [(pos, u)] → out_frame u = frame b → short b.
Proof using. unfold frames_ok. intros H Hu%used_frames_snoc E. unfold short.
  rewrite Hu in H. apply Forall_app in H as [_ H]. rewrite <- E. by apply Forall_cons in H as [H _]. Qed.

(** The ring moves, the thread does not. *)
Lemma flow_ring s r : flow s → k_used r = k_used (y_ring s) → flow (with_ring s r).
Proof using. intros H Hu. apply (flow_quiet s); [done|done|apply wrote_refl|apply (fl_conn _ H)|]. intros W. apply (fl_works _ H W). Qed.

Lemma flow_move s s' a :
  flow s → (a = R_get ∨ ∃ m, a = R_cons m) → (r ← rexec (y_ring s) a; Some (with_ring s r)) = Some s' → flow s'.
Proof using. intros H Ha E. apply bind_Some in E as (r & Hr & [= <-]). apply flow_ring; [done|]. by eapply rexec_get. Qed.

Lemma flow_get e now m torn seen s s' :
  flow s → (works → connects e) → y_pc s = T_get →
  thread_step tls send ssl_write e now m torn seen s = Some s' → flow s'.
Proof using.
  intros Hi He Hp H. unfold thread_step in H. rewrite Hp in H.
  pose proof (λ w1 rc, connect_wrote e (y_writer s) w1 rc (fl_ok _ Hi)) as Hconn.
  destruct (k_cons (y_ring s)) as [| | | | | | | | | | | |[|g l]|] eqn:Hc;
    try (by eapply flow_move; [done| |exact H]; eauto).
  - apply bind_Some in H as (r & Hr & [= <-]). apply flow_ring; [done|]. by destruct (rexec_use_nil _ _ _ _ _ Hc Hr).
  - apply bind_Some in H as ([w1 rc] & Hcc & H). destruct (Hconn _ _ Hcc) as (Hw & Hrc & Hok).
    destruct (Z.eqb_spec rc 0) as [->|Hne]; injection H as <-; apply (flow_quiet s); try done.
    + by destruct Hrc as [[_ ?]|[? _]].
    + destruct Hw as (Hw1 & Hw2 & Hw3). destruct (back_off_fields now w1) as (B1 & _ & B3 & B4 & _). split_and!; cbn [y_writer with_thread].
      * auto.
      * by rewrite B1.
      * by rewrite B4.
    + cbn [y_pc y_writer with_thread conn_ok]. destruct (back_off_fields now w1) as (_ & -> & _). by destruct Hrc as [[? _]|[_ ?]].
    + intros W. by destruct (Hne (Hok (He W) (fl_plain _ Hi W))).
  - apply bind_Some in H as ([w1 rc] & Hcc & H). destruct (Hconn _ _ Hcc) as (Hw & Hrc & Hok).
    destruct (Z.eqb_spec rc 0) as [->|Hne].
    + apply bind_Some in H as (r & Hr & [= <-]). apply (flow_quiet s); try done; [|by destruct Hrc as [[_ ?]|[? _]]].
      by eapply (rexec_get _ R_get); [left|].
    + injection H as <-. apply (flow_quiet s); try done. by destruct Hrc as [[? _]|[_ ?]].
Qed.

Lemma flow_batch e now m torn seen s s' e' now' w0 md lines :
  flow s → (works → m = true) → frames_ok (y_ring s') → y_pc s = T_batch e' now' w0 md lines →
  thread_step tls send ssl_write e now m torn seen s = Some s' → flow s'.
Proof using Hsend Hssl Wsend Wssl.
  intros Hi Hm Hf Hp H. unfold thread_step in H. rewrite Hp in H. pose proof (fl_conn _ Hi) as Hcon. rewrite Hp in Hcon.
  assert (works → md = Sending) as Hmode by (intros W; destruct (fl_works _ Hi W) as [E _]; by rewrite Hp in E).
  destruct (k_cons (y_ring s)) as [| | | | | | | | | | | |[|g l]|] eqn:Hc; try done.
  - apply bind_Some in H as (r & Hr & [= <-]). destruct (rexec_use_nil _ _ _ _ _ Hc Hr) as [_ Hu].
    apply (flow_quiet s); try done. apply turn_end_wrote. destruct md; done.
  - apply bind_Some in H as ([w' md'] & Hl & H). apply bind_Some in H as (r & Hr & [= <-]).
    destruct (rexec_use_cons _ _ _ _ _ _ m _ Hc Hr) as [Hc' (u & Hu & Hfr & Hd)].
    pose proof (frames_ok_last _ _ _ _ _ Hf Hu Hfr) as Hs. set (b := read_line torn seen m (y_ring s) md g) in *.
    assert (md = Sending ∨ md ≠ Sending ∧ w' = free_line (y_writer s) b ∧ md' = md ∧ frame b = []) as [->|(Hne & -> & -> & Hb)].
    { unfold turn_line in Hl. destruct md; [by left|right..]; by simplify_eq. }
    + destruct (turn_line_wrote _ _ _ _ (fl_ok _ Hi) Hcon Hs Hl) as (Hoff & Hdr & Hw).
      destruct (drain_line_wrote _ _ _ (fl_ok _ Hi) Hcon Hs Hdr) as (p & H1 & H2 & H3 & H4).
      apply (flow_line s _ (g_pos g) u p); try done; [by rewrite Hfr|by destruct md'|]. intros W.
      assert (bl_malloc b = true) as Hbm by (unfold b; rewrite read_line_malloc; auto).
      split_and!; [by apply Hw|by apply Hd|rewrite Hfr; by apply H4].
    + pose proof (moved_free (y_writer s) b) as M.
      apply (flow_line s _ (g_pos g) u []); try done.
      * by eapply moved_wrote.
      * apply prefix_nil.
      * cbn [y_pc y_writer with_thread]. by destruct md; cbn in *; rewrite (mv_connected _ _ _ _ M).
      * intros W. by destruct (Hne (Hmode W)).
Qed.

Lemma cleanup_wrote w : w_connected w = true → wrote w (socket_writer_cleanup w) [].
Proof using. intros Hc. split; [intros; by apply cleanup_ok|]. rewrite app_nil_r. by destruct w. Qed.

Lemma flow_final e now m torn seen s s' e' :
  flow s → y_pc s = T_final e' → thread_step tls send ssl_write e now m torn seen s = Some s' → flow s'.
Proof using.
  intros Hi Hp H. unfold thread_step in H. rewrite Hp in H. pose proof (fl_conn _ Hi) as Hcon. rewrite Hp in Hcon.
  destruct (k_cons (y_ring s)) as [| | | | | | | | | | | |[|g l]|] eqn:Hc;
    try (by eapply flow_move; [done| |exact H]; eauto).
  - apply bind_Some in H as (r & Hr & [= <-]). destruct (rexec_use_nil _ _ _ _ _ Hc Hr) as [_ Hu].
    apply (flow_quiet s); try done; by apply cleanup_wrote.
  - injection H as <-. apply (flow_quiet s); try done. apply wrote_refl.
  - injection H as <-. apply (flow_quiet s); try done; by apply cleanup_wrote.
Qed.

Lemma flow_drain e now m torn seen s s' e' lines :
  flow s → (works → m = true) → frames_ok (y_ring s') → y_pc s = T_drain e' lines →
  thread_step tls send ssl_write e now m torn seen s = Some s' → flow s'.
Proof using Hsend Hssl Wsend Wssl.
  intros Hi Hm Hf Hp H. unfold thread_step in H. rewrite Hp in H. pose proof (fl_conn _ Hi) as Hcon. rewrite Hp in Hcon.
  destruct (k_cons (y_ring s)) as [| | | | | | | | | | | |[|g l]|] eqn:Hc; try done.
  - apply bind_Some in H as (r & Hr & [= <-]). destruct (rexec_use_nil _ _ _ _ _ Hc Hr) as [_ Hu].
    apply (flow_quiet s); try done. apply wrote_refl.
  - apply bind_Some in H as (w' & Hl & H). apply bind_Some in H as (r & Hr & [= <-]).
    destruct (rexec_use_cons _ Sending _ _ _ _ m _ Hc Hr) as [Hc' (u & Hu & Hfr & Hd)].
    pose proof (frames_ok_last _ _ _ _ _ Hf Hu Hfr) as Hs.
    destruct (drain_line_wrote _ _ _ (fl_ok _ Hi) Hcon Hs Hl) as (p & H1 & H2 & H3 & H4).
    apply (flow_line s _ (g_pos g) u p); try done; [by rewrite Hfr|]. intros W.
    split_and!; [done|by apply Hd|rewrite Hfr; apply H4; [done|]; rewrite read_line_malloc; auto].
Qed.

Lemma flow_exec s a s' :
  flow s → (works → good_action a) → frames_ok (y_ring s') → yexec tls send ssl_write s a = Some s' → flow s'.
Proof using Hsend Hssl Wsend Wssl.
  intros Hi Ha Hf H.
  assert (∀ r b p, outside b → rexec (y_ring s) b = Some r → flow (with_stop s r p)) as Hout.
  { intros r b p Hb Hr. destruct (rexec_outside _ _ _ Hb Hr) as [_ Hu]. apply (flow_quiet s); try done;
      [apply wrote_refl|apply (fl_conn _ Hi)|]. intros W. apply (fl_works _ Hi W). }
  assert (∀ p, flow (with_stop s (y_ring s) p)) as Hstop.
  { intros p. apply (flow_quiet s); try done; [apply wrote_refl|apply (fl_conn _ Hi)|]. intros W. apply (fl_works _ Hi W). }
  assert (∀ b, outside b → (match socket_writer_ring s with Some r => r ← rexec r b; Some (with_ring s r) | None => None end) = Some s' → flow s')
    as Hprod.
  { intros b Hb E. unfold socket_writer_ring in E. destruct (y_stop s) eqn:Es; try done;
      (apply bind_Some in E as (r & Hr & [= <-]); apply flow_ring; [done|by destruct (rexec_outside _ _ _ Hb Hr)]). }
  destruct a; cbn [yexec] in H; try (by eapply Hprod; [|exact H]).
  - assert (works → connects e ∧ m = true) as Hg by exact Ha.
    assert (works → connects e) as He by (intros W; by destruct (Hg W)).
    assert (works → m = true) as Hm by (intros W; by destruct (Hg W)).
    destruct (y_pc s) eqn:E; [by eapply flow_get|by eapply flow_batch|by eapply flow_final|by eapply flow_drain|].
    unfold thread_step in H. by rewrite E in H.
  - destruct (y_stop s) eqn:E; try done. injection H as <-. apply Hstop.
  - unfold socket_writer_stop in H. destruct (y_stop s) eqn:E; try done.
    + apply bind_Some in H as (r & Hr & [= <-]). by apply (Hout r R_close).
    + destruct (k_closer (y_ring s)) eqn:Ec; try (apply bind_Some in H as (r & Hr & [= <-]); by apply (Hout r R_closer)).
      injection H as <-. apply Hstop.
    + apply bind_Some in H as (r & Hr & [= <-]). by apply (Hout r R_signal).
    + destruct (y_pc s) eqn:Ep; try done. destruct (socket_ring_destroy (y_ring s)). injection H as <-. apply Hstop.
Qed.

End wire.

(** Lines used stay used. *)
Lemma rexec_used r a r' : rexec r a = Some r' → k_used r `prefix_of` k_used r'.
Proof.
  assert (∀ u : list (Z * outcome), u `prefix_of` u) as Hrefl by reflexivity.
  intros H. pose proof (λ Ho, rexec_outside _ _ _ Ho H) as Hout. destruct a; try (destruct (Hout I) as [_ ->]; apply Hrefl).
  - rewrite (rexec_get _ R_get _ (or_introl eq_refl) H). apply Hrefl.
  - rewrite (rexec_get _ _ _ (or_intror (ex_intro _ _ eq_refl)) H). apply Hrefl.
  - cbn in H. unfold use_step in H. repeat case_match; simplify_eq; cbn; [apply Hrefl|by apply prefix_app_r..].
Qed.

Lemma yrun_used tls send ssl_write l : ∀ s s', yrun tls send ssl_write s l = Some s' → k_used (y_ring s) `prefix_of` k_used (y_ring s').
Proof.
  induction l as [|a l IH]; intros s s' E; cbn in E; [injection E as <-; reflexivity|].
  apply bind_Some in E as (s1 & E1 & E2). etransitivity; [|by eapply IH].
  destruct (yexec_ring _ _ _ _ _ _ E1) as [->|[b Hb]]; [reflexivity|]. by eapply rexec_used.
Qed.

Lemma flow_run tls send ssl_write works l :
  sends_ok send → sends_ok ssl_write →
  (works → ∀ i n, 0 < n → send i n = Sent n) → (works → ∀ i n, 0 < n → ssl_write i n = Sent n) →
  (works → Forall good_action l) → ∀ s s',
  flow works s → frames_ok (y_ring s') → yrun tls send ssl_write s l = Some s' → flow works s'.
Proof.
  intros H1 H2 W1 W2. induction l as [|a l IH]; intros Hg s s' Hi Hf E; cbn in E; [by injection E as <-|].
  apply bind_Some in E as (s1 & E1 & E2).
  apply (IH ltac:(intros W; by apply Hg, Forall_cons in W as [_ ?]) s1 s'); [|done|done].
  eapply (flow_exec tls send ssl_write); eauto; [intros W; by apply Hg, Forall_cons in W as [? _]|].
  destruct (yrun_used _ _ _ _ _ _ E2) as [k Hk]. unfold frames_ok, used_frames in *. rewrite Hk, map_app in Hf.
  by apply Forall_app in Hf as [? _].
Qed.

(** ** Properties *)

(** A network and an allocator on which nothing fails, without TLS. *)
Definition all_works (send ssl_write : nat → Z → send_res) (w : socket_writer_t) (l : list yaction) : Prop :=
  (∀ i n, 0 < n → send i n = Sent n) ∧ (∀ i n, 0 < n → ssl_write i n = Sent n) ∧
  wc_use_tls (w_config w) = false ∧ Forall good_action l.

(** C14: the asynchronous socket end to end, in every interleaving of producers, writer
    thread, network answers and [socket_writer_stop] in which the drop counter stays
    zero and every frame is shorter than 2^31 bytes. At any moment no dead block was read or freed; the positions the thread is
    through with are an initial segment of those claimed, in order, each sent with
    exactly the bytes published there unless its inline slot was claimed again before
    the last read; and the wire holds, in that order, a prefix of the frame of each.
    If, without TLS, the peer accepts every connection and every byte and memory
    suffices, the wire holds exactly these frames and no line was given up. Once the stop has returned with
    no producer left, the thread has done what [socket_writer_thread] does on the
    batches it read, the socket and the TLS objects are closed, and no line is left on
    the heap; with the ring empty, every claimed position was used. *)
Theorem socket_async_end_to_end tls send ssl_write c ring_ok w k m l s :
  1 <= k <= 62 → sends_ok send → sends_ok ssl_write →
  socket_writer_start (Some c) true ring_ok = Some w →
  yrun tls send ssl_write (y_init w (2 ^ k) m) l = Some s → clen l < 2 ^ 62 →
  k_dropped (y_ring s) = 0 → frames_ok (y_ring s) →
  (k_ub (y_ring s) = false ∧ (∃ t, 0 <= t <= k_head (y_ring s) ∧ (k_used (y_ring s)).*1 = seqZ 0 t) ∧
   (∀ pos u, (pos, u) ∈ k_used (y_ring s) → used_ok (k_pub (y_ring s) !! pos) u)) ∧
  (∃ ps, mjoin (w_wire (y_writer s)) = mjoin ps ∧ Forall2 prefix ps (used_frames (y_ring s))) ∧
  (all_works send ssl_write w l →
   mjoin (w_wire (y_writer s)) = mjoin (used_frames (y_ring s)) ∧ ∀ pos, (pos, U_dropped) ∉ k_used (y_ring s)) ∧
  (∀ h ub, y_stop s = Stop_done h ub → (∀ i p, k_prods (y_ring s) !! i = Some p → p = S_idle) →
   h = ∅ ∧ ub = false ∧
   (∃ e, socket_writer_thread tls send ssl_write w (y_turns s) e (y_rest s) = Some (y_writer s)) ∧
   (w_sockfd (y_writer s) = false ∧ w_ssl (y_writer s) = false ∧ w_ssl_ctx (y_writer s) = false ∧ w_net (y_writer s) = 0) ∧
   (socket_ring_depth (y_ring s) = 0 →
    (k_used (y_ring s)).*1 = seqZ 0 (k_head (y_ring s)) ∧
    ∀ pos, 0 <= pos < k_head (y_ring s) → ∃ x, k_pub (y_ring s) !! pos = Some (Some x))).
Proof.
  intros Hk Hs1 Hs2 Hw E Hl Hdrop Hf.
  destruct (yrun_ring _ _ _ (ring_init (2 ^ k) m) l 0 (y_init w (2 ^ k) m) s (rsteps_O _) E) as (n & Hn & Hr).
  assert (Z.of_nat n < 2 ^ 62) as Hn' by (unfold clen in Hl; lia).
  pose proof (rinv_steps n k m (y_ring s) Hk Hr ltac:(lia)) as Hinv.
  pose proof (yinv_run _ _ _ w _ _ _ (yinv_init _ _ _ w (2 ^ k) m) E) as Hi.
  assert (flow (all_works send ssl_write w l) s) as Hflow.
  { apply (flow_run tls send ssl_write (all_works send ssl_write w l) l Hs1 Hs2 ltac:(by intros (? & _)) ltac:(by intros (_ & ? & _)) ltac:(by intros (_ & _ & _ & ?))
      (y_init w (2 ^ k) m)); [|done|done]. cbn in Hw. destruct (_ || _); [done|]. destruct (ring_ok _); [|done].
    injection Hw as <-. constructor; [by constructor|by intros (_ & _ & ? & _)|done|by exists []|].
    intros _. split; [done|]. split; [constructor|done]. }
  split; [split_and!; [apply (r_ub _ _ Hinv)|by eapply used_prefix|apply (r_used _ _ Hinv)]|].
  split; [apply (fl_wire _ _ Hflow)|]. split.
  - intros W. destruct (fl_works _ _ Hflow W) as (_ & H1 & H2). split; [done|]. intros pos Hin.
    by destruct (proj1 (Forall_forall _ _) H1 _ Hin).
  - intros h ub Hstop Hidle. destruct (yi_stop _ _ _ _ _ Hi h ub Hstop) as [Hd [e Hp]].
    pose proof (yi_thread _ _ _ _ _ Hi) as Hth. unfold thread_ok in Hth. rewrite Hp in Hth. destruct Hth as (Hrun & _ & Hq).
    pose proof (destroy_frees_all n k m (y_ring s) Hk Hr ltac:(lia) (conj Hidle Hq)) as Hfree. rewrite Hd in Hfree.
    injection Hfree as -> ->. split; [done|]. split; [done|]. split; [by exists e|].
    pose proof (fl_conn _ _ Hflow) as Hc. rewrite Hp in Hc. cbn in Hc. split.
    + destruct (fl_ok _ _ Hflow) as [G1 G2 G3 G4 _]. rewrite Hc in *. split_and!; try done.
      * destruct (w_ssl (y_writer s)); [by discriminate G2|done].
      * destruct (w_ssl_ctx (y_writer s)); [by discriminate G3|done].
    + exact (all_used n k m (y_ring s) Hk Hr Hn' Hdrop (conj Hidle Hq)).
Qed.

(** One line goes through: put, sent, then the stop. *)
Definition all_sent (i : nat) (n : Z) : send_res := Sent n.
Definition run_thread : yaction := Y_thread good_net 7 true [] false.
Definition through_schedule : list yaction :=
  [Y_put 0 (PutOp (B "hi") true)] ++ replicate 9 (Y_prod 0) ++ replicate 14 run_thread ++
  [Y_stop; Y_stopping; Y_stopping; Y_stopping; Y_stopping; Y_stopping] ++ replicate 8 run_thread ++ [Y_stopping].

Definition through : asock := default (y_init test_writer (2 ^ 2) 1) (yrun false all_sent all_sent (y_init test_writer (2 ^ 2) 1) through_schedule).

Example through_runs :
  (y_stop through, mjoin (w_wire (y_writer through)), k_prods (y_ring through)) = (Stop_done ∅ false, B "hi" ++ [10], [S_idle]).
Proof. vm_compute. reflexivity. Qed.

(** The line "aa" in the thread's hands is overwritten while it is sent: the wire may get
    bytes no one put. *)
Definition torn_schedule : list yaction :=
  [Y_put 0 (PutOp (B "aa") true)] ++ replicate 9 (Y_prod 0) ++ replicate 11 run_thread ++
  [Y_put 0 (PutOp (B "bb") true)] ++ replicate 9 (Y_prod 0) ++ [Y_put 0 (PutOp (B "cc") true)] ++ replicate 9 (Y_prod 0) ++
  [Y_thread good_net 7 true (B "ac") false].

Example line_torn :
  (λ s, mjoin (w_wire (y_writer s))) <$> yrun false all_sent all_sent (y_init test_writer (2 ^ 1) 1) torn_schedule = Some (B "ac" ++ [10]).
Proof. vm_compute. reflexivity. Qed.

Lemma through_works : all_works all_sent all_sent test_writer through_schedule.
Proof.
  split_and!; try done. unfold through_schedule.
  repeat (apply Forall_app; split); try (apply Forall_replicate); repeat (constructor; try done).
Qed.

Lemma socket_async_end_to_end_witness :
  mjoin (w_wire (y_writer through)) = mjoin (used_frames (y_ring through)) ∧
  used_frames (y_ring through) = [B "hi" ++ [10]] ∧ w_sockfd (y_writer through) = false.
Proof.
  assert (sends_ok all_sent) as Hs by (intros i x j Hx [= <-]; lia).
  destruct (socket_async_end_to_end false all_sent all_sent test_config (λ _, true) test_writer 2 1 through_schedule through)
    as (_ & _ & H1 & H2).
  - lia.
  - exact Hs.
  - exact Hs.
  - reflexivity.
  - unfold through. destruct (yrun _ _ _ _ _) eqn:E; [done|]. vm_compute in E. discriminate.
  - vm_compute. reflexivity.
  - vm_compute. reflexivity.
  - unfold frames_ok. assert (used_frames (y_ring through) = [B "hi" ++ [10]]) as -> by (vm_compute; reflexivity).
    constructor; [vm_compute; reflexivity|constructor].
  - split; [apply (H1 through_works)|]. split; [vm_compute; reflexivity|].
    apply (H2 ∅ false); [vm_compute; reflexivity|].
    intros i p. assert (k_prods (y_ring through) = [S_idle]) as -> by (vm_compute; reflexivity). destruct i; [by intros [= <-]|done].
Defined.
