(* ===== verification/SocketSink.v ===== *)
(** * The socket sink (sinks/socket_sink.c)

    The synchronous mode with its lazy connection, the asynchronous mode that
    hands lines to the ring, creation, destruction and the fork handler.  The
    lines handed to [socket_ring_put] are recorded; what the ring and the writer
    do with them is SocketRing.v and SocketWriter.v. *)
From S2P Require Import Prelude Record Config Dispatcher SocketWriter.
From coqutil Require Import Datatypes.RecordSetters.
Import DoubleBraceUpdate.

Local Open Scope Z_scope.

(** [ss_async]: [async_writer] and [async_ring] are not NULL. [ss_wire] are the bytes
    accepted on each connection, the current one last, [ss_puts] the lines given to
    the ring, [ss_calls] the number of send calls made. *)
Record socket_sink_data_t := SocketSinkData {
  ss_host : cstr; ss_port : Z; ss_sockfd : bool; ss_connected : bool;
  ss_use_tls : bool; ss_ca_file : option cstr; ss_skip_verify : bool;
  ss_ssl_ctx : bool; ss_ssl : bool;
  ss_async_enabled : bool; ss_async : bool;
  ss_wire : list cstr; ss_puts : list cstr; ss_calls : nat
}.

Section socket_sink.
(** CLOG_USE_TLS, and what [send] and [SSL_write] answer, call by call. *)
Context (tls : bool) (send ssl_write : nat → Z → send_res).

(** Every failure leaves the socket closed. *)
Definition socket_connect (e : conn_env) (d : socket_sink_data_t) : option (socket_sink_data_t * Z) :=
  if ss_connected d then Some (d, 0) else
  if negb (e_socket e) then Some (d{{ ss_sockfd := false }}, -1) else
  if negb (e_pton e (ss_host d)) then Some (d{{ ss_sockfd := false }}, -1) else
  match e_connect e with
  | C_ok =>
      let established d := Some (d{{ ss_sockfd := true; ss_connected := true; ss_wire := ss_wire d ++ [[]] }}, 0) in
      if ss_use_tls d && tls then
        if negb (e_ctx_new e) then Some (d{{ ss_sockfd := false; ss_ssl_ctx := false }}, -1) else
        if negb (e_ssl_new e) then Some (d{{ ss_sockfd := false; ss_ssl_ctx := false; ss_ssl := false }}, -1) else
        match e_handshake e with
        | H_ok :: _ => established d{{ ss_ssl_ctx := true; ss_ssl := true }}
        | _ => Some (d{{ ss_sockfd := false; ss_ssl_ctx := false; ss_ssl := false }}, -1)
        end
      else established d
  | _ => Some (d{{ ss_sockfd := false; ss_connected := false }}, -1)
  end.

(** Give the connection up. *)
Definition socket_close (d : socket_sink_data_t) (with_ssl : bool) : socket_sink_data_t :=
  if with_ssl then d{{ ss_connected := false; ss_ssl := false; ss_ssl_ctx := false; ss_sockfd := false }}
  else d{{ ss_connected := false; ss_sockfd := false }}.

Definition accept (d : socket_sink_data_t) (piece : cstr) : socket_sink_data_t :=
  d{{ ss_calls := S (ss_calls d); ss_wire := append_last piece (ss_wire d) }}.

(** The blocking loop; [None] when the fuel runs out. *)
Fixpoint write_loop (fuel : nat) (d : socket_sink_data_t) (buf : cstr) (total_sent : Z)
    : option (socket_sink_data_t * Z) :=
  if total_sent <? clen buf then
    match fuel with
    | O => None
    | S fuel' =>
        let piece k := take (Z.to_nat k) (drop (Z.to_nat total_sent) buf) in
        if tls && ss_use_tls d && ss_ssl d then
          match ssl_write (ss_calls d) (i32 (clen buf - total_sent)) with
          | Sent sent => if sent <=? 0 then Some (socket_close (accept d []) true, -1)
                         else write_loop fuel' (accept d (piece sent)) buf (total_sent + sent)
          | _ => Some (socket_close (accept d []) true, -1)
          end
        else
          match send (ss_calls d) (clen buf - total_sent) with
          | Sent sent => write_loop fuel' (accept d (piece sent)) buf (total_sent + sent)
          | _ => Some (socket_close (accept d []) false, -1)
          end
    end
  else Some (d, i32 total_sent).

(** [buf] without the newline at its end, if it has one. *)
Definition async_line (buf : cstr) : cstr :=
  if bool_decide (last buf = Some 10) then take (length buf - 1) buf else buf.

(** [put] is what [socket_ring_put] answers. *)
Definition socket_write (e : conn_env) (put : cstr → Z) (d : socket_sink_data_t) (buf : cstr)
    : option (socket_sink_data_t * Z) :=
  if ss_async_enabled d && ss_async d then
    Some (d{{ ss_puts := ss_puts d ++ [async_line buf] }}, put (async_line buf))
  else
    '(d, rc) ← (if ss_sockfd d then Some (d, 0) else socket_connect e d);
    if negb (rc =? 0) || negb (ss_sockfd d) then Some (d, -1)
    else write_loop (S (length buf)) d buf 0.

(** What the sink object holds and must give back. *)
Inductive resource := R_writer | R_ssl | R_ssl_ctx | R_socket.

#[global] Instance resource_eq_dec : EqDecision resource.
Proof. solve_decision. Defined.

Definition held (d : socket_sink_data_t) : list resource :=
  (if ss_async d then [R_writer] else []) ++ (if ss_ssl d then [R_ssl] else []) ++
  (if ss_ssl_ctx d then [R_ssl_ctx] else []) ++ (if ss_sockfd d then [R_socket] else []).

(** The releases of [socket_destroy], in order; the object itself is then freed. *)
Definition socket_destroy (d : socket_sink_data_t) : list resource :=
  (if ss_async_enabled d && ss_async d then [R_writer] else []) ++
  (if tls then (if ss_ssl d then [R_ssl] else []) ++ (if ss_ssl_ctx d then [R_ssl_ctx] else []) else []) ++
  (if ss_sockfd d then [R_socket] else []).

(** [None]: with a writer the handler joins a thread the child does not have, and does not
    return. *)
Definition socket_atfork_child (d : socket_sink_data_t) : option socket_sink_data_t :=
  if ss_async_enabled d && ss_async d then None
  else
    let d := if tls then d{{ ss_ssl := false; ss_ssl_ctx := false }} else d in
    Some d{{ ss_sockfd := false; ss_connected := false }}.

(** ** Creation *)

Definition socket_sink_create_tls (host : option cstr) (port : Z) (use_tls : bool) (ca_file : option cstr)
    (skip_verify : bool) (alloc : bool) : option socket_sink_data_t :=
  match host with
  | Some (c :: h) =>
      if (port <=? 0) || (port >? 65535) then None
      else if alloc
      then Some (SocketSinkData (c :: h) port false false use_tls ca_file skip_verify false false false false [] [] 0)
      else None
  | _ => None
  end.

Definition or_if_zero (x d : Z) : Z := if x >? 0 then x else d.

(** The writer's configuration; [writer_ok] is whether [socket_writer_start] works. *)
Definition socket_sink_create_async_ex (host : option cstr) (port : Z) (use_tls : bool) (ca_file : option cstr)
    (skip_verify : bool) (ring_capacity backoff_min_ms backoff_max_ms connect_timeout_ms : Z)
    (alloc : bool) (ring_ok : Z → bool) : option (socket_sink_data_t * option socket_writer_t) :=
  d ← socket_sink_create_tls host port use_tls ca_file skip_verify alloc;
  let c := WriterConfig (Some (ss_host d)) (ss_port d) (ss_use_tls d) (ss_ca_file d) (ss_skip_verify d)
             (or_if_zero ring_capacity 8192) (or_if_zero backoff_min_ms 1000)
             (or_if_zero backoff_max_ms 60000) (or_if_zero connect_timeout_ms 1000) in
  match socket_writer_start (Some c) alloc ring_ok with
  | None => Some (d, None)
  | Some w => Some (d{{ ss_async_enabled := true; ss_async := true }}, Some w)
  end.

Definition socket_sink_create_async host port use_tls ca_file skip_verify ring_capacity backoff_min_ms backoff_max_ms
    (alloc : bool) (ring_ok : Z → bool) :=
  socket_sink_create_async_ex host port use_tls ca_file skip_verify ring_capacity backoff_min_ms backoff_max_ms 0
    alloc ring_ok.

Definition socket_sink_create (host : option cstr) (port : Z) (alloc : bool) : option socket_sink_data_t :=
  socket_sink_create_tls host port false None false alloc.

(** ** Facts *)

Definition blocking_ok (f : nat → Z → send_res) : Prop := ∀ i n k, 0 < n → f i n = Sent k → 0 < k <= n.

(** The socket is open exactly when the sink is connected. *)
Record ss_ok (d : socket_sink_data_t) : Prop := {
  so_sock : ss_sockfd d = ss_connected d;
  so_ssl : ss_ssl d = true → ss_connected d = true ∧ ss_ssl_ctx d = true ∧ tls = true ∧ ss_use_tls d = true;
  so_ctx : ss_ssl_ctx d = true → ss_connected d = true ∧ ss_ssl d = true;
  so_wire : ss_connected d = true → ss_wire d ≠ []
}.

(** The connection can be made. *)
Definition net_up (e : conn_env) (d : socket_sink_data_t) : Prop :=
  e_socket e = true ∧ e_pton e (ss_host d) = true ∧ e_connect e = C_ok ∧ e_ctx_new e = true ∧ e_ssl_new e = true ∧
  head (e_handshake e) = Some H_ok.

(** From the next call on, every call takes some of the bytes it is given. *)
Definition takes_some (f : nat → Z → send_res) (d : socket_sink_data_t) : Prop :=
  ∀ i n, (ss_calls d ≤ i)%nat → 0 < n → ∃ k, f i n = Sent k ∧ 0 < k <= n.

Lemma accept_ok d p : ss_ok d → ss_connected d = true →
  ss_ok (accept d p) ∧ ss_connected (accept d p) = true ∧ mjoin (ss_wire (accept d p)) = mjoin (ss_wire d) ++ p ∧
  ss_use_tls (accept d p) = ss_use_tls d ∧ ss_ssl (accept d p) = ss_ssl d ∧ ss_puts (accept d p) = ss_puts d.
Proof using.
  intros [H1 H2 H3 H4] Hc. pose proof (H4 Hc) as Hw. destruct d. cbn in *. split_and!; try done.
  - constructor; cbn; try done. intros _. by apply append_last_nonempty.
  - by apply append_last_join.
Qed.

Lemma socket_connect_ok e d :
  ss_ok d → ∃ d' rc, socket_connect e d = Some (d', rc) ∧ ss_ok d' ∧ ss_puts d' = ss_puts d ∧
    mjoin (ss_wire d') = mjoin (ss_wire d) ∧ (rc = 0 ∧ ss_connected d' = true ∨ rc = -1 ∧ ss_connected d' = false).
Proof using.
  intros [H1 H2 H3 H4]. unfold socket_connect. destruct (ss_connected d) eqn:Hc.
  { do 2 eexists. split; [reflexivity|]. split; [by constructor; rewrite ?Hc|]. auto. }
  assert (ss_ssl d = false ∧ ss_ssl_ctx d = false) as [Hs0 Hx0].
  { split; [destruct (ss_ssl d)|destruct (ss_ssl_ctx d)]; try done; [by destruct (H2 eq_refl)|by destruct (H3 eq_refl)]. }
  destruct d. cbn in *. subst.
  repeat (match goal with
          | |- context [if ?b then _ else _] => destruct b eqn:?
          | |- context [match e_connect e with _ => _ end] => destruct (e_connect e)
          | |- context [match e_handshake e with _ => _ end] => destruct (e_handshake e) as [|[] ?]
          end; cbn);
    (do 2 eexists; split; [reflexivity|]; cbn); unfold RecordSetters.constant;
    (split; [constructor; cbn; try done; first [by destruct ss_wire0|
      intros _; match goal with H : _ && _ = true |- _ => apply andb_true_iff in H as [-> ->] end; by split_and!]|]);
    (split; [done|]); (split; [rewrite ?join_app; cbn; by rewrite ?app_nil_r|]); auto.
Qed.

Lemma socket_close_ok d :
  ss_ok d → let d' := socket_close d (tls && ss_use_tls d && ss_ssl d) in
  ss_ok d' ∧ ss_connected d' = false ∧ ss_wire d' = ss_wire d ∧ ss_puts d' = ss_puts d.
Proof using.
  intros [H1 H2 H3 H4]. unfold socket_close. destruct (tls && ss_use_tls d && ss_ssl d) eqn:E.
  { destruct d. cbn in *. split; [by constructor|done]. }
  assert (ss_ssl d = false) as Hs.
  { destruct (ss_ssl d); [|done]. destruct (H2 eq_refl) as (_ & _ & Ht & Hu). by rewrite Ht, Hu in E. }
  assert (ss_ssl_ctx d = false) as Hx by (destruct (ss_ssl_ctx d); [destruct (H3 eq_refl); congruence|done]).
  destruct d. cbn in *. subst. split; [by constructor|done].
Qed.

Lemma write_loop_ok buf : blocking_ok send → blocking_ok ssl_write → clen buf < 2 ^ 31 → ∀ fuel d t,
  ss_ok d → ss_connected d = true → 0 <= t <= clen buf → clen buf - t < Z.of_nat fuel →
  ∃ d' rc n, write_loop fuel d buf t = Some (d', rc) ∧ ss_ok d' ∧ ss_puts d' = ss_puts d ∧ t <= n <= clen buf ∧
    mjoin (ss_wire d') = mjoin (ss_wire d) ++ take (Z.to_nat (n - t)) (drop (Z.to_nat t) buf) ∧
    (rc = clen buf ∧ n = clen buf ∧ ss_connected d' = true ∨ rc = -1 ∧ ss_connected d' = false).
Proof using.
  intros Hs1 Hs2 Hb. induction fuel as [|fuel IH]; intros d t Hok Hc Ht Hf; [lia|]. cbn [write_loop].
  destruct (Z.ltb_spec t (clen buf)) as [Hlt|Hge].
  2:{ exists d, (i32 t), t. rewrite i32_id by (split; lia). split; [done|]. split; [done|]. split; [done|].
      split; [lia|]. rewrite Z.sub_diag. cbn. rewrite app_nil_r. split; [done|]. left. split_and!; [lia|lia|done]. }
  assert (∃ d' rc n, Some (socket_close (accept d []) (tls && ss_use_tls d && ss_ssl d), -1) = Some (d', rc) ∧
    ss_ok d' ∧ ss_puts d' = ss_puts d ∧ t <= n <= clen buf ∧
    mjoin (ss_wire d') = mjoin (ss_wire d) ++ take (Z.to_nat (n - t)) (drop (Z.to_nat t) buf) ∧
    (rc = clen buf ∧ n = clen buf ∧ ss_connected d' = true ∨ rc = -1 ∧ ss_connected d' = false)) as Hfail.
  { destruct (accept_ok d [] Hok Hc) as (A1 & A2 & A3 & A4 & A5 & A6).
    destruct (socket_close_ok (accept d []) A1) as (C1 & C2 & C3 & C4). rewrite A4, A5 in *.
    do 3 eexists. split; [reflexivity|]. split; [exact C1|]. split; [by rewrite C4|]. split; [|split; [|by right]].
    - instantiate (1 := t). lia.
    - rewrite C3, A3, Z.sub_diag. done. }
  assert (∀ k, 0 < k <= clen buf - t → ∃ d' rc n,
    write_loop fuel (accept d (take (Z.to_nat k) (drop (Z.to_nat t) buf))) buf (t + k) = Some (d', rc) ∧
    ss_ok d' ∧ ss_puts d' = ss_puts d ∧ t <= n <= clen buf ∧
    mjoin (ss_wire d') = mjoin (ss_wire d) ++ take (Z.to_nat (n - t)) (drop (Z.to_nat t) buf) ∧
    (rc = clen buf ∧ n = clen buf ∧ ss_connected d' = true ∨ rc = -1 ∧ ss_connected d' = false)) as Hgo.
  { intros k Hk. destruct (accept_ok d (take (Z.to_nat k) (drop (Z.to_nat t) buf)) Hok Hc) as (A1 & A2 & A3 & A4 & A5 & A6).
    destruct (IH _ (t + k) A1 A2 ltac:(lia) ltac:(lia)) as (d' & rc & n & R1 & R2 & R3 & R4 & R5 & R6).
    exists d', rc, n. split; [done|]. split; [done|]. split; [by rewrite R3|]. split; [lia|]. split; [|done].
    rewrite R5, A3, <- app_assoc. f_equal. replace (Z.to_nat (t + k)) with (Z.to_nat t + Z.to_nat k)%nat by lia.
    replace (Z.to_nat (n - t)) with (Z.to_nat k + Z.to_nat (n - (t + k)))%nat by lia.
    rewrite <- drop_drop. set (r := drop (Z.to_nat t) buf).
    rewrite <- (take_drop (Z.to_nat k) r) at 3. rewrite take_app_add'; [done|].
    rewrite length_take. unfold r. rewrite length_drop. unfold clen in *. lia. }
  destruct (tls && ss_use_tls d && ss_ssl d) eqn:E.
  - rewrite (i32_id (clen buf - t)) by (split; lia).
    destruct (ssl_write (ss_calls d) (clen buf - t)) as [k| |] eqn:Ek; [|exact Hfail|exact Hfail].
    apply Hs2 in Ek; [|lia]. destruct (Z.leb_spec k 0); [lia|]. by apply Hgo.
  - destruct (send (ss_calls d) (clen buf - t)) as [k| |] eqn:Ek; [|exact Hfail|exact Hfail].
    apply Hs1 in Ek; [|lia]. by apply Hgo.
Qed.

Lemma write_loop_works buf : clen buf < 2 ^ 31 → ∀ fuel d t,
  takes_some send d → takes_some ssl_write d → 0 <= t <= clen buf → clen buf - t < Z.of_nat fuel →
  ∃ d', write_loop fuel d buf t = Some (d', clen buf).
Proof using.
  intros Hb. induction fuel as [|fuel IH]; intros d t Hs1 Hs2 Ht Hf; [lia|]. cbn [write_loop].
  destruct (Z.ltb_spec t (clen buf)) as [Hlt|Hge]; [|exists d; rewrite i32_id by (split; lia); do 2 f_equal; lia].
  assert (∀ p, takes_some send (accept d p) ∧ takes_some ssl_write (accept d p)) as Hacc.
  { intros p. assert (ss_calls (accept d p) = S (ss_calls d)) as E by (by destruct d).
    split; intros i n; rewrite E; intros Hi; [apply Hs1|apply Hs2]; lia. }
  destruct (_ && _ && _).
  - rewrite (i32_id (clen buf - t)) by (split; lia). destruct (Hs2 (ss_calls d) (clen buf - t)) as (k & -> & Hk); [done|lia|].
    destruct (Z.leb_spec k 0); [lia|]. apply IH; [apply Hacc|apply Hacc|lia|lia].
  - destruct (Hs1 (ss_calls d) (clen buf - t)) as (k & -> & Hk); [done|lia|]. apply IH; [apply Hacc|apply Hacc|lia|lia].
Qed.

Lemma socket_connect_works e d : net_up e d → ∃ d', socket_connect e d = Some (d', 0) ∧ ss_calls d' = ss_calls d.
Proof using.
  intros (H1 & H2 & H3 & H4 & H5 & H6). unfold socket_connect. rewrite H1, H2, H3, H4, H5.
  destruct (ss_connected d); [by eexists|]. destruct (e_handshake e) as [|h l]; [done|]. injection H6 as ->.
  cbn [negb]. destruct (_ && _); (eexists; split; [reflexivity|]); by destruct d.
Qed.

(** A working network: the whole buffer, on an open connection. *)
Lemma socket_write_works e put d buf :
  clen buf < 2 ^ 31 → ss_ok d → ss_async_enabled d && ss_async d = false →
  net_up e d → takes_some send d → takes_some ssl_write d →
  ∃ d', socket_write e put d buf = Some (d', clen buf).
Proof using.
  intros Hb Hok Ha He Hs1 Hs2. unfold socket_write. rewrite Ha. pose proof (clen_nonneg buf) as Hb0.
  assert (∃ d1, (if ss_sockfd d then Some (d, 0) else socket_connect e d) = Some (d1, 0) ∧ ss_ok d1 ∧
    ss_connected d1 = true ∧ ss_calls d1 = ss_calls d) as (d1 & -> & O1 & C1 & N1).
  { destruct (ss_sockfd d) eqn:Hs; [exists d; rewrite (so_sock _ Hok) in Hs; done|].
    destruct (socket_connect_ok e d Hok) as (d1 & rc & E & O1 & _ & _ & Hrc).
    destruct (socket_connect_works e d He) as (d2 & E2 & N2). rewrite E2 in E. injection E as <- <-.
    exists d2. split; [done|]. destruct Hrc as [[_ ?]|[? _]]; done. }
  cbn [mbind option_bind Z.eqb negb orb]. rewrite (so_sock _ O1), C1. cbn [negb].
  apply write_loop_works; [done|..|lia|unfold clen; lia]; intros i n; rewrite N1; [apply Hs1|apply Hs2].
Qed.

Lemma socket_write_spec e put d buf :
  blocking_ok send → blocking_ok ssl_write → clen buf < 2 ^ 31 → ss_ok d → ss_async_enabled d && ss_async d = false →
  ∃ d' rc n, socket_write e put d buf = Some (d', rc) ∧ ss_ok d' ∧ ss_puts d' = ss_puts d ∧ 0 <= n <= clen buf ∧
    mjoin (ss_wire d') = mjoin (ss_wire d) ++ take (Z.to_nat n) buf ∧
    (rc = clen buf ∧ n = clen buf ∧ ss_connected d' = true ∨ rc = -1 ∧ ss_connected d' = false).
Proof using.
  intros Hs1 Hs2 Hb Hok Ha. unfold socket_write. rewrite Ha. pose proof (clen_nonneg buf) as Hb0.
  assert (∃ d1 rc, (if ss_sockfd d then Some (d, 0) else socket_connect e d) = Some (d1, rc) ∧ ss_ok d1 ∧
    ss_puts d1 = ss_puts d ∧ mjoin (ss_wire d1) = mjoin (ss_wire d) ∧
    (rc = 0 ∧ ss_connected d1 = true ∨ rc = -1 ∧ ss_connected d1 = false)) as (d1 & rc & -> & O1 & P1 & W1 & Hrc).
  { destruct (ss_sockfd d) eqn:Hs; [|by apply socket_connect_ok].
    exists d, 0. rewrite (so_sock _ Hok) in Hs. split_and!; auto. }
  cbn [mbind option_bind]. rewrite (so_sock _ O1). destruct Hrc as [[-> Hc]|[-> Hc]]; rewrite Hc; cbn [negb orb Z.eqb].
  - destruct (write_loop_ok buf Hs1 Hs2 Hb (S (length buf)) d1 0 O1 Hc ltac:(lia)) as (d' & rc & n & R1 & R2 & R3 & R4 & R5 & R6);
      [unfold clen; lia|].
    exists d', rc, n. rewrite Z.sub_0_r in R5. split; [done|]. split; [done|]. split; [congruence|]. split; [done|].
    split; [by rewrite R5, W1|done].
  - exists d1, (-1), 0. split; [done|]. split; [done|]. split; [done|]. split; [lia|]. cbn.
    rewrite app_nil_r. split; [done|]. by right.
Qed.

End socket_sink.

(** ** Runs *)

Inductive ss_op := SS_write (e : conn_env) (put : cstr → Z) (buf : cstr) | SS_atfork.

Definition ss_exec tls send ssl_write (d : socket_sink_data_t) (o : ss_op) : option socket_sink_data_t :=
  match o with
  | SS_write e put buf => fst <$> socket_write tls send ssl_write e put d buf
  | SS_atfork => socket_atfork_child tls d
  end.

Fixpoint ss_run tls send ssl_write (d : socket_sink_data_t) (l : list ss_op) : option socket_sink_data_t :=
  match l with [] => Some d | o :: l' => d' ← ss_exec tls send ssl_write d o; ss_run tls send ssl_write d' l' end.

Definition op_short (o : ss_op) : Prop := match o with SS_write _ _ buf => clen buf < 2 ^ 31 | SS_atfork => True end.

Lemma ss_exec_ok tls send ssl_write d o :
  blocking_ok send → blocking_ok ssl_write → ss_ok tls d → op_short o →
  (o = SS_atfork → ss_async_enabled d && ss_async d = false) →
  ∃ d', ss_exec tls send ssl_write d o = Some d' ∧ ss_ok tls d'.
Proof.
  intros Hs1 Hs2 Hok Ho Hfork. destruct o as [e put buf|].
  - cbn. destruct (ss_async_enabled d && ss_async d) eqn:Ha.
    + unfold socket_write. rewrite Ha. eexists. split; [reflexivity|]. destruct Hok, d. by constructor.
    + destruct (socket_write_spec tls send ssl_write e put d buf Hs1 Hs2 Ho Hok Ha) as (d' & rc & n & H1 & H2 & _).
      rewrite H1. by exists d'.
  - cbn. unfold socket_atfork_child. rewrite (Hfork eq_refl). eexists. split; [reflexivity|]. destruct Hok as [H1 H2 H3 H4].
    destruct tls; [destruct d; by constructor|].
    destruct (ss_ssl d) eqn:E1; [by destruct (H2 eq_refl) as (_ & _ & ? & _)|].
    destruct (ss_ssl_ctx d) eqn:E2; [by destruct (H3 eq_refl)|].
    destruct d. cbn in *. subst. by constructor.
Qed.

(** The mode of a synchronous sink never changes. *)
Definition flags (d : socket_sink_data_t) : bool * bool := (ss_async_enabled d, ss_async d).

Lemma write_loop_flags tls send ssl_write fuel buf : ∀ d t d' rc,
  write_loop tls send ssl_write fuel d buf t = Some (d', rc) → flags d' = flags d.
Proof.
  induction fuel as [|fuel IH]; intros d t d' rc; cbn [write_loop];
    (destruct (t <? clen buf); [|by intros [= <- <-]]); [done|].
  assert (∀ p, flags (accept d p) = flags d) as Ha by (by destruct d).
  assert (∀ b, flags (socket_close (accept d []) b) = flags d) as Hc by (intros []; by destruct d).
  destruct (_ && _ && _).
  - destruct (ssl_write _ _) as [z| |]; [destruct (z <=? 0)|..]; intros H; try (injection H as <- <-; done).
    rewrite <- (Ha (take (Z.to_nat z) (drop (Z.to_nat t) buf))). by apply IH in H.
  - destruct (send _ _) as [z| |]; intros H; try (injection H as <- <-; done).
    rewrite <- (Ha (take (Z.to_nat z) (drop (Z.to_nat t) buf))). by apply IH in H.
Qed.

Lemma socket_connect_flags tls e d d' rc : socket_connect tls e d = Some (d', rc) → flags d' = flags d.
Proof. unfold socket_connect. destruct d. cbn. intros H. repeat case_match; simplify_eq/=; done. Qed.

Lemma ss_exec_flags tls send ssl_write d o d' :
  ss_exec tls send ssl_write d o = Some d' → flags d = (false, false) → flags d' = (false, false).
Proof.
  intros H Hd. pose proof Hd as [= H1 H2]. destruct o as [e put buf|]; cbn in H.
  - apply fmap_Some in H as ([x rc] & H & ->). unfold socket_write in H. rewrite H1 in H. cbn [andb] in H.
    apply bind_Some in H as ([x1 rc1] & Hc & H).
    assert (flags x1 = flags d) as Hx.
    { destruct (ss_sockfd d); [by injection Hc as <- <-|by eapply socket_connect_flags]. }
    destruct (_ || _); [injection H as <- <-; cbn; congruence|]. apply write_loop_flags in H. cbn. congruence.
  - unfold socket_atfork_child in H. rewrite H1 in H. cbn in H. injection H as <-. by destruct tls, d.
Qed.

Lemma ss_run_ok tls send ssl_write l : ∀ d,
  blocking_ok send → blocking_ok ssl_write → ss_ok tls d → flags d = (false, false) → Forall op_short l →
  ∃ d', ss_run tls send ssl_write d l = Some d' ∧ ss_ok tls d' ∧ flags d' = (false, false).
Proof.
  induction l as [|o l IH]; intros d Hs1 Hs2 Hok Hf Hl; [by exists d|]. apply Forall_cons in Hl as [Ho Hl]. cbn.
  destruct (ss_exec_ok tls send ssl_write d o Hs1 Hs2 Hok Ho) as (d1 & E & H1); [by injection Hf as -> ->|].
  rewrite E. apply IH; try done. by eapply ss_exec_flags.
Qed.

(** ** Properties *)


(** What [frame] makes of a line given to the ring. *)
Definition wire_line (line : cstr) : cstr := frame (steady (Some line) false true).

Lemma wire_line_spec line : line ≠ [] → last line ≠ Some 10 → wire_line line = line ++ [10].
Proof.
  intros H1 H2. unfold wire_line, frame, line_bytes. cbn. destruct line; [done|]. unfold ends_nl. by rewrite bool_decide_false.
Qed.

Lemma async_line_snoc w : async_line (w ++ [10]) = w.
Proof.
  unfold async_line. rewrite last_snoc, bool_decide_true by done. rewrite length_app. cbn.
  rewrite Nat.add_sub. apply take_app_length.
Qed.

Lemma async_puts tls send ssl_write e put l : ∀ d,
  flags d = (true, true) →
  ∃ d', ss_run tls send ssl_write d (map (SS_write e put) l) = Some d' ∧ flags d' = (true, true) ∧
    ss_puts d' = ss_puts d ++ map async_line l ∧ ss_wire d' = ss_wire d ∧ ss_calls d' = ss_calls d.
Proof.
  induction l as [|x l IH]; intros d Hd; [exists d; by rewrite app_nil_r|]. cbn [map ss_run].
  pose proof Hd as [= H1 H2]. cbn [ss_exec]. unfold socket_write. rewrite H1, H2.
  change (fst <$> ?x) with (option_map fst x). cbn [andb option_map mbind option_bind fst].
  destruct (IH d{{ ss_puts := ss_puts d ++ [async_line x] }}) as (d' & R1 & R2 & R3 & R4 & R5).
  { rewrite <- Hd. by destruct d. }
  exists d'. split; [exact R1|]. split; [done|]. destruct d. cbn in *. rewrite R3, <- app_assoc. done.
Qed.

(** A line crosses the asynchronous path unchanged.  However the dispatcher cuts
    a line into writes, they make no system call, and what the sink hands to the ring
    and the writer frames again is the line with exactly one newline at its end (for
    a line that does not itself end in an empty line). *)
Theorem socket_async_line_once tls send ssl_write e put d is_colored w :
  ss_async_enabled d = true → ss_async d = true → w ≠ [] → async_line w ≠ [] → last (async_line w) ≠ Some 10 →
  ∃ d' lines, ss_run tls send ssl_write d (map (SS_write e put) (line_chunks is_colored w)) = Some d' ∧
    ss_puts d' = ss_puts d ++ lines ∧ ss_calls d' = ss_calls d ∧
    mjoin (map wire_line lines) = async_line w ++ [10].
Proof.
  intros H1 H2 Hw Hne Hlast.
  destruct (async_puts tls send ssl_write e put (line_chunks is_colored w) d) as (d' & R1 & _ & R3 & _ & R5);
    [unfold flags; congruence|].
  exists d', (map async_line (line_chunks is_colored w)). split; [done|]. split; [done|]. split; [done|].
  unfold line_chunks. assert ((clen w >? 0) = true) as -> by (destruct w; [done|]; rewrite Z.gtb_ltb; apply Z.ltb_lt; clia).
  destruct (decide (last w = Some 10)) as [Hl|Hl]; [rewrite bool_decide_true by done|rewrite bool_decide_false by done]; cbn [negb andb].
  - cbn. rewrite app_nil_r. by apply wire_line_spec.
  - unfold async_line in Hne, Hlast |- * at 2. rewrite bool_decide_false in * by done.
    destruct (_ && _); cbn [map mjoin list_join].
    + rewrite async_line_snoc, app_nil_r. by apply wire_line_spec.
    + change (async_line [10]) with (@nil Z). change (wire_line []) with (@nil Z). rewrite !app_nil_r.
      unfold async_line. rewrite bool_decide_false by done. by apply wire_line_spec.
Qed.

(** ** Concrete runs *)

Definition test_host : option cstr := Some (B "10.0.0.1").


(** With a writer running, the child's handler waits for a thread it does not have. *)
Example async_fork_hangs : socket_atfork_child false
    (SocketSinkData (B "10.0.0.1") 514 false false false None false false false true true [] [] 0) = None.
Proof. reflexivity. Qed.

Definition test_async : socket_sink_data_t :=
  SocketSinkData (B "10.0.0.1") 514 false false false None false false false true true [] [] 0.

Lemma socket_async_line_once_witness :
  ∃ d' lines, ss_run false (λ _ _, Failed) (λ _ _, Failed) test_async
      (map (SS_write bad_net (λ _, 0)) (line_chunks false (B "hello"))) = Some d' ∧ ss_puts d' = [] ++ lines ∧
    lines = [B "hello"] ∧ mjoin (map wire_line lines) = B "hello" ++ [10].
Proof.
  destruct (socket_async_line_once false (λ _ _, Failed) (λ _ _, Failed) bad_net (λ _, 0) test_async false (B "hello"))
    as (d' & lines & H1 & H2 & _ & H3); [done|done|done|done|done|].
  exists d', lines. split; [exact H1|]. split; [exact H2|]. split; [|exact H3].
  vm_compute in H1. injection H1 as <-. symmetry. exact H2.
Defined.

(** TLS requested of a build without it: the synchronous sink connects in the clear,
    the writer of the asynchronous one refuses. *)
Example tls_downgraded :
  (λ x, (ss_wire x.1, x.2)) <$> (d ← socket_sink_create_tls test_host 514 true None false true;
    socket_write false (λ _ n, Sent n) (λ _ n, Sent n) good_net (λ _, 0) d (B "secret")) = Some ([B "secret"], 6) ∧
  (λ x, x.2) <$> socket_writer_connect false good_net
    (Writer (WriterConfig test_host 514 true None false 8 1 1 1) false false false false 1 0 0 [] 0 []) = Some (-1).
Proof. split; vm_compute; reflexivity. Qed.

(** A failed send is not retried: the write is lost, the next one connects again. *)
Example failed_write_not_retried :
  let send := λ i n, match i with 0%nat => Failed | _ => Sent n end in
  (d ← socket_sink_create test_host 514 true;
   '(d, r1) ← socket_write false send send good_net (λ _, 0) d (B "one");
   '(d, r2) ← socket_write false send send good_net (λ _, 0) d (B "two");
   Some (r1, r2, ss_wire d)) = Some (-1, 3, [[]; B "two"]).
Proof. vm_compute. reflexivity. Qed.
