(* ===== verification/StreamSinks.v ===== *)
(** * The console, OTLP and custom sinks (sinks/console_sink.c, otlp_sink.c, custom_sink.c)

    A [FILE *] is a name and the bytes written to it are part of the state; [fwrite]
    may take fewer bytes than it is offered.  The custom sink forwards to callbacks of
    the application, which are a parameter with a state of their own. *)
From S2P Require Import Prelude Record.

Local Open Scope Z_scope.

Inductive stream := STDOUT | STDERR | OPENED (path : cstr).

#[export] Instance stream_eq_dec : EqDecision stream.
Proof. solve_decision. Defined.
#[export] Instance stream_countable : Countable stream.
Proof.
  refine (inj_countable' (λ s, match s with STDOUT => inl false | STDERR => inl true | OPENED p => inr p end)
            (λ x : bool + cstr, match x with inl false => STDOUT | inl true => STDERR | inr p => OPENED p end) _).
  by intros [].
Defined.

(** What each stream has been given. *)
Abbreviation streams := (gmap stream cstr).
Definition stream_text (m : streams) (s : stream) : cstr := default [] (m !! s).
Definition stream_append (m : streams) (s : stream) (b : cstr) : streams := <[s := stream_text m s ++ b]> m.

Section streams.
(** [fwrite (buf, 1, len, s)]: the number of bytes taken. *)
Context (fwrite : stream → cstr → Z).

(** ** Console *)

Record console_sink_data_t := ConsoleSinkData { cs_stream : option stream; cs_use_color : bool }.

(** [data] is None when [private_data] is NULL. *)
Definition console_write (m : streams) (data : option console_sink_data_t) (buf : cstr) : streams * Z :=
  match data with
  | Some (ConsoleSinkData (Some s) _) =>
      let written := fwrite s buf in (stream_append m s (take (Z.to_nat written) buf), i32 written)
  | _ => (m, -1)
  end.

(** Whether the destructor closes the stream. *)
Definition console_destroy (data : option console_sink_data_t) : list stream :=
  match data with
  | Some (ConsoleSinkData (Some (OPENED p)) _) => [OPENED p]
  | _ => []
  end.

Definition console_sink_create_for (s : stream) (use_color : bool) (alloc : bool) : option console_sink_data_t :=
  if alloc then Some (ConsoleSinkData (Some s) use_color) else None.
Definition console_sink_create : bool → bool → option console_sink_data_t := console_sink_create_for STDOUT.
Definition console_sink_create_stderr : bool → bool → option console_sink_data_t := console_sink_create_for STDERR.

(** ** OTLP *)

Record otlp_sink_data_t := OtlpSinkData { ot_endpoint : cstr; ot_service_name : cstr; ot_file_out : option stream }.

(** The record and a newline to the destination; to standard output, without a
    newline, when there is none. *)
Definition otlp_sink_write (m : streams) (data : option otlp_sink_data_t) (buf : option cstr) : streams * Z :=
  match data, buf with
  | Some d, Some buf =>
      match ot_file_out d with
      | Some s =>
          let written := fwrite s buf in
          let m := stream_append m s (take (Z.to_nat written) buf) in
          if written <? clen buf then (m, -1) else (stream_append m s [10], i32 (clen buf + 1))
      | None =>
          let written := fwrite STDOUT buf in
          (stream_append m STDOUT (take (Z.to_nat written) buf), i32 written)
      end
  | _, _ => (m, -1)
  end.

(** The stream [otlp_sink_flush] flushes. *)
Definition otlp_sink_flush (data : option otlp_sink_data_t) : list stream :=
  match data with Some d => [default STDOUT (ot_file_out d)] | None => [] end.

Definition otlp_sink_destroy (data : option otlp_sink_data_t) : list stream :=
  match data with
  | Some d => match ot_file_out d with Some (OPENED p) => [OPENED p] | _ => [] end
  | None => []
  end.

(** [fopen_ok]: [fopen (endpoint, "a")]. *)
Definition otlp_sink_create (endpoint service_name : option cstr) (alloc : bool) (fopen_ok : cstr → bool)
    : option otlp_sink_data_t :=
  if negb alloc then None else
  let service := match service_name with Some (c :: s) => snprintf_s 128 (c :: s) | _ => snprintf_s 128 (B "clogx_service") end in
  match endpoint with
  | Some (c :: e) =>
      let out := if streq (c :: e) (B "stdout") then Some STDOUT
                 else if streq (c :: e) (B "stderr") then Some STDERR
                 else if fopen_ok (c :: e) then Some (OPENED (c :: e)) else None in
      Some (OtlpSinkData (snprintf_s 256 (c :: e)) service out)
  | _ => Some (OtlpSinkData [] service (Some STDOUT))
  end.

(** ** Custom *)

Section custom.
Context {U : Type}.

(** The callbacks; [user_flush] and [user_destroy] may be NULL. *)
Record custom_sink_data_t := CustomSinkData {
  user_write : option (U → cstr → U * Z); user_flush : option (U → U); user_destroy : option (U → U)
}.

Definition custom_write (data : option custom_sink_data_t) (u : U) (buf : cstr) : U * Z :=
  match data with
  | Some d => match user_write d with Some f => f u buf | None => (u, -1) end
  | None => (u, -1)
  end.

Definition custom_flush (data : option custom_sink_data_t) (u : U) : U :=
  match data with Some d => match user_flush d with Some f => f u | None => u end | None => u end.

Definition custom_destroy (data : option custom_sink_data_t) (u : U) : U :=
  match data with Some d => match user_destroy d with Some f => f u | None => u end | None => u end.

Definition custom_sink_create (write_fn : option (U → cstr → U * Z)) (flush_fn destroy_fn : option (U → U))
    (alloc : bool) : option custom_sink_data_t :=
  match write_fn with
  | None => None
  | Some _ => if alloc then Some (CustomSinkData write_fn flush_fn destroy_fn) else None
  end.
End custom.

(** ** Facts *)

Lemma stream_text_append m s b : stream_text (stream_append m s b) s = stream_text m s ++ b.
Proof. unfold stream_append, stream_text at 1. by rewrite lookup_insert_eq. Qed.
Lemma stream_text_other m s s' b : s ≠ s' → stream_text (stream_append m s b) s' = stream_text m s'.
Proof. intros H. unfold stream_append, stream_text at 1. by rewrite lookup_insert_ne. Qed.

(** [fwrite] takes everything. *)
Context (Hfw : ∀ s b, fwrite s b = clen b).

Lemma console_write_full m s c buf :
  stream_text (console_write m (Some (ConsoleSinkData (Some s) c)) buf).1 s = stream_text m s ++ buf.
Proof using Hfw.
  cbn. rewrite stream_text_append, Hfw. unfold clen. by rewrite Nat2Z.id, firstn_all.
Qed.

Lemma otlp_write_full m e sv s buf :
  stream_text (otlp_sink_write m (Some (OtlpSinkData e sv (Some s))) (Some buf)).1 s = stream_text m s ++ buf ++ [10].
Proof using Hfw.
  cbn. rewrite Hfw, Z.ltb_irrefl. cbn. rewrite !stream_text_append. unfold clen.
  by rewrite Nat2Z.id, firstn_all, <- app_assoc.
Qed.
End streams.

Arguments custom_sink_data_t : clear implicits.
