(* ===== verification/Journald.v ===== *)
(** * The journald and syslog sinks (sinks/journald_sink.c, sinks/syslog_sink.c)

    Both take the priority from the level tag in the text.  The journald sink
    encodes a datagram of the journal's native protocol; a reader of that protocol,
    written from its documentation, is defined here to state that the datagram
    means what it should.  The packet is filled in a buffer of the size the code
    computes, a write past its end being an error of the model; descriptors live in
    the process's table.  [socket], [connect], [send] and the allocations are
    arguments. *)
From S2P Require Import Prelude Record FastAscii.

Local Open Scope Z_scope.

(** ** Priorities *)

Definition has (buf : cstr) (tag : string) : bool := match strstr buf (B tag) with Some _ => true | None => false end.

Definition journald_priority_from_text (buf : cstr) : Z :=
  if has buf "[TRACE]" || has buf "[DEBUG]" then 7
  else if has buf "[WARN]" || has buf "[WARNING]" then 4
  else if has buf "[ERROR]" then 3
  else if has buf "[FATAL]" then 2
  else 6.

(** The constants of syslog.h. *)
Definition LOG_CRIT : Z := 2.
Definition LOG_ERR : Z := 3.
Definition LOG_WARNING : Z := 4.
Definition LOG_INFO : Z := 6.
Definition LOG_DEBUG : Z := 7.

(** [sy_ident] is null when [strdup] failed, which the factory does not look at. *)
Record syslog_sink_data_t := SyslogSinkData { sy_ident : option cstr; sy_facility : Z }.

(** What reaches the system logger. *)
Inductive syslog_call :=
  | SC_openlog (ident : option cstr) (opts : Z) (facility : Z)
  | SC_closelog
  | SC_syslog (priority : Z) (msg : cstr).

(** [LOG_PID | LOG_NDELAY]. *)
Definition syslog_opts : Z := Z.lor 1 8.

(** [None] for a null [data] or [buf]; the calls made and the result. *)
Definition syslog_write (data : option syslog_sink_data_t) (buf : option cstr) : list syslog_call * Z :=
  match data, buf with
  | Some _, Some buf =>
      let priority :=
        if has buf "[TRACE]" || has buf "[DEBUG]" then LOG_DEBUG
        else if has buf "[WARN]" || has buf "[WARNING]" then LOG_WARNING
        else if has buf "[ERROR]" then LOG_ERR
        else if has buf "[FATAL]" then LOG_CRIT
        else LOG_INFO in
      ([SC_syslog priority buf], i32 (clen buf))
  | _, _ => ([], -1)
  end.

Definition syslog_destroy (data : option syslog_sink_data_t) : list syslog_call :=
  match data with Some _ => [SC_closelog] | None => [] end.

Definition syslog_atfork_child (data : option syslog_sink_data_t) : list syslog_call :=
  match data with Some d => [SC_closelog; SC_openlog (sy_ident d) syslog_opts (sy_facility d)] | None => [] end.

(** [alloc] for the two [malloc], [dup] for [strdup]; there is no syslog on Windows. *)
Definition syslog_sink_create (win32 : bool) (ident : option cstr) (facility : Z) (alloc dup : bool)
    : option (syslog_sink_data_t * list syslog_call) :=
  if win32 || negb alloc then None
  else let ident := if dup then Some (or_default ident (B "clogx")) else None in
       Some (SyslogSinkData ident facility, [SC_openlog ident syslog_opts facility]).

(** ** The journal datagram *)

Definition JOURNALD_MAX_MESSAGE : Z := 240 * 1024.

Record journald_sink_data_t := JournaldSinkData { jd_fd : Z; jd_ident : cstr }.

(** [journald_store_le64]. *)
Fixpoint store_le (n : nat) (v : Z) : cstr :=
  match n with O => [] | S n' => Z.land v 255 :: store_le n' (Z.shiftr v 8) end.
Definition journald_store_le64 (v : Z) : cstr := store_le 8 v.

(** The loop that drops newlines and carriage returns at the end. *)
Fixpoint strip_len (fuel : nat) (buf : cstr) (msg_len : nat) : nat :=
  match fuel, msg_len with
  | S fuel', S n => match buf !! n with
                    | Some c => if (c =? 10) || (c =? 13) then strip_len fuel' buf n else msg_len
                    | None => msg_len
                    end
  | _, _ => msg_len
  end.

(** The bytes sent as MESSAGE. *)
Definition journald_message (buf : cstr) : cstr :=
  let msg_len := Z.of_nat (strip_len (length buf) buf (length buf)) in
  take (Z.to_nat (if msg_len >? JOURNALD_MAX_MESSAGE then JOURNALD_MAX_MESSAGE else msg_len)) buf.

Definition prio_line (buf : cstr) : cstr := B "PRIORITY=" ++ dec (journald_priority_from_text buf) ++ [10].

Definition use_binary (msg : cstr) : bool := existsb (Z.eqb 10) msg.

(** [total], the size the packet buffer is made for. *)
Definition journald_total (ident buf : cstr) : Z :=
  let msg_len := clen (journald_message buf) in
  clen (prio_line buf) + 18 + clen ident + 1 +
  (if use_binary (journald_message buf) then 8 + 8 + msg_len + 1 else 8 + msg_len + 1).

(** [journald_put]: [memcpy] into the packet at the offset; [None] is a write past the
    end of the buffer. *)
Definition journald_put (st : cstr * Z) (src : cstr) : option (cstr * Z) :=
  let '(packet, off) := st in
  if off + clen src <=? clen packet
  then Some (take (Z.to_nat off) packet ++ src ++ drop (Z.to_nat (off + clen src)) packet, off + clen src)
  else None.

(** The packet is filled from the front; single bytes are stored like the chunks. *)
Definition journald_fill (packet ident buf : cstr) : option (cstr * Z) :=
  let msg := journald_message buf in
  st ← journald_put (packet, 0) (prio_line buf);
  st ← journald_put st (B "SYSLOG_IDENTIFIER=");
  st ← journald_put st ident;
  st ← journald_put st [10];
  st ← (if use_binary msg then
          st ← journald_put st (B "MESSAGE" ++ [10]);
          st ← journald_put st (journald_store_le64 (clen msg));
          journald_put st msg
        else
          st ← journald_put st (B "MESSAGE=");
          journald_put st msg);
  journald_put st [10].

(** What the packet has to hold. *)
Definition journald_packet (ident buf : cstr) : cstr :=
  let msg := journald_message buf in
  prio_line buf ++ B "SYSLOG_IDENTIFIER=" ++ ident ++ [10] ++
  (if use_binary msg then B "MESSAGE" ++ [10] ++ journald_store_le64 (clen msg) ++ msg else B "MESSAGE=" ++ msg) ++
  [10].

(** [malloc_ok] is asked when the packet exceeds the 512-byte stack buffer; [send]
    is the number of bytes it returns. [junk] is what the buffer holds at first. The
    packet handed to [send], if any, and the result; [None] for a write out of
    bounds. *)
Definition journald_write (malloc_ok : bool) (junk : Z) (send : cstr → Z) (data : option journald_sink_data_t)
    (buf : option cstr) : option (option cstr * Z) :=
  match data, buf with
  | Some d, Some buf =>
      if jd_fd d <? 0 then Some (None, -1) else
      let total := journald_total (jd_ident d) buf in
      if negb ((total <=? 512) || malloc_ok) then Some (None, -1) else
      let stack_buf := total <=? 512 in
      '(packet, off) ← journald_fill (replicate (Z.to_nat (if stack_buf then 512 else total)) junk) (jd_ident d) buf;
      if negb (off =? total) then Some (None, -1)
      else let sent := take (Z.to_nat off) packet in
           if negb (send sent =? off) then Some (Some sent, -1)
           else Some (Some sent, i32 (clen buf))
  | _, _ => Some (None, -1)
  end.

(** ** Descriptors *)

(** [close]. *)
Definition fd_close (fds : gset Z) (fd : Z) : gset Z := fds ∖ {[fd]}.

Definition journald_close_fd (fds : gset Z) (d : journald_sink_data_t) : gset Z * journald_sink_data_t :=
  if 0 <=? jd_fd d then (fd_close fds (jd_fd d), JournaldSinkData (-1) (jd_ident d)) else (fds, d).

(** [socket] answers from the table it finds; a failed [connect] closes it again. *)
Definition journald_connect (socket : gset Z → Z) (connect_ok : bool) (fds : gset Z) : gset Z * Z :=
  let sock := socket fds in
  if sock <? 0 then (fds, -1)
  else let fds := {[sock]} ∪ fds in
       if negb connect_ok then (fd_close fds sock, -1) else (fds, sock).

Definition journald_atfork_child (socket : gset Z → Z) (connect_ok : bool) (fds : gset Z) (d : journald_sink_data_t)
    : gset Z * journald_sink_data_t :=
  let '(fds, d) := journald_close_fd fds d in
  let '(fds, fd) := journald_connect socket connect_ok fds in
  (fds, JournaldSinkData fd (jd_ident d)).

(** The answers of the three allocations. *)
Record jd_alloc := JdAlloc { ja_sink : bool; ja_data : bool; ja_dup : bool }.

(** The blocks a sink has on the heap: itself, its data and the identifier. The
    factory returns the descriptors, the number of live blocks and the sink. *)
Definition journald_sink_create (linux : bool) (ident : option cstr) (a : jd_alloc) (socket : gset Z → Z) (connect_ok : bool)
    (fds : gset Z) (live : Z) : gset Z * Z * option journald_sink_data_t :=
  if negb linux then (fds, live, None) else
  let name := or_default ident (B "clogx") in
  if existsb (Z.eqb 10) name then (fds, live, None)
  else if negb (ja_sink a) then (fds, live, None)
  else let live := live + 1 in
  if negb (ja_data a) then (fds, live - 1, None)
  else let live := live + 1 in
  if negb (ja_dup a) then (fds, live - 1 - 1, None)
  else let live := live + 1 in
  let '(fds, fd) := journald_connect socket connect_ok fds in
  if fd <? 0 then (fds, live - 1 - 1 - 1, None)
  else (fds, live, Some (JournaldSinkData fd name)).

Definition journald_destroy (fds : gset Z) (live : Z) (data : option journald_sink_data_t) : gset Z * Z :=
  match data with
  | None => (fds, live - 1)
  | Some d => let '(fds, _) := journald_close_fd fds d in (fds, live - 1 - 1 - 1)
  end.

(** The sinks of one process, its descriptors and its heap. *)
Record jsys := JSys { js_fds : gset Z; js_live : Z; js_sinks : list journald_sink_data_t }.

Inductive jop :=
  | J_create (linux : bool) (ident : option cstr) (a : jd_alloc) (socket : gset Z → Z) (connect_ok : bool)
  | J_destroy (i : nat)
  | J_atfork (i : nat) (socket : gset Z → Z) (connect_ok : bool).

Definition jexec (s : jsys) (o : jop) : jsys :=
  match o with
  | J_create linux ident a socket connect_ok =>
      let '(fds, live, d) := journald_sink_create linux ident a socket connect_ok (js_fds s) (js_live s) in
      JSys fds live (js_sinks s ++ option_list d)
  | J_destroy i =>
      match js_sinks s !! i with
      | Some d => let '(fds, live) := journald_destroy (js_fds s) (js_live s) (Some d) in
                  JSys fds live (delete i (js_sinks s))
      | None => s
      end
  | J_atfork i socket connect_ok =>
      match js_sinks s !! i with
      | Some d => let '(fds, d') := journald_atfork_child socket connect_ok (js_fds s) d in
                  JSys fds (js_live s) (<[i := d']> (js_sinks s))
      | None => s
      end
  end.
Definition jrun (s : jsys) (ops : list jop) : jsys := foldl jexec s ops.

(** ** Reading a datagram back *)

(** The position of the first byte satisfying [f]. *)
Fixpoint find_byte (f : Z → bool) (s : cstr) : option nat :=
  match s with [] => None | c :: s' => if f c then Some 0%nat else S <$> find_byte f s' end.

Fixpoint load_le (s : cstr) : Z :=
  match s with [] => 0 | c :: s' => c + 256 * load_le s' end.

(** One field: NAME, '=', value, newline; or NAME, newline, 64-bit length, value, newline. *)
Definition read_field (s : cstr) : option (cstr * cstr * cstr) :=
  i ← find_byte (λ c, (c =? 61) || (c =? 10)) s;
  c ← s !! i;
  let name := take i s in
  let rest := drop (S i) s in
  if c =? 61 then
    j ← find_byte (Z.eqb 10) rest; Some (name, take j rest, drop (S j) rest)
  else
    let n := Z.to_nat (load_le (take 8 rest)) in
    let body := drop 8 rest in
    e ← body !! n;
    if e =? 10 then Some (name, take n body, drop (S n) body) else None.

Fixpoint read_fields (fuel : nat) (s : cstr) : option (list (cstr * cstr)) :=
  match s, fuel with
  | [], _ => Some []
  | _, O => None
  | _, S fuel' =>
      '(name, value, rest) ← read_field s; l ← read_fields fuel' rest; Some ((name, value) :: l)
  end.

Lemma find_byte_app f a c b :
  Forall (λ x, f x = false) a → f c = true → find_byte f (a ++ c :: b) = Some (length a).
Proof.
  intros Ha Hc. induction Ha as [|x a Hx Ha IH]; cbn; [by rewrite Hc|]. rewrite Hx. by rewrite IH.
Qed.

Lemma load_store_le n : ∀ v, 0 <= v < 2 ^ (8 * Z.of_nat n) → load_le (store_le n v) = v.
Proof.
  induction n as [|n IH]; intros v Hv; cbn [store_le load_le].
  - change (2 ^ (8 * Z.of_nat 0)) with 1 in Hv. lia.
  - change 255 with (Z.ones 8). rewrite Z.land_ones by lia. rewrite IH.
    + rewrite Z.shiftr_div_pow2 by lia. change (2 ^ 8) with 256. pose proof (Z.div_mod v 256). lia.
    + rewrite Z.shiftr_div_pow2 by lia. replace (8 * Z.of_nat (S n)) with (8 * Z.of_nat n + 8) in Hv by lia.
      rewrite Z.pow_add_r in Hv by lia. split; [apply Z.div_pos; lia|]. apply Z.div_lt_upper_bound; lia.
Qed.

Lemma length_store_le n v : length (store_le n v) = n.
Proof. revert v. induction n; intros v; cbn; [done|by rewrite IHn]. Qed.

Definition name_ok (name : cstr) : Prop := Forall (λ c, (c =? 61) || (c =? 10) = false) name.
Definition no_newline (s : cstr) : Prop := Forall (λ c, (10 =? c) = false) s.

Lemma read_field_text name value rest :
  name_ok name → no_newline value → read_field (name ++ [61] ++ value ++ [10] ++ rest) = Some (name, value, rest).
Proof.
  intros Hn Hv. unfold read_field. cbn [app].
  rewrite (find_byte_app _ name 61) by done. cbn [mbind option_bind].
  rewrite list_lookup_middle by done. cbn [mbind option_bind Z.eqb Pos.eqb].
  rewrite take_app_length. rewrite (cons_middle 61), app_assoc, drop_app_length' by (rewrite length_app; cbn; lia).
  rewrite (find_byte_app _ value 10) by done. cbn [mbind option_bind]. rewrite take_app_length.
  rewrite (cons_middle 10), app_assoc, drop_app_length' by (rewrite length_app; cbn; lia). done.
Qed.

Lemma read_field_binary name value rest :
  name_ok name → clen value < 2 ^ 64 →
  read_field (name ++ [10] ++ journald_store_le64 (clen value) ++ value ++ [10] ++ rest) = Some (name, value, rest).
Proof.
  intros Hn Hv. unfold read_field. set (h := journald_store_le64 (clen value)). cbn [app].
  assert (length h = 8%nat) as Hh by apply length_store_le.
  rewrite (find_byte_app _ name 10) by done. cbn [mbind option_bind].
  rewrite list_lookup_middle by done. cbn [mbind option_bind Z.eqb Pos.eqb].
  rewrite take_app_length. rewrite (cons_middle 10), app_assoc, drop_app_length' by (rewrite length_app; cbn; lia).
  rewrite take_app_length' by done. rewrite drop_app_length' by done.
  unfold h, journald_store_le64. rewrite load_store_le by (split; [apply clen_nonneg|exact Hv]).
  unfold clen. rewrite Nat2Z.id. rewrite list_lookup_middle by done. cbn [mbind option_bind Z.eqb Pos.eqb].
  rewrite take_app_length. rewrite (cons_middle 10), app_assoc, drop_app_length' by (rewrite length_app; cbn; lia). done.
Qed.

Lemma use_binary_false msg : use_binary msg = false → no_newline msg.
Proof.
  unfold use_binary, no_newline. induction msg as [|c msg IH]; cbn; [constructor|].
  intros [H1 H2]%orb_false_iff. constructor; auto.
Qed.

Lemma prio_digits buf : ∃ d, dec (journald_priority_from_text buf) = [d] ∧ d ≠ 10 ∧ 48 <= d <= 57.
Proof.
  unfold journald_priority_from_text. repeat case_match; eexists; (split; [vm_compute; reflexivity|]); lia.
Qed.

Lemma message_len buf : clen (journald_message buf) <= JOURNALD_MAX_MESSAGE ∧ journald_message buf `prefix_of` buf.
Proof.
  unfold journald_message. split; [|eexists; symmetry; apply take_drop].
  rewrite clen_take. unfold JOURNALD_MAX_MESSAGE. zcases; lia.
Qed.

(** The size computed for the buffer is the size of the packet. *)
Lemma packet_total ident buf : clen (journald_packet ident buf) = journald_total ident buf.
Proof.
  unfold journald_packet, journald_total. destruct (use_binary (journald_message buf)); autorewrite with clen.
  - replace (clen (journald_store_le64 (clen (journald_message buf)))) with 8
      by (unfold clen at 1, journald_store_le64; by rewrite length_store_le).
    change (clen (B "SYSLOG_IDENTIFIER=")) with 18. change (clen (B "MESSAGE")) with 7. lia.
  - change (clen (B "SYSLOG_IDENTIFIER=")) with 18. change (clen (B "MESSAGE=")) with 8. lia.
Qed.

(** A chunk that fits is appended to what the buffer holds. *)
Lemma journald_put_app done_ rest src :
  clen src <= clen rest →
  journald_put (done_ ++ rest, clen done_) src =
  Some ((done_ ++ src) ++ drop (length src) rest, clen (done_ ++ src)).
Proof.
  intros H. unfold journald_put. rewrite !clen_app, (proj2 (Z.leb_le _ _)) by lia. do 2 f_equal.
  unfold clen in *. rewrite Nat2Z.id, take_app_length, <- app_assoc. do 2 f_equal.
  rewrite Z2Nat.inj_add, !Nat2Z.id, drop_app_ge by lia. f_equal. lia.
Qed.

(** Every chunk of the packet fits in a buffer of [journald_total] bytes. *)
Lemma journald_fill_ok packet ident buf :
  journald_total ident buf <= clen packet →
  ∃ rest, journald_fill packet ident buf = Some (journald_packet ident buf ++ rest, journald_total ident buf).
Proof.
  intros H. rewrite <- packet_total in H |- *. unfold journald_fill, journald_packet in *.
  set (msg := journald_message buf) in *. set (pl := prio_line buf) in *.
  change (packet, 0) with ([] ++ packet, clen (@nil Z)).
  destruct (use_binary msg); autorewrite with clen in H; change (clen [10]) with 1 in H;
    repeat (rewrite journald_put_app by (autorewrite with clen in *; rewrite ?length_app; unfold clen in *; cbn [length] in *; lia);
            cbn [mbind option_bind]);
    eexists; rewrite <- !app_assoc; reflexivity.
Qed.

(** A connected sink hands the packet to [send]. *)
Lemma journald_write_ok malloc_ok junk send d buf :
  0 <= jd_fd d → (malloc_ok = true ∨ journald_total (jd_ident d) buf <= 512) →
  journald_write malloc_ok junk send (Some d) (Some buf) =
  let packet := journald_packet (jd_ident d) buf in
  Some (Some packet, if send packet =? journald_total (jd_ident d) buf then i32 (clen buf) else -1).
Proof.
  intros Hfd Hmem. unfold journald_write. rewrite (proj2 (Z.ltb_ge _ _) Hfd).
  assert ((journald_total (jd_ident d) buf <=? 512) || malloc_ok = true) as ->.
  { apply orb_true_iff. rewrite Z.leb_le. tauto. }
  cbn [negb]. set (n := Z.to_nat _). destruct (journald_fill_ok (replicate n junk) (jd_ident d) buf) as [rest ->].
  { unfold n, clen. rewrite length_replicate. destruct (Z.leb_spec (journald_total (jd_ident d) buf) 512); lia. }
  cbn [mbind option_bind]. rewrite Z.eqb_refl. cbn [negb].
  rewrite take_app_le, take_ge by (rewrite <- packet_total; unfold clen; lia).
  by destruct (send _ =? _).
Qed.

(** What a reader of the protocol finds in the packet. *)
Lemma read_packet ident buf :
  no_newline ident →
  read_fields 3 (journald_packet ident buf) =
    Some [(B "PRIORITY", dec (journald_priority_from_text buf)); (B "SYSLOG_IDENTIFIER", ident);
          (B "MESSAGE", journald_message buf)].
Proof.
  intros Hid. destruct (message_len buf) as [Hmax _]. unfold JOURNALD_MAX_MESSAGE in Hmax.
  unfold journald_packet, prio_line. destruct (prio_digits buf) as (p & -> & Hp & _).
  set (msg := journald_message buf) in *.
  change (B "PRIORITY=") with (B "PRIORITY" ++ [61]). change (B "SYSLOG_IDENTIFIER=") with (B "SYSLOG_IDENTIFIER" ++ [61]).
  rewrite <- !app_assoc.
  assert (no_newline [p]) as Hp' by (repeat constructor; apply Z.eqb_neq; lia).
  assert (name_ok (B "PRIORITY") ∧ name_ok (B "SYSLOG_IDENTIFIER") ∧ name_ok (B "MESSAGE")) as (N1 & N2 & N3)
    by (split_and!; repeat constructor).
  set (tail3 := (if use_binary msg then _ else _) ++ [10]).
  assert (read_field tail3 = Some (B "MESSAGE", msg, [])) as H3.
  { unfold tail3. destruct (use_binary msg) eqn:Hb.
    - rewrite <- !app_assoc. exact (read_field_binary _ msg [] N3 ltac:(lia)).
    - change (B "MESSAGE=") with (B "MESSAGE" ++ [61]). rewrite <- !app_assoc.
      exact (read_field_text _ msg [] N3 (use_binary_false msg Hb)). }
  assert (read_fields 1 tail3 = Some [(B "MESSAGE", msg)]) as H3'.
  { cbn [read_fields]. rewrite H3. cbn [mbind option_bind]. destruct tail3 eqn:Et; [|done].
    apply (f_equal length) in Et. unfold tail3 in Et. rewrite length_app in Et. cbn in Et. lia. }
  pose proof (read_field_text _ ident tail3 N2 Hid) as H2.
  pose proof (read_field_text _ [p] (B "SYSLOG_IDENTIFIER" ++ [61] ++ ident ++ [10] ++ tail3) N1 Hp') as H1.
  cbn [read_fields]. rewrite H1. cbn [mbind option_bind]. rewrite H2. cbn [mbind option_bind].
  cbn [read_fields] in H3'. rewrite H3'. done.
Qed.

(** ** Descriptors and blocks are owned *)

(** The descriptors the sinks hold. *)
Definition sink_fds (l : list journald_sink_data_t) : list Z := filter (λ fd, 0 <= fd) (map jd_fd l).

(** The kernel hands out a descriptor that is not in use. *)
Definition socket_ok (o : jop) : Prop :=
  match o with
  | J_create _ _ _ socket _ | J_atfork _ socket _ => ∀ fds, socket fds < 0 ∨ socket fds ∉ fds
  | J_destroy _ => True
  end.

(** Apart from [base] and [live0] of the rest of the program, the open descriptors
    are those of the sinks, one each, and there are three blocks for each sink. *)
Record jinv (base : gset Z) (live0 : Z) (s : jsys) : Prop := {
  ji_nodup : NoDup (sink_fds (js_sinks s));
  ji_base : ∀ fd, fd ∈ sink_fds (js_sinks s) → fd ∉ base;
  ji_fds : js_fds s = base ∪ list_to_set (sink_fds (js_sinks s));
  ji_live : js_live s = live0 + 3 * clen (js_sinks s)
}.

Lemma sink_fds_app l1 l2 : sink_fds (l1 ++ l2) = sink_fds l1 ++ sink_fds l2.
Proof. unfold sink_fds. by rewrite (map_app jd_fd), filter_app. Qed.

Lemma sink_fds_one d : sink_fds [d] = if 0 <=? jd_fd d then [jd_fd d] else [].
Proof.
  unfold sink_fds. cbn. destruct (Z.leb_spec 0 (jd_fd d)); [by rewrite decide_True by lia|by rewrite decide_False by lia].
Qed.

(** What a connect does to a table: one new descriptor, or nothing. *)
Lemma journald_connect_spec socket ok fds :
  (socket fds < 0 ∨ socket fds ∉ fds) →
  let '(fds', fd) := journald_connect socket ok fds in
  (fd = -1 ∧ fds' = fds) ∨ (0 <= fd ∧ fd ∉ fds ∧ fds' = {[fd]} ∪ fds).
Proof.
  intros H. unfold journald_connect, fd_close. destruct (Z.ltb_spec (socket fds) 0); [by left|].
  destruct H as [H|H]; [lia|]. destruct ok; cbn [negb]; [by right|]. left. split; [done|]. set_solver.
Qed.

(** Closing the descriptor of one sink leaves those of the others. *)
Lemma close_fd_spec (base : gset Z) l1 d l2 :
  NoDup (sink_fds (l1 ++ d :: l2)) → (∀ fd, fd ∈ sink_fds (l1 ++ d :: l2) → fd ∉ base) →
  (journald_close_fd (base ∪ list_to_set (sink_fds (l1 ++ d :: l2))) d).1 = base ∪ list_to_set (sink_fds (l1 ++ l2)).
Proof.
  change (d :: l2) with ([d] ++ l2). rewrite !sink_fds_app, sink_fds_one. unfold journald_close_fd, fd_close.
  destruct (0 <=? jd_fd d); [|done]. cbn [app fst]. intros Hnd Hb.
  rewrite <- Permutation_middle, NoDup_cons in Hnd. destruct Hnd as [Hn _].
  specialize (Hb (jd_fd d)). rewrite !list_to_set_app_L, list_to_set_cons. set_solver.
Qed.

(** The descriptors left when one sink goes. *)
Lemma sink_fds_delete l1 d l2 : NoDup (sink_fds (l1 ++ d :: l2)) →
  NoDup (sink_fds (l1 ++ l2)) ∧ (∀ fd, fd ∈ sink_fds (l1 ++ l2) → fd ∈ sink_fds (l1 ++ d :: l2)).
Proof.
  change (d :: l2) with ([d] ++ l2). rewrite !sink_fds_app, sink_fds_one. destruct (0 <=? jd_fd d); [|done].
  cbn [app]. rewrite <- Permutation_middle, NoDup_cons. set_solver.
Qed.

Lemma jexec_inv base live0 s o : socket_ok o → jinv base live0 s → jinv base live0 (jexec s o).
Proof.
  intros Hso [Hnd Hb Hf Hl]. destruct o as [linux ident a socket ok|i|i socket ok]; cbn [jexec socket_ok] in *.
  - pose proof (journald_connect_spec socket ok (js_fds s) (Hso _)) as Hc. unfold journald_sink_create.
    destruct (journald_connect socket ok (js_fds s)) as [fds fd].
    destruct linux, (existsb _ _), a as [[] [] []]; cbn [negb ja_sink ja_data ja_dup option_list]; rewrite ?app_nil_r;
      try (split; cbn; [done..|lia]).
    destruct Hc as [[-> ->]|(Hge & Hnew & ->)]; cbn [Z.ltb Z.compare option_list];
      rewrite ?app_nil_r, ?(proj2 (Z.ltb_ge _ _) Hge).
    { split; cbn; [done..|lia]. }
    rewrite Hf, not_elem_of_union, elem_of_list_to_set in Hnew. destruct Hnew as [Hnb Hns]. change (option_list (Some ?x)) with [x].
    split; cbn [js_sinks js_fds js_live]; rewrite ?sink_fds_app, ?sink_fds_one; cbn [jd_fd];
      rewrite ?(proj2 (Z.leb_le 0 _) Hge).
    + apply NoDup_app. split; [done|]. split; [|apply NoDup_singleton]. intros x Hx ->%list_elem_of_singleton. done.
    + intros x [Hx| ->%list_elem_of_singleton]%elem_of_app; [by apply Hb|done].
    + rewrite Hf. set_solver.
    + rewrite Hl, clen_app. change (clen [_]) with 1. lia.
  - destruct s as [fds live l]. cbn [js_sinks js_fds js_live] in *. destruct (l !! i) as [d|] eqn:E; [|done].
    destruct (list_elem_of_split_length _ _ _ E) as (l1 & l2 & -> & ->). unfold journald_destroy.
    pose proof (close_fd_spec base l1 d l2 Hnd Hb) as Hc. rewrite <- Hf in Hc.
    destruct (journald_close_fd fds d) as [fds' d']. cbn [fst] in Hc.
    destruct (sink_fds_delete l1 d l2 Hnd) as [Hnd' Hsub]. rewrite delete_middle.
    split; cbn [js_sinks js_fds js_live]; [done|set_solver|done|].
    rewrite Hl, !clen_app, clen_cons. lia.
  - destruct s as [fds live l]. cbn [js_sinks js_fds js_live] in *. destruct (l !! i) as [d|] eqn:E; [|done].
    destruct (list_elem_of_split_length _ _ _ E) as (l1 & l2 & -> & ->). unfold journald_atfork_child.
    pose proof (close_fd_spec base l1 d l2 Hnd Hb) as Hc. rewrite <- Hf in Hc.
    destruct (journald_close_fd fds d) as [fds1 d1]. cbn [fst] in Hc.
    destruct (sink_fds_delete l1 d l2 Hnd) as [Hnd' Hsub].
    pose proof (journald_connect_spec socket ok fds1 (Hso _)) as Hn.
    destruct (journald_connect socket ok fds1) as [fds2 fd]. rewrite insert_app_r_alt, Nat.sub_diag by done. cbn [insert list_insert].
    split; cbn [js_sinks js_fds js_live]; [..|by rewrite Hl, !clen_app, !clen_cons];
      change (?x :: l2) with ([x] ++ l2); rewrite !sink_fds_app in *; rewrite sink_fds_one; cbn [jd_fd];
      destruct Hn as [[-> ->]|(Hge & Hnew & ->)]; try (by cbn); rewrite ?(proj2 (Z.leb_le 0 _) Hge); cbn [Z.leb Z.compare app]; try done.
    + rewrite <- Permutation_middle. apply NoDup_cons. split; [set_solver|done].
    + set_solver.
    + set_solver.
    + set_solver.
Qed.

(** ** Properties *)

(** The line ends the loop drops. *)
Definition line_end (c : Z) : bool := (c =? 10) || (c =? 13).

Lemma strip_len_app msg ends :
  Forall (λ c, line_end c = true) ends → (∀ c, last msg = Some c → line_end c = false) →
  ∀ fuel, (length (msg ++ ends) <= fuel)%nat → strip_len fuel (msg ++ ends) (length (msg ++ ends)) = length msg.
Proof.
  intros He Hl. induction ends as [|e ends IH] using rev_ind; intros fuel Hf.
  - rewrite app_nil_r in *. destruct msg as [|c msg _] using rev_ind; [by destruct fuel|].
    rewrite length_app in *. cbn in Hf |- *. replace (length msg + 1)%nat with (S (length msg)) by lia.
    destruct fuel as [|fuel]; [lia|]. cbn. rewrite list_lookup_middle by done.
    specialize (Hl c ltac:(by rewrite last_snoc)). unfold line_end in Hl. by rewrite Hl.
  - apply Forall_app in He as [He H1]. apply Forall_cons in H1 as [H1 _].
    rewrite app_assoc, (length_app (msg ++ ends)) in *. cbn in Hf |- *.
    replace (length (msg ++ ends) + 1)%nat with (S (length (msg ++ ends))) by lia.
    destruct fuel as [|fuel]; [lia|]. cbn. rewrite list_lookup_middle by done.
    unfold line_end in H1. rewrite H1. specialize (IH He).
    assert (∀ l f n, (n <= length l)%nat → strip_len f (l ++ [e]) n = strip_len f l n) as Hcut.
    { clear. intros l. induction f as [|f IHf]; intros n Hn; [done|]. destruct n as [|n]; [done|]. cbn.
      rewrite lookup_app_l by lia. destruct (l !! n); [|done]. destruct (_ || _); [apply IHf; lia|done]. }
    rewrite Hcut by lia. apply IH. lia.
Qed.

Lemma journald_message_line msg ends :
  Forall (λ c, line_end c = true) ends → (∀ c, last msg = Some c → line_end c = false) →
  clen msg <= JOURNALD_MAX_MESSAGE → journald_message (msg ++ ends) = msg.
Proof.
  intros He Hl Hm. unfold journald_message. rewrite strip_len_app by (done || lia). unfold clen in Hm.
  rewrite Z.gtb_ltb, (proj2 (Z.ltb_ge _ _) Hm), Nat2Z.id. apply take_app_length.
Qed.


(** Both system sinks compute the same priority from the text: a TRACE or DEBUG
    tag anywhere makes the line a debug message, and a line without any of the level
    tags is informational. *)
Theorem system_priority_table d buf :
  (syslog_write (Some d) (Some buf)).1 = [SC_syslog (journald_priority_from_text buf) buf] ∧
  (occurs (B "[TRACE]") buf ∨ occurs (B "[DEBUG]") buf → journald_priority_from_text buf = LOG_DEBUG) ∧
  ((∀ t, t ∈ ["[TRACE]"; "[DEBUG]"; "[WARN]"; "[WARNING]"; "[ERROR]"; "[FATAL]"] → ¬ occurs (B t) buf) →
   journald_priority_from_text buf = LOG_INFO).
Proof.
  assert (∀ t, occurs (B t) buf → has buf t = true) as Hyes.
  { intros t H. unfold has. destruct (strstr buf (B t)) eqn:E; [done|]. by apply strstr_None in E. }
  assert (∀ t, ¬ occurs (B t) buf → has buf t = false) as Hno.
  { intros t H. unfold has. destruct (strstr buf (B t)) eqn:E; [|done]. exfalso. apply H.
    assert (strstr buf (B t) ≠ None) as Hn by congruence. rewrite strstr_None in Hn.
    destruct (strstr_Some _ _ _ E) as [Hs _]. by eexists _, _. }
  split; [cbn; unfold journald_priority_from_text; repeat case_match; done|]. split.
  - unfold journald_priority_from_text. intros [H|H]; rewrite (Hyes _ H); [done|by rewrite orb_true_r].
  - intros H. unfold journald_priority_from_text. rewrite !Hno by (apply H; set_solver). done.
Qed.

(** ** Concrete datagrams *)

Definition test_journal : journald_sink_data_t := JournaldSinkData 3 (B "app").


Lemma system_priority_table_witness :
  (syslog_write (Some (SyslogSinkData (Some (B "app")) 8)) (Some (B "plain"))).1 = [SC_syslog 6 (B "plain")].
Proof. exact (proj1 (system_priority_table (SyslogSinkData (Some (B "app")) 8) (B "plain"))). Defined.

(** A tag inside the message decides, not the record's level. *)
Example priority_from_message : journald_priority_from_text (B "[ERROR] parse of [DEBUG] flag failed") = LOG_DEBUG.
Proof. vm_compute. reflexivity. Qed.

(** All line ends at the end of the line are dropped, not one. *)
Example journald_strips_all : journald_message (B "a" ++ [10; 13; 10]) = B "a".
Proof. reflexivity. Qed.

(** ** Resources *)

Lemma jrun_inv base live0 ops : ∀ s, Forall socket_ok ops → jinv base live0 s → jinv base live0 (jrun s ops).
Proof. induction ops as [|o ops IH]; intros s Hs Hi; [done|]. inv Hs. apply IH; [done|]. by apply jexec_inv. Qed.

(** The journald sinks own what they open. Whatever sinks are created (with failures
    of any allocation, of [socket] or of [connect]), destroyed, and reconnected in a
    forked child, in any order, the process's descriptors are the ones it had and one
    for each connected sink, no two alike, and the heap has three blocks for each
    sink: nothing leaks on an error path, and nothing is closed twice. *)
Theorem journald_resources base live0 ops :
  Forall socket_ok ops →
  let s := jrun (JSys base live0 []) ops in
  js_fds s = base ∪ list_to_set (sink_fds (js_sinks s)) ∧ NoDup (sink_fds (js_sinks s)) ∧
  (∀ fd, fd ∈ sink_fds (js_sinks s) → fd ∉ base) ∧ js_live s = live0 + 3 * clen (js_sinks s).
Proof.
  intros Hs s. assert (jinv base live0 s) as [H1 H2 H3 H4]; [|done].
  apply jrun_inv; [done|]. split; cbn [js_sinks js_fds js_live]; [apply NoDup_nil_2|set_solver|set_solver|change (clen (@nil journald_sink_data_t)) with 0; lia].
Qed.

(** The lowest free descriptor of the first few. *)
Definition lowest_fd (fds : gset Z) : Z :=
  if decide (3 ∈ fds) then if decide (4 ∈ fds) then -1 else 4 else 3.
Definition no_dup_alloc : jd_alloc := JdAlloc true true false.
Definition test_jops : list jop :=
  [J_create true (Some (B "a")) (JdAlloc true true true) lowest_fd true;
   J_create true None no_dup_alloc lowest_fd true;
   J_create true None (JdAlloc true true true) lowest_fd true;
   J_atfork 1 lowest_fd false; J_destroy 0].

Lemma lowest_fd_ok fds : lowest_fd fds < 0 ∨ lowest_fd fds ∉ fds.
Proof. unfold lowest_fd. repeat case_decide; [left; lia|by right..]. Qed.

Lemma journald_resources_witness :
  js_sinks (jrun (JSys {[0]} 0 []) test_jops) = [JournaldSinkData (-1) (B "clogx")] ∧
  js_live (jrun (JSys {[0]} 0 []) test_jops) = 3.
Proof.
  split; [vm_compute; reflexivity|].
  refine (eq_trans (proj2 (proj2 (proj2 (journald_resources {[0]} 0 test_jops _)))) _); [|vm_compute; reflexivity].
  repeat apply Forall_cons_2; try exact lowest_fd_ok; [exact I|apply Forall_nil_2].
Defined.

(** ** The system logger is one for the process *)

(** The identifier and facility of the last [openlog], and the messages with what
    they were tagged with. After [closelog] the defaults of the system apply. *)
Record syslogd := Syslogd { sd_tag : option (option cstr * Z); sd_seen : list (option (option cstr * Z) * Z * cstr) }.

Definition syslogd_call (s : syslogd) (c : syslog_call) : syslogd :=
  match c with
  | SC_openlog ident _ facility => Syslogd (Some (ident, facility)) (sd_seen s)
  | SC_closelog => Syslogd None (sd_seen s)
  | SC_syslog priority msg => Syslogd (sd_tag s) (sd_seen s ++ [(sd_tag s, priority, msg)])
  end.

(** The life of one sink: lines written, and forks whose child goes on with it. *)
Inductive syslog_op := SY_write (buf : cstr) | SY_atfork.
Definition syslog_op_calls (d : syslog_sink_data_t) (o : syslog_op) : list syslog_call :=
  match o with
  | SY_write buf => (syslog_write (Some d) (Some buf)).1
  | SY_atfork => syslog_atfork_child (Some d)
  end.

Definition syslog_lines (ops : list syslog_op) : list cstr :=
  omap (λ o, match o with SY_write buf => Some buf | SY_atfork => None end) ops.

(** A sink that is alone in its process has every line tagged with its identifier and
    facility, with the priority of the line, in order, also across a fork. *)
Theorem syslog_alone_tags ident facility ops d calls st :
  syslog_sink_create false ident facility true true = Some (d, calls) →
  let st' := foldl syslogd_call st (calls ++ concat (map (syslog_op_calls d) ops)) in
  sd_seen st' = sd_seen st ++
    map (λ m, (Some (Some (or_default ident (B "clogx")), facility), journald_priority_from_text m, m)) (syslog_lines ops).
Proof.
  cbn. intros ?; simplify_eq. cbn [app foldl syslogd_call]. cbv zeta.
  set (d := SyslogSinkData _ _). set (tag := Some (_, facility)).
  assert (∀ seen, sd_seen (foldl syslogd_call (Syslogd tag seen) (concat (map (syslog_op_calls d) ops))) =
    seen ++ map (λ m, (tag, journald_priority_from_text m, m)) (syslog_lines ops)) as H; [|apply H].
  induction ops as [|[buf|] ops IH]; intros seen.
  - cbn. by rewrite app_nil_r.
  - cbn [map concat]. rewrite foldl_app. cbn [syslog_op_calls]. rewrite (proj1 (system_priority_table d buf)).
    cbn [foldl syslogd_call sd_tag sd_seen]. rewrite IH. cbn. by rewrite <- app_assoc.
  - cbn [map concat syslog_op_calls syslog_atfork_child foldl app]. cbn. apply IH.
Qed.

Lemma syslog_alone_tags_witness :
  sd_seen (foldl syslogd_call (Syslogd None [])
    ([SC_openlog (Some (B "app")) 9 8; SC_syslog 6 (B "x"); SC_closelog; SC_openlog (Some (B "app")) 9 8; SC_syslog 3 (B "[ERROR]")])) =
  [(Some (Some (B "app"), 8), 6, B "x"); (Some (Some (B "app"), 8), 3, B "[ERROR]")].
Proof.
  exact (syslog_alone_tags (Some (B "app")) 8 [SY_write (B "x"); SY_atfork; SY_write (B "[ERROR]")]
    (SyslogSinkData (Some (B "app")) 8) [SC_openlog (Some (B "app")) 9 8] (Syslogd None []) eq_refl).
Defined.

(** Two syslog sinks share the process's one connection: the lines of the first are
    tagged with the identifier and facility of the second, and destroying either
    takes the tag from both. *)
Example two_syslog_sinks :
  let a := SyslogSinkData (Some (B "a")) 8 in
  let b := SyslogSinkData (Some (B "b")) 128 in
  let call s c := foldl syslogd_call s c in
  let s := call (Syslogd None []) [SC_openlog (Some (B "a")) 9 8; SC_openlog (Some (B "b")) 9 128] in
  let s := call s (syslog_write (Some a) (Some (B "from a"))).1 in
  let s := call s (syslog_destroy (Some b)) in
  let s := call s (syslog_write (Some a) (Some (B "more"))).1 in
  sd_seen s = [(Some (Some (B "b"), 128), 6, B "from a"); (None, 6, B "more")].
Proof. vm_compute. reflexivity. Qed.
