(* ===== verification/BuiltinSinks.v ===== *)
(** * The built-in sinks behind the dispatcher's interface

    The callback table of include/log_sink.h, filled by each sink: an instance of
    [Sink] for the sum of the built-in sinks, and what a dispatched line leaves in
    each kind of output.  What the C library and the system answer is [sink_env]. *)
From S2P Require Import Prelude Record Config FmtBuf FmtTime FmtJson FmtOtel FmtText Rotate FileSink Dispatcher.
From S2P Require Import SocketWriter SocketSink StreamSinks Journald.
From coqutil Require Import Datatypes.RecordSetters.

Local Open Scope Z_scope.

Lemma mjoin_concat {A} (l : list (list A)) : mjoin l = concat l.
Proof. induction l as [|x l IH]; [done|]. cbn. by rewrite <- IH. Qed.

Record sink_env := SinkEnv {
  v_fwrite : stream → cstr → Z; v_io : file_io;
  v_tls : bool; v_send : nat → Z → send_res; v_ssl_write : nat → Z → send_res; v_conn : conn_env; v_put : cstr → Z;
  v_malloc : bool; v_jsend : cstr → Z; v_jsocket : gset Z → Z; v_jconnect : bool
}.

Section builtin.
Context {U : Type} (v : sink_env).

(** A sink object's private data with the outputs it owns. *)
Inductive builtin :=
  | B_console (d : console_sink_data_t) (m : streams)
  | B_otlp (d : otlp_sink_data_t) (m : streams)
  | B_custom (d : custom_sink_data_t U) (u : U)
  | B_syslog (d : syslog_sink_data_t) (calls : list syslog_call)
  | B_journald (d : journald_sink_data_t) (sent : list cstr)
  | B_socket (d : socket_sink_data_t)
  | B_file (d : file_sink_data_t) (fs : filesys).

(** [sink->write (sink, buf, strlen (buf))]. *)
Definition builtin_write (k : builtin) (buf : cstr) : builtin :=
  match k with
  | B_console d m => B_console d (console_write (v_fwrite v) m (Some d) buf).1
  | B_otlp d m => B_otlp d (otlp_sink_write (v_fwrite v) m (Some d) (Some buf)).1
  | B_custom d u => B_custom d (custom_write (Some d) u buf).1
  | B_syslog d calls => B_syslog d (calls ++ (syslog_write (Some d) (Some buf)).1)
  | B_journald d sent =>
      B_journald d (sent ++ option_list (journald_write (v_malloc v) 0 (v_jsend v) (Some d) (Some buf) ≫= fst))
  | B_socket d =>
      match socket_write (v_tls v) (v_send v) (v_ssl_write v) (v_conn v) (v_put v) d buf with
      | Some (d', _) => B_socket d'
      | None => B_socket d
      end
  | B_file d fs => let '(fs', d', _) := file_write (v_io v) fs d buf in B_file d' fs'
  end.

(** [flush] has no effect on what was written; the custom sink runs its callback. *)
Definition builtin_flush (k : builtin) : builtin :=
  match k with B_custom d u => B_custom d (custom_flush (Some d) u) | k => k end.

(** The handler of a socket with a writer does not return (SocketSink.v). *)
Definition builtin_atfork_child (k : builtin) : builtin :=
  match k with
  | B_syslog d calls => B_syslog d (calls ++ syslog_atfork_child (Some d))
  | B_journald d sent => B_journald (journald_atfork_child (v_jsocket v) (v_jconnect v) {[jd_fd d]} d).2 sent
  | B_socket d => match socket_atfork_child (v_tls v) d with Some d' => B_socket d' | None => B_socket d end
  | B_file d fs => let '(fs', d') := file_atfork_child (v_io v) fs d in B_file d' fs'
  | k => k
  end.

#[export] Instance builtin_sink : Sink builtin := {
  sink_write := builtin_write; sink_flush := builtin_flush; sink_atfork_child := builtin_atfork_child
}.

(** ** What the writes leave behind *)

(** The line [line] and one newline, once: appended to the console's stream; passed in one
    call to the application's callback, to the system logger and as one packet to the
    journal; sent whole on a synchronous connection, put without its newline in the ring of
    an asynchronous one; at the end of the active file, or of backup 1 when that made the
    file reach its limit.  The OTLP sink, which ends the line a second time, is left out. *)
Definition received (k k' : builtin) (line : cstr) : Prop :=
  let text := line ++ [10] in
  match k, k' with
  | B_console d m, B_console d' m' =>
      d' = d ∧ ∀ s, cs_stream d = Some s → stream_text m' s = stream_text m s ++ text
  | B_otlp _ _, B_otlp _ _ => True
  | B_custom d u, B_custom d' u' => d' = d ∧ ∀ f, user_write d = Some f → u' = (f u text).1
  | B_syslog d l, B_syslog d' l' => d' = d ∧ l' = l ++ [SC_syslog (journald_priority_from_text text) text]
  | B_journald d l, B_journald d' l' => d' = d ∧ l' = l ++ [journald_packet (jd_ident d) text]
  | B_socket d, B_socket d' =>
      if ss_async_enabled d && ss_async d then ss_puts d' = ss_puts d ++ [line] ∧ ss_wire d' = ss_wire d
      else ss_puts d' = ss_puts d ∧ mjoin (ss_wire d') = mjoin (ss_wire d) ++ text
  | B_file d fs, B_file d' fs' =>
      let path := fd_path d in
      let all := file_text fs path ++ text in
      fd_path d' = path ∧
      if (0 <? fd_max_size d) && (fd_max_size d <=? clen all)
      then fs' !! path = Some [] ∧ fs' !! backup_path path 1 = Some all
      else fs' !! path = Some all
  | _, _ => False
  end.

(** The C library works. *)
Record env_good : Prop := {
  g_fwrite s b : v_fwrite v s b = clen b;
  g_io : file_io_good (v_io v);
  g_send : blocking_ok (v_send v);
  g_ssl : blocking_ok (v_ssl_write v);
  g_malloc : v_malloc v = true
}.

(** The sink is open and can take [n] bytes more; the peer of a synchronous socket is there
    and takes what it is sent. *)
Definition builtin_ok (k : builtin) (n : Z) : Prop :=
  match k with
  | B_journald d _ => 0 <= jd_fd d
  | B_socket d =>
      ss_ok (v_tls v) d ∧
      (ss_async_enabled d && ss_async d = false → net_up (v_conn v) d ∧ takes_some (v_send v) d ∧ takes_some (v_ssl_write v) d)
  | B_file d fs => file_sink_ok fs d ∧ clen (file_text fs (fd_path d)) + n < 2 ^ 64
  | _ => True
  end.

(** One write. *)
Lemma builtin_write_received k line :
  env_good → builtin_ok k (clen line + 1) → clen line + 1 < 2 ^ 31 →
  received k (builtin_write k (line ++ [10])) line.
Proof using.
  intros [Hfw Hio Hs1 Hs2 Hm] Hok Hb. assert (clen (line ++ [10]) = clen line + 1) as El by (rewrite clen_app; reflexivity).
  destruct k as [d m|d m|d u|d l|d l|d|d fs]; cbn [builtin_write received builtin_ok] in *.
  - split; [done|]. intros s Hs. destruct d as [str c]. cbn in Hs. subst str. by apply console_write_full.
  - done.
  - split; [done|]. intros f Hf. cbn. by rewrite Hf.
  - split; [done|]. cbn. f_equal.
  - split; [done|]. by rewrite journald_write_ok by (try done; left; by destruct line).
  - destruct Hok as [Hok Hnet]. destruct (ss_async_enabled d && ss_async d) eqn:Ha.
    + unfold socket_write. rewrite Ha, async_line_snoc. by destruct d.
    + destruct (Hnet eq_refl) as (He & Ht1 & Ht2).
      destruct (socket_write_works (v_tls v) (v_send v) (v_ssl_write v) (v_conn v) (v_put v) d (line ++ [10]) ltac:(lia) Hok Ha He Ht1 Ht2) as (d' & E).
      destruct (socket_write_spec (v_tls v) (v_send v) (v_ssl_write v) (v_conn v) (v_put v) d (line ++ [10]) Hs1 Hs2 ltac:(lia) Hok Ha)
        as (d2 & rc & n & E2 & _ & H3 & _ & H5 & H6).
      rewrite E in E2 |- *. injection E2 as <- <-. split; [done|]. rewrite H5. f_equal.
      destruct H6 as [(_ & -> & _)|[H6 _]]; [|pose proof (clen_nonneg (line ++ [10])); lia]. apply take_ge. unfold clen. lia.
  - destruct Hok as [Hok Hlen].
    pose proof (file_write_spec (v_io v) fs d (line ++ [10]) Hio Hok ltac:(lia) ltac:(lia)) as H.
    pose proof (file_write_exact (v_io v) fs d (line ++ [10]) Hio Hok ltac:(lia) ltac:(lia)) as H'. cbv zeta in H'.
    destruct (file_write (v_io v) fs d (line ++ [10])) as [[fs' d'] rc]. destruct H as (_ & _ & H3 & _). split; [done|].
    destruct (_ && _); naive_solver.
Qed.
End builtin.

Arguments builtin : clear implicits.

Lemma builtin_ok_mono {U} (v : sink_env) (k : builtin U) n n' : n' <= n → builtin_ok v k n → builtin_ok v k n'.
Proof. destruct k; cbn; try done. intros ? [? ?]. split; [done|lia]. Qed.

(** A text that leaves room for its newline is one write. *)
Lemma one_chunk {S} `{!Sink S} cfg lvl line (k : log_sink_t S) :
  line ≠ [] → last (text_for cfg lvl line k) ≠ Some 10 → clen (text_for cfg lvl line k) < CLOG_MAX_FORMATTED_SIZE - 1 →
  chunks_for line (colored_line (color cfg) lvl line) k = [text_for cfg lvl line k ++ [10]].
Proof.
  intros Hne Hl Hlen. destruct (chunks_for_spec cfg lvl line k Hne) as [Hc H1].
  specialize (H1 Hlen). destruct (chunks_for _ _ _) as [|c [|]]; try done. cbn [concat] in Hc. rewrite app_nil_r in Hc.
  rewrite Hc. unfold terminated. by rewrite bool_decide_false.
Qed.

(** ** Properties *)


(** ** Concrete dispatches *)

Definition test_env : sink_env :=
  SinkEnv (λ _ b, clen b) test_io false (λ _ n, Sent n) (λ _ n, Sent n) good_net (λ _, 0) true clen (λ _, 3) true.

Lemma test_env_good : env_good test_env.
Proof.
  constructor; try done; [apply test_io_good|..]; intros i n k Hn [= <-]; lia.
Qed.

(** A console, a file, a journal for errors only and an asynchronous socket. *)
Definition test_sinks : @dispatcher (builtin unit) :=
  Dispatcher {[0%nat := LogSink 0 false false (B_console (ConsoleSinkData (Some STDOUT) false) ∅);
               1%nat := LogSink 0 false true (B_file test_sink test_fs);
               2%nat := LogSink 4 false true (B_journald test_journal []);
               3%nat := LogSink 0 false true (B_socket test_async)]}
             4 [Some 0%nat; Some 1%nat; Some 2%nat; Some 3%nat].

Lemma test_sinks_ok p k : d_store test_sinks !! p = Some k → builtin_ok test_env (sk_state k) CLOG_MAX_FORMATTED_SIZE.
Proof.
  cbn [test_sinks d_store]. rewrite !lookup_insert_Some.
  intros [[_ <-]|[_ [[_ <-]|[_ [[_ <-]|[_ H]]]]]]; cbn [sk_state builtin_ok].
  - done.
  - split; [apply test_sink_ok|]. vm_compute. reflexivity.
  - done.
  - apply lookup_singleton_Some in H as [_ <-]. cbn. split; [by constructor|done].
Qed.


(** The dispatcher ends each line and the OTLP sink ends it again. *)
Example otlp_blank_lines :
  match builtin_write (U := unit) test_env (B_otlp (OtlpSinkData [] [] (Some STDOUT)) ∅) (terminated (B "{}")) with
  | B_otlp _ m => stream_text m STDOUT
  | _ => []
  end = B "{}" ++ [10; 10].
Proof. vm_compute. reflexivity. Qed.

(** A line that leaves no room for its newline is two journal entries, the second empty. *)
Example long_line_two_entries :
  match foldl (builtin_write (U := unit) test_env) (B_journald test_journal []) (line_chunks false (replicate (Z.to_nat 8191) 120)) with
  | B_journald _ l => map (λ p, snd <$> (read_fields 3 p ≫= last)) l
  | _ => []
  end = [Some (replicate (Z.to_nat 8191) 120); Some []].
Proof. vm_compute. reflexivity. Qed.
