(* ===== verification/IncludeCheck.v ===== *)
(** * The unused-include check (clang-tidy/clogx-unused-includes)

    The check records the include directives of a translation unit and which file uses
    something another file declares, and reports at the end every directive whose
    header, with all it includes, provides nothing to the including file. What clang
    knows is data of the model: locations with their files, declarations, statements,
    types and macro definitions; a file is the identity of its [FileEntry]. *)
From S2P Require Import Prelude.

Local Open Scope nat_scope.

(** ** Data *)

(** A source location: whether it is valid, the file it is in (none for a location
    without a file entry) and whether that is a system header. *)
Record SourceLocation := Loc { isValid : bool; fileOf : option nat; isInSystemHeader : bool }.

Record IncludeInfo := Include {
  File : option nat;
  Includer : option nat;
  IncLoc : SourceLocation;
  IsSystemHeader : bool;
  FileName : cstr
}.

#[export] Instance loc_eq_dec : EqDecision SourceLocation.
Proof. solve_decision. Defined.
#[export] Instance include_eq_dec : EqDecision IncludeInfo.
Proof. solve_decision. Defined.

(** A declaration is its location. *)
Abbreviation Decl := SourceLocation (only parsing).

(** Statements: a call with its direct callee, a reference, a member access, or any
    other statement; each with its beginning and its children. *)
Inductive stmt_kind :=
  | CallExpr (callee : option Decl)
  | DeclRefExpr (d : option Decl)
  | MemberExpr (d : option Decl)
  | OtherStmt.
Inductive Stmt := Node (k : stmt_kind) (begin : SourceLocation) (children : list Stmt).

(** Types as [collectUsedTypes] sees them. *)
Inductive QualType :=
  | NullType
  | TypedefType (d : option Decl)
  | TagType (d : Decl)
  | PointerType (t : QualType)
  | ArrayType (t : QualType)
  | ReferenceType (t : QualType)
  | OtherType.

(** A macro of the preprocessor's table: its name, where its latest definition is,
    whether it is still defined at the end, and the tokens of its body: identifiers,
    or [None]. *)
Record MacroDef := Macro { m_name : nat; m_def : option SourceLocation; m_live : bool; m_tokens : list (option nat) }.

(** A top-level declaration: whether it names a type, its identifier, its location. *)
Record TopDecl := TopD { td_type : bool; td_ident : option nat; td_loc : SourceLocation }.

(** The check: its options and what it has recorded. *)
Record check := Check_ {
  IgnoreSystemHeaders : bool;
  IgnoreMacros : bool;
  IncludedFiles : list IncludeInfo;
  UsedFilesByFile : gmap nat (gset nat);
  has_AST : bool
}.

Definition with_used (c : check) (u : gmap nat (gset nat)) : check :=
  Check_ (IgnoreSystemHeaders c) (IgnoreMacros c) (IncludedFiles c) u (has_AST c).

(** ** Recording *)

(** [IncludeTrackingCallbacks::InclusionDirective]; [loc] is the spelling location of
    the directive. *)
Definition InclusionDirective (c : check) (loc : SourceLocation) (name : cstr) (file : option nat) (system : bool) : check :=
  match file with
  | None => c
  | Some f =>
      Check_ (IgnoreSystemHeaders c) (IgnoreMacros c)
        (IncludedFiles c ++ [Include (Some f) (fileOf loc) loc system name]) (UsedFilesByFile c) (has_AST c)
  end.

(** [UsedFilesByFile[UseFile].insert(DefFile)] when both exist and differ. *)
Definition insert_use (u : gmap nat (gset nat)) (use def : option nat) : gmap nat (gset nat) :=
  match use, def with
  | Some a, Some b => if bool_decide (a = b) then u else <[a := {[b]} ∪ default ∅ (u !! a)]> u
  | _, _ => u
  end.

Definition noteMacroUsed (c : check) (useLoc defLoc : SourceLocation) : check :=
  if IgnoreMacros c then c
  else if negb (isValid useLoc) || negb (isValid defLoc) then c
  else with_used c (insert_use (UsedFilesByFile c) (fileOf useLoc) (fileOf defLoc)).

(** The callbacks for an expansion and for the conditional directives; [md] is the
    definition of the macro. *)
Definition noteMacroUse (c : check) (useLoc : SourceLocation) (md : option SourceLocation) : check :=
  if isInSystemHeader useLoc then c
  else match md with Some def => noteMacroUsed c useLoc def | None => c end.

Definition noteSymbolUsed (c : check) (useLoc : SourceLocation) (d : option Decl) : check :=
  match d with
  | None => c
  | Some d =>
      if negb (isValid useLoc) || negb (isValid d) then c
      else with_used c (insert_use (UsedFilesByFile c) (fileOf useLoc) (fileOf d))
  end.

Fixpoint collectUsedSymbols (c : check) (s : Stmt) : check :=
  match s with
  | Node k begin children =>
      let c := match k with
               | CallExpr d | DeclRefExpr d | MemberExpr d => noteSymbolUsed c begin d
               | OtherStmt => c
               end in
      (fix go (c : check) (l : list Stmt) : check :=
         match l with [] => c | s :: l' => go (collectUsedSymbols c s) l' end) c children
  end.

(** The walk through the wrappers of a type, at most [depth] of them. *)
Fixpoint walkType (depth : nat) (c : check) (begin : SourceLocation) (t : QualType) : check :=
  match depth with
  | O => c
  | S depth' =>
      match t with
      | TypedefType d => noteSymbolUsed c begin d
      | TagType d => noteSymbolUsed c begin (Some d)
      | PointerType t | ArrayType t | ReferenceType t => walkType depth' c begin t
      | NullType | OtherType => c
      end
  end.

Definition collectUsedTypes (c : check) (begin : SourceLocation) (t : QualType) : check :=
  match t with NullType => c | _ => walkType 8 c begin t end.

(** ** Macro bodies *)

(** The map from type names to the files that declare them; later declarations win. *)
Definition typeFiles (decls : list TopDecl) : gmap nat nat :=
  foldl (λ m d,
    match td_type d, td_ident d, fileOf (td_loc d) with
    | true, Some i, Some f => <[i := f]> m
    | _, _, _ => m
    end) ∅ decls.

(** [PP.getMacroInfo]: none for a macro that was undefined again. *)
Definition getMacroInfo (macros : list MacroDef) (i : nat) : option SourceLocation :=
  m ← list_find (λ m, m_name m = i) macros; if m_live m.2 then m_def m.2 else None.

(** The file that provides an identifier of a macro body. *)
Definition providedBy (macros : list MacroDef) (types : gmap nat nat) (i : nat) : option nat :=
  match getMacroInfo macros i with
  | Some def => if isValid def then fileOf def else None
  | None => types !! i
  end.

(** One macro: the identifiers of its body are uses by the file that defines it. *)
Definition macroBody (macros : list MacroDef) (types : gmap nat nat) (c : check) (m : MacroDef) : check :=
  match m_def m with
  | None => c
  | Some def =>
      if negb (isValid def) then c
      else match fileOf def with
           | None => c
           | Some f =>
               foldl (λ c tok,
                 match tok with
                 | None => c
                 | Some i => with_used c (insert_use (UsedFilesByFile c) (Some f) (providedBy macros types i))
                 end) c (m_tokens m)
           end
  end.

Definition analyzeMacroBodies (c : check) (decls : list TopDecl) (macros : list MacroDef) : check :=
  foldl (macroBody macros (typeFiles decls)) c macros.

(** ** The end of the translation unit *)

(** [IncludeGraph[Include.Includer].push_back(Include.File)]. *)
Definition add_edge (g : gmap nat (list nat)) (i : IncludeInfo) : gmap nat (list nat) :=
  match Includer i, File i with
  | Some a, Some b => if bool_decide (a = b) then g else <[a := default [] (g !! a) ++ [b]]> g
  | _, _ => g
  end.
Definition IncludeGraph (l : list IncludeInfo) : gmap nat (list nat) := foldl add_edge ∅ l.

(** The worklist loop; the worklist is a stack, its top first. [None] if the fuel does
    not suffice. *)
Fixpoint closure_loop (fuel : nat) (g : gmap nat (list nat)) (work : list nat) (closure : gset nat) : option (gset nat) :=
  match work with
  | [] => Some closure
  | f :: work' =>
      match fuel with
      | O => None
      | S fuel' =>
          if bool_decide (f ∈ closure) then closure_loop fuel' g work' closure
          else closure_loop fuel' g (reverse (default [] (g !! f)) ++ work') ({[f]} ∪ closure)
      end
  end.

(** One directive: [Some true] if it is reported. *)
Definition reported (fuel : nat) (c : check) (g : gmap nat (list nat)) (i : IncludeInfo) : option bool :=
  if IgnoreSystemHeaders c && IsSystemHeader i then Some false
  else match Includer i, File i with
       | Some a, Some b =>
           closure ← closure_loop fuel g [b] ∅;
           Some (match UsedFilesByFile c !! a with
                 | Some used => negb (existsb (λ f, bool_decide (f ∈ used)) (elements closure))
                 | None => true
                 end)
       | _, _ => Some true
       end.

(** The diagnostics, in the order of the directives. *)
Fixpoint report (fuel : nat) (c : check) (g : gmap nat (list nat)) (l : list IncludeInfo) : option (list (SourceLocation * cstr)) :=
  match l with
  | [] => Some []
  | i :: l' =>
      b ← reported fuel c g i; ds ← report fuel c g l';
      Some (if b : bool then (IncLoc i, FileName i) :: ds else ds)
  end.

Definition onEndOfTranslationUnit (fuel : nat) (c : check) (decls : list TopDecl) (macros : list MacroDef)
    : option (list (SourceLocation * cstr)) :=
  let c := if has_AST c then analyzeMacroBodies c decls macros else c in
  report fuel c (IncludeGraph (IncludedFiles c)) (IncludedFiles c).

(** ** The whole run *)

(** What clang calls the check with: the callbacks of the preprocessor, then matches
    of expressions, statements and type locations. *)
Inductive event :=
  | EvInclude (loc : SourceLocation) (name : cstr) (file : option nat) (system : bool)
  | EvMacro (useLoc : SourceLocation) (md : option SourceLocation)
  | EvStmt (s : Stmt)
  | EvType (begin : SourceLocation) (t : QualType).

(** [check] captures the AST at its first match. *)
Definition matched (c : check) : check :=
  Check_ (IgnoreSystemHeaders c) (IgnoreMacros c) (IncludedFiles c) (UsedFilesByFile c) true.

Definition visit (c : check) (e : event) : check :=
  match e with
  | EvInclude loc name file system => InclusionDirective c loc name file system
  | EvMacro useLoc md => noteMacroUse c useLoc md
  | EvStmt s => collectUsedSymbols (matched c) s
  | EvType begin t => collectUsedTypes (matched c) begin t
  end.

Definition run_check (fuel : nat) (sys macros_off : bool) (events : list event) (decls : list TopDecl)
    (macros : list MacroDef) : option (list (SourceLocation * cstr)) :=
  onEndOfTranslationUnit fuel (foldl visit (Check_ sys macros_off [] ∅ false) events) decls macros.

(** ** Reachability by the worklist *)

(** The include edges, with their multiplicity. *)
Definition edge_of (i : IncludeInfo) : list (nat * nat) :=
  match Includer i, File i with
  | Some a, Some b => if bool_decide (a = b) then [] else [(a, b)]
  | _, _ => []
  end.
Definition edges (l : list IncludeInfo) : list (nat * nat) := mbind edge_of l.

Definition includes (l : list IncludeInfo) (a b : nat) : Prop := (a, b) ∈ edges l.

Lemma graph_children l f :
  default [] (IncludeGraph l !! f) = (filter (λ e, e.1 = f) (edges l)).*2.
Proof.
  unfold IncludeGraph. induction l as [|i l IH] using rev_ind; [done|].
  rewrite foldl_snoc. unfold edges in *. rewrite bind_app, filter_app, fmap_app, <- IH. cbn [mbind list_bind]. rewrite app_nil_r.
  unfold add_edge, edge_of. destruct (Includer i) as [a|], (File i) as [b|]; rewrite ?app_nil_r; try done.
  case_bool_decide; [by rewrite app_nil_r|]. destruct (decide (a = f)) as [->|Hne].
  - rewrite lookup_insert_eq. by rewrite filter_cons_True.
  - rewrite lookup_insert_ne by done. rewrite filter_cons_False by done. by rewrite app_nil_r.
Qed.

Section closure.
Context (l : list IncludeInfo).
Implicit Types (C : gset nat) (W : list nat).

(** What the loop has still to do: the worklist, and the edges out of files it has not
    visited. *)
Definition todo C W : nat := length W + length (filter (λ e, e.1 ∉ C) (edges l)).

Lemma todo_visit C W f :
  f ∉ C → todo ({[f]} ∪ C) (reverse (default [] (IncludeGraph l !! f)) ++ W) = todo C W.
Proof.
  intros Hf. unfold todo. rewrite graph_children, length_app, length_reverse, length_fmap.
  assert (length (filter (λ e, e.1 ∉ C) (edges l)) =
    length (filter (λ e, e.1 = f) (edges l)) + length (filter (λ e, e.1 ∉ ({[f]} ∪ C)) (edges l))) as ->; [|lia].
  induction (edges l) as [|e es IH]; [done|]. rewrite !filter_cons. repeat case_decide; cbn; try set_solver; lia.
Qed.

(** What the loop maintains, from the file [root]. *)
Record reach_inv (root : nat) C W : Prop := {
  ri_sound f : f ∈ C ∨ f ∈ W → rtc (includes l) root f;
  ri_root : root ∈ C ∨ root ∈ W;
  ri_closed f b : f ∈ C → includes l f b → b ∈ C ∨ b ∈ W
}.

Lemma children_includes f b : b ∈ default [] (IncludeGraph l !! f) ↔ includes l f b.
Proof.
  rewrite graph_children, list_elem_of_fmap. unfold includes. split.
  - intros ([a b'] & -> & H). apply list_elem_of_filter in H as [E H]. cbn in *. by subst.
  - intros H. exists (f, b). split; [done|]. by apply list_elem_of_filter.
Qed.

Lemma reach_inv_visit root C f W :
  f ∉ C → reach_inv root C (f :: W) → reach_inv root ({[f]} ∪ C) (reverse (default [] (IncludeGraph l !! f)) ++ W).
Proof.
  intros Hf [Hs Hr Hc]. assert (∀ x, x ∈ reverse (default [] (IncludeGraph l !! f)) ++ W ↔ includes l f x ∨ x ∈ W) as HW.
  { intros x. by rewrite elem_of_app, elem_of_reverse, children_includes. }
  constructor.
  - intros x. rewrite HW. intros [Hx|[Hx|Hx]].
    + destruct (decide (x = f)) as [->|]; [apply Hs; set_solver|]. apply Hs. set_solver.
    + eapply rtc_r; [|done]. apply Hs. set_solver.
    + apply Hs. set_solver.
  - rewrite HW. set_solver.
  - intros x b Hx Hb. rewrite HW. destruct (decide (x = f)) as [->|]; [auto|].
    destruct (Hc x b) as [?|?]; [set_solver|done|set_solver|set_solver].
Qed.

Lemma reach_inv_skip root C f W : f ∈ C → reach_inv root C (f :: W) → reach_inv root C W.
Proof.
  intros Hf [Hs Hr Hc]. constructor; [set_solver|set_solver|].
  intros x b Hx Hb. destruct (Hc x b Hx Hb); set_solver.
Qed.

Lemma reach_done root C : reach_inv root C [] → ∀ f, f ∈ C ↔ rtc (includes l) root f.
Proof.
  intros [Hs Hr Hc] f. split; [auto|]. revert f. apply (rtc_ind_r (λ z, z ∈ C) root).
  - destruct Hr as [?|Hx%elem_of_nil]; done.
  - intros y z _ Hyz Hy. destruct (Hc y z Hy Hyz) as [?|Hx%elem_of_nil]; done.
Qed.

(** With at least [todo] turns the loop ends, with exactly the files reachable. *)
Lemma closure_loop_spec fuel root C W :
  todo C W ≤ fuel → reach_inv root C W →
  ∃ R, closure_loop fuel (IncludeGraph l) W C = Some R ∧ ∀ f, f ∈ R ↔ rtc (includes l) root f.
Proof.
  revert C W. induction fuel as [|fuel IH]; intros C W Hf Hinv; destruct W as [|f W]; cbn [closure_loop].
  1, 3: exists C; split; [done|by apply reach_done].
  - unfold todo in Hf. cbn in Hf. lia.
  - case_bool_decide as Hin.
    + apply IH; [unfold todo in *; cbn in *; lia|]. by eapply reach_inv_skip.
    + apply IH; [rewrite todo_visit by done; unfold todo in *; cbn in *; lia|]. by apply reach_inv_visit.
Qed.

End closure.

(** ** What is recorded *)

(** The files recorded as used by file [a]. *)
Definition used (c : check) (a : nat) : gset nat := default ∅ (UsedFilesByFile c !! a).

(** The pair (user, provider) of one use, if it counts. *)
Definition pairs (use def : option nat) : list (nat * nat) :=
  match use, def with
  | Some a, Some b => if bool_decide (a = b) then [] else [(a, b)]
  | _, _ => []
  end.
Definition loc_pairs (use def : SourceLocation) : list (nat * nat) :=
  if isValid use && isValid def then pairs (fileOf use) (fileOf def) else [].

Definition symbol_uses (use : SourceLocation) (d : option Decl) : list (nat * nat) :=
  match d with Some d => loc_pairs use d | None => [] end.

(** The uses of a statement and everything below it. *)
Fixpoint stmt_uses (s : Stmt) : list (nat * nat) :=
  match s with
  | Node k begin children =>
      match k with CallExpr d | DeclRefExpr d | MemberExpr d => symbol_uses begin d | OtherStmt => [] end ++
      mjoin (stmt_uses <$> children)
  end.

(** The declaration under at most [n] wrappers. *)
Fixpoint named_type (n : nat) (t : QualType) : option Decl :=
  match n, t with
  | S _, TypedefType d => d
  | S _, TagType d => Some d
  | S n', PointerType t | S n', ArrayType t | S n', ReferenceType t => named_type n' t
  | _, _ => None
  end.

Definition event_uses (macros_off : bool) (e : event) : list (nat * nat) :=
  match e with
  | EvInclude _ _ _ _ => []
  | EvMacro use (Some def) => if macros_off || isInSystemHeader use then [] else loc_pairs use def
  | EvMacro _ None => []
  | EvStmt s => stmt_uses s
  | EvType begin t => symbol_uses begin (named_type 8 t)
  end.

(** The uses inside macro bodies, charged to the file that defines the macro. *)
Definition token_uses (macros : list MacroDef) (types : gmap nat nat) (f : nat) (tok : option nat) : list (nat * nat) :=
  match tok with Some i => pairs (Some f) (providedBy macros types i) | None => [] end.
Definition body_uses (macros : list MacroDef) (types : gmap nat nat) (m : MacroDef) : list (nat * nat) :=
  match m_def m with
  | Some def =>
      if isValid def then
        match fileOf def with Some f => mbind (token_uses macros types f) (m_tokens m) | None => [] end
      else []
  | None => []
  end.

(** From [c] to [c'] the uses of [l] were recorded and nothing else changed. *)
Definition records (c c' : check) (l : list (nat * nat)) : Prop :=
  IgnoreSystemHeaders c' = IgnoreSystemHeaders c ∧ IgnoreMacros c' = IgnoreMacros c ∧
  IncludedFiles c' = IncludedFiles c ∧ has_AST c' = has_AST c ∧
  ∀ a b, b ∈ used c' a ↔ b ∈ used c a ∨ (a, b) ∈ l.

Lemma records_nil c : records c c [].
Proof. split_and!; try done. intros a b. rewrite elem_of_nil. tauto. Qed.
Lemma records_app c c1 c2 l1 l2 : records c c1 l1 → records c1 c2 l2 → records c c2 (l1 ++ l2).
Proof.
  intros (E1 & E2 & E3 & E4 & H) (E1' & E2' & E3' & E4' & H'). split_and!; try congruence.
  intros a b. rewrite H', H, elem_of_app. tauto.
Qed.

Lemma records_use c x y : records c (with_used c (insert_use (UsedFilesByFile c) x y)) (pairs x y).
Proof.
  split_and!; try done. intros a b. unfold insert_use, pairs, used. cbn.
  destruct x as [x|], y as [y|]; try (rewrite elem_of_nil; tauto).
  case_bool_decide; [rewrite elem_of_nil; tauto|]. rewrite list_elem_of_singleton.
  destruct (decide (a = x)) as [->|Hne].
  - rewrite lookup_insert_eq. cbn. rewrite elem_of_union, elem_of_singleton. naive_solver.
  - rewrite lookup_insert_ne by done. naive_solver.
Qed.

Lemma records_symbol c use d : records c (noteSymbolUsed c use d) (symbol_uses use d).
Proof.
  unfold noteSymbolUsed, symbol_uses, loc_pairs. destruct d as [d|]; [|apply records_nil].
  destruct (isValid use), (isValid d); cbn; (apply records_nil || apply records_use).
Qed.

Lemma records_macro c use md :
  records c (noteMacroUse c use md) (event_uses (IgnoreMacros c) (EvMacro use md)).
Proof.
  unfold noteMacroUse, noteMacroUsed, event_uses, loc_pairs. destruct md as [def|]; [|case_match; apply records_nil].
  destruct (isInSystemHeader use), (IgnoreMacros c); cbn; try apply records_nil.
  destruct (isValid use), (isValid def); cbn; (apply records_nil || apply records_use).
Qed.

Lemma records_fold {X} (f : check → X → check) (g : X → list (nat * nat)) xs c :
  (∀ c x, records c (f c x) (g x)) → records c (foldl f c xs) (mbind g xs).
Proof.
  intros H. revert c. induction xs as [|x xs IH]; intros c; [apply records_nil|].
  cbn. eapply records_app; [apply H|apply IH].
Qed.

(** Induction on statements, with the children. *)
Lemma Stmt_ind' (P : Stmt → Prop) :
  (∀ k b l, Forall P l → P (Node k b l)) → ∀ s, P s.
Proof.
  intros H. fix IH 1. intros [k b l]. apply H. induction l as [|s l IHl]; constructor; [apply IH|apply IHl].
Qed.

Lemma records_stmt s : ∀ c, records c (collectUsedSymbols c s) (stmt_uses s).
Proof.
  induction s as [k b l IH] using Stmt_ind'. intros c. cbn [collectUsedSymbols stmt_uses].
  set (c1 := match k with OtherStmt => c | _ => _ end).
  eapply (records_app _ c1).
  - unfold c1. destruct k; (apply records_symbol || apply records_nil).
  - clearbody c1. clear c. revert c1. induction IH as [|s l Hs IH IHl]; intros c; [apply records_nil|].
    cbn. eapply records_app; [apply Hs|apply IHl].
Qed.

Lemma records_walk n : ∀ c begin t, records c (walkType n c begin t) (symbol_uses begin (named_type n t)).
Proof.
  induction n as [|n IH]; intros c begin t; [apply records_nil|].
  destruct t; cbn [walkType named_type]; try apply records_symbol; try apply records_nil; apply IH.
Qed.

Lemma records_body macros types c m : records c (macroBody macros types c m) (body_uses macros types m).
Proof.
  unfold macroBody, body_uses. destruct (m_def m) as [def|]; [|apply records_nil].
  destruct (isValid def); cbn [negb]; [|apply records_nil]. destruct (fileOf def) as [f|]; [|apply records_nil].
  apply records_fold. intros c' [i|]; [apply (records_use c' (Some f))|apply records_nil].
Qed.

(** The directives and the capture of the AST, beside the uses. *)
Definition event_includes (e : event) : list IncludeInfo :=
  match e with EvInclude loc name (Some f) sys => [Include (Some f) (fileOf loc) loc sys name] | _ => [] end.
Definition matches (e : event) : bool := match e with EvStmt _ | EvType _ _ => true | _ => false end.

Lemma visit_spec c e :
  IgnoreSystemHeaders (visit c e) = IgnoreSystemHeaders c ∧ IgnoreMacros (visit c e) = IgnoreMacros c ∧
  IncludedFiles (visit c e) = IncludedFiles c ++ event_includes e ∧
  has_AST (visit c e) = has_AST c || matches e ∧
  ∀ a b, b ∈ used (visit c e) a ↔ b ∈ used c a ∨ (a, b) ∈ event_uses (IgnoreMacros c) e.
Proof.
  destruct e as [loc name [f|] sys|use md|s|begin t]; cbn [visit event_includes matches].
  - split_and!; try done; [by rewrite orb_false_r|]. intros a b. cbn [event_uses]. rewrite elem_of_nil. unfold used. cbn. tauto.
  - split_and!; rewrite ?app_nil_r, ?orb_false_r; try done. intros a b. cbn [event_uses]. rewrite elem_of_nil. tauto.
  - rewrite app_nil_r, orb_false_r. apply records_macro.
  - rewrite app_nil_r, orb_true_r. exact (records_stmt s (matched c)).
  - rewrite app_nil_r, orb_true_r.
    assert (records (matched c) (collectUsedTypes (matched c) begin t) (event_uses (IgnoreMacros c) (EvType begin t))) as H;
      [|exact H]. unfold collectUsedTypes. cbn [event_uses].
    destruct t; try apply (records_walk 8). apply records_nil.
Qed.

(** ** Properties *)

(** The directives of a run, and every use in it. *)
Definition run_includes (events : list event) : list IncludeInfo := mbind event_includes events.
Definition run_uses (macros_off : bool) (events : list event) (decls : list TopDecl) (macros : list MacroDef) : list (nat * nat) :=
  mbind (event_uses macros_off) events ++
  (if existsb matches events then mbind (body_uses macros (typeFiles decls)) macros else []).

Lemma visits_spec c events :
  let c' := foldl visit c events in
  IgnoreSystemHeaders c' = IgnoreSystemHeaders c ∧ IgnoreMacros c' = IgnoreMacros c ∧
  IncludedFiles c' = IncludedFiles c ++ run_includes events ∧
  has_AST c' = has_AST c || existsb matches events ∧
  ∀ a b, b ∈ used c' a ↔ b ∈ used c a ∨ (a, b) ∈ mbind (event_uses (IgnoreMacros c)) events.
Proof.
  unfold run_includes. revert c. induction events as [|e events IH]; intros c; cbn [foldl existsb].
  - rewrite app_nil_r, orb_false_r. split_and!; try done. intros a b. cbn. rewrite elem_of_nil. tauto.
  - destruct (IH (visit c e)) as (E1 & E2 & E3 & E4 & H). destruct (visit_spec c e) as (F1 & F2 & F3 & F4 & H').
    rewrite E1, E2, E3, E4, F1, F2, F3, F4. cbn. rewrite <- app_assoc, <- orb_assoc. split_and!; try done.
    intros a b. rewrite H, H', F2, elem_of_app. tauto.
Qed.

(** Whether the header of a directive, with all it includes, provides something the
    including file uses. *)
Definition provides (l : list IncludeInfo) (uses : list (nat * nat)) (i : IncludeInfo) : Prop :=
  ∃ a b f, Includer i = Some a ∧ File i = Some b ∧ rtc (includes l) b f ∧ (a, f) ∈ uses.

Lemma reported_spec fuel c l uses i :
  S (length (edges l)) ≤ fuel → (∀ a b, b ∈ used c a ↔ (a, b) ∈ uses) →
  ∃ r, reported fuel c (IncludeGraph l) i = Some r ∧
    (r = true ↔ ¬ (IgnoreSystemHeaders c = true ∧ IsSystemHeader i = true) ∧ ¬ provides l uses i).
Proof.
  intros Hf Hu. unfold reported.
  destruct (IgnoreSystemHeaders c && IsSystemHeader i) eqn:Es.
  { apply andb_true_iff in Es. exists false. split; [done|]. split; [done|tauto]. }
  assert (¬ (IgnoreSystemHeaders c = true ∧ IsSystemHeader i = true)) as Hs by (rewrite <- andb_true_iff; congruence).
  unfold provides. destruct (Includer i) as [a|], (File i) as [b|];
    try (exists true; split; [done|split; [intros _; split; [done|naive_solver]|done]]).
  destruct (closure_loop_spec l fuel b ∅ [b]) as (R & E & HR).
  { unfold todo. cbn [length]. etransitivity; [|exact Hf]. apply le_n_S, length_filter. }
  { constructor; [|right; set_solver|set_solver].
    intros f [?|Ef%list_elem_of_singleton]; [set_solver|subst; apply rtc_refl]. }
  rewrite E. cbn [mbind option_bind]. eexists. split; [done|].
  assert ((match UsedFilesByFile c !! a with
           | Some used => negb (existsb (λ f, bool_decide (f ∈ used)) (elements R)) | None => true end) =
          negb (existsb (λ f, bool_decide (f ∈ used c a)) (elements R))) as ->.
  { unfold used. destruct (UsedFilesByFile c !! a); [done|]. cbn. induction (elements R) as [|x xs IH]; [done|].
    cbn. by rewrite bool_decide_eq_false_2 by set_solver. }
  rewrite negb_true_iff, <- not_true_iff_false, existsb_exists. split.
  - intros Hn. split; [done|]. intros (a' & b' & f & [= <-] & [= <-] & Hr & Hin). apply Hn. exists f. split.
    + apply list_elem_of_In, elem_of_elements. by apply HR.
    + apply bool_decide_eq_true. by apply Hu.
  - intros [_ Hn] (f & Hf1 & Hf2). apply Hn. exists a, b, f. split_and!; try done.
    + apply HR, elem_of_elements, list_elem_of_In, Hf1.
    + apply Hu. by apply bool_decide_eq_true in Hf2.
Qed.

(** C40: the check ends on every include graph and reports exactly the directives its
    records condemn, in their order. With fuel for the include edges and with macros
    not ignored, a directive is reported if and only if it is not an ignored system
    header and no file reachable from its header through include directives is recorded
    as providing a symbol, a type or a macro that the including file uses, uses inside
    macro bodies counting for the file that defines the macro. What is recorded is what
    the traversal sees: of a type, its first seven wrappers. *)
Theorem unused_includes_correct fuel sys events decls macros :
  let l := run_includes events in
  S (length (edges l)) ≤ fuel →
  ∃ flag : IncludeInfo → bool,
    run_check fuel sys false events decls macros = Some ((λ i, (IncLoc i, FileName i)) <$> filter (λ i, flag i = true) l) ∧
    ∀ i, flag i = true ↔ ¬ (sys = true ∧ IsSystemHeader i = true) ∧ ¬ provides l (run_uses false events decls macros) i.
Proof.
  intros l Hf. unfold run_check, onEndOfTranslationUnit.
  destruct (visits_spec (Check_ sys false [] ∅ false) events) as (E1 & E2 & E3 & E4 & Hu). cbn in E1, E2, E3, E4, Hu.
  set (c := foldl visit _ events) in *. set (c' := if has_AST c then _ else c).
  assert (records c c' (if existsb matches events then mbind (body_uses macros (typeFiles decls)) macros else [])) as Hr.
  { unfold c'. rewrite E4. destruct (existsb matches events); [|apply records_nil].
    apply records_fold. intros c0 m. apply records_body. }
  destruct Hr as (F1 & _ & F3 & _ & Hu'). rewrite F3, E3. fold l.
  assert (∀ i, ∃ r, reported fuel c' (IncludeGraph l) i = Some r ∧
    (r = true ↔ ¬ (sys = true ∧ IsSystemHeader i = true) ∧ ¬ provides l (run_uses false events decls macros) i)) as H.
  { intros i. rewrite <- E1, <- F1. apply reported_spec; [done|]. intros a b. rewrite Hu', Hu. unfold run_uses, used.
    rewrite elem_of_app. cbn. set_solver. }
  exists (λ i, default false (reported fuel c' (IncludeGraph l) i)). split.
  - assert (∀ i, is_Some (reported fuel c' (IncludeGraph l) i)) as Hs by (intros i; destruct (H i) as (r & -> & _); eauto).
    clear - Hs. generalize dependent (IncludeGraph l). intros g Hs. induction l as [|i k IH]; [done|]. cbn [report].
    destruct (Hs i) as [r E]. rewrite filter_cons, E. cbn [mbind option_bind default]. rewrite IH. destruct r; reflexivity.
  - intros i. destruct (H i) as (r & -> & Hr). exact Hr.
Qed.

(** main.c (file 0) includes a.h (1), which includes b.h (2), and c.h (3); it calls a
    function declared in b.h. *)
Definition at_ (f : nat) : SourceLocation := Loc true (Some f) false.
Definition example_events : list event :=
  [EvInclude (at_ 0) (B "a.h") (Some 1) false; EvInclude (at_ 1) (B "b.h") (Some 2) false;
   EvInclude (at_ 0) (B "c.h") (Some 3) false;
   EvStmt (Node OtherStmt (at_ 0) [Node (CallExpr (Some (at_ 2))) (at_ 0) []])].

Lemma unused_includes_correct_witness :
  ∃ ds, run_check 4 false false example_events [] [] = Some ds ∧ ds = [(at_ 1, B "b.h"); (at_ 0, B "c.h")] ∧
    ¬ provides (run_includes example_events) (run_uses false example_events [] []) (Include (Some 3) (Some 0) (at_ 0) false (B "c.h")).
Proof.
  destruct (unused_includes_correct 4 false example_events [] []) as (flag & E & H); [vm_compute; lia|].
  assert (run_check 4 false false example_events [] [] = Some [(at_ 1, B "b.h"); (at_ 0, B "c.h")]) as E' by (vm_compute; reflexivity).
  exists [(at_ 1, B "b.h"); (at_ 0, B "c.h")]. split_and!; [done|done|].
  apply (H (Include (Some 3) (Some 0) (at_ 0) false (B "c.h"))).
  rewrite E' in E. change (run_includes example_events) with
    [Include (Some 1) (Some 0) (at_ 0) false (B "a.h"); Include (Some 2) (Some 1) (at_ 1) false (B "b.h");
     Include (Some 3) (Some 0) (at_ 0) false (B "c.h")] in E.
  destruct (flag (Include (Some 3) (Some 0) (at_ 0) false (B "c.h"))) eqn:F; [done|].
  rewrite !filter_cons, F in E. repeat case_decide; simplify_eq/=; discriminate.
Defined.

(** A type under more than seven wrappers is not seen: the header of [struct s] is
    reported although the file declares a pointer of depth eight to it. *)
Fixpoint pointers (n : nat) (t : QualType) : QualType := match n with O => t | S n => PointerType (pointers n t) end.
Definition deep_events (n : nat) : list event :=
  [EvInclude (at_ 0) (B "s.h") (Some 1) false; EvType (at_ 0) (pointers n (TagType (at_ 1)))].
Example deep_type_missed :
  run_check 2 false false (deep_events 7) [] [] = Some [] ∧
  run_check 2 false false (deep_events 8) [] [] = Some [(at_ 0, B "s.h")].
Proof. split; vm_compute; reflexivity. Qed.

(** [IgnoreMacros] does not reach the analysis of macro bodies: with it set, a header
    that provides only a macro used in another macro's body still counts as used. *)
Definition body_events (e : event) : list event := [EvInclude (at_ 0) (B "m.h") (Some 1) false; e].
Definition body_macros : list MacroDef := [Macro 10 (Some (at_ 0)) true [Some 11]; Macro 11 (Some (at_ 1)) true []].
Example bodies_ignore_the_option :
  run_check 2 false true (body_events (EvStmt (Node OtherStmt (at_ 0) []))) [] body_macros = Some [] ∧
  run_check 2 false true (body_events (EvMacro (at_ 0) (Some (at_ 1)))) [] [] = Some [(at_ 0, B "m.h")].
Proof. split; vm_compute; reflexivity. Qed.
